(* ===== verification/_CoqProject ===== *)
-Q . S2P
Prelude.v
Wire.v
Crypto.v
Hybrid.v
Toy.v
Ratchet.v
Conversation.v
SenderKeys.v
TreeNode.v
TreeCodec.v
TreeKem.v
TreeAgree.v
TreeGroup.v
TreeSecurity.v
TreeDemo.v
Frag.v
Marking.v
Frames.v
Engine.v
EngineProps.v
EngineRoster.v
EngineDemo.v
Store.v
Outbox.v
Forward.v
ForwardProps.v
ForwardDemo.v
Noise.v
Suite.v
Handshake.v
Relay.v
B32.v
Codec.v
Account.v
Vouch.v
Contacts.v
Linkage.v
Presence.v
People.v
PeopleProps.v
PeopleDemo.v
Signing.v
Invite.v
Mls.v
MlsKeys.v
Advert.v
Channel.v
Registry.v
Linking.v
Custody.v
Helper.v
KeyHelper.v
Radio.v
MeshLink.v
Entropy.v
Multi.v
Console.v
