(* ===== verification/Prelude.v ===== *)
(** * Talkrypt: a verification development

    Talkrypt is a post-quantum end-to-end encrypted chat.  Two peers talk over a
    Double Ratchet; groups run over a TreeKEM ratchet tree whose host commits
    membership changes; an engine carries frames between them, stores what is
    not yet delivered and may ride a radio mesh.  This library models the parts of
    [src/crates] that carry that logic and proves what makes them correct.

    ** Conventions

    Pure functions are functions.  A [&mut self] method is a computation in
    [ST S E A] (state in, result and state out: writes made before an early return
    stay).  [Result] is [result]; a panic ([unwrap], [expect], slice bounds) is the
    [Panic] of [fault] or the error of the monad, never a default.  A [u32] is an
    integer kept in range with its wrap-around written out ([u32_add]): the
    release profile sets no overflow checks.  Byte strings are lists of bytes,
    a [String] is its UTF-8 bytes.  [HashMap] iteration order is [map_to_list]'s;
    theorems that depend on an order say so up to permutation.

    Third-party code (KMAC, AES-GCM, ML-KEM, X25519, ML-DSA, the OS generator,
    SHA-256, SHA3-384, HKDF, Argon2id) is a parameter: the class
    [Crypto.Primitives], or arguments such as [sha256], [sha3_384], [hkdf_expand] and
    [argon2id].  What the protocols rely on (lengths, correctness of decapsulation,
    of Diffie-Hellman and of signatures, that AES-GCM opens exactly what it
    sealed) is [Crypto.PrimitivesOk]; [Toy] instantiates it with small executable
    functions, and every theorem with hypotheses is applied at a concrete input
    in a witness.

    ** Files

    - [Prelude]: results, the state monad, machine integers, bytes, automation.
    - [Wire] (wire/src/lib.rs): writer, reader, bucket padding, the fixed-capacity
      decoder; [decodes]/[inverts] lemmas that compose along codecs.
    - [Crypto], [Hybrid] (crypto/src/{error,kdf,aead,identity,hybrid}.rs): key
      schedule, sealing, identities, hybrid KEM ratchet keys.
    - [Ratchet], [Conversation] (crypto/src/ratchet.rs): the Double Ratchet
      session; what two sessions do together.
    - [SenderKeys] (crypto/src/group.rs): sender-key broadcasts.
    - [TreeNode], [TreeCodec], [TreeKem] (crypto/src/treekem.rs): nodes, wire
      messages, the whole group state machine.  [TreeAgree] proves that an honest
      commit takes host and members to matching states, [TreeGroup] that no
      sequence of operations splits a group, [TreeSecurity] authentication and
      exclusion; [TreeDemo] runs a concrete group.
    - [Frag] (transport/src/mesh/frag.rs): mesh fragmentation and reassembly.
    - [Marking] (core/src/marking.rs, error.rs): markings and message payloads.
    - [Frames], [Engine] (core/src/engine.rs): session frames; the handlers that
      change the group, roster, promotion, backlog and persistence of a node
      ([GroupNode]).  [EngineProps] and [EngineRoster] hold their theorems,
      [EngineDemo] their witnesses.
    - [Store] (core/src/{outbox,history,atrest}.rs): the [OutboxStore] interface as
      a class with laws, proved for the in-memory store and for the sealed
      on-disk store over a model of the file system.
    - [Outbox] (core/src/{outbox,keeper}.rs): the outbox and keeper queues, proved
      against the interface.
    - [Forward], [ForwardProps], [ForwardDemo] (core/src/engine.rs): deduplication,
      group messages, sending, acknowledgement, keepers, anchor mailboxes and
      anti-entropy, on a node [FwdNode] that extends [GroupNode].
    - [Noise] (crypto/src/noise.rs): the PQ-Noise session.
    - [Suite] (crypto/src/suite.rs): the [CryptoSuite] trait as a record of
      operations, its promise [SuiteOk] proved for the Double Ratchet and the
      PQ-Noise suite, and the registry with its floor.
    - [Handshake] (core/src/handshake.rs): both roles of the session handshake
      over a stream, for any suite that keeps the promise.
    - [Relay] (core/src/relay.rs, [Routed] of engine.rs): the non-member relay as a
      step relation over its concurrent tasks.
    - [Codec]: the interface between a reader and the encoding it accepts, as a
      class with instances for every combinator of the wire formats below.
    - [Account] (crypto/src/{account,grouping}.rs): certificates, identity chains,
      username claims, revocations, per-chat grouping keys.
    - [Contacts], [Linkage], [Vouch], [Presence] (core/src/{contacts,linkage,vouch,
      presence,nametrust}.rs): the contact store and identity presentations,
      linkage proofs, vouches with the evaluator, name announcements, the name
      book and the rendering of names.
    - [People] (core/src/engine.rs): the node's state about the people in a chat
      and every handler and user action that changes it; it takes over what
      [Forward] hands to it.  [PeopleProps] has the theorems over arbitrary runs,
      [PeopleDemo] the witnesses and corner cases.
    - [Signing]: the eight uses of an identity key and what a signature proves.
    - [B32], [Invite] (core/src/{b32,descriptor}.rs): base32 text, chat descriptors
      in their seven versions, the [talkrypt://] form and the session root.
    - [Mls], [MlsKeys] (crypto/src/mls/): tree math on array indices; labelled
      formats, key schedule, secret tree, labelled encryption and signatures.
    - [Advert] (crypto/src/beacon.rs, core/src/advert.rs): scheme beacons, their
      sealing, advertisements and the directory store.
    - [Channel], [Registry], [Linking] (core/src/{registry,linking}.rs): requests
      and replies over a session; the username registry with its client, and the
      one-time offer that certifies a new device.
    - [Custody] (core/src/{custody,seal}.rs, server/src/keystore.rs): custody tiers,
      the sealed envelope with its passphrase and hardware factors, keystore blobs.
    - [Helper], [KeyHelper] (helper/src/): the key-custody helper: frames and
      formats; the tiered store over a directory whose operations may fail, the
      dispatcher, the connection loop and the client.
    - [Radio], [MeshLink] (transport/src/mesh/{meshtastic,meshcore,mqtt,mod,beacon,
      transport}.rs): what the radios speak over serial ports and MQTT, incremental
      deframing behind the class [Incremental], ingest and beacons; the reliable
      connections with acknowledgements on top, and a writer, a reader and the air
      between them as a machine.
    - [Entropy] (crypto/src/{rng,selftest}.rs): the health tests of the system's
      generator and the gate in front of all randomness.
    - [Multi] (transport/src/{multi,framing}.rs): one transport over several
      networks, with the legs as a record of operations, and its accept queue.
    - [Console] (replcmd/src/lib.rs, contacts file of cli/src/main.rs): the commands
      the front ends share, and the contact and seed files.

    ** What is shown

    - Codecs: length-prefixed fields, frames, payloads, promotion bodies, tree
      nodes and Welcomes decode exactly their encodings; signed transcripts are
      injective across purposes; padding round-trips and hides lengths.
    - Sessions: conversations deliver across any ratchet steps, in any order and
      with losses; hostile bytes neither panic nor change a session; a message
      key is used once.
    - Suites and set-up: a suite below the floor is not handed out; an honest
      handshake completes and its sessions deliver; against a hostile network a
      completed side agrees with an execution of its peer on identities, nonces,
      suite and prekey, unless a signature was forged.
    - Relay: in every interleaving, what is forwarded is what a participant sent,
      stamped with the fingerprint it authenticated with, to a participant its
      route names.
    - Groups: in every reachable group host and members agree and every next
      operation succeeds; commits, updates and messages are authenticated before
      they touch anything; a removed member holds no key of the new path.
    - Engine: members catch up on commits in any order of arrival and the loop
      ends; a member's roster is the host's; promotions and retention follow
      consent, with the cases where any member can subvert them.
    - Store and forward: the outbox refines a bounded queue over any lawful
      store and survives restarts; a crash anywhere in a write leaves every chat as
      before it or as after it; a message is processed once; keepers
      replay to members that were away and converge; and where messages or
      acknowledgements get lost.
    - People: what a node believes about vouches, names, admissions and leaf
      accounts is backed by signatures, in every run of handlers and user actions,
      and does not roll back; announcements are rate-limited; the vouch evaluator
      computes a closed form in which a second identity of one operator never
      pays; imitated names are suppressed or carry a warning.
    - Signatures: the bytes signed in the eight uses of an identity key determine
      the use and its fields, so a verified chain from an honest account consists
      of certificates really issued.
    - Invites: an invite survives its text form, the text after the scheme in any
      letter case and with white space around it;
      whatever text is accepted is a well-formed descriptor; the session root binds
      token, suite, anonymity requirement and password; advertisements open for
      the holders of the invite.
    - MLS: the index arithmetic refines navigation in a binary tree; no two messages
      of an epoch share a key unless HKDF collides on the inputs used; what is
      sealed under a label opens under that label only.
    - Registry and linking: a registry serves the latest claim of whoever claimed a
      name first, and one honest registry among those asked keeps a name from
      resolving elsewhere; an offer sends one certificate at most, to an approved
      device on the last connection it serves, and an approved pairing completes.
    - Keys at rest: a sealed secret opens with its factors and nothing less, unless
      the key derivation collides or the ciphertext is ambiguous; the helper
      returns what it acknowledged whatever fails for other keys, and only sealed
      bytes reach its directory.
    - Mesh: fragmented messages arrive whatever the order and interleaving, while the
      distinct messages in flight and their bytes are within the limits; the
      reassembler is bounded in messages, but not by its byte cap.
    - Radio: however a serial port cuts its bytes the node's packets come out, with a
      bounded buffer; over a radio that loses packets, what the reliable link reports
      as sent has arrived whole and in order, a one-segment frame perhaps twice.
    - Randomness: the health tests reject exactly the samples with a long run or a
      window dominated by its first byte, and nothing is drawn before they passed.
    - Networks and console: an advertised address reads back as every leg that came
      up and is dialled on its leg, the accept queue keeps each leg's order; commands
      act on the one account a prefix fits or on none; contacts survive their file.

    ** Fuel and bounds

    Recursion is structural or on a measure that is proved enough.  [TREE_FUEL] is
    33: node spans are powers of two below [2^32], so no climb or resolution is
    deeper ([TreeNode.tree_fuel_big], [resolution_fuel_more]).  The commit loop
    of a member gets one turn per buffered commit plus one; the loop without any budget
    ends within that many turns ([EngineProps.handle_commit_terminates]).  [chunks] runs on
    the length of its input, [B32.emit] on the number of live bits, [Invite.trim] on
    the length of the text (every turn but the last shortens it).  The helper's
    connection loop runs on the length of its input ([KeyHelper.handle_conn_returns]),
    field parsers and deframers on the length of their buffer ([Radio.deframe_fuel]);
    a varint has ten groups.  [SHIFT_FUEL] is
    33: a loop over the bits of a [u32] that has not ended by then repeats itself,
    and [Mls.root_loops] proves one that does.

    ** Not modelled

    Sockets, serial ports and the MQTT, Tor and Nym clients, timers and task scheduling
    (the engine's handlers are atomic steps here; the relay's are not), memory
    zeroisation and locking, and the front ends but for the commands in [Console].
    Unicode NFKC normalisation and case folding are a parameter.
    Also left out: the platform backends of key custody (keychains, TPM, HSM bridge;
    the store takes them as parameters), the conformance and parity reports, radio
    pacing (floating point) and the start-up wiring of server and topology. *)

From stdpp Require Export prelude gmap strings list.
From Stdlib Require Export ZArith Lia.
From Stdlib Require Import Strings.Byte.

#[global] Open Scope Z_scope.

(** ** Results

    [Result<T, E>] of the source. *)

Inductive result (E A : Type) : Type :=
| Ok (a : A)
| Err (e : E).
Arguments Ok {E A} a.
Arguments Err {E A} e.

Definition is_ok {E A} (r : result E A) : bool :=
  match r with Ok _ => true | Err _ => false end.

Definition map_err {E F A} (f : E -> F) (r : result E A) : result F A :=
  match r with Ok a => Ok a | Err e => Err (f e) end.

Definition ok_or {E A} (o : option A) (e : E) : result E A :=
  match o with Some a => Ok a | None => Err e end.

(** [Result::ok] *)
Definition to_option {E A} (r : result E A) : option A :=
  match r with Ok a => Some a | Err _ => None end.

Definition rbind {E A B} (r : result E A) (k : A -> result E B) : result E B :=
  match r with Ok a => k a | Err e => Err e end.

Declare Scope tk_scope.
Delimit Scope tk_scope with tk.
Notation "'let*' x ':=' r 'in' k" := (rbind r (fun x => k))
  (at level 200, x pattern, r at level 100, k at level 200, right associativity) : tk_scope.
Open Scope tk_scope.

Lemma rbind_Ok {E A B} (r : result E A) (k : A -> result E B) b :
  rbind r k = Ok b <-> exists a, r = Ok a /\ k a = Ok b.
Proof. destruct r; simpl; naive_solver. Qed.

Lemma to_option_Some {E A} (r : result E A) a : to_option r = Some a <-> r = Ok a.
Proof. destruct r; simpl; naive_solver. Qed.

Lemma ok_or_Ok {E A} (o : option A) (e : E) a : ok_or o e = Ok a <-> o = Some a.
Proof. destruct o; simpl; naive_solver. Qed.

(** ** A state-and-error monad for [&mut self] methods

    The state survives an early return: a Rust method that has written to a
    field before it fails leaves that write behind, and so does [st_bind]. *)

Definition ST (S E A : Type) : Type := S -> result E A * S.

Definition st_ret {S E A} (a : A) : ST S E A := fun s => (Ok a, s).
Definition st_err {S E A} (e : E) : ST S E A := fun s => (Err e, s).
Definition st_bind {S E A B} (m : ST S E A) (k : A -> ST S E B) : ST S E B :=
  fun s => match m s with
           | (Ok a, s') => k a s'
           | (Err e, s') => (Err e, s')
           end.
Definition st_get {S E} : ST S E S := fun s => (Ok s, s).
Definition st_modify {S E} (f : S -> S) : ST S E unit := fun s => (Ok tt, f s).
Definition st_lift {S E A} (r : result E A) : ST S E A := fun s => (r, s).
Definition st_guard {S E} (b : bool) (e : E) : ST S E unit :=
  fun s => if b then (Ok tt, s) else (Err e, s).

Notation "'do*' x ':=' m 'in' k" := (st_bind m (fun x => k))
  (at level 200, x pattern, m at level 100, k at level 200, right associativity) : tk_scope.

(** A [for] loop over a list in the monad. *)
Fixpoint st_iter {S E A} (f : A -> ST S E unit) (l : list A) : ST S E unit :=
  match l with
  | [] => st_ret tt
  | a :: l' => do* _ := f a in st_iter f l'
  end.

(** Inversion of a successful run, one [do*] at a time. *)
Lemma st_bind_Ok {S E A B} (m : ST S E A) (k : A -> ST S E B) s b s' :
  st_bind m k s = (Ok b, s') <-> exists a s1, m s = (Ok a, s1) /\ k a s1 = (Ok b, s').
Proof. unfold st_bind. destruct (m s) as [[]]; naive_solver. Qed.

(** Weakest preconditions: [wp m Q s] says that running [m] from [s] ends in a
    result and a state that satisfy [Q], on every branch. *)
Definition wp {S E A} (m : ST S E A) (Q : result E A -> S -> Prop) (s : S) : Prop :=
  Q (m s).1 (m s).2.

Lemma wp_bind {S E A B} (m : ST S E A) (k : A -> ST S E B) Q s :
  wp m (fun r s' => match r with Ok a => wp (k a) Q s' | Err e => Q (Err e) s' end) s ->
  wp (st_bind m k) Q s.
Proof. unfold wp, st_bind. destruct (m s) as [[a|e] s']; done. Qed.
Lemma wp_ret {S E A} (a : A) (Q : result E A -> S -> Prop) s : Q (Ok a) s -> wp (st_ret a) Q s.
Proof. done. Qed.
Lemma wp_err {S E A} (e : E) (Q : result E A -> S -> Prop) s : Q (Err e) s -> wp (st_err e) Q s.
Proof. done. Qed.
Lemma wp_get {S E} (Q : result E S -> S -> Prop) s : Q (Ok s) s -> wp st_get Q s.
Proof. done. Qed.
Lemma wp_modify {S E} f (Q : result E unit -> S -> Prop) s :
  Q (Ok tt) (f s) -> wp (st_modify f) Q s.
Proof. done. Qed.
Lemma wp_lift {S E A} (r : result E A) (Q : result E A -> S -> Prop) s :
  Q r s -> wp (st_lift r) Q s.
Proof. done. Qed.
Lemma wp_mono {S E A} (m : ST S E A) (Q Q' : result E A -> S -> Prop) s :
  wp m Q s -> (forall r s', Q r s' -> Q' r s') -> wp m Q' s.
Proof. unfold wp. auto. Qed.

(** Run the first command of a [do*] block. *)
Ltac wp_step :=
  lazymatch goal with
  | |- wp (st_bind _ _) _ _ => apply wp_bind
  | |- wp (st_ret _) _ _ => apply wp_ret
  | |- wp (st_err _) _ _ => apply wp_err
  | |- wp st_get _ _ => apply wp_get
  | |- wp (st_modify _) _ _ => apply wp_modify
  | |- wp (st_lift _) _ _ => apply wp_lift
  end; cbv beta iota.

(** ** Machine integers *)

Definition u32_max : Z := 4294967295.
Definition usize_max : Z := 18446744073709551615.

Definition is_u32 (z : Z) : Prop := 0 <= z < 2 ^ 32.
Definition is_u64 (z : Z) : Prop := 0 <= z < 2 ^ 64.

#[export] Instance is_u32_dec z : Decision (is_u32 z).
Proof. unfold is_u32; apply _. Defined.
#[export] Instance is_u64_dec z : Decision (is_u64 z).
Proof. unfold is_u64; apply _. Defined.

(** Release builds wrap: the workspace sets no [overflow-checks]. *)
Definition u32_wrap (z : Z) : Z := z mod 2 ^ 32.
Definition u32_add (a b : Z) : Z := u32_wrap (a + b).

Definition usize_checked_add (a b : Z) : option Z :=
  if decide (a + b <= usize_max) then Some (a + b) else None.
Definition u32_checked_add (a b : Z) : option Z :=
  if decide (a + b <= u32_max) then Some (a + b) else None.

Lemma u32_wrap_small z : is_u32 z -> u32_wrap z = z.
Proof. unfold is_u32, u32_wrap. intros. by apply Z.mod_small. Qed.

(** ** Bytes *)

Abbreviation byte := Byte.byte.
Abbreviation bytes := (list byte).

Definition bval (b : byte) : Z := Z.of_N (Byte.to_N b).
Definition byte_of (z : Z) : byte :=
  match Byte.of_N (Z.to_N (z mod 256)) with Some b => b | None => Byte.x00 end.

Lemma bval_range b : 0 <= bval b < 256.
Proof. unfold bval. pose proof (Byte.to_N_bounded b). lia. Qed.

Lemma byte_of_bval b : byte_of (bval b) = b.
Proof.
  unfold byte_of. rewrite Z.mod_small by apply bval_range.
  unfold bval. by rewrite N2Z.id, Byte.of_to_N.
Qed.

Lemma bval_byte_of z : bval (byte_of z) = z mod 256.
Proof.
  unfold byte_of. pose proof (Z.mod_pos_bound z 256 ltac:(lia)).
  destruct (Byte.of_N _) as [b|] eqn:E.
  - apply Byte.to_of_N in E. unfold bval. rewrite E. lia.
  - apply Byte.of_N_None_iff in E. lia.
Qed.

Lemma bval_inj a b : bval a = bval b -> a = b.
Proof. intros H. by rewrite <- (byte_of_bval a), H, byte_of_bval. Qed.

#[export] Instance byte_eq_dec : EqDecision byte := Byte.byte_eq_dec.
#[export] Program Instance byte_countable : Countable byte :=
  inj_countable Byte.to_N Byte.of_N _.
Next Obligation. apply Byte.of_to_N. Qed.

(** Byte-string literals, [b"..."] in the source. *)
Definition bstr (s : string) : bytes := String.list_byte_of_string s.

Definition zlen {A} (l : list A) : Z := Z.of_nat (length l).

Lemma zlen_nonneg {A} (l : list A) : 0 <= zlen l.
Proof. unfold zlen. lia. Qed.
Lemma zlen_app {A} (l k : list A) : zlen (l ++ k) = zlen l + zlen k.
Proof. unfold zlen. rewrite length_app. lia. Qed.
Lemma zlen_cons {A} (a : A) l : zlen (a :: l) = 1 + zlen l.
Proof. unfold zlen. simpl. lia. Qed.
Lemma zlen_nil {A} : zlen (@nil A) = 0.
Proof. done. Qed.

Lemma bstr_inj a b : bstr a = bstr b -> a = b.
Proof.
  unfold bstr. intros E. apply (f_equal String.string_of_list_byte) in E.
  by rewrite !String.string_of_list_byte_of_string in E.
Qed.

(** Big-endian integers: [to_be_bytes] at [n] bytes and [from_be_bytes]. *)
Fixpoint be_bytes (n : nat) (z : Z) : bytes :=
  match n with
  | O => []
  | S m => byte_of (Z.shiftr z (8 * Z.of_nat m)) :: be_bytes m z
  end.

Definition be_val (l : bytes) : Z := foldl (fun acc b => acc * 256 + bval b) 0 l.

Lemma length_be_bytes n z : length (be_bytes n z) = n.
Proof. induction n; simpl; congruence. Qed.

Lemma zlen_be_bytes n z : zlen (be_bytes n z) = Z.of_nat n.
Proof. unfold zlen. by rewrite length_be_bytes. Qed.

Lemma be_val_acc l acc :
  foldl (fun acc b => acc * 256 + bval b) acc l = acc * 256 ^ zlen l + be_val l.
Proof.
  unfold be_val. revert acc. induction l as [|b l IH]; intros acc; simpl.
  - rewrite zlen_nil. lia.
  - rewrite IH, (IH (0 * 256 + bval b)), zlen_cons, Z.pow_add_r by (pose proof (zlen_nonneg l); lia).
    lia.
Qed.

Lemma be_val_cons b l : be_val (b :: l) = bval b * 256 ^ zlen l + be_val l.
Proof. unfold be_val at 1. simpl. by rewrite be_val_acc. Qed.

Lemma be_val_range l : 0 <= be_val l < 256 ^ zlen l.
Proof.
  induction l as [|b l IH]; [done|].
  rewrite be_val_cons, zlen_cons, Z.pow_add_r by (pose proof (zlen_nonneg l); lia).
  pose proof (bval_range b). nia.
Qed.

Lemma be_val_bytes n z : be_val (be_bytes n z) = z mod 256 ^ Z.of_nat n.
Proof.
  induction n as [|n IH]; [by rewrite Z.mod_1_r|].
  cbn [be_bytes]. rewrite be_val_cons. unfold zlen. rewrite length_be_bytes, IH, bval_byte_of.
  rewrite Nat2Z.inj_succ, Z.pow_succ_r by lia.
  rewrite Z.shiftr_div_pow2, Z.pow_mul_r by lia. change (2 ^ 8) with 256.
  rewrite (Z.mul_comm 256), Z.rem_mul_r by lia. lia.
Qed.

Lemma be_bytes_val l : be_bytes (length l) (be_val l) = l.
Proof.
  assert (forall l m, be_bytes (length l) (m * 256 ^ zlen l + be_val l) = l) as H.
  { clear l. induction l as [|b l IH]; intros m; [done|].
    cbn [length be_bytes]. pose proof (zlen_nonneg l). pose proof (be_val_range l).
    rewrite be_val_cons, zlen_cons, Z.pow_add_r by lia. f_equal.
    - apply bval_inj. rewrite bval_byte_of, Z.shiftr_div_pow2, Z.pow_mul_r by lia.
      change (2 ^ 8) with 256. fold (zlen l).
      replace (_ + _) with ((m * 256 + bval b) * 256 ^ zlen l + be_val l) by lia.
      rewrite Z.div_add_l, (Z.div_small (be_val l)) by lia.
      rewrite Z.add_0_r, Z.add_comm, Z.mod_add by lia. apply Z.mod_small, bval_range.
    - replace (_ + _) with ((m * 256 + bval b) * 256 ^ zlen l + be_val l) by lia.
      apply IH. }
  specialize (H l 0). by rewrite Z.mul_0_l, Z.add_0_l in H.
Qed.

Lemma be_bytes_inj n a b :
  0 <= a < 256 ^ Z.of_nat n -> 0 <= b < 256 ^ Z.of_nat n ->
  be_bytes n a = be_bytes n b -> a = b.
Proof.
  intros Ha Hb E. apply (f_equal be_val) in E. rewrite !be_val_bytes in E.
  by rewrite !Z.mod_small in E.
Qed.

Lemma be_bytes_1 z : be_bytes 1 z = [byte_of z].
Proof. cbn [be_bytes]. by rewrite Z.shiftr_0_r. Qed.

#[global] Opaque be_bytes.
#[global] Arguments be_val : simpl never.
#[global] Arguments byte_of : simpl never.

(** ** Lists *)

Lemma app_inj_len {A} (a b c d : list A) :
  length a = length c -> a ++ b = c ++ d -> a = c /\ b = d.
Proof. intros. by apply app_inj_1. Qed.

Lemma take_drop_slice {A} (l : list A) i n :
  take n (drop i l) ++ drop (i + n) l = drop i l.
Proof. rewrite <- drop_drop. apply take_drop. Qed.

(** ** Automation *)

(** Case analysis on every [result]/[option] match of a hypothesis. *)
Ltac inv_run :=
  repeat match goal with
  | H : rbind _ _ = Ok _ |- _ => apply rbind_Ok in H as (? & ? & H)
  | H : st_bind _ _ _ = (Ok _, _) |- _ => apply st_bind_Ok in H as (? & ? & ? & H)
  | H : ok_or _ _ = Ok _ |- _ => apply ok_or_Ok in H
  | H : to_option _ = Some _ |- _ => apply to_option_Some in H
  | H : Ok _ = Ok _ |- _ => injection H as H
  | H : Some _ = Some _ |- _ => injection H as H
  | H : Err _ = Ok _ |- _ => discriminate H
  | H : Ok _ = Err _ |- _ => discriminate H
  | H : None = Some _ |- _ => discriminate H
  end.

Create HintDb tk discriminated.
#[export] Hint Resolve zlen_nonneg bval_range : tk.
