(* ===== verification/Wire.v ===== *)
(** * The wire codec (crates/wire/src/lib.rs)

    [Writer] appends big-endian integers and length-prefixed fields to a byte
    buffer; [Reader] walks a byte slice with a cursor.  A decoder is a function
    from a reader to a result with the advanced reader ([Get]); [decodes g e x]
    says that [g] consumes exactly the encoding [e] in front of any tail and
    returns [x], and it composes along [gbind] the way the decoders are
    written.  The file ends with the length-bucketing pad and with the
    fixed-capacity decoder of [wire::bounded]. *)

From S2P Require Import Prelude.

(** [MAX_FRAME]: 16 MiB *)
Definition MAX_FRAME : Z := 16 * 1024 * 1024.

Inductive WireError : Type :=
| UnexpectedEof (needed had : Z)
| FrameTooLarge (len max : Z)
| TrailingBytes (n : Z).

(** ** Writer *)

Record Writer : Type := mkWriter { w_buf : bytes }.

Definition w_new : Writer := mkWriter [].
Definition put_u8 (v : Z) (w : Writer) : Writer := mkWriter (w_buf w ++ [byte_of v]).
Definition put_u32 (v : Z) (w : Writer) : Writer := mkWriter (w_buf w ++ be_bytes 4 v).
Definition put_u64 (v : Z) (w : Writer) : Writer := mkWriter (w_buf w ++ be_bytes 8 v).
(** [bytes.len() as u32] keeps the low 32 bits; [be_bytes 4] does that. *)
Definition put_bytes (b : bytes) (w : Writer) : Writer :=
  let w := put_u32 (u32_wrap (zlen b)) w in
  mkWriter (w_buf w ++ b).
Definition into_vec (w : Writer) : bytes := w_buf w.

Notation "w |> f" := (f w) (at level 61, left associativity, only parsing) : tk_scope.

(** A [for] loop that writes every element. *)
Fixpoint put_each {A} (f : A -> Writer -> Writer) (l : list A) (w : Writer) : Writer :=
  match l with
  | [] => w
  | a :: l' => put_each f l' (f a w)
  end.

(** ** Reader *)

Record Reader : Type := mkReader { r_buf : bytes; r_pos : Z }.

Definition r_new (b : bytes) : Reader := mkReader b 0.

Definition remaining (r : Reader) : Z := zlen (r_buf r) - r_pos r.

(** [&self.buf[self.pos..]] *)
Definition rest (r : Reader) : bytes := drop (Z.to_nat (r_pos r)) (r_buf r).

Definition Get (E A : Type) : Type := Reader -> result E (A * Reader).

Definition r_take (n : Z) : Get WireError bytes := fun r =>
  match usize_checked_add (r_pos r) n with
  | None => Err (UnexpectedEof n (remaining r))
  | Some e =>
      if decide (e > zlen (r_buf r)) then Err (UnexpectedEof n (remaining r))
      else Ok (take (Z.to_nat (e - r_pos r)) (rest r), mkReader (r_buf r) e)
  end.

Definition get_u8 : Get WireError Z := fun r =>
  let* (b, r) := r_take 1 r in Ok (be_val b, r).
Definition get_u32 : Get WireError Z := fun r =>
  let* (b, r) := r_take 4 r in Ok (be_val b, r).
Definition get_u64 : Get WireError Z := fun r =>
  let* (b, r) := r_take 8 r in Ok (be_val b, r).

Definition get_bytes : Get WireError bytes := fun r =>
  let* (len, r) := get_u32 r in
  if decide (len > MAX_FRAME) then Err (FrameTooLarge len MAX_FRAME)
  else r_take len r.

(** [get_bytes()?.to_vec()] *)
Definition get_vec : Get WireError bytes := get_bytes.

Definition finish : Get WireError unit := fun r =>
  if decide (remaining r <> 0) then Err (TrailingBytes (remaining r)) else Ok (tt, r).

(** The [?] operator on a wire call inside a function with error type [E]:
    [From<WireError> for E].  Decoders returning [Option] write [.ok()?]; they
    are modelled at error type [unit]. *)
Class FromWire (E : Type) := from_wire : WireError -> E.
#[export] Instance from_wire_wire : FromWire WireError := id.
#[export] Instance from_wire_none : FromWire unit := fun _ => tt.

Definition q {E A} `{FromWire E} (g : Get WireError A) : Get E A :=
  fun r => map_err from_wire (g r).

Definition gret {E A} (a : A) : Get E A := fun r => Ok (a, r).
Definition gfail {E A} (e : E) : Get E A := fun _ => Err e.
Definition gbind {E A B} (g : Get E A) (k : A -> Get E B) : Get E B :=
  fun r => let* (a, r) := g r in k a r.
Definition glift {E A} (x : result E A) : Get E A := fun r => let* a := x in Ok (a, r).

Notation "'get*' x ':=' g 'in' k" := (gbind g (fun x => k))
  (at level 200, x pattern, g at level 100, k at level 200, right associativity) : tk_scope.

(** [for _ in 0..n { v.push(g) }] *)
Fixpoint get_times {E A} (n : nat) (g : Get E A) : Get E (list A) :=
  match n with
  | O => gret []
  | S n => get* x := g in get* xs := get_times n g in gret (x :: xs)
  end.

(** Running a decoder on a whole buffer. *)
Definition run_get {E A} (g : Get E A) (b : bytes) : result E A :=
  let* (a, _) := g (r_new b) in Ok a.

(** ** Length-bucketing pad *)

Definition clamp (x lo hi : Z) : Z := Z.max lo (Z.min x hi).

Definition padded_len (raw step : Z) : Z :=
  let step := clamp step 1 MAX_FRAME in
  match usize_checked_add raw (step - 1) with
  | Some x => (x / step) * step
  | None => raw
  end.

Definition resize {A} (n : nat) (d : A) (l : list A) : list A :=
  if decide (n <= length l)%nat then take n l else l ++ replicate (n - length l) d.

Definition pad_to_bucket (payload : bytes) (step : Z) : bytes :=
  let raw := 4 + zlen payload in
  let total := Z.max (padded_len raw step) raw in
  let out := be_bytes 4 (u32_wrap (zlen payload)) ++ payload in
  resize (Z.to_nat total) (byte_of 0) out.

Definition unpad_bucket (padded : bytes) : option bytes :=
  if decide (zlen padded < 4) then None
  else
    let real := be_val (take 4 padded) in
    if decide (real > MAX_FRAME) then None
    else
      match usize_checked_add 4 real with
      | None => None
      | Some e =>
          if decide (e > zlen padded) then None
          else Some (take (Z.to_nat real) (drop 4 padded))
      end.

(** ** Writer lemmas *)

Definition enc_bytes (b : bytes) : bytes := be_bytes 4 (zlen b) ++ b.

Lemma be_bytes_4_wrap z : be_bytes 4 (u32_wrap z) = be_bytes 4 z.
Proof.
  rewrite <- (be_bytes_val (be_bytes 4 (u32_wrap z))), <- (be_bytes_val (be_bytes 4 z)).
  rewrite !length_be_bytes, !be_val_bytes. f_equal. unfold u32_wrap.
  change (256 ^ Z.of_nat 4) with (2 ^ 32). by rewrite Z.mod_mod by lia.
Qed.

Lemma into_vec_new : into_vec w_new = [].
Proof. done. Qed.
Lemma into_vec_put_u8 v w : into_vec (put_u8 v w) = into_vec w ++ [byte_of v].
Proof. done. Qed.
Lemma into_vec_put_u32 v w : into_vec (put_u32 v w) = into_vec w ++ be_bytes 4 v.
Proof. done. Qed.
Lemma into_vec_put_u64 v w : into_vec (put_u64 v w) = into_vec w ++ be_bytes 8 v.
Proof. done. Qed.
Lemma into_vec_put_bytes b w : into_vec (put_bytes b w) = into_vec w ++ enc_bytes b.
Proof.
  unfold into_vec, put_bytes, put_u32, enc_bytes. cbn [w_buf].
  by rewrite be_bytes_4_wrap, (assoc (++)).
Qed.
Lemma into_vec_put_each {A} (f : A -> Writer -> Writer) (e : A -> bytes) l w :
  (forall a w, into_vec (f a w) = into_vec w ++ e a) ->
  into_vec (put_each f l w) = into_vec w ++ mjoin (e <$> l).
Proof.
  intros Hf. revert w. induction l as [|a l IH]; intros w; simpl; [by rewrite app_nil_r|].
  by rewrite IH, Hf, <- (assoc (++)).
Qed.

#[export] Hint Rewrite into_vec_new into_vec_put_u8 into_vec_put_u32 into_vec_put_u64
  into_vec_put_bytes : wire.

(** Normal form of an encoder: one flat concatenation of field encodings. *)
Ltac wire_norm := autorewrite with wire; rewrite ?app_nil_l, <- ?(assoc (++)).

(** ** Reader lemmas *)

Definition rwf (r : Reader) : Prop :=
  0 <= r_pos r <= zlen (r_buf r) /\ zlen (r_buf r) <= usize_max.

Lemma rwf_new b : zlen b <= usize_max -> rwf (r_new b).
Proof. pose proof (zlen_nonneg b). unfold rwf; simpl. lia. Qed.

Lemma rest_new b : rest (r_new b) = b.
Proof. done. Qed.

Lemma remaining_rest r : rwf r -> remaining r = zlen (rest r).
Proof. unfold rwf, remaining, rest, zlen. rewrite length_drop. lia. Qed.

(** [decodes g e x]: in front of any tail, [g] consumes exactly [e], returning [x]. *)
Definition decodes {E A} (g : Get E A) (e : bytes) (x : A) : Prop :=
  forall r tl, rwf r -> rest r = e ++ tl ->
    exists r', g r = Ok (x, r') /\ rwf r' /\ rest r' = tl.

Lemma decodes_ret {E A} (x : A) : decodes (E:=E) (gret x) [] x.
Proof. intros r tl Hw Hr. by exists r. Qed.

Lemma decodes_bind {E A B} (g : Get E A) (k : A -> Get E B) e1 e2 x y :
  decodes g e1 x -> decodes (k x) e2 y -> decodes (gbind g k) (e1 ++ e2) y.
Proof.
  intros Hg Hk r tl Hw Hr. rewrite <- (assoc (++)) in Hr.
  destruct (Hg r _ Hw Hr) as (r1 & E1 & Hw1 & Hr1).
  destruct (Hk r1 _ Hw1 Hr1) as (r2 & E2 & Hw2 & Hr2).
  exists r2. unfold gbind. by rewrite E1.
Qed.

Lemma decodes_ret_bind {E A B} (g : Get E A) (f : A -> B) e x :
  decodes g e x -> decodes (gbind g (fun a => gret (f a))) e (f x).
Proof.
  intros H. rewrite <- (app_nil_r e). eapply decodes_bind; [done|apply decodes_ret].
Qed.

Lemma decodes_lift {E A} (x : A) : decodes (E:=E) (glift (Ok x)) [] x.
Proof. apply decodes_ret. Qed.

Lemma decodes_q {E A} `{FromWire E} (g : Get WireError A) e x :
  decodes g e x -> decodes (q g) e x.
Proof. intros Hg r tl Hw Hr. destruct (Hg r tl Hw Hr) as (r' & E' & ?). exists r'. unfold q. by rewrite E'. Qed.

Lemma decodes_take b : decodes (r_take (zlen b)) b b.
Proof.
  intros r tl [Hp Hl] Hr. unfold r_take, usize_checked_add.
  pose proof (zlen_nonneg b). pose proof (f_equal zlen Hr) as Hz.
  rewrite zlen_app in Hz. unfold rest at 1, zlen in Hz. rewrite length_drop in Hz.
  assert (r_pos r + zlen b <= zlen (r_buf r)).
  { pose proof (zlen_nonneg tl). unfold zlen in *. lia. }
  rewrite decide_True by lia. rewrite decide_False by lia.
  replace (Z.to_nat _) with (length b) by (unfold zlen; lia).
  rewrite Hr, take_app_length. eexists; split; [done|]. split; [split; simpl; lia|].
  unfold rest in *; simpl. replace (Z.to_nat _) with (Z.to_nat (r_pos r) + length b)%nat by (unfold zlen; lia).
  by rewrite <- drop_drop, Hr, drop_app_length.
Qed.

Lemma decodes_take_val n b :
  zlen b = n -> decodes (fun r => let* (b, r) := r_take n r in Ok (be_val b, r)) b (be_val b).
Proof.
  intros <- r tl Hw Hr. destruct (decodes_take b r tl Hw Hr) as (r' & -> & ?). by exists r'.
Qed.

Lemma decodes_u8 v : 0 <= v < 256 -> decodes get_u8 [byte_of v] v.
Proof.
  intros Hv. pose proof (decodes_take_val 1 [byte_of v] eq_refl) as H.
  unfold be_val in H. simpl in H. rewrite bval_byte_of, Z.mod_small in H by lia. exact H.
Qed.

Lemma decodes_u32 v : is_u32 v -> decodes get_u32 (be_bytes 4 v) v.
Proof.
  unfold is_u32. intros Hv. pose proof (decodes_take_val 4 (be_bytes 4 v) eq_refl) as H.
  rewrite be_val_bytes, Z.mod_small in H by (change (256 ^ Z.of_nat 4) with (2 ^ 32); lia). exact H.
Qed.

Lemma decodes_u64 v : is_u64 v -> decodes get_u64 (be_bytes 8 v) v.
Proof.
  unfold is_u64. intros Hv. pose proof (decodes_take_val 8 (be_bytes 8 v) eq_refl) as H.
  rewrite be_val_bytes, Z.mod_small in H by (change (256 ^ Z.of_nat 8) with (2 ^ 64); lia). exact H.
Qed.

Lemma decodes_bytes b : zlen b <= MAX_FRAME -> decodes get_bytes (enc_bytes b) b.
Proof.
  intros Hb. pose proof (zlen_nonneg b).
  assert (is_u32 (zlen b)) as Hu by (unfold is_u32, MAX_FRAME in *; lia).
  unfold get_bytes, enc_bytes.
  change (decodes (gbind get_u32 (fun len r =>
    if decide (len > MAX_FRAME) then Err (FrameTooLarge len MAX_FRAME) else r_take len r))
    (be_bytes 4 (zlen b) ++ b) b).
  eapply decodes_bind; [by apply decodes_u32|].
  intros r tl. rewrite decide_False by lia. apply decodes_take.
Qed.

Lemma decodes_times {E A} (g : Get E A) (e : A -> bytes) l :
  Forall (fun a => decodes g (e a) a) l ->
  decodes (get_times (length l) g) (mjoin (e <$> l)) l.
Proof.
  induction 1 as [|a l Ha Hl IH]; simpl; [apply decodes_ret|].
  eapply decodes_bind; [done|]. by apply (decodes_ret_bind _ (cons a)).
Qed.

(** A whole-buffer run: decode and then [finish]. *)
Lemma run_decodes {E A} (g : Get E A) b x :
  zlen b <= usize_max -> decodes g b x -> run_get g b = Ok x.
Proof.
  intros Hb Hg. destruct (Hg (r_new b) [] (rwf_new b Hb)) as (r' & E' & ?);
    [by rewrite app_nil_r|]. unfold run_get. by rewrite E'.
Qed.

#[export] Hint Resolve decodes_ret decodes_u8 decodes_u32 decodes_u64 decodes_bytes
  decodes_q decodes_lift : tk.

Lemma decodes_vec b : zlen b <= MAX_FRAME -> decodes get_vec (enc_bytes b) b.
Proof. apply decodes_bytes. Qed.
#[export] Hint Resolve decodes_vec : tk.

(** [finish] succeeds exactly when nothing is left, so it needs its own rule:
    the decoder reads all of [e] from a reader whose tail is empty. *)
Definition decodes_all {E A} (g : Get E A) (e : bytes) (x : A) : Prop :=
  forall r, rwf r -> rest r = e -> exists r', g r = Ok (x, r') /\ rwf r' /\ rest r' = [].

Lemma decodes_all_bind {E A B} (g : Get E A) (k : A -> Get E B) e1 e2 x y :
  decodes g e1 x -> decodes_all (k x) e2 y -> decodes_all (gbind g k) (e1 ++ e2) y.
Proof.
  intros Hg Hk r Hw Hr. destruct (Hg r e2 Hw Hr) as (r1 & E1 & Hw1 & Hr1).
  destruct (Hk r1 Hw1 Hr1) as (r2 & E2 & ?). exists r2. unfold gbind. by rewrite E1.
Qed.

Lemma decodes_all_finish {E A} `{FromWire E} (x : A) :
  decodes_all (get* _ := q finish in gret x) [] x.
Proof.
  intros r Hw Hr. exists r. unfold gbind, q, finish. rewrite remaining_rest, Hr by done. done.
Qed.

Lemma run_decodes_all {E A} (g : Get E A) b x :
  zlen b <= usize_max -> decodes_all g b x -> run_get g b = Ok x.
Proof.
  intros Hb Hg. destruct (Hg (r_new b) (rwf_new b Hb) (rest_new b)) as (r' & E' & _).
  unfold run_get. by rewrite E'.
Qed.

(** Peel one field off a decoder that ends in [finish]. *)
Ltac dec_all :=
  repeat first
    [ apply decodes_all_finish
    | eapply decodes_all_bind; [by eauto with tk|]
    | lazymatch goal with
      | |- decodes_all _ (_ ++ _) _ => fail
      | |- decodes_all ?g ?e ?x =>
          rewrite <- (app_nil_r e); eapply decodes_all_bind; [by eauto with tk|]
      end ].

(** Peel one field off a decoder that ends in [gret]. *)
Ltac dec :=
  repeat first
    [ apply decodes_ret
    | eapply decodes_bind; [by eauto with tk|]
    | lazymatch goal with
      | |- decodes _ (_ ++ _) _ => fail
      | |- decodes _ [] _ => fail
      | |- decodes ?g ?e ?x => rewrite <- (app_nil_r e); eapply decodes_bind; [by eauto with tk|]
      end ].

Lemma decodes_u8_tag {E A} `{FromWire E} (t : Z) (k : Z -> Get E A) e x :
  0 <= t < 256 -> decodes (k t) e x ->
  decodes (gbind (q get_u8) k) ([byte_of t] ++ e) x.
Proof. intros Ht Hk. eapply decodes_bind; [by apply decodes_q, decodes_u8|done]. Qed.

Lemma zlen_enc_bytes b : zlen (enc_bytes b) = 4 + zlen b.
Proof. unfold enc_bytes. by rewrite zlen_app, zlen_be_bytes. Qed.

(** A length-prefixed field can be told from what follows it. *)
Lemma enc_bytes_inj a b x y :
  zlen a < 2 ^ 32 -> zlen b < 2 ^ 32 -> enc_bytes a ++ x = enc_bytes b ++ y -> a = b /\ x = y.
Proof.
  intros Ha Hb E. pose proof (zlen_nonneg a). pose proof (zlen_nonneg b).
  unfold enc_bytes in E. rewrite <- !(assoc (++)) in E.
  apply app_inj_len in E as [E1 E2]; [|by rewrite !length_be_bytes].
  apply be_bytes_inj in E1; [|change (256 ^ Z.of_nat 4) with (2 ^ 32); lia..].
  apply app_inj_len in E2; [done|]. unfold zlen in E1. lia.
Qed.

Lemma be_bytes_4_inj a b x y :
  is_u32 a -> is_u32 b -> be_bytes 4 a ++ x = be_bytes 4 b ++ y -> a = b /\ x = y.
Proof.
  unfold is_u32. intros Ha Hb E. apply app_inj_len in E as [E1 E2]; [|by rewrite !length_be_bytes].
  split; [|done]. eapply (be_bytes_inj 4); [change (256 ^ Z.of_nat 4) with (2 ^ 32); lia..|done].
Qed.

(** ** Canonicity: what a successful read consumed *)

Definition inverts {E A} (g : Get E A) (e : A -> bytes) : Prop :=
  forall r x r', rwf r -> g r = Ok (x, r') -> rwf r' /\ rest r = e x ++ rest r'.

Lemma inverts_take n :
  0 <= n -> forall r b r', rwf r -> r_take n r = Ok (b, r') ->
  rwf r' /\ rest r = b ++ rest r' /\ zlen b = n.
Proof.
  intros Hn r b r' [Hp Hl] H. unfold r_take, usize_checked_add in H.
  case_decide; [|done]. case_decide; [done|]. injection H as <- <-.
  replace (r_pos r + n - r_pos r) with n by lia.
  split; [split; simpl; lia|]. unfold rest; simpl. split.
  - replace (Z.to_nat (r_pos r + n)) with (Z.to_nat (r_pos r) + Z.to_nat n)%nat by lia.
    by rewrite take_drop_slice.
  - unfold zlen in *. rewrite length_take, length_drop. lia.
Qed.

Lemma inverts_int (n : nat) r v r' :
  rwf r -> (let* (b, r) := r_take (Z.of_nat n) r in Ok (be_val b, r)) = Ok (v, r') ->
  rwf r' /\ rest r = be_bytes n v ++ rest r' /\ 0 <= v < 256 ^ Z.of_nat n.
Proof.
  intros Hw H. inv_run. destruct x as [b r1]. simplify_eq.
  destruct (inverts_take (Z.of_nat n) ltac:(lia) _ _ _ Hw H0) as (Hw' & Hr & Hl).
  split; [done|]. pose proof (be_val_range b) as Hb. unfold zlen in *.
  apply Nat2Z.inj in Hl as <-. by rewrite be_bytes_val.
Qed.

Lemma inverts_u8 r v r' : rwf r -> get_u8 r = Ok (v, r') ->
  rwf r' /\ rest r = byte_of v :: rest r' /\ 0 <= v < 256.
Proof.
  intros Hw H. destruct (inverts_int 1 r v r' Hw H) as (?&E&?). by rewrite be_bytes_1 in E.
Qed.

Lemma inverts_u32 r v r' : rwf r -> get_u32 r = Ok (v, r') ->
  rwf r' /\ rest r = be_bytes 4 v ++ rest r' /\ is_u32 v.
Proof. apply (inverts_int 4). Qed.

Lemma inverts_u64 r v r' : rwf r -> get_u64 r = Ok (v, r') ->
  rwf r' /\ rest r = be_bytes 8 v ++ rest r' /\ is_u64 v.
Proof. apply (inverts_int 8). Qed.

Lemma inverts_bytes r b r' : rwf r -> get_bytes r = Ok (b, r') ->
  rwf r' /\ rest r = enc_bytes b ++ rest r' /\ zlen b <= MAX_FRAME.
Proof.
  intros Hw H. unfold get_bytes in H. inv_run. destruct x as [len r1].
  case_decide; [done|]. destruct (inverts_u32 _ _ _ Hw H0) as (Hw1 & Hr1 & Hu).
  unfold is_u32 in Hu. destruct (inverts_take len ltac:(lia) _ _ _ Hw1 H) as (Hw' & Hr & Hl).
  split; [done|]. unfold enc_bytes. rewrite Hr1, Hr, Hl, <- (assoc (++)). split; [done|lia].
Qed.

Lemma inverts_q {E A} `{FromWire E} (g : Get WireError A) r x r' :
  q (E:=E) g r = Ok (x, r') -> g r = Ok (x, r').
Proof. unfold q, map_err. destruct (g r); naive_solver. Qed.

(** Take a successful decoder run apart, field by field. *)
Ltac inv_get :=
  unfold run_get, gbind, glift, gret in *;
  repeat match goal with
  | H : rbind _ _ = Ok _ |- _ =>
      first [apply rbind_Ok in H as ([? ?] & ? & H) | apply rbind_Ok in H as (? & ? & H)]
  | H : q _ _ = Ok _ |- _ => apply inverts_q in H
  | H : Ok _ = Ok _ |- _ => injection H as H
  end; simplify_eq.

Lemma inverts_finish r u r' : rwf r -> finish r = Ok (u, r') -> rest r = [] /\ r' = r.
Proof.
  intros Hw H. unfold finish in H. case_decide as Hd; [done|]. injection H as _ <-.
  rewrite remaining_rest in Hd by done. split; [|done].
  apply nil_length_inv. unfold zlen in Hd. lia.
Qed.

(** ** Reader properties *)

(** The reader's [take] by cases on the unread tail. *)
Lemma r_take_spec n r : rwf r -> 0 <= n ->
  (zlen (rest r) < n /\ r_take n r = Err (UnexpectedEof n (zlen (rest r)))) \/
  (n <= zlen (rest r) /\
   r_take n r = Ok (take (Z.to_nat n) (rest r), mkReader (r_buf r) (r_pos r + n))).
Proof.
  intros Hw Hn. pose proof (remaining_rest r Hw) as Hrem. destruct Hw as [Hp Hl].
  unfold r_take, usize_checked_add. rewrite Hrem. unfold remaining in Hrem.
  case_decide; [case_decide|].
  - left. split; [lia|done].
  - right. split; [lia|]. by replace (r_pos r + n - r_pos r) with n by lia.
  - left. split; [lia|done].
Qed.

Lemma enc_bytes_prefix b t : zlen t = 4 -> zlen b = be_val t -> enc_bytes b = t ++ b.
Proof.
  intros Ht Hb. unfold enc_bytes. f_equal. rewrite <- (be_bytes_val t), Hb. f_equal.
  unfold zlen in Ht. lia.
Qed.

(** The contract of [get_bytes] on an unread tail [t]: which result it is, by
    cases on the length prefix and on what is left behind it. *)
Definition field_result (t : bytes) : result WireError bytes :=
  if decide (zlen t < 4) then Err (UnexpectedEof 4 (zlen t))
  else
    let len := be_val (take 4 t) in
    if decide (len > MAX_FRAME) then Err (FrameTooLarge len MAX_FRAME)
    else if decide (zlen (drop 4 t) < len) then Err (UnexpectedEof len (zlen (drop 4 t)))
    else Ok (take (Z.to_nat len) (drop 4 t)).

(** On every reader state the code can reach (cursor inside the slice),
    [get_bytes] reads one length-prefixed field exactly as the contract
    [field_result] says: a short prefix, a length over [MAX_FRAME] and a
    truncated body each give their own error, and a well-formed field is
    returned with the cursor moved past it and not further. *)
Lemma get_bytes_contract r :
  rwf r ->
  match field_result (rest r) with
  | Err e => get_bytes r = Err e
  | Ok b => exists r', get_bytes r = Ok (b, r') /\ rwf r' /\
              r_buf r' = r_buf r /\ r_pos r' = r_pos r + 4 + zlen b /\
              rest r = enc_bytes b ++ rest r'
  end.
Proof.
  intros Hw. unfold field_result, get_bytes, get_u32.
  destruct (r_take_spec 4 r Hw ltac:(lia)) as [[Hlt ->]|[Hge Ht]].
  { by rewrite decide_True by lia. }
  rewrite decide_False by lia. rewrite Ht. cbn [rbind]. change (Z.to_nat 4) with 4%nat.
  case_decide; [done|]. destruct (inverts_take 4 ltac:(lia) _ _ _ Hw Ht) as (Hw1 & Hr & Hl).
  set (r1 := mkReader _ _) in *.
  assert (drop 4 (rest r) = rest r1) as ->.
  { rewrite Hr. apply drop_app_length'. unfold zlen in Hl. lia. }
  pose proof (be_val_range (take 4 (rest r))).
  destruct (r_take_spec (be_val (take 4 (rest r))) r1 Hw1 ltac:(lia)) as [[Hlt ->]|[Hle Hok]].
  { by rewrite decide_True by lia. }
  rewrite decide_False by lia. rewrite Hok. eexists; split; [done|].
  destruct (inverts_take (be_val (take 4 (rest r))) ltac:(lia) _ _ _ Hw1 Hok)
    as (Hw2 & Hr2 & Hl2).
  split; [done|]. split; [done|]. split; [simpl; lia|].
  rewrite (enc_bytes_prefix _ (take 4 (rest r))) by done.
  by rewrite <- (assoc (++)), <- Hr2.
Qed.

Lemma get_bytes_contract_witness :
  exists r', get_bytes (mkReader (bstr "x" ++ be_bytes 4 2 ++ bstr "hi!") 1) = Ok (bstr "hi", r') /\
    r_pos r' = 7.
Proof.
  pose proof (get_bytes_contract (mkReader (bstr "x" ++ be_bytes 4 2 ++ bstr "hi!") 1)) as H.
  destruct H as (r' & Hg & _ & _ & Hp & _).
  - split; [split|]; vm_compute; discriminate.
  - exists r'. split; [exact Hg|exact Hp].
Defined.

(** ** Padding properties *)

Lemma length_resize {A} n (d : A) l : length (resize n d l) = n.
Proof.
  unfold resize. case_decide; [rewrite length_take|rewrite length_app, length_replicate]; lia.
Qed.

Lemma padded_len_spec raw step :
  0 <= raw -> raw + clamp step 1 MAX_FRAME - 1 <= usize_max ->
  raw <= padded_len raw step < raw + clamp step 1 MAX_FRAME /\
  (clamp step 1 MAX_FRAME | padded_len raw step).
Proof.
  intros Hr Hu. unfold padded_len, usize_checked_add. set (s := clamp _ _ _) in *.
  assert (1 <= s) by (unfold s, clamp; lia).
  rewrite decide_True by lia. split; [|by exists ((raw + (s - 1)) / s)].
  pose proof (Z.div_mod (raw + (s - 1)) s ltac:(lia)).
  pose proof (Z.mod_pos_bound (raw + (s - 1)) s ltac:(lia)). nia.
Qed.

Lemma pad_to_bucket_shape payload step :
  zlen payload <= MAX_FRAME ->
  exists n, pad_to_bucket payload step =
    be_bytes 4 (zlen payload) ++ payload ++ replicate n (byte_of 0) /\
    zlen (pad_to_bucket payload step) = padded_len (4 + zlen payload) step.
Proof.
  intros Hp. pose proof (zlen_nonneg payload).
  destruct (padded_len_spec (4 + zlen payload) step ltac:(lia)) as [Hb _].
  { unfold clamp, MAX_FRAME, usize_max in *. lia. }
  unfold pad_to_bucket. rewrite be_bytes_4_wrap, Z.max_l by lia.
  set (n := Z.to_nat _). assert (n = Z.to_nat (padded_len (4 + zlen payload) step)) as Hn by done.
  exists (n - (4 + length payload))%nat. split; [|unfold zlen at 1; rewrite length_resize; lia].
  unfold resize. rewrite length_app, length_be_bytes.
  case_decide as Hd.
  - assert (n = length (be_bytes 4 (zlen payload) ++ payload)) as ->.
    { rewrite length_app, length_be_bytes. unfold zlen in *. lia. }
    rewrite firstn_all. rewrite length_app, length_be_bytes, Nat.sub_diag. simpl.
    by rewrite app_nil_r.
  - by rewrite <- (assoc (++)).
Qed.

Lemma unpad_pad payload step :
  zlen payload <= MAX_FRAME -> unpad_bucket (pad_to_bucket payload step) = Some payload.
Proof.
  intros Hp. pose proof (zlen_nonneg payload).
  destruct (padded_len_spec (4 + zlen payload) step ltac:(lia)) as [Hb _].
  { unfold clamp, MAX_FRAME, usize_max in *. lia. }
  destruct (pad_to_bucket_shape payload step Hp) as (n & Hs & Hl).
  unfold unpad_bucket, usize_checked_add. rewrite Hl, decide_False by lia. rewrite Hs.
  rewrite take_app_length', drop_app_length' by (by rewrite length_be_bytes).
  rewrite be_val_bytes, Z.mod_small by (unfold MAX_FRAME in *; lia).
  rewrite decide_False by lia.
  rewrite decide_True by (unfold MAX_FRAME, usize_max in *; lia).
  rewrite decide_False by lia.
  rewrite take_app_length'; [done|]. unfold zlen. lia.
Qed.

(** For every payload within [MAX_FRAME] and every bucket step (also 0 and
    absurdly large ones), padding then unpadding gives the payload back; the
    padded length is a multiple of the clamped step, never below the
    length-prefixed payload and less than one step above it. *)
Lemma pad_unpad_roundtrip payload step :
  zlen payload <= MAX_FRAME ->
  unpad_bucket (pad_to_bucket payload step) = Some payload /\
  (clamp step 1 MAX_FRAME | zlen (pad_to_bucket payload step)) /\
  4 + zlen payload <= zlen (pad_to_bucket payload step)
    < 4 + zlen payload + clamp step 1 MAX_FRAME.
Proof.
  intros Hp. pose proof (zlen_nonneg payload).
  destruct (padded_len_spec (4 + zlen payload) step ltac:(lia)) as [Hb Hd].
  { unfold clamp, MAX_FRAME, usize_max in *. lia. }
  destruct (pad_to_bucket_shape payload step Hp) as (n & Hs & Hl).
  rewrite Hl. split; [by apply unpad_pad|done].
Qed.

Lemma pad_unpad_roundtrip_witness :
  unpad_bucket (pad_to_bucket (bstr "hello") 256) = Some (bstr "hello") /\
  zlen (pad_to_bucket (bstr "hello") 256) = 256.
Proof.
  split; [|reflexivity].
  apply (pad_unpad_roundtrip (bstr "hello") 256). by vm_compute.
Defined.

(** Two payloads whose length-prefixed sizes fall in one bucket are padded to
    the same length: the observer of the length cannot tell them apart. *)
Lemma padded_len_same_bucket raw1 raw2 step k :
  let s := clamp step 1 MAX_FRAME in
  0 <= k -> k * s < raw1 <= (k + 1) * s -> k * s < raw2 <= (k + 1) * s ->
  (k + 2) * s <= usize_max ->
  padded_len raw1 step = padded_len raw2 step.
Proof.
  intros s Hk H1 H2 Hu. unfold s in *. clear s.
  assert (1 <= clamp step 1 MAX_FRAME) by (unfold clamp; lia).
  destruct (padded_len_spec raw1 step ltac:(nia) ltac:(nia)) as [B1 [q1 D1]].
  destruct (padded_len_spec raw2 step ltac:(nia) ltac:(nia)) as [B2 [q2 D2]].
  set (s := clamp _ _ _) in *. rewrite D1, D2 in *.
  assert (q1 = k + 1) by nia. assert (q2 = k + 1) by nia. congruence.
Qed.

(** Length bucketing hides the length class it promises to hide: payloads
    whose length-prefixed sizes lie in the same bucket produce padded messages
    of equal length. *)
Lemma pad_hides_length p1 p2 step k :
  zlen p1 <= MAX_FRAME -> zlen p2 <= MAX_FRAME -> 0 <= k ->
  k * clamp step 1 MAX_FRAME < 4 + zlen p1 <= (k + 1) * clamp step 1 MAX_FRAME ->
  k * clamp step 1 MAX_FRAME < 4 + zlen p2 <= (k + 1) * clamp step 1 MAX_FRAME ->
  zlen (pad_to_bucket p1 step) = zlen (pad_to_bucket p2 step).
Proof.
  intros H1 H2 Hk B1 B2.
  destruct (pad_to_bucket_shape p1 step H1) as (? & _ & ->).
  destruct (pad_to_bucket_shape p2 step H2) as (? & _ & ->).
  apply (padded_len_same_bucket _ _ _ k); try done.
  assert (clamp step 1 MAX_FRAME <= MAX_FRAME) by (unfold clamp, MAX_FRAME; lia).
  set (s := clamp _ _ _) in *. unfold MAX_FRAME, usize_max in *. lia.
Qed.

Lemma pad_hides_length_witness :
  zlen (pad_to_bucket (bstr "yes") 64) = zlen (pad_to_bucket (bstr "absolutely not") 64).
Proof. apply (pad_hides_length (bstr "yes") (bstr "absolutely not") 64 0); by vm_compute. Defined.

#[global] Opaque enc_bytes.

(** ** The fixed-capacity decoder ([wire::bounded])

    Array and slice accesses are partial here: [Panic] is an out-of-range index
    or a [usize] subtraction below zero, [RetNone] the function's own
    [return None]. *)

Module Bounded.

Definition MAX_ITEMS : nat := 4.
Definition MAX_FIELD : nat := 8.

Record BItem : Type := mkBItem {
  label_len : nat; label : bytes; data_len : nat; data : bytes }.
Record BDoc : Type := mkBDoc { n : nat; items : list BItem }.

Inductive stop : Type := Panic | RetNone.

Definition idx {A} (l : list A) (i : nat) : result stop A := ok_or (l !! i) Panic.
Definition store {A} (l : list A) (i : nat) (x : A) : result stop (list A) :=
  if decide (i < length l)%nat then Ok (<[i := x]> l) else Err Panic.
Definition usub (a b : nat) : result stop nat :=
  if decide (b <= a)%nat then Ok (a - b)%nat else Err Panic.

Definition byte_usize (b : byte) : nat := Z.to_nat (bval b).

(** [while j < ll { arr[j] = bytes[pos + j]; j += 1; }], [k] iterations left *)
Fixpoint copy_loop (k j pos : nat) (src : bytes) (arr : bytes) : result stop bytes :=
  match k with
  | O => Ok arr
  | S k =>
      let* b := idx src (pos + j) in
      let* arr := store arr j b in
      copy_loop k (S j) pos src arr
  end.

(** One length byte and its field, copied over the array [arr]. *)
Definition read_field (src : bytes) (pos : nat) (arr : bytes) : result stop (nat * bytes * nat) :=
  if decide (length src <= pos)%nat then Err RetNone
  else
    let* b := idx src pos in
    let ll := byte_usize b in
    let pos := S pos in
    if decide (MAX_FIELD < ll)%nat then Err RetNone
    else
      let* avail := usub (length src) pos in
      if decide (avail < ll)%nat then Err RetNone
      else
        let* arr := copy_loop ll 0 pos src arr in
        Ok (ll, arr, (pos + ll)%nat).

(** [while i < n { ... }], [k] iterations left *)
Fixpoint item_loop (k i pos : nat) (src : bytes) (items : list BItem)
  : result stop (list BItem) :=
  match k with
  | O => Ok items
  | S k =>
      let* it := idx items i in
      let* (ll, lab, pos) := read_field src pos (label it) in
      let* (dl, dat, pos) := read_field src pos (data it) in
      let* items := store items i (mkBItem ll lab dl dat) in
      item_loop k (S i) pos src items
  end.

Definition empty_item : BItem :=
  mkBItem 0 (replicate MAX_FIELD (byte_of 0)) 0 (replicate MAX_FIELD (byte_of 0)).

Definition decode (src : bytes) : result stop BDoc :=
  if decide (src = []) then Err RetNone
  else
    let* b := idx src 0 in
    let n := byte_usize b in
    if decide (MAX_ITEMS < n)%nat then Err RetNone
    else
      let* items := item_loop n 0 1 src (replicate MAX_ITEMS empty_item) in
      Ok (mkBDoc n items).

(** The same grammar over lists, the way the heap decoders read it. *)
Definition spec_field (l : bytes) : option (bytes * bytes) :=
  match l with
  | [] => None
  | h :: t =>
      let k := byte_usize h in
      if decide (k <= MAX_FIELD /\ k <= length t)%nat then Some (take k t, drop k t) else None
  end.

Fixpoint spec_items (k : nat) (l : bytes) : option (list (bytes * bytes)) :=
  match k with
  | O => Some []
  | S k =>
      match spec_field l with
      | None => None
      | Some (lab, l) =>
          match spec_field l with
          | None => None
          | Some (dat, l) => cons (lab, dat) <$> spec_items k l
          end
      end
  end.

Definition spec_decode (l : bytes) : option (list (bytes * bytes)) :=
  match l with
  | [] => None
  | h :: t => if decide (byte_usize h <= MAX_ITEMS)%nat then spec_items (byte_usize h) t else None
  end.

Definition pad_field (f : bytes) : bytes := f ++ replicate (MAX_FIELD - length f) (byte_of 0).
Definition item_of (p : bytes * bytes) : BItem :=
  mkBItem (length p.1) (pad_field p.1) (length p.2) (pad_field p.2).

(** *** Lemmas *)

Lemma copy_loop_spec k j pos src arr :
  (pos + j + k <= length src)%nat -> (j + k <= length arr)%nat ->
  copy_loop k j pos src arr =
    Ok (take j arr ++ take k (drop (pos + j) src) ++ drop (j + k) arr).
Proof.
  revert j arr. induction k as [|k IH]; intros j arr Hs Ha; simpl.
  { by rewrite Nat.add_0_r, take_drop. }
  destruct (lookup_lt_is_Some_2 src (pos + j) ltac:(lia)) as [b Hb].
  unfold idx, store. rewrite Hb. simpl. rewrite decide_True by lia. simpl.
  rewrite IH; rewrite ?length_insert; try lia. f_equal.
  rewrite (drop_S src b (pos + j)) by done. cbn [take].
  rewrite (take_S_r _ _ b) by (apply list_lookup_insert_eq; lia).
  rewrite take_insert_ge by lia. rewrite drop_insert_lt by lia.
  rewrite <- (assoc (++)), <- app_comm_cons.
  replace (pos + S j)%nat with (S (pos + j)) by lia.
  by replace (S j + k)%nat with (j + S k)%nat by lia.
Qed.

Lemma read_field_spec src pos :
  read_field src pos (replicate MAX_FIELD (byte_of 0)) =
    match spec_field (drop pos src) with
    | None => Err RetNone
    | Some (f, _) => Ok (length f, pad_field f, (pos + 1 + length f)%nat)
    end.
Proof.
  unfold read_field. case_decide as Hp; [by rewrite drop_ge by lia|].
  destruct (lookup_lt_is_Some_2 src pos ltac:(lia)) as [b Hb].
  rewrite (drop_S src b pos Hb). cbn [spec_field]. unfold idx. rewrite Hb. cbn [ok_or rbind].
  pose proof (length_drop src (S pos)) as Hd.
  case_decide as H1; [by rewrite decide_False by lia|].
  unfold usub. rewrite decide_True by lia. cbn [rbind].
  case_decide as H2; [by rewrite decide_False by lia|].
  rewrite decide_True by lia.
  rewrite copy_loop_spec by (rewrite ?length_replicate; lia). cbn [rbind].
  rewrite take_0, Nat.add_0_r, drop_replicate, length_take, Hd. cbn [app].
  unfold pad_field. rewrite length_take, Hd.
  replace (byte_usize b `min` (length src - S pos))%nat with (byte_usize b) by lia.
  do 2 f_equal. lia.
Qed.

Lemma spec_field_drop l f t : spec_field l = Some (f, t) -> t = drop (1 + length f) l.
Proof.
  destruct l as [|h l]; simpl; [done|]. case_decide as Hd; [|done].
  intros [= <- <-]. rewrite length_take. f_equal. lia.
Qed.

Lemma item_loop_spec k i pos src done :
  length done = i -> (i + k <= MAX_ITEMS)%nat ->
  item_loop k i pos src (done ++ replicate (MAX_ITEMS - i) empty_item) =
    match spec_items k (drop pos src) with
    | None => Err RetNone
    | Some its => Ok (done ++ (item_of <$> its) ++ replicate (MAX_ITEMS - i - k) empty_item)
    end.
Proof.
  revert i pos done. induction k as [|k IH]; intros i pos done Hi Hk; simpl.
  { by rewrite Nat.sub_0_r. }
  replace (MAX_ITEMS - i)%nat with (S (MAX_ITEMS - S i)) by lia. simpl.
  unfold idx at 1. rewrite lookup_app_r, Hi, Nat.sub_diag by lia. cbn -[MAX_FIELD].
  rewrite read_field_spec. destruct (spec_field (drop pos src)) as [[lab t]|] eqn:E1; [|done].
  apply spec_field_drop in E1 as ->. cbn [rbind].
  rewrite read_field_spec, drop_drop.
  replace (pos + 1 + length lab)%nat with (pos + (1 + length lab))%nat by lia.
  destruct (spec_field _) as [[dat t]|] eqn:E2; [|done].
  apply spec_field_drop in E2 as ->. cbn [rbind]. unfold store.
  rewrite decide_True by (rewrite length_app; simpl; lia). cbn [rbind].
  rewrite insert_app_r_alt, Hi, Nat.sub_diag by lia. cbn [list_insert insert].
  change (?a ++ ?b :: ?c) with (a ++ [b] ++ c). rewrite (assoc (++)), IH.
  2:{ rewrite length_app. simpl. lia. } 2:{ lia. }
  rewrite drop_drop.
  replace (pos + (1 + length lab) + 1 + length dat)%nat
    with (pos + (1 + length lab) + (1 + length dat))%nat by lia.
  destruct (spec_items k _); simpl; [|done]. rewrite <- (assoc (++)). simpl.
  done.
Qed.

(** The heap-free decoder computes the same parse as the list grammar on
    every input: it never panics (every index and subtraction is in range), it
    returns [None] exactly when the list parser rejects, and otherwise its
    arrays hold the parsed fields, zero-filled, with the unused items empty. *)
Lemma bounded_decode_equiv src :
  decode src =
    match spec_decode src with
    | None => Err RetNone
    | Some its =>
        Ok (mkBDoc (length its)
              ((item_of <$> its) ++ replicate (MAX_ITEMS - length its) empty_item))
    end.
Proof.
  unfold decode. destruct src as [|h t]; [done|]. rewrite decide_False by done.
  cbn [idx lookup list_lookup ok_or rbind spec_decode].
  case_decide; case_decide; try lia; [done|].
  pose proof (item_loop_spec (byte_usize h) 0 1 (h :: t) [] eq_refl ltac:(lia)) as E.
  rewrite Nat.sub_0_r in E. cbn [app drop] in E. rewrite drop_0 in E. rewrite E.
  assert (forall k l its, spec_items k l = Some its -> length its = k) as Hlen.
  { clear. induction k as [|k IH]; simpl; [naive_solver|]. intros l its.
    destruct (spec_field l) as [[? ?]|]; [|done]. destruct (spec_field _) as [[? ?]|]; [|done].
    destruct (spec_items k _) eqn:E; [|done]. intros [= <-]. simpl. f_equal. eauto. }
  destruct (spec_items _ t) as [its|] eqn:Es; [|done]. simpl. by rewrite (Hlen _ _ _ Es).
Qed.

End Bounded.
