(* ===== verification/Crypto.v ===== *)
(** * Crypto errors, primitives and key derivation
      (crates/crypto/src/{error,kdf,aead,identity,rng}.rs)

    The primitives themselves (KMAC256 from tiny-keccak, AES-256-GCM, ML-KEM-1024,
    X25519, ML-DSA-87, the OS generator) are third-party crates: they are the
    fields of the class [Primitives], and the documented behaviour the protocol
    code relies on is the class [PrimitivesOk].  Everything the repository builds
    on top of them is defined here and in the files that follow. *)

From S2P Require Import Prelude Wire.

Inductive CryptoError : Type :=
| DecryptionFailed
| Malformed (what : string)
| BadSignature
| TooManySkipped (max : Z)
| Replay
| WireErr (e : WireError)
| UnknownSuite (id : string)
| BelowFloor (id : string)
| SelfTest (what : string).

#[export] Instance from_wire_crypto : FromWire CryptoError := WireErr.

(** ** Third-party primitives *)

Class Primitives := {
  (** One draw from the operating-system generator. *)
  coins : Type;
  random_bytes : coins -> nat -> bytes;
  (** KMAC256 (or HKDF-SHA384 under [cnsa-sha2]): key, message, label, length *)
  mac_kdf : bytes -> bytes -> bytes -> nat -> bytes;
  (** AES-256-GCM: key, nonce, text, associated data *)
  gcm_encrypt : bytes -> bytes -> bytes -> bytes -> option bytes;
  gcm_decrypt : bytes -> bytes -> bytes -> bytes -> option bytes;
  (** ML-KEM-1024 *)
  kem_dk : Type;
  kem_ek_len : nat;
  kem_ct_len : nat;
  kem_generate : coins -> kem_dk * bytes;
  kem_generate_deterministic : bytes -> bytes -> kem_dk * bytes;
  kem_encapsulate : bytes -> coins -> option (bytes * bytes);
  kem_decapsulate : kem_dk -> bytes -> option bytes;
  (** X25519 *)
  x_secret : Type;
  x_random : coins -> x_secret;
  x_from_bytes : bytes -> x_secret;
  x_public : x_secret -> bytes;
  x_diffie_hellman : x_secret -> bytes -> bytes;
  (** ML-DSA-87 from a 32-byte seed *)
  mldsa_vk_len : nat;
  mldsa_sig_len : nat;
  mldsa_vk : bytes -> bytes;
  mldsa_sign : bytes -> bytes -> bytes;
  mldsa_verify : bytes -> bytes -> bytes -> bool;
}.

(** What the protocol relies on: output lengths, that opening inverts sealing
    and accepts nothing else for the same key, nonce and associated data
    (GCM recomputes the tag), that decapsulation inverts encapsulation, that
    Diffie-Hellman agrees, and that honest signatures verify. *)
Class PrimitivesOk (P : Primitives) : Prop := {
  random_bytes_len c n : length (random_bytes c n) = n;
  mac_kdf_len k m l n : length (mac_kdf k m l n) = n;
  gcm_encrypt_total k n p a :
    zlen p <= 2 ^ 32 -> zlen a <= 2 ^ 32 ->
    exists c, gcm_encrypt k n p a = Some c /\ length c = (length p + 16)%nat;
  gcm_decrypt_encrypt k n p a c :
    gcm_encrypt k n p a = Some c -> gcm_decrypt k n c a = Some p;
  gcm_encrypt_decrypt k n p a c :
    gcm_decrypt k n c a = Some p -> gcm_encrypt k n p a = Some c;
  kem_lens : Z.of_nat kem_ek_len <= 2 ^ 16 /\ Z.of_nat kem_ct_len <= 2 ^ 16;
  kem_generate_ek_len c : length (kem_generate c).2 = kem_ek_len;
  kem_generate_det_ek_len d z : length (kem_generate_deterministic d z).2 = kem_ek_len;
  kem_encapsulate_total ek c :
    length ek = kem_ek_len ->
    exists ct ss, kem_encapsulate ek c = Some (ct, ss) /\
      length ct = kem_ct_len /\ length ss = 32%nat;
  kem_correct_gen g c ct ss :
    kem_encapsulate (kem_generate g).2 c = Some (ct, ss) ->
    kem_decapsulate (kem_generate g).1 ct = Some ss;
  kem_correct_det d z c ct ss :
    kem_encapsulate (kem_generate_deterministic d z).2 c = Some (ct, ss) ->
    kem_decapsulate (kem_generate_deterministic d z).1 ct = Some ss;
  kem_decapsulate_len dk ct ss : kem_decapsulate dk ct = Some ss -> length ss = 32%nat;
  x_public_len x : length (x_public x) = 32%nat;
  x_diffie_hellman_len x p : length (x_diffie_hellman x p) = 32%nat;
  x_diffie_hellman_comm a b :
    x_diffie_hellman a (x_public b) = x_diffie_hellman b (x_public a);
  mldsa_lens : mldsa_vk_len = 2592%nat /\ Z.of_nat mldsa_sig_len <= 2 ^ 16;
  mldsa_vk_length s : length (mldsa_vk s) = mldsa_vk_len;
  mldsa_sign_length s m : length (mldsa_sign s m) = mldsa_sig_len;
  mldsa_correct s m : mldsa_verify (mldsa_vk s) m (mldsa_sign s m) = true;
}.

Section Derivation.
Context {P : Primitives}.

(** ** kdf.rs *)

Definition KEY_LEN : nat := 32.
Definition NONCE_LEN : nat := 12.
Definition INFO_RK : bytes := bstr "talkrypt/v1/rk".
Definition INFO_CK : bytes := bstr "talkrypt/v1/ck".
Definition INFO_MK : bytes := bstr "talkrypt/v1/mk".

Definition kdf_rk (root ikm : bytes) : bytes * bytes :=
  let out := mac_kdf root ikm INFO_RK (KEY_LEN * 2) in
  (take KEY_LEN out, drop KEY_LEN out).

Definition kdf_ck (chain : bytes) : bytes * bytes :=
  let next := mac_kdf chain [] (INFO_CK ++ bstr "/next") KEY_LEN in
  let mk_seed := mac_kdf chain [] (INFO_CK ++ bstr "/mk") KEY_LEN in
  (next, mk_seed).

Definition kdf_mk (mk_seed : bytes) : bytes * bytes :=
  let okm := mac_kdf mk_seed [] INFO_MK (KEY_LEN + NONCE_LEN) in
  (take KEY_LEN okm, drop KEY_LEN okm).

(** ** aead.rs *)

Definition aead_seal (key nonce pt aad : bytes) : result CryptoError bytes :=
  if decide (length key <> KEY_LEN) then Err (Malformed "aead key")
  else ok_or (gcm_encrypt key nonce pt aad) (Malformed "aead seal").

Definition aead_open (key nonce ct aad : bytes) : result CryptoError bytes :=
  if decide (length key <> KEY_LEN) then Err (Malformed "aead key")
  else ok_or (gcm_decrypt key nonce ct aad) DecryptionFailed.

(** ** identity.rs *)

Record IdentityPublic : Type := mkIdentityPublic { sig_vk : bytes }.
Record IdentityKeyPair : Type := mkIdentityKeyPair {
  sig_seed : bytes; id_public : IdentityPublic }.

Definition id_from_secret_bytes (seed : bytes) : IdentityKeyPair :=
  mkIdentityKeyPair seed (mkIdentityPublic (mldsa_vk seed)).

Definition id_generate (c : coins) : IdentityKeyPair :=
  id_from_secret_bytes (random_bytes c 32).

Definition id_export_secret (k : IdentityKeyPair) : bytes := sig_seed k.

Definition id_sign (k : IdentityKeyPair) (msg : bytes) : bytes := mldsa_sign (sig_seed k) msg.

Definition id_verify (p : IdentityPublic) (msg sig : bytes) : result CryptoError unit :=
  if decide (length (sig_vk p) <> mldsa_vk_len) then Err (Malformed "ml-dsa verifying key length")
  else if decide (length sig <> mldsa_sig_len) then Err (Malformed "ml-dsa signature length")
  else if mldsa_verify (sig_vk p) msg sig then Ok tt else Err BadSignature.

(** The keygen self-test that aborts the process when it fails. *)
Definition id_pairwise_consistency_check (k : IdentityKeyPair) : bool :=
  let probe := bstr "talkrypt ml-dsa-87 keygen PCT" in
  is_ok (id_verify (id_public k) probe (id_sign k probe)).

End Derivation.

#[export] Instance identity_public_eq_dec : EqDecision IdentityPublic.
Proof. solve_decision. Defined.

(** ** Lemmas *)

Section Lemmas.
Context {P : Primitives} {POk : PrimitivesOk P}.

Lemma kdf_rk_len root ikm : length (kdf_rk root ikm).1 = 32%nat /\ length (kdf_rk root ikm).2 = 32%nat.
Proof. unfold kdf_rk. simpl. rewrite length_take, length_drop, mac_kdf_len. done. Qed.

Lemma kdf_ck_len ck : length (kdf_ck ck).1 = 32%nat /\ length (kdf_ck ck).2 = 32%nat.
Proof. unfold kdf_ck. simpl. by rewrite !mac_kdf_len. Qed.

Lemma kdf_mk_len s : length (kdf_mk s).1 = 32%nat /\ length (kdf_mk s).2 = 12%nat.
Proof. unfold kdf_mk. simpl. by rewrite length_take, length_drop, mac_kdf_len. Qed.

Lemma aead_seal_total key nonce pt aad :
  length key = KEY_LEN -> zlen pt <= 2 ^ 32 -> zlen aad <= 2 ^ 32 ->
  exists ct, aead_seal key nonce pt aad = Ok ct /\ zlen ct = zlen pt + 16.
Proof.
  intros Hk Hp Ha. destruct (gcm_encrypt_total key nonce pt aad Hp Ha) as (c & E & Hl).
  exists c. unfold aead_seal. rewrite decide_False by congruence. rewrite E.
  split; [done|]. unfold zlen. lia.
Qed.

Lemma aead_open_seal key nonce pt aad ct :
  aead_seal key nonce pt aad = Ok ct -> aead_open key nonce ct aad = Ok pt.
Proof.
  unfold aead_seal, aead_open. case_decide; [done|]. intros Hs%ok_or_Ok.
  by rewrite (gcm_decrypt_encrypt _ _ _ _ _ Hs).
Qed.

Lemma aead_seal_open key nonce pt aad ct :
  aead_open key nonce ct aad = Ok pt -> aead_seal key nonce pt aad = Ok ct.
Proof.
  unfold aead_seal, aead_open. case_decide; [done|]. intros Hs%ok_or_Ok.
  by rewrite (gcm_encrypt_decrypt _ _ _ _ _ Hs).
Qed.

Lemma id_verify_sign seed msg :
  let k := id_from_secret_bytes seed in id_verify (id_public k) msg (id_sign k msg) = Ok tt.
Proof.
  unfold id_verify, id_sign. simpl.
  rewrite decide_False by (rewrite mldsa_vk_length; auto).
  rewrite decide_False by (rewrite mldsa_sign_length; auto). by rewrite mldsa_correct.
Qed.

Lemma id_sign_len k msg : length (id_sign k msg) = mldsa_sig_len.
Proof. apply mldsa_sign_length. Qed.

(** The keygen self-test never fires: its [abort] branch is unreachable. *)
Lemma id_pairwise_passes seed :
  id_pairwise_consistency_check (id_from_secret_bytes seed) = true.
Proof. unfold id_pairwise_consistency_check. by rewrite id_verify_sign. Qed.

End Lemmas.

#[global] Opaque kdf_rk kdf_ck kdf_mk aead_seal aead_open id_verify id_sign.
