(* ===== verification/Hybrid.v ===== *)
(** * The asymmetric ratchet primitive (crates/crypto/src/hybrid.rs)

    A ratchet key always has an ML-KEM-1024 half and, under the hybrid posture,
    an X25519 half; a PQ-pure key can carry a 32-byte filler so that its wire
    form is as long as a hybrid key's. *)

From S2P Require Import Prelude Wire Crypto.

Definition SS_LEN : nat := 32.
Definition PAD_LEN : nat := 32.

Inductive KemPosture : Type := PostureHybrid | PosturePqPure.

#[export] Instance kem_posture_eq_dec : EqDecision KemPosture.
Proof. solve_decision. Defined.

Definition posture_tag (p : KemPosture) : Z :=
  match p with PostureHybrid => 0 | PosturePqPure => 1 end.

Definition posture_from_tag (t : Z) : result CryptoError KemPosture :=
  match t with
  | 0 => Ok PostureHybrid
  | 1 => Ok PosturePqPure
  | _ => Err (Malformed "kem posture tag")
  end.

Definition posture_has_ec (p : KemPosture) : bool :=
  match p with PostureHybrid => true | _ => false end.

Record KemProfile : Type := mkKemProfile { posture : KemPosture; pad_pure : bool }.

#[export] Instance kem_profile_eq_dec : EqDecision KemProfile.
Proof. solve_decision. Defined.

Definition profile_hybrid : KemProfile := mkKemProfile PostureHybrid false.
Definition profile_pq_pure : KemProfile := mkKemProfile PosturePqPure true.
Definition profile_pq_pure_compact : KemProfile := mkKemProfile PosturePqPure false.
Definition profile_default : KemProfile := profile_pq_pure.

Record RatchetPublic : Type := mkRatchetPublic {
  rp_profile : KemProfile;
  rp_x_pub : option bytes;
  rp_pad : option bytes;
  rp_kem_ek : bytes }.

#[export] Instance ratchet_public_eq_dec : EqDecision RatchetPublic.
Proof. solve_decision. Defined.

(** [p[PAD_LEN - 1] &= 0x7f] *)
Definition shape_like_x25519_public (p : bytes) : bytes :=
  alter (fun b => byte_of (Z.land (bval b) 127)) (PAD_LEN - 1)%nat p.

Definition try_to_32 (b : bytes) : result CryptoError bytes :=
  if decide (length b = 32%nat) then Ok b
  else Err (Malformed "ratchet public x25519/pad length").

(** ** Wire form of a public key *)

Definition rp_encode (p : RatchetPublic) : bytes :=
  let w := w_new in
  let w := match rp_x_pub p, rp_pad p with
           | Some xp, _ => w |> put_bytes xp
           | None, Some pd => w |> put_bytes pd
           | None, None => w
           end in
  w |> put_bytes (rp_kem_ek p) |> into_vec.

Definition rp_get (profile : KemProfile) : Get CryptoError RatchetPublic :=
  get* (x_pub, pad) :=
    match posture profile with
    | PostureHybrid =>
        get* b := q get_bytes in get* x := glift (try_to_32 b) in gret (Some x, None)
    | PosturePqPure =>
        if pad_pure profile then
          get* b := q get_bytes in get* x := glift (try_to_32 b) in gret (None, Some x)
        else gret (None, None)
    end in
  get* kem_ek := q get_vec in
  gret (mkRatchetPublic profile x_pub pad kem_ek).

(** There is no [finish] here: bytes after the key are ignored. *)
Definition rp_decode (profile : KemProfile) (b : bytes) : result CryptoError RatchetPublic :=
  run_get (rp_get profile) b.

Section WithPrimitives.
Context {P : Primitives}.

Record RatchetSecret : Type := mkRatchetSecret {
  rs_profile : KemProfile;
  rs_x : option x_secret;
  rs_kem_dk : kem_dk }.

(** ** Key generation.  [cs] supplies the draws in order. *)

Definition rs_generate (profile : KemProfile) (cs : nat -> coins) : RatchetSecret * RatchetPublic :=
  let (dk, ek) := kem_generate (cs 0%nat) in
  let '(x, x_pub, pad) :=
    match posture profile with
    | PostureHybrid =>
        let x := x_random (cs 1%nat) in (Some x, Some (x_public x), None)
    | PosturePqPure =>
        let pad := if pad_pure profile
                   then Some (shape_like_x25519_public (random_bytes (cs 1%nat) PAD_LEN))
                   else None in
        (None, None, pad)
    end in
  (mkRatchetSecret profile x dk, mkRatchetPublic profile x_pub pad ek).

Definition rs_derive_deterministic (profile : KemProfile) (seed : bytes)
  : RatchetSecret * RatchetPublic :=
  match posture profile with
  | PostureHybrid =>
      let okm := mac_kdf seed [] (bstr "talkrypt-treekem-node") 96 in
      let x := x_from_bytes (take 32 okm) in
      let d := take 32 (drop 32 okm) in
      let z := take 32 (drop 64 okm) in
      let (dk, ek) := kem_generate_deterministic d z in
      (mkRatchetSecret profile (Some x) dk, mkRatchetPublic profile (Some (x_public x)) None ek)
  | PosturePqPure =>
      let okm := mac_kdf seed [] (bstr "talkrypt-treekem-node-pq") 96 in
      let pad := if pad_pure profile
                 then Some (shape_like_x25519_public (take 32 okm)) else None in
      let d := take 32 (drop 32 okm) in
      let z := take 32 (drop 64 okm) in
      let (dk, ek) := kem_generate_deterministic d z in
      (mkRatchetSecret profile None dk, mkRatchetPublic profile None pad ek)
  end.

(** ** KEM and DH operations *)

Definition rs_decapsulate (s : RatchetSecret) (ct : bytes) : result CryptoError bytes :=
  if decide (length ct <> kem_ct_len) then Err (Malformed "ml-kem ciphertext length")
  else ok_or (kem_decapsulate (rs_kem_dk s) ct) DecryptionFailed.

Definition rp_encapsulate (p : RatchetPublic) (c : coins) : result CryptoError (bytes * bytes) :=
  if decide (length (rp_kem_ek p) <> kem_ek_len) then Err (Malformed "ml-kem encapsulation key length")
  else ok_or (kem_encapsulate (rp_kem_ek p) c) (Malformed "ml-kem encapsulation failed").

Definition rs_dh (s : RatchetSecret) (peer_x_pub : bytes) : result CryptoError bytes :=
  let* x := ok_or (rs_x s) (Malformed "dh requested on a PQ-pure key") in
  Ok (x_diffie_hellman x peer_x_pub).

Definition rs_combine_ikm (s : RatchetSecret) (peer : RatchetPublic) (kem_ss : bytes)
  : result CryptoError bytes :=
  match posture (rs_profile s) with
  | PostureHybrid =>
      let* peer_x := ok_or (rp_x_pub peer) (Malformed "hybrid step against PQ-pure peer") in
      let* dh := rs_dh s peer_x in
      Ok (dh ++ kem_ss)
  | PosturePqPure => Ok kem_ss
  end.

Definition rs_step_to (s : RatchetSecret) (peer : RatchetPublic) (c : coins)
  : result CryptoError (bytes * bytes) :=
  let* (ct, kem_ss) := rp_encapsulate peer c in
  let* ikm := rs_combine_ikm s peer kem_ss in
  Ok (ct, ikm).

Definition rs_step_from (s : RatchetSecret) (peer_pub : RatchetPublic) (ct : bytes)
  : result CryptoError bytes :=
  let* kem_ss := rs_decapsulate s ct in
  rs_combine_ikm s peer_pub kem_ss.

(** The keygen self-test: encapsulate to the new key, decapsulate, compare. *)
Definition kem_pairwise_consistency_check (s : RatchetSecret) (p : RatchetPublic) (c : coins) : bool :=
  match rp_encapsulate p c with
  | Err _ => false
  | Ok (ct, ss_enc) =>
      match rs_decapsulate s ct with
      | Err _ => false
      | Ok ss_dec => bool_decide (ss_enc = ss_dec)
      end
  end.

End WithPrimitives.

(** ** Well-formed keys and matching pairs *)

(** The shape every constructor and [rp_decode] establish. *)
Definition rp_wf (p : RatchetPublic) : Prop :=
  match posture (rp_profile p) with
  | PostureHybrid => (exists x, rp_x_pub p = Some x /\ length x = 32%nat) /\ rp_pad p = None
  | PosturePqPure =>
      rp_x_pub p = None /\
      if pad_pure (rp_profile p) then exists x, rp_pad p = Some x /\ length x = 32%nat
      else rp_pad p = None
  end /\ zlen (rp_kem_ek p) <= MAX_FRAME - 64.

(** The part of [rp_encode] in front of the KEM key. *)
Definition rp_prefix (p : RatchetPublic) : bytes :=
  match rp_x_pub p, rp_pad p with
  | Some xp, _ => enc_bytes xp
  | None, Some pd => enc_bytes pd
  | None, None => []
  end.

Lemma rp_encode_norm p : rp_encode p = rp_prefix p ++ enc_bytes (rp_kem_ek p).
Proof.
  unfold rp_encode, rp_prefix. destruct (rp_x_pub p), (rp_pad p); wire_norm; done.
Qed.

Lemma rp_prefix_len p : rp_wf p -> zlen (rp_prefix p) <= 36.
Proof.
  intros [H _]. unfold rp_prefix. destruct (posture (rp_profile p)).
  - destruct H as ((x & -> & Hx) & _). rewrite zlen_enc_bytes. unfold zlen. lia.
  - destruct H as (-> & H). destruct (pad_pure _).
    + destruct H as (x & -> & Hx). rewrite zlen_enc_bytes. unfold zlen. lia.
    + by rewrite H.
Qed.

Lemma rp_encode_len p : rp_wf p -> zlen (rp_encode p) <= MAX_FRAME.
Proof.
  intros H. pose proof (rp_prefix_len p H). destruct H as [_ Hk].
  rewrite rp_encode_norm, zlen_app, zlen_enc_bytes. lia.
Qed.

Lemma decodes_32 {A} (b : bytes) (f : bytes -> A) :
  length b = 32%nat ->
  decodes (get* b := q get_bytes in get* x := glift (try_to_32 b) in gret (f x))
    (enc_bytes b) (f b).
Proof.
  intros Hb. rewrite <- (app_nil_r (enc_bytes b)). eapply decodes_bind.
  - apply decodes_q, decodes_bytes. unfold zlen, MAX_FRAME. lia.
  - apply (decodes_ret_bind _ f). unfold try_to_32. rewrite decide_True by done. apply decodes_lift.
Qed.

(** A well-formed key decodes from its encoding, in front of any tail. *)
Lemma decodes_rp p : rp_wf p -> decodes (rp_get (rp_profile p)) (rp_encode p) p.
Proof.
  intros [H Hk]. rewrite rp_encode_norm. unfold rp_get.
  eapply (decodes_bind _ _ _ _ (rp_x_pub p, rp_pad p)).
  - unfold rp_prefix. destruct (posture (rp_profile p)).
    + destruct H as ((x & -> & Hx) & ->). by apply (decodes_32 x (fun x => (Some x, None))).
    + destruct H as (-> & H). destruct (pad_pure _).
      * destruct H as (x & -> & Hx). by apply (decodes_32 x (fun x => (None, Some x))).
      * rewrite H. apply decodes_ret.
  - destruct p as [pr x pd ek]. simpl in *.
    apply (decodes_ret_bind (q get_vec) (mkRatchetPublic pr x pd)).
    apply decodes_q, decodes_bytes. lia.
Qed.

Lemma rp_decode_encode p : rp_wf p -> rp_decode (rp_profile p) (rp_encode p) = Ok p.
Proof.
  intros H. apply run_decodes; [|by apply decodes_rp].
  pose proof (rp_encode_len p H). unfold MAX_FRAME, usize_max in *. lia.
Qed.

(** Nested use: a key written as a length-prefixed field. *)
Definition rp_field (profile : KemProfile) : Get CryptoError RatchetPublic :=
  get* b := q get_bytes in glift (rp_decode profile b).

Lemma decodes_rp_field p :
  rp_wf p -> decodes (rp_field (rp_profile p)) (enc_bytes (rp_encode p)) p.
Proof.
  intros H. unfold rp_field. rewrite <- (app_nil_r (enc_bytes _)). eapply decodes_bind.
  - apply decodes_q, decodes_bytes, rp_encode_len, H.
  - rewrite rp_decode_encode by done. apply decodes_lift.
Qed.

Lemma rp_decode_wf profile b p :
  zlen b <= MAX_FRAME - 64 -> rp_decode profile b = Ok p -> rp_profile p = profile /\ rp_wf p.
Proof.
  intros Hb H. unfold rp_decode, run_get in H. inv_run. destruct x as [p' r']. inv_run. subst p'.
  assert (rwf (r_new b)) as Hw by (apply rwf_new; unfold MAX_FRAME, usize_max in *; lia).
  assert (forall r, rwf r -> zlen (rest r) <= zlen (r_buf r)) as Hrest.
  { intros r _. unfold rest, zlen. rewrite length_drop. lia. }
  unfold rp_get, gbind in H0. inv_run. destruct x as [[x pd] r1]. inv_run.
  destruct x0 as [ek r2]. unfold gret in H0. simplify_eq.
  apply inverts_q in H1. unfold rp_wf. simpl. split; [done|].
  assert (rwf r1 /\ zlen (rest r1) <= zlen b /\
    match posture profile with
    | PostureHybrid => (exists y, x = Some y /\ length y = 32%nat) /\ pd = None
    | PosturePqPure => x = None /\
        if pad_pure profile then exists y, pd = Some y /\ length y = 32%nat else pd = None
    end) as (Hw1 & Hl1 & Hs).
  { assert (forall b0 r1, q (E:=CryptoError) get_bytes (r_new b) = Ok (b0, r1) ->
      rwf r1 /\ zlen (rest r1) <= zlen b) as Hf.
    { intros b0 r0 Hq%inverts_q. destruct (inverts_bytes _ _ _ Hw Hq) as (? & E & ?).
      apply (f_equal zlen) in E. rewrite rest_new, zlen_app, zlen_enc_bytes in E.
      pose proof (zlen_nonneg b0). split; [done|lia]. }
    destruct (posture profile); [|destruct (pad_pure profile)].
    - inv_run. destruct x0 as [b0 r0]. destruct (Hf _ _ H0) as [? ?].
      unfold glift, gret, try_to_32 in H. case_decide; simpl in H; [|done]. simplify_eq. eauto 10.
    - inv_run. destruct x0 as [b0 r0]. destruct (Hf _ _ H0) as [? ?].
      unfold glift, gret, try_to_32 in H. case_decide; simpl in H; [|done]. simplify_eq. eauto 10.
    - unfold gret in H. simplify_eq. done. }
  split; [done|]. destruct (inverts_bytes _ _ _ Hw1 H1) as (_ & E & _).
  apply (f_equal zlen) in E. rewrite zlen_app, zlen_enc_bytes in E.
  pose proof (zlen_nonneg (rest r')). lia.
Qed.

Section Pairs.
Context {P : Primitives} {POk : PrimitivesOk P}.

(** A secret and a public half that belong together. *)
Record key_pair (s : RatchetSecret) (p : RatchetPublic) : Prop := {
  kp_profile : rp_profile p = rs_profile s;
  kp_wf : rp_wf p;
  kp_x : rp_x_pub p = x_public <$> rs_x s;
  kp_has_x : posture (rs_profile s) = PostureHybrid -> is_Some (rs_x s);
  kp_ek : length (rp_kem_ek p) = kem_ek_len;
  kp_kem c ct ss : kem_encapsulate (rp_kem_ek p) c = Some (ct, ss) ->
                   kem_decapsulate (rs_kem_dk s) ct = Some ss }.

Lemma shape_length p : length (shape_like_x25519_public p) = length p.
Proof. unfold shape_like_x25519_public. apply length_alter. Qed.

Lemma ek_len_small (ek : bytes) : length ek = kem_ek_len -> zlen ek <= MAX_FRAME - 64.
Proof. pose proof kem_lens. intros E. unfold zlen, MAX_FRAME. rewrite E. lia. Qed.

Lemma key_pair_generate profile cs :
  key_pair (rs_generate profile cs).1 (rs_generate profile cs).2 /\
  rs_profile (rs_generate profile cs).1 = profile.
Proof.
  unfold rs_generate. pose proof (kem_generate_ek_len (cs 0%nat)) as Hl.
  pose proof (kem_correct_gen (cs 0%nat)) as Hk.
  destruct (kem_generate (cs 0%nat)) as [dk ek]. simpl in *.
  destruct profile as [[] pad]; simpl; (split; [|done]); split; simpl; eauto.
  - split; [|by apply ek_len_small]. simpl. split; [|done].
    eexists; split; [done|]. apply x_public_len.
  - split; [|by apply ek_len_small]. simpl. split; [done|]. destruct pad; [|done].
    eexists; split; [done|]. by rewrite shape_length, random_bytes_len.
  - done.
Qed.

Lemma key_pair_derive profile seed :
  key_pair (rs_derive_deterministic profile seed).1 (rs_derive_deterministic profile seed).2 /\
  rs_profile (rs_derive_deterministic profile seed).1 = profile.
Proof.
  unfold rs_derive_deterministic. destruct profile as [[] pad]; cbn [posture pad_pure];
    set (okm := mac_kdf _ _ _ _);
    pose proof (kem_generate_det_ek_len (take 32 (drop 32 okm)) (take 32 (drop 64 okm))) as Hl;
    pose proof (kem_correct_det (take 32 (drop 32 okm)) (take 32 (drop 64 okm))) as Hk;
    destruct (kem_generate_deterministic _ _) as [dk ek]; simpl in Hl, Hk |- *;
    (split; [|done]); split; simpl; eauto.
  - split; [|by apply ek_len_small]. simpl. split; [|done].
    eexists; split; [done|]. apply x_public_len.
  - split; [|by apply ek_len_small]. simpl. split; [done|]. destruct pad; [|done].
    eexists; split; [done|]. unfold okm. by rewrite shape_length, length_take, mac_kdf_len.
  - done.
Qed.

Lemma encapsulate_pair s p c :
  key_pair s p ->
  exists ct ss, rp_encapsulate p c = Ok (ct, ss) /\ rs_decapsulate s ct = Ok ss /\
    length ct = kem_ct_len /\ length ss = 32%nat.
Proof.
  intros K. destruct (kem_encapsulate_total (rp_kem_ek p) c (kp_ek _ _ K)) as (ct & ss & E & Hct & Hss).
  exists ct, ss. unfold rp_encapsulate, rs_decapsulate. rewrite (kp_ek _ _ K), Hct.
  rewrite !decide_False by auto. rewrite E, (kp_kem _ _ K _ _ _ E). done.
Qed.

(** The keygen self-test of [generate] and [derive_deterministic] passes: the
    process-abort branch is unreachable. *)
Lemma pairwise_check_passes s p c : key_pair s p -> kem_pairwise_consistency_check s p c = true.
Proof.
  intros K. destruct (encapsulate_pair s p c K) as (ct & ss & E1 & E2 & _).
  unfold kem_pairwise_consistency_check. rewrite E1, E2. by apply bool_decide_eq_true.
Qed.

Lemma combine_agree sa pa sb pb ss :
  key_pair sa pa -> key_pair sb pb -> rs_profile sa = rs_profile sb ->
  exists ikm, rs_combine_ikm sa pb ss = Ok ikm /\ rs_combine_ikm sb pa ss = Ok ikm.
Proof.
  intros Ka Kb Hp. unfold rs_combine_ikm, rs_dh. rewrite (kp_x _ _ Ka), (kp_x _ _ Kb), Hp.
  pose proof (kp_has_x _ _ Ka) as Ha. pose proof (kp_has_x _ _ Kb) as Hb. rewrite Hp in Ha.
  destruct (posture (rs_profile sb)); [|eauto].
  destruct (Ha eq_refl) as [xa ->], (Hb eq_refl) as [xb ->]. simpl.
  rewrite x_diffie_hellman_comm. eauto.
Qed.

(** One asymmetric ratchet step agrees: for any two key pairs of the same
    profile (hybrid or PQ-pure), what the sender derives by encapsulating to
    the receiver's public key, the receiver derives from the ciphertext, and
    neither side fails. *)
Lemma step_agree sa pa sb pb c :
  key_pair sa pa -> key_pair sb pb -> rs_profile sa = rs_profile sb ->
  exists ct ikm, rs_step_to sa pb c = Ok (ct, ikm) /\ rs_step_from sb pa ct = Ok ikm /\
    length ct = kem_ct_len.
Proof.
  intros Ka Kb Hp. destruct (encapsulate_pair sb pb c Kb) as (ct & ss & E1 & E2 & Hct & _).
  destruct (combine_agree sa pa sb pb ss Ka Kb Hp) as (ikm & C1 & C2).
  exists ct, ikm. unfold rs_step_to, rs_step_from. rewrite E1, E2. simpl. by rewrite C1.
Qed.

Lemma key_pair_encode_len s p : key_pair s p -> zlen (rp_encode p) <= 2 ^ 17.
Proof.
  intros K. pose proof (kp_wf _ _ K). pose proof kem_lens.
  rewrite rp_encode_norm, zlen_app, zlen_enc_bytes.
  assert (zlen (rp_prefix p) <= 36) by (by apply rp_prefix_len).
  assert (zlen (rp_kem_ek p) <= 2 ^ 16) by (unfold zlen; rewrite (kp_ek _ _ K); lia). lia.
Qed.

(** The header length of a generated key depends only on whether the profile
    carries a 32-byte field. *)
Lemma generate_encode_len profile cs :
  zlen (rp_encode (rs_generate profile cs).2) =
    (if bool_decide (profile = profile_pq_pure_compact) then 0 else 36) + 4 + Z.of_nat kem_ek_len.
Proof.
  destruct (key_pair_generate profile cs) as [K Hp]. pose proof (kp_ek _ _ K) as Hek.
  pose proof (kp_wf _ _ K) as [H _]. rewrite (kp_profile _ _ K), Hp in H.
  rewrite rp_encode_norm, zlen_app, zlen_enc_bytes. unfold zlen at 2. rewrite Hek. unfold rp_prefix.
  destruct profile as [[] pad]; simpl in H |- *.
  - destruct H as [(x & -> & Hx) _]. rewrite zlen_enc_bytes. unfold zlen. rewrite Hx.
    lia.
  - destruct H as [-> H]. destruct pad.
    + destruct H as (x & -> & Hx). rewrite zlen_enc_bytes. unfold zlen. rewrite Hx.
      rewrite bool_decide_false by done. lia.
    + rewrite H, bool_decide_true by done. rewrite zlen_nil. lia.
Qed.

(** A padded PQ-pure ratchet key is as long on the wire as a hybrid one,
    whatever the draws, so frame sizes do not reveal the posture; and the
    filler's top bit is clear like that of an X25519 public key. *)
Lemma padded_pure_looks_hybrid cs cs' :
  zlen (rp_encode (rs_generate profile_pq_pure cs).2) =
    zlen (rp_encode (rs_generate profile_hybrid cs').2) /\
  exists f b, rp_pad (rs_generate profile_pq_pure cs).2 = Some f /\
    length f = PAD_LEN /\ f !! 31%nat = Some b /\ bval b < 128.
Proof.
  split; [by rewrite !generate_encode_len|].
  unfold rs_generate. destruct (kem_generate _) as [dk ek]. simpl.
  set (rb := random_bytes _ _). assert (length rb = 32%nat) as Hl by apply random_bytes_len.
  destruct (lookup_lt_is_Some_2 rb 31 ltac:(lia)) as [b Hb].
  exists (shape_like_x25519_public rb), (byte_of (Z.land (bval b) 127)).
  split; [done|]. split; [by rewrite shape_length|]. split.
  - unfold shape_like_x25519_public. change 31%nat with (PAD_LEN - 1)%nat in *.
    by rewrite list_lookup_alter_eq, Hb.
  - rewrite bval_byte_of. change 127 with (Z.ones 7). rewrite Z.land_ones by lia.
    pose proof (Z.mod_pos_bound (bval b) (2 ^ 7) ltac:(lia)).
    rewrite Z.mod_small; lia.
Qed.

End Pairs.

#[global] Opaque rp_encode rp_decode rs_generate rs_derive_deterministic.
