(* ===== verification/Toy.v ===== *)
(** * A concrete instance of the primitives

    Not a cipher: a small executable family of functions that satisfies
    [PrimitivesOk], so that the hypotheses of the protocol theorems are known
    to hold together and the protocol definitions can be run on concrete
    inputs. *)

From S2P Require Import Prelude Wire Crypto.

Definition toy_hash (l : bytes) : Z :=
  foldl (fun h b => (h * 257 + bval b + 1) mod 2147483647) 7 l.

Definition toy_kdf (k m l : bytes) (n : nat) : bytes :=
  let h := toy_hash (k ++ [byte_of 1] ++ m ++ [byte_of 2] ++ l) in
  (fun i => byte_of (h / (1 + Z.of_nat i mod 5) + 31 * Z.of_nat i)) <$> seq 0 n.

Definition toy_tag (k n a p : bytes) : bytes := toy_kdf k (n ++ a ++ p) (bstr "tag") 16.

Definition toy_encrypt (k n p a : bytes) : option bytes := Some (p ++ toy_tag k n a p).
Definition toy_decrypt (k n c a : bytes) : option bytes :=
  let p := take (length c - 16) c in
  if decide (c = p ++ toy_tag k n a p) then Some p else None.

Definition toy_random (c n : nat) : bytes :=
  toy_kdf (be_bytes 4 (Z.of_nat c)) [] (bstr "rng") n.

Definition toy_encapsulate (ek : bytes) (c : nat) : option (bytes * bytes) :=
  let ct := toy_random c 40 in Some (ct, toy_kdf ek ct (bstr "kem") 32).

Definition toy_fit (b : bytes) : bytes := resize 32 (byte_of 0) b.
Definition toy_dh (x p : bytes) : bytes :=
  zip_with (fun a b => byte_of (bval a + bval b)) (toy_fit x) (toy_fit p).

#[export] Instance toy : Primitives := {|
  coins := nat;
  random_bytes := toy_random;
  mac_kdf := toy_kdf;
  gcm_encrypt := toy_encrypt;
  gcm_decrypt := toy_decrypt;
  kem_dk := bytes;
  kem_ek_len := 48;
  kem_ct_len := 40;
  kem_generate c := (toy_random c 48, toy_random c 48);
  kem_generate_deterministic d z :=
    (toy_kdf d z (bstr "ek") 48, toy_kdf d z (bstr "ek") 48);
  kem_encapsulate := toy_encapsulate;
  kem_decapsulate dk ct := Some (toy_kdf dk ct (bstr "kem") 32);
  x_secret := bytes;
  x_random c := toy_random c 32;
  x_from_bytes b := b;
  x_public := toy_fit;
  x_diffie_hellman := toy_dh;
  mldsa_vk_len := 2592;
  mldsa_sig_len := 64;
  mldsa_vk seed := toy_kdf seed [] (bstr "vk") 2592;
  mldsa_sign seed m := toy_kdf (toy_kdf seed [] (bstr "vk") 2592) m (bstr "sig") 64;
  mldsa_verify vk m s := bool_decide (s = toy_kdf vk m (bstr "sig") 64);
|}.

Lemma toy_kdf_len k m l n : length (toy_kdf k m l n) = n.
Proof. unfold toy_kdf. by rewrite length_fmap, length_seq. Qed.

Lemma toy_fit_len b : length (toy_fit b) = 32%nat.
Proof. apply length_resize. Qed.

Lemma toy_fit_id b : length b = 32%nat -> toy_fit b = b.
Proof. intros H. unfold toy_fit, resize. rewrite decide_True by lia. by rewrite <- H, firstn_all. Qed.

Lemma toy_take_tag k n a p : take (length (p ++ toy_tag k n a p) - 16) (p ++ toy_tag k n a p) = p.
Proof.
  apply take_app_length'. rewrite length_app. unfold toy_tag. rewrite toy_kdf_len. lia.
Qed.

#[local] Opaque toy_kdf toy_fit.

#[export] Instance toy_ok : PrimitivesOk toy.
Proof.
  split; cbn; intros.
  - apply toy_kdf_len.
  - apply toy_kdf_len.
  - eexists; split; [done|]. rewrite length_app. unfold toy_tag. by rewrite toy_kdf_len.
  - unfold toy_encrypt, toy_decrypt in *. simplify_eq. rewrite toy_take_tag.
    by rewrite decide_True.
  - unfold toy_encrypt, toy_decrypt in *. case_decide as Hc; [|done]. simplify_eq. by rewrite <- Hc.
  - lia.
  - apply toy_kdf_len.
  - apply toy_kdf_len.
  - do 2 eexists. split; [done|]. split; apply toy_kdf_len.
  - unfold toy_encapsulate in *. naive_solver.
  - unfold toy_encapsulate in *. naive_solver.
  - simplify_eq. apply toy_kdf_len.
  - apply toy_fit_len.
  - unfold toy_dh. by rewrite length_zip_with, !toy_fit_len.
  - unfold toy_dh. rewrite !(toy_fit_id (toy_fit _)) by apply toy_fit_len.
    generalize (toy_fit a) (toy_fit b). intros l.
    induction l as [|y l IH]; intros [|z k]; simpl; [done..|]. by rewrite Z.add_comm, IH.
  - lia.
  - apply toy_kdf_len.
  - apply toy_kdf_len.
  - by apply bool_decide_eq_true.
Qed.

#[local] Transparent toy_kdf toy_fit.
