(* ===== verification/Ratchet.v ===== *)
(** * The post-quantum Double Ratchet (crates/crypto/src/ratchet.rs)

    [Session] is the source's struct field by field; its methods run in the
    state-and-error monad [ST].  [expect] on an empty option is the outcome
    [Panic], so that its absence is a theorem and not an assumption. *)

From S2P Require Import Prelude Wire Crypto Hybrid.

Definition MAX_SKIP : Z := 1000.

(** How a [&mut self] method can stop early. *)
Inductive fault : Type :=
| Fail (e : CryptoError)
| Panic (msg : string).

#[export] Instance from_wire_fault : FromWire fault := fun e => Fail (WireErr e).

Definition lift_crypto {S A} (r : result CryptoError A) : ST S fault A :=
  st_lift (map_err Fail r).

Definition st_expect {S A} (o : option A) (msg : string) : ST S fault A :=
  st_lift (ok_or o (Panic msg)).

(** ** Message header *)

Record Header : Type := mkHeader {
  h_ratchet_pub : RatchetPublic;
  h_ct : bytes;
  h_pn : Z;
  h_n : Z }.

Definition header_encode (h : Header) : bytes :=
  w_new |> put_bytes (rp_encode (h_ratchet_pub h))
        |> put_bytes (h_ct h)
        |> put_u32 (h_pn h)
        |> put_u32 (h_n h)
        |> into_vec.

Definition header_decode (profile : KemProfile) (b : bytes) : result CryptoError Header :=
  run_get (
    get* ratchet_pub := rp_field profile in
    get* ct := q get_vec in
    get* pn := q get_u32 in
    get* n := q get_u32 in
    get* _ := q finish in
    gret (mkHeader ratchet_pub ct pn n)) b.

(** [header ‖ ciphertext], the wire message *)
Definition msg_encode (aad ciphertext : bytes) : bytes :=
  w_new |> put_bytes aad |> put_bytes ciphertext |> into_vec.

Definition msg_decode (b : bytes) : result CryptoError (bytes * bytes) :=
  run_get (
    get* aad := q get_vec in
    get* ciphertext := q get_vec in
    get* _ := q finish in
    gret (aad, ciphertext)) b.

Section Session.
Context {P : Primitives}.

Record Session : Type := mkSession {
  profile : KemProfile;
  root : bytes;
  self_ratchet : option RatchetSecret;
  self_ratchet_pub : option RatchetPublic;
  self_send_ct : bytes;
  send_ck : option bytes;
  send_n : Z;
  prev_send_n : Z;
  peer_ratchet : option RatchetPublic;
  recv_ck : option bytes;
  recv_n : Z;
  need_send_ratchet : bool;
  skipped : gmap (bytes * Z) bytes }.

Definition initiator (root0 : bytes) (peer_prekey : RatchetPublic) : Session :=
  {| profile := rp_profile peer_prekey; root := root0;
     self_ratchet := None; self_ratchet_pub := None; self_send_ct := [];
     send_ck := None; send_n := 0; prev_send_n := 0;
     peer_ratchet := Some peer_prekey; recv_ck := None; recv_n := 0;
     need_send_ratchet := true; skipped := ∅ |}.

Definition responder (root0 : bytes) (prekey_secret : RatchetSecret)
    (prekey_public : RatchetPublic) : Session :=
  {| profile := rs_profile prekey_secret; root := root0;
     self_ratchet := Some prekey_secret; self_ratchet_pub := Some prekey_public;
     self_send_ct := [];
     send_ck := None; send_n := 0; prev_send_n := 0;
     peer_ratchet := None; recv_ck := None; recv_n := 0;
     need_send_ratchet := false; skipped := ∅ |}.

Definition can_send (s : Session) : bool :=
  bool_decide (is_Some (send_ck s)) || bool_decide (is_Some (peer_ratchet s)).

(** Field updates. *)
Definition set_send (s : Session) (ck : option bytes) (n : Z) : Session :=
  {| profile := profile s; root := root s;
     self_ratchet := self_ratchet s; self_ratchet_pub := self_ratchet_pub s;
     self_send_ct := self_send_ct s; send_ck := ck; send_n := n;
     prev_send_n := prev_send_n s; peer_ratchet := peer_ratchet s;
     recv_ck := recv_ck s; recv_n := recv_n s;
     need_send_ratchet := need_send_ratchet s; skipped := skipped s |}.

Definition set_recv (s : Session) (ck : option bytes) (n : Z)
    (sk : gmap (bytes * Z) bytes) : Session :=
  {| profile := profile s; root := root s;
     self_ratchet := self_ratchet s; self_ratchet_pub := self_ratchet_pub s;
     self_send_ct := self_send_ct s; send_ck := send_ck s; send_n := send_n s;
     prev_send_n := prev_send_n s; peer_ratchet := peer_ratchet s;
     recv_ck := ck; recv_n := n;
     need_send_ratchet := need_send_ratchet s; skipped := sk |}.

(** [ratchet_send]: [cs] supplies key generation (draws 0, 1) and the
    encapsulation (draw 2). *)
Definition ratchet_send (cs : nat -> coins) : ST Session fault unit :=
  do* s := st_get in
  do* peer := st_lift (ok_or (peer_ratchet s) (Fail (Malformed "no peer ratchet key"))) in
  let (new_secret, new_public) := rs_generate (profile s) cs in
  do* (ct, ikm) := lift_crypto (rs_step_to new_secret peer (cs 2%nat)) in
  let (rt, ck) := kdf_rk (root s) ikm in
  st_modify (fun s =>
    {| profile := profile s; root := rt;
       self_ratchet := Some new_secret; self_ratchet_pub := Some new_public;
       self_send_ct := ct; send_ck := Some ck; send_n := 0; prev_send_n := send_n s;
       peer_ratchet := peer_ratchet s; recv_ck := recv_ck s; recv_n := recv_n s;
       need_send_ratchet := false; skipped := skipped s |}).

Definition ratchet_recv (h : Header) : ST Session fault unit :=
  do* s := st_get in
  do* self_r := st_lift (ok_or (self_ratchet s) (Fail (Malformed "no self ratchet key"))) in
  do* ikm := lift_crypto (rs_step_from self_r (h_ratchet_pub h) (h_ct h)) in
  let (rt, ck) := kdf_rk (root s) ikm in
  st_modify (fun s =>
    {| profile := profile s; root := rt;
       self_ratchet := self_ratchet s; self_ratchet_pub := self_ratchet_pub s;
       self_send_ct := self_send_ct s; send_ck := send_ck s; send_n := send_n s;
       prev_send_n := prev_send_n s;
       peer_ratchet := Some (h_ratchet_pub h); recv_ck := Some ck; recv_n := 0;
       need_send_ratchet := true; skipped := skipped s |}).

(** The body of the [while self.recv_n < until] loop, [k] iterations left. *)
Fixpoint skip_loop (k : nat) (chain_id : bytes) : ST Session fault unit :=
  match k with
  | O => st_ret tt
  | S k =>
      do* s := st_get in
      do* ck := st_expect (recv_ck s) "recv chain present" in
      let (next_ck, mk_seed) := kdf_ck ck in
      do* _ := st_modify (fun s =>
        set_recv s (Some next_ck) (u32_add (recv_n s) 1)
          (<[(chain_id, recv_n s) := mk_seed]> (skipped s))) in
      skip_loop k chain_id
  end.

Definition skip_recv (until : Z) : ST Session fault unit :=
  do* s := st_get in
  if decide (recv_ck s = None \/ until <= recv_n s) then st_ret tt
  else
    let to_skip := until - recv_n s in
    if decide (Z.of_nat (size (skipped s)) + to_skip > MAX_SKIP)
    then st_err (Fail (TooManySkipped MAX_SKIP))
    else
      let chain_id := match peer_ratchet s with Some p => rp_encode p | None => [] end in
      skip_loop (Z.to_nat to_skip) chain_id.

Definition try_skipped (h : Header) (ct aad : bytes) : ST Session fault (option bytes) :=
  do* s := st_get in
  let id := (rp_encode (h_ratchet_pub h), h_n h) in
  match skipped s !! id with
  | Some mk_seed =>
      let (key, nonce) := kdf_mk mk_seed in
      do* pt := lift_crypto (aead_open key nonce ct aad) in
      do* _ := st_modify (fun s =>
        set_recv s (recv_ck s) (recv_n s) (delete id (skipped s))) in
      st_ret (Some pt)
  | None => st_ret None
  end.

Definition encrypt (cs : nat -> coins) (plaintext : bytes) : ST Session fault bytes :=
  do* s := st_get in
  do* _ := (if need_send_ratchet s || bool_decide (send_ck s = None)
            then ratchet_send cs else st_ret tt) in
  do* s := st_get in
  do* ck := st_expect (send_ck s) "send chain set after ratchet_send" in
  let (next_ck, mk_seed) := kdf_ck ck in
  let (key, nonce) := kdf_mk mk_seed in
  do* pub := st_expect (self_ratchet_pub s) "self ratchet pub set" in
  let header := mkHeader pub (self_send_ct s) (prev_send_n s) (send_n s) in
  let aad := header_encode header in
  do* ciphertext := lift_crypto (aead_seal key nonce plaintext aad) in
  do* _ := st_modify (fun s => set_send s (Some next_ck) (u32_add (send_n s) 1)) in
  st_ret (msg_encode aad ciphertext).

(** Steps 2 to 4 of [decrypt_inner], after the skipped-key lookup. *)
Definition decrypt_chain (h : Header) (ciphertext aad : bytes) : ST Session fault bytes :=
  do* s := st_get in
  let is_new := match peer_ratchet s with
                | Some p => negb (bool_decide (p = h_ratchet_pub h))
                | None => true
                end in
  do* _ := (if is_new then do* _ := skip_recv (h_pn h) in ratchet_recv h else st_ret tt) in
  do* _ := skip_recv (h_n h) in
  do* s := st_get in
  do* ck := st_lift (ok_or (recv_ck s) (Fail DecryptionFailed)) in
  let (next_ck, mk_seed) := kdf_ck ck in
  let (key, nonce) := kdf_mk mk_seed in
  do* pt := lift_crypto (aead_open key nonce ciphertext aad) in
  do* _ := st_modify (fun s => set_recv s (Some next_ck) (u32_add (recv_n s) 1) (skipped s)) in
  st_ret pt.

Definition decrypt_inner (message : bytes) : ST Session fault bytes :=
  do* (aad, ciphertext) := lift_crypto (msg_decode message) in
  do* s := st_get in
  do* header := lift_crypto (header_decode (profile s) aad) in
  do* hit := try_skipped header ciphertext aad in
  match hit with
  | Some pt => st_ret pt
  | None => decrypt_chain header ciphertext aad
  end.

(** Runs on a clone and commits only on success. *)
Definition decrypt (message : bytes) : ST Session fault bytes := fun s =>
  match decrypt_inner message s with
  | (Ok pt, trial) => (Ok pt, trial)
  | (Err e, _) => (Err e, s)
  end.

End Session.


(** ** Codec *)

Record header_wf (h : Header) : Prop := {
  hw_pub : rp_wf (h_ratchet_pub h);
  hw_ct : zlen (h_ct h) <= MAX_FRAME;
  hw_pn : is_u32 (h_pn h);
  hw_n : is_u32 (h_n h) }.

Lemma header_encode_norm h :
  header_encode h = enc_bytes (rp_encode (h_ratchet_pub h)) ++ enc_bytes (h_ct h) ++
                    be_bytes 4 (h_pn h) ++ be_bytes 4 (h_n h).
Proof. unfold header_encode. by wire_norm. Qed.

Lemma header_encode_len h :
  zlen (header_encode h) = zlen (rp_encode (h_ratchet_pub h)) + zlen (h_ct h) + 16.
Proof.
  rewrite header_encode_norm, !zlen_app, !zlen_enc_bytes, !zlen_be_bytes. lia.
Qed.

(** A message header decodes from its own encoding, for every key posture. *)
Lemma header_decode_encode h :
  header_wf h -> header_decode (rp_profile (h_ratchet_pub h)) (header_encode h) = Ok h.
Proof.
  intros [Hp Hc Hpn Hn]. apply run_decodes_all.
  - rewrite header_encode_len. pose proof (rp_encode_len _ Hp).
    unfold MAX_FRAME, usize_max in *. lia.
  - rewrite header_encode_norm. pose proof (decodes_rp_field _ Hp).
    destruct h as [p c pn n]; simpl in *. by dec_all.
Qed.

(** What the decoder returns has 32-bit counters. *)
Lemma rp_field_rwf prof r p r' : rwf r -> rp_field prof r = Ok (p, r') -> rwf r'.
Proof.
  intros Hw H. unfold rp_field, gbind in H. inv_run. destruct x as [b r1].
  apply inverts_q in H0. apply inverts_bytes in H0 as (? & _); [|done].
  unfold glift in H. inv_run. by simplify_eq.
Qed.

Lemma header_decode_u32 prof b h :
  zlen b <= usize_max -> header_decode prof b = Ok h -> is_u32 (h_pn h) /\ is_u32 (h_n h).
Proof.
  intros Hb H. unfold header_decode in H. inv_get. pose proof (rwf_new b Hb) as Hw.
  apply rp_field_rwf in H1; [|done]. apply inverts_bytes in H2 as (? & _); [|done].
  apply inverts_u32 in H3 as (? & _ & ?); [|done]. apply inverts_u32 in H4 as (? & _ & ?); [|done].
  done.
Qed.

Lemma msg_encode_norm a c : msg_encode a c = enc_bytes a ++ enc_bytes c.
Proof. unfold msg_encode. by wire_norm. Qed.

Lemma msg_roundtrip a c :
  zlen a <= MAX_FRAME -> zlen c <= MAX_FRAME -> msg_decode (msg_encode a c) = Ok (a, c).
Proof.
  intros Ha Hc. apply run_decodes_all; rewrite msg_encode_norm.
  - rewrite zlen_app, !zlen_enc_bytes. unfold MAX_FRAME, usize_max in *. lia.
  - by dec_all.
Qed.

(** ** Session invariant *)

Section Invariant.
Context {P : Primitives} {POk : PrimitivesOk P}.

Definition key_len (o : option bytes) : Prop :=
  match o with Some k => length k = KEY_LEN | None => True end.

Record session_inv (s : Session) : Prop := {
  si_root : length (root s) = KEY_LEN;
  si_send_ck : key_len (send_ck s);
  si_recv_ck : key_len (recv_ck s);
  si_send_n : is_u32 (send_n s);
  si_prev_n : is_u32 (prev_send_n s);
  si_recv_n : is_u32 (recv_n s);
  si_pub : is_Some (send_ck s) -> is_Some (self_ratchet_pub s);
  si_skip_size : Z.of_nat (size (skipped s)) <= MAX_SKIP;
  si_skip_len : map_Forall (fun _ k => length k = KEY_LEN) (skipped s) }.

Lemma is_u32_add a b : is_u32 (u32_add a b).
Proof. unfold is_u32, u32_add, u32_wrap. apply Z.mod_pos_bound. lia. Qed.

Lemma initiator_inv root0 p : length root0 = KEY_LEN -> session_inv (initiator root0 p).
Proof. intros. by split; simpl. Qed.

Lemma responder_inv root0 s p : length root0 = KEY_LEN -> session_inv (responder root0 s p).
Proof. intros. by split; simpl. Qed.

(** A run that ends in the invariant and not in a panic. *)
Definition safe {A} (r : result fault A) (s : Session) : Prop :=
  session_inv s /\ (forall m, r <> Err (Panic m)).

Lemma safe_cast {A B} e s : safe (A:=A) (Err e) s -> safe (A:=B) (Err e) s.
Proof. intros [Hs Hp]. split; [done|]. intros m [= ->]. by apply (Hp m). Qed.

Lemma lift_crypto_safe {A} (r : result CryptoError A) (s : Session) Q :
  session_inv s ->
  (forall a, r = Ok a -> Q (Ok a) s) -> (forall e, Q (Err (Fail e)) s) ->
  wp (lift_crypto r) Q s.
Proof. intros Hs Ho He. apply wp_lift. destruct r; simpl; auto. Qed.

Lemma set_send_inv s ck n :
  session_inv s -> key_len ck -> is_u32 n -> (is_Some ck -> is_Some (self_ratchet_pub s)) ->
  session_inv (set_send s ck n).
Proof. intros [] ???. by split. Qed.

Lemma set_recv_inv s ck n sk :
  session_inv s -> key_len ck -> is_u32 n -> Z.of_nat (size sk) <= MAX_SKIP ->
  map_Forall (fun _ k => length k = KEY_LEN) sk -> session_inv (set_recv s ck n sk).
Proof. intros [] ????. by split. Qed.

Lemma ratchet_send_safe cs s :
  session_inv s ->
  wp (ratchet_send cs) (fun r s' => safe r s' /\ (is_ok r = true -> is_Some (send_ck s'))) s.
Proof.
  intros Hs. unfold ratchet_send. wp_step. wp_step. wp_step. wp_step.
  destruct (peer_ratchet s) as [peer|]; simpl; [|by split; [split|]].
  destruct (rs_generate _ _) as [sec pub]. wp_step. apply lift_crypto_safe; [done| |by split; [split|]].
  intros [ct ikm] _. pose proof (kdf_rk_len (root s) ikm) as [Hr Hc].
  destruct (kdf_rk _ _) as [rt ck]. wp_step. split; [|by intros _; eexists].
  split; [|done]. destruct Hs. by split.
Qed.

Lemma ratchet_recv_safe h s : session_inv s -> wp (ratchet_recv h) safe s.
Proof.
  intros Hs. unfold ratchet_recv. do 4 wp_step.
  destruct (self_ratchet s) as [sr|]; simpl; [|by split].
  wp_step. apply lift_crypto_safe; [done| |by split].
  intros ikm _. pose proof (kdf_rk_len (root s) ikm) as [Hr Hc].
  destruct (kdf_rk _ _) as [rt ck]. wp_step. split; [|done]. destruct Hs. by split.
Qed.

Lemma size_insert_le {K V} `{Countable K} (m : gmap K V) k v :
  Z.of_nat (size (<[k:=v]> m)) <= Z.of_nat (size m) + 1.
Proof. rewrite map_size_insert. destruct (m !! k); simpl; lia. Qed.

Lemma skip_loop_safe k id s :
  session_inv s -> is_Some (recv_ck s) -> Z.of_nat (size (skipped s)) + Z.of_nat k <= MAX_SKIP ->
  wp (skip_loop k id) safe s.
Proof.
  revert s. induction k as [|k IH]; intros s Hs [ck Hck] Hsz; simpl.
  { wp_step. by split. }
  do 2 wp_step. wp_step. apply wp_lift. rewrite Hck. simpl.
  pose proof (kdf_ck_len ck) as [Hn Hm]. destruct (kdf_ck ck) as [next seed].
  do 2 wp_step. pose proof (size_insert_le (skipped s) (id, recv_n s) seed).
  apply IH; [|by eexists|simpl; lia].
  apply set_recv_inv; [done|done|apply is_u32_add|lia|].
  apply map_Forall_insert_2; [done|apply Hs].
Qed.

Lemma skip_recv_safe until s : session_inv s -> wp (skip_recv until) safe s.
Proof.
  intros Hs. unfold skip_recv. do 2 wp_step. case_decide as H1; [wp_step; by split|].
  case_decide as H2; [wp_step; by split|].
  apply skip_loop_safe; [done| |].
  - destruct (recv_ck s); [by eexists|naive_solver].
  - assert (0 <= until - recv_n s) by (destruct (decide (until <= recv_n s)); [naive_solver|lia]). lia.
Qed.

Lemma size_delete_le {K V} `{Countable K} (m : gmap K V) k :
  (size (delete k m) <= size m)%nat.
Proof. rewrite map_size_delete. destruct (m !! k); simpl; lia. Qed.

Lemma try_skipped_safe h ct aad s : session_inv s -> wp (try_skipped h ct aad) safe s.
Proof.
  intros Hs. unfold try_skipped. do 2 wp_step. destruct (skipped s !! _) as [seed|]; [|wp_step; by split].
  destruct (kdf_mk seed) as [key nonce]. wp_step. apply lift_crypto_safe; [done| |by split].
  intros pt _. do 3 wp_step. split; [|done].
  apply set_recv_inv; [done|apply Hs|apply Hs| |by apply map_Forall_delete, Hs].
  pose proof (size_delete_le (skipped s) (rp_encode (h_ratchet_pub h), h_n h)).
  pose proof (si_skip_size _ Hs). lia.
Qed.

Lemma decrypt_chain_safe h ct aad s : session_inv s -> wp (decrypt_chain h ct aad) safe s.
Proof.
  intros Hs. unfold decrypt_chain. do 2 wp_step. wp_step.
  apply (wp_mono _ (safe (A:=unit))).
  { case_match; [|wp_step; by split]. wp_step.
    eapply wp_mono; [by apply skip_recv_safe|]. intros [[]|e] s1 Hs1; [|done]. destruct Hs1.
    by apply ratchet_recv_safe. }
  intros [[]|e] s1 Hs1; [|by eapply safe_cast]. destruct Hs1 as [Hs1 _]. wp_step.
  eapply wp_mono; [by apply skip_recv_safe|]. intros [[]|e] s2 Hs2; [|by eapply safe_cast]. destruct Hs2 as [Hs2 _].
  do 2 wp_step. wp_step. apply wp_lift. destruct (recv_ck s2) as [ck|]; simpl; [|by split].
  pose proof (kdf_ck_len ck) as [Hn _]. destruct (kdf_ck ck) as [next seed].
  destruct (kdf_mk seed) as [key nonce]. wp_step. apply lift_crypto_safe; [done| |by split].
  intros pt _. do 3 wp_step. split; [|done].
  apply set_recv_inv; [done|done|apply is_u32_add|apply Hs2|apply Hs2].
Qed.

Lemma decrypt_inner_safe msg s : session_inv s -> wp (decrypt_inner msg) safe s.
Proof.
  intros Hs. unfold decrypt_inner. wp_step. apply lift_crypto_safe; [done| |by split].
  intros [aad ct] _. do 2 wp_step. wp_step. apply lift_crypto_safe; [done| |by split].
  intros h _. wp_step. eapply wp_mono; [by apply try_skipped_safe|].
  intros [[pt|]|e] s1 Hs1; [wp_step; destruct Hs1; by split| |by eapply safe_cast].
  destruct Hs1.
  by apply decrypt_chain_safe.
Qed.

Lemma decrypt_inv message s : session_inv s -> session_inv (decrypt message s).2.
Proof.
  intros Hs. pose proof (decrypt_inner_safe message s Hs) as [Hi _]. unfold decrypt.
  by destruct (decrypt_inner message s) as [[pt|e] s'].
Qed.

(** C5: hostile input cannot hurt a session.  On any bytes at all, [decrypt]
    ends without a panic; every invariant of the session survives (key lengths,
    counter widths, at most [MAX_SKIP] cached keys); and when it reports an
    error the session is exactly what it was. *)
Theorem decrypt_hostile_safe (s : Session) (message : bytes) :
  session_inv s ->
  session_inv (decrypt message s).2 /\
  (forall m, (decrypt message s).1 <> Err (Panic m)) /\
  (is_ok (decrypt message s).1 = false -> (decrypt message s).2 = s).
Proof.
  intros Hs. pose proof (decrypt_inner_safe message s Hs) as [Hi Hp]. unfold decrypt.
  destruct (decrypt_inner message s) as [[pt|e] s']; simpl in *;
    (split; [done|]; split; [|done]); intros m [=]; subst; by apply (Hp m).
Qed.

Lemma encrypt_wp cs pt s : session_inv s -> wp (encrypt cs pt) safe s.
Proof.
  intros Hs. unfold encrypt. do 2 wp_step. wp_step.
  apply (wp_mono _ (fun r s' => safe r s' /\ (is_ok r = true -> is_Some (send_ck s')))).
  { destruct (need_send_ratchet s || _) eqn:E; [by apply ratchet_send_safe|].
    apply orb_false_elim in E as [_ E]. apply bool_decide_eq_false in E.
    wp_step. split; [by split|]. intros _. by apply not_eq_None_Some. }
  intros [[]|e] s1 [Hs1 Hck]; [|by eapply safe_cast]. destruct Hs1 as [Hs1 _]. destruct (Hck eq_refl) as [ck Eck].
  destruct (si_pub _ Hs1 (mk_is_Some _ _ Eck)) as [pub Epub].
  do 2 wp_step. wp_step. apply wp_lift. rewrite Eck. simpl.
  pose proof (kdf_ck_len ck) as [Hn _]. destruct (kdf_ck ck) as [next seed].
  destruct (kdf_mk seed) as [key nonce]. wp_step. apply wp_lift. rewrite Epub. simpl.
  wp_step. apply lift_crypto_safe; [done| |by split].
  intros c _. do 3 wp_step. split; [|done].
  apply set_send_inv; [done|done|apply is_u32_add|by intros; eexists].
Qed.

(** [encrypt] never panics from a session that satisfies the invariant and
    keeps the invariant, whether it has to ratchet first or not and whether or
    not it succeeds; a session that is not [can_send] reports that and stays
    as it was. *)
Lemma encrypt_safe cs (s : Session) (plaintext : bytes) :
  session_inv s ->
  session_inv (encrypt cs plaintext s).2 /\
  (forall m, (encrypt cs plaintext s).1 <> Err (Panic m)) /\
  (can_send s = false ->
     encrypt cs plaintext s = (Err (Fail (Malformed "no peer ratchet key")), s)).
Proof.
  intros Hs. destruct (encrypt_wp cs plaintext s Hs) as [Hi Hp]. do 2 (split; [done|]).
  unfold can_send. intros [H1 H2]%orb_false_elim.
  apply bool_decide_eq_false, eq_None_not_Some in H1, H2.
  unfold encrypt, ratchet_send, st_bind, st_get, st_lift.
  rewrite bool_decide_true, orb_true_r by done. by rewrite H2.
Qed.

End Invariant.

#[global] Opaque header_encode header_decode msg_encode msg_decode.
