(* ===== verification/Conversation.v ===== *)
(** * Two Double Ratchet sessions talking to each other

    Theorems about pairs of sessions of Ratchet.v: a conversation in lockstep
    delivers every plaintext ([conversation_delivers]), and within one sending
    chain messages may arrive in any order and with losses
    ([out_of_order_delivers]). *)

From S2P Require Import Prelude Wire Crypto Hybrid Ratchet Toy.

Section Conversation.
Context {P : Primitives} {POk : PrimitivesOk P}.

(** ** The symmetric chain *)

Fixpoint chain_key (ck : bytes) (i : nat) : bytes :=
  match i with O => ck | S i => chain_key (kdf_ck ck).1 i end.

(** Seed of the [i]-th message key of the chain that starts at [ck]. *)
Definition chain_seed (ck : bytes) (i : nat) : bytes := (kdf_ck (chain_key ck i)).2.

Definition seal_with (seed pt aad : bytes) := aead_seal (kdf_mk seed).1 (kdf_mk seed).2 pt aad.
Definition open_with (seed ct aad : bytes) := aead_open (kdf_mk seed).1 (kdf_mk seed).2 ct aad.

Lemma chain_key_S ck i : chain_key ck (S i) = (kdf_ck (chain_key ck i)).1.
Proof. revert ck. induction i as [|i IH]; intros ck; [done|]. cbn [chain_key] in *. by rewrite IH. Qed.

Lemma chain_key_add ck i j : chain_key (chain_key ck i) j = chain_key ck (i + j).
Proof. revert ck. induction i as [|i IH]; intros ck; simpl; [done|]. by rewrite IH. Qed.

Lemma open_seal_with seed pt aad ct : seal_with seed pt aad = Ok ct -> open_with seed ct aad = Ok pt.
Proof. apply aead_open_seal. Qed.

Lemma seal_with_total seed pt aad :
  zlen pt <= 2 ^ 32 -> zlen aad <= 2 ^ 32 ->
  exists ct, seal_with seed pt aad = Ok ct /\ zlen ct = zlen pt + 16.
Proof. intros. apply aead_seal_total; [apply kdf_mk_len|done..]. Qed.

(** ** Step lemmas *)

Lemma encrypt_established cs s ck pub pt ct :
  need_send_ratchet s = false -> send_ck s = Some ck -> self_ratchet_pub s = Some pub ->
  let aad := header_encode (mkHeader pub (self_send_ct s) (prev_send_n s) (send_n s)) in
  seal_with (chain_seed ck 0) pt aad = Ok ct ->
  encrypt cs pt s =
    (Ok (msg_encode aad ct), set_send s (Some (chain_key ck 1)) (u32_add (send_n s) 1)).
Proof.
  intros Hn Hck Hpub aad Hs. unfold encrypt, st_bind, st_get, st_expect, st_lift, lift_crypto.
  rewrite Hn, Hck. rewrite bool_decide_false by done. cbn. rewrite Hck. cbn.
  unfold chain_seed, chain_key, seal_with in *.
  destruct (kdf_ck ck) as [next seed]. cbn in *. destruct (kdf_mk seed) as [key nonce]. cbn in *.
  unfold st_lift. rewrite Hpub. cbn. fold aad. rewrite Hs. done.
Qed.

(** What [decrypt] sees when the bytes are an honest message. *)
Lemma decrypt_honest h ct s :
  header_wf h -> rp_profile (h_ratchet_pub h) = profile s ->
  zlen (header_encode h) <= MAX_FRAME -> zlen ct <= MAX_FRAME ->
  decrypt (msg_encode (header_encode h) ct) s =
    match (do* hit := try_skipped h ct (header_encode h) in
           match hit with Some pt => st_ret pt | None => decrypt_chain h ct (header_encode h) end) s
    with (Ok pt, s') => (Ok pt, s') | (Err e, _) => (Err e, s) end.
Proof.
  intros Hh Hp Ha Hc. unfold decrypt, decrypt_inner, lift_crypto, st_lift, st_get.
  unfold st_bind at 1. rewrite msg_roundtrip by done. cbn.
  unfold st_bind at 1. cbn. unfold st_bind at 1. rewrite <- Hp, header_decode_encode by done. done.
Qed.

Lemma decrypt_skipped h ct s seed pt :
  header_wf h -> rp_profile (h_ratchet_pub h) = profile s ->
  zlen (header_encode h) <= MAX_FRAME -> zlen ct <= MAX_FRAME ->
  skipped s !! (rp_encode (h_ratchet_pub h), h_n h) = Some seed ->
  open_with seed ct (header_encode h) = Ok pt ->
  decrypt (msg_encode (header_encode h) ct) s =
    (Ok pt, set_recv s (recv_ck s) (recv_n s)
              (delete (rp_encode (h_ratchet_pub h), h_n h) (skipped s))).
Proof.
  intros Hh Hp Ha Hc Hs Ho. rewrite decrypt_honest by done. unfold open_with in Ho.
  unfold try_skipped, st_bind, st_get, lift_crypto, st_lift. rewrite Hs.
  destruct (kdf_mk seed) as [key nonce]. cbn in *. by rewrite Ho.
Qed.

(** The end of [decrypt_chain], once the chain is positioned. *)
Definition open_here (ct aad : bytes) (s : Session) : option (bytes * Session) :=
  match recv_ck s with
  | None => None
  | Some ck =>
      match open_with (chain_seed ck 0) ct aad with
      | Ok pt => Some (pt, set_recv s (Some (chain_key ck 1)) (u32_add (recv_n s) 1) (skipped s))
      | Err _ => None
      end
  end.

Lemma decrypt_on_chain h ct s s1 s2 pt s' :
  header_wf h -> rp_profile (h_ratchet_pub h) = profile s ->
  zlen (header_encode h) <= MAX_FRAME -> zlen ct <= MAX_FRAME ->
  skipped s !! (rp_encode (h_ratchet_pub h), h_n h) = None ->
  (if bool_decide (peer_ratchet s = Some (h_ratchet_pub h)) then s1 = s
   else (do* _ := skip_recv (h_pn h) in ratchet_recv h) s = (Ok tt, s1)) ->
  skip_recv (h_n h) s1 = (Ok tt, s2) ->
  open_here ct (header_encode h) s2 = Some (pt, s') ->
  decrypt (msg_encode (header_encode h) ct) s = (Ok pt, s').
Proof.
  intros Hh Hp Ha Hc Hs Hnew Hskip Ho. rewrite decrypt_honest by done.
  assert (try_skipped h ct (header_encode h) s = (Ok None, s)) as Ht.
  { unfold try_skipped, st_bind, st_get. by rewrite Hs. }
  unfold st_bind at 1. rewrite Ht. unfold decrypt_chain. unfold st_bind at 1, st_get at 1. cbv beta iota.
  unfold st_bind at 1.
  assert (forall b, (b = false -> s1 = s) ->
    (b = true -> (do* _ := skip_recv (h_pn h) in ratchet_recv h) s = (Ok tt, s1)) ->
    (if b then (do* _ := skip_recv (h_pn h) in ratchet_recv h) else st_ret tt) s = (Ok tt, s1)) as Hif.
  { intros [] H1 H2; [by apply H2|]. unfold st_ret. by rewrite H1. }
  rewrite Hif; clear Hif Ht.
  2:{ destruct (peer_ratchet s) as [p|]; [|done]. intros Hb%negb_false_iff.
      apply bool_decide_eq_true in Hb as ->. by rewrite bool_decide_true in Hnew. }
  2:{ intros Hb. rewrite bool_decide_false in Hnew; [done|].
      destruct (peer_ratchet s) as [p|]; [|done].
      apply negb_true_iff, bool_decide_eq_false in Hb. congruence. }
  unfold st_bind at 1. rewrite Hskip. unfold st_bind, st_get, st_lift, lift_crypto.
  unfold open_here, chain_seed, open_with in Ho. destruct (recv_ck s2) as [ck|]; [|done]. cbn in *.
  destruct (kdf_ck ck) as [next seed]. cbn in *. destruct (kdf_mk seed) as [key nonce]. cbn in *.
  unfold st_lift. destruct (aead_open key nonce ct (header_encode h)); [|done]. cbn. by simplify_eq.
Qed.

Lemma skip_recv_noop until s :
  recv_ck s = None \/ until <= recv_n s -> skip_recv until s = (Ok tt, s).
Proof. intros H. unfold skip_recv, st_bind, st_get. by rewrite decide_True. Qed.

(** ** Skipping forward along a chain *)

Fixpoint skip_map (id ck : bytes) (n : Z) (k : nat) (m : gmap (bytes * Z) bytes)
  : gmap (bytes * Z) bytes :=
  match k with
  | O => m
  | S k => skip_map id (kdf_ck ck).1 (n + 1) k (<[(id, n) := (kdf_ck ck).2]> m)
  end.

Lemma skip_map_lookup id ck n k m id' j :
  skip_map id ck n k m !! (id', j) =
    if decide (id' = id /\ n <= j < n + Z.of_nat k)
    then Some (chain_seed ck (Z.to_nat (j - n))) else m !! (id', j).
Proof.
  revert ck n m. induction k as [|k IH]; intros ck n m; cbn [skip_map].
  { by rewrite decide_False by lia. }
  rewrite IH. destruct (decide (id' = id)) as [->|Hid].
  2:{ rewrite !decide_False by naive_solver. rewrite lookup_insert_ne; [done|naive_solver]. }
  destruct (decide (j = n)) as [->|Hj].
  - rewrite decide_False by lia. rewrite decide_True by (split; [done|lia]).
    by rewrite Z.sub_diag, lookup_insert_eq.
  - rewrite lookup_insert_ne by naive_solver.
    destruct (decide (n + 1 <= j < n + 1 + Z.of_nat k)).
    + rewrite !decide_True by (split; [done|lia]).
      by replace (Z.to_nat (j - n)) with (S (Z.to_nat (j - (n + 1)))) by lia.
    + by rewrite !decide_False by (intros [_ ?]; lia).
Qed.

Lemma skip_map_size id ck n k m :
  Z.of_nat (size (skip_map id ck n k m)) <= Z.of_nat (size m) + Z.of_nat k.
Proof.
  revert ck n m. induction k as [|k IH]; intros ck n m; cbn [skip_map]; [lia|].
  etrans; [apply IH|]. pose proof (size_insert_le m (id, n) (kdf_ck ck).2). lia.
Qed.

Lemma skip_loop_run k id s ck :
  recv_ck s = Some ck -> 0 <= recv_n s -> recv_n s + Z.of_nat k < 2 ^ 32 ->
  skip_loop k id s =
    (Ok tt, set_recv s (Some (chain_key ck k)) (recv_n s + Z.of_nat k)
              (skip_map id ck (recv_n s) k (skipped s))).
Proof.
  revert s ck. induction k as [|k IH]; intros s ck Hck Hn Hlt; cbn [skip_loop].
  { unfold st_ret, set_recv. cbn. rewrite Z.add_0_r, <- Hck. by destruct s. }
  unfold st_bind, st_get, st_expect, st_lift, st_modify. rewrite Hck. cbn [ok_or].
  destruct (kdf_ck ck) as [next seed] eqn:Ek.
  assert (u32_add (recv_n s) 1 = recv_n s + 1) as Hadd.
  { unfold u32_add. apply u32_wrap_small. unfold is_u32. lia. }
  rewrite (IH _ next); cbn; rewrite ?Hadd; [|done|lia|lia].
  cbn [chain_key skip_map]. rewrite Ek. unfold set_recv. cbn. do 2 f_equal. lia.
Qed.

Lemma skip_recv_run until s ck p :
  recv_ck s = Some ck -> peer_ratchet s = Some p -> 0 <= recv_n s <= until -> until < 2 ^ 32 ->
  Z.of_nat (size (skipped s)) + (until - recv_n s) <= MAX_SKIP ->
  skip_recv until s =
    (Ok tt, set_recv s (Some (chain_key ck (Z.to_nat (until - recv_n s)))) until
              (skip_map (rp_encode p) ck (recv_n s) (Z.to_nat (until - recv_n s)) (skipped s))).
Proof.
  intros Hck Hp Hn Hu Hsz. unfold skip_recv, st_bind, st_get.
  destruct (decide (until = recv_n s)) as [->|Hne].
  { rewrite decide_True by (right; lia). rewrite Z.sub_diag. change (Z.to_nat 0) with 0%nat.
    cbn [chain_key skip_map]. unfold st_ret, set_recv. rewrite <- Hck. by destruct s. }
  rewrite decide_False by (intros [?|?]; [congruence|lia]).
  rewrite decide_False by lia. rewrite Hp, (skip_loop_run _ _ _ ck) by (done || lia).
  do 2 f_equal. lia.
Qed.

(** ** The sending side *)

(** An established sender: chain key [ck], ratchet public key [p]. *)
Record sender (x : Session) (ck : bytes) (p : RatchetPublic) : Prop := {
  sd_need : need_send_ratchet x = false;
  sd_ck : send_ck x = Some ck;
  sd_pub : self_ratchet_pub x = Some p;
  sd_pair : exists s, self_ratchet x = Some s /\ key_pair s p /\ rs_profile s = profile x;
  sd_ct : length (self_send_ct x) = kem_ct_len;
  sd_inv : session_inv x }.

Definition head_of (x : Session) (p : RatchetPublic) : Header :=
  mkHeader p (self_send_ct x) (prev_send_n x) (send_n x).

(** What makes a header and a ciphertext an honest message for [prof]. *)
Record honest (prof : KemProfile) (h : Header) (ct : bytes) : Prop := {
  ho_wf : header_wf h;
  ho_profile : rp_profile (h_ratchet_pub h) = prof;
  ho_aad : zlen (header_encode h) <= MAX_FRAME;
  ho_ct : zlen ct <= MAX_FRAME }.

Lemma encrypt_sender cs x ck p pt :
  sender x ck p -> zlen pt <= MAX_FRAME - 16 ->
  exists ct, let h := head_of x p in let x' := set_send x (Some (chain_key ck 1)) (u32_add (send_n x) 1) in
    honest (profile x) h ct /\ encrypt cs pt x = (Ok (msg_encode (header_encode h) ct), x') /\
    open_with (chain_seed ck 0) ct (header_encode h) = Ok pt /\ sender x' (chain_key ck 1) p.
Proof.
  intros [Hneed Hck Hp (s & Hs & K & Hsp) Hct Hix] Hpt. set (h := head_of x p).
  pose proof (key_pair_encode_len _ _ K) as Hel. pose proof kem_lens as [_ Hkl].
  assert (zlen (self_send_ct x) <= 2 ^ 16) as Hcl by (unfold zlen; rewrite Hct; lia).
  assert (zlen (header_encode h) <= 2 ^ 18) as Hhl by (rewrite header_encode_len; simpl; lia).
  destruct (seal_with_total (chain_seed ck 0) pt (header_encode h)) as (ct & Hseal & Hctl);
    [unfold MAX_FRAME in *; lia..|].
  pose proof (encrypt_established cs x ck p pt ct Hneed Hck Hp Hseal) as Henc.
  exists ct. cbv zeta. split; [split|split; [exact Henc|split]].
  - split; simpl; [apply K|unfold MAX_FRAME; lia|apply Hix..].
  - simpl. by rewrite (kp_profile _ _ K).
  - unfold MAX_FRAME; lia.
  - unfold MAX_FRAME in *; lia.
  - by apply open_seal_with.
  - pose proof (encrypt_wp cs pt x Hix) as [Hx' _]. rewrite Henc in Hx'. split; simpl; eauto.
Qed.

(** A session that must ratchet first behaves like the ratcheted one. *)
Lemma encrypt_ratchets cs pt s s1 :
  need_send_ratchet s = true -> ratchet_send cs s = (Ok tt, s1) ->
  need_send_ratchet s1 = false -> send_ck s1 <> None ->
  encrypt cs pt s = encrypt cs pt s1.
Proof.
  intros Hn Hr Hn1 Hck. unfold encrypt. unfold st_bind at 1, st_get at 1.
  unfold st_bind at 1. rewrite Hn. cbn [orb]. rewrite Hr.
  symmetry. unfold st_bind at 1, st_get at 1. unfold st_bind at 1. rewrite Hn1.
  by rewrite bool_decide_false.
Qed.

(** Likewise a receiver that meets a new ratchet key. *)
Lemma decrypt_ratchets prof h ct s s1 pt s' :
  honest prof h ct -> profile s = prof ->
  skipped s !! (rp_encode (h_ratchet_pub h), h_n h) = None ->
  peer_ratchet s <> Some (h_ratchet_pub h) ->
  recv_ck s = None \/ h_pn h <= recv_n s ->
  ratchet_recv h s = (Ok tt, s1) -> h_n h = recv_n s1 ->
  open_here ct (header_encode h) s1 = Some (pt, s') ->
  decrypt (msg_encode (header_encode h) ct) s = (Ok pt, s').
Proof.
  intros [] <- Hsk Hpeer Hpn Hr Hn Ho. apply (decrypt_on_chain h ct s s1 s1); try done.
  - rewrite bool_decide_false by done. unfold st_bind. by rewrite skip_recv_noop.
  - apply skip_recv_noop. right. lia.
Qed.

(** ** Lockstep conversations *)

(** [y] follows [x]'s sending chain. *)
Definition link (x y : Session) : Prop :=
  exists ck p, sender x ck p /\ recv_ck y = Some ck /\ send_n x = recv_n y /\
    peer_ratchet y = Some p.

(** [x] ratchets before it next sends, towards a key whose secret [y] holds. *)
Record turn (x y : Session) : Prop := {
  tn_need : need_send_ratchet x = true;
  tn_peer : exists p s, peer_ratchet x = Some p /\ self_ratchet y = Some s /\
              key_pair s p /\ rs_profile s = profile y;
  tn_root : root x = root y;
  tn_cnt : recv_ck y = None \/ recv_n y = send_n x;
  tn_back : recv_ck x = None \/ recv_n x = send_n y }.

Record both (x y : Session) : Prop := {
  bt_profile : profile x = profile y;
  bt_inv_l : session_inv x;
  bt_inv_r : session_inv y;
  bt_skip_l : skipped x = ∅;
  bt_skip_r : skipped y = ∅ }.

(** [x] holds the newest ratchet key; [y] answers with a ratchet step. *)
Definition talking (x y : Session) : Prop := both x y /\ link x y /\ turn y x.

Lemma both_sym x y : both x y -> both y x.
Proof. intros []. by split. Qed.

(** A message along an established chain. *)
Lemma chain_message cs x y pt :
  talking x y -> zlen pt <= MAX_FRAME - 16 ->
  exists msg x' y',
    encrypt cs pt x = (Ok msg, x') /\ decrypt msg y = (Ok pt, y') /\ talking x' y' /\
    peer_ratchet x' = peer_ratchet x /\ peer_ratchet y' = peer_ratchet y /\ profile x' = profile x.
Proof.
  intros ([Hprof Hix Hiy Hsx Hsy] & (ck & p & Hsd & Hrk & Hn & Hpy) & [T1 (pt' & st' & T2) T3 T4 T5]) Hpt.
  destruct (encrypt_sender cs x ck p pt Hsd Hpt) as (ct & Hho & Henc & Hop & Hsd').
  assert (decrypt (msg_encode (header_encode (head_of x p)) ct) y =
    (Ok pt, set_recv y (Some (chain_key ck 1)) (u32_add (recv_n y) 1) (skipped y))) as Hdec.
  { destruct Hho. apply (decrypt_on_chain _ _ y y y); try done; simpl.
    - by rewrite <- Hprof.
    - by rewrite Hsy.
    - by rewrite bool_decide_true.
    - apply skip_recv_noop. right. lia.
    - unfold open_here. by rewrite Hrk, Hop. }
  do 3 eexists. split; [exact Henc|]. split; [exact Hdec|]. split; [|done].
  pose proof (decrypt_inv (msg_encode (header_encode (head_of x p)) ct) y Hiy) as Hy'.
  rewrite Hdec in Hy'. split; [|split].
  - split; try done. apply Hsd'.
  - exists (chain_key ck 1), p. split; [done|]. simpl. rewrite Hn. done.
  - split; simpl; try done; [eauto|]. right. by rewrite Hn.
Qed.

(** The sender's side of a turn. *)
Lemma ratchet_send_run cs x p s :
  session_inv x -> peer_ratchet x = Some p -> key_pair s p -> rs_profile s = profile x ->
  let (sn, pn) := rs_generate (profile x) cs in
  exists ct ikm,
    rs_step_from s pn ct = Ok ikm /\
    let x1 := {| profile := profile x; root := (kdf_rk (root x) ikm).1;
       self_ratchet := Some sn; self_ratchet_pub := Some pn;
       self_send_ct := ct; send_ck := Some (kdf_rk (root x) ikm).2; send_n := 0;
       prev_send_n := send_n x; peer_ratchet := peer_ratchet x; recv_ck := recv_ck x;
       recv_n := recv_n x; need_send_ratchet := false; skipped := skipped x |} in
    ratchet_send cs x = (Ok tt, x1) /\ sender x1 (kdf_rk (root x) ikm).2 pn.
Proof.
  intros Hix Hp K Hs. pose proof (key_pair_generate (profile x) cs) as [Kn Hpr].
  pose proof (ratchet_send_safe cs x Hix) as [[Hi1 _] _].
  destruct (rs_generate (profile x) cs) as [sn pn] eqn:Eg. simpl in Kn, Hpr.
  destruct (step_agree sn pn s p (cs 2%nat) Kn K) as (ct & ikm & E1 & E2 & Hct); [congruence|].
  exists ct, ikm. split; [done|]. cbv zeta. rewrite Hp.
  match goal with |- ?A /\ _ => assert A as Hr end.
  - unfold ratchet_send, st_bind, st_get, st_lift. rewrite Hp. cbn [ok_or]. rewrite Eg.
    unfold lift_crypto, st_lift. rewrite E1. cbn. destruct (kdf_rk _ _). unfold st_modify. cbn. by rewrite Hp.
  - split; [exact Hr|]. rewrite Hr in Hi1. split; simpl; eauto.
Qed.

Lemma ratchet_recv_run h x s ikm :
  self_ratchet x = Some s -> rs_step_from s (h_ratchet_pub h) (h_ct h) = Ok ikm ->
  ratchet_recv h x = (Ok tt,
    {| profile := profile x; root := (kdf_rk (root x) ikm).1;
       self_ratchet := self_ratchet x; self_ratchet_pub := self_ratchet_pub x;
       self_send_ct := self_send_ct x; send_ck := send_ck x; send_n := send_n x;
       prev_send_n := prev_send_n x;
       peer_ratchet := Some (h_ratchet_pub h); recv_ck := Some (kdf_rk (root x) ikm).2;
       recv_n := 0; need_send_ratchet := true; skipped := skipped x |}).
Proof.
  intros Hs E. unfold ratchet_recv, st_bind, st_get, st_lift, lift_crypto. rewrite Hs. cbn [ok_or].
  unfold st_lift. rewrite E. cbn. destruct (kdf_rk _ _). unfold st_modify. cbn. by rewrite Hs.
Qed.

(** A message that changes direction. *)
Lemma turn_message cs x y pt :
  both x y -> turn x y -> peer_ratchet y <> Some (rs_generate (profile x) cs).2 ->
  zlen pt <= MAX_FRAME - 16 ->
  exists msg x' y',
    encrypt cs pt x = (Ok msg, x') /\ decrypt msg y = (Ok pt, y') /\ talking x' y' /\
    peer_ratchet x' = peer_ratchet x /\ peer_ratchet y' = Some (rs_generate (profile x) cs).2 /\
    profile x' = profile x.
Proof.
  intros [Hprof Hix Hiy Hsx Hsy] [Hneed (p & s & Hp & Hs & K & Hsp) Hroot Hcnt Hback] Hfresh Hpt.
  pose proof (ratchet_send_run cs x p s Hix Hp K) as Hrun.
  destruct (rs_generate (profile x) cs) as [sn pn] eqn:Eg. cbn [snd] in *.
  destruct Hrun as (kct & ikm & Hfrom & Hr & Hsd); [congruence|].
  match type of Hr with _ = (_, ?X) => set (x1 := X) in * end.
  set (ck := (kdf_rk (root x) ikm).2) in *.
  destruct (encrypt_sender cs x1 ck pn pt Hsd Hpt) as (ct & Hho & Henc & Hop & Hsd').
  rewrite <- (encrypt_ratchets cs pt x x1) in Henc by done.
  set (h := head_of x1 pn) in *.
  pose proof (ratchet_recv_run h y s ikm Hs Hfrom) as Hrr.
  match type of Hrr with _ = (_, ?Y) => set (y1 := Y) in * end.
  assert (decrypt (msg_encode (header_encode h) ct) y =
    (Ok pt, set_recv y1 (Some (chain_key ck 1)) (u32_add 0 1) (skipped y))) as Hdec.
  { apply (decrypt_ratchets (profile x) h ct y y1); try done; simpl.
    - by rewrite Hsy.
    - destruct Hcnt; [by left|right; lia].
    - unfold open_here. simpl. rewrite <- Hroot. fold ck. by rewrite Hop. }
  do 3 eexists. split; [exact Henc|]. split; [exact Hdec|]. split; [|done].
  pose proof (decrypt_inv (msg_encode (header_encode h) ct) y Hiy) as Hy'. rewrite Hdec in Hy'.
  split; [|split].
  - split; try done. apply Hsd'.
  - exists (chain_key ck 1), pn. done.
  - destruct (key_pair_generate (profile x) cs) as [Kn Hpr]. rewrite Eg in Kn, Hpr.
    split; simpl; try done; [eauto 10|by rewrite Hroot|by right].
Qed.

(** One message from [x] to [y]: what [y] reads, and the sessions after it. *)
Definition exchange (cs : nat -> coins) (pt : bytes) (x y : Session)
  : option (bytes * Session * Session) :=
  match encrypt cs pt x with
  | (Ok m, x') => match decrypt m y with (Ok pt', y') => Some (pt', x', y') | _ => None end
  | _ => None
  end.

(** An event: whether [a] speaks, the randomness of the call, the plaintext. *)
Definition event : Type := bool * (nat -> coins) * bytes.
Definition ev_pt (e : event) : bytes := e.2.
Definition ev_pub (prof : KemProfile) (e : event) : RatchetPublic := (rs_generate prof e.1.2).2.

Fixpoint converse (evs : list event) (a b : Session) : option (list bytes) :=
  match evs with
  | [] => Some []
  | (true, cs, pt) :: evs =>
      '(m, a, b) ← exchange cs pt a b; ms ← converse evs a b; Some (m :: ms)
  | (false, cs, pt) :: evs =>
      '(m, b, a) ← exchange cs pt b a; ms ← converse evs a b; Some (m :: ms)
  end.

(** The keys still to come are new to both sides. *)
Definition unseen (prof : KemProfile) (evs : list event) (s : Session) : Prop :=
  Forall (fun e => peer_ratchet s <> Some (ev_pub prof e)) evs.

Lemma unseen_eq prof evs s s' :
  peer_ratchet s' = peer_ratchet s -> unseen prof evs s -> unseen prof evs s'.
Proof. unfold unseen. by intros ->. Qed.

Lemma unseen_pub prof evs e s :
  peer_ratchet s = Some (ev_pub prof e) -> ev_pub prof e ∉ (ev_pub prof <$> evs) ->
  unseen prof evs s.
Proof.
  intros Hp Hn. apply Forall_forall. intros e' He' Heq. apply Hn.
  rewrite Hp in Heq. injection Heq as ->. by apply list_elem_of_fmap_2.
Qed.

(** One event, whoever speaks, once the first message has gone through. *)
Lemma exchange_step prof e evs x y :
  talking x y \/ talking y x -> profile x = prof -> zlen (ev_pt e) <= MAX_FRAME - 16 ->
  ev_pub prof e ∉ (ev_pub prof <$> evs) ->
  unseen prof (e :: evs) x -> unseen prof (e :: evs) y ->
  exists x' y', exchange e.1.2 (ev_pt e) x y = Some (ev_pt e, x', y') /\ talking x' y' /\
    profile x' = prof /\ unseen prof evs x' /\ unseen prof evs y'.
Proof.
  intros Ht Hp Hl Hn [Hx Hx']%Forall_cons [Hy Hy']%Forall_cons. unfold exchange.
  destruct Ht as [Ht|(Hb & _ & Hturn)].
  - destruct (chain_message e.1.2 x y _ Ht Hl) as (m & x1 & y1 & -> & -> & ? & Hpx & Hpy & Hpr).
    exists x1, y1. do 2 (split; [done|]). split; [congruence|]. split; by eapply unseen_eq.
  - destruct (turn_message e.1.2 x y (ev_pt e) (both_sym _ _ Hb) Hturn) with (2 := Hl)
      as (m & x1 & y1 & -> & -> & ? & Hpx & Hpy & Hpr); [by rewrite Hp|].
    exists x1, y1. do 2 (split; [done|]). split; [congruence|]. rewrite Hp in Hpy.
    split; [by eapply unseen_eq|by eapply unseen_pub].
Qed.

Lemma converse_delivers prof evs a b :
  talking a b \/ talking b a -> profile a = prof ->
  Forall (fun e => zlen (ev_pt e) <= MAX_FRAME - 16) evs ->
  NoDup (ev_pub prof <$> evs) -> unseen prof evs a -> unseen prof evs b ->
  converse evs a b = Some (ev_pt <$> evs).
Proof.
  revert a b. induction evs as [|[[w cs] pt] evs IH]; intros a b Ht Hp Hl Hn Ha Hb; [done|].
  apply Forall_cons in Hl as [Hl Hls]. cbn in Hn. apply NoDup_cons in Hn as [Hni Hn].
  assert (profile b = profile a) as Hpb by (destruct Ht as [([] & _)|([] & _)]; congruence).
  destruct w; cbn.
  - destruct (exchange_step prof (true, cs, pt) evs a b Ht Hp Hl Hni Ha Hb)
      as (a' & b' & E & Ht' & Hp' & Ha' & Hb'). cbn in E. rewrite E. cbn.
    by rewrite IH by auto.
  - destruct (exchange_step prof (false, cs, pt) evs b a) as (b' & a' & E & Ht' & Hp' & Hb' & Ha');
      try done; [tauto|congruence|].
    cbn in E. rewrite E. cbn. rewrite IH; auto. destruct Ht' as ([] & _). congruence.
Qed.

(** From the first message of the initiator on. *)
Lemma conversation_run (root0 : bytes) (sk : RatchetSecret) (pk : RatchetPublic)
    (evs : list event) cs pt :
  length root0 = KEY_LEN -> key_pair sk pk ->
  Forall (fun e => zlen (ev_pt e) <= MAX_FRAME - 16) ((true, cs, pt) :: evs) ->
  NoDup (pk :: (ev_pub (rs_profile sk) <$> (true, cs, pt) :: evs)) ->
  converse ((true, cs, pt) :: evs) (initiator root0 pk) (responder root0 sk pk) =
    Some (pt :: (ev_pt <$> evs)).
Proof.
  intros Hr K [Hl Hls]%Forall_cons [Hpk [Hni Hn]%NoDup_cons]%NoDup_cons.
  set (a := initiator root0 pk). set (b := responder root0 sk pk).
  assert (profile a = rs_profile sk) as Hpa by apply K.
  assert (both a b) as Hb.
  { split; [done|by apply initiator_inv|by apply responder_inv|done..]. }
  assert (turn a b) as Ht.
  { split; [done| |done|by left..]. by exists pk, sk. }
  cbn [converse]. unfold exchange.
  destruct (turn_message cs a b pt Hb Ht) as (m & a' & b' & -> & -> & Ht' & Hpa' & Hpb' & Hpr);
    [done|done|]. rewrite Hpa in *. cbn.
  rewrite (converse_delivers (rs_profile sk)); auto.
  - apply (unseen_eq _ _ a); [done|]. apply Forall_forall. intros e He [= Heq].
    apply Hpk. rewrite Heq. apply list_elem_of_further, list_elem_of_fmap_2, He.
  - by apply (unseen_pub _ _ (true, cs, pt)).
Qed.

(** C3: a conversation delivers.  Start from [initiator] and [responder] on the
    same root key and a matching prekey pair, of any profile; let the initiator
    speak first and then let either side speak in any order, ratcheting
    whenever the code does.  If the fresh ratchet keys differ from each other
    and from the prekey, no call fails and every message decrypts to the
    plaintext that was sent. *)
Theorem conversation_delivers (root0 : bytes) (sk : RatchetSecret) (pk : RatchetPublic)
    (evs : list event) cs pt :
  length root0 = KEY_LEN -> key_pair sk pk ->
  Forall (fun e => zlen (ev_pt e) <= MAX_FRAME - 16) ((true, cs, pt) :: evs) ->
  NoDup (pk :: (ev_pub (rs_profile sk) <$> (true, cs, pt) :: evs)) ->
  converse ((true, cs, pt) :: evs) (initiator root0 pk) (responder root0 sk pk) =
    Some (pt :: (ev_pt <$> evs)).
Proof. apply conversation_run. Qed.

(** ** One chain, any order of arrival *)

Fixpoint encrypt_all (cs : nat -> coins) (pts : list bytes) : ST Session fault (list bytes) :=
  match pts with
  | [] => st_ret []
  | pt :: pts => do* m := encrypt cs pt in do* ms := encrypt_all cs pts in st_ret (m :: ms)
  end.

Fixpoint decrypt_all (msgs : list bytes) : ST Session fault (list bytes) :=
  match msgs with
  | [] => st_ret []
  | m :: ms => do* pt := decrypt m in do* pts := decrypt_all ms in st_ret (pt :: pts)
  end.

(** [m] is the honest message number [n] of chain [ck] at position [i]. *)
Definition carries (prof : KemProfile) (p : RatchetPublic) (ck : bytes) (n0 : Z) (i : nat)
    (m pt : bytes) : Prop :=
  exists h ct, m = msg_encode (header_encode h) ct /\ honest prof h ct /\
    h_ratchet_pub h = p /\ h_n h = n0 + Z.of_nat i /\
    open_with (chain_seed ck i) ct (header_encode h) = Ok pt.

Lemma chain_seed_shift ck i : chain_seed (chain_key ck 1) i = chain_seed ck (S i).
Proof. unfold chain_seed. by rewrite chain_key_add. Qed.

Lemma encrypt_all_run cs pts x ck p :
  sender x ck p -> send_n x + zlen pts < 2 ^ 32 ->
  Forall (fun pt => zlen pt <= MAX_FRAME - 16) pts ->
  exists msgs x', encrypt_all cs pts x = (Ok msgs, x') /\ length msgs = length pts /\
    forall i m pt, msgs !! i = Some m -> pts !! i = Some pt ->
      carries (profile x) p ck (send_n x) i m pt.
Proof.
  revert x ck. induction pts as [|pt pts IH]; intros x ck Hsd Hn Hl; cbn [encrypt_all].
  { exists [], x. done. }
  apply Forall_cons in Hl as [Hl Hls]. rewrite zlen_cons in Hn. pose proof (zlen_nonneg pts).
  destruct (encrypt_sender cs x ck p pt Hsd Hl) as (ct & Hho & Henc & Hop & Hsd').
  pose proof (si_send_n _ (sd_inv _ _ _ Hsd)) as Hu. unfold is_u32 in Hu.
  assert (u32_add (send_n x) 1 = send_n x + 1) as Hadd
    by (apply u32_wrap_small; unfold is_u32; lia).
  destruct (IH _ _ Hsd') as (ms & x' & E & Hlen & Hc); [simpl; lia|done|].
  exists (msg_encode (header_encode (head_of x p)) ct :: ms), x'.
  unfold st_bind. rewrite Henc, E. split; [done|]. split; [simpl; lia|].
  intros [|i] m pt'; cbn [lookup list_lookup].
  - intros [= <-] [= <-]. exists (head_of x p), ct. do 3 (split; [done|]).
    split; [simpl; lia|done].
  - intros Hm Hp. destruct (Hc _ _ _ Hm Hp) as (h & c & -> & Hho' & Hpub & Hhn & Hop').
    exists h, c. do 3 (split; [done|]). rewrite <- chain_seed_shift.
    split; [|done]. simpl in Hhn. rewrite Hhn, Hadd. lia.
Qed.

(** The receiver after the positions in [seen] of a chain have arrived, the
    furthest being just before [f]. *)
Record receiving (y : Session) (ck : bytes) (p : RatchetPublic) (n0 : Z) (z0 f : nat)
    (seen : list nat) : Prop := {
  rc_ck : recv_ck y = Some (chain_key ck f);
  rc_n : recv_n y = n0 + Z.of_nat f;
  rc_peer : peer_ratchet y = Some p;
  rc_seen : Forall (fun i => i < f)%nat seen;
  rc_size : (size (skipped y) <= z0 + f)%nat;
  rc_keys i : skipped y !! (rp_encode p, n0 + Z.of_nat i) =
    if decide (i < f /\ i ∉ seen)%nat then Some (chain_seed ck i) else None }.

(** One message of the chain arrives: from a stored key or by skipping ahead. *)
Lemma receiving_step y ck p n0 z0 f seen i k m pt :
  receiving y ck p n0 z0 f seen -> i ∉ seen -> (i < k)%nat ->
  0 <= n0 -> n0 + Z.of_nat k < 2 ^ 32 -> Z.of_nat (z0 + k) <= MAX_SKIP ->
  carries (profile y) p ck n0 i m pt ->
  exists y', decrypt m y = (Ok pt, y') /\ profile y' = profile y /\
    exists f', receiving y' ck p n0 z0 f' (i :: seen).
Proof.
  intros [Rck Rn Rp Rs Rz Rk] Hi Hik H0 Hu Hz (h & ct & -> & [Hwf Hpr Haad Hct] & Hpub & Hn & Hop).
  pose proof (Rk i) as Hki. destruct (decide (i < f)%nat) as [Hif|Hif].
  - rewrite decide_True in Hki by done. rewrite <- Hpub, <- Hn in Hki.
    rewrite (decrypt_skipped h ct y _ _ Hwf Hpr Haad Hct Hki Hop).
    eexists. split; [done|]. split; [done|]. exists f. rewrite Hpub, Hn.
    split; simpl; try done.
    + by constructor.
    + etrans; [apply size_delete_le|done].
    + intros j. destruct (decide (j = i)) as [->|Hj].
      * rewrite lookup_delete_eq, decide_False; [done|]. set_solver.
      * rewrite lookup_delete_ne by (intros [=]; lia). rewrite Rk.
        apply decide_ext. rewrite not_elem_of_cons. naive_solver.
  - rewrite decide_False in Hki by naive_solver.
    set (y1 := set_recv y (Some (chain_key ck i)) (n0 + Z.of_nat i)
      (skip_map (rp_encode p) (chain_key ck f) (recv_n y) (i - f) (skipped y))).
    assert (skip_recv (n0 + Z.of_nat i) y = (Ok tt, y1)) as Hsk.
    { rewrite (skip_recv_run _ _ (chain_key ck f) p) by (done || lia). rewrite Rn.
      replace (Z.to_nat _) with (i - f)%nat by lia. rewrite chain_key_add.
      replace (f + (i - f))%nat with i by lia. by rewrite <- Rn. }
    rewrite (decrypt_on_chain h ct y y y1 pt
      (set_recv y1 (Some (chain_key ck (S i))) (n0 + Z.of_nat (S i)) (skipped y1))); try done.
    + eexists. split; [done|]. split; [done|]. exists (S i). split; simpl; try done.
      * constructor; [lia|]. eapply Forall_impl; [done|]. simpl. lia.
      * pose proof (skip_map_size (rp_encode p) (chain_key ck f) (recv_n y) (i - f) (skipped y)). lia.
      * intros j. rewrite skip_map_lookup, Rn. case_decide as Hj.
        -- rewrite decide_True; [|split; [lia|]].
           ++ unfold chain_seed. rewrite chain_key_add. do 4 f_equal. lia.
           ++ apply not_elem_of_cons. split; [lia|]. intros Hs.
              rewrite Forall_forall in Rs. specialize (Rs _ Hs). lia.
        -- rewrite Rk. apply decide_ext. rewrite not_elem_of_cons.
           destruct (decide (j = i)); [naive_solver lia|].
           split; [naive_solver lia|]. intros (? & ? & ?). split; [|done].
           destruct (decide (j < f)%nat); [done|]. destruct Hj. split; [done|lia].
    + by rewrite Hpub, Hn.
    + by rewrite bool_decide_true by congruence.
    + by rewrite Hn.
    + unfold open_here. simpl. change (chain_seed (chain_key ck i) 0) with (chain_seed ck i).
      rewrite Hop. do 2 f_equal. change (kdf_ck (chain_key ck i)).1 with (chain_key (chain_key ck i) 1).
      rewrite chain_key_add, Nat.add_1_r. f_equal. unfold u32_add.
      rewrite u32_wrap_small by (unfold is_u32; lia). lia.
Qed.

Lemma receiving_all y ck p n0 z0 f seen k (msgs pts : list bytes) order :
  receiving y ck p n0 z0 f seen -> 0 <= n0 -> n0 + Z.of_nat k < 2 ^ 32 ->
  Z.of_nat (z0 + k) <= MAX_SKIP -> NoDup order -> Forall (fun i => i < k /\ i ∉ seen)%nat order ->
  (forall i, (i < k)%nat -> carries (profile y) p ck n0 i (msgs !!! i) (pts !!! i)) ->
  (decrypt_all ((fun i => msgs !!! i) <$> order) y).1 = Ok ((fun i => pts !!! i) <$> order).
Proof.
  intros Hr H0 Hu Hz Hnd Ho Hc. revert y f seen Hr Ho Hc.
  induction Hnd as [|i order Hni Hnd IH]; intros y f seen Hr Ho Hc; [done|].
  apply Forall_cons in Ho as [[Hik His] Ho]. cbn.
  destruct (receiving_step _ _ _ _ _ _ _ i k _ _ Hr His Hik H0 Hu Hz (Hc i Hik))
    as (y' & E & Hpr & f' & Hr').
  unfold st_bind. rewrite E. rewrite <- Hpr in Hc.
  specialize (IH y' f' (i :: seen) Hr').
  destruct (decrypt_all _ y') as [r y'']. cbn in *. rewrite IH; [done| |done].
  apply Forall_forall. intros j Hj. rewrite Forall_forall in Ho. destruct (Ho j Hj).
  split; [done|]. apply not_elem_of_cons. split; [|done]. by intros ->.
Qed.

(** C4: out-of-order and lossy delivery.  When [y] follows [x]'s sending chain,
    every message of a burst of [k] that arrives, in whatever order and with
    whatever losses, decrypts to its own plaintext, as long as [k] more keys
    fit beside the ones [y] already holds back ([MAX_SKIP]) and the 32-bit
    message counter does not run out. *)
Theorem out_of_order_delivers cs (x y : Session) (pts : list bytes) (order : list nat) :
  link x y -> profile x = profile y ->
  (forall p j, self_ratchet_pub x = Some p -> skipped y !! (rp_encode p, j) = None) ->
  Z.of_nat (size (skipped y)) + zlen pts <= MAX_SKIP -> send_n x + zlen pts < 2 ^ 32 ->
  Forall (fun pt => zlen pt <= MAX_FRAME - 16) pts ->
  NoDup order -> Forall (fun i => i < length pts)%nat order ->
  exists msgs x', encrypt_all cs pts x = (Ok msgs, x') /\ length msgs = length pts /\
    (decrypt_all ((fun i => msgs !!! i) <$> order) y).1 = Ok ((fun i => pts !!! i) <$> order).
Proof.
  intros (ck & p & Hsd & Hrk & Hn & Hp) Hpr Hsk Hz Hu Hl Hnd Ho.
  destruct (encrypt_all_run cs pts x ck p Hsd Hu Hl) as (msgs & x' & E & Hlen & Hc).
  exists msgs, x'. split; [done|]. split; [done|].
  pose proof (si_send_n _ (sd_inv _ _ _ Hsd)) as Hu'. unfold is_u32, zlen in *.
  apply (receiving_all y ck p (send_n x) (size (skipped y)) 0 [] (length pts)); try done; try lia.
  - split; simpl; try done; [lia|lia|]. intros i. apply Hsk, Hsd.
  - eapply Forall_impl; [done|]. simpl. intros i Hi. split; [done|]. set_solver.
  - intros i Hi. rewrite <- Hpr. apply Hc; apply list_lookup_lookup_total_lt; lia.
Qed.

(** ** Message keys are used once *)

Definition chain_id (s : Session) : bytes :=
  match peer_ratchet s with Some p => rp_encode p | None => [] end.

(** What a successful skip does, whatever the state. *)
Lemma skip_recv_effect u s s1 :
  skip_recv u s = (Ok tt, s1) -> is_u32 (recv_n s) -> is_u32 u ->
  peer_ratchet s1 = peer_ratchet s /\ is_u32 (recv_n s1) /\
  (recv_ck s1 <> None -> recv_ck s <> None /\ recv_n s1 = Z.max (recv_n s) u) /\
  forall id j, id <> chain_id s \/ u <= j -> skipped s1 !! (id, j) = skipped s !! (id, j).
Proof.
  intros H Hn Hu. unfold is_u32 in *.
  destruct (decide (recv_ck s = None \/ u <= recv_n s)) as [Hd|Hd].
  { rewrite skip_recv_noop in H by done. injection H as <-.
    split; [done|]. split; [done|]. split; [|done]. intros ?. split; [done|]. destruct Hd; [done|lia]. }
  destruct (recv_ck s) as [ck|] eqn:Eck; [|naive_solver].
  unfold skip_recv, st_bind, st_get in H. rewrite decide_False in H by (rewrite Eck; naive_solver).
  case_decide; [done|]. rewrite (skip_loop_run _ _ _ ck) in H by (done || lia).
  injection H as <-. cbn. split; [done|]. split; [lia|]. split; [intros _; split; [done|lia]|].
  intros id j Hj. rewrite skip_map_lookup. rewrite decide_False; [done|].
  fold (chain_id s). intros [-> ?]. destruct Hj as [Hj|Hj]; [done|lia].
Qed.

Lemma open_step_effect h ct aad s2 pt s' :
  (do* s := st_get in
   do* ck := st_lift (ok_or (recv_ck s) (Fail DecryptionFailed)) in
   let (next_ck, mk_seed) := kdf_ck ck in
   let (key, nonce) := kdf_mk mk_seed in
   do* pt := lift_crypto (aead_open key nonce ct aad) in
   do* _ := st_modify (fun s => set_recv s (Some next_ck) (u32_add (recv_n s) 1) (skipped s)) in
   st_ret pt) s2 = (Ok pt, s') ->
  is_u32 (recv_n s2) -> (recv_ck s2 <> None -> h_n h <= recv_n s2 /\ recv_n s2 + 1 < 2 ^ 32) ->
  recv_ck s2 <> None /\ peer_ratchet s' = peer_ratchet s2 /\ h_n h < recv_n s' /\
  skipped s' = skipped s2.
Proof.
  intros H Hu Hn. unfold is_u32 in Hu. inv_run.
  unfold st_get, st_lift in *. simplify_eq. destruct (recv_ck x) as [ck|] eqn:E; simplify_eq/=.
  destruct (kdf_ck _) as [? sd], (kdf_mk sd) as [? ?]. inv_run. unfold lift_crypto, st_lift, st_modify, st_ret in *.
  simplify_eq/=. split; [done|]. split; [done|]. split; [|done]. destruct (Hn ltac:(done)).
  unfold u32_add. rewrite u32_wrap_small by (unfold is_u32; lia). lia.
Qed.

Lemma ratchet_recv_effect h s s1 :
  ratchet_recv h s = (Ok tt, s1) ->
  peer_ratchet s1 = Some (h_ratchet_pub h) /\ recv_n s1 = 0 /\ skipped s1 = skipped s.
Proof.
  intros H. unfold ratchet_recv in H. inv_run. unfold st_get, st_lift, lift_crypto in *. simplify_eq.
  destruct (kdf_rk _ _). unfold st_lift, st_modify in *. by simplify_eq.
Qed.

Lemma decrypt_chain_effect h ct aad s pt s' :
  decrypt_chain h ct aad s = (Ok pt, s') ->
  is_u32 (recv_n s) -> is_u32 (h_pn h) -> is_u32 (h_n h) ->
  h_n h + 1 < 2 ^ 32 -> recv_n s + 1 < 2 ^ 32 ->
  (peer_ratchet s <> Some (h_ratchet_pub h) -> chain_id s <> rp_encode (h_ratchet_pub h)) ->
  peer_ratchet s' = Some (h_ratchet_pub h) /\ h_n h < recv_n s' /\
  skipped s' !! (rp_encode (h_ratchet_pub h), h_n h) =
    skipped s !! (rp_encode (h_ratchet_pub h), h_n h).
Proof.
  intros H Hs Hpn Hn H1 H2 Hid. unfold decrypt_chain in H.
  apply st_bind_Ok in H as (s0 & ? & Hg & H). unfold st_get in Hg. injection Hg as <- <-.
  apply st_bind_Ok in H as ([] & s1 & Hr & H). apply st_bind_Ok in H as ([] & s2 & Hskip & H).
  assert (peer_ratchet s1 = Some (h_ratchet_pub h) /\ is_u32 (recv_n s1) /\ recv_n s1 + 1 < 2 ^ 32 /\
    skipped s1 !! (rp_encode (h_ratchet_pub h), h_n h) =
    skipped s !! (rp_encode (h_ratchet_pub h), h_n h)) as (Hp1 & Hu1 & Hw1 & Hk1).
  { destruct (decide (peer_ratchet s = Some (h_ratchet_pub h))) as [Hp|Hp].
    - rewrite Hp, bool_decide_true in Hr by done. unfold st_ret in Hr. by simplify_eq/=.
    - assert ((do* _ := skip_recv (h_pn h) in ratchet_recv h) s = (Ok tt, s1)) as Hr'.
      { destruct (peer_ratchet s) as [p|]; [|done]. by rewrite bool_decide_false in Hr by congruence. }
      apply st_bind_Ok in Hr' as ([] & sa & Hsa & Hr').
      apply ratchet_recv_effect in Hr' as (? & -> & ->).
      apply skip_recv_effect in Hsa as (_ & _ & _ & Hk); [|done..].
      rewrite Hk by (left; by apply not_eq_sym, Hid). done. }
  destruct (skip_recv_effect _ _ _ Hskip Hu1 Hn) as (Hp3 & Hu3 & Hmax & Hk3).
  apply (open_step_effect h) in H as (Hck & Hp' & Hlt & Hk'); [|done|].
  - rewrite Hp', Hp3, Hk', Hk3 by (right; lia). done.
  - intros Hck. destruct (Hmax Hck) as [_ ->]. lia.
Qed.

(** A message key is used once.  When [decrypt] accepts a message with
    header [(pub, n)], the new state holds no stored key for [(pub, n)], and if
    the key did not come from the store then the receiving chain is now that of
    [pub] and stands beyond [n]: no later call can derive that key again. *)
Lemma message_key_single_use (s s' : Session) message aad ct h pt :
  session_inv s -> msg_decode message = Ok (aad, ct) -> zlen aad <= usize_max ->
  header_decode (profile s) aad = Ok h ->
  (peer_ratchet s <> Some (h_ratchet_pub h) -> chain_id s <> rp_encode (h_ratchet_pub h)) ->
  h_n h + 1 < 2 ^ 32 -> recv_n s + 1 < 2 ^ 32 ->
  decrypt message s = (Ok pt, s') ->
  skipped s' !! (rp_encode (h_ratchet_pub h), h_n h) = None /\
  (skipped s !! (rp_encode (h_ratchet_pub h), h_n h) = None ->
     peer_ratchet s' = Some (h_ratchet_pub h) /\ h_n h < recv_n s').
Proof.
  intros Hs Hm Ha Hh Hid H1 H2 H. destruct (header_decode_u32 _ _ _ Ha Hh) as [Hpn Hn].
  unfold decrypt in H. destruct (decrypt_inner message s) as [[pt0|e] s0] eqn:Hi; [|done].
  simplify_eq. unfold decrypt_inner in Hi.
  unfold lift_crypto, st_bind at 1, st_lift at 1 in Hi. rewrite Hm in Hi. cbn in Hi.
  rewrite Hh in Hi. cbn in Hi. apply st_bind_Ok in Hi as (hit & s1 & Ht & Hi).
  unfold try_skipped, st_bind at 1, st_get in Ht.
  destruct (skipped s !! (rp_encode (h_ratchet_pub h), h_n h)) as [seed|] eqn:Ek.
  - destruct (kdf_mk seed). apply st_bind_Ok in Ht as (pt1 & s2 & Ho & Ht).
    unfold lift_crypto, st_lift in Ho. injection Ho as _ <-.
    unfold st_bind, st_modify, st_ret in *. simplify_eq/=. by rewrite lookup_delete_eq.
  - unfold st_ret in Ht. simplify_eq/=.
    apply decrypt_chain_effect in Hi as (? & ? & ->); try done. apply Hs.
Qed.
End Conversation.

(** ** The theorems at concrete sessions *)

Section Witnesses.

Definition w_cs (n : nat) : nat -> @coins toy := fun i => (n * 10 + i)%nat.
Definition w_root : bytes := replicate 32 (byte_of 7).
Definition w_pre : RatchetSecret * RatchetPublic := rs_generate profile_hybrid (w_cs 0).
Definition w_alice : Session := initiator w_root w_pre.2.
Definition w_bob : Session := responder w_root w_pre.1 w_pre.2.
Definition w_evs : list event :=
  [(false, w_cs 2, bstr "hello"); (true, w_cs 3, bstr "how are you");
   (true, w_cs 4, bstr "?"); (false, w_cs 5, bstr "fine")].

Lemma w_pair : key_pair w_pre.1 w_pre.2.
Proof. apply key_pair_generate. Qed.

Lemma conversation_delivers_witness :
  converse ((true, w_cs 1, bstr "hi") :: w_evs) w_alice w_bob =
    Some [bstr "hi"; bstr "hello"; bstr "how are you"; bstr "?"; bstr "fine"].
Proof.
  apply (conversation_delivers w_root w_pre.1 w_pre.2 w_evs (w_cs 1) (bstr "hi")).
  - reflexivity.
  - exact w_pair.
  - apply Forall_forall. intros e He. repeat (apply elem_of_cons in He as [->|He]; [by vm_compute|]).
    by apply elem_of_nil in He.
  - refine (bool_decide_unpack _ _). by vm_compute.
Defined.

(** The sessions after one message from the initiator. *)
Definition w_msg : bytes := default [] (to_option (encrypt (w_cs 1) (bstr "hi") w_alice).1).
Definition w_alice1 : Session := (encrypt (w_cs 1) (bstr "hi") w_alice).2.
Definition w_bob1 : Session := (decrypt w_msg w_bob).2.

Lemma w_talking : talking w_alice1 w_bob1.
Proof.
  destruct (turn_message (w_cs 1) w_alice w_bob (bstr "hi")) as (m & x & y & Ex & Ey & Ht & _).
  - split; [by vm_compute|by apply initiator_inv|by apply responder_inv|done..].
  - split; [done| |done|by left..]. exists w_pre.2, w_pre.1. split; [done|]. split; [done|].
    split; [exact w_pair|by vm_compute].
  - done.
  - by vm_compute.
  - assert (w_msg = m) as Hm by (unfold w_msg; by rewrite Ex).
    unfold w_alice1, w_bob1. by rewrite Hm, Ex, Ey.
Qed.

Lemma decrypt_hostile_safe_witness :
  session_inv w_bob1 /\ (decrypt (bstr "noise") w_bob1).2 = w_bob1.
Proof.
  assert (session_inv w_bob1) as Hi by (destruct w_talking as ([] & _); done).
  split; [done|]. apply (decrypt_hostile_safe w_bob1 (bstr "noise") Hi). by vm_compute.
Defined.

Lemma encrypt_safe_witness :
  session_inv w_bob /\
  encrypt (w_cs 9) (bstr "x") w_bob = (Err (Fail (Malformed "no peer ratchet key")), w_bob).
Proof.
  assert (session_inv w_bob) as Hi by (by apply responder_inv).
  split; [done|]. by apply (encrypt_safe (w_cs 9) w_bob (bstr "x") Hi).
Defined.

Lemma out_of_order_delivers_witness :
  let pts := [bstr "a"; bstr "b"; bstr "c"; bstr "d"] in
  exists msgs x', encrypt_all (w_cs 7) pts w_alice1 = (Ok msgs, x') /\ length msgs = 4%nat /\
    (decrypt_all ((fun i => msgs !!! i) <$> [3; 0; 1]%nat) w_bob1).1
      = Ok [bstr "d"; bstr "a"; bstr "b"].
Proof.
  intros pts. destruct w_talking as ([] & Hl & _).
  pose proof (out_of_order_delivers (w_cs 7) w_alice1 w_bob1 pts [3; 0; 1]%nat) as H.
  apply H; clear H.
  - exact Hl.
  - assumption.
  - intros p j _. by rewrite bt_skip_r0.
  - rewrite bt_skip_r0. by vm_compute.
  - by vm_compute.
  - repeat constructor; by vm_compute.
  - refine (bool_decide_unpack _ _). by vm_compute.
  - repeat constructor.
Defined.

Definition w_parsed : bytes * bytes := default ([], []) (to_option (msg_decode w_msg)).
Definition w_head : Header :=
  default (mkHeader w_pre.2 [] 0 0) (to_option (header_decode profile_hybrid w_parsed.1)).

Lemma message_key_single_use_witness :
  peer_ratchet w_bob1 = Some (h_ratchet_pub w_head) /\ h_n w_head < recv_n w_bob1.
Proof.
  apply (message_key_single_use w_bob w_bob1 w_msg w_parsed.1 w_parsed.2 w_head (bstr "hi")).
  - by apply responder_inv.
  - by vm_compute.
  - by vm_compute.
  - by vm_compute.
  - intros _. by vm_compute.
  - by vm_compute.
  - by vm_compute.
  - rewrite (surjective_pairing (decrypt w_msg w_bob)). unfold w_bob1. by f_equal.
  - vm_compute. reflexivity.
Defined.

Lemma padded_pure_looks_hybrid_witness :
  zlen (rp_encode (rs_generate profile_pq_pure (w_cs 1)).2) =
    zlen (rp_encode (rs_generate profile_hybrid (w_cs 2)).2).
Proof. apply (padded_pure_looks_hybrid (w_cs 1) (w_cs 2)). Defined.

End Witnesses.
