(* ===== verification/SenderKeys.v ===== *)
(** * Sender-key groups (crates/crypto/src/group.rs)

    Each member broadcasts along its own symmetric chain; every other member
    holds a [SenderKeyReceiver] for it.  [own_seal] and [recv_open] are the two
    private methods, [group_seal] and [group_open] the public ones. *)

From S2P Require Import Prelude Wire Crypto Hybrid Ratchet Toy Conversation.

Section Group.
Context {P : Primitives}.

Record SenderKey : Type := mkSenderKey { sk_chain : bytes; sk_n : Z }.

Definition sender_key_new (c : coins) : SenderKey * bytes :=
  let chain := random_bytes c KEY_LEN in (mkSenderKey chain 0, chain).

Definition own_seal (plaintext aad : bytes) : ST SenderKey CryptoError (Z * bytes) :=
  do* k := st_get in
  let (next, mk_seed) := kdf_ck (sk_chain k) in
  let (key, nonce) := kdf_mk mk_seed in
  do* ct := st_lift (aead_seal key nonce plaintext aad) in
  let n := sk_n k in
  do* _ := st_modify (fun k => mkSenderKey next (u32_add (sk_n k) 1)) in
  st_ret (n, ct).

Record SenderKeyReceiver : Type := mkReceiver {
  rv_chain : bytes;
  rv_n : Z;
  rv_skipped : gmap Z bytes }.

Definition from_initial (chain : bytes) : SenderKeyReceiver := mkReceiver chain 0 ∅.

(** [while idx < n]: [k] iterations left, from the local chain at [idx]; the
    keys go into the receiver at once, the chain stays local. *)
Fixpoint stash_loop (k : nat) (chain : bytes) (idx : Z) : ST SenderKeyReceiver CryptoError bytes :=
  match k with
  | O => st_ret chain
  | S k =>
      let (next, mk_seed) := kdf_ck chain in
      do* _ := st_modify (fun r =>
        mkReceiver (rv_chain r) (rv_n r) (<[idx := mk_seed]> (rv_skipped r))) in
      stash_loop k next (u32_add idx 1)
  end.

Definition recv_open (n : Z) (ct aad : bytes) : ST SenderKeyReceiver CryptoError bytes :=
  do* r := st_get in
  match rv_skipped r !! n with
  | Some mk_seed =>
      let (key, nonce) := kdf_mk mk_seed in
      do* pt := st_lift (aead_open key nonce ct aad) in
      do* _ := st_modify (fun r => mkReceiver (rv_chain r) (rv_n r) (delete n (rv_skipped r))) in
      st_ret pt
  | None =>
      if decide (n < rv_n r) then st_err DecryptionFailed
      else if decide (n - rv_n r > MAX_SKIP) then st_err (TooManySkipped MAX_SKIP)
      else
        do* chain := stash_loop (Z.to_nat (n - rv_n r)) (rv_chain r) (rv_n r) in
        let (next, mk_seed) := kdf_ck chain in
        let (key, nonce) := kdf_mk mk_seed in
        do* pt := st_lift (aead_open key nonce ct aad) in
        do* _ := st_modify (fun r => mkReceiver next (u32_add n 1) (rv_skipped r)) in
        st_ret pt
  end.

Definition aad_for (n : Z) : bytes := w_new |> put_u32 n |> into_vec.

Record GroupSession : Type := mkGroup {
  own : SenderKey;
  receivers : gmap bytes SenderKeyReceiver }.

Definition group_new (c : coins) : GroupSession * bytes :=
  let (own, initial) := sender_key_new c in (mkGroup own ∅, initial).

Definition add_member (member initial_chain : bytes) (g : GroupSession) : GroupSession :=
  mkGroup (own g) (<[member := from_initial initial_chain]> (receivers g)).

Definition group_seal (plaintext : bytes) : ST GroupSession CryptoError bytes := fun g =>
  let aad := aad_for (sk_n (own g)) in
  match own_seal plaintext aad (own g) with
  | (Ok (n, ct), k) => (Ok (w_new |> put_u32 n |> put_bytes ct |> into_vec), mkGroup k (receivers g))
  | (Err e, k) => (Err e, mkGroup k (receivers g))
  end.

Definition group_parse (message : bytes) : result CryptoError (Z * bytes) :=
  run_get (
    get* n := q get_u32 in
    get* ct := q get_vec in
    get* _ := q finish in
    gret (n, ct)) message.

Definition group_open (sender message : bytes) : ST GroupSession CryptoError bytes := fun g =>
  match group_parse message with
  | Err e => (Err e, g)
  | Ok (n, ct) =>
      match receivers g !! sender with
      | None => (Err (Malformed "unknown group sender"), g)
      | Some r =>
          let (res, r') := recv_open n ct (aad_for n) r in
          (res, mkGroup (own g) (<[sender := r']> (receivers g)))
      end
  end.

Definition member_count (g : GroupSession) : Z := Z.of_nat (size (receivers g)).

End Group.

Section Theorems.
Context {P : Primitives} {POk : PrimitivesOk P}.

(** ** Running one operation *)

Fixpoint stash_map (ck : bytes) (n : Z) (k : nat) (m : gmap Z bytes) : gmap Z bytes :=
  match k with
  | O => m
  | S k => stash_map (kdf_ck ck).1 (n + 1) k (<[n := (kdf_ck ck).2]> m)
  end.

Lemma stash_map_lookup ck n k m j :
  stash_map ck n k m !! j =
    if decide (n <= j < n + Z.of_nat k) then Some (chain_seed ck (Z.to_nat (j - n))) else m !! j.
Proof.
  revert ck n m. induction k as [|k IH]; intros ck n m; cbn [stash_map].
  { by rewrite decide_False by lia. }
  rewrite IH. destruct (decide (j = n)) as [->|Hj].
  - rewrite decide_False by lia. rewrite decide_True by lia.
    by rewrite Z.sub_diag, lookup_insert_eq.
  - rewrite lookup_insert_ne by done.
    destruct (decide (n + 1 <= j < n + 1 + Z.of_nat k)).
    + rewrite !decide_True by lia. by replace (Z.to_nat (j - n)) with (S (Z.to_nat (j - (n + 1)))) by lia.
    + by rewrite !decide_False by lia.
Qed.

Lemma stash_loop_run k chain n r :
  0 <= n -> n + Z.of_nat k < 2 ^ 32 ->
  stash_loop k chain n r =
    (Ok (chain_key chain k), mkReceiver (rv_chain r) (rv_n r) (stash_map chain n k (rv_skipped r))).
Proof.
  revert chain n r. induction k as [|k IH]; intros chain n r Hn Hlt; cbn [stash_loop].
  { unfold st_ret. cbn. by destruct r. }
  destruct (kdf_ck chain) as [next seed] eqn:Ek. unfold st_bind, st_modify.
  assert (u32_add n 1 = n + 1) as -> by (apply u32_wrap_small; unfold is_u32; lia).
  rewrite IH by lia. cbn. by rewrite Ek.
Qed.

(** The receiver's [open], with the loop run. *)
Definition open_result (n : Z) (ct aad : bytes) (r : SenderKeyReceiver)
  : result CryptoError bytes * SenderKeyReceiver :=
  match rv_skipped r !! n with
  | Some seed =>
      match open_with seed ct aad with
      | Ok pt => (Ok pt, mkReceiver (rv_chain r) (rv_n r) (delete n (rv_skipped r)))
      | Err e => (Err e, r)
      end
  | None =>
      if decide (n < rv_n r) then (Err DecryptionFailed, r)
      else if decide (n - rv_n r > MAX_SKIP) then (Err (TooManySkipped MAX_SKIP), r)
      else
        let k := Z.to_nat (n - rv_n r) in
        let sk := stash_map (rv_chain r) (rv_n r) k (rv_skipped r) in
        match open_with (chain_seed (rv_chain r) k) ct aad with
        | Ok pt => (Ok pt, mkReceiver (chain_key (rv_chain r) (S k)) (u32_add n 1) sk)
        | Err e => (Err e, mkReceiver (rv_chain r) (rv_n r) sk)
        end
  end.

Lemma recv_open_run n ct aad r :
  is_u32 n -> is_u32 (rv_n r) -> recv_open n ct aad r = open_result n ct aad r.
Proof.
  unfold is_u32. intros Hn Hr. unfold recv_open, open_result, open_with. unfold st_bind at 1, st_get.
  destruct (rv_skipped r !! n) as [seed|] eqn:Ek.
  { destruct (kdf_mk seed) as [key nonce]. unfold st_bind, st_lift, st_modify, st_ret. cbn.
    by destruct (aead_open _ _ _ _). }
  case_decide; [done|]. case_decide; [done|]. unfold st_bind at 1.
  rewrite stash_loop_run by lia. rewrite chain_key_S. unfold chain_seed.
  destruct (kdf_ck (chain_key _ _)) as [next seed]. cbn [fst snd].
  destruct (kdf_mk seed) as [key nonce]. unfold st_bind, st_lift, st_modify, st_ret. cbn.
  by destruct (aead_open _ _ _ _).
Qed.

Lemma own_seal_run pt aad k :
  zlen pt <= 2 ^ 32 -> zlen aad <= 2 ^ 32 ->
  exists ct, own_seal pt aad k =
    (Ok (sk_n k, ct), mkSenderKey (chain_key (sk_chain k) 1) (u32_add (sk_n k) 1)) /\
    open_with (chain_seed (sk_chain k) 0) ct aad = Ok pt /\ zlen ct = zlen pt + 16.
Proof.
  intros Hp Ha. destruct (seal_with_total (chain_seed (sk_chain k) 0) pt aad Hp Ha) as (ct & Hs & Hl).
  exists ct. split; [|split; [by apply open_seal_with|done]].
  unfold own_seal, st_bind, st_get, st_lift, st_modify, st_ret. unfold seal_with, chain_seed in Hs.
  cbn [chain_key] in *. destruct (kdf_ck _) as [next seed]. cbn in *.
  destruct (kdf_mk seed) as [key nonce]. cbn in *. by rewrite Hs.
Qed.

Lemma zlen_aad_for n : zlen (aad_for n) = 4.
Proof. unfold aad_for. wire_norm. apply zlen_be_bytes. Qed.

(** ** Replay *)

(** Stored keys belong to positions the chain has left behind. *)
Definition stored_behind (r : SenderKeyReceiver) : Prop :=
  forall j, rv_n r <= j -> rv_skipped r !! j = None.

(** A group message opens once.  While every stored key lies behind the
    chain position, a successful [open] of number [n] keeps that invariant,
    and opening number [n] again, with the same or any other ciphertext,
    fails without touching the receiver. *)
Lemma group_message_opens_once (r : SenderKeyReceiver) n ct aad pt ct' aad' :
  is_u32 n -> n + 1 < 2 ^ 32 -> is_u32 (rv_n r) -> stored_behind r ->
  (recv_open n ct aad r).1 = Ok pt ->
  let r' := (recv_open n ct aad r).2 in
  stored_behind r' /\ recv_open n ct' aad' r' = (Err DecryptionFailed, r').
Proof.
  intros Hn Hw Hr Hb Hok. rewrite recv_open_run in Hok by done. cbv zeta.
  rewrite (recv_open_run n ct) by done. unfold is_u32 in *. unfold open_result in Hok |- *.
  destruct (rv_skipped r !! n) as [seed|] eqn:Ek.
  - assert (n < rv_n r).
    { destruct (decide (n < rv_n r)) as [|Hge]; [done|]. by rewrite Hb in Ek by lia. }
    destruct (open_with seed ct aad); [|done]. cbn [snd]. split.
    + intros j Hj. cbn in *. rewrite lookup_delete_ne by lia. by apply Hb.
    + rewrite recv_open_run by done. unfold open_result. cbn.
      rewrite lookup_delete_eq. by rewrite decide_True by lia.
  - case_decide; [done|]. case_decide; [done|].
    destruct (open_with _ ct aad); [|done]. cbn [snd].
    unfold u32_add. rewrite u32_wrap_small by (unfold is_u32; lia). split.
    + intros j Hj. cbn in *. rewrite stash_map_lookup, decide_False by lia. apply Hb. lia.
    + rewrite recv_open_run by (unfold is_u32; cbn; lia). unfold open_result. cbn.
      rewrite stash_map_lookup, decide_False by lia. rewrite Ek. by rewrite decide_True by lia.
Qed.

(** A forged message breaks that.  Let a receiver be in step with an honest
    sender and hold no stored keys; let a forged ciphertext claim a number up
    to [MAX_SKIP] ahead and fail authentication.  The keys it skipped over stay
    stored although the chain did not move, so the next honest message is
    accepted, and accepted a second time when it is replayed. *)
Lemma forged_number_enables_replay chain n d forged aad' ct aad pt :
  is_u32 n -> 0 < d <= MAX_SKIP -> n + d < 2 ^ 32 ->
  open_with (chain_seed chain (Z.to_nat d)) forged aad' = Err DecryptionFailed ->
  open_with (chain_seed chain 0) ct aad = Ok pt ->
  let r0 := mkReceiver chain n ∅ in
  let r1 := (recv_open (n + d) forged aad' r0).2 in
  let r2 := (recv_open n ct aad r1).2 in
  (recv_open (n + d) forged aad' r0).1 = Err DecryptionFailed /\
  (recv_open n ct aad r1).1 = Ok pt /\ (recv_open n ct aad r2).1 = Ok pt.
Proof.
  intros Hn Hd Hlt Hf Ho. cbv zeta. unfold is_u32 in Hn.
  assert (recv_open (n + d) forged aad' (mkReceiver chain n ∅) =
    (Err DecryptionFailed, mkReceiver chain n (stash_map chain n (Z.to_nat d) ∅))) as ->.
  { rewrite recv_open_run by (unfold is_u32; cbn; lia). unfold open_result. cbn.
    rewrite lookup_empty, !decide_False by lia. replace (n + d - n) with d by lia. by rewrite Hf. }
  cbn [fst snd].
  assert (recv_open n ct aad (mkReceiver chain n (stash_map chain n (Z.to_nat d) ∅)) =
    (Ok pt, mkReceiver chain n (delete n (stash_map chain n (Z.to_nat d) ∅)))) as ->.
  { rewrite recv_open_run by done. unfold open_result. cbn.
    rewrite stash_map_lookup, decide_True by lia. rewrite Z.sub_diag.
    change (Z.to_nat 0) with 0%nat. by rewrite Ho. }
  cbn [fst snd]. split; [done|]. split; [done|].
  rewrite recv_open_run by done. unfold open_result. cbn.
  rewrite lookup_delete_eq, decide_False by lia. rewrite decide_False by (unfold MAX_SKIP; lia).
  rewrite Z.sub_diag. change (Z.to_nat 0) with 0%nat. by rewrite Ho.
Qed.

(** ** Broadcast delivery *)

Lemma group_parse_encode n ct :
  is_u32 n -> zlen ct <= MAX_FRAME ->
  group_parse (w_new |> put_u32 n |> put_bytes ct |> into_vec) = Ok (n, ct).
Proof.
  intros Hn Hc. apply run_decodes_all; wire_norm.
  - rewrite zlen_app, zlen_enc_bytes, zlen_be_bytes. unfold MAX_FRAME, usize_max in *. lia.
  - by dec_all.
Qed.

Fixpoint seal_all (pts : list bytes) : ST GroupSession CryptoError (list bytes) :=
  match pts with
  | [] => st_ret []
  | pt :: pts => do* m := group_seal pt in do* ms := seal_all pts in st_ret (m :: ms)
  end.

Fixpoint open_all (sender : bytes) (msgs : list bytes) : ST GroupSession CryptoError (list bytes) :=
  match msgs with
  | [] => st_ret []
  | m :: ms => do* pt := group_open sender m in do* pts := open_all sender ms in st_ret (pt :: pts)
  end.

(** [m] is broadcast number [n0 + i] of the chain that starts at [ck]. *)
Definition casts (ck : bytes) (n0 : Z) (i : nat) (m pt : bytes) : Prop :=
  exists ct, m = (w_new |> put_u32 (n0 + Z.of_nat i) |> put_bytes ct |> into_vec) /\
    zlen ct <= MAX_FRAME /\ open_with (chain_seed ck i) ct (aad_for (n0 + Z.of_nat i)) = Ok pt.

Lemma seal_all_run pts g :
  is_u32 (sk_n (own g)) -> sk_n (own g) + zlen pts < 2 ^ 32 ->
  Forall (fun pt => zlen pt <= MAX_FRAME - 16) pts ->
  exists msgs g', seal_all pts g = (Ok msgs, g') /\ length msgs = length pts /\
    forall i m pt, msgs !! i = Some m -> pts !! i = Some pt ->
      casts (sk_chain (own g)) (sk_n (own g)) i m pt.
Proof.
  revert g. induction pts as [|pt pts IH]; intros g Hn Hlt Hl; cbn [seal_all].
  { exists [], g. done. }
  apply Forall_cons in Hl as [Hl Hls]. rewrite zlen_cons in Hlt. pose proof (zlen_nonneg pts).
  unfold is_u32 in Hn.
  destruct (own_seal_run pt (aad_for (sk_n (own g))) (own g)) as (ct & E & Ho & Hcl);
    [unfold MAX_FRAME in *; lia|rewrite zlen_aad_for; lia|].
  assert (u32_add (sk_n (own g)) 1 = sk_n (own g) + 1) as Hadd
    by (apply u32_wrap_small; unfold is_u32; lia). rewrite Hadd in E.
  destruct (IH (mkGroup (mkSenderKey (chain_key (sk_chain (own g)) 1) (sk_n (own g) + 1)) (receivers g)))
    as (ms & g' & Es & Hlen & Hc); [unfold is_u32; cbn; lia|cbn; lia|done|].
  eexists (_ :: ms), g'. unfold st_bind, group_seal. rewrite E, Es. split; [done|].
  split; [simpl; lia|]. intros [|i] m pt'; cbn [lookup list_lookup].
  - intros [= <-] [= <-]. exists ct. rewrite Z.add_0_r. split; [done|]. split; [lia|done].
  - intros Hm Hp. destruct (Hc _ _ _ Hm Hp) as (c & -> & ? & Hop). exists c.
    cbn [own sk_n sk_chain] in Hop |- *. rewrite chain_seed_shift in Hop.
    replace (sk_n (own g) + Z.of_nat (S i)) with (sk_n (own g) + 1 + Z.of_nat i) by lia. done.
Qed.

(** The receiver after the positions in [seen], all below [k], have arrived. *)
Record following (r : SenderKeyReceiver) (ck : bytes) (n0 : Z) (k f : nat) (seen : list nat) : Prop := {
  fl_le : (f <= k)%nat;
  fl_chain : rv_chain r = chain_key ck f;
  fl_n : rv_n r = n0 + Z.of_nat f;
  fl_seen : Forall (fun i => i < f)%nat seen;
  fl_keys i : rv_skipped r !! (n0 + Z.of_nat i) =
    if decide (i < f /\ i ∉ seen)%nat then Some (chain_seed ck i) else None }.

Lemma following_step r ck n0 f seen i k ct aad pt :
  following r ck n0 k f seen -> i ∉ seen -> (i < k)%nat ->
  0 <= n0 -> n0 + Z.of_nat k < 2 ^ 32 -> Z.of_nat k <= MAX_SKIP + 1 ->
  open_with (chain_seed ck i) ct aad = Ok pt ->
  exists r' f', recv_open (n0 + Z.of_nat i) ct aad r = (Ok pt, r') /\
    following r' ck n0 k f' (i :: seen).
Proof.
  intros [Fl Fc Fn Fs Fk] Hi Hik H0 Hu Hz Ho. unfold MAX_SKIP in Hz.
  rewrite recv_open_run by (unfold is_u32; lia). unfold open_result. rewrite (Fk i).
  destruct (decide (i < f)%nat) as [Hif|Hif].
  - rewrite decide_True by done. rewrite Ho. eexists _, f. split; [done|]. split; cbn; try done.
    + by constructor.
    + intros j. destruct (decide (j = i)) as [->|Hj].
      * rewrite lookup_delete_eq, decide_False; [done|]. set_solver.
      * rewrite lookup_delete_ne by lia. rewrite Fk.
        apply decide_ext. rewrite not_elem_of_cons. naive_solver.
  - rewrite decide_False by naive_solver. rewrite !decide_False by (unfold MAX_SKIP; lia).
    rewrite Fc, Fn. replace (Z.to_nat _) with (i - f)%nat by lia.
    unfold chain_seed at 1. rewrite !chain_key_add.
    replace (f + (i - f))%nat with i by lia. fold (chain_seed ck i). rewrite Ho.
    eexists _, (S i). split; [done|]. split; cbn [rv_chain rv_n rv_skipped].
    + lia.
    + f_equal. lia.
    + unfold u32_add. rewrite u32_wrap_small by (unfold is_u32; lia). lia.
    + constructor; [lia|]. eapply Forall_impl; [done|]. simpl. lia.
    + intros j. rewrite stash_map_lookup. case_decide as Hj.
      * rewrite decide_True; [|split; [lia|]].
        -- unfold chain_seed. rewrite chain_key_add. do 4 f_equal. lia.
        -- apply not_elem_of_cons. split; [lia|]. intros Hs.
           rewrite Forall_forall in Fs. specialize (Fs _ Hs). lia.
      * rewrite Fk. apply decide_ext. rewrite not_elem_of_cons.
        destruct (decide (j = i)); [naive_solver lia|].
        split; [naive_solver lia|]. intros (? & ? & ?). split; [|done].
        destruct (decide (j < f)%nat); [done|]. destruct Hj. lia.
Qed.

Lemma open_all_run g sender r ck n0 k f seen (msgs pts : list bytes) order :
  receivers g !! sender = Some r -> following r ck n0 k f seen ->
  0 <= n0 -> n0 + Z.of_nat k < 2 ^ 32 -> Z.of_nat k <= MAX_SKIP + 1 ->
  NoDup order -> Forall (fun i => i < k /\ i ∉ seen)%nat order ->
  (forall i, (i < k)%nat -> casts ck n0 i (msgs !!! i) (pts !!! i)) ->
  (open_all sender ((fun i => msgs !!! i) <$> order) g).1 = Ok ((fun i => pts !!! i) <$> order).
Proof.
  intros Hg Hf H0 Hu Hz Hnd Ho Hc. revert g r f seen Hg Hf Ho.
  induction Hnd as [|i order Hni Hnd IH]; intros g r f seen Hg Hf Ho; [done|].
  apply Forall_cons in Ho as [[Hik His] Ho]. cbn.
  destruct (Hc i Hik) as (ct & -> & Hcl & Hop).
  destruct (following_step _ _ _ _ _ _ _ _ _ _ Hf His Hik H0 Hu Hz Hop) as (r' & f' & E & Hf').
  unfold st_bind, group_open. rewrite group_parse_encode by (done || unfold is_u32; lia).
  rewrite Hg, E. specialize (IH (mkGroup (own g) (<[sender:=r']> (receivers g))) r' f' (i :: seen)).
  destruct (open_all _ _ _) as [res g'']. cbn in *. rewrite IH; [done|apply lookup_insert_eq|done|].
  apply Forall_forall. intros j Hj. rewrite Forall_forall in Ho. destruct (Ho j Hj).
  split; [done|]. apply not_elem_of_cons. split; [|done]. by intros ->.
Qed.

(** Group broadcasts arrive in any order.  If [b] has registered [a]'s
    current chain, every one of the next [k <= MAX_SKIP + 1] broadcasts of [a]
    that reaches [b], in any order and with any losses, opens to its own
    plaintext. *)
Lemma broadcast_delivers (a b : GroupSession) sender (pts : list bytes) (order : list nat) :
  receivers b !! sender = Some (mkReceiver (sk_chain (own a)) (sk_n (own a)) ∅) ->
  is_u32 (sk_n (own a)) -> sk_n (own a) + zlen pts < 2 ^ 32 -> zlen pts <= MAX_SKIP + 1 ->
  Forall (fun pt => zlen pt <= MAX_FRAME - 16) pts ->
  NoDup order -> Forall (fun i => i < length pts)%nat order ->
  exists msgs a', seal_all pts a = (Ok msgs, a') /\ length msgs = length pts /\
    (open_all sender ((fun i => msgs !!! i) <$> order) b).1 = Ok ((fun i => pts !!! i) <$> order).
Proof.
  intros Hb Hn Hu Hz Hl Hnd Ho. destruct (seal_all_run pts a Hn Hu Hl) as (msgs & a' & E & Hlen & Hc).
  exists msgs, a'. split; [done|]. split; [done|]. unfold is_u32, zlen in *.
  eapply (open_all_run b sender _ (sk_chain (own a)) (sk_n (own a)) (length pts) 0 []); try done; try lia.
  - split; cbn; try done; lia.
  - eapply Forall_impl; [done|]. simpl. intros i Hi. split; [done|]. set_solver.
  - intros i Hi. apply Hc; apply list_lookup_lookup_total_lt; lia.
Qed.
End Theorems.

(** ** At concrete sessions *)

Section Witnesses.

Definition w_ann : GroupSession * bytes := group_new (P:=toy) 3%nat.
Definition w_ben : GroupSession := add_member (bstr "ann") w_ann.2 (group_new (P:=toy) 4%nat).1.

Lemma broadcast_delivers_witness :
  exists msgs a', seal_all [bstr "one"; bstr "two"; bstr "three"] w_ann.1 = (Ok msgs, a') /\
    length msgs = 3%nat /\
    (open_all (bstr "ann") ((fun i => msgs !!! i) <$> [2; 0]%nat) w_ben).1 =
      Ok [bstr "three"; bstr "one"].
Proof.
  apply (broadcast_delivers w_ann.1 w_ben (bstr "ann")
    [bstr "one"; bstr "two"; bstr "three"] [2; 0]%nat).
  - vm_compute. reflexivity.
  - refine (bool_decide_unpack _ _). vm_compute. exact I.
  - vm_compute. reflexivity.
  - vm_compute. discriminate.
  - repeat constructor; vm_compute; discriminate.
  - refine (bool_decide_unpack _ _). vm_compute. exact I.
  - repeat constructor.
Defined.

Definition w_chain : bytes := replicate 32 (byte_of 9).
Definition w_sealed : bytes :=
  default [] (to_option (seal_with (chain_seed w_chain 0) (bstr "pay 10") (aad_for 0))).

Lemma group_message_opens_once_witness :
  let r := from_initial w_chain in
  let r' := (recv_open 0 w_sealed (aad_for 0) r).2 in
  recv_open 0 w_sealed (aad_for 0) r' = (Err DecryptionFailed, r').
Proof.
  intros r. apply (group_message_opens_once r 0 w_sealed (aad_for 0) (bstr "pay 10")).
  - refine (bool_decide_unpack _ _). vm_compute. exact I.
  - lia.
  - refine (bool_decide_unpack _ _). vm_compute. exact I.
  - intros j _. apply lookup_empty.
  - vm_compute. reflexivity.
Defined.

Lemma forged_number_enables_replay_witness :
  let r0 := mkReceiver w_chain 0 ∅ in
  let r1 := (recv_open 5 (bstr "junk") [] r0).2 in
  let r2 := (recv_open 0 w_sealed (aad_for 0) r1).2 in
  (recv_open 0 w_sealed (aad_for 0) r1).1 = Ok (bstr "pay 10") /\
  (recv_open 0 w_sealed (aad_for 0) r2).1 = Ok (bstr "pay 10").
Proof.
  refine (proj2 (forged_number_enables_replay w_chain 0 5 (bstr "junk") [] w_sealed (aad_for 0)
    (bstr "pay 10") _ _ _ _ _)).
  - refine (bool_decide_unpack _ _). vm_compute. exact I.
  - unfold MAX_SKIP. lia.
  - lia.
  - vm_compute. reflexivity.
  - vm_compute. reflexivity.
Defined.

End Witnesses.
