(* ===== verification/TreeNode.v ===== *)
(** * Ratchet-tree nodes (crates/crypto/src/treekem.rs, [Node] and the tree helpers)

    A node is the leaf range [lo, lo + span).  [nd j q] is the well-formed node
    number [q] of level [j]; the lemmas give every operation in these
    coordinates.  [path_to_root] and [resolution] are loops in the source; they
    run on fuel 33 here, one more than the levels a 32-bit span can have, and
    [path_to_root_nd] and [resolution_nd] show that the fuel does not run out. *)

From S2P Require Import Prelude Wire Crypto.

Record Node : Type := mkNode { lo : Z; span : Z }.

#[export] Instance node_eq_dec : EqDecision Node.
Proof. solve_decision. Defined.
#[export] Program Instance node_countable : Countable Node :=
  inj_countable' (fun n => (lo n, span n)) (fun p => mkNode p.1 p.2) _.
Next Obligation. by intros []. Qed.

Definition leaf (i : Z) : Node := mkNode i 1.

Definition children (n : Node) : option (Node * Node) :=
  if decide (span n = 1) then None
  else
    let h := span n / 2 in
    Some (mkNode (lo n) h, mkNode (u32_add (lo n) h) h).

Definition parent (capacity : Z) (n : Node) : option Node :=
  if decide (span n >= capacity) then None
  else
    let ps := u32_wrap (span n * 2) in
    Some (mkNode (lo n - lo n mod ps) ps).

Definition sibling (n : Node) : Node :=
  if decide ((lo n / span n) mod 2 = 0) then mkNode (u32_add (lo n) (span n)) (span n)
  else mkNode (lo n - span n) (span n).

Definition covers (n : Node) (l : Z) : Prop := lo n <= l < lo n + span n.

Definition root_of (capacity : Z) : Node := mkNode 0 capacity.

Definition TREE_FUEL : nat := 33.

(** [while let Some(p) = cur.parent(capacity)], the nodes visited *)
Fixpoint ancestors (fuel : nat) (capacity : Z) (cur : Node) : list Node :=
  match fuel with
  | O => []
  | S fuel =>
      match parent capacity cur with
      | None => []
      | Some p => p :: ancestors fuel capacity p
      end
  end.

Definition path_to_root (capacity l : Z) : list Node :=
  leaf l :: ancestors TREE_FUEL capacity (leaf l).

Section Resolution.
Context {A : Type} (public : gmap Node A).

Definition is_blank (n : Node) : bool := bool_decide (public !! n = None).

Fixpoint resolution_fuel (fuel : nat) (n : Node) : list Node :=
  match fuel with
  | O => []
  | S fuel =>
      if negb (is_blank n) then [n]
      else match children n with
           | None => []
           | Some (l, r) => resolution_fuel fuel l ++ resolution_fuel fuel r
           end
  end.

Definition resolution (n : Node) : list Node := resolution_fuel TREE_FUEL n.
End Resolution.

Definition MAX_TREE_ITEMS : Z := 2 ^ 20.

(** [u32::is_power_of_two] *)
Definition is_power_of_two (z : Z) : bool :=
  bool_decide (0 < z) && bool_decide (Z.land z (z - 1) = 0).

Definition put_node (n : Node) (w : Writer) : Writer := w |> put_u32 (lo n) |> put_u32 (span n).

Definition get_node : Get CryptoError Node :=
  get* lo := q get_u32 in
  get* span := q get_u32 in
  if decide (span = 0) then gfail (Malformed "treekem node span not a power of two")
  else if negb (is_power_of_two span) then gfail (Malformed "treekem node span not a power of two")
  else if decide (lo mod span <> 0) then gfail (Malformed "treekem node lo not span-aligned")
  else
    match u32_checked_add lo span with
    | Some e =>
        if decide (e <= MAX_TREE_ITEMS) then gret (mkNode lo span)
        else gfail (Malformed "treekem node out of range")
    | None => gfail (Malformed "treekem node out of range")
    end.

(** ** Coordinates *)

Definition nd (j : nat) (q : Z) : Node := mkNode (q * 2 ^ Z.of_nat j) (2 ^ Z.of_nat j).

Lemma pow_pos (j : nat) : 0 < 2 ^ Z.of_nat j.
Proof. apply Z.pow_pos_nonneg; lia. Qed.
#[export] Hint Resolve pow_pos : tk.

Lemma pow_S (j : nat) : 2 ^ Z.of_nat (S j) = 2 * 2 ^ Z.of_nat j.
Proof. rewrite Nat2Z.inj_succ, Z.pow_succ_r; lia. Qed.

Lemma pow_le (i j : nat) : (i <= j)%nat -> 2 ^ Z.of_nat i <= 2 ^ Z.of_nat j.
Proof. intros. apply Z.pow_le_mono_r; lia. Qed.

Lemma leaf_nd i : leaf i = nd 0 i.
Proof. unfold leaf, nd. f_equal. rewrite Z.mul_1_r. done. Qed.

Lemma nd_inj j q j' q' : nd j q = nd j' q' -> j = j' /\ q = q'.
Proof.
  unfold nd. intros [= H1 H2]. apply Z.pow_inj_r in H2; [|lia..].
  assert (j = j') as -> by lia. split; [done|]. pose proof (pow_pos j'). nia.
Qed.

Lemma covers_nd j q l : covers (nd j q) l <-> l / 2 ^ Z.of_nat j = q.
Proof.
  unfold covers, nd. cbn. pose proof (pow_pos j).
  pose proof (Z.div_mod l (2 ^ Z.of_nat j) ltac:(lia)).
  pose proof (Z.mod_pos_bound l (2 ^ Z.of_nat j) ltac:(lia)). split.
  - intros ?. symmetry. apply (Z.div_unique_pos _ _ _ (l - q * 2 ^ Z.of_nat j)); nia.
  - intros <-. nia.
Qed.

Lemma sibling_nd j q :
  0 <= q -> q * 2 ^ Z.of_nat j + 2 ^ Z.of_nat j < 2 ^ 32 ->
  sibling (nd j q) = nd j (if Z.even q then q + 1 else q - 1).
Proof.
  intros Hq Hlt. unfold sibling. cbn. pose proof (pow_pos j).
  rewrite Z.div_mul by lia. rewrite (Zmod_even q). destruct (Z.even q); cbn.
  - unfold nd. f_equal. unfold u32_add. rewrite u32_wrap_small by (unfold is_u32; nia). lia.
  - unfold nd. f_equal. lia.
Qed.

Lemma children_nd j q :
  0 <= q -> (q + 1) * 2 ^ Z.of_nat (S j) <= 2 ^ 32 ->
  children (nd (S j) q) = Some (nd j (2 * q), nd j (2 * q + 1)).
Proof.
  intros Hq Hlt. unfold children. cbn [span lo nd]. rewrite pow_S in *. pose proof (pow_pos j).
  rewrite decide_False by lia. rewrite (Z.mul_comm 2 (2 ^ _)), Z.div_mul by lia.
  unfold u32_add. rewrite u32_wrap_small by (unfold is_u32; nia).
  unfold nd. do 3 f_equal; lia.
Qed.

Lemma parent_nd K j q :
  (K <= 31)%nat ->
  parent (2 ^ Z.of_nat K) (nd j q) =
    if decide (j < K)%nat then Some (nd (S j) (q / 2)) else None.
Proof.
  intros HK. unfold parent. cbn [span lo nd]. case_decide as H1; case_decide as H2; try done.
  - pose proof (pow_le (S j) K ltac:(lia)). rewrite pow_S in *. pose proof (pow_pos j). lia.
  - pose proof (pow_le (S j) 31 ltac:(lia)) as Hle. change (2 ^ Z.of_nat 31) with (2 ^ 31) in Hle.
    pose proof (pow_pos (S j)).
    rewrite (Z.mul_comm _ 2), <- pow_S, u32_wrap_small by (unfold is_u32; lia).
    f_equal. unfold nd. f_equal. rewrite pow_S. pose proof (pow_pos j).
    rewrite Z.mul_mod_distr_r by lia.
    pose proof (Z.div_mod q 2 ltac:(lia)). nia.
  - pose proof (pow_le K j ltac:(lia)). lia.
Qed.

Lemma tree_fuel_big : (32 < TREE_FUEL)%nat.
Proof. unfold TREE_FUEL. lia. Qed.

(** The nodes above [nd j q], up to level [K]. *)
Lemma ancestors_nd fuel K j q :
  (K <= 31)%nat -> (j <= K)%nat -> (K - j < fuel)%nat ->
  ancestors fuel (2 ^ Z.of_nat K) (nd j q) =
    (fun i => nd (j + S i) (q / 2 ^ Z.of_nat (S i))) <$> seq 0 (K - j).
Proof.
  intros HK. revert j q. induction fuel as [|fuel IH]; intros j q Hj Hf; [lia|].
  cbn [ancestors]. rewrite parent_nd by done. case_decide as Hd.
  - rewrite IH by lia. replace (K - j)%nat with (S (K - S j)) by lia. cbn [seq fmap list_fmap].
    f_equal; [by rewrite Nat.add_1_r|].
    rewrite <- fmap_S_seq, <- list_fmap_compose. apply list_fmap_ext. intros i x _. cbn [compose].
    f_equal; [lia|]. rewrite (pow_S (S _)), Z.div_div by lia. f_equal.
  - by replace (K - j)%nat with 0%nat by lia.
Qed.

Lemma path_to_root_nd K l :
  (K <= 31)%nat ->
  path_to_root (2 ^ Z.of_nat K) l = (fun i => nd i (l / 2 ^ Z.of_nat i)) <$> seq 0 (S K).
Proof.
  intros HK. unfold path_to_root. rewrite leaf_nd, ancestors_nd by (unfold TREE_FUEL; lia).
  cbn [seq fmap list_fmap]. f_equal; [by rewrite Z.div_1_r|].
  rewrite <- fmap_S_seq, <- list_fmap_compose, Nat.sub_0_r. done.
Qed.

(** ** Resolution *)

Section ResolutionLemmas.
Context {A : Type} (public : gmap Node A).

Lemma resolution_fuel_more f f' j q :
  (j < f)%nat -> (j < f')%nat -> 0 <= q -> (q + 1) * 2 ^ Z.of_nat j <= 2 ^ 32 ->
  resolution_fuel public f (nd j q) = resolution_fuel public f' (nd j q).
Proof.
  revert f f' q. induction j as [|j IH]; intros [|f] [|f'] q Hf Hf' Hq Hlt; try lia;
    cbn [resolution_fuel]; destruct (negb _); try done.
  rewrite children_nd by done. rewrite pow_S in Hlt. pose proof (pow_pos j).
  rewrite (IH f f'), (IH f f' (2 * q + 1)) by nia. done.
Qed.

Lemma resolution_fuel_S f n :
  resolution_fuel public (S f) n =
    if negb (is_blank public n) then [n]
    else match children n with
         | None => []
         | Some (l, r) => resolution_fuel public f l ++ resolution_fuel public f r
         end.
Proof. done. Qed.

(** The recursion of the source, without fuel. *)
Lemma resolution_nd j q :
  (j <= 31)%nat -> 0 <= q -> (q + 1) * 2 ^ Z.of_nat j <= 2 ^ 32 ->
  resolution public (nd j q) =
    if decide (public !! nd j q = None) then
      match j with
      | O => []
      | S i => resolution public (nd i (2 * q)) ++ resolution public (nd i (2 * q + 1))
      end
    else [nd j q].
Proof.
  intros Hj Hq Hlt. unfold resolution, TREE_FUEL. rewrite resolution_fuel_S. unfold is_blank.
  case_decide as Hd; [rewrite bool_decide_true by done|by rewrite bool_decide_false by done].
  cbn [negb]. destruct j as [|j]; [done|]. rewrite children_nd by done. rewrite pow_S in Hlt.
  pose proof (pow_pos j). rewrite !(resolution_fuel_more 32 33) by nia. done.
Qed.

Lemma resolution_sound j q t :
  (j <= 31)%nat -> 0 <= q -> (q + 1) * 2 ^ Z.of_nat j <= 2 ^ 32 ->
  t ∈ resolution public (nd j q) ->
  is_Some (public !! t) /\ exists i r, t = nd i r /\ 0 <= r /\ (i <= j)%nat /\
    r / 2 ^ Z.of_nat (j - i) = q.
Proof.
  revert q. induction j as [|j IH]; intros q Hj Hq Hlt; rewrite resolution_nd by done;
    case_decide as Hd; intros Ht.
  - by apply elem_of_nil in Ht.
  - apply list_elem_of_singleton in Ht as ->. split; [by apply not_eq_None_Some|].
    exists 0%nat, q. by rewrite Z.div_1_r.
  - rewrite pow_S in Hlt. pose proof (pow_pos j).
    assert (forall q', 0 <= q' -> (q' + 1) * 2 ^ Z.of_nat j <= 2 ^ 32 -> q' / 2 = q ->
      t ∈ resolution public (nd j q') -> is_Some (public !! t) /\ exists i r,
        t = nd i r /\ 0 <= r /\ (i <= S j)%nat /\ r / 2 ^ Z.of_nat (S j - i) = q) as Hrec.
    { intros q' Hq' Hl' Hd' Hin. destruct (IH q' ltac:(lia) Hq' Hl' Hin) as (? & i & r & -> & ? & ? & E).
      split; [done|]. exists i, r. do 2 (split; [done|]). split; [lia|].
      replace (S j - i)%nat with (S (j - i)) by lia. pose proof (pow_pos (j - i)).
      rewrite pow_S, Z.mul_comm, <- Z.div_div, E by lia. done. }
    apply elem_of_app in Ht as [Ht|Ht].
    + apply (Hrec (2 * q)); [lia|nia| |done]. rewrite Z.mul_comm. by apply Z.div_mul.
    + apply (Hrec (2 * q + 1)); [lia|nia| |done].
      rewrite Z.mul_comm, Z.div_add_l by lia. rewrite Z.div_small; lia.
  - apply list_elem_of_singleton in Ht as ->. split; [by apply not_eq_None_Some|].
    exists (S j), q. do 2 (split; [done|]). split; [lia|]. by rewrite Nat.sub_diag, Z.div_1_r.
Qed.

(** A resolution node covers only leaves below the node resolved. *)
Lemma resolution_covers j q t l :
  (j <= 31)%nat -> 0 <= q -> (q + 1) * 2 ^ Z.of_nat j <= 2 ^ 32 ->
  t ∈ resolution public (nd j q) -> covers t l -> covers (nd j q) l.
Proof.
  intros Hj Hq Hlt Ht. destruct (resolution_sound j q t Hj Hq Hlt Ht) as (_ & i & r & -> & _ & Hij & E).
  rewrite !covers_nd. intros <-. rewrite <- E. pose proof (pow_pos i). pose proof (pow_pos (j - i)).
  rewrite Z.div_div, <- Z.pow_add_r by lia. do 2 f_equal. lia.
Qed.

(** A leaf with a key is covered by some node of the resolution above it. *)
Lemma resolution_reaches j q l :
  (j <= 31)%nat -> 0 <= q -> (q + 1) * 2 ^ Z.of_nat j <= 2 ^ 32 ->
  covers (nd j q) l -> is_Some (public !! leaf l) ->
  exists t, t ∈ resolution public (nd j q) /\ covers t l /\ is_Some (public !! t).
Proof.
  revert q. induction j as [|j IH]; intros q Hj Hq Hlt Hc Hl;
    rewrite resolution_nd by done; case_decide as Hd.
  - rewrite covers_nd, Z.div_1_r in Hc. subst. rewrite leaf_nd, Hd in Hl. by destruct Hl.
  - exists (nd 0 q). split; [by apply list_elem_of_singleton|]. split; [done|by apply not_eq_None_Some].
  - rewrite pow_S in Hlt. pose proof (pow_pos j). rewrite covers_nd, pow_S in Hc.
    rewrite Z.mul_comm, <- Z.div_div in Hc by lia.
    pose proof (Z.div_mod (l / 2 ^ Z.of_nat j) 2 ltac:(lia)) as Hdm. rewrite Hc in Hdm.
    pose proof (Z.mod_pos_bound (l / 2 ^ Z.of_nat j) 2 ltac:(lia)).
    destruct (IH (l / 2 ^ Z.of_nat j)) as (t & Ht & ? & ?); [lia|nia|nia|by apply covers_nd|done|].
    exists t. split; [|done]. apply elem_of_app.
    destruct (decide ((l / 2 ^ Z.of_nat j) mod 2 = 0)).
    + left. by replace (2 * q) with (l / 2 ^ Z.of_nat j) by lia.
    + right. by replace (2 * q + 1) with (l / 2 ^ Z.of_nat j) by lia.
  - exists (nd (S j) q). split; [by apply list_elem_of_singleton|].
    split; [done|by apply not_eq_None_Some].
Qed.

End ResolutionLemmas.

(** ** The node codec *)

Definition node_wf (n : Node) : Prop :=
  exists j q, n = nd j q /\ 0 <= q /\ (q + 1) * 2 ^ Z.of_nat j <= MAX_TREE_ITEMS.

Lemma power_of_two_spec z : is_power_of_two z = true <-> exists j : nat, z = 2 ^ Z.of_nat j.
Proof.
  unfold is_power_of_two. rewrite andb_true_iff, !bool_decide_eq_true. split.
  - intros [Hz Hl]. exists (Z.to_nat (Z.log2 z)). rewrite Z2Nat.id by apply Z.log2_nonneg.
    pose proof (Z.log2_spec z Hz) as [Hlo Hhi].
    destruct (decide (z = 2 ^ Z.log2 z)) as [|Hne]; [done|]. exfalso.
    assert (Z.log2 (z - 1) = Z.log2 z) as Hlog.
    { apply Z.log2_unique; [apply Z.log2_nonneg|]. lia. }
    assert (Z.testbit (Z.land z (z - 1)) (Z.log2 z) = true) as Hb.
    { rewrite Z.land_spec, Z.bit_log2 by done. rewrite <- Hlog. apply Z.bit_log2.
      assert (0 < 2 ^ Z.log2 z) by (apply Z.pow_pos_nonneg; [lia|apply Z.log2_nonneg]). lia. }
    rewrite Hl, Z.bits_0 in Hb. done.
  - intros [j ->]. split; [auto with tk|]. replace (2 ^ Z.of_nat j - 1) with (Z.ones (Z.of_nat j)).
    + rewrite Z.land_ones by lia. apply Z.mod_same. pose proof (pow_pos j). lia.
    + rewrite Z.ones_equiv. lia.
Qed.

Definition enc_node (n : Node) : bytes := be_bytes 4 (lo n) ++ be_bytes 4 (span n).

Lemma into_vec_put_node n w : into_vec (put_node n w) = into_vec w ++ enc_node n.
Proof. unfold put_node, enc_node. by wire_norm. Qed.
#[export] Hint Rewrite into_vec_put_node : wire.

Lemma zlen_enc_node n : zlen (enc_node n) = 8.
Proof. unfold enc_node. by rewrite zlen_app, !zlen_be_bytes. Qed.

Lemma node_wf_u32 n : node_wf n -> is_u32 (lo n) /\ is_u32 (span n) /\ lo n + span n <= MAX_TREE_ITEMS.
Proof.
  intros (j & q & -> & Hq & Hle). unfold nd, is_u32. cbn. pose proof (pow_pos j).
  unfold MAX_TREE_ITEMS in *. split; [|split]; nia.
Qed.

Lemma decodes_node n : node_wf n -> decodes get_node (enc_node n) n.
Proof.
  intros Hn. pose proof (node_wf_u32 n Hn) as (H1 & H2 & H3). unfold get_node, enc_node.
  eapply decodes_bind; [by apply decodes_q, decodes_u32|].
  rewrite <- (app_nil_r (be_bytes 4 (span n))).
  eapply decodes_bind; [by apply decodes_q, decodes_u32|].
  destruct Hn as (j & q & -> & Hq & Hle). cbn [span lo nd] in *. pose proof (pow_pos j).
  rewrite decide_False by lia.
  rewrite (proj2 (power_of_two_spec (2 ^ Z.of_nat j))) by eauto. cbn [negb].
  rewrite decide_False by (rewrite Z.mod_mul by lia; auto).
  unfold u32_checked_add. rewrite decide_True by (unfold MAX_TREE_ITEMS, u32_max in *; lia).
  rewrite decide_True by lia. apply decodes_ret.
Qed.
#[export] Hint Resolve decodes_node : tk.

Lemma get_node_inv r n r' : rwf r -> get_node r = Ok (n, r') ->
  node_wf n /\ rwf r' /\ rest r = enc_node n ++ rest r'.
Proof.
  intros Hw H. unfold get_node in H. inv_get. rename r0 into r1, r1 into r2.
  destruct (inverts_u32 _ _ _ Hw ltac:(eassumption)) as (Hw1 & E1 & Hu1).
  destruct (inverts_u32 _ _ _ Hw1 ltac:(eassumption)) as (Hw2 & E2 & Hu2).
  case_decide; [done|]. destruct (is_power_of_two _) eqn:Ep; [|done]. cbn in H.
  case_decide as Hm; [done|]. unfold u32_checked_add in H. case_decide; [|done].
  case_decide; [|done]. unfold gret in H. simplify_eq.
  split; [|split; [done|]]; [|unfold enc_node; cbn; by rewrite E1, E2, <- (assoc (++))].
  apply power_of_two_spec in Ep as [j ->]. pose proof (pow_pos j).
  apply Z.mod_divide in Hm as [k ->]; [|lia].
  exists j, k. split; [done|]. unfold is_u32 in *. split; [nia|lia].
Qed.

(** The node decoder is exact: it returns a node if and only if the next
    eight bytes are the encoding of a well-formed one (power-of-two span,
    aligned, inside [MAX_TREE_ITEMS]), so every tree operation downstream sees
    only nodes on which it cannot divide by zero or overflow. *)
Lemma get_node_exact r n :
  rwf r ->
  (exists r', get_node r = Ok (n, r')) <->
  node_wf n /\ exists tl, rest r = enc_node n ++ tl.
Proof.
  intros Hw. split.
  - intros [r' H]. destruct (get_node_inv _ _ _ Hw H) as (? & _ & ?). eauto.
  - intros (Hn & tl & Hr). destruct (decodes_node n Hn r tl Hw Hr) as (r' & ? & _). eauto.
Qed.

Lemma get_node_exact_witness : exists r', get_node (r_new (enc_node (nd 2 1))) = Ok (nd 2 1, r').
Proof.
  apply (get_node_exact (r_new (enc_node (nd 2 1))) (nd 2 1)).
  - split; [split|]; vm_compute; discriminate.
  - split; [|exists []; reflexivity]. exists 2%nat, 1. split; [reflexivity|]. split; [lia|].
    vm_compute. discriminate.
Defined.

#[global] Opaque enc_node TREE_FUEL resolution path_to_root.
