(* ===== verification/TreeCodec.v ===== *)
(** * TreeKEM wire formats and signing transcripts (crates/crypto/src/treekem.rs)

    Key packages, proposals, commits and welcomes with their encoders and
    decoders, and the byte strings members sign.  The round trips are stated on
    well-formed values, which are the ones the group operations build. *)

From S2P Require Import Prelude Wire Crypto Hybrid TreeNode.

Definition SIG_VK_LEN : nat := 2592.
Definition GROUP_MSG_V1 : Z := 1.
Definition GROUP_MSG_V2 : Z := 2.

Record KeyPackage : Type := mkKeyPackage {
  kp_leaf_public : RatchetPublic;
  kp_sig_public : IdentityPublic;
  kp_pop : bytes }.

Inductive Proposal : Type :=
| PAdd (leaf : Z) (leaf_public : RatchetPublic) (sig_public : IdentityPublic) (pop : bytes)
| PRemove (leaf : Z)
| PUpdate (leaf : Z) (leaf_public : RatchetPublic) (sig_public : IdentityPublic)
    (pop auth : bytes).

Record Commit : Type := mkCommit {
  proposals : list Proposal;
  pub_updates : list (Node * RatchetPublic);
  path : list Node;
  ciphertexts : list (Node * Node * bytes);
  new_capacity : Z;
  sig_update : option (Z * IdentityPublic * bytes);
  commit_sig : bytes }.

Record Welcome : Type := mkWelcome {
  wl_capacity : Z;
  wl_public : list (Node * RatchetPublic);
  wl_occupied : list bool;
  wl_epoch : Z;
  wl_your_leaf : Z;
  wl_sig_keys : list (Z * RatchetPublic * IdentityPublic * bytes);
  wl_commit : Commit }.

(** ** Field decoders *)

Definition decode_sig_public (b : bytes) : result CryptoError IdentityPublic :=
  if decide (length b <> SIG_VK_LEN) then Err (Malformed "treekem leaf sig key wrong length")
  else Ok (mkIdentityPublic b).

(** [decode_sig_public(r.get_bytes()?)?] *)
Definition sig_field : Get CryptoError IdentityPublic :=
  get* b := q get_bytes in glift (decode_sig_public b).

Definition get_count (min_elem_bytes : Z) : Get CryptoError Z :=
  get* n := q get_u32 in
  if decide (n > MAX_TREE_ITEMS) then gfail (Malformed "treekem count too large")
  else fun r =>
    let max_possible := remaining r / Z.max min_elem_bytes 1 in
    if decide (n > max_possible) then Err (Malformed "treekem count exceeds input length")
    else Ok (n, r).

(** A count and that many elements. *)
Definition get_list {A} (min_elem_bytes : Z) (g : Get CryptoError A) : Get CryptoError (list A) :=
  get* n := get_count min_elem_bytes in get_times (Z.to_nat n) g.

(** ** Signing transcripts *)

Definition SIG_CONTEXT : bytes := bstr "talkrypt-treekem-msg-v2".
Definition POP_CONTEXT : bytes := bstr "talkrypt-treekem-leaf-pop-v2".
Definition PROMOTE_CONTEXT : bytes := bstr "talkrypt-treekem-promote-v1".
Definition CONSENT_CONTEXT : bytes := bstr "talkrypt-treekem-consent-v1".
Definition PROMO_COMMIT_CONTEXT : bytes := bstr "talkrypt-treekem-promo-commit-v1".
Definition UPDATE_AUTH_CONTEXT : bytes := bstr "talkrypt-treekem-leaf-update-v2".
Definition COMMIT_AUTH_CONTEXT : bytes := bstr "talkrypt-treekem-commit-v1".

Definition promote_transcript (epoch leaf : Z) (body : bytes) : bytes :=
  w_new |> put_bytes PROMOTE_CONTEXT |> put_u32 epoch |> put_u32 leaf |> put_bytes body |> into_vec.
Definition consent_transcript (epoch leaf : Z) (body : bytes) : bytes :=
  w_new |> put_bytes CONSENT_CONTEXT |> put_u32 epoch |> put_u32 leaf |> put_bytes body |> into_vec.
Definition promo_commit_transcript (epoch leaf : Z) (body : bytes) : bytes :=
  w_new |> put_bytes PROMO_COMMIT_CONTEXT |> put_u32 epoch |> put_u32 leaf |> put_bytes body
        |> into_vec.
Definition pop_transcript (sig_public : IdentityPublic) : bytes :=
  w_new |> put_bytes POP_CONTEXT |> put_bytes (sig_vk sig_public) |> into_vec.
Definition update_auth_transcript (leaf : Z) (leaf_public : RatchetPublic)
    (sig_public : IdentityPublic) : bytes :=
  w_new |> put_bytes UPDATE_AUTH_CONTEXT |> put_u32 leaf |> put_bytes (rp_encode leaf_public)
        |> put_bytes (sig_vk sig_public) |> into_vec.
Definition commit_auth_transcript (from_epoch committer_leaf : Z) (body : bytes) : bytes :=
  w_new |> put_bytes COMMIT_AUTH_CONTEXT |> put_u32 from_epoch |> put_u32 committer_leaf
        |> put_bytes body |> into_vec.
Definition sig_transcript (epoch leaf n : Z) (ct : bytes) : bytes :=
  w_new |> put_bytes SIG_CONTEXT |> put_u32 epoch |> put_u32 leaf |> put_u32 n |> put_bytes ct
        |> into_vec.

(** ** Encoders and decoders *)

Section Codec.
Context {P : Primitives}.

Definition verify_pop (sig_public : IdentityPublic) (pop : bytes) : result CryptoError unit :=
  map_err (fun _ => BadSignature) (id_verify sig_public (pop_transcript sig_public) pop).

Definition kp_encode (k : KeyPackage) : bytes :=
  w_new |> put_bytes (rp_encode (kp_leaf_public k)) |> put_bytes (sig_vk (kp_sig_public k))
        |> put_bytes (kp_pop k) |> into_vec.

Definition kp_decode (profile : KemProfile) (b : bytes) : result CryptoError KeyPackage :=
  run_get (
    get* leaf_public := rp_field profile in
    get* sig_public := sig_field in
    get* pop := q get_vec in
    get* _ := q finish in
    get* _ := glift (verify_pop sig_public pop) in
    gret (mkKeyPackage leaf_public sig_public pop)) b.

Definition prop_put (p : Proposal) (w : Writer) : Writer :=
  match p with
  | PAdd leaf lp sp pop =>
      w |> put_u8 0 |> put_u32 leaf |> put_bytes (rp_encode lp) |> put_bytes (sig_vk sp)
        |> put_bytes pop
  | PRemove leaf => w |> put_u8 1 |> put_u32 leaf
  | PUpdate leaf lp sp pop auth =>
      w |> put_u8 2 |> put_u32 leaf |> put_bytes (rp_encode lp) |> put_bytes (sig_vk sp)
        |> put_bytes pop |> put_bytes auth
  end.

Definition prop_get (profile : KemProfile) : Get CryptoError Proposal :=
  get* tag := q get_u8 in
  match tag with
  | 0 =>
      get* leaf := q get_u32 in
      get* leaf_public := rp_field profile in
      get* sig_public := sig_field in
      get* pop := q get_vec in
      gret (PAdd leaf leaf_public sig_public pop)
  | 1 => get* leaf := q get_u32 in gret (PRemove leaf)
  | 2 =>
      get* leaf := q get_u32 in
      get* leaf_public := rp_field profile in
      get* sig_public := sig_field in
      get* pop := q get_vec in
      get* auth := q get_vec in
      gret (PUpdate leaf leaf_public sig_public pop auth)
  | _ => gfail (Malformed "bad proposal tag")
  end.

Definition put_keyed (x : Node * RatchetPublic) (w : Writer) : Writer :=
  w |> put_node x.1 |> put_bytes (rp_encode x.2).
Definition put_cipher (x : Node * Node * bytes) (w : Writer) : Writer :=
  w |> put_node x.1.1 |> put_node x.1.2 |> put_bytes x.2.

Definition get_keyed (profile : KemProfile) : Get CryptoError (Node * RatchetPublic) :=
  get* node := get_node in get* p := rp_field profile in gret (node, p).
Definition get_cipher : Get CryptoError (Node * Node * bytes) :=
  get* a := get_node in get* b := get_node in get* blob := q get_vec in gret (a, b, blob).

Definition put_sig_update (s : option (Z * IdentityPublic * bytes)) (w : Writer) : Writer :=
  match s with
  | None => w |> put_u8 0
  | Some (leaf, sig_public, pop) =>
      w |> put_u8 1 |> put_u32 leaf |> put_bytes (sig_vk sig_public) |> put_bytes pop
  end.

Definition get_sig_update : Get CryptoError (option (Z * IdentityPublic * bytes)) :=
  get* tag := q get_u8 in
  match tag with
  | 0 => gret None
  | 1 =>
      get* leaf := q get_u32 in
      get* sig_public := sig_field in
      get* pop := q get_vec in
      gret (Some (leaf, sig_public, pop))
  | _ => gfail (Malformed "bad sig_update tag")
  end.

Definition commit_encode_body (c : Commit) : bytes :=
  w_new |> put_u32 (u32_wrap (zlen (proposals c))) |> put_each prop_put (proposals c)
        |> put_u32 (u32_wrap (zlen (pub_updates c))) |> put_each put_keyed (pub_updates c)
        |> put_u32 (u32_wrap (zlen (path c))) |> put_each put_node (path c)
        |> put_u32 (u32_wrap (zlen (ciphertexts c))) |> put_each put_cipher (ciphertexts c)
        |> put_u32 (new_capacity c)
        |> put_sig_update (sig_update c)
        |> into_vec.

Definition commit_encode (c : Commit) : bytes :=
  w_new |> put_bytes (commit_encode_body c) |> put_bytes (commit_sig c) |> into_vec.

Definition commit_read (profile : KemProfile) : Get CryptoError Commit :=
  get* proposals := get_list 1 (prop_get profile) in
  get* pub_updates := get_list 12 (get_keyed profile) in
  get* path := get_list 8 get_node in
  get* ciphertexts := get_list 20 get_cipher in
  get* new_capacity := q get_u32 in
  if decide (new_capacity > MAX_TREE_ITEMS) then gfail (Malformed "treekem new_capacity too large")
  else
    get* sig_update := get_sig_update in
    gret (mkCommit proposals pub_updates path ciphertexts new_capacity sig_update []).

Definition commit_decode (profile : KemProfile) (b : bytes) : result CryptoError Commit :=
  let* (body, sig) := run_get (
    get* body := q get_bytes in
    get* commit_sig := q get_vec in
    get* _ := q finish in
    gret (body, commit_sig)) b in
  let* c := run_get (get* c := commit_read profile in get* _ := q finish in gret c) body in
  Ok (mkCommit (proposals c) (pub_updates c) (path c) (ciphertexts c) (new_capacity c)
        (sig_update c) sig).

Definition put_member (x : Z * RatchetPublic * IdentityPublic * bytes) (w : Writer) : Writer :=
  w |> put_u32 x.1.1.1 |> put_bytes (rp_encode x.1.1.2) |> put_bytes (sig_vk x.1.2)
    |> put_bytes x.2.
Definition get_member (profile : KemProfile)
  : Get CryptoError (Z * RatchetPublic * IdentityPublic * bytes) :=
  get* leaf := q get_u32 in
  get* lp := rp_field profile in
  get* k := sig_field in
  get* pop := q get_vec in
  gret (leaf, lp, k, pop).

Definition bool_u8 (b : bool) : Z := if b then 1 else 0.
Definition get_flag : Get CryptoError bool :=
  get* b := q get_u8 in gret (negb (bool_decide (b = 0))).

Definition welcome_encode (w : Welcome) : bytes :=
  w_new |> put_u32 (wl_capacity w)
        |> put_u32 (u32_wrap (zlen (wl_public w))) |> put_each put_keyed (wl_public w)
        |> put_u32 (u32_wrap (zlen (wl_occupied w)))
        |> put_each (fun o => put_u8 (bool_u8 o)) (wl_occupied w)
        |> put_u32 (wl_epoch w) |> put_u32 (wl_your_leaf w)
        |> put_u32 (u32_wrap (zlen (wl_sig_keys w))) |> put_each put_member (wl_sig_keys w)
        |> put_bytes (commit_encode (wl_commit w))
        |> into_vec.

Definition welcome_decode (profile : KemProfile) (b : bytes) : result CryptoError Welcome :=
  run_get (
    get* capacity := q get_u32 in
    if decide (capacity > MAX_TREE_ITEMS) then gfail (Malformed "treekem welcome capacity too large")
    else
      get* public := get_list 12 (get_keyed profile) in
      get* occupied := get_list 1 get_flag in
      get* epoch := q get_u32 in
      get* your_leaf := q get_u32 in
      get* sig_keys := get_list 16 (get_member profile) in
      get* cb := q get_bytes in
      get* commit := glift (commit_decode profile cb) in
      get* _ := q finish in
      gret (mkWelcome capacity public occupied epoch your_leaf sig_keys commit)) b.

End Codec.

(** ** Round trips *)

Definition sig_ok (s : IdentityPublic) : Prop := length (sig_vk s) = SIG_VK_LEN.
Definition key_ok (prof : KemProfile) (p : RatchetPublic) : Prop := rp_wf p /\ rp_profile p = prof.

Lemma decodes_sig_field s : sig_ok s -> decodes sig_field (enc_bytes (sig_vk s)) s.
Proof.
  intros Hs. unfold sig_field. rewrite <- (app_nil_r (enc_bytes _)). eapply decodes_bind.
  - apply decodes_q, decodes_bytes. unfold sig_ok, SIG_VK_LEN, zlen, MAX_FRAME in *. lia.
  - unfold decode_sig_public. rewrite decide_False by auto. destruct s. apply decodes_lift.
Qed.

Lemma decodes_key_field prof p :
  key_ok prof p -> decodes (rp_field prof) (enc_bytes (rp_encode p)) p.
Proof. intros [Hw <-]. by apply decodes_rp_field. Qed.
#[export] Hint Resolve decodes_sig_field decodes_key_field : tk.

Lemma mjoin_len_ge {A} (e : A -> bytes) (m : Z) l :
  Forall (fun a => m <= zlen (e a)) l -> zlen l * m <= zlen (mjoin (e <$> l)).
Proof.
  induction 1 as [|a l Ha Hl IH]; [done|].
  change (mjoin (e <$> a :: l)) with (e a ++ mjoin (e <$> l)). rewrite zlen_cons, zlen_app. lia.
Qed.

Lemma decodes_list {A} (m : Z) (g : Get CryptoError A) (e : A -> bytes) l :
  1 <= m -> zlen l <= MAX_TREE_ITEMS ->
  Forall (fun a => decodes g (e a) a /\ m <= zlen (e a)) l ->
  decodes (get_list m g) (be_bytes 4 (zlen l) ++ mjoin (e <$> l)) l.
Proof.
  intros Hm Hl Hall r tl Hw Hr. pose proof (zlen_nonneg l).
  assert (is_u32 (zlen l)) as Hu by (unfold is_u32, MAX_TREE_ITEMS in *; lia).
  rewrite <- (assoc (++)) in Hr.
  destruct (decodes_u32 _ Hu r _ Hw Hr) as (r1 & E1 & Hw1 & Hr1).
  assert (zlen l <= remaining r1 / Z.max m 1) as Hrem.
  { rewrite remaining_rest, Hr1, zlen_app by done. apply Z.div_le_lower_bound; [lia|].
    assert (zlen l * m <= zlen (mjoin (e <$> l))) as Hge.
    { apply mjoin_len_ge. eapply Forall_impl; [done|]. by intros a [_ ?]. }
    rewrite Z.max_l by lia. pose proof (zlen_nonneg tl). lia. }
  destruct (decodes_times g e l) with (r := r1) (tl := tl) as (r2 & E2 & ?); try done.
  { eapply Forall_impl; [done|]. by intros a [? _]. }
  exists r2. split; [|done]. unfold get_list, get_count, gbind, q. rewrite E1. cbn [map_err rbind].
  rewrite decide_False by lia. rewrite decide_False by lia. cbn [rbind].
  unfold zlen at 1. by rewrite Nat2Z.id.
Qed.

Definition enc_prop (p : Proposal) : bytes :=
  match p with
  | PAdd leaf lp sp pop =>
      [byte_of 0] ++ be_bytes 4 leaf ++ enc_bytes (rp_encode lp) ++ enc_bytes (sig_vk sp) ++ enc_bytes pop
  | PRemove leaf => [byte_of 1] ++ be_bytes 4 leaf
  | PUpdate leaf lp sp pop auth =>
      [byte_of 2] ++ be_bytes 4 leaf ++ enc_bytes (rp_encode lp) ++ enc_bytes (sig_vk sp) ++
      enc_bytes pop ++ enc_bytes auth
  end.

Lemma into_vec_prop_put p w : into_vec (prop_put p w) = into_vec w ++ enc_prop p.
Proof. destruct p; unfold prop_put, enc_prop; wire_norm; done. Qed.

Definition blob_ok (b : bytes) : Prop := zlen b <= MAX_FRAME.

Definition prop_ok (prof : KemProfile) (p : Proposal) : Prop :=
  match p with
  | PAdd leaf lp sp pop => is_u32 leaf /\ key_ok prof lp /\ sig_ok sp /\ blob_ok pop
  | PRemove leaf => is_u32 leaf
  | PUpdate leaf lp sp pop auth =>
      is_u32 leaf /\ key_ok prof lp /\ sig_ok sp /\ blob_ok pop /\ blob_ok auth
  end.

Lemma decodes_prop prof p : prop_ok prof p -> decodes (prop_get prof) (enc_prop p) p.
Proof.
  unfold blob_ok. destruct p; simpl; intros Hok; destruct_and?; apply decodes_u8_tag; try lia; by dec.
Qed.

Definition enc_keyed (x : Node * RatchetPublic) : bytes := enc_node x.1 ++ enc_bytes (rp_encode x.2).
Definition enc_cipher (x : Node * Node * bytes) : bytes :=
  enc_node x.1.1 ++ enc_node x.1.2 ++ enc_bytes x.2.

Lemma into_vec_put_keyed x w : into_vec (put_keyed x w) = into_vec w ++ enc_keyed x.
Proof. unfold put_keyed, enc_keyed. by wire_norm. Qed.
Lemma into_vec_put_cipher x w : into_vec (put_cipher x w) = into_vec w ++ enc_cipher x.
Proof. unfold put_cipher, enc_cipher. by wire_norm. Qed.

Lemma decodes_keyed prof x :
  node_wf x.1 /\ key_ok prof x.2 -> decodes (get_keyed prof) (enc_keyed x) x.
Proof. destruct x. intros [? ?]. unfold get_keyed, enc_keyed. by dec. Qed.

Lemma decodes_cipher x :
  node_wf x.1.1 /\ node_wf x.1.2 /\ blob_ok x.2 -> decodes get_cipher (enc_cipher x) x.
Proof. destruct x as [[? ?] ?]. unfold blob_ok. intros (? & ? & ?). unfold get_cipher, enc_cipher. by dec. Qed.

Definition enc_sig_update (s : option (Z * IdentityPublic * bytes)) : bytes :=
  match s with
  | None => [byte_of 0]
  | Some (leaf, sp, pop) => [byte_of 1] ++ be_bytes 4 leaf ++ enc_bytes (sig_vk sp) ++ enc_bytes pop
  end.

Lemma into_vec_put_sig_update s w : into_vec (put_sig_update s w) = into_vec w ++ enc_sig_update s.
Proof. destruct s as [[[? ?] ?]|]; unfold put_sig_update, enc_sig_update; by wire_norm. Qed.
#[export] Hint Rewrite into_vec_put_keyed into_vec_put_cipher into_vec_put_sig_update
  into_vec_prop_put : wire.

Definition sig_update_ok (s : option (Z * IdentityPublic * bytes)) : Prop :=
  match s with None => True | Some (leaf, sp, pop) => is_u32 leaf /\ sig_ok sp /\ blob_ok pop end.

Lemma decodes_sig_update s : sig_update_ok s -> decodes get_sig_update (enc_sig_update s) s.
Proof.
  unfold blob_ok. destruct s as [[[leaf sp] pop]|]; simpl; intros Hok; destruct_and?; unfold get_sig_update.
  - apply decodes_u8_tag; [lia|]. by dec.
  - change [byte_of 0] with ([byte_of 0] ++ []). apply decodes_u8_tag; [lia|]. apply decodes_ret.
Qed.

Record commit_ok (prof : KemProfile) (c : Commit) : Prop := {
  ck_props : Forall (prop_ok prof) (proposals c) /\ zlen (proposals c) <= MAX_TREE_ITEMS;
  ck_pubs : Forall (fun x => node_wf x.1 /\ key_ok prof x.2) (pub_updates c) /\
            zlen (pub_updates c) <= MAX_TREE_ITEMS;
  ck_path : Forall node_wf (path c) /\ zlen (path c) <= MAX_TREE_ITEMS;
  ck_cts : Forall (fun x => node_wf x.1.1 /\ node_wf x.1.2 /\ blob_ok x.2) (ciphertexts c) /\
           zlen (ciphertexts c) <= MAX_TREE_ITEMS;
  ck_cap : 0 <= new_capacity c <= MAX_TREE_ITEMS;
  ck_sigup : sig_update_ok (sig_update c);
  ck_body : zlen (commit_encode_body c) <= MAX_FRAME;
  ck_sig : blob_ok (commit_sig c) }.

Lemma commit_body_norm c :
  commit_encode_body c =
    (be_bytes 4 (zlen (proposals c)) ++ mjoin (enc_prop <$> proposals c)) ++
    (be_bytes 4 (zlen (pub_updates c)) ++ mjoin (enc_keyed <$> pub_updates c)) ++
    (be_bytes 4 (zlen (path c)) ++ mjoin (enc_node <$> path c)) ++
    (be_bytes 4 (zlen (ciphertexts c)) ++ mjoin (enc_cipher <$> ciphertexts c)) ++
    be_bytes 4 (new_capacity c) ++ enc_sig_update (sig_update c).
Proof.
  unfold commit_encode_body. rewrite into_vec_put_sig_update, into_vec_put_u32.
  rewrite (into_vec_put_each put_cipher enc_cipher) by apply into_vec_put_cipher.
  rewrite into_vec_put_u32.
  rewrite (into_vec_put_each put_node enc_node) by apply into_vec_put_node. rewrite into_vec_put_u32.
  rewrite (into_vec_put_each put_keyed enc_keyed) by apply into_vec_put_keyed. rewrite into_vec_put_u32.
  rewrite (into_vec_put_each prop_put enc_prop) by apply into_vec_prop_put. rewrite into_vec_put_u32.
  rewrite into_vec_new, !be_bytes_4_wrap. by rewrite <- !(assoc (++)).
Qed.

(** The signed body does not depend on the signature. *)
Lemma commit_body_sig ps pu pa cts cap su sig sig' :
  commit_encode_body (mkCommit ps pu pa cts cap su sig) =
  commit_encode_body (mkCommit ps pu pa cts cap su sig').
Proof. done. Qed.

Lemma enc_prop_len p : 1 <= zlen (enc_prop p).
Proof.
  destruct p; unfold enc_prop; rewrite !zlen_app, zlen_cons, zlen_nil;
    repeat (rewrite ?zlen_enc_bytes, ?zlen_be_bytes);
    repeat match goal with |- context [zlen ?l] => pose proof (zlen_nonneg l); generalize dependent (zlen l); intros end; lia.
Qed.

Lemma enc_keyed_len x : 12 <= zlen (enc_keyed x).
Proof.
  unfold enc_keyed. rewrite zlen_app, zlen_enc_node, zlen_enc_bytes.
  pose proof (zlen_nonneg (rp_encode x.2)). lia.
Qed.

Lemma enc_cipher_len x : 20 <= zlen (enc_cipher x).
Proof.
  unfold enc_cipher. rewrite !zlen_app, !zlen_enc_node, zlen_enc_bytes.
  pose proof (zlen_nonneg x.2). lia.
Qed.

Lemma decodes_commit_body prof c :
  commit_ok prof c ->
  decodes (commit_read prof) (commit_encode_body c)
    (mkCommit (proposals c) (pub_updates c) (path c) (ciphertexts c) (new_capacity c) (sig_update c) []).
Proof.
  intros [[Hp Hpl] [Hu Hul] [Hn Hnl] [Hc Hcl] Hcap Hs _ _]. rewrite commit_body_norm. unfold commit_read.
  eapply decodes_bind.
  { apply decodes_list; [lia|done|]. eapply Forall_impl; [done|]. intros p Hok.
    split; [by apply decodes_prop|apply enc_prop_len]. }
  eapply decodes_bind.
  { apply decodes_list; [lia|done|]. eapply Forall_impl; [done|]. intros x Hok.
    split; [by apply decodes_keyed|apply enc_keyed_len]. }
  eapply decodes_bind.
  { apply decodes_list; [lia|done|]. eapply Forall_impl; [done|]. intros x Hok.
    split; [by apply decodes_node|rewrite zlen_enc_node; lia]. }
  eapply decodes_bind.
  { apply decodes_list; [lia|done|]. eapply Forall_impl; [done|]. intros x Hok.
    split; [by apply decodes_cipher|apply enc_cipher_len]. }
  eapply decodes_bind; [apply decodes_q, decodes_u32; unfold is_u32, MAX_TREE_ITEMS in *; lia|].
  rewrite decide_False by lia.
  apply (decodes_ret_bind get_sig_update (fun s => mkCommit (proposals c) (pub_updates c) (path c)
    (ciphertexts c) (new_capacity c) s [])), decodes_sig_update, Hs.
Qed.

Lemma commit_roundtrip prof c : commit_ok prof c -> commit_decode prof (commit_encode c) = Ok c.
Proof.
  intros Hc. pose proof (ck_body _ _ Hc) as Hb. pose proof (ck_sig _ _ Hc) as Hs. unfold blob_ok in Hs.
  unfold commit_decode.
  rewrite (run_decodes_all _ _ (commit_encode_body c, commit_sig c)).
  - cbn [rbind]. rewrite (run_decodes_all _ _ (mkCommit (proposals c) (pub_updates c) (path c)
      (ciphertexts c) (new_capacity c) (sig_update c) [])); [by destruct c| |].
    + unfold MAX_FRAME, usize_max in *. lia.
    + rewrite <- (app_nil_r (commit_encode_body c)).
      eapply decodes_all_bind; [by apply decodes_commit_body|apply decodes_all_finish].
  - unfold commit_encode. wire_norm. rewrite zlen_app, !zlen_enc_bytes.
    unfold MAX_FRAME, usize_max in *. lia.
  - unfold commit_encode. wire_norm. by dec_all.
Qed.

Definition enc_member (x : Z * RatchetPublic * IdentityPublic * bytes) : bytes :=
  be_bytes 4 x.1.1.1 ++ enc_bytes (rp_encode x.1.1.2) ++ enc_bytes (sig_vk x.1.2) ++ enc_bytes x.2.

Definition member_ok (prof : KemProfile) (x : Z * RatchetPublic * IdentityPublic * bytes) : Prop :=
  is_u32 x.1.1.1 /\ key_ok prof x.1.1.2 /\ sig_ok x.1.2 /\ blob_ok x.2.

Lemma into_vec_put_member x w : into_vec (put_member x w) = into_vec w ++ enc_member x.
Proof. unfold put_member, enc_member. by wire_norm. Qed.

Lemma decodes_member prof x : member_ok prof x -> decodes (get_member prof) (enc_member x) x.
Proof.
  destruct x as [[[? ?] ?] ?]. intros (? & ? & ? & ?). unfold blob_ok in *. cbn in *.
  unfold get_member, enc_member. by dec.
Qed.

Lemma enc_member_len x : 16 <= zlen (enc_member x).
Proof.
  unfold enc_member. rewrite !zlen_app, !zlen_enc_bytes, zlen_be_bytes.
  pose proof (zlen_nonneg (rp_encode x.1.1.2)). pose proof (zlen_nonneg (sig_vk x.1.2)).
  pose proof (zlen_nonneg x.2). lia.
Qed.

Lemma decodes_flag b : decodes get_flag [byte_of (bool_u8 b)] b.
Proof.
  unfold get_flag. destruct b; change [byte_of ?t] with ([byte_of t] ++ []);
    (apply decodes_u8_tag; [simpl; lia|apply decodes_ret]).
Qed.

Record welcome_ok (prof : KemProfile) (w : Welcome) : Prop := {
  wk_cap : 0 <= wl_capacity w <= MAX_TREE_ITEMS;
  wk_pub : Forall (fun x => node_wf x.1 /\ key_ok prof x.2) (wl_public w) /\
           zlen (wl_public w) <= MAX_TREE_ITEMS;
  wk_occ : zlen (wl_occupied w) <= MAX_TREE_ITEMS;
  wk_epoch : is_u32 (wl_epoch w);
  wk_leaf : is_u32 (wl_your_leaf w);
  wk_sigs : Forall (member_ok prof) (wl_sig_keys w) /\ zlen (wl_sig_keys w) <= MAX_TREE_ITEMS;
  wk_commit : commit_ok prof (wl_commit w);
  wk_clen : zlen (commit_encode (wl_commit w)) <= MAX_FRAME;
  wk_len : zlen (welcome_encode w) <= usize_max }.

Lemma welcome_norm w :
  welcome_encode w =
    be_bytes 4 (wl_capacity w) ++
    (be_bytes 4 (zlen (wl_public w)) ++ mjoin (enc_keyed <$> wl_public w)) ++
    (be_bytes 4 (zlen (wl_occupied w)) ++ mjoin ((fun o => [byte_of (bool_u8 o)]) <$> wl_occupied w)) ++
    be_bytes 4 (wl_epoch w) ++ be_bytes 4 (wl_your_leaf w) ++
    (be_bytes 4 (zlen (wl_sig_keys w)) ++ mjoin (enc_member <$> wl_sig_keys w)) ++
    enc_bytes (commit_encode (wl_commit w)).
Proof.
  unfold welcome_encode. rewrite into_vec_put_bytes.
  rewrite (into_vec_put_each put_member enc_member) by apply into_vec_put_member.
  rewrite !into_vec_put_u32.
  rewrite (into_vec_put_each _ (fun o => [byte_of (bool_u8 o)])) by (intros; apply into_vec_put_u8).
  rewrite into_vec_put_u32.
  rewrite (into_vec_put_each put_keyed enc_keyed) by apply into_vec_put_keyed.
  rewrite !into_vec_put_u32, into_vec_new, !be_bytes_4_wrap. by rewrite <- !(assoc (++)).
Qed.

(** Welcomes, and the commits inside them, survive the wire: for every
    well-formed welcome of a group's profile, decoding its encoding gives the
    same welcome, through every nested list with its allocation bound. *)
Lemma welcome_roundtrip prof w :
  welcome_ok prof w -> welcome_decode prof (welcome_encode w) = Ok w.
Proof.
  intros [Hcap [Hp Hpl] Ho He Hl [Hs Hsl] Hc Hcl Hlen].
  apply run_decodes_all; [done|]. rewrite welcome_norm.
  eapply decodes_all_bind; [apply decodes_q, decodes_u32; unfold is_u32, MAX_TREE_ITEMS in *; lia|].
  rewrite decide_False by lia.
  eapply decodes_all_bind.
  { apply decodes_list; [lia|done|]. eapply Forall_impl; [done|]. intros x Hok.
    split; [by apply decodes_keyed|apply enc_keyed_len]. }
  eapply decodes_all_bind.
  { apply decodes_list; [lia|done|]. apply Forall_true. intros b. split; [apply decodes_flag|done]. }
  eapply decodes_all_bind; [by eauto with tk|]. eapply decodes_all_bind; [by eauto with tk|].
  eapply decodes_all_bind.
  { apply decodes_list; [lia|done|]. eapply Forall_impl; [done|]. intros x Hok.
    split; [by apply decodes_member|apply enc_member_len]. }
  rewrite <- (app_nil_r (enc_bytes _)). eapply decodes_all_bind; [by eauto with tk|].
  rewrite commit_roundtrip by done. eapply (decodes_all_bind _ _ [] []); [apply decodes_lift|].
  destruct w. apply decodes_all_finish.
Qed.

(** ** Key packages *)

Section KeyPackages.
Context {P : Primitives}.

Definition kp_ok (prof : KemProfile) (k : KeyPackage) : Prop :=
  key_ok prof (kp_leaf_public k) /\ sig_ok (kp_sig_public k) /\ blob_ok (kp_pop k).

(** A key package is admitted exactly when its proof of possession holds:
    on the encoding of any well-formed package the decoder returns that package
    if the signature over the leaf key verifies, and the signature error if
    not; and no bytes at all decode to a package whose proof does not verify. *)
Lemma key_package_gate prof k :
  (kp_ok prof k ->
   kp_decode prof (kp_encode k) = (let* _ := verify_pop (kp_sig_public k) (kp_pop k) in Ok k)) /\
  (forall b, kp_decode prof b = Ok k -> verify_pop (kp_sig_public k) (kp_pop k) = Ok tt).
Proof.
  split.
  - destruct k as [lp sp pop]. intros (Hk & Hs & Hb). cbn in *. unfold blob_ok in Hb.
    assert (zlen (kp_encode (mkKeyPackage lp sp pop)) <= usize_max) as Hlen.
    { unfold kp_encode. wire_norm. rewrite !zlen_app, !zlen_enc_bytes. cbn.
      pose proof (rp_encode_len lp (proj1 Hk)). unfold sig_ok, SIG_VK_LEN, zlen, MAX_FRAME, usize_max in *. lia. }
    assert (forall x, (let* _ := verify_pop sp pop in Ok (mkKeyPackage lp sp pop)) = x ->
      kp_decode prof (kp_encode (mkKeyPackage lp sp pop)) = x) as H; [|by apply H].
    intros x Hx. unfold kp_decode, run_get.
    destruct (decodes_key_field prof lp Hk (r_new (kp_encode (mkKeyPackage lp sp pop)))
      (enc_bytes (sig_vk sp) ++ enc_bytes pop)) as (r1 & E1 & W1 & R1); [by apply rwf_new| |].
    { rewrite rest_new. unfold kp_encode. by wire_norm. }
    destruct (decodes_sig_field sp Hs r1 (enc_bytes pop)) as (r2 & E2 & W2 & R2); [done..|].
    destruct (decodes_bytes pop Hb r2 []) as (r3 & E3 & W3 & R3); [done|by rewrite app_nil_r|].
    unfold gbind, q, get_vec. rewrite E1. cbn [rbind]. rewrite E2. cbn [rbind]. rewrite E3.
    cbn [map_err rbind]. unfold finish. rewrite remaining_rest, R3 by done. cbn.
    unfold glift, gret. by destruct (verify_pop sp pop).
  - intros b H. unfold kp_decode in H. inv_get. cbn.
    match goal with H : verify_pop _ _ = Ok ?u |- _ => by destruct u end.
Qed.
End KeyPackages.

(** ** Domain separation *)

(** Everything a leaf signing key ever signs. *)
Inductive statement : Type :=
| SMessage (epoch leaf n : Z) (ct : bytes)
| SPossession (k : IdentityPublic)
| SPromote (epoch leaf : Z) (body : bytes)
| SConsent (epoch leaf : Z) (body : bytes)
| SPromoCommit (epoch leaf : Z) (body : bytes)
| SUpdate (leaf : Z) (p : RatchetPublic) (k : IdentityPublic)
| SCommit (from_epoch committer_leaf : Z) (body : bytes).

Definition transcript (s : statement) : bytes :=
  match s with
  | SMessage e l n ct => sig_transcript e l n ct
  | SPossession k => pop_transcript k
  | SPromote e l b => promote_transcript e l b
  | SConsent e l b => consent_transcript e l b
  | SPromoCommit e l b => promo_commit_transcript e l b
  | SUpdate l p k => update_auth_transcript l p k
  | SCommit e l b => commit_auth_transcript e l b
  end.

Definition context (s : statement) : bytes :=
  match s with
  | SMessage _ _ _ _ => SIG_CONTEXT
  | SPossession _ => POP_CONTEXT
  | SPromote _ _ _ => PROMOTE_CONTEXT
  | SConsent _ _ _ => CONSENT_CONTEXT
  | SPromoCommit _ _ _ => PROMO_COMMIT_CONTEXT
  | SUpdate _ _ _ => UPDATE_AUTH_CONTEXT
  | SCommit _ _ _ => COMMIT_AUTH_CONTEXT
  end.

Definition fields (s : statement) : bytes :=
  match s with
  | SMessage e l n ct => be_bytes 4 e ++ be_bytes 4 l ++ be_bytes 4 n ++ enc_bytes ct ++ []
  | SPossession k => enc_bytes (sig_vk k) ++ []
  | SPromote e l b | SConsent e l b | SPromoCommit e l b | SCommit e l b =>
      be_bytes 4 e ++ be_bytes 4 l ++ enc_bytes b ++ []
  | SUpdate l p k => be_bytes 4 l ++ enc_bytes (rp_encode p) ++ enc_bytes (sig_vk k) ++ []
  end.

Definition small (b : bytes) : Prop := zlen b < 2 ^ 32.

Definition statement_ok (prof : KemProfile) (s : statement) : Prop :=
  match s with
  | SMessage e l n ct => is_u32 e /\ is_u32 l /\ is_u32 n /\ small ct
  | SPossession k => small (sig_vk k)
  | SPromote e l b | SConsent e l b | SPromoCommit e l b | SCommit e l b =>
      is_u32 e /\ is_u32 l /\ small b
  | SUpdate l p k => is_u32 l /\ key_ok prof p /\ small (sig_vk k)
  end.

Lemma transcript_norm s : transcript s = enc_bytes (context s) ++ fields s.
Proof.
  destruct s; cbn [transcript context fields]; rewrite ?app_nil_r;
    unfold sig_transcript, pop_transcript, promote_transcript, consent_transcript,
      promo_commit_transcript, update_auth_transcript, commit_auth_transcript; by wire_norm.
Qed.

Lemma rp_encode_inj prof p p' :
  key_ok prof p -> key_ok prof p' -> rp_encode p = rp_encode p' -> p = p'.
Proof.
  intros [Hp <-] [Hp' E] He. apply rp_decode_encode in Hp, Hp'. rewrite <- He, E in Hp'. congruence.
Qed.

Lemma key_small prof p : key_ok prof p -> zlen (rp_encode p) < 2 ^ 32.
Proof. intros [Hp _]. apply rp_encode_len in Hp. unfold MAX_FRAME in Hp. lia. Qed.

Lemma identity_eq k k' : sig_vk k = sig_vk k' -> k = k'.
Proof. by destruct k, k'; cbn; intros ->. Qed.

(** Strip equal fields off both sides of an equation between encodings. *)
Ltac strip :=
  repeat match goal with
  | H : be_bytes 4 _ ++ _ = be_bytes 4 _ ++ _ |- _ => apply be_bytes_4_inj in H as [-> H]; [|done..]
  | H : enc_bytes _ ++ _ = enc_bytes _ ++ _ |- _ =>
      apply enc_bytes_inj in H as [? H]; [|by first [assumption | eapply key_small]..]
  end.

(** Signatures cannot move between purposes.  The seven transcripts that
    leaf keys sign (messages, possession proofs, promotions, consents,
    promotion commits, leaf updates, commits) are jointly injective: equal
    bytes mean the same purpose and the same epoch, leaf, number and payload. *)
Lemma transcript_injective prof s s' :
  statement_ok prof s -> statement_ok prof s' -> transcript s = transcript s' -> s = s'.
Proof.
  rewrite !transcript_norm. unfold statement_ok, small. intros Hs Hs' E.
  apply enc_bytes_inj in E as [Ec Ef]; [|by destruct s; vm_compute..|by destruct s'; vm_compute].
  assert (forall a b, context a = context b -> bool_decide (context a = context b) = true) as Hb
    by (intros; by apply bool_decide_eq_true).
  apply Hb in Ec; clear Hb.
  destruct s, s'; try (exfalso; revert Ec; vm_compute; done); clear Ec; cbn [fields] in Ef;
    destruct_and?; strip; f_equal; try done; try (by apply identity_eq); by eapply rp_encode_inj.
Qed.

Lemma transcript_injective_witness :
  transcript (SPromote 3 1 (bstr "x")) <> transcript (SConsent 3 1 (bstr "x")).
Proof.
  intros E. assert (SPromote 3 1 (bstr "x") = SConsent 3 1 (bstr "x")) as H; [|discriminate H].
  apply (transcript_injective profile_hybrid (SPromote 3 1 (bstr "x")) (SConsent 3 1 (bstr "x"))).
  - split; [|split]; [refine (bool_decide_unpack _ _); vm_compute; exact I..|vm_compute; reflexivity].
  - split; [|split]; [refine (bool_decide_unpack _ _); vm_compute; exact I..|vm_compute; reflexivity].
  - exact E.
Defined.

#[global] Opaque commit_encode_body update_auth_transcript pop_transcript commit_auth_transcript
  sig_transcript promote_transcript consent_transcript promo_commit_transcript.
