(* ===== verification/TreeKem.v ===== *)
(** * TreeKEM group state and operations (crates/crypto/src/treekem.rs)

    [TreeKemGroup] is one member's view of the group, field by field; its
    methods run in the state-and-error monad, so that what a method has written
    before it fails stays written.  [HashMap] iteration order is unspecified in
    Rust: where the source turns a map into a list ([add], for the welcome) the
    model uses [map_to_list], and the joiner collects the list into a map
    again.  A coin supply [cs] feeds the random draws in program order. *)

From S2P Require Import Prelude Wire Crypto Hybrid Ratchet TreeNode TreeCodec.

Section TreeKem.
Context {P : Primitives}.

(** ** Key derivation *)

Definition expand (secret label : bytes) : bytes := mac_kdf secret [] label 32.
Definition derive_parent_secret (child : bytes) : bytes := expand child (bstr "talkrypt-treekem-parent").
Definition derive_commit_secret (root : bytes) : bytes := expand root (bstr "talkrypt-treekem-commit").
Definition derive_leaf_sig_seed (identity_root group_id : bytes) : bytes :=
  mac_kdf identity_root group_id (bstr "talkrypt-leaf-sig-derive-v1") 32.
Definition sender_chain (epoch_secret : bytes) (leaf : Z) : bytes :=
  mac_kdf epoch_secret (be_bytes 4 leaf) (bstr "talkrypt-treekem-sender") 32.

Definition msg_aad (epoch leaf n : Z) : bytes :=
  w_new |> put_u32 epoch |> put_u32 leaf |> put_u32 n |> into_vec.

Definition seal_secret (pubk : RatchetPublic) (secret : bytes) (c : coins) : result CryptoError bytes :=
  let* (kem_ct, ss) := rp_encapsulate pubk c in
  let (key, nonce) := kdf_mk ss in
  let* aead_ct := aead_seal key nonce secret (bstr "tk-treekem") in
  Ok (w_new |> put_bytes kem_ct |> put_bytes aead_ct |> into_vec).

Definition open_secret (rsecret : RatchetSecret) (blob : bytes) : result CryptoError bytes :=
  let* (kem_ct, aead_ct) := run_get (
    get* kem_ct := q get_vec in
    get* aead_ct := q get_vec in
    get* _ := q finish in
    gret (kem_ct, aead_ct)) blob in
  let* ss := rs_decapsulate rsecret kem_ct in
  let (key, nonce) := kdf_mk ss in
  let* pt := aead_open key nonce aead_ct (bstr "tk-treekem") in
  if decide (length pt <> 32%nat) then Err (Malformed "treekem path secret length") else Ok pt.

(** ** State *)

Record LeafKeyPair : Type := mkLeafKeyPair {
  lk_profile : KemProfile;
  lk_secret : bytes;
  lk_sig : IdentityKeyPair }.

(** The draws: the leaf secret, then the signing key's seed. *)
Definition lk_generate_with (profile : KemProfile) (c1 c2 : coins) : LeafKeyPair :=
  mkLeafKeyPair profile (random_bytes c1 32) (id_generate c2).
Definition lk_generate (c1 c2 : coins) : LeafKeyPair := lk_generate_with profile_default c1 c2.
Definition lk_generate_derived (profile : KemProfile) (identity_root group_id : bytes) (c : coins)
  : LeafKeyPair :=
  mkLeafKeyPair profile (random_bytes c 32)
    (id_from_secret_bytes (derive_leaf_sig_seed identity_root group_id)).

Definition lk_key_package (k : LeafKeyPair) : KeyPackage :=
  let leaf_public := (rs_derive_deterministic (lk_profile k) (lk_secret k)).2 in
  let sig_public := id_public (lk_sig k) in
  mkKeyPackage leaf_public sig_public (id_sign (lk_sig k) (pop_transcript sig_public)).

Record RecvChain : Type := mkRecvChain {
  rc_chain : bytes; rc_at : Z; rc_skipped : gmap Z bytes }.

Record TreeKemGroup : Type := mkTreeKem {
  tk_profile : KemProfile;
  tk_capacity : Z;
  tk_public : gmap Node RatchetPublic;
  tk_occupied : list bool;
  tk_me : Z;
  tk_secrets : gmap Node bytes;
  tk_epoch : Z;
  tk_epoch_secret : bytes;
  tk_send_chain : bytes;
  tk_send_n : Z;
  tk_recvs : gmap Z RecvChain;
  tk_leaf_sig_keys : gmap Z IdentityPublic;
  tk_leaf_pops : gmap Z bytes;
  tk_my_sig : option IdentityKeyPair;
  tk_pending_update : option LeafKeyPair;
  tk_pad_bucket : Z }.

(** Field updates. *)
Definition set_tree (g : TreeKemGroup) (pub : gmap Node RatchetPublic) (occ : list bool)
    (sec : gmap Node bytes) : TreeKemGroup :=
  mkTreeKem (tk_profile g) (tk_capacity g) pub occ (tk_me g) sec (tk_epoch g) (tk_epoch_secret g)
    (tk_send_chain g) (tk_send_n g) (tk_recvs g) (tk_leaf_sig_keys g) (tk_leaf_pops g)
    (tk_my_sig g) (tk_pending_update g) (tk_pad_bucket g).

Definition set_capacity (g : TreeKemGroup) (cap : Z) : TreeKemGroup :=
  mkTreeKem (tk_profile g) cap (tk_public g) (resize (Z.to_nat cap) false (tk_occupied g))
    (tk_me g) (tk_secrets g) (tk_epoch g) (tk_epoch_secret g)
    (tk_send_chain g) (tk_send_n g) (tk_recvs g) (tk_leaf_sig_keys g) (tk_leaf_pops g)
    (tk_my_sig g) (tk_pending_update g) (tk_pad_bucket g).

Definition set_sigs (g : TreeKemGroup) (keys : gmap Z IdentityPublic) (pops : gmap Z bytes)
  : TreeKemGroup :=
  mkTreeKem (tk_profile g) (tk_capacity g) (tk_public g) (tk_occupied g) (tk_me g) (tk_secrets g)
    (tk_epoch g) (tk_epoch_secret g) (tk_send_chain g) (tk_send_n g) (tk_recvs g) keys pops
    (tk_my_sig g) (tk_pending_update g) (tk_pad_bucket g).

Definition set_mine (g : TreeKemGroup) (sig : option IdentityKeyPair) (pending : option LeafKeyPair)
  : TreeKemGroup :=
  mkTreeKem (tk_profile g) (tk_capacity g) (tk_public g) (tk_occupied g) (tk_me g) (tk_secrets g)
    (tk_epoch g) (tk_epoch_secret g) (tk_send_chain g) (tk_send_n g) (tk_recvs g)
    (tk_leaf_sig_keys g) (tk_leaf_pops g) sig pending (tk_pad_bucket g).

(** Sets the epoch and its secret and runs [reset_epoch]. *)
Definition enter_epoch (g : TreeKemGroup) (epoch : Z) (secret : bytes) : TreeKemGroup :=
  mkTreeKem (tk_profile g) (tk_capacity g) (tk_public g) (tk_occupied g) (tk_me g) (tk_secrets g)
    epoch secret (sender_chain secret (tk_me g)) 0 ∅ (tk_leaf_sig_keys g) (tk_leaf_pops g)
    (tk_my_sig g) (tk_pending_update g) (tk_pad_bucket g).

Definition set_send (g : TreeKemGroup) (chain : bytes) (n : Z) : TreeKemGroup :=
  mkTreeKem (tk_profile g) (tk_capacity g) (tk_public g) (tk_occupied g) (tk_me g) (tk_secrets g)
    (tk_epoch g) (tk_epoch_secret g) chain n (tk_recvs g) (tk_leaf_sig_keys g) (tk_leaf_pops g)
    (tk_my_sig g) (tk_pending_update g) (tk_pad_bucket g).

Definition set_recvs (g : TreeKemGroup) (r : gmap Z RecvChain) : TreeKemGroup :=
  mkTreeKem (tk_profile g) (tk_capacity g) (tk_public g) (tk_occupied g) (tk_me g) (tk_secrets g)
    (tk_epoch g) (tk_epoch_secret g) (tk_send_chain g) (tk_send_n g) r (tk_leaf_sig_keys g)
    (tk_leaf_pops g) (tk_my_sig g) (tk_pending_update g) (tk_pad_bucket g).

Definition set_pad_bucket (step : Z) (g : TreeKemGroup) : TreeKemGroup :=
  mkTreeKem (tk_profile g) (tk_capacity g) (tk_public g) (tk_occupied g) (tk_me g) (tk_secrets g)
    (tk_epoch g) (tk_epoch_secret g) (tk_send_chain g) (tk_send_n g) (tk_recvs g)
    (tk_leaf_sig_keys g) (tk_leaf_pops g) (tk_my_sig g) (tk_pending_update g) step.

(** ** Tree helpers *)

Definition first_free_leaf (g : TreeKemGroup) : option Z :=
  Z.of_nat <$> (fst <$> list_find (fun o => o = false) (tk_occupied g)).

Definition double_capacity (g : TreeKemGroup) : TreeKemGroup :=
  set_capacity g (u32_wrap (tk_capacity g * 2)).

Definition member_count (g : TreeKemGroup) : Z :=
  zlen (filter (fun o => o = true) (tk_occupied g)).

Definition blank_path_above (l : Z) (g : TreeKemGroup) : TreeKemGroup :=
  let above := ancestors TREE_FUEL (tk_capacity g) (leaf l) in
  set_tree g (foldl (fun m n => delete n m) (tk_public g) above) (tk_occupied g)
    (foldl (fun m n => delete n m) (tk_secrets g) above).

(** The secrets of a path: a fresh one and its [derive_parent_secret] chain. *)
Fixpoint secret_chain (s : bytes) (n : nat) : list bytes :=
  match n with O => [] | S n => s :: secret_chain (derive_parent_secret s) n end.

(** Install a public key and a secret at every node of a path. *)
Definition install_path (profile : KemProfile) (l : list (Node * bytes)) (g : TreeKemGroup)
  : TreeKemGroup :=
  set_tree g
    (foldl (fun m x => <[x.1 := (rs_derive_deterministic profile x.2).2]> m) (tk_public g) l)
    (tk_occupied g)
    (foldl (fun m x => <[x.1 := x.2]> m) (tk_secrets g) l).

(** ** Creation *)

Definition create_with_sig (profile : KemProfile) (my_sig : IdentityKeyPair) (c : coins)
  : result fault TreeKemGroup :=
  let capacity := 2 in
  let leaf_secret := random_bytes c 32 in
  let g := mkTreeKem profile capacity ∅ (<[0%nat := true]> (replicate 2 false)) 0 ∅ 0
             (replicate 32 (byte_of 0)) (replicate 32 (byte_of 0)) 0 ∅
             {[ 0 := id_public my_sig ]} ∅ (Some my_sig) None 0 in
  let path := path_to_root capacity 0 in
  let g := install_path profile (zip path (secret_chain leaf_secret (length path))) g in
  let* root_secret := ok_or (tk_secrets g !! root_of capacity) (Panic "root secret") in
  let pop := id_sign my_sig (pop_transcript (id_public my_sig)) in
  let g := set_sigs g (tk_leaf_sig_keys g) (<[0 := pop]> (tk_leaf_pops g)) in
  Ok (enter_epoch g 0 (derive_commit_secret root_secret)).

Definition create_with (profile : KemProfile) (c1 c2 : coins) : result fault TreeKemGroup :=
  create_with_sig profile (id_generate c1) c2.
Definition create (c1 c2 : coins) : result fault TreeKemGroup := create_with profile_default c1 c2.
Definition create_derived (profile : KemProfile) (identity_root group_id : bytes) (c : coins)
  : result fault TreeKemGroup :=
  create_with_sig profile (id_from_secret_bytes (derive_leaf_sig_seed identity_root group_id)) c.

(** ** Proposals *)

Definition prop_leaf (p : Proposal) : Z :=
  match p with PAdd l _ _ _ => l | PRemove l => l | PUpdate l _ _ _ _ => l end.

Definition fail {A} (what : string) : ST TreeKemGroup fault A := st_err (Fail (Malformed what)).

Definition apply_add (l : Z) (lp : RatchetPublic) (sp : IdentityPublic) (pop : bytes)
  : ST TreeKemGroup fault unit :=
  do* _ := lift_crypto (verify_pop sp pop) in
  st_modify (fun g =>
    let g := set_tree g (<[leaf l := lp]> (tk_public g)) (<[Z.to_nat l := true]> (tk_occupied g))
               (tk_secrets g) in
    let g := set_sigs g (<[l := sp]> (tk_leaf_sig_keys g)) (<[l := pop]> (tk_leaf_pops g)) in
    blank_path_above l g).

Definition apply_remove (l : Z) : ST TreeKemGroup fault unit :=
  st_modify (fun g =>
    let g := set_tree g (delete (leaf l) (tk_public g)) (<[Z.to_nat l := false]> (tk_occupied g))
               (delete (leaf l) (tk_secrets g)) in
    let g := set_sigs g (delete l (tk_leaf_sig_keys g)) (delete l (tk_leaf_pops g)) in
    blank_path_above l g).

(** If the update is our own proposal, the staged key pair takes effect,
    whether or not it is the one the proposal names. *)
Definition install_pending (l : Z) (g : TreeKemGroup) : TreeKemGroup :=
  if decide (l = tk_me g) then
    match tk_pending_update g with
    | Some kp =>
        set_mine (set_tree g (tk_public g) (tk_occupied g)
                    (<[leaf (tk_me g) := lk_secret kp]> (tk_secrets g)))
          (Some (id_from_secret_bytes (id_export_secret (lk_sig kp)))) None
    | None => g
    end
  else g.

Definition apply_update (l : Z) (lp : RatchetPublic) (sp : IdentityPublic) (pop auth : bytes)
  : ST TreeKemGroup fault unit :=
  do* _ := lift_crypto (verify_pop sp pop) in
  do* g := st_get in
  if decide (tk_occupied g !! Z.to_nat l <> Some true) then fail "treekem update for empty leaf"
  else
    do* current := st_lift (ok_or (tk_leaf_sig_keys g !! l)
                     (Fail (Malformed "update for a leaf with no current signing key"))) in
    do* _ := lift_crypto (map_err (fun _ => BadSignature)
               (id_verify current (update_auth_transcript l lp sp) auth)) in
    st_modify (fun g =>
      let g := set_tree g (<[leaf l := lp]> (tk_public g)) (tk_occupied g) (tk_secrets g) in
      let g := set_sigs g (<[l := sp]> (tk_leaf_sig_keys g)) (<[l := pop]> (tk_leaf_pops g)) in
      blank_path_above l (install_pending l g)).

Definition apply_proposal (p : Proposal) : ST TreeKemGroup fault unit :=
  do* g := st_get in
  if decide (prop_leaf p >= zlen (tk_occupied g)) then fail "treekem proposal leaf out of range"
  else
    match p with
    | PAdd l lp sp pop => apply_add l lp sp pop
    | PRemove l => apply_remove l
    | PUpdate l lp sp pop auth => apply_update l lp sp pop auth
    end.

Definition apply_proposals (ps : list Proposal) : ST TreeKemGroup fault unit :=
  st_iter apply_proposal ps.

(** ** Committing *)

Fixpoint seal_targets (public : gmap Node RatchetPublic) (cs : nat -> coins) (k : nat)
    (node : Node) (ps : bytes) (targets : list Node)
  : result CryptoError (list (Node * Node * bytes)) :=
  match targets with
  | [] => Ok []
  | t :: targets =>
      let* target_pub := ok_or (public !! t) (Malformed "resolution node has no key") in
      let* blob := seal_secret target_pub ps (cs k) in
      let* cts := seal_targets public cs (S k) node ps targets in
      Ok ((node, t, blob) :: cts)
  end.

(** [for i in 1..path.len()]: [prev] is [path[i - 1]]. *)
Fixpoint seal_path (public : gmap Node RatchetPublic) (cs : nat -> coins) (k : nat)
    (prev : Node) (l : list (Node * bytes)) : result CryptoError (list (Node * Node * bytes)) :=
  match l with
  | [] => Ok []
  | (node, ps) :: l =>
      let targets := resolution public (sibling prev) in
      let* a := seal_targets public cs k node ps targets in
      let* b := seal_path public cs (k + length targets) node l in
      Ok (a ++ b)
  end.

Definition rekey_path (cs : nat -> coins) (props : list Proposal)
    (sigup : option (Z * IdentityPublic * bytes)) : ST TreeKemGroup fault Commit :=
  do* g := st_get in
  let from_epoch := tk_epoch g in
  let pth := path_to_root (tk_capacity g) (tk_me g) in
  let secrets := secret_chain (random_bytes (cs 0%nat) 32) (length pth) in
  let keyed := zip pth secrets in
  do* _ := st_modify (install_path (tk_profile g) keyed) in
  do* g := st_get in
  do* cts := lift_crypto
    (match keyed with
     | [] => Ok []
     | (first, _) :: above => seal_path (tk_public g) cs 1 first above
     end) in
  do* root := st_expect (last secrets) "path is not empty" in
  do* _ := st_modify (fun g => enter_epoch g (u32_add (tk_epoch g) 1) (derive_commit_secret root)) in
  do* g := st_get in
  let pubs := (fun x => (x.1, (rs_derive_deterministic (tk_profile g) x.2).2)) <$> keyed in
  let commit := mkCommit props pubs pth cts (tk_capacity g) sigup [] in
  let sig := match tk_my_sig g with
             | Some signer => id_sign signer
                 (commit_auth_transcript from_epoch (tk_me g) (commit_encode_body commit))
             | None => []
             end in
  st_ret (mkCommit props pubs pth cts (tk_capacity g) sigup sig).

Definition welcome_members (g : TreeKemGroup) : list (Z * RatchetPublic * IdentityPublic * bytes) :=
  omap (fun x : Z * IdentityPublic =>
    lp ← tk_public g !! leaf x.1; pop ← tk_leaf_pops g !! x.1; Some (x.1, lp, x.2, pop))
    (map_to_list (tk_leaf_sig_keys g)).

Definition add (cs : nat -> coins) (kp : KeyPackage) : ST TreeKemGroup fault (Z * Commit * Welcome) :=
  do* g := st_get in
  do* _ := (match first_free_leaf g with
            | None => st_modify double_capacity
            | Some _ => st_ret tt
            end) in
  do* g := st_get in
  do* l := st_expect (first_free_leaf g) "free leaf after doubling" in
  let props := [PAdd l (kp_leaf_public kp) (kp_sig_public kp) (kp_pop kp)] in
  do* _ := apply_proposals props in
  do* commit := rekey_path cs props None in
  do* g := st_get in
  let welcome := mkWelcome (tk_capacity g) (map_to_list (tk_public g)) (tk_occupied g)
                   (tk_epoch g) l (welcome_members g) commit in
  st_ret (l, commit, welcome).

Definition remove (cs : nat -> coins) (l : Z) : ST TreeKemGroup fault Commit :=
  let props := [PRemove l] in
  do* _ := apply_proposals props in
  rekey_path cs props None.

Definition propose_update (c1 c2 : coins) : ST TreeKemGroup fault bytes :=
  do* g := st_get in
  let kp := lk_generate_with (tk_profile g) c1 c2 in
  let package := lk_key_package kp in
  do* current := st_lift (ok_or (tk_my_sig g) (Fail (Malformed "no current leaf signing key"))) in
  let auth := id_sign current
    (update_auth_transcript (tk_me g) (kp_leaf_public package) (kp_sig_public package)) in
  let prop := PUpdate (tk_me g) (kp_leaf_public package) (kp_sig_public package)
                (kp_pop package) auth in
  do* _ := st_modify (fun g => set_mine g (tk_my_sig g) (Some kp)) in
  st_ret (w_new |> prop_put prop |> into_vec).

Definition commit_update (cs : nat -> coins) (proposer_leaf : Z) (proposal_bytes : bytes)
  : ST TreeKemGroup fault Commit :=
  do* g := st_get in
  do* prop := lift_crypto (run_get (
    get* prop := prop_get (tk_profile g) in
    get* _ := q finish in
    gret prop) proposal_bytes) in
  do* _ := (match prop with
            | PUpdate l _ _ _ _ =>
                if decide (l = proposer_leaf) then st_ret tt
                else fail "update proposal leaf does not match its authenticated proposer"
            | _ => fail "expected an Update proposal"
            end) in
  do* _ := apply_proposals [prop] in
  rekey_path cs [prop] None.

(** [c] is the new signing key's draw, [cs] those of [rekey_path]. *)
Definition update (c : coins) (cs : nat -> coins) : ST TreeKemGroup fault Commit :=
  do* g := st_get in
  let new_sig := id_generate c in
  let new_pub := id_public new_sig in
  let pop := id_sign new_sig (pop_transcript new_pub) in
  do* commit := rekey_path cs [] (Some (tk_me g, new_pub, pop)) in
  do* _ := st_modify (fun g =>
    set_mine (set_sigs g (<[tk_me g := new_pub]> (tk_leaf_sig_keys g))
                (<[tk_me g := pop]> (tk_leaf_pops g)))
      (Some new_sig) (tk_pending_update g)) in
  st_ret commit.

(** ** Applying a commit *)

(** The first resolution node, going up the committer's path, whose secret we
    hold: the path node it is sealed for, the target, our secret, and the path
    above.  [prev] is [path[i - 1]]. *)
Fixpoint find_meet (public : gmap Node RatchetPublic) (secrets : gmap Node bytes) (prev : Node)
    (l : list Node) : option (Node * Node * bytes * list Node) :=
  match l with
  | [] => None
  | node :: l =>
      match list_find (fun t => is_Some (secrets !! t)) (resolution public (sibling prev)) with
      | Some (_, t) =>
          match secrets !! t with Some s => Some (node, t, s, l) | None => None end
      | None => find_meet public secrets node l
      end
  end.

(** [for node in &path[i + 1..]]: insert the secrets upwards, return the last. *)
Fixpoint climb (ps : bytes) (l : list Node) (m : gmap Node bytes) : bytes * gmap Node bytes :=
  match l with
  | [] => (ps, m)
  | node :: l =>
      let ps := derive_parent_secret ps in
      climb ps l (<[node := ps]> m)
  end.

Definition process_update_path (c : Commit) : ST TreeKemGroup fault bytes :=
  do* _ := st_modify (fun g =>
    set_tree g (foldl (fun m x => <[x.1 := x.2]> m) (tk_public g) (pub_updates c))
      (tk_occupied g) (tk_secrets g)) in
  do* g := st_get in
  match (match path c with
         | [] => None
         | first :: above => find_meet (tk_public g) (tk_secrets g) first above
         end) with
  | None => fail "no common ancestor with committer"
  | Some (node, target, secret, above) =>
      let rsecret := (rs_derive_deterministic (tk_profile g) secret).1 in
      do* blob := st_lift (ok_or
        (snd <$> (snd <$> list_find (fun x => x.1.1 = node /\ x.1.2 = target) (ciphertexts c)))
        (Fail (Malformed "no ciphertext for held target"))) in
      do* ps := lift_crypto (open_secret rsecret blob) in
      let (root, secrets) := climb ps above (<[node := ps]> (tk_secrets g)) in
      do* _ := st_modify (fun g => set_tree g (tk_public g) (tk_occupied g) secrets) in
      st_ret (derive_commit_secret root)
  end.

Definition HOST_LEAF : Z := 0.

(** What follows the authentication of a commit: resize, proposals, the
    committer's key rotation, the path and the new epoch. *)
Definition apply_sig_update (committer_leaf : Z) (s : option (Z * IdentityPublic * bytes))
  : ST TreeKemGroup fault unit :=
  match s with
  | None => st_ret tt
  | Some (l, sig_public, pop) =>
      do* g := st_get in
      if decide (l <> committer_leaf)
      then fail "sig_update may only rotate the committer's own leaf"
      else if decide (tk_occupied g !! Z.to_nat l <> Some true)
      then fail "sig_update for empty leaf"
      else
        do* _ := lift_crypto (verify_pop sig_public pop) in
        st_modify (fun g =>
          set_sigs g (<[l := sig_public]> (tk_leaf_sig_keys g)) (<[l := pop]> (tk_leaf_pops g)))
  end.

Definition apply_verified (committer_leaf : Z) (c : Commit) : ST TreeKemGroup fault unit :=
  do* g := st_get in
  do* _ := (if decide (new_capacity c > tk_capacity g)
            then st_modify (fun g => set_capacity g (new_capacity c)) else st_ret tt) in
  do* _ := apply_proposals (proposals c) in
  do* _ := apply_sig_update committer_leaf (sig_update c) in
  do* secret := process_update_path c in
  st_modify (fun g => enter_epoch g (u32_add (tk_epoch g) 1) secret).

Definition apply_commit (c : Commit) : ST TreeKemGroup fault unit :=
  do* g := st_get in
  do* committer_leaf :=
    (match path c with
     | n :: _ => if decide (span n = 1) then st_ret (lo n)
                 else fail "commit path does not start at a leaf"
     | [] => fail "commit path does not start at a leaf"
     end) in
  if decide (committer_leaf <> HOST_LEAF) then fail "only the host leaf may broadcast a commit"
  else
    do* host_key := st_lift (ok_or (tk_leaf_sig_keys g !! HOST_LEAF)
                      (Fail (Malformed "no host signing key bound"))) in
    do* _ := lift_crypto (map_err (fun _ => BadSignature)
      (id_verify host_key
        (commit_auth_transcript (tk_epoch g) committer_leaf (commit_encode_body c))
        (commit_sig c))) in
    apply_verified committer_leaf c.

(** [for (leaf, _, sig_public, pop) in &welcome.sig_keys] *)
Fixpoint learn_members (l : list (Z * RatchetPublic * IdentityPublic * bytes))
    (keys : gmap Z IdentityPublic) (pops : gmap Z bytes)
  : result CryptoError (gmap Z IdentityPublic * gmap Z bytes) :=
  match l with
  | [] => Ok (keys, pops)
  | (lf, _, sig_public, pop) :: l =>
      let* _ := verify_pop sig_public pop in
      learn_members l (<[lf := sig_public]> keys) (<[lf := pop]> pops)
  end.

Definition join_with_welcome (kp : LeafKeyPair) (w : Welcome) : result fault TreeKemGroup :=
  let sig := id_from_secret_bytes (id_export_secret (lk_sig kp)) in
  let* (keys, pops) := map_err Fail (learn_members (wl_sig_keys w) ∅ ∅) in
  let zero := replicate 32 (byte_of 0) in
  let g := mkTreeKem (lk_profile kp) (wl_capacity w)
    (foldl (fun m x => <[x.1 := x.2]> m) ∅ (wl_public w)) (wl_occupied w) (wl_your_leaf w)
    {[ leaf (wl_your_leaf w) := lk_secret kp ]} (wl_epoch w) zero zero 0 ∅
    (<[wl_your_leaf w := id_public sig]> keys) pops (Some sig) None 0 in
  match process_update_path (wl_commit w) g with
  | (Err e, _) => Err e
  | (Ok secret, g) => Ok (enter_epoch g (tk_epoch g) secret)
  end.

(** ** Signatures over group statements *)

Definition sign_as_host (g : TreeKemGroup) (msg : bytes) : option bytes :=
  if decide (tk_me g <> HOST_LEAF) then None
  else (fun s => id_sign s msg) <$> tk_my_sig g.

Definition verify_host_sig (g : TreeKemGroup) (msg sig : bytes) : bool :=
  match tk_leaf_sig_keys g !! HOST_LEAF with
  | Some k => is_ok (id_verify k msg sig)
  | None => false
  end.

Definition sign_body (t : Z -> Z -> bytes -> bytes) (g : TreeKemGroup) (body : bytes)
  : result CryptoError bytes :=
  let* sk := ok_or (tk_my_sig g) (Malformed "group has no leaf signing key") in
  Ok (id_sign sk (t (tk_epoch g) (tk_me g) body)).

Definition verify_body (t : Z -> Z -> bytes -> bytes) (g : TreeKemGroup) (l : Z) (body sig : bytes)
  : bool :=
  match tk_leaf_sig_keys g !! l with
  | Some pk => is_ok (id_verify pk (t (tk_epoch g) l body) sig)
  | None => false
  end.

Definition sign_promote := sign_body promote_transcript.
Definition verify_promote := verify_body promote_transcript.
Definition sign_consent := sign_body consent_transcript.
Definition verify_consent := verify_body consent_transcript.
Definition sign_promo_commit := sign_body promo_commit_transcript.
Definition verify_promo_commit := verify_body promo_commit_transcript.

(** ** Epoch messaging *)

Definition sender_leaf (message : bytes) : option Z :=
  to_option (run_get (E:=unit) (
    get* _ := q get_u8 in get* _ := q get_u32 in q get_u32) message).

Definition encrypt_v1 (plaintext : bytes) : ST TreeKemGroup fault bytes :=
  do* g := st_get in
  let (next, mk_seed) := kdf_ck (tk_send_chain g) in
  let (key, nonce) := kdf_mk mk_seed in
  let n := tk_send_n g in
  let aad := msg_aad (tk_epoch g) (tk_me g) n in
  do* ct := lift_crypto (aead_seal key nonce plaintext aad) in
  do* _ := st_modify (fun g => set_send g next (u32_add (tk_send_n g) 1)) in
  st_ret (w_new |> put_u8 GROUP_MSG_V1 |> put_u32 (tk_epoch g) |> put_u32 (tk_me g) |> put_u32 n
                |> put_bytes ct |> into_vec).

Definition encrypt_signed (plaintext : bytes) : ST TreeKemGroup fault bytes :=
  do* g := st_get in
  do* my_sig := st_lift (ok_or (tk_my_sig g) (Fail (Malformed "group has no leaf signing key"))) in
  let (next, mk_seed) := kdf_ck (tk_send_chain g) in
  let (key, nonce) := kdf_mk mk_seed in
  let n := tk_send_n g in
  let aad := msg_aad (tk_epoch g) (tk_me g) n in
  let body := if decide (tk_pad_bucket g > 0) then pad_to_bucket plaintext (tk_pad_bucket g)
              else plaintext in
  do* ct := lift_crypto (aead_seal key nonce body aad) in
  let sig := id_sign my_sig (sig_transcript (tk_epoch g) (tk_me g) n ct) in
  do* _ := st_modify (fun g => set_send g next (u32_add (tk_send_n g) 1)) in
  st_ret (w_new |> put_u8 GROUP_MSG_V2 |> put_u32 (tk_epoch g) |> put_u32 (tk_me g) |> put_u32 n
                |> put_bytes ct |> put_bytes sig |> into_vec).

(** [while recv.n < n], [k] iterations left *)
Fixpoint recv_skip (k : nat) (r : RecvChain) : RecvChain :=
  match k with
  | O => r
  | S k =>
      let (nx, seed) := kdf_ck (rc_chain r) in
      recv_skip k (mkRecvChain nx (u32_add (rc_at r) 1) (<[rc_at r := seed]> (rc_skipped r)))
  end.

Definition chain_open (n : Z) (ct aad : bytes) : ST RecvChain fault bytes :=
  do* r := st_get in
  match rc_skipped r !! n with
  | Some seed =>
      do* _ := st_modify (fun r => mkRecvChain (rc_chain r) (rc_at r) (delete n (rc_skipped r))) in
      let (key, nonce) := kdf_mk seed in
      lift_crypto (aead_open key nonce ct aad)
  | None =>
      if decide (n < rc_at r) then st_err (Fail DecryptionFailed)
      else if decide (n - rc_at r > MAX_SKIP) then st_err (Fail (TooManySkipped MAX_SKIP))
      else
        do* _ := st_modify (recv_skip (Z.to_nat (n - rc_at r))) in
        do* r := st_get in
        let (nx, mk_seed) := kdf_ck (rc_chain r) in
        let (key, nonce) := kdf_mk mk_seed in
        do* pt := lift_crypto (aead_open key nonce ct aad) in
        do* _ := st_modify (fun r => mkRecvChain nx (u32_add (rc_at r) 1) (rc_skipped r)) in
        st_ret pt
  end.

(** The receive chain of [l] in this epoch, created on first use. *)
Definition recv_entry (g : TreeKemGroup) (l : Z) : RecvChain :=
  match tk_recvs g !! l with
  | Some r => r
  | None => mkRecvChain (sender_chain (tk_epoch_secret g) l) 0 ∅
  end.

Definition decrypt_body (epoch l n : Z) (ct : bytes) : ST TreeKemGroup fault bytes := fun g =>
  let (res, r) := chain_open n ct (msg_aad epoch l n) (recv_entry g l) in
  (res, set_recvs g (<[l := r]> (tk_recvs g))).

Definition parse_v2 (message : bytes) : result CryptoError (Z * Z * Z * bytes * bytes) :=
  run_get (
    get* version := q get_u8 in
    if decide (version <> GROUP_MSG_V2) then gfail (Malformed "group message not signed (v2)")
    else
      get* epoch := q get_u32 in
      get* l := q get_u32 in
      get* n := q get_u32 in
      get* ct := q get_vec in
      get* sig := q get_vec in
      get* _ := q finish in
      gret (epoch, l, n, ct, sig)) message.

Definition decrypt_verified (message : bytes) : ST TreeKemGroup fault bytes :=
  do* (epoch, l, n, ct, sig) := lift_crypto (parse_v2 message) in
  do* g := st_get in
  do* vk := st_lift (ok_or (tk_leaf_sig_keys g !! l) (Fail BadSignature)) in
  if negb (is_ok (id_verify vk (sig_transcript epoch l n ct) sig)) then st_err (Fail BadSignature)
  else if decide (epoch <> tk_epoch g) then st_err (Fail DecryptionFailed)
  else
    do* body := decrypt_body epoch l n ct in
    do* g := st_get in
    if decide (tk_pad_bucket g > 0)
    then st_lift (ok_or (unpad_bucket body) (Fail DecryptionFailed))
    else st_ret body.

Definition decrypt_v1 (message : bytes) : ST TreeKemGroup fault bytes :=
  do* (epoch, l, n, ct) := lift_crypto (run_get (
    get* version := q get_u8 in
    if decide (version <> GROUP_MSG_V1)
    then gfail (Malformed "expected unsigned (v1) group message")
    else
      get* epoch := q get_u32 in
      get* l := q get_u32 in
      get* n := q get_u32 in
      get* ct := q get_vec in
      get* _ := q finish in
      gret (epoch, l, n, ct)) message) in
  do* g := st_get in
  if decide (epoch <> tk_epoch g) then st_err (Fail DecryptionFailed)
  else decrypt_body epoch l n ct.

End TreeKem.
