(* ===== verification/TreeAgree.v ===== *)
(** * TreeKEM members agree on the group secret

    The tree invariant of one member, the effect of a host commit on the host
    and on a member that applies it, and from these the theorem that every
    reachable group has all members in the same epoch with the same secret. *)

From S2P Require Import Prelude Wire Crypto Hybrid Ratchet TreeNode TreeCodec TreeKem Toy.

Section Agreement.
Context {P : Primitives} {POk : PrimitivesOk P}.

Definition pub_of (prof : KemProfile) (s : bytes) : RatchetPublic := (rs_derive_deterministic prof s).2.
Definition sec_of (prof : KemProfile) (s : bytes) : RatchetSecret := (rs_derive_deterministic prof s).1.

Lemma pair_of prof s : key_pair (sec_of prof s) (pub_of prof s).
Proof. apply key_pair_derive. Qed.

(** ** Sealing a path secret *)

Lemma seal_open_secret prof s secret c :
  length secret = 32%nat ->
  exists blob, seal_secret (pub_of prof s) secret c = Ok blob /\
    open_secret (sec_of prof s) blob = Ok secret.
Proof.
  intros Hl. destruct (encapsulate_pair _ _ c (pair_of prof s)) as (ct & ss & E1 & E2 & Hct & Hss).
  destruct (kdf_mk ss) as [key nonce] eqn:Ek. pose proof (kdf_mk_len ss) as [Hk _].
  rewrite Ek in Hk. cbn in Hk.
  destruct (aead_seal_total key nonce secret (bstr "tk-treekem")) as (act & Ea & Hal);
    [done|unfold zlen; rewrite Hl; lia|by vm_compute|].
  pose proof kem_lens as [_ Hkl].
  eexists. unfold seal_secret, open_secret. rewrite E1. cbn [rbind]. rewrite Ek, Ea. cbn [rbind].
  split; [done|]. rewrite (run_decodes_all _ _ (ct, act)).
  - cbn [rbind]. rewrite E2. cbn [rbind]. rewrite Ek, (aead_open_seal _ _ _ _ _ Ea). cbn [rbind].
    by rewrite decide_False by auto.
  - wire_norm. rewrite zlen_app, !zlen_enc_bytes, Hal. unfold zlen in *. rewrite Hl, Hct.
    unfold usize_max. lia.
  - wire_norm. assert (zlen ct <= MAX_FRAME) by (unfold zlen, MAX_FRAME; rewrite Hct; lia).
    assert (zlen act <= MAX_FRAME) by (rewrite Hal; unfold zlen, MAX_FRAME; rewrite Hl; lia).
    by dec_all.
Qed.

Lemma open_of_seal prof s secret c blob :
  length secret = 32%nat -> seal_secret (pub_of prof s) secret c = Ok blob ->
  open_secret (sec_of prof s) blob = Ok secret.
Proof. intros Hl H. destruct (seal_open_secret prof s secret c Hl) as (b & E & ?). congruence. Qed.

Lemma parent_secret_len s : length (derive_parent_secret s) = 32%nat.
Proof. apply mac_kdf_len. Qed.

Lemma secret_chain_length s n : length (secret_chain s n) = n.
Proof. revert s. induction n; intros s; simpl; congruence. Qed.

Lemma secret_chain_lens s n : length s = 32%nat -> Forall (fun x => length x = 32%nat) (secret_chain s n).
Proof.
  revert s. induction n as [|n IH]; intros s Hs; constructor; [done|]. apply IH, parent_secret_len.
Qed.

(** The [i]-th secret of a chain. *)
Fixpoint up (s : bytes) (i : nat) : bytes :=
  match i with O => s | S i => up (derive_parent_secret s) i end.

Lemma secret_chain_lookup s n i : (i < n)%nat -> secret_chain s n !! i = Some (up s i).
Proof. revert s i. induction n as [|n IH]; intros s [|i] Hi; try lia; [done|]. cbn [secret_chain up lookup list_lookup]. apply (IH (derive_parent_secret s) i). lia. Qed.

Lemma up_S s i : up s (S i) = derive_parent_secret (up s i).
Proof. revert s. induction i as [|i IH]; intros s; [done|]. cbn [up] in *. by rewrite IH. Qed.

Lemma up_len s i : length s = 32%nat -> length (up s i) = 32%nat.
Proof. intros. destruct i; [done|]. rewrite up_S. apply parent_secret_len. Qed.

Lemma secret_chain_last s n : last (secret_chain s (S n)) = Some (up s n).
Proof.
  rewrite last_lookup, secret_chain_length. apply secret_chain_lookup. cbn. lia.
Qed.

(** ** Sealing along a path *)

Definition derived (prof : KemProfile) (pub : gmap Node RatchetPublic) : Prop :=
  map_Forall (fun _ p => exists s, p = pub_of prof s) pub.

(** [x] is one of the entries [seal_path] makes for level [i] of [l]. *)
Definition entry_for (pub : gmap Node RatchetPublic) (prev : Node) (l : list (Node * bytes))
    (x : Node * Node * bytes) : Prop :=
  exists i ps before tp c, l !! i = Some (x.1.1, ps) /\ (prev :: l.*1) !! i = Some before /\
    x.1.2 ∈ resolution pub (sibling before) /\ pub !! x.1.2 = Some tp /\
    seal_secret tp ps c = Ok x.2.

Lemma seal_targets_run prof pub cs k node ps ts :
  derived prof pub -> length ps = 32%nat -> Forall (fun t => is_Some (pub !! t)) ts ->
  exists cts, seal_targets pub cs k node ps ts = Ok cts /\
    (forall t, t ∈ ts -> exists b, (node, t, b) ∈ cts) /\
    (forall x, x ∈ cts -> x.1.1 = node /\ x.1.2 ∈ ts /\
       exists tp c, pub !! x.1.2 = Some tp /\ seal_secret tp ps c = Ok x.2).
Proof.
  intros Hd Hl Hts. revert k. induction Hts as [|t ts [tp Ht] Hts IH]; intros k.
  { exists []. split; [done|]. split; intros ? H; by apply elem_of_nil in H. }
  destruct (Hd t tp Ht) as [s ->].
  destruct (seal_open_secret prof s ps (cs k) Hl) as (b & Eb & _).
  destruct (IH (S k)) as (cts & E & H1 & H2). exists ((node, t, b) :: cts).
  cbn [seal_targets]. rewrite Ht. cbn [ok_or rbind]. rewrite Eb. cbn [rbind]. rewrite E. cbn [rbind].
  split; [done|]. split.
  - intros t' [->|Hin]%elem_of_cons; [exists b; by left|].
    destruct (H1 t' Hin) as [b' ?]. exists b'. by right.
  - intros x [->|Hin]%elem_of_cons; cbn.
    + split; [done|]. split; [by left|]. eauto.
    + destruct (H2 x Hin) as (? & ? & ?). split; [done|]. split; [by right|done].
Qed.

Lemma seal_path_run prof pub cs k prev l :
  derived prof pub -> Forall (fun x => length x.2 = 32%nat) l ->
  (forall n t, n ∈ prev :: l.*1 -> t ∈ resolution pub (sibling n) -> is_Some (pub !! t)) ->
  exists cts, seal_path pub cs k prev l = Ok cts /\
    (forall i before node ps t, l !! i = Some (node, ps) -> (prev :: l.*1) !! i = Some before ->
       t ∈ resolution pub (sibling before) -> exists b, (node, t, b) ∈ cts) /\
    Forall (entry_for pub prev l) cts.
Proof.
  intros Hd. revert k prev. induction l as [|[node ps] l IH]; intros k prev Hl Hres.
  { exists []. done. }
  apply Forall_cons in Hl as [Hps Hl].
  destruct (seal_targets_run prof pub cs k node ps (resolution pub (sibling prev)))
    as (a & Ea & Ha1 & Ha2); [done..|apply Forall_forall; intros t; apply Hres; by left|].
  destruct (IH (k + length (resolution pub (sibling prev)))%nat node Hl) as (b & Eb & Hb1 & Hb2).
  { intros n t Hn. apply Hres. by right. }
  exists (a ++ b). cbn [seal_path]. rewrite Ea. cbn [rbind]. rewrite Eb. cbn [rbind].
  split; [done|]. split.
  - intros [|i] before node' ps' t; cbn [lookup list_lookup fmap list_fmap].
    + intros [= <- <-] [= <-] Ht. destruct (Ha1 t Ht) as [bl ?]. exists bl. apply elem_of_app. by left.
    + intros H1 H2 Ht. destruct (Hb1 i before node' ps' t H1 H2 Ht) as [bl ?].
      exists bl. apply elem_of_app. by right.
  - apply Forall_app. split.
    + apply Forall_forall. intros x Hx. destruct (Ha2 x Hx) as (E & Ht & tp & c & ? & ?).
      exists 0%nat, ps, prev, tp, c. cbn. by rewrite E.
    + eapply Forall_impl; [done|]. intros x (i & ps' & before & tp & c & H1 & H2 & ?).
      exists (S i), ps', before, tp, c. done.
Qed.

(** ** The tree invariant of one member *)

(** Only nodes of the tree carry keys. *)
Definition nodes_below (K : nat) (pub : gmap Node RatchetPublic) : Prop :=
  map_Forall (fun n _ => exists j q, n = nd j q /\ (j <= K)%nat) pub.

(** For the path secrets a member holds: the tree has their public keys, they
    lie above the member's own leaf, and none is missing among the nodes in [Q]
    (a member that is about to process a commit may lack those on the
    committer's path). *)
Record tree_inv_on (Q : Node -> Prop) (K : nat) (g : TreeKemGroup) : Prop := {
  ti_K : (1 <= K <= 20)%nat;
  ti_cap : tk_capacity g = 2 ^ Z.of_nat K;
  ti_occ : zlen (tk_occupied g) = 2 ^ Z.of_nat K;
  ti_me : 0 <= tk_me g < 2 ^ Z.of_nat K;
  ti_occ_me : tk_occupied g !! Z.to_nat (tk_me g) = Some true;
  ti_keys : derived (tk_profile g) (tk_public g);
  ti_nodes : nodes_below K (tk_public g);
  ti_sec n s : tk_secrets g !! n = Some s ->
    covers n (tk_me g) /\ tk_public g !! n = Some (pub_of (tk_profile g) s);
  ti_full n : Q n -> covers n (tk_me g) -> is_Some (tk_public g !! n) -> is_Some (tk_secrets g !! n);
  ti_leaf : is_Some (tk_public g !! leaf (tk_me g)) }.

Definition tree_inv : nat -> TreeKemGroup -> Prop := tree_inv_on (fun _ => True).
Definition off_spine (K : nat) (n : Node) : Prop := forall i, (i <= K)%nat -> n <> nd i 0.

Lemma tree_inv_weaken Q K g : tree_inv K g -> tree_inv_on Q K g.
Proof. intros []. split; auto. Qed.

(** ** The host's path *)

(** The host sits at leaf 0: its path is the left edge of the tree, and the
    copath nodes are the right children along it. *)
Definition spine (K : nat) : list Node := (fun i => nd i 0) <$> seq 0 (S K).

Lemma path_host K : (K <= 20)%nat -> path_to_root (2 ^ Z.of_nat K) 0 = spine K.
Proof.
  intros HK. rewrite path_to_root_nd by lia. unfold spine. by apply list_fmap_ext.
Qed.

Lemma spine_lookup K i : (i <= K)%nat -> spine K !! i = Some (nd i 0).
Proof. intros. unfold spine. rewrite list_lookup_fmap, lookup_seq_lt by lia. done. Qed.

Lemma spine_length K : length (spine K) = S K.
Proof. unfold spine. by rewrite length_fmap, length_seq. Qed.

Lemma sibling_spine i : (i <= 20)%nat -> sibling (nd i 0) = nd i 1.
Proof.
  intros Hi. pose proof (pow_le i 20 Hi) as Hp. change (2 ^ Z.of_nat 20) with (2 ^ 20) in Hp.
  by rewrite sibling_nd by lia.
Qed.

Lemma copath_range i : (i <= 20)%nat -> (i <= 31)%nat /\ (1 + 1) * 2 ^ Z.of_nat i <= 2 ^ 32.
Proof.
  intros Hi. pose proof (pow_le i 20 Hi) as Hp. change (2 ^ Z.of_nat 20) with (2 ^ 20) in Hp. lia.
Qed.

(** Targets in the copath are never on the spine. *)
Lemma copath_off_spine {A} (pub : gmap Node A) i t j :
  (i <= 20)%nat -> t ∈ resolution pub (nd i 1) -> t <> nd j 0.
Proof.
  intros Hi Ht ->. destruct (copath_range i Hi).
  destruct (resolution_sound pub i 1 (nd j 0)) as (_ & i' & r & E & _ & _ & Hr); [lia..|done|].
  apply nd_inj in E as [-> <-]. rewrite Z.div_0_l in Hr; [done|]. pose proof (pow_pos (i - i')). lia.
Qed.

Definition keyed_spine (K : nat) (s0 : bytes) : list (Node * bytes) :=
  (fun i => (nd i 0, up s0 i)) <$> seq 0 (S K).

Lemma keyed_spine_zip K s0 : zip (spine K) (secret_chain s0 (length (spine K))) = keyed_spine K s0.
Proof.
  rewrite spine_length. apply list_eq. intros i. unfold keyed_spine.
  destruct (decide (i <= K)%nat).
  - rewrite list_lookup_fmap, lookup_seq_lt by lia. cbn [fmap option_fmap option_map].
    apply lookup_zip_with_Some. exists (nd i 0), (up s0 i).
    rewrite spine_lookup, secret_chain_lookup by lia. done.
  - rewrite list_lookup_fmap, lookup_seq_ge by lia. apply lookup_ge_None_2.
    rewrite length_zip_with, spine_length, secret_chain_length. lia.
Qed.

(** Inserting a keyed path into a map. *)
Lemma foldl_insert_lookup {A B} (f : A -> B) (key : nat -> Node) (val : nat -> A) (m : gmap Node B) n a b :
  (forall i j, key i = key j -> i = j) ->
  foldl (fun m x => <[x.1 := f x.2]> m) m ((fun i => (key i, val i)) <$> seq a b) !! n =
    match list_find (fun i => key i = n) (seq a b) with
    | Some (_, i) => Some (f (val i))
    | None => m !! n
    end.
Proof.
  intros Hinj. revert a m. induction b as [|b IH]; intros a m; [done|].
  cbn [seq fmap list_fmap foldl]. rewrite IH. cbn [list_find].
  case_decide as Hk.
  - subst n. replace (list_find _ (seq (S a) b)) with (@None (nat * nat)).
    + by rewrite lookup_insert_eq.
    + symmetry. apply list_find_None. apply Forall_forall. intros j Hj%elem_of_seq E.
      apply Hinj in E. lia.
  - destruct (list_find (fun i => key i = n) (seq (S a) b)) as [[? ?]|]; [done|].
    by rewrite lookup_insert_ne.
Qed.

Lemma spine_find K n :
  match list_find (fun i => nd i 0 = n) (seq 0 (S K)) with
  | Some (_, i) => n = nd i 0 /\ (i <= K)%nat
  | None => forall i, (i <= K)%nat -> n <> nd i 0
  end.
Proof.
  destruct (list_find _ _) as [[i x]|] eqn:E.
  - apply list_find_Some in E as (H1 & H2 & _). apply lookup_seq in H1 as [-> ?]. split; [done|lia].
  - apply list_find_None in E. intros i Hi ->. rewrite Forall_forall in E.
    apply (E i); [apply elem_of_seq; lia|done].
Qed.

Lemma install_public_lookup prof K s0 (m : gmap Node RatchetPublic) :
  let m' := foldl (fun m x => <[x.1 := pub_of prof x.2]> m) m (keyed_spine K s0) in
  (forall i, (i <= K)%nat -> m' !! nd i 0 = Some (pub_of prof (up s0 i))) /\
  (forall n, (forall i, (i <= K)%nat -> n <> nd i 0) -> m' !! n = m !! n).
Proof.
  intros m'. unfold m', keyed_spine. split; intros n Hn;
    rewrite (foldl_insert_lookup (pub_of prof) (fun i => nd i 0) (up s0))
      by (intros i j; intros [? _]%nd_inj; done).
  - pose proof (spine_find K (nd n 0)) as Hf. destruct (list_find _ _) as [[? i]|].
    + destruct Hf as [E _]. by apply nd_inj in E as [-> _].
    + by destruct (Hf n Hn).
  - pose proof (spine_find K n) as Hf. destruct (list_find _ _) as [[? i]|]; [|done].
    destruct Hf as [E Hi]. by destruct (Hn i Hi).
Qed.

Lemma install_secrets_lookup K s0 (m : gmap Node bytes) :
  let m' := foldl (fun m x => <[x.1 := x.2]> m) m (keyed_spine K s0) in
  (forall i, (i <= K)%nat -> m' !! nd i 0 = Some (up s0 i)) /\
  (forall n, (forall i, (i <= K)%nat -> n <> nd i 0) -> m' !! n = m !! n).
Proof.
  intros m'. unfold m', keyed_spine. split; intros n Hn;
    rewrite (foldl_insert_lookup id (fun i => nd i 0) (up s0))
      by (intros i j; intros [? _]%nd_inj; done).
  - pose proof (spine_find K (nd n 0)) as Hf. destruct (list_find _ _) as [[? i]|].
    + destruct Hf as [E _]. by apply nd_inj in E as [-> _].
    + by destruct (Hf n Hn).
  - pose proof (spine_find K n) as Hf. destruct (list_find _ _) as [[? i]|]; [|done].
    destruct Hf as [E Hi]. by destruct (Hn i Hi).
Qed.

(** A node is on the spine or it is not. *)
Lemma spine_dec K n : (exists i, (i <= K)%nat /\ n = nd i 0) \/ (forall i, (i <= K)%nat -> n <> nd i 0).
Proof.
  pose proof (spine_find K n) as H. destruct (list_find _ _) as [[? i]|]; [left|by right].
  destruct H. eauto.
Qed.

Definition spine_public (prof : KemProfile) (K : nat) (s0 : bytes) (m : gmap Node RatchetPublic) :=
  foldl (fun m x => <[x.1 := pub_of prof x.2]> m) m (keyed_spine K s0).
Definition spine_secrets (K : nat) (s0 : bytes) (m : gmap Node bytes) :=
  foldl (fun m (x : Node * bytes) => <[x.1 := x.2]> m) m (keyed_spine K s0).

Lemma spine_derived prof K s0 m : derived prof m -> derived prof (spine_public prof K s0 m).
Proof.
  intros Hd n p. destruct (install_public_lookup prof K s0 m) as [H1 H2].
  destruct (spine_dec K n) as [(i & Hi & ->)|Hn]; unfold spine_public.
  - rewrite H1 by done. intros [= <-]. eauto.
  - rewrite H2 by done. apply Hd.
Qed.

Lemma spine_nodes prof K s0 m : nodes_below K m -> nodes_below K (spine_public prof K s0 m).
Proof.
  intros Hd n p. destruct (install_public_lookup prof K s0 m) as [_ H2].
  destruct (spine_dec K n) as [(i & Hi & ->)|Hn]; [by intros _; exists i, 0|].
  unfold spine_public. rewrite H2 by done. apply Hd.
Qed.

Definition above_spine (K : nat) (s0 : bytes) : list (Node * bytes) :=
  (fun i => (nd (S i) 0, up s0 (S i))) <$> seq 0 K.

Lemma keyed_spine_cons K s0 : keyed_spine K s0 = (nd 0 0, s0) :: above_spine K s0.
Proof.
  unfold keyed_spine, above_spine. cbn [seq fmap list_fmap up]. f_equal.
  rewrite <- fmap_S_seq, <- list_fmap_compose. done.
Qed.

Lemma above_spine_lookup K s0 i :
  (i < K)%nat -> above_spine K s0 !! i = Some (nd (S i) 0, up s0 (S i)).
Proof. intros. unfold above_spine. rewrite list_lookup_fmap, lookup_seq_lt by lia. done. Qed.

Lemma above_spine_inv K s0 i x : above_spine K s0 !! i = Some x -> (i < K)%nat.
Proof.
  intros H%lookup_lt_Some. unfold above_spine in H. by rewrite length_fmap, length_seq in H.
Qed.

Lemma before_lookup K s0 i : (i <= K)%nat -> (nd 0 0 :: (above_spine K s0).*1) !! i = Some (nd i 0).
Proof.
  destruct i as [|i]; intros Hi; [done|].
  change ((above_spine K s0).*1 !! i = Some (nd (S i) 0)).
  by rewrite list_lookup_fmap, above_spine_lookup by lia.
Qed.

(** What the host's ciphertexts are: one for every target of every copath
    node, each opening to the path secret of its level. *)
Definition covers_copath (K : nat) (s0 : bytes) (pub : gmap Node RatchetPublic)
    (cts : list (Node * Node * bytes)) : Prop :=
  (forall i t, (i < K)%nat -> t ∈ resolution pub (nd i 1) -> exists b, (nd (S i) 0, t, b) ∈ cts) /\
  (forall x, x ∈ cts -> exists i tp c, (i < K)%nat /\ x.1.1 = nd (S i) 0 /\
     x.1.2 ∈ resolution pub (nd i 1) /\ pub !! x.1.2 = Some tp /\
     seal_secret tp (up s0 (S i)) c = Ok x.2).

Lemma seal_spine prof cs K s0 pub :
  (K <= 20)%nat -> length s0 = 32%nat -> derived prof pub ->
  exists cts, seal_path pub cs 1 (nd 0 0) (above_spine K s0) = Ok cts /\ covers_copath K s0 pub cts.
Proof.
  intros HK Hs Hd.
  destruct (seal_path_run prof pub cs 1 (nd 0 0) (above_spine K s0)) as (cts & E & H1 & H2); [done| | |].
  - unfold above_spine. apply Forall_fmap, Forall_true. intros i. apply up_len, Hs.
  - intros n t Hn Ht. apply list_elem_of_lookup_1 in Hn as [i Hi].
    assert (i <= K)%nat as HiK.
    { apply lookup_lt_Some in Hi. cbn in Hi. unfold above_spine in Hi.
      rewrite !length_fmap, length_seq in Hi. lia. }
    rewrite before_lookup in Hi by done. injection Hi as <-. rewrite sibling_spine in Ht by lia.
    destruct (copath_range i); [lia|]. apply (resolution_sound pub i 1 t); lia || done.
  - exists cts. split; [done|]. split.
    + intros i t Hi Ht. eapply (H1 i (nd i 0)); [by apply above_spine_lookup|apply before_lookup; lia|].
      by rewrite sibling_spine by lia.
    + intros x Hx. rewrite Forall_forall in H2.
      destruct (H2 x Hx) as (i & ps & before & tp & c & Hl & Hb & Ht & Hp & Hsl).
      pose proof (above_spine_inv _ _ _ _ Hl) as Hi.
      rewrite above_spine_lookup in Hl by done. rewrite before_lookup in Hb by lia.
      injection Hl as Hnode <-. injection Hb as <-. rewrite sibling_spine in Ht by lia.
      exists i, tp, c. done.
Qed.

(** The state of the host after [rekey_path]. *)
Definition rekeyed (K : nat) (s0 : bytes) (h : TreeKemGroup) : TreeKemGroup :=
  enter_epoch
    (set_tree h (spine_public (tk_profile h) K s0 (tk_public h)) (tk_occupied h)
       (spine_secrets K s0 (tk_secrets h)))
    (u32_add (tk_epoch h) 1) (derive_commit_secret (up s0 K)).

Definition path_commit (prof : KemProfile) (K : nat) (s0 : bytes) (cap : Z) (props : list Proposal)
    (sigup : option (Z * IdentityPublic * bytes)) (cts : list (Node * Node * bytes)) (sig : bytes) : Commit :=
  mkCommit props ((fun x => (x.1, pub_of prof x.2)) <$> keyed_spine K s0) (spine K) cts cap sigup sig.

Lemma rekey_run cs props sigup h K k :
  tree_inv K h -> tk_me h = 0 -> tk_my_sig h = Some k ->
  let s0 := random_bytes (cs 0%nat) 32 in
  exists cts,
    covers_copath K s0 (spine_public (tk_profile h) K s0 (tk_public h)) cts /\
    let body := commit_encode_body (path_commit (tk_profile h) K s0 (tk_capacity h) props sigup cts []) in
    rekey_path cs props sigup h =
      (Ok (path_commit (tk_profile h) K s0 (tk_capacity h) props sigup cts
             (id_sign k (commit_auth_transcript (tk_epoch h) 0 body))), rekeyed K s0 h).
Proof.
  intros Hi Hme Hk s0. pose proof (ti_K _ _ _ Hi) as HK. pose proof (ti_cap _ _ _ Hi) as Hcap.
  assert (length s0 = 32%nat) as Hs0 by apply random_bytes_len.
  destruct (seal_spine (tk_profile h) cs K s0 (spine_public (tk_profile h) K s0 (tk_public h)))
    as (cts & E & Hc); [lia|done|by apply spine_derived, Hi|].
  exists cts. split; [done|]. cbv zeta.
  unfold rekey_path. unfold st_bind at 1, st_get at 1. cbv beta iota zeta. rewrite Hme, Hcap, path_host by lia.
  fold s0. rewrite keyed_spine_zip, spine_length, secret_chain_last.
  unfold st_bind at 1, st_modify at 1. cbv beta iota. unfold st_bind at 1, st_get at 1. cbv beta iota.
  unfold st_bind at 1, lift_crypto, st_lift at 1. rewrite keyed_spine_cons. cbv beta iota.
  unfold install_path at 1. cbn [tk_public set_tree].
  rewrite <- keyed_spine_cons. change (fun m x => <[x.1:=(rs_derive_deterministic (tk_profile h) x.2).2]> m)
    with (fun (m : gmap Node RatchetPublic) (x : Node * bytes) => <[x.1 := pub_of (tk_profile h) x.2]> m).
  fold (spine_public (tk_profile h) K s0 (tk_public h)). rewrite E. cbn [map_err].
  unfold st_bind, st_expect, st_lift, st_modify, st_get, st_ret. cbn [ok_or].
  unfold install_path. cbn [tk_my_sig set_tree enter_epoch tk_me tk_profile tk_capacity tk_epoch].
  rewrite Hk, Hme, Hcap. reflexivity.
Qed.

(** Two trees that differ in nothing a member's invariant looks at. *)
Lemma tree_inv_update Q Q' K g pub sec :
  tree_inv_on Q K g -> derived (tk_profile g) pub -> nodes_below K pub ->
  (forall n s, sec !! n = Some s ->
     covers n (tk_me g) /\ pub !! n = Some (pub_of (tk_profile g) s)) ->
  (forall n, Q' n -> covers n (tk_me g) -> is_Some (pub !! n) -> is_Some (sec !! n)) ->
  is_Some (pub !! leaf (tk_me g)) ->
  tree_inv_on Q' K (set_tree g pub (tk_occupied g) sec).
Proof. intros [] ?????. by split. Qed.

Lemma tree_inv_epoch K g e s : tree_inv K g -> tree_inv K (enter_epoch g e s).
Proof. intros []. by split. Qed.

Lemma rekeyed_inv K s0 h : tree_inv K h -> tk_me h = 0 -> tree_inv K (rekeyed K s0 h).
Proof.
  intros Hi Hme. apply tree_inv_epoch.
  destruct (install_public_lookup (tk_profile h) K s0 (tk_public h)) as [Hp1 Hp2].
  destruct (install_secrets_lookup K s0 (tk_secrets h)) as [Hs1 Hs2].
  eapply tree_inv_update; [done|by apply spine_derived, Hi|by apply spine_nodes, Hi|..].
  - intros n s. rewrite Hme. destruct (spine_dec K n) as [(i & Hle & ->)|Hn].
    + unfold spine_secrets, spine_public. rewrite Hs1, Hp1 by done. intros [= <-]. split; [|done].
      apply covers_nd. done.
    + unfold spine_secrets, spine_public. rewrite Hs2, Hp2 by done. rewrite <- Hme. apply Hi.
  - intros n _ Hc. unfold spine_secrets, spine_public. destruct (spine_dec K n) as [(i & Hle & ->)|Hn].
    + rewrite Hs1 by done. eauto.
    + rewrite Hs2, Hp2 by done. by apply Hi.
  - rewrite Hme, leaf_nd. unfold spine_public. rewrite Hp1 by lia. eauto.
Qed.

(** ** The member's side *)

(** The level at which a member's path meets the host's: the position of its
    highest bit. *)
Definition meet_level (l : Z) : nat := Z.to_nat (Z.log2 l).

Lemma meet_level_spec l j : 0 < l -> (l / 2 ^ Z.of_nat j = 1 <-> j = meet_level l).
Proof.
  intros Hl. unfold meet_level. pose proof (Z.log2_nonneg l). split.
  - intros E. assert (Z.log2 l = Z.of_nat j) as ->; [|lia].
    apply Z.log2_unique; [lia|]. pose proof (pow_pos j). rewrite Z.pow_succ_r by lia.
    pose proof (Z.div_mod l (2 ^ Z.of_nat j) ltac:(lia)).
    pose proof (Z.mod_pos_bound l (2 ^ Z.of_nat j) ltac:(lia)). rewrite E in *. lia.
  - intros ->. rewrite Z2Nat.id by done. pose proof (Z.log2_spec l Hl) as [? Hlt].
    rewrite Z.pow_succ_r in Hlt by done. symmetry.
    apply (Z.div_unique_pos _ _ _ (l - 2 ^ Z.log2 l)); lia.
Qed.

Lemma meet_level_above l j : 0 < l -> (meet_level l < j)%nat -> l / 2 ^ Z.of_nat j = 0.
Proof.
  intros Hl Hj. unfold meet_level in Hj. pose proof (Z.log2_spec l Hl) as [? Hlt].
  pose proof (Z.log2_nonneg l). apply Z.div_small. split; [lia|].
  eapply Z.lt_le_trans; [done|]. apply Z.pow_le_mono_r; lia.
Qed.

Lemma meet_level_below l j : 0 < l -> (j <= meet_level l)%nat -> l / 2 ^ Z.of_nat j <> 0.
Proof.
  intros Hl Hj. unfold meet_level in Hj. pose proof (Z.log2_spec l Hl) as [Hle _].
  pose proof (Z.log2_nonneg l). pose proof (pow_pos j).
  assert (2 ^ Z.of_nat j <= l); [etrans; [|exact Hle]; apply Z.pow_le_mono_r; lia|].
  assert (1 <= l / 2 ^ Z.of_nat j); [|lia]. apply Z.div_le_lower_bound; lia.
Qed.

Definition spine_from (j n : nat) : list Node := (fun i => nd i 0) <$> seq j n.

(** Climbing the spine, the member finds the first secret it holds exactly at
    its meeting level. *)
Lemma find_meet_spine (pub : gmap Node RatchetPublic) (sec : gmap Node bytes) l K j n :
  0 < l -> (K <= 20)%nat -> (j <= meet_level l)%nat -> (j + n = K)%nat -> (meet_level l < K)%nat ->
  (forall t, is_Some (sec !! t) -> covers t l) ->
  (forall t, t ∈ resolution pub (nd (meet_level l) 1) -> covers t l -> is_Some (sec !! t)) ->
  is_Some (pub !! leaf l) ->
  exists t s, find_meet pub sec (nd j 0) (spine_from (S j) n) =
      Some (nd (S (meet_level l)) 0, t, s, spine_from (S (S (meet_level l))) (K - S (meet_level l))) /\
    t ∈ resolution pub (nd (meet_level l) 1) /\ sec !! t = Some s.
Proof.
  intros Hl HK Hj Hn Hlt Hcov Hheld Hleaf. revert j Hj Hn. induction n as [|n IH]; intros j Hj Hn; [lia|].
  cbn [find_meet spine_from seq fmap list_fmap]. rewrite sibling_spine by lia.
  destruct (copath_range j); [lia|].
  destruct (decide (j = meet_level l)) as [->|Hne].
  - destruct (resolution_reaches pub (meet_level l) 1 l) as (t & Ht & Hct & _); try done; try lia.
    { apply covers_nd, meet_level_spec; done. }
    destruct (list_find _ _) as [[i t']|] eqn:Ef.
    + apply list_find_Some in Ef as (Hi & [s Hs] & _). rewrite Hs.
      exists t', s. split; [|split; [by eapply list_elem_of_lookup_2|done]].
      replace (K - S (meet_level l))%nat with n by lia. done.
    + apply list_find_None in Ef. rewrite Forall_forall in Ef. by destruct (Ef t Ht (Hheld t Ht Hct)).
  - destruct (list_find _ _) as [[i t']|] eqn:Ef.
    + exfalso. apply list_find_Some in Ef as (Hi & Hs & _). apply Hne, meet_level_spec; [done|].
      apply covers_nd. apply (resolution_covers pub j 1 t'); try done; try lia;
        [by eapply list_elem_of_lookup_2|by apply Hcov].
    + apply (IH (S j)); lia.
Qed.

Lemma climb_spine s0 j n m :
  climb (up s0 j) (spine_from (S j) n) m =
    (up s0 (j + n),
     foldl (fun m (x : Node * bytes) => <[x.1 := x.2]> m) m ((fun i => (nd i 0, up s0 i)) <$> seq (S j) n)).
Proof.
  revert j m. induction n as [|n IH]; intros j m; cbn; [by rewrite Nat.add_0_r|].
  rewrite <- up_S, IH. f_equal. f_equal. lia.
Qed.

Lemma adopt_spine prof K s0 m :
  foldl (fun m (x : Node * RatchetPublic) => <[x.1 := x.2]> m) m
    ((fun x => (x.1, pub_of prof x.2)) <$> keyed_spine K s0) = spine_public prof K s0 m.
Proof.
  unfold spine_public. generalize (keyed_spine K s0). intros l. revert m.
  induction l as [|x l IH]; intros m; [done|]. cbn. apply IH.
Qed.

(** The member's secrets after climbing from level [a] to the root. *)
Definition climbed (a K : nat) (s0 : bytes) (m : gmap Node bytes) : gmap Node bytes :=
  foldl (fun m (x : Node * bytes) => <[x.1 := x.2]> m) m ((fun i => (nd i 0, up s0 i)) <$> seq a (S K - a)).

Lemma climbed_lookup a K s0 m :
  (forall i, (a <= i <= K)%nat -> climbed a K s0 m !! nd i 0 = Some (up s0 i)) /\
  (forall n, (forall i, (a <= i <= K)%nat -> n <> nd i 0) -> climbed a K s0 m !! n = m !! n).
Proof.
  unfold climbed. split; intros n Hn;
    rewrite (foldl_insert_lookup id (fun i => nd i 0) (up s0))
      by (intros i j; intros [? _]%nd_inj; done);
    destruct (list_find _ _) as [[? i]|] eqn:Ef.
  - apply list_find_Some in Ef as (_ & E & _). by apply nd_inj in E as [-> _].
  - apply list_find_None in Ef. rewrite Forall_forall in Ef.
    destruct (Ef n); [apply elem_of_seq; lia|done].
  - apply list_find_Some in Ef as (H1 & E & _). apply lookup_seq in H1 as [-> ?].
    exfalso. apply (Hn (a + n0)%nat); [lia|done].
  - done.
Qed.

(** The member's state after it processed the host's path. *)
Definition followed (K : nat) (s0 : bytes) (m : TreeKemGroup) : TreeKemGroup :=
  set_tree m (spine_public (tk_profile m) K s0 (tk_public m)) (tk_occupied m)
    (climbed (S (meet_level (tk_me m))) K s0 (tk_secrets m)).

Lemma meet_level_lt l K : 0 < l < 2 ^ Z.of_nat K -> (meet_level l < K)%nat.
Proof.
  intros [Hl Hlt]. unfold meet_level. pose proof (Z.log2_nonneg l).
  apply Z.log2_lt_pow2 in Hlt; lia.
Qed.

Lemma covers_spine l i : 0 < l -> covers (nd i 0) l <-> (meet_level l < i)%nat.
Proof.
  intros Hl. rewrite covers_nd. split.
  - intros E. destruct (decide (meet_level l < i)%nat); [done|].
    by destruct (meet_level_below l i); [|lia|].
  - by apply meet_level_above.
Qed.

Lemma followed_inv K s0 m :
  tree_inv_on (off_spine K) K m -> 0 < tk_me m -> tree_inv K (followed K s0 m).
Proof.
  intros Hi Hme. pose proof (meet_level_lt (tk_me m) K) as Hlt. pose proof (ti_me _ _ _ Hi).
  destruct (install_public_lookup (tk_profile m) K s0 (tk_public m)) as [Hp1 Hp2].
  destruct (climbed_lookup (S (meet_level (tk_me m))) K s0 (tk_secrets m)) as [Hs1 Hs2].
  eapply tree_inv_update; [done|by apply spine_derived, Hi|by apply spine_nodes, Hi|..].
  - intros n s. destruct (spine_dec K n) as [(i & Hle & ->)|Hn]; unfold spine_public.
    + rewrite Hp1 by done. destruct (decide (meet_level (tk_me m) < i)%nat) as [Hm|Hm].
      * rewrite Hs1 by lia. intros [= <-]. split; [by apply covers_spine|done].
      * rewrite Hs2 by (intros ? ? [? _]%nd_inj; lia). intros Hsec.
        apply Hi in Hsec as [Hc _]. apply covers_spine in Hc; [lia|done].
    + rewrite Hp2 by done. rewrite Hs2 by (intros; apply Hn; lia). apply Hi.
  - intros n _ Hc. destruct (spine_dec K n) as [(i & Hle & ->)|Hn]; unfold spine_public.
    + apply covers_spine in Hc; [|done]. rewrite Hs1 by lia. eauto.
    + rewrite Hp2 by done. rewrite Hs2 by (intros; apply Hn; lia). by apply Hi.
  - unfold spine_public. rewrite Hp2; [apply Hi|]. intros i _. rewrite leaf_nd.
    intros [_ ?]%nd_inj. lia.
Qed.

(** Processing the host's path: the member recovers the host's root secret. *)
Lemma process_run K s0 m c :
  tree_inv_on (off_spine K) K m -> 0 < tk_me m -> length s0 = 32%nat ->
  path c = spine K ->
  pub_updates c = (fun x => (x.1, pub_of (tk_profile m) x.2)) <$> keyed_spine K s0 ->
  covers_copath K s0 (spine_public (tk_profile m) K s0 (tk_public m)) (ciphertexts c) ->
  process_update_path c m = (Ok (derive_commit_secret (up s0 K)), followed K s0 m).
Proof.
  intros Hi Hme Hs0 Hpath Hpubs [Hc1 Hc2]. pose proof (ti_me _ _ _ Hi) as Hrange. pose proof (ti_K _ _ _ Hi).
  pose proof (meet_level_lt (tk_me m) K ltac:(lia)) as Hlt. set (a := meet_level (tk_me m)) in *.
  destruct (install_public_lookup (tk_profile m) K s0 (tk_public m)) as [Hp1 Hp2].
  set (pub := spine_public (tk_profile m) K s0 (tk_public m)) in *.
  assert (forall t j, (j <= 20)%nat -> t ∈ resolution pub (nd j 1) -> pub !! t = tk_public m !! t) as Hsame.
  { intros t j Hj Ht. apply Hp2. intros i _. by eapply copath_off_spine. }
  destruct (find_meet_spine pub (tk_secrets m) (tk_me m) K 0 K) as (t & s & Ef & Ht & Hs); try done; try lia.
  { intros n [s Hs]. by eapply Hi. }
  { intros t Ht Hc. apply Hi; [intros j _; by eapply copath_off_spine with (i := a); [lia|]|done|]. rewrite <- (Hsame t a) by (done || lia).
    destruct (copath_range a); [lia|]. apply (resolution_sound pub a 1 t); lia || done. }
  { unfold pub, spine_public. rewrite Hp2; [apply Hi|]. intros i _. rewrite leaf_nd.
    intros [_ ?]%nd_inj. lia. }
  fold a in Ef, Ht. destruct (ti_sec _ _ _ Hi t s Hs) as [_ Hpt]. rewrite <- (Hsame t a) in Hpt by (done || lia).
  unfold process_update_path. unfold st_bind at 1, st_modify at 1. cbv beta iota.
  rewrite Hpubs, adopt_spine. fold pub. unfold st_bind at 1, st_get at 1. cbv beta iota.
  cbn [tk_public tk_secrets tk_profile set_tree]. rewrite Hpath.
  change (spine K) with (nd 0 0 :: spine_from 1 K). cbv beta iota. rewrite Ef.
  destruct (Hc1 a t) as [b Hb]; [lia|done|].
  destruct (list_find (fun x => x.1.1 = nd (S a) 0 /\ x.1.2 = t) (ciphertexts c)) as [[ix x]|] eqn:Ex.
  2:{ apply list_find_None in Ex. rewrite Forall_forall in Ex. by destruct (Ex _ Hb). }
  apply list_find_Some in Ex as (Hx & [Hx1 Hx2] & _). apply list_elem_of_lookup_2 in Hx.
  destruct (Hc2 x Hx) as (i & tp & co & Hik & Hn & _ & Htp & Hseal).
  rewrite Hx1 in Hn. apply nd_inj in Hn as [[= <-] _]. rewrite Hx2, Hpt in Htp. injection Htp as <-.
  apply open_of_seal in Hseal; [|by apply up_len].
  unfold st_bind, st_lift, lift_crypto, st_lift, st_modify, st_ret. cbn [fmap option_fmap option_map ok_or fst snd].
  change (rs_derive_deterministic (tk_profile m) s).1 with (sec_of (tk_profile m) s). rewrite Hseal.
  cbn [map_err]. rewrite climb_spine. unfold followed. fold a. unfold climbed.
  replace (S a + (K - S a))%nat with K by lia. replace (S K - S a)%nat with (S (K - S a)) by lia. done.
Qed.

(** ** Proposals *)

Lemma foldl_delete_lookup {A} (m : gmap Node A) l n :
  foldl (fun m n => delete n m) m l !! n = if decide (n ∈ l) then None else m !! n.
Proof.
  revert m. induction l as [|x l IH]; intros m; cbn; [by rewrite decide_False by set_solver|].
  rewrite IH. destruct (decide (n ∈ l)); [by rewrite decide_True by set_solver|].
  destruct (decide (n = x)) as [->|Hne].
  - rewrite lookup_delete_eq. by rewrite decide_True by set_solver.
  - rewrite lookup_delete_ne by done. by rewrite decide_False by set_solver.
Qed.

Lemma leaf_not_above K l l' : (K <= 20)%nat -> leaf l' ∉ ancestors TREE_FUEL (2 ^ Z.of_nat K) (leaf l).
Proof.
  intros HK. pose proof tree_fuel_big. rewrite !leaf_nd, ancestors_nd by lia.
  intros (i & E & _)%list_elem_of_fmap. apply nd_inj in E as [? _]. lia.
Qed.

Lemma blank_inv K l g : tree_inv K g -> tree_inv K (blank_path_above l g).
Proof.
  intros Hi. unfold blank_path_above. pose proof (ti_K _ _ _ Hi). eapply tree_inv_update; [done|..].
  - intros n p. rewrite foldl_delete_lookup. case_decide; [done|]. apply Hi.
  - intros n p. rewrite foldl_delete_lookup. case_decide; [done|]. apply Hi.
  - intros n s. rewrite !foldl_delete_lookup. case_decide; [done|]. apply Hi.
  - intros n _ Hc. rewrite !foldl_delete_lookup. case_decide; [by intros []|]. by apply Hi.
  - rewrite foldl_delete_lookup, decide_False by (rewrite (ti_cap _ _ _ Hi); apply leaf_not_above; lia).
    apply Hi.
Qed.

Lemma leaf_covers l l' : covers (leaf l) l' <-> l = l'.
Proof. unfold covers, leaf. cbn. lia. Qed.

Lemma leaf_inj l l' : leaf l = leaf l' -> l = l'.
Proof. by intros [=]. Qed.

(** A leaf that is not ours gets a key, or loses it. *)
Lemma put_leaf_inv K g l lp occ :
  tree_inv K g -> l <> tk_me g -> (exists s, lp = pub_of (tk_profile g) s) ->
  zlen occ = zlen (tk_occupied g) -> occ !! Z.to_nat (tk_me g) = Some true ->
  tree_inv K (set_tree g (<[leaf l := lp]> (tk_public g)) occ (tk_secrets g)).
Proof.
  intros Hi Hl Hlp Ho Hom. destruct Hi. split; cbn; try done; try congruence.
  - by apply map_Forall_insert_2.
  - apply map_Forall_insert_2; [|done]. exists 0%nat, l. split; [apply leaf_nd|lia].
  - intros n s Hs. destruct (ti_sec0 n s Hs) as [Hc Hp]. split; [done|].
    rewrite lookup_insert_ne; [done|]. intros <-. by apply leaf_covers in Hc.
  - intros n _ Hc. rewrite lookup_insert_ne; [by apply ti_full0|]. intros <-. by apply leaf_covers in Hc.
  - rewrite lookup_insert_ne; [done|]. by intros ?%leaf_inj.
Qed.

Lemma drop_leaf_inv K g l occ :
  tree_inv K g -> l <> tk_me g ->
  zlen occ = zlen (tk_occupied g) -> occ !! Z.to_nat (tk_me g) = Some true ->
  tree_inv K (set_tree g (delete (leaf l) (tk_public g)) occ (delete (leaf l) (tk_secrets g))).
Proof.
  intros Hi Hl Ho Hom. destruct Hi. split; cbn; try done; try congruence.
  - by apply map_Forall_delete.
  - by apply map_Forall_delete.
  - intros n s [Hne Hs]%lookup_delete_Some. destruct (ti_sec0 n s Hs) as [Hc Hp]. split; [done|].
    by rewrite lookup_delete_ne.
  - intros n _ Hc. rewrite !lookup_delete_ne; [by apply ti_full0|..]; intros <-; by apply leaf_covers in Hc.
  - rewrite lookup_delete_ne; [done|]. by intros ?%leaf_inj.
Qed.

(** Our own leaf gets a new key pair. *)
Lemma own_leaf_inv K g s :
  tree_inv K g ->
  tree_inv K (set_tree g (<[leaf (tk_me g) := pub_of (tk_profile g) s]> (tk_public g)) (tk_occupied g)
                (<[leaf (tk_me g) := s]> (tk_secrets g))).
Proof.
  intros Hi. eapply tree_inv_update; [done|..].
  - apply map_Forall_insert_2; [eauto|apply Hi].
  - apply map_Forall_insert_2; [|apply Hi]. exists 0%nat, (tk_me g). split; [apply leaf_nd|lia].
  - intros n s'. destruct (decide (leaf (tk_me g) = n)) as [<-|Hne].
    + rewrite !lookup_insert_eq. intros [= <-]. split; [by apply leaf_covers|done].
    + rewrite !lookup_insert_ne by done. apply Hi.
  - intros n _ Hc. destruct (decide (leaf (tk_me g) = n)) as [<-|Hne].
    + rewrite !lookup_insert_eq. eauto.
    + rewrite !lookup_insert_ne by done. by apply Hi.
  - rewrite lookup_insert_eq. eauto.
Qed.

(** The fields every member of a group has in common. *)
Record same_view (h m : TreeKemGroup) : Prop := {
  sv_profile : tk_profile h = tk_profile m;
  sv_capacity : tk_capacity h = tk_capacity m;
  sv_public : tk_public h = tk_public m;
  sv_occupied : tk_occupied h = tk_occupied m;
  sv_epoch : tk_epoch h = tk_epoch m;
  sv_keys : tk_leaf_sig_keys h = tk_leaf_sig_keys m }.

(** What a proposal must satisfy for the invariant to survive it at [g]:
    honest keys, and no change to our own leaf except the update we staged. *)
Definition prop_safe (g : TreeKemGroup) (p : Proposal) : Prop :=
  match p with
  | PAdd l lp _ _ => l <> tk_me g /\ exists s, lp = pub_of (tk_profile g) s
  | PRemove l => l <> tk_me g
  | PUpdate l lp sp _ _ =>
      if decide (l = tk_me g)
      then exists kp, tk_pending_update g = Some kp /\ lp = pub_of (tk_profile g) (lk_secret kp) /\
             sp = id_public (id_from_secret_bytes (id_export_secret (lk_sig kp)))
      else exists s, lp = pub_of (tk_profile g) s
  end.

Lemma tree_inv_sigs K g k p : tree_inv K g -> tree_inv K (set_sigs g k p).
Proof. intros []. by split. Qed.
Lemma tree_inv_mine K g s p : tree_inv K g -> tree_inv K (set_mine g s p).
Proof. intros []. by split. Qed.

Lemma zlen_insert {A} (l : list A) i x : zlen (<[i := x]> l) = zlen l.
Proof. unfold zlen. by rewrite length_insert. Qed.

Lemma occ_other K g l b :
  tree_inv K g -> 0 <= l -> l <> tk_me g -> (<[Z.to_nat l := b]> (tk_occupied g)) !! Z.to_nat (tk_me g) = Some true.
Proof.
  intros Hi H0 Hl. rewrite list_lookup_insert_ne; [apply Hi|]. pose proof (ti_me _ _ _ Hi). lia.
Qed.

(** A proposal that is accepted keeps the invariant and the identity fields. *)
Lemma apply_proposal_inv K g g' p :
  tree_inv K g -> 0 <= prop_leaf p -> prop_safe g p -> apply_proposal p g = (Ok tt, g') ->
  tree_inv K g' /\ tk_me g' = tk_me g /\ tk_profile g' = tk_profile g.
Proof.
  intros Hi H0 Hs H. unfold apply_proposal in H. unfold st_bind at 1, st_get at 1 in H.
  case_decide; [done|]. destruct p as [l lp sp pop|l|l lp sp pop auth]; cbn [prop_leaf prop_safe] in *.
  - destruct Hs as [Hl Hlp]. unfold apply_add in H. apply st_bind_Ok in H as ([] & g1 & Hv & H).
    unfold lift_crypto, st_lift in Hv. injection Hv as _ <-. unfold st_modify in H. injection H as <-.
    split; [|done]. apply blank_inv, tree_inv_sigs, put_leaf_inv; try done.
    + apply zlen_insert. + by eapply occ_other.
  - unfold apply_remove, st_modify in H. injection H as <-. split; [|done].
    apply blank_inv, tree_inv_sigs, drop_leaf_inv; try done.
    + apply zlen_insert. + by eapply occ_other.
  - unfold apply_update in H. apply st_bind_Ok in H as ([] & g1 & Hv & H).
    unfold lift_crypto, st_lift in Hv. injection Hv as _ <-.
    unfold st_bind at 1, st_get at 1 in H. case_decide; [done|].
    apply st_bind_Ok in H as (cur & g1 & Hcur & H). unfold st_lift in Hcur. injection Hcur as _ <-.
    apply st_bind_Ok in H as ([] & g1 & Hv & H). unfold lift_crypto, st_lift in Hv. injection Hv as _ <-.
    unfold st_modify in H. injection H as <-. unfold install_pending. cbn [tk_me set_sigs set_tree tk_pending_update].
    destruct (decide (l = tk_me g)) as [->|Hl].
    + destruct Hs as (kp & Hkp & -> & _). rewrite Hkp. split; [|done].
      apply blank_inv, tree_inv_mine.
      exact (tree_inv_sigs K _ (<[tk_me g := sp]> (tk_leaf_sig_keys g)) (<[tk_me g := pop]> (tk_leaf_pops g))
               (own_leaf_inv K g (lk_secret kp) Hi)).
    + split; [|done]. apply blank_inv, tree_inv_sigs, put_leaf_inv; try done. apply Hi.
Qed.

(** A member holds the secret half of the signing key bound to its leaf. *)
Definition member_sig (m : TreeKemGroup) : Prop :=
  exists seed, tk_my_sig m = Some (id_from_secret_bytes seed) /\
    tk_leaf_sig_keys m !! tk_me m = Some (id_public (id_from_secret_bytes seed)).

Lemma apply_proposal_sig g g' p :
  member_sig g -> prop_safe g p -> apply_proposal p g = (Ok tt, g') -> member_sig g'.
Proof.
  intros (seed & Hsig & Hkey) Hs H. unfold apply_proposal in H. unfold st_bind at 1, st_get at 1 in H.
  case_decide; [done|]. destruct p as [l lp sp pop|l|l lp sp pop auth]; cbn [prop_safe] in Hs.
  - destruct Hs as [Hl _]. unfold apply_add, st_bind, lift_crypto, st_lift, st_modify in *.
    destruct (verify_pop sp pop) as [[]|]; cbn in *; [|done]. injection H as <-. exists seed. cbn.
    by rewrite lookup_insert_ne.
  - unfold apply_remove, st_modify in *. injection H as <-. exists seed. cbn. by rewrite lookup_delete_ne.
  - unfold apply_update, st_bind, lift_crypto, st_lift, st_modify, st_get in *.
    destruct (verify_pop sp pop) as [[]|]; cbn in *; [|done].
    case_decide; [done|]. destruct (tk_leaf_sig_keys g !! l) as [cur|]; cbn in *; [|done].
    destruct (id_verify cur _ auth) as [[]|]; cbn in *; [|done]. injection H as <-.
    unfold install_pending. cbn. destruct (decide (l = tk_me g)) as [->|Hl].
    + destruct Hs as (kp & Hkp & _ & ->). rewrite Hkp. eexists. cbn. split; [done|].
      apply lookup_insert_eq.
    + exists seed. cbn. by rewrite lookup_insert_ne.
Qed.

(** A member with the host's view accepts what the host accepted. *)
Lemma apply_proposal_view h h' m p :
  same_view h m -> apply_proposal p h = (Ok tt, h') ->
  exists m', apply_proposal p m = (Ok tt, m') /\ same_view h' m'.
Proof.
  intros [Vp Vc Vt Vo Ve Vk] H. unfold apply_proposal in *.
  unfold st_bind at 1, st_get at 1 in H. unfold st_bind at 1, st_get at 1. rewrite Vo in H.
  case_decide; [done|]. destruct p as [l lp sp pop|l|l lp sp pop auth].
  - unfold apply_add, st_bind, lift_crypto, st_lift, st_modify in *.
    destruct (verify_pop sp pop) as [[]|]; cbn in *; [|done]. injection H as <-.
    eexists. split; [done|]. unfold blank_path_above. by split; cbn; rewrite ?Vc, ?Vt, ?Vo, ?Vk.
  - unfold apply_remove, st_modify in *. injection H as <-.
    eexists. split; [done|]. unfold blank_path_above. by split; cbn; rewrite ?Vc, ?Vt, ?Vo, ?Vk.
  - unfold apply_update, st_bind, lift_crypto, st_lift, st_modify, st_get in *.
    destruct (verify_pop sp pop) as [[]|]; cbn in *; [|done]. rewrite Vo, Vk in H.
    case_decide; [done|]. destruct (tk_leaf_sig_keys m !! l) as [cur|]; cbn in *; [|done].
    destruct (id_verify cur _ auth) as [[]|]; cbn in *; [|done]. injection H as <-.
    eexists. split; [done|]. unfold blank_path_above, install_pending. cbn.
    destruct (decide (l = tk_me h)), (decide (l = tk_me m)),
      (tk_pending_update h), (tk_pending_update m); by split; cbn; rewrite ?Vc, ?Vt, ?Vo, ?Vk.
Qed.

(** ** Applying the host's commit *)

Lemma apply_commit_run K s0 m m2 m3 seed props sigup cts :
  let k := id_from_secret_bytes seed in
  let c0 := path_commit (tk_profile m2) K s0 (2 ^ Z.of_nat K) props sigup cts [] in
  let c := path_commit (tk_profile m2) K s0 (2 ^ Z.of_nat K) props sigup cts
             (id_sign k (commit_auth_transcript (tk_epoch m) 0 (commit_encode_body c0))) in
  tk_leaf_sig_keys m !! 0 = Some (id_public k) ->
  apply_proposals props
    (if decide (2 ^ Z.of_nat K > tk_capacity m) then set_capacity m (2 ^ Z.of_nat K) else m) = (Ok tt, m2) ->
  m3 = match sigup with
       | None => m2
       | Some (l, sp, pop) =>
           set_sigs m2 (<[l := sp]> (tk_leaf_sig_keys m2)) (<[l := pop]> (tk_leaf_pops m2))
       end ->
  match sigup with
  | None => True
  | Some (l, sp, pop) => l = 0 /\ tk_occupied m2 !! 0%nat = Some true /\ verify_pop sp pop = Ok tt
  end ->
  tree_inv_on (off_spine K) K m2 -> 0 < tk_me m2 -> length s0 = 32%nat ->
  covers_copath K s0 (spine_public (tk_profile m2) K s0 (tk_public m2)) cts ->
  apply_commit c m =
    (Ok tt, enter_epoch (followed K s0 m3) (u32_add (tk_epoch m2) 1) (derive_commit_secret (up s0 K))).
Proof.
  intros k c0 c Hkey Hprops Hm3 Hsig Hi Hme Hs0 Hcts.
  assert (process_update_path c m3 = (Ok (derive_commit_secret (up s0 K)), followed K s0 m3)) as Hproc.
  { apply process_run; try done.
    - subst m3. destruct sigup as [[[? ?] ?]|]; [|done]. destruct Hi. by split.
    - subst m3. by destruct sigup as [[[? ?] ?]|].
    - subst m3. by destruct sigup as [[[? ?] ?]|].
    - subst m3. by destruct sigup as [[[? ?] ?]|]. }
  unfold apply_commit. unfold st_bind at 1, st_get at 1. cbv beta iota.
  assert (path c = leaf 0 :: spine_from 1 K) as Hp by done. rewrite Hp. cbv beta iota.
  cbn [span lo leaf]. rewrite decide_True by done. unfold st_bind at 1, st_ret at 1.
  rewrite decide_False by (unfold HOST_LEAF; lia). unfold st_bind at 1, st_lift at 1, HOST_LEAF.
  rewrite Hkey. cbn [ok_or]. unfold st_bind at 1, lift_crypto, st_lift at 1.
  assert (id_verify (id_public k) (commit_auth_transcript (tk_epoch m) 0 (commit_encode_body c)) (commit_sig c)
    = Ok tt) as Hver by apply (id_verify_sign seed).
  rewrite Hver. cbn [map_err]. unfold apply_verified. unfold st_bind at 1, st_get at 1. cbv beta iota.
  assert ((if decide (new_capacity c > tk_capacity m)
           then st_modify (E:=fault) (fun g => set_capacity g (new_capacity c)) else st_ret tt) m =
    (Ok tt, if decide (2 ^ Z.of_nat K > tk_capacity m) then set_capacity m (2 ^ Z.of_nat K) else m))
    as Hcap by (cbn [new_capacity c path_commit]; by case_decide).
  unfold st_bind at 1. rewrite Hcap. clear Hcap.
  unfold st_bind at 1. change (proposals c) with props. rewrite Hprops.
  unfold st_bind at 1. change (sig_update c) with sigup.
  assert (tk_epoch m3 = tk_epoch m2) as He by (subst m3; by destruct sigup as [[[? ?] ?]|]).
  assert (forall x, x = (Ok tt, m3) -> match x with
    | (Ok a, s') => (do* secret := process_update_path c in
        st_modify (fun g => enter_epoch g (u32_add (tk_epoch g) 1) secret)) s'
    | (Err e, s') => (Err e, s') end =
    (Ok tt, enter_epoch (followed K s0 m3) (u32_add (tk_epoch m2) 1) (derive_commit_secret (up s0 K))))
    as Hend by (intros x ->; unfold st_bind; rewrite Hproc; unfold st_modify; cbn; by rewrite He).
  apply Hend. unfold apply_sig_update. destruct sigup as [[[l sp] pop]|].
  - destruct Hsig as (-> & Ho & Hv). unfold st_bind, st_get. rewrite decide_False by auto.
    change (Z.to_nat 0) with 0%nat. rewrite decide_False by auto. unfold lift_crypto, st_lift. rewrite Hv.
    subst m3. done.
  - subst m3. done.
Qed.

(** ** Host and member together *)

(** Every signing key in the roster has its leaf in the tree and a proof of
    possession that verifies. *)
Definition roster_ok (h : TreeKemGroup) : Prop :=
  forall l k, tk_leaf_sig_keys h !! l = Some k ->
    is_Some (tk_public h !! leaf l) /\
    exists pop, tk_leaf_pops h !! l = Some pop /\ verify_pop k pop = Ok tt.

Record host_inv (K : nat) (h : TreeKemGroup) : Prop := {
  hi_tree : tree_inv K h;
  hi_roster : roster_ok h;
  hi_me : tk_me h = 0;
  hi_sig : exists seed, tk_my_sig h = Some (id_from_secret_bytes seed) /\
             tk_leaf_sig_keys h !! 0 = Some (id_public (id_from_secret_bytes seed)) }.

Record synced (K : nat) (h m : TreeKemGroup) : Prop := {
  sy_view : same_view h m;
  sy_secret : tk_epoch_secret h = tk_epoch_secret m;
  sy_tree : tree_inv K m;
  sy_me : 0 < tk_me m;
  sy_sig : member_sig m }.

(** The member, resized to the commit's capacity. *)
Definition resized (K : nat) (m : TreeKemGroup) : TreeKemGroup :=
  if decide (2 ^ Z.of_nat K > tk_capacity m) then set_capacity m (2 ^ Z.of_nat K) else m.

Lemma st_iter_one {S E A} (f : A -> ST S E unit) a s : st_iter f [a] s = f a s.
Proof. cbn. unfold st_bind. by destruct (f a s) as [[[]|] ?]. Qed.

(** A proposal-carrying commit of the host, at a member that has followed the
    same proposals. *)
Lemma host_commit_agrees cs K ps h1 h2 c m m1 :
  host_inv K h1 -> rekey_path cs ps None h1 = (Ok c, h2) ->
  apply_proposals ps (resized K m) = (Ok tt, m1) -> tk_epoch m = tk_epoch h1 ->
  tk_leaf_sig_keys m !! 0 = tk_leaf_sig_keys h1 !! 0 ->
  same_view h1 m1 -> tree_inv K m1 -> 0 < tk_me m1 -> member_sig m1 ->
  exists m2, apply_commit c m = (Ok tt, m2) /\ synced K h2 m2 /\ tk_me m2 = tk_me m1.
Proof.
  intros [Hi Hro Hme (seed & Hsig & Hkey)] Hr Hps He Hk0 [Vp Vc Vt Vo Ve Vk] Hm Hpos Hms.
  destruct (rekey_run cs ps None h1 K _ Hi Hme Hsig) as (cts & Hcov & E). rewrite E in Hr.
  injection Hr as <- <-. rewrite (ti_cap _ _ _ Hi) in *. rewrite Vp, Vt in Hcov.
  pose proof (apply_commit_run K (random_bytes (cs 0%nat) 32) m m1 m1 seed ps None cts) as Happ.
  cbv zeta in Happ. rewrite Hk0, Hkey, He, <- Vp in Happ.
  eexists. split; [apply Happ; try done|split; [split|]].
  - by apply tree_inv_weaken.
  - apply random_bytes_len.
  - by rewrite Vp.
  - by split; cbn; rewrite ?Vp, ?Vt, ?(ti_cap _ _ _ Hi), ?Vo, ?Ve, ?Vk.
  - done.
  - apply tree_inv_epoch, followed_inv; [by apply tree_inv_weaken|done].
  - done.
  - exact Hms.
  - done.
Qed.

Lemma spine_is_some prof K s0 m n : is_Some (m !! n) -> is_Some (spine_public prof K s0 m !! n).
Proof.
  destruct (install_public_lookup prof K s0 m) as [H1 H2]. unfold spine_public.
  destruct (spine_dec K n) as [(i & Hi & ->)|Hn]; [rewrite H1 by done; eauto|by rewrite H2].
Qed.

Lemma rekeyed_roster K s0 h : roster_ok h -> roster_ok (rekeyed K s0 h).
Proof. intros Hr l k Hk. destruct (Hr l k Hk) as [? ?]. split; [by apply spine_is_some|done]. Qed.

Lemma blank_leaf K l l' g :
  tree_inv K g -> tk_public (blank_path_above l g) !! leaf l' = tk_public g !! leaf l'.
Proof.
  intros Hi. cbn. rewrite foldl_delete_lookup, decide_False; [done|].
  rewrite (ti_cap _ _ _ Hi). apply leaf_not_above. pose proof (ti_K _ _ _ Hi). lia.
Qed.

(** The roster after leaf [l] gets a key with a proof of possession. *)
Lemma roster_put l lp sp pop occ sec g :
  roster_ok g -> verify_pop sp pop = Ok tt ->
  roster_ok (set_sigs (set_tree g (<[leaf l := lp]> (tk_public g)) occ sec)
               (<[l := sp]> (tk_leaf_sig_keys g)) (<[l := pop]> (tk_leaf_pops g))).
Proof.
  intros Hr Hv l' k. cbn. destruct (decide (l = l')) as [<-|Hne].
  - rewrite !lookup_insert_eq. intros [= <-]. eauto.
  - rewrite !lookup_insert_ne by (done || by intros ?%leaf_inj). apply Hr.
Qed.

Lemma roster_install l g : roster_ok g -> roster_ok (install_pending l g).
Proof. intros Hr. unfold install_pending. case_decide; [|done]. by destruct (tk_pending_update g). Qed.

Lemma blank_capacity_roster K l g :
  (K <= 20)%nat -> tk_capacity g = 2 ^ Z.of_nat K -> roster_ok g -> roster_ok (blank_path_above l g).
Proof.
  intros HK Hc Hr l' k Hk. cbn. rewrite foldl_delete_lookup, decide_False; [by apply Hr|].
  rewrite Hc. by apply leaf_not_above.
Qed.

Lemma apply_proposal_roster K h h1 p :
  tree_inv K h -> roster_ok h -> apply_proposal p h = (Ok tt, h1) -> roster_ok h1.
Proof.
  intros Hi Hr H. pose proof (ti_K _ _ _ Hi) as HK. pose proof (ti_cap _ _ _ Hi) as Hc.
  unfold apply_proposal in H. unfold st_bind at 1, st_get at 1 in H. case_decide; [done|].
  destruct p as [l lp sp pop|l|l lp sp pop auth].
  - unfold apply_add, st_bind, lift_crypto, st_lift, st_modify in *.
    destruct (verify_pop sp pop) as [[]|] eqn:Ev; cbn in H; [|done]. injection H as <-.
    apply (blank_capacity_roster K); [lia|done|]. by apply roster_put.
  - unfold apply_remove, st_modify in *. injection H as <-.
    apply (blank_capacity_roster K); [lia|done|]. intros l' k. cbn.
    intros [Hne Hk]%lookup_delete_Some. rewrite !lookup_delete_ne by (done || by intros ?%leaf_inj).
    by apply Hr.
  - unfold apply_update, st_bind, lift_crypto, st_lift, st_modify, st_get in *.
    destruct (verify_pop sp pop) as [[]|] eqn:Ev; cbn in H; [|done].
    case_decide; [done|]. destruct (tk_leaf_sig_keys h !! l) as [cur|]; cbn in H; [|done].
    destruct (id_verify cur _ auth) as [[]|]; cbn in H; [|done]. injection H as <-.
    apply (blank_capacity_roster K); [lia| |by apply roster_install, roster_put].
    unfold install_pending. case_decide; [|done]. cbn. by destruct (tk_pending_update h).
Qed.

Lemma rekey_total cs ps sigup K h :
  host_inv K h -> exists c, rekey_path cs ps sigup h = (Ok c, rekeyed K (random_bytes (cs 0%nat) 32) h) /\
    host_inv K (rekeyed K (random_bytes (cs 0%nat) 32) h).
Proof.
  intros [Hi Hro Hme (seed & Hsig & Hkey)].
  destruct (rekey_run cs ps sigup h K _ Hi Hme Hsig) as (cts & _ & E).
  eexists. split; [exact E|]. split; [by apply rekeyed_inv|by apply rekeyed_roster|done|]. by exists seed.
Qed.

(** A safe proposal at the host keeps its signing key. *)
Lemma apply_proposal_host K h h1 p :
  host_inv K h -> 0 < prop_leaf p -> prop_safe h p -> apply_proposal p h = (Ok tt, h1) ->
  host_inv K h1 /\ tk_epoch h1 = tk_epoch h /\ tk_leaf_sig_keys h1 !! 0 = tk_leaf_sig_keys h !! 0.
Proof.
  intros [Hi Hro Hme (seed & Hsig & Hkey)] Hl Hs H.
  destruct (apply_proposal_inv K h h1 p Hi ltac:(lia) Hs H) as (Hi1 & Hme1 & _).
  assert (tk_my_sig h1 = tk_my_sig h /\ tk_epoch h1 = tk_epoch h /\
    tk_leaf_sig_keys h1 !! 0 = tk_leaf_sig_keys h !! 0) as (E1 & E2 & E3).
  { unfold apply_proposal in H. unfold st_bind at 1, st_get at 1 in H. case_decide; [done|].
    destruct p as [l lp sp pop|l|l lp sp pop auth]; cbn [prop_leaf] in Hl.
    - unfold apply_add, st_bind, lift_crypto, st_lift, st_modify in *.
      destruct (verify_pop sp pop) as [[]|]; cbn in *; [|done]. injection H as <-. cbn.
      rewrite lookup_insert_ne by lia. done.
    - unfold apply_remove, st_modify in *. injection H as <-. cbn. rewrite lookup_delete_ne by lia. done.
    - unfold apply_update, st_bind, lift_crypto, st_lift, st_modify, st_get in *.
      destruct (verify_pop sp pop) as [[]|]; cbn in *; [|done].
      case_decide; [done|]. destruct (tk_leaf_sig_keys h !! l) as [cur|]; cbn in *; [|done].
      destruct (id_verify cur _ auth) as [[]|]; cbn in *; [|done]. injection H as <-.
      unfold install_pending. cbn. rewrite decide_False by lia. cbn.
      rewrite lookup_insert_ne by lia. done. }
  split; [|done].
  split; [done|exact (apply_proposal_roster K h h1 p Hi Hro H)|congruence|]. exists seed. by rewrite E1, E3.
Qed.

(** One safe proposal, committed by the host and applied by a member. *)
Lemma proposal_commit_agrees cs K p h h1 :
  host_inv K h -> 0 < prop_leaf p -> prop_safe h p -> apply_proposals [p] h = (Ok tt, h1) ->
  exists c h2, rekey_path cs [p] None h1 = (Ok c, h2) /\ host_inv K h2 /\
    forall m, same_view h (resized K m) -> tree_inv K (resized K m) -> 0 < tk_me m ->
      tk_epoch m = tk_epoch h -> tk_leaf_sig_keys m !! 0 = tk_leaf_sig_keys h !! 0 ->
      prop_safe (resized K m) p -> member_sig m ->
      exists m2, apply_commit c m = (Ok tt, m2) /\ synced K h2 m2 /\ tk_me m2 = tk_me m.
Proof.
  intros Hh Hl Hs Hp. unfold apply_proposals in Hp. rewrite st_iter_one in Hp.
  destruct (apply_proposal_host K h h1 p Hh Hl Hs Hp) as (Hh1 & He & Hk).
  destruct (rekey_total cs [p] None K h1 Hh1) as (c & Hr & Hh2).
  exists c, (rekeyed K (random_bytes (cs 0%nat) 32) h1). split; [done|]. split; [done|].
  intros m Hv Hi Hpos Hem Hkm Hsm Hms.
  destruct (apply_proposal_view _ _ _ _ Hv Hp) as (m1 & Hm1 & Hv1).
  destruct (apply_proposal_inv K _ m1 p Hi ltac:(lia) Hsm Hm1) as (Hi1 & Hme1 & _).
  assert (tk_me (resized K m) = tk_me m) as Hrm by (unfold resized; by case_decide).
  rewrite Hrm in Hme1. rewrite <- Hme1.
  apply (host_commit_agrees cs K [p] h1 _ c m m1); try done; try congruence.
  - unfold apply_proposals. by rewrite st_iter_one.
  - eapply apply_proposal_sig; [|done..]. destruct Hms as (seed & ? & ?). exists seed.
    unfold resized. by case_decide.
Qed.
End Agreement.
