(* ===== verification/TreeGroup.v ===== *)
(** * Whole TreeKEM groups

    A [world] is a host and its members; [run_op] performs one membership
    operation the way the engine drives it: the host commits, every other
    member applies the commit, a joiner enters from the welcome.
    [group_agreement] says that from the founding on no such operation fails
    and all members always share the epoch and its secret. *)

From S2P Require Import Prelude Wire Crypto Hybrid Ratchet TreeNode TreeCodec TreeKem TreeAgree Toy.

Section Group.
Context {P : Primitives} {POk : PrimitivesOk P}.

(** ** Growing the tree *)

Lemma resize_grow {A} (n : nat) (d : A) (l : list A) :
  (length l <= n)%nat -> resize n d l = l ++ replicate (n - length l) d.
Proof.
  intros Hn. unfold resize. case_decide as Hd; [|done].
  assert (n = length l) as -> by lia. by rewrite firstn_all, Nat.sub_diag, app_nil_r.
Qed.

Lemma set_capacity_inv Q K g :
  tree_inv_on Q K g -> (S K <= 20)%nat -> tree_inv_on Q (S K) (set_capacity g (2 ^ Z.of_nat (S K))).
Proof.
  intros [] HK. pose proof (pow_S K) as HpS. pose proof (pow_pos K).
  assert (resize (Z.to_nat (2 ^ Z.of_nat (S K))) false (tk_occupied g) =
    tk_occupied g ++ replicate (Z.to_nat (2 ^ Z.of_nat (S K)) - length (tk_occupied g)) false) as Hr.
  { apply resize_grow. unfold zlen in *. lia. }
  split; cbn [tk_capacity tk_occupied tk_me tk_public tk_secrets tk_profile set_capacity]; try done; try lia.
  - rewrite Hr, zlen_app. unfold zlen in *. rewrite length_replicate. lia.
  - rewrite Hr. by apply lookup_app_l_Some.
  - eapply map_Forall_impl; [done|]. intros n p (j & q & -> & ?). exists j, q. split; [done|lia].
Qed.

Lemma double_capacity_eq K g :
  tk_capacity g = 2 ^ Z.of_nat K -> (S K <= 20)%nat ->
  double_capacity g = set_capacity g (2 ^ Z.of_nat (S K)).
Proof.
  intros Hc HK. unfold double_capacity. rewrite Hc, Z.mul_comm, <- pow_S.
  pose proof (pow_le (S K) 20 HK) as Hp. change (2 ^ Z.of_nat 20) with (2 ^ 20) in Hp.
  pose proof (pow_pos (S K)). by rewrite u32_wrap_small by (unfold is_u32; lia).
Qed.

Lemma first_free_spec g l :
  first_free_leaf g = Some l -> 0 <= l < zlen (tk_occupied g) /\ tk_occupied g !! Z.to_nat l = Some false.
Proof.
  unfold first_free_leaf. destruct (list_find _ _) as [[i x]|] eqn:E; [|done]. intros [= <-].
  apply list_find_Some in E as (Hi & -> & _). pose proof (lookup_lt_Some _ _ _ Hi).
  unfold zlen. rewrite Nat2Z.id. split; [lia|done].
Qed.

Lemma first_free_none g : first_free_leaf g = None -> Forall (fun o => o = true) (tk_occupied g).
Proof.
  unfold first_free_leaf. destruct (list_find _ _) as [[i x]|] eqn:E; [done|]. intros _.
  apply list_find_None in E. eapply Forall_impl; [done|]. by intros [].
Qed.

Lemma first_free_doubled K g :
  tree_inv K g -> (S K <= 20)%nat -> is_Some (first_free_leaf (set_capacity g (2 ^ Z.of_nat (S K)))).
Proof.
  intros Hi HK. unfold first_free_leaf. cbn [tk_occupied set_capacity]. pose proof (ti_occ _ _ _ Hi).
  pose proof (pow_S K). pose proof (pow_pos K). rewrite resize_grow by (unfold zlen in *; lia).
  destruct (list_find _ _) as [[i x]|] eqn:E; [eauto|]. exfalso.
  apply list_find_None, Forall_app in E as [_ E].
  destruct (Z.to_nat (2 ^ Z.of_nat (S K)) - length (tk_occupied g))%nat eqn:En; [unfold zlen in *; lia|].
  cbn in E. by apply Forall_cons in E as [E _].
Qed.

Lemma host_double K h :
  host_inv K h -> (S K <= 20)%nat -> host_inv (S K) (set_capacity h (2 ^ Z.of_nat (S K))).
Proof. intros [Hi Hro Hme Hsig] HK. split; [by apply set_capacity_inv|done..]. Qed.

(** ** Adding a member *)

(** A key pair whose halves belong together, for the group's profile. *)
Record joiner_ok (h : TreeKemGroup) (kp : LeafKeyPair) : Prop := {
  jo_profile : lk_profile kp = tk_profile h;
  jo_sig : lk_sig kp = id_from_secret_bytes (sig_seed (lk_sig kp)) }.

Lemma package_pop kp :
  lk_sig kp = id_from_secret_bytes (sig_seed (lk_sig kp)) ->
  verify_pop (kp_sig_public (lk_key_package kp)) (kp_pop (lk_key_package kp)) = Ok tt.
Proof. intros Hs. unfold verify_pop, lk_key_package. cbn. rewrite Hs, id_verify_sign. done. Qed.

(** The capacity the host works with when it adds. *)
Definition grown (h : TreeKemGroup) : TreeKemGroup :=
  match first_free_leaf h with None => double_capacity h | Some _ => h end.

Definition room (h : TreeKemGroup) : Prop := is_Some (first_free_leaf h) \/ tk_capacity h < 2 ^ 20.

Lemma grown_inv K h :
  host_inv K h -> room h ->
  exists K', host_inv K' (grown h) /\ is_Some (first_free_leaf (grown h)) /\
    forall m, synced K h m -> same_view (grown h) (resized K' m) /\ tree_inv K' (resized K' m).
Proof.
  intros Hh Hroom. pose proof (ti_cap _ _ _ (hi_tree _ _ Hh)) as Hcap. unfold grown.
  destruct (first_free_leaf h) as [l|] eqn:Ef.
  - exists K. split; [done|]. split; [eauto|]. intros m [[] _ Hi _ _]. unfold resized.
    rewrite decide_False by (rewrite <- Hcap; lia). done.
  - assert (S K <= 20)%nat as HK.
    { destruct Hroom as [[]|Hlt]; [congruence|]. rewrite Hcap in Hlt.
      destruct (decide (S K <= 20)%nat); [done|]. pose proof (pow_le 20 K ltac:(lia)) as Hp.
      change (2 ^ Z.of_nat 20) with (2 ^ 20) in Hp. lia. }
    rewrite (double_capacity_eq K) by done. exists (S K).
    split; [by apply host_double|]. split; [apply first_free_doubled; [apply Hh|done]|].
    intros m [[] _ Hi _ _]. unfold resized. rewrite decide_True.
    + split; [split; cbn; congruence|by apply set_capacity_inv].
    + rewrite <- sv_capacity, Hcap, pow_S. pose proof (pow_pos K). lia.
Qed.

Lemma add_accepts K h l kp :
  tree_inv K h -> joiner_ok h kp -> 0 <= l < zlen (tk_occupied h) ->
  let pkg := lk_key_package kp in
  exists h1, apply_proposals [PAdd l (kp_leaf_public pkg) (kp_sig_public pkg) (kp_pop pkg)] h = (Ok tt, h1) /\
    h1 = blank_path_above l (set_sigs
           (set_tree h (<[leaf l := kp_leaf_public pkg]> (tk_public h))
              (<[Z.to_nat l := true]> (tk_occupied h)) (tk_secrets h))
           (<[l := kp_sig_public pkg]> (tk_leaf_sig_keys h)) (<[l := kp_pop pkg]> (tk_leaf_pops h))).
Proof.
  intros Hi [Hp Hs] Hl pkg. eexists. split; [|done]. unfold apply_proposals. rewrite st_iter_one.
  unfold apply_proposal. unfold st_bind at 1, st_get at 1. cbn [prop_leaf]. rewrite decide_False by lia.
  unfold apply_add, st_bind, lift_crypto, st_lift, st_modify. unfold pkg. by rewrite package_pop.
Qed.

Lemma add_run cs K h kp :
  host_inv K h -> room h -> joiner_ok h kp ->
  let pkg := lk_key_package kp in
  exists K' l h1 c h2,
    let p := PAdd l (kp_leaf_public pkg) (kp_sig_public pkg) (kp_pop pkg) in
    host_inv K' (grown h) /\ first_free_leaf (grown h) = Some l /\
    apply_proposals [p] (grown h) = (Ok tt, h1) /\ rekey_path cs [p] None h1 = (Ok c, h2) /\
    host_inv K' h2 /\
    add cs pkg h = (Ok (l, c, mkWelcome (tk_capacity h2) (map_to_list (tk_public h2)) (tk_occupied h2)
                                (tk_epoch h2) l (welcome_members h2) c), h2) /\
    0 < l < 2 ^ Z.of_nat K' /\ host_inv K' h1 /\
    forall m, synced K h m ->
      exists m2, apply_commit c m = (Ok tt, m2) /\ synced K' h2 m2 /\ tk_me m2 = tk_me m /\ tk_me m <> l.
Proof.
  intros Hh Hroom Hj pkg. destruct (grown_inv K h Hh Hroom) as (K' & Hg & [l Hl] & Hmem).
  destruct (first_free_spec _ _ Hl) as [Hrange Hfree]. pose proof (hi_tree _ _ Hg) as Hi.
  pose proof (ti_occ _ _ _ Hi) as Hocc. pose proof (ti_occ_me _ _ _ Hi) as Hocc0.
  rewrite (hi_me _ _ Hg) in Hocc0. change (Z.to_nat 0) with 0%nat in Hocc0.
  assert (0 < l) as Hpos.
  { destruct (decide (l = 0)) as [->|]; [|lia]. change (Z.to_nat 0) with 0%nat in Hfree. congruence. }
  assert (joiner_ok (grown h) kp) as Hjg.
  { destruct Hj. split; [|done]. unfold grown. by destruct (first_free_leaf h). }
  destruct (add_accepts K' (grown h) l kp Hi Hjg Hrange) as (h1 & Hp & _). fold pkg in Hp.
  set (p := PAdd l (kp_leaf_public pkg) (kp_sig_public pkg) (kp_pop pkg)) in *.
  assert (forall g, tk_profile g = tk_profile (grown h) -> tk_me g <> l -> prop_safe g p) as Hsafe.
  { intros g Hgp Hgl. split; [done|]. exists (lk_secret kp). cbn. rewrite (jo_profile _ _ Hjg), Hgp. done. }
  destruct (proposal_commit_agrees cs K' p (grown h) h1) as (c & h2 & Hr & Hh2 & Hm); [done|done| |done|].
  { apply Hsafe; [done|]. rewrite (hi_me _ _ Hg). lia. }
  exists K', l, h1, c, h2. cbv zeta. fold p. do 5 (split; [done|]). split; [|split; [lia|split]].
  - assert ((match first_free_leaf h with None => st_modify (E:=fault) double_capacity | Some _ => st_ret tt end) h
      = (Ok tt, grown h)) as Hgrow by (unfold grown; by destruct (first_free_leaf h)).
    unfold add. unfold st_bind at 1, st_get at 1. unfold st_bind at 1. rewrite Hgrow.
    unfold st_bind at 1, st_get at 1. unfold st_bind at 1, st_expect, st_lift. rewrite Hl. cbn [ok_or].
    fold p. unfold st_bind at 1. rewrite Hp. unfold st_bind at 1. rewrite Hr. done.
  - unfold apply_proposals in Hp. rewrite st_iter_one in Hp.
    apply (apply_proposal_host K' (grown h) h1 p); [done|done| |done].
    apply Hsafe; [done|]. rewrite (hi_me _ _ Hg). lia.
  - intros m Hsy. destruct (Hmem m Hsy) as [Hv Hti].
    assert (tk_me (resized K' m) = tk_me m) as Hrm by (unfold resized; by case_decide).
    assert (tk_me m <> l) as Hne.
    { intros E. pose proof (ti_occ_me _ _ _ Hti) as Ho. rewrite Hrm, E in Ho.
      rewrite <- (sv_occupied _ _ Hv) in Ho. congruence. }
    assert (tk_epoch (grown h) = tk_epoch h /\ tk_leaf_sig_keys (grown h) = tk_leaf_sig_keys h) as [He Hk].
    { unfold grown. by destruct (first_free_leaf h). }
    destruct Hsy as [Hv0 ? ? ? ?]. pose proof (sv_epoch _ _ Hv0). pose proof (sv_keys _ _ Hv0).
    destruct (Hm m) as (m2 & ? & ? & ?); try done; try congruence.
    { apply Hsafe; [by rewrite <- (sv_profile _ _ Hv)|congruence]. }
    eauto 10.
Qed.

(** ** Joining *)

Lemma foldl_insert_fresh `{Countable A} {B} (l : list (A * B)) (m : gmap A B) :
  NoDup l.*1 -> (forall k, k ∈ l.*1 -> m !! k = None) ->
  foldl (fun m x => <[x.1 := x.2]> m) m l = list_to_map l ∪ m.
Proof.
  revert m. induction l as [|[k v] l IH]; intros m Hn Hd; cbn in *.
  { by rewrite (left_id_L ∅ (∪)). }
  apply NoDup_cons in Hn as [Hk Hn]. rewrite IH; [|done|].
  - assert ((list_to_map l : gmap A B) !! k = None) as Hl by (by apply not_elem_of_list_to_map_1).
    rewrite <- insert_union_r by done. by rewrite insert_union_l.
  - intros k' Hk'. rewrite lookup_insert_ne by (intros ->; done). apply Hd. by right.
Qed.

(** Collecting a map's entries gives the map back, in whatever order. *)
Lemma collect_map `{Countable A} {B} (m : gmap A B) :
  foldl (fun m x => <[x.1 := x.2]> m) ∅ (map_to_list m) = m.
Proof.
  rewrite foldl_insert_fresh.
  - by rewrite (right_id_L ∅ (∪)), list_to_map_to_list.
  - apply NoDup_fst_map_to_list.
  - intros k _. apply lookup_empty.
Qed.

Lemma learn_run (g : TreeKemGroup) (L : list (Z * IdentityPublic)) keys pops :
  Forall (fun x => is_Some (tk_public g !! leaf x.1) /\
    exists pop, tk_leaf_pops g !! x.1 = Some pop /\ verify_pop x.2 pop = Ok tt) L ->
  exists pops', learn_members (omap (fun x : Z * IdentityPublic =>
      lp ← tk_public g !! leaf x.1; pop ← tk_leaf_pops g !! x.1; Some (x.1, lp, x.2, pop)) L) keys pops =
    Ok (foldl (fun m x => <[x.1 := x.2]> m) keys L, pops').
Proof.
  intros H. revert keys pops. induction H as [|[l k] L [[lp Hlp] (pop & Hpop & Hv)] HL IH]; intros keys pops.
  { by exists pops. }
  cbn in *. rewrite Hlp, Hpop. cbn. rewrite Hv. cbn. apply IH.
Qed.

Lemma learn_welcome h :
  roster_ok h -> exists pops, learn_members (welcome_members h) ∅ ∅ = Ok (tk_leaf_sig_keys h, pops).
Proof.
  intros Hr. unfold welcome_members.
  destruct (learn_run h (map_to_list (tk_leaf_sig_keys h)) ∅ ∅) as [pops E].
  - apply Forall_forall. intros [l k] Hin%elem_of_map_to_list. by apply Hr.
  - exists pops. by rewrite E, collect_map.
Qed.

Lemma spine_public_idem prof K s0 m :
  spine_public prof K s0 (spine_public prof K s0 m) = spine_public prof K s0 m.
Proof.
  apply map_eq. intros n. destruct (install_public_lookup prof K s0 m) as [H1 H2].
  destruct (install_public_lookup prof K s0 (spine_public prof K s0 m)) as [H3 H4].
  destruct (spine_dec K n) as [(i & Hi & ->)|Hn].
  - unfold spine_public at 1 3. by rewrite H3, H1.
  - unfold spine_public at 1. by rewrite H4.
Qed.

(** Above the new leaf only the committer's path carries keys. *)
Lemma fresh_leaf_alone K l lp occ keys pops s0 h n :
  tree_inv K h -> 0 < l < 2 ^ Z.of_nat K ->
  let h1 := blank_path_above l (set_sigs (set_tree h (<[leaf l := lp]> (tk_public h)) occ (tk_secrets h)) keys pops) in
  off_spine K n -> covers n l -> is_Some (spine_public (tk_profile h) K s0 (tk_public h1) !! n) -> n = leaf l.
Proof.
  intros Hi Hl h1 Hoff Hc. destruct (install_public_lookup (tk_profile h) K s0 (tk_public h1)) as [_ H2].
  unfold spine_public. rewrite H2 by done. unfold h1. cbn. rewrite foldl_delete_lookup.
  case_decide as Hin; [by intros []|]. destruct (decide (leaf l = n)) as [<-|Hne]; [done|].
  rewrite lookup_insert_ne by done. intros [p Hp]. exfalso.
  destruct (ti_nodes _ _ _ Hi n p Hp) as (j & q & -> & Hj). apply covers_nd in Hc as <-.
  destruct j as [|j]; [by apply Hne; rewrite leaf_nd, Z.div_1_r|]. apply Hin.
  pose proof (ti_K _ _ _ Hi). pose proof tree_fuel_big.
  rewrite (ti_cap _ _ _ Hi), leaf_nd, ancestors_nd by lia. apply list_elem_of_fmap. exists j.
  split; [done|]. apply elem_of_seq. lia.
Qed.

Lemma join_run cs K h kp l c h2 :
  tree_inv K h -> joiner_ok h kp -> 0 < l < 2 ^ Z.of_nat K ->
  let pkg := lk_key_package kp in
  let p := PAdd l (kp_leaf_public pkg) (kp_sig_public pkg) (kp_pop pkg) in
  let h1 := blank_path_above l (set_sigs
           (set_tree h (<[leaf l := kp_leaf_public pkg]> (tk_public h))
              (<[Z.to_nat l := true]> (tk_occupied h)) (tk_secrets h))
           (<[l := kp_sig_public pkg]> (tk_leaf_sig_keys h)) (<[l := kp_pop pkg]> (tk_leaf_pops h))) in
  host_inv K h1 -> rekey_path cs [p] None h1 = (Ok c, h2) ->
  exists j, join_with_welcome kp (mkWelcome (tk_capacity h2) (map_to_list (tk_public h2)) (tk_occupied h2)
              (tk_epoch h2) l (welcome_members h2) c) = Ok j /\ synced K h2 j /\ tk_me j = l.
Proof.
  intros Hi [Hjp Hjs] Hl pkg p h1 Hh1 Hr. pose proof Hh1 as [Hi1 Hro1 Hme1 (seed & Hsig & Hkey)].
  destruct (rekey_run cs [p] None h1 K _ Hi1 Hme1 Hsig) as (cts & Hcov & E). rewrite E in Hr.
  injection Hr as <- <-. set (s0 := random_bytes (cs 0%nat) 32) in *.
  set (c := path_commit _ _ _ _ _ _ _ _). set (h2 := rekeyed K s0 h1) in *.
  assert (tk_public h2 = spine_public (tk_profile h) K s0 (tk_public h1)) as Hpub2 by done.
  assert (roster_ok h2) as Hro2 by (by apply rekeyed_roster).
  destruct (learn_welcome h2 Hro2) as [pops Hlearn].
  assert (tk_public h2 !! leaf l = Some (pub_of (tk_profile h) (lk_secret kp))) as Hleaf.
  { rewrite Hpub2. destruct (install_public_lookup (tk_profile h) K s0 (tk_public h1)) as [_ H2].
    unfold spine_public. rewrite H2 by (intros i _; rewrite leaf_nd; intros [_ ?]%nd_inj; lia).
    unfold h1. cbn. rewrite foldl_delete_lookup, decide_False.
    - rewrite lookup_insert_eq. unfold pub_of. by rewrite <- Hjp.
    - rewrite (ti_cap _ _ _ Hi). apply leaf_not_above. pose proof (ti_K _ _ _ Hi). lia. }
  assert (tk_occupied h2 !! Z.to_nat l = Some true) as Hocc.
  { cbn. apply list_lookup_insert_eq. pose proof (ti_occ _ _ _ Hi). unfold zlen in *. lia. }
  unfold join_with_welcome. cbn [wl_sig_keys wl_public wl_capacity wl_occupied wl_your_leaf wl_epoch wl_commit].
  rewrite Hlearn. cbn [map_err rbind]. rewrite collect_map.
  set (sig := id_from_secret_bytes _).
  assert (<[l := id_public sig]> (tk_leaf_sig_keys h2) = tk_leaf_sig_keys h2) as ->.
  { apply insert_id. cbn. rewrite lookup_insert_eq. unfold sig, id_export_secret.
    f_equal. rewrite Hjs at 1. done. }
  set (g := mkTreeKem _ _ _ _ _ _ _ _ _ _ _ _ _ _ _ _).
  assert (tree_inv_on (off_spine K) K g) as Hg.
  { assert (tree_inv K h2) as [] by (by apply rekeyed_inv).
    split; cbn [tk_capacity tk_occupied tk_me tk_public tk_secrets tk_profile g]; try done; try lia.
    - by rewrite Hjp.
    - intros n s [<- <-]%lookup_singleton_Some. split; [by apply leaf_covers|]. by rewrite Hjp.
    - intros n Hoff Hc Hs. rewrite Hpub2 in Hs. apply fresh_leaf_alone in Hs as ->; try done.
      rewrite lookup_singleton_eq. eauto. }
  assert (process_update_path c g = (Ok (derive_commit_secret (up s0 K)), followed K s0 g)) as Hproc.
  { apply process_run; try done.
    - cbn. lia.
    - apply random_bytes_len.
    - cbn [tk_profile g]. by rewrite Hjp.
    - cbn [tk_profile tk_public g]. rewrite Hjp, Hpub2, spine_public_idem. done. }
  rewrite Hproc. eexists. split; [done|]. split; [|done]. split.
  - split; try done. change (tk_public h2 = spine_public (lk_profile kp) K s0 (tk_public h2)).
    by rewrite Hjp, Hpub2, spine_public_idem.
  - done.
  - apply tree_inv_epoch, followed_inv; [done|]. cbn. lia.
  - cbn. lia.
  - eexists. split; [done|]. cbn. rewrite lookup_insert_eq. f_equal. rewrite Hjs at 1. done.
Qed.

(** ** Removing, rotating and updating *)

Lemma resized_id K h m : tree_inv K h -> same_view h m -> resized K m = m.
Proof.
  intros Hi Hv. unfold resized. rewrite decide_False; [done|].
  rewrite <- (sv_capacity _ _ Hv), (ti_cap _ _ _ Hi). lia.
Qed.

(** A proposal the host can commit, at every synced member for which it is safe. *)
Lemma commit_agrees cs K p h h1 :
  host_inv K h -> 0 < prop_leaf p -> prop_safe h p -> apply_proposals [p] h = (Ok tt, h1) ->
  exists c h2, rekey_path cs [p] None h1 = (Ok c, h2) /\ host_inv K h2 /\
    forall m, synced K h m -> prop_safe m p ->
      exists m2, apply_commit c m = (Ok tt, m2) /\ synced K h2 m2 /\ tk_me m2 = tk_me m.
Proof.
  intros Hh Hl Hs Hp. destruct (proposal_commit_agrees cs K p h h1 Hh Hl Hs Hp) as (c & h2 & Hr & Hh2 & Hm).
  exists c, h2. split; [done|]. split; [done|]. intros m [Hv He Hi Hpos Hsg] Hsm.
  pose proof (resized_id K h m (hi_tree _ _ Hh) Hv) as Hres.
  apply Hm; rewrite ?Hres; try done; [by rewrite (sv_epoch _ _ Hv)|by rewrite (sv_keys _ _ Hv)].
Qed.

Lemma remove_run cs K h l :
  host_inv K h -> 0 < l < 2 ^ Z.of_nat K ->
  exists c h2, remove cs l h = (Ok c, h2) /\ host_inv K h2 /\
    forall m, synced K h m -> tk_me m <> l ->
      exists m2, apply_commit c m = (Ok tt, m2) /\ synced K h2 m2 /\ tk_me m2 = tk_me m.
Proof.
  intros Hh Hl. pose proof (hi_tree _ _ Hh) as Hi. pose proof (ti_occ _ _ _ Hi) as Hocc.
  assert (exists h1, apply_proposals [PRemove l] h = (Ok tt, h1)) as [h1 Hp].
  { unfold apply_proposals. rewrite st_iter_one. unfold apply_proposal, st_bind, st_get. cbn [prop_leaf].
    rewrite decide_False by lia. by eexists. }
  destruct (commit_agrees cs K (PRemove l) h h1) as (c & h2 & Hr & Hh2 & Hm); [done|cbn; lia| |done|].
  { cbn. rewrite (hi_me _ _ Hh). lia. }
  exists c, h2. split; [unfold remove, st_bind; by rewrite Hp|]. split; [done|].
  intros m Hsy Hne. by apply Hm; [|apply not_eq_sym].
Qed.

Lemma update_run c0 cs K h :
  host_inv K h ->
  exists c h2, update c0 cs h = (Ok c, h2) /\ host_inv K h2 /\
    forall m, synced K h m -> exists m2, apply_commit c m = (Ok tt, m2) /\ synced K h2 m2 /\ tk_me m2 = tk_me m.
Proof.
  intros Hh. pose proof Hh as [Hi Hro Hme (seed & Hsig & Hkey)].
  set (seed' := random_bytes c0 32). set (k' := id_from_secret_bytes seed').
  set (pop := id_sign k' (pop_transcript (id_public k'))).
  assert (verify_pop (id_public k') pop = Ok tt) as Hpop
    by (unfold verify_pop, pop, k'; by rewrite id_verify_sign).
  destruct (rekey_run cs [] (Some (0, id_public k', pop)) h K _ Hi Hme Hsig) as (cts & Hcov & E).
  set (s0 := random_bytes (cs 0%nat) 32) in *. cbv zeta in E.
  match type of E with _ = (Ok ?C, _) => set (c := C) in * end.
  set (h2 := set_mine (set_sigs (rekeyed K s0 h) (<[0 := id_public k']> (tk_leaf_sig_keys h))
      (<[0 := pop]> (tk_leaf_pops h))) (Some k') (tk_pending_update h)).
  exists c, h2. split; [|split].
  - unfold update. unfold st_bind at 1, st_get at 1. rewrite Hme.
    change (id_generate c0) with k'. fold pop. unfold st_bind at 1. rewrite E.
    unfold st_bind, st_modify, st_ret. cbn [tk_me rekeyed enter_epoch set_tree]. rewrite Hme. done.
  - split; [|..|done|by exists seed'; split; [|apply lookup_insert_eq]].
    + by apply tree_inv_mine, tree_inv_sigs, rekeyed_inv.
    + intros l k. cbn. destruct (decide (0 = l)) as [<-|Hne].
      * rewrite !lookup_insert_eq. intros [= <-]. split; [|eauto]. apply spine_is_some.
        rewrite <- Hme. apply Hi.
      * rewrite !lookup_insert_ne by done. apply (rekeyed_roster K s0 h Hro).
  - intros m [[Vp Vc Vt Vo Ve Vk] Hse Hmi Hpos Hms]. rewrite Vp, Vt in Hcov.
    set (m3 := set_sigs m (<[0 := id_public k']> (tk_leaf_sig_keys m)) (<[0 := pop]> (tk_leaf_pops m))).
    pose proof (apply_commit_run K s0 m m m3 seed [] (Some (0, id_public k', pop)) cts) as Happ.
    cbv zeta in Happ. rewrite <- Vk, Hkey, <- Ve, <- Vp, <- (ti_cap _ _ _ Hi) in Happ.
    assert (length s0 = 32%nat) as Hs0 by apply random_bytes_len.
    eexists. split; [apply Happ; try done|split; [split|]].
    + by rewrite decide_False by (rewrite Vc; lia).
    + unfold m3. by rewrite Vk.
    + split; [done|]. split; [|done]. rewrite <- Vo. change 0%nat with (Z.to_nat 0). rewrite <- Hme. apply Hi.
    + by apply tree_inv_weaken.
    + by rewrite Vp.
    + split; cbn; rewrite ?Vp, ?Vt, ?Ve, ?Vk; done.
    + done.
    + apply tree_inv_epoch, followed_inv; [by apply tree_inv_weaken, tree_inv_sigs|done].
    + done.
    + destruct Hms as (sd & ? & ?). exists sd. split; [done|]. cbn. rewrite lookup_insert_ne by lia. done.
    + done.
Qed.

Lemma key_ok_derived prof s : key_ok prof (pub_of prof s).
Proof.
  destruct (key_pair_derive prof s) as [K Hp]. split; [apply K|]. unfold pub_of.
  by rewrite (kp_profile _ _ K).
Qed.

(** A member's proposal reaches the host intact. *)
Lemma proposal_delivered prof p :
  prop_ok prof p -> zlen (enc_prop p) <= usize_max ->
  run_get (get* prop := prop_get prof in get* _ := q finish in gret prop) (w_new |> prop_put p |> into_vec) = Ok p.
Proof.
  intros Hok Hl. rewrite into_vec_prop_put, into_vec_new. cbn [app].
  apply run_decodes_all; [done|]. rewrite <- (app_nil_r (enc_prop p)).
  eapply decodes_all_bind; [by apply decodes_prop|apply decodes_all_finish].
Qed.

Lemma member_update_run c1 c2 cs K h m :
  host_inv K h -> synced K h m ->
  exists b m1, propose_update c1 c2 m = (Ok b, m1) /\ synced K h m1 /\ tk_me m1 = tk_me m /\
  exists c h2, commit_update cs (tk_me m) b h = (Ok c, h2) /\ host_inv K h2 /\
    forall m', synced K h m' -> tk_me m' <> tk_me m \/ m' = m1 ->
      exists m2, apply_commit c m' = (Ok tt, m2) /\ synced K h2 m2 /\ tk_me m2 = tk_me m'.
Proof.
  intros Hh Hsy. pose proof Hsy as [[Vp Vc Vt Vo Ve Vk] He Hi Hpos (seed & Hsig & Hkey)].
  pose proof (ti_me _ _ _ Hi) as Hrange. pose proof (ti_K _ _ _ Hi) as HK.
  pose proof (pow_le K 20 ltac:(lia)) as HpK. change (2 ^ Z.of_nat 20) with (2 ^ 20) in HpK.
  set (kp := lk_generate_with (tk_profile m) c1 c2). set (pkg := lk_key_package kp).
  set (auth := id_sign (id_from_secret_bytes seed)
    (update_auth_transcript (tk_me m) (kp_leaf_public pkg) (kp_sig_public pkg))).
  set (p := PUpdate (tk_me m) (kp_leaf_public pkg) (kp_sig_public pkg) (kp_pop pkg) auth).
  set (m1 := set_mine m (tk_my_sig m) (Some kp)).
  exists (w_new |> prop_put p |> into_vec), m1. split; [|split; [|split; [done|]]].
  { unfold propose_update, st_bind, st_get, st_lift, st_modify, st_ret. unfold m1. rewrite Hsig.
    done. }
  { split; try done. - by apply tree_inv_mine. - by exists seed. }
  assert (verify_pop (kp_sig_public pkg) (kp_pop pkg) = Ok tt) as Hpop by (by apply package_pop).
  assert (exists h1, apply_proposals [p] h = (Ok tt, h1)) as [h1 Hp].
  { unfold apply_proposals. rewrite st_iter_one. unfold apply_proposal. unfold st_bind at 1, st_get at 1.
    cbn [prop_leaf p]. rewrite decide_False by (rewrite Vo, (ti_occ _ _ _ Hi); lia).
    unfold apply_update, st_bind, lift_crypto, st_lift, st_get. rewrite Hpop. cbn [map_err].
    rewrite decide_False by (rewrite Vo; intros Hn; apply Hn, Hi). rewrite Vk, Hkey. cbn [ok_or].
    unfold auth. rewrite id_verify_sign. cbn. by eexists. }
  assert (forall g, tk_profile g = tk_profile m -> tk_me g <> tk_me m \/ g = m1 -> prop_safe g p) as Hsafe.
  { intros g Hgp Hg. cbn [prop_safe p]. destruct Hg as [Hne| ->].
    - rewrite decide_False by auto. exists (lk_secret kp). by rewrite Hgp.
    - rewrite decide_True by done. exists kp. done. }
  destruct (commit_agrees cs K p h h1) as (c & h2 & Hr & Hh2 & Hm); [done|cbn; lia| |done|].
  { apply Hsafe; [done|]. left. rewrite (hi_me _ _ Hh). lia. }
  exists c, h2. split; [|split; [done|]].
  - pose proof mldsa_lens as [Hvl Hsl].
    assert (length (sig_vk (kp_sig_public pkg)) = SIG_VK_LEN) as Hvk
      by (cbn; rewrite mldsa_vk_length; done).
    assert (zlen (kp_pop pkg) <= 2 ^ 16 /\ zlen auth <= 2 ^ 16) as [Hpl Hal].
    { split; unfold zlen; [cbn|unfold auth]; rewrite id_sign_len; lia. }
    assert (prop_ok (tk_profile h) p) as Hok.
    { split; [unfold is_u32; lia|]. split; [rewrite Vp; apply key_ok_derived|]. split; [done|].
      unfold blob_ok, MAX_FRAME. lia. }
    unfold commit_update. unfold st_bind at 1, st_get at 1. unfold st_bind at 1, lift_crypto, st_lift.
    rewrite proposal_delivered; [|done|].
    + cbn [map_err]. unfold st_bind at 1. subst p. cbv beta iota. rewrite decide_True by done.
      unfold st_ret at 1.
      unfold st_bind at 1. rewrite Hp. done.
    + cbn [enc_prop p]. rewrite !zlen_app, !zlen_enc_bytes, zlen_be_bytes.
      pose proof (rp_encode_len (kp_leaf_public pkg) (proj1 (key_ok_derived (tk_profile m) (lk_secret kp)))).
      unfold zlen at 1 3. rewrite Hvk. cbn [length]. unfold SIG_VK_LEN, MAX_FRAME, usize_max in *. lia.
  - intros m' Hsy' Hc. apply Hm; [done|]. apply Hsafe; [|done].
    pose proof (sv_profile _ _ (sy_view _ _ _ Hsy')). congruence.
Qed.

(** ** Founding *)

Lemma create_run prof seed c :
  exists g, create_with_sig prof (id_from_secret_bytes seed) c = Ok g /\ host_inv 1 g /\ tk_profile g = prof.
Proof.
  unfold create_with_sig. set (k := id_from_secret_bytes seed). set (s0 := random_bytes c 32).
  assert (path_to_root 2 0 = spine 1) as -> by (by apply (path_host 1); lia).
  rewrite keyed_spine_zip. unfold install_path. cbn [tk_secrets set_tree].
  destruct (install_secrets_lookup 1 s0 ∅) as [Hs1 Hs2].
  destruct (install_public_lookup prof 1 s0 ∅) as [Hp1 Hp2].
  change (root_of 2) with (nd 1 0). rewrite Hs1 by lia. cbn [ok_or rbind].
  eexists. split; [done|]. split; [|done].
  change (fun (m : gmap Node RatchetPublic) (x : Node * bytes) =>
    <[x.1:=(rs_derive_deterministic prof x.2).2]> m) with
    (fun (m : gmap Node RatchetPublic) (x : Node * bytes) => <[x.1 := pub_of prof x.2]> m).
  cbn [tk_public set_tree tk_occupied].
  split; [|..|done|by exists seed].
  - apply tree_inv_epoch, tree_inv_sigs. split; cbn [tk_capacity tk_occupied tk_me tk_public tk_secrets tk_profile set_tree];
      try done; try lia.
    + apply (spine_derived prof 1 s0 ∅), map_Forall_empty.
    + apply (spine_nodes prof 1 s0 ∅), map_Forall_empty.
    + intros n s. destruct (spine_dec 1 n) as [(i & Hi & ->)|Hn].
      * rewrite Hs1, Hp1 by done. intros [= <-]. split; [by apply covers_nd|done].
      * by rewrite Hs2.
    + intros n _ _. destruct (spine_dec 1 n) as [(i & Hi & ->)|Hn]; [rewrite Hs1 by done; eauto|].
      rewrite Hp2 by done. rewrite lookup_empty. by intros [].
  - intros l k'. cbn [tk_leaf_sig_keys tk_public tk_leaf_pops enter_epoch set_sigs set_tree].
    intros [<- <-]%lookup_singleton_Some. rewrite leaf_nd, Hp1 by lia. split; [eauto|].
    rewrite lookup_insert_eq. eexists. split; [done|]. unfold verify_pop, k. by rewrite id_verify_sign.
Qed.

(** ** Worlds *)

Record world : Type := mkWorld { w_host : TreeKemGroup; w_members : list TreeKemGroup }.

Inductive op : Type :=
| OpAdd (cs : nat -> coins) (kp : LeafKeyPair)
| OpRemove (cs : nat -> coins) (l : Z)
| OpRotate (c : coins) (cs : nat -> coins)
| OpUpdate (l : Z) (c1 c2 : coins) (cs : nat -> coins).

Definition step_member (c : Commit) (m : TreeKemGroup) : option TreeKemGroup :=
  match apply_commit c m with (Ok _, m') => Some m' | _ => None end.

Definition run_op (o : op) (w : world) : option world :=
  match o with
  | OpAdd cs kp =>
      match add cs (lk_key_package kp) (w_host w) with
      | (Ok (_, c, wel), h) =>
          ms ← mapM (step_member c) (w_members w);
          match join_with_welcome kp wel with
          | Ok j => Some (mkWorld h (ms ++ [j]))
          | Err _ => None
          end
      | _ => None
      end
  | OpRemove cs l =>
      match remove cs l (w_host w) with
      | (Ok c, h) =>
          ms ← mapM (step_member c) (filter (fun m => tk_me m <> l) (w_members w));
          Some (mkWorld h ms)
      | _ => None
      end
  | OpRotate c0 cs =>
      match update c0 cs (w_host w) with
      | (Ok c, h) => ms ← mapM (step_member c) (w_members w); Some (mkWorld h ms)
      | _ => None
      end
  | OpUpdate l c1 c2 cs =>
      '(i, m) ← list_find (fun m => tk_me m = l) (w_members w);
      match propose_update c1 c2 m with
      | (Ok b, m1) =>
          match commit_update cs l b (w_host w) with
          | (Ok c, h) =>
              ms ← mapM (step_member c) (<[i := m1]> (w_members w)); Some (mkWorld h ms)
          | _ => None
          end
      | _ => None
      end
  end.

(** When the engine performs an operation: adds are of well-formed packages of
    the group's profile while the tree may still grow, removals and updates are
    of present members. *)
Definition op_ok (o : op) (w : world) : Prop :=
  match o with
  | OpAdd _ kp => joiner_ok (w_host w) kp /\ room (w_host w)
  | OpRemove _ l => exists m, m ∈ w_members w /\ tk_me m = l
  | OpRotate _ _ => True
  | OpUpdate l _ _ _ => exists m, m ∈ w_members w /\ tk_me m = l
  end.

Inductive reachable (prof : KemProfile) : world -> Prop :=
| reach_found seed c g :
    create_with_sig prof (id_from_secret_bytes seed) c = Ok g -> reachable prof (mkWorld g [])
| reach_step o w w' :
    reachable prof w -> op_ok o w -> run_op o w = Some w' -> reachable prof w'.

Record world_inv (w : world) (K : nat) : Prop := {
  wi_host : host_inv K (w_host w);
  wi_members : Forall (synced K (w_host w)) (w_members w);
  wi_leaves : NoDup (tk_me <$> w_members w) }.

Lemma step_members K h2 c ms :
  (forall m, m ∈ ms -> exists m2, apply_commit c m = (Ok tt, m2) /\ synced K h2 m2 /\ tk_me m2 = tk_me m) ->
  exists ms', mapM (step_member c) ms = Some ms' /\ Forall (synced K h2) ms' /\ tk_me <$> ms' = tk_me <$> ms.
Proof.
  induction ms as [|m ms IH]; intros H; [by exists []|].
  destruct (H m) as (m2 & E & Hsy & Hme); [by left|].
  destruct IH as (ms' & Em & Hall & Hl); [intros m' Hm'; apply H; by right|].
  exists (m2 :: ms'). split; [|split; [by constructor|cbn; by rewrite Hme, Hl]].
  apply mapM_Some. constructor; [unfold step_member; by rewrite E|by apply mapM_Some].
Qed.

Lemma fmap_filter_nodup (ms : list TreeKemGroup) l :
  NoDup (tk_me <$> ms) -> NoDup (tk_me <$> filter (fun m => tk_me m <> l) ms).
Proof.
  induction ms as [|m ms IH]; [done|]. rewrite fmap_cons. intros [Hm Hn]%NoDup_cons. rewrite filter_cons.
  case_decide; [|by apply IH]. rewrite fmap_cons. apply NoDup_cons. split; [|by apply IH].
  intros (m' & E & Hin)%list_elem_of_fmap. apply Hm. apply list_elem_of_fmap. exists m'.
  split; [done|]. by apply list_elem_of_filter in Hin as [_ ?].
Qed.

(** One operation from a world that satisfies the invariant. *)
Lemma run_op_inv o w K :
  world_inv w K -> op_ok o w -> exists w' K', run_op o w = Some w' /\ world_inv w' K'.
Proof.
  intros [Hh Hm Hn] Ho. destruct w as [h ms]. cbn [w_host w_members] in *. rewrite Forall_forall in Hm.
  destruct o as [cs kp|cs l|c0 cs|l c1 c2 cs]; cbn [op_ok run_op w_host w_members] in *.
  - destruct Ho as [Hj Hroom].
    destruct (add_run cs K h kp Hh Hroom Hj) as (K' & l & h1 & c & h2 & Hg & Hl & Hp & Hr & Hh2 & Hadd & Hrange & Hh1 & Hms).
    rewrite Hadd. destruct (step_members K' h2 c ms) as (ms' & -> & Hall & Hme).
    { intros m Hin. destruct (Hms m (Hm m Hin)) as (m2 & ? & ? & ? & _). eauto. }
    cbn [mbind option_bind].
    destruct (first_free_spec _ _ Hl) as [Hlr _].
    assert (joiner_ok (grown h) kp) as Hjg.
    { destruct Hj. split; [|done]. unfold grown. by destruct (first_free_leaf h). }
    destruct (add_accepts K' (grown h) l kp (hi_tree _ _ Hg) Hjg Hlr) as (h1' & Hp' & Heq).
    rewrite Hp in Hp'. injection Hp' as <-. subst h1.
    destruct (join_run cs K' (grown h) kp l c h2 (hi_tree _ _ Hg) Hjg Hrange Hh1 Hr) as (j & Hjoin & Hsj & Hmj).
    rewrite Hjoin. cbn. do 2 eexists. split; [done|]. split; cbn; [done| |].
    + apply Forall_app. split; [done|by constructor].
    + rewrite fmap_app, Hme. apply NoDup_app. split; [done|]. split; [|apply NoDup_singleton].
      intros l' (m & -> & Hin)%list_elem_of_fmap [E|?%elem_of_nil]%elem_of_cons; [|done].
      destruct (Hms m (Hm m Hin)) as (_ & _ & _ & _ & Hne). congruence.
  - destruct Ho as (m0 & Hin0 & <-). destruct (Hm m0 Hin0) as [? ? Hi0 Hpos0 ?].
    destruct (remove_run cs K h (tk_me m0) Hh) as (c & h2 & -> & Hh2 & Hms).
    { pose proof (ti_me _ _ _ Hi0). lia. }
    destruct (step_members K h2 c (filter (fun m => tk_me m <> tk_me m0) ms)) as (ms' & -> & Hall & Hme).
    { intros m [Hne Hin]%list_elem_of_filter. by apply Hms; [apply Hm|]. }
    do 2 eexists. split; [done|]. split; cbn; [done|done|]. rewrite Hme. by apply fmap_filter_nodup.
  - destruct (update_run c0 cs K h Hh) as (c & h2 & -> & Hh2 & Hms).
    destruct (step_members K h2 c ms) as (ms' & -> & Hall & Hme); [auto|].
    do 2 eexists. split; [done|]. split; cbn; [done|done|]. by rewrite Hme.
  - destruct Ho as (m0 & Hin0 & <-).
    destruct (list_find (fun m => tk_me m = tk_me m0) ms) as [[i m]|] eqn:Ef.
    2:{ apply list_find_None in Ef. rewrite Forall_forall in Ef. by destruct (Ef m0 Hin0). }
    apply list_find_Some in Ef as (Hi & Hme0 & _).
    cbn [mbind option_bind]. rewrite <- Hme0.
    pose proof (Hm m (list_elem_of_lookup_2 _ _ _ Hi)) as Hsy.
    destruct (member_update_run c1 c2 cs K h m Hh Hsy) as (b & m1 & -> & Hsy1 & Hme1 & c & h2 & -> & Hh2 & Hms).
    destruct (step_members K h2 c (<[i := m1]> ms)) as (ms' & -> & Hall & Hme).
    { intros m' Hin. apply list_elem_of_lookup_1 in Hin as [j Hj].
      destruct (decide (i = j)) as [<-|Hne].
      - rewrite list_lookup_insert_eq in Hj by (by eapply lookup_lt_Some). injection Hj as <-.
        apply Hms; [done|by right].
      - rewrite list_lookup_insert_ne in Hj by done. apply Hms; [by eapply Hm, list_elem_of_lookup_2|].
        left. intros E. apply Hne. eapply (NoDup_lookup (tk_me <$> ms) i j (tk_me m)); [done|..].
        + by rewrite list_lookup_fmap, Hi.
        + rewrite list_lookup_fmap, Hj. cbn. by rewrite E. }
    do 2 eexists. split; [done|]. split; cbn; [done|done|]. rewrite Hme, list_fmap_insert.
    rewrite list_insert_id; [done|]. by rewrite list_lookup_fmap, Hi, Hme1.
Qed.

Lemma reachable_inv prof w : reachable prof w -> exists K, world_inv w K.
Proof.
  induction 1 as [seed c g Hg|o w w' _ [K Hw] Ho Hr].
  - destruct (create_run prof seed c) as (g' & E & Hh & _). rewrite Hg in E. injection E as <-.
    exists 1%nat. by split; [|constructor|constructor].
  - destruct (run_op_inv o w K Hw Ho) as (w2 & K' & E & Hw2). rewrite Hr in E. injection E as <-. eauto.
Qed.

(** C1: a TreeKEM group never splits.  Start from any founder and apply any
    sequence of member additions (with the tree growing as needed), removals,
    host key rotations and member updates.  In every world so reached, all
    members and the host are in the same epoch, hold the same epoch secret, the
    same tree and the same roster of signing keys; and every next operation the
    engine may perform succeeds at the host, at all members and at the joiner. *)
Theorem group_agreement prof (w : world) :
  reachable prof w ->
  Forall (fun m => tk_epoch m = tk_epoch (w_host w) /\ tk_epoch_secret m = tk_epoch_secret (w_host w) /\
    tk_public m = tk_public (w_host w) /\ tk_leaf_sig_keys m = tk_leaf_sig_keys (w_host w)) (w_members w) /\
  forall o, op_ok o w -> exists w', run_op o w = Some w' /\ reachable prof w'.
Proof.
  intros Hr. destruct (reachable_inv prof w Hr) as [K Hw]. split.
  - eapply Forall_impl; [apply Hw|]. intros m [[] He _ _ _]. done.
  - intros o Ho. destruct (run_op_inv o w K Hw Ho) as (w' & K' & E & _). exists w'.
    split; [done|]. by apply (reach_step prof o w).
Qed.
End Group.

(** ** A concrete group *)

Section Witness.

Definition g_seed : bytes := replicate 32 (byte_of 5).
Definition g_cs (n : nat) : nat -> @coins toy := fun i => (n * 100 + i)%nat.
Definition g_bob : LeafKeyPair := lk_generate_with (P:=toy) profile_pq_pure 11%nat 12%nat.

Lemma group_agreement_witness :
  exists g w, create_with_sig (P:=toy) profile_pq_pure (id_from_secret_bytes g_seed) 1%nat = Ok g /\
    run_op (OpAdd (g_cs 1) g_bob) (mkWorld g []) = Some w /\
    Forall (fun m => tk_epoch m = tk_epoch (w_host w) /\ tk_epoch_secret m = tk_epoch_secret (w_host w) /\
      tk_public m = tk_public (w_host w) /\ tk_leaf_sig_keys m = tk_leaf_sig_keys (w_host w)) (w_members w).
Proof.
  destruct (create_run (P:=toy) profile_pq_pure g_seed 1%nat) as (g & Hg & Hh & Hprof).
  pose proof (reach_found profile_pq_pure g_seed (1%nat : @coins toy) g Hg) as Hr.
  destruct (group_agreement profile_pq_pure (mkWorld g []) Hr) as [_ Hstep].
  destruct (Hstep (OpAdd (g_cs 1) g_bob)) as (w & Hw & Hrw).
  - split; [split; [cbn [w_host]; rewrite Hprof; reflexivity|reflexivity]|]. right. cbn [w_host].
    rewrite (ti_cap _ _ _ (hi_tree _ _ Hh)). reflexivity.
  - exists g, w. split; [exact Hg|]. split; [exact Hw|].
    apply (group_agreement profile_pq_pure w Hrw).
Defined.

End Witness.
