(* ===== verification/TreeSecurity.v ===== *)
(** * TreeKEM: who can change the group and who can read it

    Commit authentication, update authorisation, exclusion of removed members,
    and the signed epoch messages. *)

From S2P Require Import Prelude Wire Crypto Hybrid Ratchet Conversation SenderKeys TreeNode TreeCodec TreeKem TreeAgree TreeGroup Toy.

Section Security.
Context {P : Primitives}.

(** ** Commits *)

(** [m] leaves the part [f] of the state alone, whatever its outcome. *)
Definition keeps {S E A B} (f : S -> B) (m : ST S E A) : Prop := forall s, f (m s).2 = f s.

Lemma keeps_bind {S E A B C} (f : S -> C) (m : ST S E A) (k : A -> ST S E B) :
  keeps f m -> (forall a, keeps f (k a)) -> keeps f (st_bind m k).
Proof.
  intros Hm Hk s. specialize (Hm s). unfold st_bind. destruct (m s) as [[a|e] s']; [|done].
  cbn in Hm. by rewrite Hk.
Qed.

Lemma keeps_lift {S E A B} (f : S -> B) (r : result E A) : keeps f (st_lift r).
Proof. done. Qed.
Lemma keeps_get {S E B} (f : S -> B) : keeps f (@st_get S E).
Proof. done. Qed.
Lemma keeps_modify {S E B} (f : S -> B) g : (forall s, f (g s) = f s) -> keeps f (@st_modify S E g).
Proof. by intros H s; apply H. Qed.

Lemma keeps_err {S E A B} (f : S -> B) (e : E) : keeps f (@st_err S E A e).
Proof. done. Qed.
Lemma keeps_ret {S E A B} (f : S -> B) (a : A) : keeps f (@st_ret S E A a).
Proof. done. Qed.

Lemma apply_proposal_epoch p : keeps tk_epoch (apply_proposal p).
Proof.
  unfold apply_proposal. apply keeps_bind; [done|]. intros g. case_decide; [done|].
  destruct p as [l lp sp pop|l|l lp sp pop auth].
  - apply keeps_bind; [done|]. intros _. by apply keeps_modify.
  - by apply keeps_modify.
  - apply keeps_bind; [done|]. intros _. apply keeps_bind; [done|]. intros g'. case_decide; [done|].
    apply keeps_bind; [done|]. intros cur. apply keeps_bind; [done|]. intros _.
    apply keeps_modify. intros s. unfold install_pending. cbn. case_decide; [|done].
    by destruct (tk_pending_update s).
Qed.

Lemma apply_verified_epoch l c g g' :
  apply_verified l c g = (Ok tt, g') -> tk_epoch g' = u32_add (tk_epoch g) 1.
Proof.
  intros H. unfold apply_verified in H.
  apply st_bind_Ok in H as (? & ? & Hg & H). unfold st_get in Hg. injection Hg as <- <-.
  apply st_bind_Ok in H as (? & g1 & H1 & H). apply st_bind_Ok in H as (? & g2 & H2 & H).
  apply st_bind_Ok in H as (? & g3 & H3 & H). apply st_bind_Ok in H as (secret & g4 & H4 & H).
  unfold st_modify in H. injection H as <-. cbn. f_equal.
  assert (tk_epoch g1 = tk_epoch g) as <-.
  { revert H1. case_decide; unfold st_modify, st_ret; by intros [= _ <-]. }
  assert (keeps tk_epoch (apply_proposals (proposals c))) as K2.
  { clear. unfold apply_proposals. induction (proposals c) as [|p ps IH]; [done|]. cbn.
    apply keeps_bind; [apply apply_proposal_epoch|intros _; exact IH]. }
  assert (keeps tk_epoch (apply_sig_update l (sig_update c))) as K3.
  { clear. unfold apply_sig_update. destruct (sig_update c) as [[[? ?] ?]|]; [|done].
    apply keeps_bind; [apply keeps_get|]. intros ?. case_decide; [apply keeps_err|].
    case_decide; [apply keeps_err|]. apply keeps_bind; [apply keeps_lift|]. intros ?.
    by apply keeps_modify. }
  assert (keeps tk_epoch (process_update_path c)) as K4.
  { clear. unfold process_update_path. apply keeps_bind; [by apply keeps_modify|]. intros _.
    apply keeps_bind; [apply keeps_get|]. intros gg.
    destruct (match path c with [] => None | f :: a => find_meet (tk_public gg) (tk_secrets gg) f a end)
      as [[[[? ?] ?] ?]|]; [|apply keeps_err].
    apply keeps_bind; [apply keeps_lift|]. intros ?. apply keeps_bind; [apply keeps_lift|]. intros ?.
    destruct (climb _ _ _). apply keeps_bind; [by apply keeps_modify|intros _; apply keeps_ret]. }
  specialize (K2 g1). specialize (K3 g2). specialize (K4 g3).
  rewrite H2 in K2. rewrite H3 in K3. rewrite H4 in K4. cbn in *. congruence.
Qed.

(** The commit carries the host's signature for this member's epoch. *)
Definition commit_authentic (g : TreeKemGroup) (c : Commit) : Prop :=
  (exists above, path c = leaf 0 :: above) /\
  exists k, tk_leaf_sig_keys g !! 0 = Some k /\
    id_verify k (commit_auth_transcript (tk_epoch g) 0 (commit_encode_body c)) (commit_sig c) = Ok tt.

Lemma apply_commit_gate g c :
  (exists e, apply_commit c g = (Err e, g) /\ ~ commit_authentic g c) \/
  (commit_authentic g c /\ apply_commit c g = apply_verified 0 c g).
Proof.
  unfold apply_commit. unfold st_bind at 1 4, st_get. cbv beta iota.
  destruct (path c) as [|n above] eqn:Ep.
  { left. eexists. split; [done|]. intros [[? E] _]. congruence. }
  destruct (decide (span n = 1)) as [Hs|Hs].
  2:{ left. eexists. split; [done|]. intros [[? E] _]. rewrite Ep in E. injection E as -> _. done. }
  unfold st_bind at 1 4, st_ret. cbv beta iota.
  destruct (decide (lo n = HOST_LEAF)) as [Hl|Hl].
  2:{ left. rewrite decide_True by done. eexists. split; [done|].
      intros [[? E] _]. rewrite Ep in E. injection E as -> _. done. }
  rewrite decide_False by auto. rewrite Hl. unfold HOST_LEAF.
  unfold st_bind, lift_crypto, st_lift.
  destruct (tk_leaf_sig_keys g !! 0) as [k|] eqn:Ek; cbn [ok_or].
  2:{ left. eexists. split; [done|]. intros [_ (? & ? & _)]. congruence. }
  destruct (id_verify k _ (commit_sig c)) as [[]|e] eqn:Ev; cbn [map_err].
  - right. split; [|done]. split; [|eauto]. exists above. rewrite Ep. f_equal.
    destruct n; cbn in *. unfold HOST_LEAF in *. by subst.
  - left. eexists. split; [done|]. intros [_ (k' & Hk & Hv)]. rewrite Ek in Hk. injection Hk as <-. congruence.
Qed.

(** C2: commits are authenticated before they touch anything.  A commit that
    does not start at the host's leaf or is not signed, over its whole body and
    for the receiver's current epoch, by the key bound to the host's leaf, is
    refused with the group state exactly as it was; and a commit that is
    applied was authentic and advances the epoch by one. *)
Theorem commit_authenticated (g : TreeKemGroup) (c : Commit) :
  (~ commit_authentic g c -> exists e, apply_commit c g = (Err e, g)) /\
  (forall g', apply_commit c g = (Ok tt, g') ->
     commit_authentic g c /\ tk_epoch g' = u32_add (tk_epoch g) 1).
Proof.
  destruct (apply_commit_gate g c) as [(e & E & Hna)|[Ha E]]; rewrite E; split.
  - eauto.
  - intros g' [=].
  - done.
  - intros g' H. split; [done|]. by eapply apply_verified_epoch.
Qed.

(** ** Leaf keys *)

(** A leaf's keys are rotated only by its occupant: an update proposal is
    accepted only with a signature of the leaf's current key over the new
    keys and with a proof of possession of the new signing key, and it changes
    no other leaf's signing key. *)
Lemma update_needs_occupant (g g' : TreeKemGroup) l lp sp pop auth :
  apply_proposal (PUpdate l lp sp pop auth) g = (Ok tt, g') ->
  (exists cur, tk_leaf_sig_keys g !! l = Some cur /\
     is_ok (id_verify cur (update_auth_transcript l lp sp) auth) = true) /\
  verify_pop sp pop = Ok tt /\ tk_leaf_sig_keys g' = <[l := sp]> (tk_leaf_sig_keys g).
Proof.
  intros H. unfold apply_proposal, st_bind, st_get in H. case_decide; [done|].
  unfold apply_update, st_bind, lift_crypto, st_lift, st_get, st_modify in H.
  destruct (verify_pop sp pop) as [[]|]; cbn in H; [|done]. case_decide; [done|].
  destruct (tk_leaf_sig_keys g !! l) as [cur|] eqn:Ek; cbn in H; [|done].
  destruct (id_verify cur _ auth) as [[]|] eqn:Ev; cbn in H; [|done]. injection H as <-.
  split; [exists cur; by rewrite Ev|]. split; [done|].
  unfold install_pending. cbn. case_decide; [|done]. by destruct (tk_pending_update g).
Qed.

(** The same does not hold of an add proposal: it is applied to an occupied
    leaf as well, and then rebinds the leaf to any signing key whose own proof
    of possession verifies, without a signature of the occupant. *)
Lemma add_overwrites_occupied (g : TreeKemGroup) l k lp sp pop :
  0 <= l < zlen (tk_occupied g) -> tk_occupied g !! Z.to_nat l = Some true ->
  tk_leaf_sig_keys g !! l = Some k -> verify_pop sp pop = Ok tt ->
  exists g', apply_proposal (PAdd l lp sp pop) g = (Ok tt, g') /\ tk_leaf_sig_keys g' !! l = Some sp.
Proof.
  intros Hl _ _ Hv. unfold apply_proposal, st_bind, st_get. cbn [prop_leaf]. rewrite decide_False by lia.
  unfold apply_add, st_bind, lift_crypto, st_lift, st_modify. rewrite Hv. cbn.
  eexists. split; [done|]. cbn. apply lookup_insert_eq.
Qed.
End Security.

Section Exclusion.
Context {P : Primitives} {POk : PrimitivesOk P}.

(** ** Removed members *)

Lemma removed_targets cs K h l c h2 :
  host_inv K h -> 0 < l < 2 ^ Z.of_nat K -> remove cs l h = (Ok c, h2) ->
  Forall (fun x => ~ covers x.1.2 l) (ciphertexts c) /\ tk_leaf_sig_keys h2 !! l = None.
Proof.
  intros Hh Hl H. pose proof (hi_tree _ _ Hh) as Hi. pose proof (ti_occ _ _ _ Hi) as Hocc.
  pose proof (ti_K _ _ _ Hi) as HK. unfold remove in H. apply st_bind_Ok in H as ([] & h1 & Hp & H).
  unfold apply_proposals in Hp. rewrite st_iter_one in Hp.
  assert (prop_safe h (PRemove l)) as Hsafe by (cbn; rewrite (hi_me _ _ Hh); lia).
  destruct (apply_proposal_host K h h1 (PRemove l) Hh ltac:(cbn; lia) Hsafe Hp) as (Hh1 & _ & _).
  unfold apply_proposal, st_bind, st_get in Hp. cbn [prop_leaf] in Hp. rewrite decide_False in Hp by lia.
  unfold apply_remove, st_modify in Hp. injection Hp as Hh1eq.
  destruct Hh1 as [Hi1 _ Hme1 (seed & Hsig & _)].
  destruct (rekey_run cs [PRemove l] None h1 K _ Hi1 Hme1 Hsig) as (cts & [_ Hcts] & E).
  cbv zeta in E. rewrite E in H. injection H as <- <-. split.
  - apply Forall_forall. intros x Hx Hc. cbn in Hx.
    destruct (Hcts x Hx) as (i & tp & co & Hik & _ & Ht & Htp & _). destruct (copath_range i); [lia|].
    destruct (resolution_sound _ i 1 _ ltac:(lia) ltac:(lia) ltac:(lia) Ht) as (_ & j & r & Ex & _ & Hj & _).
    destruct (install_public_lookup (tk_profile h1) K (random_bytes (cs 0%nat) 32) (tk_public h1)) as [_ H2].
    unfold spine_public in Htp. rewrite H2 in Htp by (intros ? _; eapply copath_off_spine; [|exact Ht]; lia).
    rewrite <- Hh1eq in Htp. cbn in Htp. rewrite foldl_delete_lookup in Htp.
    case_decide as Hin; [done|]. rewrite Ex in *. apply covers_nd in Hc as <-.
    destruct j as [|j].
    + rewrite leaf_nd, Z.div_1_r, lookup_delete_eq in Htp. done.
    + apply Hin. pose proof tree_fuel_big. rewrite (ti_cap _ _ _ Hi), leaf_nd, ancestors_nd by lia.
      apply list_elem_of_fmap. exists j. split; [done|]. apply elem_of_seq. lia.
  - rewrite <- Hh1eq. cbn. apply lookup_delete_eq.
Qed.

(** C6: a removed member is locked out.  In any reachable group, the commit
    that removes a member seals the new path secrets only to nodes whose
    secrets that member does not hold, and unbinds its signing key, so that it
    can neither follow into the new epoch nor send as a member of it. *)
Theorem removed_member_excluded prof (w : world) (m : TreeKemGroup) cs c h2 :
  reachable prof w -> m ∈ w_members w -> remove cs (tk_me m) (w_host w) = (Ok c, h2) ->
  Forall (fun x => tk_secrets m !! x.1.2 = None) (ciphertexts c) /\
  tk_leaf_sig_keys h2 !! tk_me m = None.
Proof.
  intros Hr Hin H. destruct (reachable_inv prof w Hr) as [K [Hh Hms _]].
  rewrite Forall_forall in Hms. destruct (Hms m Hin) as [_ _ Hi Hpos _]. pose proof (ti_me _ _ _ Hi).
  destruct (removed_targets cs K (w_host w) (tk_me m) c h2 Hh ltac:(lia) H) as [Hc Hk].
  split; [|done]. eapply Forall_impl; [done|]. intros x Hx.
  destruct (tk_secrets m !! x.1.2) as [s|] eqn:Es; [|done]. by destruct Hx; apply (ti_sec _ _ _ Hi _ s).
Qed.

(** ** Signed messages *)

Definition as_receiver (r : RecvChain) : SenderKeyReceiver :=
  mkReceiver (rc_chain r) (rc_at r) (rc_skipped r).
Definition of_receiver (r : SenderKeyReceiver) : RecvChain :=
  mkRecvChain (rv_chain r) (rv_n r) (rv_skipped r).

Lemma recv_skip_run k chain n sk :
  0 <= n -> n + Z.of_nat k < 2 ^ 32 ->
  recv_skip k (mkRecvChain chain n sk) = mkRecvChain (chain_key chain k) (n + Z.of_nat k) (stash_map chain n k sk).
Proof.
  revert chain n sk. induction k as [|k IH]; intros chain n sk Hn Hlt; cbn [recv_skip].
  { by rewrite Z.add_0_r. }
  cbn [rc_chain rc_at rc_skipped]. destruct (kdf_ck chain) as [nx seed] eqn:Ek.
  assert (u32_add n 1 = n + 1) as -> by (apply u32_wrap_small; unfold is_u32; lia).
  rewrite IH by lia. cbn [chain_key stash_map]. rewrite Ek. cbn. f_equal. lia.
Qed.

(** Where the sender-key receiver opens a message, so does the epoch chain,
    and they end in the same state. *)
Lemma chain_open_receiver n ct aad r pt r' :
  is_u32 n -> n + 1 < 2 ^ 32 -> is_u32 (rv_n r) ->
  recv_open n ct aad r = (Ok pt, r') -> chain_open n ct aad (of_receiver r) = (Ok pt, of_receiver r').
Proof.
  unfold is_u32. intros Hn Hw Hr H. rewrite recv_open_run in H by done. unfold open_result, open_with in H.
  unfold chain_open. unfold st_bind at 1, st_get at 1. cbn [rc_skipped of_receiver rc_at].
  destruct (rv_skipped r !! n) as [seed|].
  - unfold st_bind, st_modify, lift_crypto, st_lift. cbn. destruct (kdf_mk seed) as [key nonce]. cbn in *.
    destruct (aead_open key nonce ct aad); [|done]. by injection H as <- <-.
  - case_decide; [done|]. case_decide; [done|].
    unfold st_bind at 1, st_modify at 1. unfold of_receiver at 1. rewrite recv_skip_run by lia.
    unfold st_bind at 1, st_get at 1. cbn [rc_chain]. rewrite chain_key_S in H. unfold chain_seed in H.
    destruct (kdf_ck (chain_key _ _)) as [nx seed]. cbn in H. destruct (kdf_mk seed) as [key nonce]. cbn in H.
    unfold st_bind, lift_crypto, st_lift, st_modify, st_ret. destruct (aead_open key nonce ct aad); [|done].
    injection H as <- <-. cbn.
    by replace (rv_n r + Z.of_nat (Z.to_nat (n - rv_n r))) with n by lia.
Qed.

(** What the AEAD protects: the plaintext, padded when the chat pads. *)
Definition body_of (pad : Z) (pt : bytes) : bytes :=
  if decide (pad > 0) then pad_to_bucket pt pad else pt.

Definition v2_message (epoch l n : Z) (ct sig : bytes) : bytes :=
  w_new |> put_u8 GROUP_MSG_V2 |> put_u32 epoch |> put_u32 l |> put_u32 n |> put_bytes ct |> put_bytes sig
        |> into_vec.

Lemma parse_v2_message epoch l n ct sig :
  is_u32 epoch -> is_u32 l -> is_u32 n -> zlen ct <= MAX_FRAME -> zlen sig <= MAX_FRAME ->
  parse_v2 (v2_message epoch l n ct sig) = Ok (epoch, l, n, ct, sig).
Proof.
  intros He Hl Hn Hc Hs. unfold parse_v2, v2_message. apply run_decodes_all; wire_norm.
  - rewrite zlen_app, zlen_cons, zlen_nil, !zlen_app, !zlen_enc_bytes, !zlen_be_bytes.
    unfold MAX_FRAME, usize_max in *. lia.
  - eapply decodes_all_bind; [apply decodes_q, decodes_u8; unfold GROUP_MSG_V2; lia|].
    rewrite decide_False by (unfold GROUP_MSG_V2; auto). by dec_all.
Qed.

(** A sender in the middle of an epoch. *)
Record signing (a : TreeKemGroup) (seed ck : bytes) (i : nat) : Prop := {
  sg_sig : tk_my_sig a = Some (id_from_secret_bytes seed);
  sg_chain : tk_send_chain a = chain_key ck i;
  sg_n : tk_send_n a = Z.of_nat i }.

Lemma zlen_msg_aad e l n : zlen (msg_aad e l n) = 12.
Proof. unfold msg_aad. wire_norm. by rewrite !zlen_app, !zlen_be_bytes. Qed.

Lemma encrypt_signed_run a seed ck i pt :
  signing a seed ck i -> Z.of_nat i + 1 < 2 ^ 32 -> zlen (body_of (tk_pad_bucket a) pt) <= MAX_FRAME - 16 ->
  exists ct, let n := Z.of_nat i in
    encrypt_signed pt a =
      (Ok (v2_message (tk_epoch a) (tk_me a) n ct
             (id_sign (id_from_secret_bytes seed) (sig_transcript (tk_epoch a) (tk_me a) n ct))),
       TreeKem.set_send a (chain_key ck (S i)) (n + 1)) /\
    open_with (chain_seed ck i) ct (msg_aad (tk_epoch a) (tk_me a) n) = Ok (body_of (tk_pad_bucket a) pt) /\
    zlen ct <= MAX_FRAME.
Proof.
  intros [Hs Hc Hn] Hi Hb. unfold MAX_FRAME in Hb.
  destruct (seal_with_total (chain_seed ck i) (body_of (tk_pad_bucket a) pt)
    (msg_aad (tk_epoch a) (tk_me a) (Z.of_nat i))) as (ct & Hseal & Hl); [lia|rewrite zlen_msg_aad; lia|].
  exists ct. cbv zeta. split; [|split; [by apply open_seal_with|unfold MAX_FRAME; lia]].
  unfold encrypt_signed, st_bind, st_get, st_lift, lift_crypto, st_modify, st_ret.
  rewrite Hs, Hc, Hn. cbn [ok_or]. rewrite chain_key_S. unfold seal_with, chain_seed in Hseal.
  destruct (kdf_ck (chain_key ck i)) as [nx sd]. cbn in *. destruct (kdf_mk sd) as [key nonce]. cbn in *.
  unfold body_of in Hseal. rewrite Hseal. cbn. rewrite Hn.
  assert (u32_add (Z.of_nat i) 1 = Z.of_nat i + 1) as -> by (apply u32_wrap_small; unfold is_u32; lia). done.
Qed.

Fixpoint encrypt_signed_all (pts : list bytes) : ST TreeKemGroup fault (list bytes) :=
  match pts with
  | [] => st_ret []
  | pt :: pts => do* m := encrypt_signed pt in do* ms := encrypt_signed_all pts in st_ret (m :: ms)
  end.

Fixpoint decrypt_verified_all (msgs : list bytes) : ST TreeKemGroup fault (list bytes) :=
  match msgs with
  | [] => st_ret []
  | m :: ms => do* pt := decrypt_verified m in do* pts := decrypt_verified_all ms in st_ret (pt :: pts)
  end.

(** [m] is the signed message number [i] of leaf [l] in the epoch. *)
Definition signed_msg (epoch l pad : Z) (seed ck : bytes) (i : nat) (m pt : bytes) : Prop :=
  exists ct, m = v2_message epoch l (Z.of_nat i) ct
                   (id_sign (id_from_secret_bytes seed) (sig_transcript epoch l (Z.of_nat i) ct)) /\
    zlen ct <= MAX_FRAME /\
    open_with (chain_seed ck i) ct (msg_aad epoch l (Z.of_nat i)) = Ok (body_of pad pt).

Lemma encrypt_signed_all_run pts a seed ck i :
  signing a seed ck i -> Z.of_nat i + zlen pts < 2 ^ 32 ->
  Forall (fun pt => zlen (body_of (tk_pad_bucket a) pt) <= MAX_FRAME - 16) pts ->
  exists msgs a', encrypt_signed_all pts a = (Ok msgs, a') /\ length msgs = length pts /\
    forall j m pt, msgs !! j = Some m -> pts !! j = Some pt ->
      signed_msg (tk_epoch a) (tk_me a) (tk_pad_bucket a) seed ck (i + j) m pt.
Proof.
  revert a i. induction pts as [|pt pts IH]; intros a i Hsg Hn Hl; cbn [encrypt_signed_all].
  { by exists [], a. }
  apply Forall_cons in Hl as [Hl Hls]. rewrite zlen_cons in Hn. pose proof (zlen_nonneg pts).
  destruct (encrypt_signed_run a seed ck i pt Hsg ltac:(lia) Hl) as (ct & E & Ho & Hcl).
  destruct (IH (TreeKem.set_send a (chain_key ck (S i)) (Z.of_nat i + 1)) (S i)) as (ms & a' & Es & Hlen & Hc).
  { destruct Hsg. split; cbn; [done|done|lia]. }
  { lia. }
  { done. }
  eexists (_ :: ms), a'. unfold st_bind. rewrite E, Es. split; [done|]. split; [simpl; lia|].
  intros [|j] m pt'; cbn [lookup list_lookup].
  - intros [= <-] [= <-]. exists ct. by rewrite Nat.add_0_r.
  - intros Hm Hp. rewrite Nat.add_succ_r. by apply (Hc j).
Qed.

(** The receiver's view of sender [l]. *)
Record verifying (b : TreeKemGroup) (epoch l pad : Z) (seed ck : bytes) (k f : nat) (seen : list nat) : Prop := {
  vf_epoch : tk_epoch b = epoch;
  vf_key : tk_leaf_sig_keys b !! l = Some (id_public (id_from_secret_bytes seed));
  vf_pad : tk_pad_bucket b = pad;
  vf_chain : following (as_receiver (recv_entry b l)) ck 0 k f seen }.

Lemma decrypt_verified_run b epoch l pad seed ck k f seen i m pt :
  verifying b epoch l pad seed ck k f seen -> is_u32 epoch -> is_u32 l ->
  i ∉ seen -> (i < k)%nat -> Z.of_nat k < 2 ^ 32 -> Z.of_nat k <= MAX_SKIP + 1 ->
  zlen pt <= MAX_FRAME -> signed_msg epoch l pad seed ck i m pt ->
  exists b' f', decrypt_verified m b = (Ok pt, b') /\ verifying b' epoch l pad seed ck k f' (i :: seen).
Proof.
  intros [He Hk Hp Hf] Hue Hul His Hik Hu Hz Hpt (ct & -> & Hcl & Ho).
  assert (zlen (id_sign (id_from_secret_bytes seed) (sig_transcript epoch l (Z.of_nat i) ct)) <= MAX_FRAME) as Hsl.
  { unfold zlen. rewrite id_sign_len. pose proof mldsa_lens. unfold MAX_FRAME. lia. }
  destruct (following_step _ ck 0 f seen i k ct _ _ Hf His Hik ltac:(lia) ltac:(lia) Hz Ho) as (r' & f' & Er & Hf').
  rewrite Z.add_0_l in Er. apply chain_open_receiver in Er; [|unfold is_u32; lia|lia|].
  2:{ rewrite (fl_n _ _ _ _ _ _ Hf). pose proof (fl_le _ _ _ _ _ _ Hf). unfold is_u32. lia. }
  replace (of_receiver (as_receiver (recv_entry b l))) with (recv_entry b l) in Er
    by (by destruct (recv_entry b l)).
  exists (set_recvs b (<[l := of_receiver r']> (tk_recvs b))), f'. split.
  - unfold decrypt_verified. unfold st_bind at 1, lift_crypto, st_lift at 1.
    rewrite parse_v2_message by (done || unfold is_u32; lia). cbn [map_err].
    unfold st_bind at 1, st_get at 1. unfold st_bind at 1, st_lift at 1. rewrite Hk. cbn [ok_or].
    rewrite id_verify_sign. cbn [is_ok negb]. rewrite decide_False by auto.
    unfold st_bind at 1, decrypt_body. rewrite Er. unfold st_bind, st_get. cbn [tk_pad_bucket set_recvs].
    rewrite Hp. unfold body_of. case_decide as Hpad; [|done].
    destruct (pad_to_bucket_shape pt pad Hpt) as (nz & Hsh & _).
    unfold st_lift. by rewrite unpad_pad.
  - split; cbn; try done. unfold recv_entry. cbn. rewrite lookup_insert_eq. by destruct r'.
Qed.

Lemma decrypt_verified_all_run b epoch l pad seed ck k f seen (msgs pts : list bytes) order :
  verifying b epoch l pad seed ck k f seen -> is_u32 epoch -> is_u32 l ->
  Z.of_nat k < 2 ^ 32 -> Z.of_nat k <= MAX_SKIP + 1 ->
  NoDup order -> Forall (fun i => i < k /\ i ∉ seen)%nat order ->
  (forall i, (i < k)%nat ->
     zlen (pts !!! i) <= MAX_FRAME /\ signed_msg epoch l pad seed ck i (msgs !!! i) (pts !!! i)) ->
  (decrypt_verified_all ((fun i => msgs !!! i) <$> order) b).1 = Ok ((fun i => pts !!! i) <$> order).
Proof.
  intros Hv He Hl Hu Hz Hnd Ho Hc. revert b f seen Hv Ho.
  induction Hnd as [|i order Hni Hnd IH]; intros b f seen Hv Ho; [done|].
  apply Forall_cons in Ho as [[Hik His] Ho]. destruct (Hc i Hik) as [Hlen Hm].
  destruct (decrypt_verified_run b epoch l pad seed ck k f seen i _ _ Hv He Hl His Hik Hu Hz Hlen Hm)
    as (b' & f' & E & Hv'). cbn. unfold st_bind. rewrite E. specialize (IH b' f' (i :: seen) Hv').
  destruct (decrypt_verified_all _ _) as [res b'']. cbn in *. rewrite IH; [done|].
  apply Forall_forall. intros j Hj. rewrite Forall_forall in Ho. destruct (Ho j Hj).
  split; [done|]. apply not_elem_of_cons. split; [|done]. by intros ->.
Qed.

(** [a] and [b] are in one epoch in which [a] has sent nothing, and [b] knows
    [a]'s leaf by the key [a] signs with. *)
Record fresh_pair (a b : TreeKemGroup) (seed : bytes) : Prop := {
  fp_epoch : tk_epoch b = tk_epoch a;
  fp_u32 : is_u32 (tk_epoch a) /\ is_u32 (tk_me a);
  fp_secret : tk_epoch_secret b = tk_epoch_secret a;
  fp_pad : tk_pad_bucket b = tk_pad_bucket a;
  fp_sig : tk_my_sig a = Some (id_from_secret_bytes seed);
  fp_key : tk_leaf_sig_keys b !! tk_me a = Some (id_public (id_from_secret_bytes seed));
  fp_chain : tk_send_chain a = sender_chain (tk_epoch_secret a) (tk_me a);
  fp_n : tk_send_n a = 0;
  fp_recv : tk_recvs b !! tk_me a = None }.

(** C7: signed group messages arrive in any order.  In a fresh epoch, every one
    of the first [MAX_SKIP + 1] messages a member signs and encrypts opens,
    at any other member that holds the epoch secret and the roster, to its own
    plaintext (padding included), whatever the order of arrival and whatever
    is lost. *)
Theorem signed_messages_deliver (a b : TreeKemGroup) seed (pts : list bytes) (order : list nat) :
  fresh_pair a b seed -> zlen pts <= MAX_SKIP + 1 ->
  Forall (fun pt => zlen pt <= MAX_FRAME /\ zlen (body_of (tk_pad_bucket a) pt) <= MAX_FRAME - 16) pts ->
  NoDup order -> Forall (fun i => i < length pts)%nat order ->
  exists msgs a', encrypt_signed_all pts a = (Ok msgs, a') /\ length msgs = length pts /\
    (decrypt_verified_all ((fun i => msgs !!! i) <$> order) b).1 = Ok ((fun i => pts !!! i) <$> order).
Proof.
  intros [He [Hue Hul] Hes Hp Hs Hk Hc Hn Hr] Hz Hl Hnd Ho. unfold MAX_SKIP, zlen in Hz.
  destruct (encrypt_signed_all_run pts a seed (sender_chain (tk_epoch_secret a) (tk_me a)) 0)
    as (msgs & a' & E & Hlen & Hm).
  { split; cbn [chain_key]; done. }
  { unfold zlen. lia. }
  { eapply Forall_impl; [done|]. by intros ? []. }
  exists msgs, a'. split; [done|]. split; [done|].
  eapply (decrypt_verified_all_run b (tk_epoch a) (tk_me a) (tk_pad_bucket a) seed
    (sender_chain (tk_epoch_secret a) (tk_me a)) (length pts) 0 []); try done; try (unfold MAX_SKIP; lia).
  - split; [done..|]. unfold recv_entry. rewrite Hr, Hes. split; cbn; try done; lia.
  - eapply Forall_impl; [done|]. simpl. intros i Hi. split; [done|]. set_solver.
  - intros i Hi. rewrite Forall_lookup in Hl.
    split; [|apply (Hm i); apply list_lookup_lookup_total_lt; lia].
    by destruct (Hl i (pts !!! i)) as [? _]; [apply list_lookup_lookup_total_lt; lia|].
Qed.

(** The message names a leaf whose bound key signed its epoch, leaf, number and
    ciphertext, and the epoch is the receiver's. *)
Definition message_authentic (g : TreeKemGroup) (message : bytes) : Prop :=
  exists l n ct sig vk, parse_v2 message = Ok (tk_epoch g, l, n, ct, sig) /\
    tk_leaf_sig_keys g !! l = Some vk /\
    id_verify vk (sig_transcript (tk_epoch g) l n ct) sig = Ok tt.

Lemma decrypt_verified_gate (g : TreeKemGroup) (message : bytes) :
  (exists e, decrypt_verified message g = (Err e, g)) \/ message_authentic g message.
Proof.
  unfold decrypt_verified. unfold st_bind at 1, lift_crypto, st_lift at 1.
  destruct (parse_v2 message) as [[[[[epoch l] n] ct] sig]|e] eqn:Ep; cbn [map_err]; [|by eauto].
  unfold st_bind at 1, st_get at 1. unfold st_bind at 1, st_lift at 1.
  destruct (tk_leaf_sig_keys g !! l) as [vk|] eqn:Ek; cbn [ok_or]; [|by eauto].
  destruct (id_verify vk (sig_transcript epoch l n ct) sig) as [[]|e] eqn:Ev; cbn [is_ok negb]; [|by left; eexists].
  destruct (decide (epoch <> tk_epoch g)) as [He|He]; [by left; eexists|].
  right. apply dec_stable in He as ->. by exists l, n, ct, sig, vk.
Qed.

(** C11: group messages are authenticated per sender.  A message that is not a
    signed message of the current epoch, verifying under the key bound to the
    leaf it names, is refused and leaves the group state as it was; in
    particular no holder of the epoch secret can speak for another leaf. *)
Theorem decrypt_verified_authentic (g : TreeKemGroup) (message : bytes) :
  (~ message_authentic g message -> exists e, decrypt_verified message g = (Err e, g)) /\
  (forall pt g', decrypt_verified message g = (Ok pt, g') -> message_authentic g message).
Proof.
  destruct (decrypt_verified_gate g message) as [[e E]|Ha]; [rewrite E|by split].
  split; [by eauto|]. intros ? ? [=].
Qed.
End Exclusion.
