(* ===== verification/TreeDemo.v ===== *)
(** * TreeKEM: the theorems at a concrete group

    A two-member group over the executable primitives of [Toy]: a founder adds
    Bob, and the security theorems are applied to what the two of them hold. *)

From S2P Require Import Prelude Wire Crypto Hybrid Ratchet Conversation SenderKeys TreeNode TreeCodec TreeKem TreeAgree TreeGroup TreeSecurity Toy.

(** ** Wire messages *)

Definition d_key : RatchetPublic := mkRatchetPublic profile_pq_pure_compact None None (bstr "kem key").
Definition d_pub : IdentityPublic := mkIdentityPublic (replicate SIG_VK_LEN (byte_of 7)).
Definition d_commit : Commit :=
  mkCommit [PRemove 1] [(nd 0 0, d_key)] [nd 0 0; nd 1 0] [(nd 1 0, nd 0 1, bstr "sealed")] 2 None (bstr "sig").
Definition d_welcome : Welcome :=
  mkWelcome 2 [(nd 0 0, d_key)] [true; false] 4 1 [(0, d_key, d_pub, bstr "pop")] d_commit.

Lemma d_node_wf j q : bool_decide (0 <= q /\ (q + 1) * 2 ^ Z.of_nat j <= 1024) = true -> node_wf (nd j q).
Proof. intros [? ?]%bool_decide_eq_true. exists j, q. unfold MAX_TREE_ITEMS. split; [done|]. lia. Qed.

Lemma d_key_ok : key_ok profile_pq_pure_compact d_key.
Proof. repeat split. vm_compute. discriminate. Qed.
Lemma d_pub_ok : sig_ok d_pub.
Proof. unfold sig_ok, d_pub. cbn [sig_vk]. apply length_replicate. Qed.

Lemma d_welcome_ok : welcome_ok profile_pq_pure_compact d_welcome.
Proof.
  assert (node_wf (nd 0 0)) by (by apply d_node_wf). assert (node_wf (nd 0 1)) by (by apply d_node_wf).
  assert (node_wf (nd 1 0)) by (by apply d_node_wf).
  pose proof d_key_ok. pose proof d_pub_ok. assert (is_u32 0 /\ is_u32 1 /\ is_u32 4) as (? & ? & ?) by (unfold is_u32; lia).
  assert (blob_ok (bstr "sealed") /\ blob_ok (bstr "sig") /\ blob_ok (bstr "pop")) as (? & ? & ?)
    by (repeat split; vm_compute; discriminate).
  split; cbn [wl_capacity wl_public wl_occupied wl_epoch wl_your_leaf wl_sig_keys wl_commit d_welcome].
  - unfold MAX_TREE_ITEMS. lia.
  - split; [by repeat constructor|vm_compute; discriminate].
  - vm_compute; discriminate.
  - done.
  - done.
  - split; [|vm_compute; discriminate]. constructor; [|constructor]. by repeat split.
  - split; cbn [proposals pub_updates path ciphertexts new_capacity sig_update commit_sig d_commit].
    + split; [by repeat constructor|vm_compute; discriminate].
    + split; [by repeat constructor|vm_compute; discriminate].
    + split; [by repeat constructor|vm_compute; discriminate].
    + split; [by repeat constructor|vm_compute; discriminate].
    + unfold MAX_TREE_ITEMS. lia.
    + exact I.
    + vm_compute; discriminate.
    + done.
  - vm_compute; discriminate.
  - vm_compute; discriminate.
Qed.

Lemma welcome_roundtrip_witness :
  welcome_decode profile_pq_pure_compact (welcome_encode d_welcome) = Ok d_welcome.
Proof. apply welcome_roundtrip. exact d_welcome_ok. Defined.

Definition d_bob : LeafKeyPair := lk_generate_with (P:=toy) profile_pq_pure_compact 11%nat 12%nat.
Definition d_forged : KeyPackage :=
  mkKeyPackage d_key (id_public (lk_sig d_bob)) (bstr "not a proof of possession").

Lemma key_package_gate_witness :
  kp_decode (P:=toy) profile_pq_pure_compact (kp_encode d_forged) = Err BadSignature.
Proof.
  refine (eq_trans (proj1 (key_package_gate (P:=toy) profile_pq_pure_compact d_forged) _) _).
  - split; [exact d_key_ok|]. split; vm_compute; [reflexivity|discriminate].
  - vm_compute. reflexivity.
Defined.

(** ** A group of two *)

Definition d_create : result fault TreeKemGroup :=
  create_with_sig (P:=toy) profile_pq_pure_compact (id_from_secret_bytes (P:=toy) g_seed) 1%nat.
Definition d_founded : option world := g ← to_option d_create; Some (mkWorld g []).
Definition d_added : option world := w ← d_founded; run_op (OpAdd (g_cs 1) d_bob) w.

(** The value of a computation known to succeed. *)
Definition some_of {A} (o : option A) : match o with Some _ => A | None => unit end :=
  match o with Some a => a | None => tt end.

(** The group that the two operations give, evaluated. *)
Definition d_world : world := Eval vm_compute in (some_of (A:=world) d_added <: world).
Definition d_host : TreeKemGroup := w_host d_world.
Definition d_mem : TreeKemGroup := Eval vm_compute in (some_of (A:=TreeKemGroup) (head (w_members d_world)) <: TreeKemGroup).

Lemma d_world_eq : d_added = Some d_world.
Proof. vm_compute. reflexivity. Qed.
Lemma d_mem_in : d_mem ∈ w_members d_world.
Proof. by apply list_elem_of_here. Qed.

Lemma d_reachable : reachable (P:=toy) profile_pq_pure_compact d_world.
Proof.
  pose proof d_world_eq as Hr. revert Hr.
  unfold d_added, d_founded. destruct d_create as [g|] eqn:Eg; [|discriminate].
  cbn [to_option mbind option_bind]. intros Hr.
  destruct (create_run (P:=toy) profile_pq_pure_compact g_seed 1%nat) as (g' & Hg & Hh & Hprof).
  unfold d_create in Eg. rewrite Eg in Hg. injection Hg as <-.
  eapply reach_step; [by eapply reach_found|..|exact Hr].
  split; [split; [cbn [w_host]; rewrite Hprof; reflexivity|reflexivity]|]. right. cbn [w_host].
  rewrite (ti_cap _ _ _ (hi_tree _ _ Hh)). reflexivity.
Qed.

(** The host rotates its keys; the commit as sent and with its signature cut. *)
Definition d_rotation : Commit := Eval vm_compute in
  (some_of (A:=Commit) (to_option (update (P:=toy) 31%nat (g_cs 3) d_host).1) <: Commit).
Definition d_unsigned : Commit :=
  mkCommit (proposals d_rotation) (pub_updates d_rotation) (path d_rotation) (ciphertexts d_rotation)
    (new_capacity d_rotation) (sig_update d_rotation) [].

Lemma commit_authenticated_witness :
  (exists e, apply_commit (P:=toy) d_unsigned d_mem = (Err e, d_mem)) /\
  (exists g', apply_commit (P:=toy) d_rotation d_mem = (Ok tt, g') /\ tk_epoch g' = 2).
Proof.
  split.
  - apply (proj1 (commit_authenticated (P:=toy) d_mem d_unsigned)).
    intros [_ (k & Hk & Hv)]. revert Hv. revert k Hk. vm_compute. intros k [=<-] [=].
  - destruct (apply_commit (P:=toy) d_rotation d_mem) as [r g'] eqn:E.
    assert (r = Ok tt) as ->.
    { change r with ((r, g').1). rewrite <- E. vm_compute. reflexivity. }
    exists g'. split; [reflexivity|].
    rewrite (proj2 (proj2 (commit_authenticated (P:=toy) d_mem d_rotation) g' E)). vm_compute. reflexivity.
Defined.

(** Bob's new keys, signed with his old one. *)
Definition d_new : LeafKeyPair := lk_generate_with (P:=toy) profile_pq_pure_compact 41%nat 42%nat.
Definition d_new_kp : KeyPackage := Eval vm_compute in lk_key_package d_new.
Definition d_auth : bytes :=
  id_sign (lk_sig d_bob) (update_auth_transcript 1 (kp_leaf_public d_new_kp) (kp_sig_public d_new_kp)).
Definition d_proposal : Proposal :=
  PUpdate 1 (kp_leaf_public d_new_kp) (kp_sig_public d_new_kp) (kp_pop d_new_kp) d_auth.

Lemma update_needs_occupant_witness :
  exists g', apply_proposal (P:=toy) d_proposal d_host = (Ok tt, g') /\
    tk_leaf_sig_keys g' = <[1 := kp_sig_public d_new_kp]> (tk_leaf_sig_keys d_host).
Proof.
  destruct (apply_proposal (P:=toy) d_proposal d_host) as [r g'] eqn:E.
  assert (r = Ok tt) as ->.
  { change r with ((r, g').1). rewrite <- E. vm_compute. reflexivity. }
  exists g'. split; [reflexivity|].
  exact (proj2 (proj2 (update_needs_occupant (P:=toy) d_host g' 1 _ _ _ _ E))).
Defined.

Lemma add_overwrites_occupied_witness :
  exists g', apply_proposal (P:=toy)
      (PAdd 1 (kp_leaf_public d_new_kp) (kp_sig_public d_new_kp) (kp_pop d_new_kp)) d_mem = (Ok tt, g') /\
    tk_leaf_sig_keys g' !! 1 = Some (kp_sig_public d_new_kp).
Proof.
  refine (add_overwrites_occupied (P:=toy) d_mem 1 (id_public (lk_sig d_bob)) _ _ _ _ _ _ _).
  - vm_compute. split; [discriminate|reflexivity].
  - vm_compute. reflexivity.
  - vm_compute. reflexivity.
  - vm_compute. reflexivity.
Defined.

Lemma removed_member_excluded_witness :
  exists c h2, remove (P:=toy) (g_cs 5) (tk_me d_mem) d_host = (Ok c, h2) /\
    Forall (fun x => tk_secrets d_mem !! x.1.2 = None) (ciphertexts c) /\
    tk_leaf_sig_keys h2 !! tk_me d_mem = None.
Proof.
  destruct (remove (P:=toy) (g_cs 5) (tk_me d_mem) d_host) as [r h2] eqn:E.
  assert (is_ok r = true) as Hr.
  { change r with ((r, h2).1). rewrite <- E. vm_compute. reflexivity. }
  destruct r as [c|e]; [|discriminate Hr]. exists c, h2. split; [reflexivity|].
  exact (removed_member_excluded (P:=toy) profile_pq_pure_compact d_world d_mem (g_cs 5) c h2
    d_reachable d_mem_in E).
Defined.

Lemma d_fresh : fresh_pair (P:=toy) d_host d_mem g_seed.
Proof.
  split; try (vm_compute; reflexivity).
  split; refine (bool_decide_unpack _ _); vm_compute; exact I.
Qed.

Lemma signed_messages_deliver_witness :
  exists msgs a', encrypt_signed_all (P:=toy) [bstr "one"; bstr "two"; bstr "three"] d_host = (Ok msgs, a') /\
    length msgs = 3%nat /\
    (decrypt_verified_all (P:=toy) ((fun i => msgs !!! i) <$> [2; 0]%nat) d_mem).1 =
      Ok [bstr "three"; bstr "one"].
Proof.
  apply (signed_messages_deliver (P:=toy) d_host d_mem g_seed
    [bstr "one"; bstr "two"; bstr "three"] [2; 0]%nat d_fresh).
  - vm_compute. discriminate.
  - repeat constructor; vm_compute; discriminate.
  - refine (bool_decide_unpack _ _). vm_compute. exact I.
  - repeat constructor.
Defined.

Lemma decrypt_verified_authentic_witness :
  exists e, decrypt_verified (P:=toy) (bstr "not a group message") d_mem = (Err e, d_mem).
Proof.
  apply (proj1 (decrypt_verified_authentic (P:=toy) d_mem (bstr "not a group message"))).
  intros (l & n & ct & sig & vk & Hp & _). revert Hp. vm_compute. discriminate.
Defined.
