(* ===== verification/Frag.v ===== *)
(** * Mesh fragmentation and reassembly

    [transport/src/mesh/frag.rs]: the ten-byte fragment header, splitting a sealed
    blob for a small-MTU mesh, and the bounded reassembler with its oldest-first
    eviction. *)

From S2P Require Import Prelude.

(** ** The header *)

Definition MAGIC0 : Z := 167.
Definition MAGIC1 : Z := 109.
Definition FRAG_VERSION : Z := 1.
Definition HEADER_LEN : Z := 10.
Definition KIND_ADVERT : Z := 0.
Definition KIND_FRAME : Z := 1.
Definition MIN_MTU : Z := HEADER_LEN + 1.
Definition MAX_FRAGMENTS : Z := 256.

Record Fragment : Type := mkFragment {
  fr_kind : Z; fr_msg_id : Z; fr_index : Z; fr_count : Z; fr_chunk : bytes }.

(** The ten indexed reads of the source; a shorter packet has none of them. *)
Definition parse_fragment (packet : bytes) : option Fragment :=
  match packet with
  | b0 :: b1 :: b2 :: b3 :: b4 :: b5 :: b6 :: b7 :: b8 :: b9 :: chunk =>
      if decide (bval b0 <> MAGIC0 \/ bval b1 <> MAGIC1 \/ bval b2 <> FRAG_VERSION) then None
      else
        let kind := bval b3 in
        let msg_id := be_val [b4; b5] in
        let frag_index := be_val [b6; b7] in
        let frag_count := be_val [b8; b9] in
        if decide (frag_count = 0 \/ frag_index >= frag_count \/ frag_count > MAX_FRAGMENTS) then None
        else Some (mkFragment kind msg_id frag_index frag_count chunk)
  | _ => None
  end.

(** [slice::chunks]: pieces of [n] elements, the last one possibly shorter. *)
Fixpoint chunks_fuel (fuel : nat) (n : nat) (l : bytes) : list bytes :=
  match fuel, l with
  | S fuel, _ :: _ => take n l :: chunks_fuel fuel n (drop n l)
  | _, _ => []
  end.
Definition chunks (n : nat) (l : bytes) : list bytes := chunks_fuel (length l) n l.

(** [usize::div_ceil] *)
Definition div_ceil (a b : Z) : Z := (a + b - 1) / b.

Definition frag_packet (kind msg_id count : Z) (i : nat) (chunk : bytes) : bytes :=
  [byte_of MAGIC0; byte_of MAGIC1; byte_of FRAG_VERSION; byte_of kind] ++
  be_bytes 2 msg_id ++ be_bytes 2 (Z.of_nat i) ++ be_bytes 2 count ++ chunk.

Definition fragment (kind msg_id : Z) (payload : bytes) (mtu : Z) : option (list bytes) :=
  if decide (mtu < MIN_MTU \/ payload = []) then None
  else
    let chunk_size := mtu - HEADER_LEN in
    let count := div_ceil (zlen payload) chunk_size in
    if decide (count = 0 \/ count > MAX_FRAGMENTS) then None
    else Some (imap (frag_packet kind msg_id count) (chunks (Z.to_nat chunk_size) payload)).

(** ** The reassembler *)

Record Partial : Type := mkPartial {
  pt_frag_count : Z; pt_chunks : list (option bytes); pt_have : Z; pt_bytes : Z }.

Definition Key : Type := string * Z * Z.

Record Reassembler : Type := mkReassembler {
  rs_partials : gmap Key Partial;
  rs_order : list Key;
  rs_only_kind : option Z;
  rs_max_messages : Z;
  rs_max_bytes : Z;
  rs_buffered : Z }.

Definition with_limits (max_messages max_bytes : Z) : Reassembler :=
  mkReassembler ∅ [] None (Z.max max_messages 1) (Z.max max_bytes 1) 0.
Definition reassembler_default : Reassembler := with_limits 32 (1024 * 1024).
Definition for_kind (kind : Z) : Reassembler :=
  let r := reassembler_default in
  mkReassembler (rs_partials r) (rs_order r) (Some kind) (rs_max_messages r) (rs_max_bytes r) (rs_buffered r).
Definition in_flight (r : Reassembler) : Z := Z.of_nat (size (rs_partials r)).

Definition set_parts (r : Reassembler) (ps : gmap Key Partial) (order : list Key) (buffered : Z) : Reassembler :=
  mkReassembler ps order (rs_only_kind r) (rs_max_messages r) (rs_max_bytes r) buffered.

Definition saturating_sub (a b : Z) : Z := Z.max 0 (a - b).

(** [while (partials.len() >= max || buffered + incoming > max_bytes) && !order.is_empty()]:
    each turn drops the head of [order], so the loop is structural in it. *)
Fixpoint evict_loop (incoming : Z) (order : list Key) (r : Reassembler) : Reassembler :=
  match order with
  | [] => set_parts r (rs_partials r) [] (rs_buffered r)
  | oldest :: order' =>
      if decide (in_flight r >= rs_max_messages r \/ rs_buffered r + incoming > rs_max_bytes r) then
        evict_loop incoming order'
          (match rs_partials r !! oldest with
           | Some p => set_parts r (delete oldest (rs_partials r)) order' (saturating_sub (rs_buffered r) (pt_bytes p))
           | None => set_parts r (rs_partials r) order' (rs_buffered r)
           end)
      else r
  end.
Definition evict_if_needed (incoming : Z) (r : Reassembler) : Reassembler :=
  evict_loop incoming (rs_order r) r.

(** Store the chunk of [f] unless its index has already arrived. *)
Definition store_chunk (f : Fragment) (p : Partial) : Partial * Z :=
  match pt_chunks p !! Z.to_nat (fr_index f) with
  | Some None =>
      (mkPartial (pt_frag_count p) (<[Z.to_nat (fr_index f) := Some (fr_chunk f)]> (pt_chunks p))
         (pt_have p + 1) (pt_bytes p + zlen (fr_chunk f)), zlen (fr_chunk f))
  | _ => (p, 0)
  end.

Definition ensure_slot (key : Key) (f : Fragment) (r : Reassembler) : Reassembler :=
  match rs_partials r !! key with
  | Some _ => r
  | None =>
      let r := evict_if_needed (zlen (fr_chunk f)) r in
      set_parts r
        (<[key := mkPartial (fr_count f) (replicate (Z.to_nat (fr_count f)) None) 0 0]> (rs_partials r))
        (rs_order r ++ [key]) (rs_buffered r)
  end.

(** The optional kind filter rejects [kind]. *)
Definition other_kind (r : Reassembler) (kind : Z) : bool :=
  match rs_only_kind r with Some want => bool_decide (kind <> want) | None => false end.

Definition accept (source : string) (packet : bytes) (r : Reassembler) : option bytes * Reassembler :=
  match parse_fragment packet with
  | None => (None, r)
  | Some f =>
      if other_kind r (fr_kind f) then (None, r)
      else
        let key : Key := (source, fr_msg_id f, fr_kind f) in
        let r := ensure_slot key f r in
        match rs_partials r !! key with
        | None => (None, r)
        | Some p =>
            if decide (pt_frag_count p <> fr_count f \/ fr_index f >= zlen (pt_chunks p)) then (None, r)
            else
              let (p, added) := store_chunk f p in
              let buffered := rs_buffered r + added in
              if decide (pt_have p = pt_frag_count p) then
                (Some (mjoin (default [] <$> pt_chunks p)),
                 set_parts r (delete key (rs_partials r)) (filter (fun k => k <> key) (rs_order r))
                   (saturating_sub buffered (pt_bytes p)))
              else (None, set_parts r (<[key := p]> (rs_partials r)) (rs_order r) buffered)
        end
  end.

(** Packets as they come off the air, with their senders. *)
Fixpoint accept_all (tr : list (string * bytes)) (r : Reassembler) : Reassembler :=
  match tr with
  | [] => r
  | (s, p) :: tr => accept_all tr (accept s p r).2
  end.

(** ** Parsing and splitting *)

Lemma parse_frag_packet kind id count i chunk :
  0 <= kind < 256 -> 0 <= id < 2 ^ 16 -> 0 <= Z.of_nat i < count -> count <= MAX_FRAGMENTS ->
  parse_fragment (frag_packet kind id count i chunk) = Some (mkFragment kind id (Z.of_nat i) count chunk).
Proof.
  unfold MAX_FRAGMENTS. intros Hk Hid Hi Hc.
  assert (forall z, 0 <= z < 2 ^ 16 -> exists a b, be_bytes 2 z = [a; b] /\ be_val [a; b] = z) as H2.
  { intros z Hz. pose proof (length_be_bytes 2 z) as Hl. pose proof (be_val_bytes 2 z) as Hv.
    destruct (be_bytes 2 z) as [|a [|b [|]]]; try done. exists a, b. split; [done|].
    rewrite Hv. by apply Z.mod_small. }
  unfold frag_packet. destruct (H2 id Hid) as (a & b & -> & Ha).
  destruct (H2 (Z.of_nat i)) as (c & d & -> & Hcd); [lia|]. destruct (H2 count) as (e & f & -> & Hef); [lia|].
  cbn [app parse_fragment]. rewrite Ha, Hcd, Hef, !bval_byte_of, (Z.mod_small kind) by lia.
  rewrite decide_False by (vm_compute; naive_solver). rewrite decide_False by (unfold MAX_FRAGMENTS; lia). done.
Qed.

Lemma zlen_frag_packet kind id count i chunk : zlen (frag_packet kind id count i chunk) = HEADER_LEN + zlen chunk.
Proof. unfold frag_packet. rewrite !zlen_app, !zlen_be_bytes. unfold HEADER_LEN, zlen. simpl. lia. Qed.

Lemma parse_fragment_bounds p f :
  parse_fragment p = Some f ->
  0 <= fr_index f < fr_count f /\ fr_count f <= MAX_FRAGMENTS /\ zlen (fr_chunk f) = zlen p - HEADER_LEN.
Proof.
  unfold parse_fragment. do 10 (destruct p as [|? p]; [done|]). case_decide; [done|].
  case_decide as Hc; [done|]. intros [= <-]. cbn [fr_index fr_count fr_chunk].
  pose proof (be_val_range [b5; b6]). rewrite !zlen_cons. unfold HEADER_LEN. lia.
Qed.

Lemma chunks_spec fuel n l :
  (0 < n)%nat -> (length l <= fuel)%nat ->
  mjoin (chunks_fuel fuel n l) = l /\ Forall (fun c => length c <= n)%nat (chunks_fuel fuel n l) /\
  Z.of_nat (length (chunks_fuel fuel n l)) = div_ceil (zlen l) (Z.of_nat n).
Proof.
  intros Hn. revert l. induction fuel as [|fuel IH]; intros [|x l] Hl; cbn [length] in Hl; try lia.
  - split; [done|]. split; [constructor|]. unfold div_ceil, zlen. cbn [length]. symmetry. apply Z.div_small. lia.
  - split; [done|]. split; [constructor|]. unfold div_ceil, zlen. cbn [length]. symmetry. apply Z.div_small. lia.
  - cbn [chunks_fuel]. destruct (IH (drop n (x :: l))) as (H1 & H2 & H3).
    { rewrite length_drop. cbn [length]. lia. }
    split; [|split].
    + change (take n (x :: l) ++ mjoin (chunks_fuel fuel n (drop n (x :: l))) = x :: l). rewrite H1. apply take_drop.
    + constructor; [|done]. rewrite length_take. lia.
    + cbn [length]. rewrite Nat2Z.inj_succ, H3. unfold div_ceil, zlen. rewrite length_drop. cbn [length].
      destruct (decide (n <= S (length l))%nat).
      * replace (Z.of_nat (S (length l)) + Z.of_nat n - 1)
          with (Z.of_nat (S (length l) - n) + Z.of_nat n - 1 + 1 * Z.of_nat n) by lia.
        rewrite Z.div_add by lia. lia.
      * replace (S (length l) - n)%nat with 0%nat by lia. rewrite (Z.div_small (Z.of_nat 0 + _ - 1)) by lia.
        apply (Z.div_unique _ _ _ (Z.of_nat (length l))); lia.
Qed.

(** ** The invariant *)

Definition stored (l : list (option bytes)) : Z := foldr (fun (o : option bytes) n => (if o then 1 else 0) + n) 0 l.
Definition stored_bytes (l : list (option bytes)) : Z := foldr (fun o n => zlen (default [] o) + n) 0 l.

Lemma stored_insert l i c :
  l !! i = Some None ->
  stored (<[i := Some c]> l) = stored l + 1 /\ stored_bytes (<[i := Some c]> l) = stored_bytes l + zlen c.
Proof.
  revert i. induction l as [|o l IH]; intros [|i]; cbn [lookup list_lookup]; try done.
  - intros [= ->]. cbn. fold (stored l) (stored_bytes l). unfold zlen. simpl. lia.
  - intros H. destruct (IH i H) as [E1 E2]. change (<[S i:=Some c]> (o :: l)) with (o :: <[i:=Some c]> l).
    cbn [stored stored_bytes foldr]. fold (stored l) (stored_bytes l) (stored (<[i:=Some c]> l)) (stored_bytes (<[i:=Some c]> l)).
    rewrite E1, E2. lia.
Qed.

Lemma stored_range l : 0 <= stored l <= zlen l.
Proof. induction l as [|[c|] l IH]; [done|..]; rewrite zlen_cons; cbn [stored foldr]; fold (stored l); lia. Qed.

Lemma stored_full l : stored l = zlen l -> Forall is_Some l.
Proof.
  induction l as [|[c|] l IH]; [done|..]; rewrite zlen_cons; cbn [stored foldr]; fold (stored l).
  - intros. constructor; [done|]. apply IH. lia.
  - pose proof (stored_range l). lia.
Qed.

Lemma stored_replicate n : stored (replicate n None) = 0 /\ stored_bytes (replicate n None) = 0.
Proof. by induction n. Qed.

Lemma stored_bytes_bound m l :
  Forall (fun o => zlen (default [] o) <= m) l -> 0 <= stored_bytes l <= zlen l * m.
Proof.
  induction 1 as [|o l Ho _ IH]; [done|]. rewrite zlen_cons. cbn [stored_bytes foldr]. fold (stored_bytes l).
  pose proof (zlen_nonneg (default [] o)). lia.
Qed.

Record partial_ok (m : Z) (p : Partial) : Prop := {
  po_len : zlen (pt_chunks p) = pt_frag_count p;
  po_count : 1 <= pt_frag_count p <= MAX_FRAGMENTS;
  po_have : pt_have p = stored (pt_chunks p);
  po_open : pt_have p < pt_frag_count p;
  po_bytes : pt_bytes p = stored_bytes (pt_chunks p);
  po_chunks : Forall (fun o => zlen (default [] o) <= m) (pt_chunks p) }.

Definition bytes_in (ps : gmap Key Partial) (order : list Key) : Z :=
  foldr (fun k n => from_option pt_bytes 0 (ps !! k) + n) 0 order.

Lemma bytes_in_ext ps ps' order :
  (forall k, k ∈ order -> ps !! k = ps' !! k) -> bytes_in ps order = bytes_in ps' order.
Proof.
  induction order as [|k order IH]; intros H; [done|]. cbn. fold (bytes_in ps order) (bytes_in ps' order).
  rewrite IH by set_solver. by rewrite (H k) by set_solver.
Qed.

Lemma bytes_in_app ps a b : bytes_in ps (a ++ b) = bytes_in ps a + bytes_in ps b.
Proof.
  induction a as [|k a IH]; [done|]. cbn. fold (bytes_in ps a) (bytes_in ps (a ++ b)). rewrite IH. lia.
Qed.

Lemma filter_absent (k : Key) (order : list Key) : k ∉ order -> filter (fun x => x <> k) order = order.
Proof.
  induction order as [|x order IH]; intros H; [done|]. rewrite filter_cons, decide_True by set_solver.
  rewrite IH by set_solver. done.
Qed.

Lemma bytes_in_split ps order k :
  NoDup order -> k ∈ order ->
  bytes_in ps order = from_option pt_bytes 0 (ps !! k) + bytes_in ps (filter (fun x => x <> k) order).
Proof.
  induction 1 as [|x order Hx _ IH]; intros Hk; [by apply elem_of_nil in Hk|].
  cbn [bytes_in foldr]. fold (bytes_in ps order). rewrite filter_cons. apply elem_of_cons in Hk as [<-|Hk].
  - rewrite decide_False by auto. do 2 f_equal. by rewrite filter_absent.
  - rewrite decide_True by (by intros ->). cbn [bytes_in foldr]. fold (bytes_in ps (filter (fun x => x <> k) order)).
    rewrite IH by done. lia.
Qed.

(** [m] bounds the payload of every packet received so far. *)
Record reasm_inv (m : Z) (r : Reassembler) : Prop := {
  ri_nodup : NoDup (rs_order r);
  ri_dom k : k ∈ rs_order r <-> is_Some (rs_partials r !! k);
  ri_parts : map_Forall (fun _ => partial_ok m) (rs_partials r);
  ri_bytes : rs_buffered r = bytes_in (rs_partials r) (rs_order r);
  ri_size : size (rs_partials r) = length (rs_order r);
  ri_max : 1 <= rs_max_messages r;
  ri_flight : in_flight r <= rs_max_messages r }.

Lemma bytes_in_bound m ps order :
  map_Forall (fun _ => partial_ok m) ps -> 0 <= m ->
  0 <= bytes_in ps order <= zlen order * (MAX_FRAGMENTS * m).
Proof.
  intros Hp Hm. induction order as [|k order IH]; [done|]. rewrite zlen_cons. cbn. fold (bytes_in ps order).
  assert (0 <= from_option pt_bytes 0 (ps !! k) <= MAX_FRAGMENTS * m); [|lia].
  destruct (ps !! k) as [p|] eqn:E; cbn; [|unfold MAX_FRAGMENTS; lia].
  destruct (Hp k p E) as [Hl Hc _ _ -> Hf]. pose proof (stored_bytes_bound m _ Hf). nia.
Qed.

Lemma partial_bytes_nonneg m p : partial_ok m p -> 0 <= m -> 0 <= pt_bytes p.
Proof. intros [_ _ _ _ -> Hf] Hm. pose proof (stored_bytes_bound m _ Hf). lia. Qed.

Ltac rs_fields := cbn [set_parts rs_partials rs_order rs_only_kind rs_max_messages rs_max_bytes rs_buffered].

Lemma drop_key_inv m r k p :
  0 <= m -> reasm_inv m r -> rs_partials r !! k = Some p ->
  reasm_inv m (set_parts r (delete k (rs_partials r)) (filter (fun x => x <> k) (rs_order r))
                 (saturating_sub (rs_buffered r) (pt_bytes p))).
Proof.
  intros Hm [Hn Hd Hp Hb Hs Hx Hf] Hk.
  assert (k ∈ rs_order r) as Hin by (apply Hd; eauto).
  pose proof (bytes_in_split (rs_partials r) _ k Hn Hin) as Hsp. rewrite Hk in Hsp. cbn in Hsp.
  assert (map_Forall (fun _ => partial_ok m) (delete k (rs_partials r))) as Hp' by (by apply map_Forall_delete).
  assert (bytes_in (rs_partials r) (filter (fun x => x <> k) (rs_order r)) =
    bytes_in (delete k (rs_partials r)) (filter (fun x => x <> k) (rs_order r))) as Heq.
  { apply bytes_in_ext. intros x [Hne _]%list_elem_of_filter. by rewrite lookup_delete_ne. }
  assert (Z.of_nat (size (delete k (rs_partials r))) = Z.of_nat (size (rs_partials r)) - 1) as Hsz.
  { rewrite map_size_delete_Some by eauto.
    assert (size (rs_partials r) <> 0%nat); [|lia]. rewrite Hs. destruct (rs_order r); [by apply elem_of_nil in Hin|done]. }
  split; rs_fields; try done.
  - by apply NoDup_filter.
  - intros x. rewrite list_elem_of_filter, Hd. destruct (decide (x = k)) as [->|Hne].
    + rewrite lookup_delete_eq. split; [naive_solver|by intros []].
    + rewrite lookup_delete_ne by done. naive_solver.
  - rewrite <- Heq. pose proof (bytes_in_bound m _ (filter (fun x => x <> k) (rs_order r)) Hp' Hm).
    unfold saturating_sub. lia.
  - assert (forall l : list Key, NoDup l -> k ∈ l -> length l = S (length (filter (fun x => x <> k) l))) as Hlen.
    { induction 1 as [|x l Hx' _ IH]; intros Hkl; [by apply elem_of_nil in Hkl|]. rewrite filter_cons.
      apply elem_of_cons in Hkl as [<-|Hkl]; [rewrite decide_False by auto; by rewrite filter_absent|].
      rewrite decide_True by (by intros ->). cbn. by rewrite IH. }
    specialize (Hlen _ Hn Hin). lia.
  - unfold in_flight in *. cbn. lia.
Qed.

Lemma put_key_inv m r k p p' added :
  reasm_inv m r -> rs_partials r !! k = Some p -> partial_ok m p' -> pt_bytes p' = pt_bytes p + added ->
  reasm_inv m (set_parts r (<[k := p']> (rs_partials r)) (rs_order r) (rs_buffered r + added)).
Proof.
  intros [Hn Hd Hp Hb Hs Hx Hf] Hk Hok Hadd. assert (k ∈ rs_order r) as Hin by (apply Hd; eauto).
  split; rs_fields; try done.
  - intros x. rewrite Hd. destruct (decide (x = k)) as [->|Hne]; [rewrite lookup_insert_eq, Hk|rewrite lookup_insert_ne by done]; naive_solver.
  - by apply map_Forall_insert_2.
  - rewrite Hb, !(bytes_in_split _ _ k Hn Hin), lookup_insert_eq, Hk. cbn.
    rewrite (bytes_in_ext (<[k:=p']> (rs_partials r)) (rs_partials r)); [lia|].
    intros x [Hne _]%list_elem_of_filter. by rewrite lookup_insert_ne.
  - rewrite map_size_insert_Some by eauto. done.
  - unfold in_flight in *. cbn. by rewrite map_size_insert_Some by eauto.
Qed.

Lemma new_key_inv m r k p :
  reasm_inv m r -> rs_partials r !! k = None -> partial_ok m p -> pt_bytes p = 0 ->
  in_flight r < rs_max_messages r ->
  reasm_inv m (set_parts r (<[k := p]> (rs_partials r)) (rs_order r ++ [k]) (rs_buffered r)).
Proof.
  intros [Hn Hd Hp Hb Hs Hx Hf] Hk Hok H0 Hroom.
  assert (k ∉ rs_order r) as Hin by (rewrite Hd, Hk; by intros []).
  split; rs_fields; try done.
  - apply NoDup_app. split; [done|]. split; [set_solver|]. apply NoDup_singleton.
  - intros x. rewrite elem_of_app, Hd, list_elem_of_singleton. destruct (decide (x = k)) as [->|Hne];
      [rewrite lookup_insert_eq|rewrite lookup_insert_ne by done]; naive_solver.
  - by apply map_Forall_insert_2.
  - rewrite bytes_in_app. cbn. rewrite lookup_insert_eq. cbn. rewrite H0, Hb, Z.add_0_r.
    apply bytes_in_ext. intros x Hx'. rewrite lookup_insert_ne; [done|]. by intros ->.
  - rewrite map_size_insert_None by done. rewrite length_app. cbn. lia.
  - unfold in_flight in *. cbn. rewrite map_size_insert_None by done. lia.
Qed.

Definition same_limits (r r' : Reassembler) : Prop :=
  rs_only_kind r' = rs_only_kind r /\ rs_max_messages r' = rs_max_messages r /\ rs_max_bytes r' = rs_max_bytes r.

Lemma evict_inv m incoming order r :
  0 <= m -> reasm_inv m r -> rs_order r = order ->
  let r' := evict_loop incoming order r in
  reasm_inv m r' /\ in_flight r' < rs_max_messages r' /\ same_limits r r' /\ rs_partials r' ⊆ rs_partials r.
Proof.
  intros Hm. revert r. induction order as [|k order IH]; intros r Hi Ho; cbn [evict_loop].
  - assert (set_parts r (rs_partials r) [] (rs_buffered r) = r) as -> by (destruct r; cbn in *; by subst).
    split; [done|]. split; [|done]. unfold in_flight. rewrite (ri_size _ _ Hi), Ho. cbn.
    pose proof (ri_max _ _ Hi). lia.
  - case_decide as Hc.
    + assert (k ∈ rs_order r) as Hk by (rewrite Ho; set_solver). apply (ri_dom _ _ Hi) in Hk as [p Hp]. rewrite Hp.
      pose proof (drop_key_inv m r k p Hm Hi Hp) as Hd. rewrite Ho in Hd.
      pose proof (ri_nodup _ _ Hi) as Hn. rewrite Ho in Hn. apply NoDup_cons in Hn as [Hn _].
      rewrite filter_cons, decide_False, filter_absent in Hd by auto.
      destruct (IH _ Hd eq_refl) as (H1 & H2 & H3 & H4). split; [done|]. split; [done|]. split; [done|].
      eapply transitivity; [exact H4|]. rs_fields. apply delete_subseteq.
    + split; [done|]. split; [lia|done].
Qed.

Lemma store_chunk_ok m f p :
  partial_ok m p -> 0 <= fr_index f < pt_frag_count p -> zlen (fr_chunk f) <= m ->
  let '(p', added) := store_chunk f p in
  pt_frag_count p' = pt_frag_count p /\ pt_bytes p' = pt_bytes p + added /\ 0 <= added <= zlen (fr_chunk f) /\
  (pt_have p' <> pt_frag_count p' -> partial_ok m p').
Proof.
  intros [Hl Hc Hh Ho Hb Hf] Hi Hm. unfold store_chunk. pose proof (zlen_nonneg (fr_chunk f)).
  destruct (pt_chunks p !! Z.to_nat (fr_index f)) as [[c|]|] eqn:E.
  - repeat split; try done; try lia.
  - cbn [pt_frag_count pt_bytes pt_have]. destruct (stored_insert _ _ (fr_chunk f) E) as [Hs1 Hs2].
    split; [done|]. split; [done|]. split; [lia|]. intros Hne.
    split; cbn [pt_frag_count pt_bytes pt_have pt_chunks]; try done; try lia.
    + unfold zlen in *. by rewrite length_insert.
    + by apply Forall_insert.
  - repeat split; try done; try lia.
Qed.

Lemma ensure_slot_inv m k f r :
  0 <= m -> reasm_inv m r -> 1 <= fr_count f <= MAX_FRAGMENTS ->
  reasm_inv m (ensure_slot k f r) /\ same_limits r (ensure_slot k f r) /\ is_Some (rs_partials (ensure_slot k f r) !! k).
Proof.
  intros Hm Hi Hc. unfold ensure_slot. destruct (rs_partials r !! k) as [p|] eqn:Ek; [by rewrite Ek|].
  unfold evict_if_needed.
  destruct (evict_inv m (zlen (fr_chunk f)) _ r Hm Hi eq_refl) as (H1 & H2 & H3 & H4). split; [|split].
  - apply new_key_inv; try done.
    + by eapply lookup_weaken_None.
    + destruct (stored_replicate (Z.to_nat (fr_count f))) as [Hs Hb].
      split; cbn; try done; try lia.
      * unfold zlen. rewrite length_replicate. lia.
      * apply Forall_replicate. unfold zlen. cbn. lia.
  - done.
  - rs_fields. rewrite lookup_insert_eq. eauto.
Qed.

Lemma accept_inv m s packet r :
  0 <= m -> reasm_inv m r -> zlen packet <= HEADER_LEN + m ->
  reasm_inv m (accept s packet r).2 /\ same_limits r (accept s packet r).2.
Proof.
  intros Hm Hi Hlen. unfold accept. destruct (parse_fragment packet) as [f|] eqn:Ep; [|done].
  destruct (parse_fragment_bounds _ _ Ep) as (Hix & Hcount & Hch).
  destruct (other_kind r (fr_kind f)); [done|]. cbv zeta. set (key := ((s, fr_msg_id f, fr_kind f) : Key)).
  destruct (ensure_slot_inv m key f r Hm Hi ltac:(lia)) as (H1 & H2 & [p Hp]). rewrite Hp.
  case_decide as Hbad; [done|]. pose proof (ri_parts _ _ H1 key p Hp) as Hok.
  pose proof (store_chunk_ok m f p Hok ltac:(lia) ltac:(lia)) as Hst.
  destruct (store_chunk f p) as [p' added] eqn:Es. destruct Hst as (Hc' & Hb' & Hadd & Hok').
  case_decide as Hdone; split; try done.
  - assert (saturating_sub (rs_buffered (ensure_slot key f r) + added) (pt_bytes p') =
      saturating_sub (rs_buffered (ensure_slot key f r)) (pt_bytes p)) as -> by (unfold saturating_sub; lia).
    by apply drop_key_inv.
  - apply (put_key_inv m _ key p); auto.
Qed.

Lemma with_limits_inv m a b : reasm_inv m (with_limits a b).
Proof.
  split; rs_fields; cbn; try done; try lia.
  - constructor.
  - intros k. split; [by intros ?%elem_of_nil|]. rewrite lookup_empty. by intros [].
  - unfold in_flight. cbn. rewrite map_size_empty. lia.
Qed.

Lemma accept_all_inv m tr r :
  0 <= m -> reasm_inv m r -> Forall (fun x => zlen x.2 <= HEADER_LEN + m) tr ->
  reasm_inv m (accept_all tr r) /\ same_limits r (accept_all tr r).
Proof.
  intros Hm. revert r. induction tr as [|[s p] tr IH]; intros r Hi Hf; [done|].
  apply Forall_cons in Hf as [Hp Hf]. destruct (accept_inv m s p r Hm Hi Hp) as [H1 (E1 & E2 & E3)].
  destruct (IH _ H1 Hf) as [H2 (F1 & F2 & F3)]. split; [done|]. unfold same_limits. cbn. by rewrite F1, F2, F3.
Qed.

(** C31: the mesh reassembler cannot be flooded.  Whatever packets arrive from
    whatever sources, each with at most [m] bytes after its header, a fresh
    reassembler holds at most [max_messages] partial messages, its byte count is
    exactly what they buffer, and that is at most [max_messages * 256 * m];
    every partial message is incomplete and has one slot per fragment. *)
Theorem reassembler_bounded (max_messages max_bytes m : Z) (tr : list (string * bytes)) :
  0 <= m -> Forall (fun x => zlen x.2 <= HEADER_LEN + m) tr ->
  let r := accept_all tr (with_limits max_messages max_bytes) in
  in_flight r <= Z.max max_messages 1 /\
  0 <= rs_buffered r <= Z.max max_messages 1 * (MAX_FRAGMENTS * m) /\
  rs_buffered r = bytes_in (rs_partials r) (rs_order r) /\
  map_Forall (fun _ p => zlen (pt_chunks p) = pt_frag_count p /\ pt_have p < pt_frag_count p <= MAX_FRAGMENTS)
    (rs_partials r).
Proof.
  intros Hm Hf r. destruct (accept_all_inv m tr _ Hm (with_limits_inv m max_messages max_bytes) Hf) as [Hi (_ & Hmax & _)].
  fold r in Hi, Hmax. cbn in Hmax. pose proof (ri_flight _ _ Hi) as Hfl. rewrite Hmax in Hfl.
  split; [done|]. split; [|split].
  - rewrite (ri_bytes _ _ Hi). pose proof (bytes_in_bound m _ (rs_order r) (ri_parts _ _ Hi) Hm).
    unfold in_flight in Hfl. rewrite (ri_size _ _ Hi) in Hfl. unfold zlen in *.
    unfold MAX_FRAGMENTS in *. nia.
  - apply Hi.
  - intros k p Hp. destruct (ri_parts _ _ Hi k p Hp). lia.
Qed.

(** ** Delivery *)

Lemma evict_noop m incoming r :
  reasm_inv m r -> in_flight r < rs_max_messages r -> rs_buffered r + incoming <= rs_max_bytes r ->
  evict_if_needed incoming r = r.
Proof.
  intros Hi H1 H2. unfold evict_if_needed. destruct (rs_order r) as [|k o] eqn:E; cbn.
  - destruct r; cbn in *; by subst.
  - by rewrite decide_False by lia.
Qed.

(** The message a packet belongs to, if the reassembler looks at it at all. *)
Definition packet_key (r : Reassembler) (x : string * bytes) : option Key :=
  f ← parse_fragment x.2; if other_kind r (fr_kind f) then None else Some (x.1, fr_msg_id f, fr_kind f).
Definition keys_of (r : Reassembler) (tr : list (string * bytes)) : gset Key := list_to_set (omap (packet_key r) tr).

(** A partial message is there, or may be opened without evicting one. *)
Definition has_room (r : Reassembler) (key : Key) : Prop := rs_partials r !! key = None -> in_flight r < rs_max_messages r.

Lemma room_within (r : Reassembler) (key : Key) (U : gset Key) :
  dom (rs_partials r) ⊆ U -> Z.of_nat (size U) <= rs_max_messages r -> key ∈ U -> has_room r key.
Proof.
  intros HU Hs Hk Hn. unfold in_flight. rewrite <- (size_dom (D := gset Key)).
  assert (size (dom (rs_partials r)) < size U)%nat; [|lia]. apply subset_size. split; [done|]. intros H. apply not_elem_of_dom in Hn. set_solver.
Qed.

(** A partial message for [key] exists or is created, and nothing else moves. *)
Lemma ensure_slot_room m key f r :
  reasm_inv m r -> has_room r key -> rs_buffered r + zlen (fr_chunk f) <= rs_max_bytes r ->
  let r1 := ensure_slot key f r in
  rs_buffered r1 = rs_buffered r /\ dom (rs_partials r1) = {[key]} ∪ dom (rs_partials r) /\
  (forall k, k <> key -> rs_partials r1 !! k = rs_partials r !! k) /\
  rs_partials r1 !! key = Some (default (mkPartial (fr_count f) (replicate (Z.to_nat (fr_count f)) None) 0 0)
                                  (rs_partials r !! key)).
Proof.
  intros Hi H1 H2. unfold ensure_slot. destruct (rs_partials r !! key) as [p|] eqn:E; cbn zeta.
  - rewrite E. split; [done|]. split; [|done]. apply elem_of_dom_2 in E. set_solver.
  - rewrite (evict_noop m) by (done || by apply H1). rs_fields. split; [done|]. split; [by rewrite dom_insert_L|]. split.
    + intros k Hk. by rewrite lookup_insert_ne.
    + by rewrite lookup_insert_eq.
Qed.

(** A packet for another message leaves ours alone while there is room. *)
Lemma accept_other m s packet r k :
  0 <= m -> reasm_inv m r -> zlen packet <= HEADER_LEN + m ->
  (forall key, packet_key r (s, packet) = Some key -> has_room r key) -> rs_buffered r + zlen packet <= rs_max_bytes r ->
  let r' := (accept s packet r).2 in
  dom (rs_partials r') ⊆ dom (rs_partials r) ∪ keys_of r [(s, packet)] /\ rs_buffered r' <= rs_buffered r + zlen packet /\
  ((forall f, parse_fragment packet = Some f -> (s, fr_msg_id f, fr_kind f) <> k) ->
   rs_partials r' !! k = rs_partials r !! k).
Proof.
  intros Hm Hi Hlen Hf Hb. unfold accept, keys_of, packet_key in *. cbn [omap list_omap fst snd] in *. pose proof (zlen_nonneg packet).
  destruct (parse_fragment packet) as [f|] eqn:Ep; [|cbn; repeat split; lia || set_solver].
  destruct (parse_fragment_bounds _ _ Ep) as (Hix & Hcount & Hch). unfold HEADER_LEN in Hch.
  cbn [mbind option_bind] in *. destruct (other_kind r (fr_kind f)); [cbn; repeat split; lia || set_solver|]. cbv zeta.
  set (key := ((s, fr_msg_id f, fr_kind f) : Key)).
  destruct (ensure_slot_inv m key f r Hm Hi ltac:(lia)) as (Hi1 & _ & _).
  destruct (ensure_slot_room m key f r Hi (Hf _ eq_refl) ltac:(lia)) as (E1 & E2 & E3 & E4).
  set (r1 := ensure_slot key f r) in *. rewrite E4. set (p := default _ _) in *.
  assert ((forall f0, Some f = Some f0 -> (s, fr_msg_id f0, fr_kind f0) <> k) -> k <> key) as Hk.
  { intros H0 ->. by apply (H0 f). }
  case_decide as Hbad; cbn [snd]; [split; [set_solver|]; split; [lia|]; intros; apply E3; auto|].
  pose proof (store_chunk_ok m f p (ri_parts _ _ Hi1 key p E4) ltac:(unfold HEADER_LEN in *; lia) ltac:(unfold HEADER_LEN in *; lia)) as Hst.
  destruct (store_chunk f p) as [p' added]. destruct Hst as (_ & Hpb & Hadd & _).
  pose proof (partial_bytes_nonneg m p (ri_parts _ _ Hi1 key p E4) Hm).
  pose proof (bytes_in_bound m _ (rs_order r1) (ri_parts _ _ Hi1) Hm). rewrite <- (ri_bytes _ _ Hi1) in *.
  case_decide; cbn [snd]; rs_fields.
  - rewrite dom_delete_L. split; [set_solver|]. split; [unfold saturating_sub; lia|].
    intros Hne%Hk. rewrite lookup_delete_ne by done. by apply E3.
  - rewrite dom_insert_L. split; [set_solver|]. split; [lia|].
    intros Hne%Hk. rewrite lookup_insert_ne by done. by apply E3.
Qed.

Section Delivery.
Context (kind id : Z) (chs : list bytes) (src : string).
Context (Hkind : 0 <= kind < 256) (Hid : 0 <= id < 2 ^ 16) (Hcount : 1 <= zlen chs <= MAX_FRAGMENTS).

Let key : Key := (src, id, kind).
Let pkt (i : nat) : bytes := frag_packet kind id (zlen chs) i (chs !!! i).

(** The slots of the message once the fragments in [seen] have arrived. *)
Definition slots (seen : list nat) : list (option bytes) :=
  imap (fun i c => if decide (i ∈ seen) then Some c else None) chs.

Definition tracking (r : Reassembler) (seen : list nat) : Prop :=
  match rs_partials r !! key with
  | Some p => pt_frag_count p = zlen chs /\ pt_chunks p = slots seen
  | None => slots seen = replicate (length chs) None
  end.

Lemma tracking_same r r' seen :
  rs_partials r' !! key = rs_partials r !! key -> tracking r seen -> tracking r' seen.
Proof. unfold tracking. by intros ->. Qed.

Lemma slots_lookup seen i : (i < length chs)%nat ->
  slots seen !! i = Some (if decide (i ∈ seen) then Some (chs !!! i) else None).
Proof.
  intros Hi. unfold slots. rewrite list_lookup_imap.
  rewrite (list_lookup_lookup_total_lt chs i Hi). done.
Qed.

Lemma zlen_slots seen : zlen (slots seen) = zlen chs.
Proof. unfold zlen, slots. by rewrite length_imap. Qed.

Lemma slots_store seen i : (i < length chs)%nat ->
  <[i := Some (chs !!! i)]> (slots seen) = slots (i :: seen).
Proof.
  intros Hi. apply list_eq. intros j. destruct (decide (j < length chs)%nat) as [Hj|Hj].
  - rewrite slots_lookup by done. destruct (decide (j = i)) as [->|Hne].
    + rewrite list_lookup_insert_eq by (unfold slots; by rewrite length_imap). by rewrite decide_True by set_solver.
    + rewrite list_lookup_insert_ne, slots_lookup by done. f_equal. destruct (decide (j ∈ seen)).
      * by rewrite decide_True by set_solver.
      * by rewrite decide_False by set_solver.
  - rewrite !lookup_ge_None_2; unfold slots; rewrite ?length_insert, ?length_imap; done || lia.
Qed.

Lemma slots_seen seen i : (i < length chs)%nat -> i ∈ seen -> slots (i :: seen) = slots seen.
Proof.
  intros Hi Hs. rewrite <- slots_store by done. apply list_insert_id. by rewrite slots_lookup, decide_True.
Qed.

Lemma slots_stored seen :
  stored (slots seen) = zlen chs <-> forall i, (i < length chs)%nat -> i ∈ seen.
Proof.
  split.
  - intros H i Hi. assert (Forall is_Some (slots seen)) as Hf by (apply stored_full; by rewrite zlen_slots).
    rewrite Forall_lookup in Hf. specialize (Hf i _ (slots_lookup seen i Hi)).
    case_decide; [done|]. by destruct Hf.
  - intros H. assert (slots seen = Some <$> chs) as ->.
    { apply list_eq. intros i. destruct (decide (i < length chs)%nat) as [Hi|Hi].
      - rewrite slots_lookup, decide_True, list_lookup_fmap by auto. by rewrite (list_lookup_lookup_total_lt chs i Hi).
      - rewrite !lookup_ge_None_2; unfold slots; rewrite ?length_fmap, ?length_imap; done || lia. }
    clear. induction chs as [|c l IH]; [done|]. rewrite zlen_cons. cbn. fold (stored (Some <$> l)). by rewrite IH.
Qed.

Lemma slots_join seen :
  (forall i, (i < length chs)%nat -> i ∈ seen) -> default [] <$> slots seen = chs.
Proof.
  intros H. apply list_eq. intros i. rewrite list_lookup_fmap. destruct (decide (i < length chs)%nat) as [Hi|Hi].
  - rewrite slots_lookup, decide_True by auto. by rewrite (list_lookup_lookup_total_lt chs i Hi).
  - rewrite !lookup_ge_None_2; unfold slots; rewrite ?length_imap; done || lia.
Qed.

(** Storing fragment [i] of the message. *)
Lemma store_own m p seen i :
  partial_ok m p -> pt_frag_count p = zlen chs -> pt_chunks p = slots seen -> (i < length chs)%nat ->
  let p' := (store_chunk (mkFragment kind id (Z.of_nat i) (zlen chs) (chs !!! i)) p).1 in
  pt_frag_count p' = zlen chs /\ pt_chunks p' = slots (i :: seen) /\ pt_have p' = stored (slots (i :: seen)).
Proof.
  intros Hok Hc Hs Hi. unfold store_chunk. cbn [fr_index fr_chunk]. rewrite Nat2Z.id, Hs, slots_lookup by done.
  destruct (decide (i ∈ seen)) as [Hin|Hin]; cbn.
  - rewrite (po_have _ _ Hok), Hs, slots_seen by done. done.
  - rewrite slots_store by done. split; [done|]. split; [done|].
    rewrite (po_have _ _ Hok), Hs, <- slots_store by done. symmetry. apply stored_insert.
    by rewrite slots_lookup, decide_False.
Qed.

Lemma accept_own m r seen i :
  0 <= m -> reasm_inv m r -> zlen (pkt i) <= HEADER_LEN + m -> other_kind r kind = false ->
  has_room r key -> rs_buffered r + zlen (pkt i) <= rs_max_bytes r ->
  tracking r seen -> (i < length chs)%nat ->
  ((forall j, (j < length chs)%nat -> j ∈ i :: seen) ->
     exists r', accept src (pkt i) r = (Some (mjoin chs), r') /\ rs_partials r' !! key = None) /\
  (forall j, (j < length chs)%nat -> j ∉ i :: seen -> tracking (accept src (pkt i) r).2 (i :: seen)).
Proof.
  intros Hm Hi Hlen Hok Hf Hb Ht Hix. unfold accept, pkt. unfold pkt in Hlen, Hb. rewrite zlen_frag_packet in *.
  unfold zlen in Hcount. rewrite parse_frag_packet by (done || unfold zlen; lia). cbn [fr_kind fr_msg_id]. rewrite Hok.
  set (f := mkFragment _ _ _ _ _). cbv zeta. fold key.
  destruct (ensure_slot_inv m key f r Hm Hi) as (Hi1 & _ & _); [cbn; unfold zlen; lia|].
  destruct (ensure_slot_room m key f r Hi Hf) as (_ & _ & _ & E4); [cbn; unfold HEADER_LEN in *; lia|].
  set (r1 := ensure_slot key f r) in *. rewrite E4. set (p := default _ _) in *.
  assert (pt_frag_count p = zlen chs /\ pt_chunks p = slots seen) as [Hc Hs].
  { unfold tracking in Ht. unfold p. destruct (rs_partials r !! key); [done|]. cbn. rewrite Ht.
    split; [done|]. f_equal. unfold zlen. lia. }
  rewrite decide_False by (rewrite Hc, Hs, zlen_slots; cbn; unfold zlen; lia).
  destruct (store_own m p seen i (ri_parts _ _ Hi1 key p E4) Hc Hs Hix) as (H1 & H2 & H3). fold f in H1, H2, H3.
  destruct (store_chunk f p) as [p' added]. cbn [fst] in *. rewrite H1, H2, H3. split.
  - intros Hall. rewrite decide_True by (by apply slots_stored). rewrite slots_join by done.
    eexists. split; [done|]. rs_fields. apply lookup_delete_eq.
  - intros j Hj Hnj. rewrite decide_False by (intros H; by apply Hnj, (proj1 (slots_stored _) H)).
    unfold tracking. cbn [snd]. rs_fields. by rewrite lookup_insert_eq.
Qed.

Definition total (tr : list (string * bytes)) : Z := foldr (fun x n => zlen x.2 + n) 0 tr.

Lemma total_nonneg tr : 0 <= total tr.
Proof. induction tr as [|x tr IH]; [done|]. cbn. fold (total tr). pose proof (zlen_nonneg x.2). lia. Qed.

(** Every packet of the trace for our key is a fragment of the message, and
    fragment [last] has not been sent. *)
Definition honest (last : nat) (tr : list (string * bytes)) : Prop :=
  Forall (fun x => forall f, parse_fragment x.2 = Some f -> (x.1, fr_msg_id f, fr_kind f) = key ->
            exists i, (i < length chs)%nat /\ i <> last /\ x.2 = pkt i) tr.

Lemma accept_all_tracks (m : Z) (last : nat) (tr : list (string * bytes)) (r : Reassembler) (seen : list nat) (U : gset Key) :
  0 <= m -> reasm_inv m r -> Forall (fun x => zlen x.2 <= HEADER_LEN + m) tr -> other_kind r kind = false ->
  dom (rs_partials r) ∪ keys_of r tr ∪ {[key]} ⊆ U -> Z.of_nat (size U) <= rs_max_messages r -> rs_buffered r + total tr <= rs_max_bytes r ->
  (last < length chs)%nat -> last ∉ seen -> honest last tr -> tracking r seen ->
  exists seen', tracking (accept_all tr r) seen' /\ last ∉ seen' /\ seen ⊆ seen' /\
    (forall i, (i < length chs)%nat -> (src, pkt i) ∈ tr -> i ∈ seen') /\
    dom (rs_partials (accept_all tr r)) ⊆ U /\
    rs_buffered (accept_all tr r) <= rs_buffered r + total tr.
Proof.
  intros Hm. revert r seen. induction tr as [|[s q] tr IH]; intros r seen Hi Hl Hok Hf HU Hb Hla Hns Hh Ht.
  { exists seen. split; [done|]. split; [done|]. split; [done|].
    split; [by intros i _ ?%elem_of_nil|]. cbn. split; [set_solver|lia]. }
  apply Forall_cons in Hl as [Hq Hl]. apply Forall_cons in Hh as [Hhq Hh].
  assert (keys_of r ((s, q) :: tr) = keys_of r [(s, q)] ∪ keys_of r tr) as Hks.
  { unfold keys_of. cbn [omap list_omap]. destruct (packet_key r (s, q)); cbn; set_solver. }
  rewrite Hks in Hf.
  cbn [total foldr] in Hb. fold (total tr) in Hb. cbn [snd fst] in *.
  pose proof (total_nonneg tr).
  assert (forall k, packet_key r (s, q) = Some k -> has_room r k) as Hroom.
  { intros k Hk. apply (room_within r k U); [set_solver|done|]. assert (k ∈ keys_of r [(s, q)]); [|set_solver].
    unfold keys_of. cbn [omap list_omap]. rewrite Hk. set_solver. }
  assert (has_room r key) as Hroomk by (apply (room_within r key U); set_solver).
  destruct (accept_inv m s q r Hm Hi Hq) as [Hi1 (L1 & L2 & L3)].
  destruct (accept_other m s q r key Hm Hi Hq Hroom ltac:(lia)) as (A1 & A2 & A3).
  assert (exists seen1, tracking (accept s q r).2 seen1 /\ last ∉ seen1 /\ seen ⊆ seen1 /\
    (forall i, (i < length chs)%nat -> (s, q) = (src, pkt i) -> i ∈ seen1)) as (seen1 & T1 & N1 & S1 & C1).
  { destruct (parse_fragment q) as [f|] eqn:Ep.
    - destruct (decide ((s, fr_msg_id f, fr_kind f) = key)) as [Ek|Ek].
      + destruct (Hhq f eq_refl Ek) as (i & Hlt & Hne & ->). injection Ek as -> _ _.
        exists (i :: seen). split; [|split; [set_solver|split; [set_solver|]]].
        * apply (proj2 (accept_own m r seen i Hm Hi Hq Hok Hroomk ltac:(lia) Ht Hlt) last Hla). set_solver.
        * intros j Hj E. apply (f_equal (fun x => parse_fragment x.2)) in E. cbn [snd] in E. unfold pkt in E. unfold zlen in Hcount.
          rewrite !parse_frag_packet in E by (done || unfold zlen; lia). injection E as E _. apply Nat2Z.inj in E as ->. set_solver.
      + exists seen. split; [|split; [done|split; [done|]]].
        * eapply tracking_same; [|exact Ht]. apply A3. by intros ? [= <-].
        * intros j Hj E. apply (f_equal fst) in E as E1. apply (f_equal snd) in E. cbn [fst snd] in *. subst. destruct Ek. unfold pkt in Ep. unfold zlen in Hcount.
          rewrite parse_frag_packet in Ep by (done || unfold zlen; lia). by injection Ep as <-.
    - exists seen. split; [|split; [done|split; [done|]]].
      + eapply tracking_same; [|exact Ht]. by apply A3.
      + intros j Hj E. apply (f_equal snd) in E. cbn [snd] in E. subst. unfold pkt in Ep. unfold zlen in Hcount.
        by rewrite parse_frag_packet in Ep by (done || unfold zlen; lia). }
  destruct (IH _ seen1 Hi1 Hl) as (seen' & T & N & S & C & F & B); try done; try lia.
  { unfold other_kind in *. by rewrite L1. }
  { assert (keys_of (accept s q r).2 tr = keys_of r tr) as ->; [|set_solver]. unfold keys_of, packet_key, other_kind. by rewrite L1. }
  cbn [accept_all total foldr]. fold (total tr). exists seen'.
  split; [done|]. split; [done|]. split; [by etrans|]. cbn [snd] in *. split; [|split; [done|lia]].
  intros i Hlt [E|Hin]%elem_of_cons; [apply S, (C1 i Hlt); congruence|by apply C].
Qed.
End Delivery.

Lemma fragment_run kind id payload mtu pkts :
  fragment kind id payload mtu = Some pkts ->
  exists chs, mjoin chs = payload /\ 1 <= zlen chs <= MAX_FRAGMENTS /\
    pkts = imap (frag_packet kind id (zlen chs)) chs /\ Forall (fun c => zlen c <= mtu - HEADER_LEN) chs.
Proof.
  unfold fragment. case_decide as Hb; [done|]. case_decide as Hc; [done|]. intros [= <-].
  unfold MIN_MTU, HEADER_LEN in Hb.
  destruct (chunks_spec (length payload) (Z.to_nat (mtu - HEADER_LEN)) payload) as (H1 & H2 & H3);
    [unfold HEADER_LEN; lia|lia|].
  fold (chunks (Z.to_nat (mtu - HEADER_LEN)) payload) in *.
  rewrite Z2Nat.id in H3 by (unfold HEADER_LEN; lia). rewrite <- H3 in *.
  exists (chunks (Z.to_nat (mtu - HEADER_LEN)) payload). unfold zlen. split; [done|]. split; [lia|]. split; [done|].
  eapply Forall_impl; [done|]. cbn. unfold HEADER_LEN. lia.
Qed.

Lemma imap_lookup_total (f : nat -> bytes -> bytes) l i :
  (i < length l)%nat -> imap f l !! i = Some (f i (l !!! i)).
Proof. intros Hi. rewrite list_lookup_imap, (list_lookup_lookup_total_lt l i Hi). done. Qed.

Lemma in_packets kind id count chs p :
  p ∈ imap (frag_packet kind id count) chs ->
  exists i, (i < length chs)%nat /\ p = frag_packet kind id count i (chs !!! i).
Proof.
  intros (i & Hp)%list_elem_of_lookup_1. assert (i < length chs)%nat as Hi'.
  { apply lookup_lt_Some in Hp. by rewrite length_imap in Hp. }
  exists i. split; [done|]. rewrite imap_lookup_total in Hp by done. congruence.
Qed.

Lemma packets_fit kind id count chs mtu :
  Forall (fun c => zlen c <= mtu - HEADER_LEN) chs ->
  Forall (fun p => HEADER_LEN <= zlen p <= mtu) (imap (frag_packet kind id count) chs).
Proof.
  intros Hch. apply Forall_forall. intros p (i & Hi & ->)%in_packets. rewrite zlen_frag_packet.
  rewrite Forall_lookup in Hch. specialize (Hch i _ (list_lookup_lookup_total_lt chs i Hi)).
  pose proof (zlen_nonneg (chs !!! i)). lia.
Qed.

Lemma slots_none chs : slots chs [] = replicate (length chs) None.
Proof.
  unfold slots. induction chs as [|c l IH] using rev_ind; [done|].
  rewrite imap_app, IH. cbn. rewrite decide_False by (by intros ?%elem_of_nil).
  rewrite length_app. cbn. by rewrite replicate_add.
Qed.

(** C32: a message sent over the mesh arrives.  Split any payload into packets
    for an MTU; let the packets reach a reassembler in any order, each any
    number of times, interleaved with arbitrary other traffic.  As long as the
    messages partly received before and those the traffic belongs to, this one
    included, are no more than [max_messages], and the bytes of all packets stay
    within [max_bytes], the packet that completes the message returns exactly the
    payload, and each packet fits the MTU.  The number of fragments is not limited
    by [max_messages]. *)
Theorem mesh_delivers kind id payload mtu pkts src m (r : Reassembler) tr last :
  fragment kind id payload mtu = Some pkts -> 0 <= kind < 256 -> 0 <= id < 2 ^ 16 ->
  reasm_inv m r -> mtu <= HEADER_LEN + m -> Forall (fun x => zlen x.2 <= HEADER_LEN + m) tr ->
  other_kind r kind = false -> rs_partials r !! ((src, id, kind) : Key) = None ->
  last ∈ pkts -> (forall p, p ∈ pkts -> p <> last -> (src, p) ∈ tr) ->
  Forall (fun x => forall f, parse_fragment x.2 = Some f -> (x.1, fr_msg_id f, fr_kind f) = (src, id, kind) ->
            x.2 ∈ pkts /\ x.2 <> last) tr ->
  Z.of_nat (size (dom (rs_partials r) ∪ keys_of r tr ∪ {[((src, id, kind) : Key)]})) <= rs_max_messages r -> rs_buffered r + total tr + zlen last <= rs_max_bytes r ->
  Forall (fun p => zlen p <= mtu) pkts /\
  exists r', accept src last (accept_all tr r) = (Some payload, r') /\ rs_partials r' !! ((src, id, kind) : Key) = None.
Proof.
  intros Hfr Hk Hid Hi Hmtu Hl Hok Hnone Hlast Hcover Hours Hroom Hbytes.
  destruct (fragment_run _ _ _ _ _ Hfr) as (chs & <- & Hc & -> & Hch).
  pose proof (packets_fit kind id (zlen chs) chs mtu Hch) as Hfit.
  split; [eapply Forall_impl; [exact Hfit|]; cbn; lia|].
  destruct (in_packets _ _ _ _ _ Hlast) as (n & Hn & ->). rewrite Forall_forall in Hfit. specialize (Hfit _ Hlast).
  unfold HEADER_LEN in Hfit. assert (0 <= m) as Hm by (unfold HEADER_LEN in Hmtu; lia).
  destruct (accept_all_tracks kind id chs src Hk Hid Hc m n tr r [] _ Hm Hi Hl Hok (reflexivity _) Hroom)
    as (seen & T & N & _ & C & F & B); try done; try lia.
  - by intros ?%elem_of_nil.
  - eapply Forall_impl; [exact Hours|]. intros x Hx f Hp Hkey. destruct (Hx f Hp Hkey) as [Hxin Hne].
    destruct (in_packets _ _ _ _ _ Hxin) as (i & Hi' & E). exists i. split; [done|]. split; [|done]. by intros ->.
  - unfold tracking. rewrite Hnone. apply slots_none.
  - destruct (accept_all_inv m tr r Hm Hi Hl) as [Hi' (L1 & L2 & L3)].
    refine (proj1 (accept_own kind id chs src Hk Hid Hc m _ seen n Hm Hi' _ _ _ _ T Hn) _); try lia.
    + unfold other_kind in *. by rewrite L1.
    + eapply room_within; [exact F|by rewrite L2|set_solver].
    + intros j Hj. destruct (decide (j = n)) as [->|Hne]; [set_solver|]. apply elem_of_cons. right.
      apply C; [done|]. apply Hcover.
      * apply list_elem_of_lookup. exists j. by apply imap_lookup_total.
      * intros E. apply Hne. apply (f_equal parse_fragment) in E. unfold zlen in Hc.
        rewrite !parse_frag_packet in E by (done || unfold zlen; lia). injection E as E _. lia.
Qed.

(** The byte cap alone bounds nothing, against its documentation: it is
    checked only when a new partial message is opened, so for any caps two
    fragments of one message make the reassembler buffer more than
    [max_bytes]. *)
Lemma max_bytes_not_enforced (max_messages max_bytes : Z) :
  1 <= max_bytes ->
  exists tr, rs_buffered (accept_all tr (with_limits max_messages max_bytes)) > max_bytes.
Proof.
  intros Hb. set (c := replicate (Z.to_nat max_bytes) (byte_of 0)).
  assert (zlen c = max_bytes) as Hc by (unfold zlen, c; rewrite length_replicate; lia).
  exists [(""%string, frag_packet 0 0 3 0 c); (""%string, frag_packet 0 0 3 1 c)]. cbn [accept_all].
  assert (forall i, (i < 3)%nat ->
    parse_fragment (frag_packet 0 0 3 i c) = Some (mkFragment 0 0 (Z.of_nat i) 3 c)) as Hp
    by (intros; apply parse_frag_packet; unfold MAX_FRAGMENTS; lia).
  assert ((accept "" (frag_packet 0 0 3 0 c) (with_limits max_messages max_bytes)).2 =
    set_parts (with_limits max_messages max_bytes)
      {[ ((""%string, 0, 0) : Key) := mkPartial 3 [Some c; None; None] 1 (zlen c) ]} [(""%string, 0, 0)] (zlen c)) as ->.
  { unfold accept. rewrite Hp by lia. cbn -[zlen]. reflexivity. }
  unfold accept. rewrite Hp by lia. cbn [other_kind rs_only_kind set_parts with_limits fr_kind fr_msg_id].
  unfold ensure_slot. rs_fields. rewrite lookup_singleton_eq. rs_fields. rewrite lookup_singleton_eq.
  rewrite decide_False by (unfold zlen; cbn; lia).
  change (store_chunk _ _) with (mkPartial 3 [Some c; Some c; None] 2 (zlen c + zlen c), zlen c). cbv iota beta.
  rewrite decide_False by (cbn; lia). cbn [snd]. rs_fields. lia.
Qed.

(** ** Concrete packets *)

(** Forty-seven fragments, more than a reassembler keeps messages. *)
Definition w_text : bytes := mjoin (replicate 20 (bstr "over the mesh ")).
Definition w_pkts : list bytes := default [] (fragment KIND_FRAME 7 w_text 16).
Definition w_trace : list (string * bytes) :=
  [("bob"%string, bstr "foreign mesh text"); ("eve"%string, w_pkts !!! 1%nat)] ++
  (pair "alice"%string <$> reverse (delete 1%nat w_pkts)) ++ [("alice"%string, w_pkts !!! 2%nat)].

Lemma reassembler_bounded_witness :
  rs_buffered (accept_all w_trace (with_limits 2 8)) <= 2 * (256 * 30) /\
  in_flight (accept_all w_trace (with_limits 2 8)) <= 2.
Proof.
  destruct (reassembler_bounded 2 8 30 w_trace) as (H1 & [_ H2] & _ & _).
  - lia.
  - refine (bool_decide_unpack _ _). vm_compute. exact I.
  - split; [exact H2|exact H1].
Defined.

Lemma max_bytes_not_enforced_witness :
  exists tr, rs_buffered (accept_all tr (with_limits 32 (1024 * 1024))) > 1024 * 1024.
Proof. apply (max_bytes_not_enforced 32 (1024 * 1024)). lia. Defined.

Lemma mesh_delivers_witness :
  Forall (fun p => zlen p <= 16) w_pkts /\
  exists r', accept "alice" (w_pkts !!! 1%nat) (accept_all w_trace reassembler_default) =
    (Some w_text, r') /\ rs_partials r' !! (("alice"%string, 7, KIND_FRAME) : Key) = None.
Proof.
  apply (mesh_delivers KIND_FRAME 7 w_text 16 w_pkts "alice" 30 reassembler_default w_trace
    (w_pkts !!! 1%nat)).
  - vm_compute. reflexivity.
  - vm_compute. split; [discriminate|reflexivity].
  - lia.
  - apply with_limits_inv.
  - vm_compute. discriminate.
  - refine (bool_decide_unpack _ _). vm_compute. exact I.
  - reflexivity.
  - reflexivity.
  - refine (bool_decide_unpack _ _). vm_compute. exact I.
  - assert (Forall (fun p => p <> w_pkts !!! 1%nat -> ("alice"%string, p) ∈ w_trace) w_pkts) as H;
      [|rewrite Forall_forall in H; exact H].
    refine (bool_decide_unpack _ _). vm_compute. exact I.
  - assert (Forall (fun x : string * bytes => x.1 = "alice"%string -> x.2 ∈ w_pkts /\ x.2 <> w_pkts !!! 1%nat) w_trace) as H.
    { refine (bool_decide_unpack _ _). vm_compute. exact I. }
    eapply Forall_impl; [exact H|]. cbv beta. intros x Hx f _ [= E _ _]. exact (Hx E).
  - vm_compute. discriminate.
  - vm_compute. discriminate.
Defined.
