(* ===== verification/Marking.v ===== *)
(** * Classification markings and message payloads

    [core/src/marking.rs] with the error type of [core/src/error.rs]: the wire
    form of markings and of the group-message payload that carries them, and the
    advisory policy check. *)

From S2P Require Import Prelude Wire Crypto.

(** ** Errors *)

Inductive TransportError : Type :=
| NoListener (endpoint : bytes)
| Closed
| NotReady
| Io (what : bytes).

Inductive CoreError : Type :=
| CMalformed (what : string)
| CNoSuchName (id : bytes)
| CUnsupportedVersion (v : Z)
| CHandshake (what : string)
| CPeerAuthFailed
| CGroupNotReady
| CUnknownSuite (id : bytes)
| CRegistry (what : bytes)
| CSeal (what : string)
| CWrap (what : bytes)
| CCrypto (e : CryptoError)
| CTransport (e : TransportError)
| CWire (e : WireError).

#[export] Instance from_wire_core : FromWire CoreError := CWire.

(** ** Strings

    A Rust string is its UTF-8 bytes; [utf8_valid] is the check of
    [String::from_utf8] (no overlong forms, no surrogates, at most U+10FFFF). *)

Definition in_range (lo hi : Z) (b : byte) : bool := bool_decide (lo <= bval b <= hi).
Definition cont : byte -> bool := in_range 128 191.

Fixpoint utf8_valid (l : bytes) : bool :=
  match l with
  | [] => true
  | a :: l1 =>
      if in_range 0 127 a then utf8_valid l1
      else match l1 with
      | [] => false
      | b :: l2 =>
          if in_range 194 223 a then cont b && utf8_valid l2
          else match l2 with
          | [] => false
          | c :: l3 =>
              if in_range 224 239 a then
                (if bool_decide (bval a = 224) then in_range 160 191 b
                 else if bool_decide (bval a = 237) then in_range 128 159 b
                 else cont b) && cont c && utf8_valid l3
              else match l3 with
              | [] => false
              | d :: l4 =>
                  if in_range 240 244 a then
                    (if bool_decide (bval a = 240) then in_range 144 191 b
                     else if bool_decide (bval a = 244) then in_range 128 143 b
                     else cont b) && cont c && cont d && utf8_valid l4
                  else false
              end
          end
      end
  end.

Definition from_utf8 {E} (b : bytes) (e : E) : result E bytes :=
  if utf8_valid b then Ok b else Err e.

(** ** Markings *)

Inductive Classification : Type := Unclassified | Cui | Confidential | Secret | TopSecret.

#[export] Instance classification_eq_dec : EqDecision Classification.
Proof. solve_decision. Defined.

Definition class_banner (c : Classification) : bytes :=
  bstr (match c with
        | Unclassified => "UNCLASSIFIED" | Cui => "CUI" | Confidential => "CONFIDENTIAL"
        | Secret => "SECRET" | TopSecret => "TOP SECRET" end).
Definition class_portion (c : Classification) : bytes :=
  bstr (match c with
        | Unclassified => "U" | Cui => "CUI" | Confidential => "C" | Secret => "S" | TopSecret => "TS" end).

Definition class_tag (c : Classification) : Z :=
  match c with Unclassified => 0 | Cui => 1 | Confidential => 2 | Secret => 3 | TopSecret => 4 end.

Definition class_from_tag (t : Z) : result CoreError Classification :=
  if decide (t = 0) then Ok Unclassified
  else if decide (t = 1) then Ok Cui
  else if decide (t = 2) then Ok Confidential
  else if decide (t = 3) then Ok Secret
  else if decide (t = 4) then Ok TopSecret
  else Err (CMalformed "classification tag").

(** The derived [Ord]: declaration order. *)
Definition class_le (a b : Classification) : bool := bool_decide (class_tag a <= class_tag b).

Record Marking : Type := mkMarking {
  mk_level : Classification; mk_compartments : list bytes; mk_caveats : list bytes }.

#[export] Instance marking_eq_dec : EqDecision Marking.
Proof. solve_decision. Defined.

Definition marking_level (l : Classification) : Marking := mkMarking l [] [].

(** [[T]::join] *)
Fixpoint join_with (sep : bytes) (l : list bytes) : bytes :=
  match l with
  | [] => []
  | [x] => x
  | x :: l => x ++ sep ++ join_with sep l
  end.

Definition marking_banner (m : Marking) : bytes :=
  class_banner (mk_level m) ++
  (if decide (mk_compartments m = []) then [] else bstr "//" ++ join_with (bstr "/") (mk_compartments m)) ++
  (if decide (mk_caveats m = []) then [] else bstr "//" ++ join_with (bstr "/") (mk_caveats m)).

Definition permitted_under (m policy : Marking) : bool :=
  class_le (mk_level m) (mk_level policy)
  && forallb (fun c => bool_decide (c ∈ mk_compartments policy)) (mk_compartments m)
  && forallb (fun c => bool_decide (c ∈ mk_caveats policy)) (mk_caveats m).

Definition put_strings (l : list bytes) (w : Writer) : Writer :=
  w |> put_u32 (u32_wrap (zlen l)) |> put_each put_bytes l.

Definition marking_encode (m : Marking) : bytes :=
  w_new |> put_u8 (class_tag (mk_level m)) |> put_strings (mk_compartments m)
        |> put_strings (mk_caveats m) |> into_vec.

Definition MAX_MARKING_ITEMS : Z := 256.

Definition read_string : Get CoreError bytes :=
  get* b := q get_bytes in glift (from_utf8 b (CMalformed "marking item utf-8")).

Definition read_strings : Get CoreError (list bytes) :=
  get* n := q get_u32 in
  if decide (n > MAX_MARKING_ITEMS) then gfail (CMalformed "too many marking items")
  else get_times (Z.to_nat n) read_string.

Definition marking_read : Get CoreError Marking :=
  get* t := q get_u8 in
  get* level := glift (class_from_tag t) in
  get* compartments := read_strings in
  get* caveats := read_strings in
  gret (mkMarking level compartments caveats).

Definition marking_decode (b : bytes) : result CoreError Marking :=
  run_get (
    get* m := marking_read in
    get* _ := (fun r => map_err (fun _ => CMalformed "trailing marking bytes") (finish r)) in
    gret m) b.

Definition put_opt (m : option Marking) (w : Writer) : Writer :=
  match m with
  | Some mk => w |> put_u8 1 |> put_bytes (marking_encode mk)
  | None => w |> put_u8 0
  end.

Definition get_opt : Get CoreError (option Marking) :=
  get* t := q get_u8 in
  if decide (t = 0) then gret None
  else if decide (t = 1) then
    get* b := q get_bytes in
    get* m := glift (marking_decode b) in
    gret (Some m)
  else gfail (CMalformed "optional marking flag").

(** ** Payloads *)

Definition encode_payload_tagged (marking : option Marking) (text : bytes) (name_tag : option bytes) : bytes :=
  let w := w_new |> put_opt marking |> put_bytes text in
  into_vec (match name_tag with Some t => put_bytes t w | None => w end).

Definition encode_payload (marking : option Marking) (text : bytes) : bytes :=
  encode_payload_tagged marking text None.

(** [.ok()?] on a call whose error type is [CoreError] *)
Definition ok_opt {E A} (g : Get E A) : Get unit A := fun r => map_err (fun _ => tt) (g r).

Definition decode_payload_tagged (b : bytes) : option (option Marking * bytes * option bytes) :=
  to_option (run_get (
    get* marking := ok_opt get_opt in
    get* tb := q get_bytes in
    get* text := glift (from_utf8 tb tt) in
    get* name_tag := (fun r : Reader =>
      if decide (remaining r > 0) then
        (get* t := q get_bytes in
         if decide (length t <> 8%nat) then gfail tt else gret (Some t)) r
      else Ok (None, r)) in
    get* _ := q finish in
    gret (marking, text, name_tag)) b).

Definition decode_payload (b : bytes) : option (option Marking * bytes) :=
  (fun x => (x.1.1, x.1.2)) <$> decode_payload_tagged b.

(** ** Codec lemmas *)

(** [inverts g e ok]: whatever [g] accepts starts with the encoding of the value
    it returns, and the value satisfies [ok]. *)
Definition inverts {E A} (g : Get E A) (e : A -> bytes) (ok : A -> Prop) : Prop :=
  forall r x r', rwf r -> g r = Ok (x, r') -> rwf r' /\ rest r = e x ++ rest r' /\ ok x.

Lemma inverts_times {E A} (g : Get E A) (e : A -> bytes) (ok : A -> Prop) n :
  inverts g e ok -> inverts (get_times n g) (fun l => mjoin (e <$> l)) (fun l => length l = n /\ Forall ok l).
Proof.
  intros Hg. induction n as [|n IH]; intros r x r' Hw H; cbn [get_times] in H.
  - unfold gret in H. by injection H as <- <-.
  - unfold gbind in H. apply rbind_Ok in H as ([a r1] & H1 & H). apply rbind_Ok in H as ([l r2] & H2 & H).
    unfold gret in H. injection H as <- <-. destruct (Hg _ _ _ Hw H1) as (Hw1 & E1 & Ok1).
    destruct (IH _ _ _ Hw1 H2) as (Hw2 & E2 & Hl & Okl). split; [done|].
    change (mjoin (e <$> a :: l)) with (e a ++ mjoin (e <$> l)). rewrite E1, E2, (assoc (++)).
    split; [done|]. split; [cbn; congruence|by constructor].
Qed.

Definition str_ok (s : bytes) : Prop := utf8_valid s = true /\ zlen s <= MAX_FRAME.
Definition strs_ok (l : list bytes) : Prop := zlen l <= MAX_MARKING_ITEMS /\ Forall str_ok l.
Definition enc_strings (l : list bytes) : bytes := be_bytes 4 (zlen l) ++ mjoin (enc_bytes <$> l).

Lemma into_vec_put_strings l w : into_vec (put_strings l w) = into_vec w ++ enc_strings l.
Proof.
  unfold put_strings, enc_strings. rewrite (into_vec_put_each put_bytes enc_bytes).
  - by rewrite into_vec_put_u32, be_bytes_4_wrap, <- (assoc (++)).
  - intros. apply into_vec_put_bytes.
Qed.

Lemma decodes_string s : str_ok s -> decodes read_string (enc_bytes s) s.
Proof.
  intros [Hu Hl]. unfold read_string. rewrite <- (app_nil_r (enc_bytes s)).
  eapply decodes_bind; [by apply decodes_q, decodes_bytes|]. unfold from_utf8. rewrite Hu. apply decodes_lift.
Qed.

Lemma inverts_string : inverts read_string enc_bytes str_ok.
Proof.
  intros r x r' Hw H. unfold read_string, gbind in H. apply rbind_Ok in H as ([b r1] & H1 & H).
  apply inverts_q in H1. unfold glift, from_utf8 in H. destruct (utf8_valid b) eqn:Eu; [|done]. injection H as <- <-.
  destruct (inverts_bytes _ _ _ Hw H1) as (? & ? & ?). done.
Qed.

Lemma decodes_strings l : strs_ok l -> decodes read_strings (enc_strings l) l.
Proof.
  intros [Hn Hf]. unfold read_strings, enc_strings, MAX_MARKING_ITEMS in *. pose proof (zlen_nonneg l).
  eapply decodes_bind; [apply decodes_q, decodes_u32; unfold is_u32; lia|].
  rewrite decide_False by lia. unfold zlen. rewrite Nat2Z.id. apply decodes_times.
  eapply Forall_impl; [done|]. apply decodes_string.
Qed.

Lemma inverts_strings : inverts read_strings enc_strings strs_ok.
Proof.
  intros r x r' Hw H. unfold read_strings in H. unfold gbind at 1 in H.
  apply rbind_Ok in H as ([n r1] & H1 & H). apply inverts_q in H1.
  destruct (inverts_u32 _ _ _ Hw H1) as (Hw1 & E1 & Hu). unfold is_u32 in Hu.
  case_decide; [done|]. destruct (inverts_times _ _ _ _ inverts_string _ _ _ Hw1 H) as (Hw2 & E2 & Hl & Hf).
  unfold enc_strings, strs_ok, zlen, MAX_MARKING_ITEMS in *. rewrite Hl, Z2Nat.id by lia.
  split; [done|]. split; [by rewrite E1, E2, (assoc (++))|]. split; [lia|done].
Qed.

Definition marking_ok (m : Marking) : Prop := strs_ok (mk_compartments m) /\ strs_ok (mk_caveats m).
#[export] Instance marking_ok_dec m : Decision (marking_ok m).
Proof. unfold marking_ok, strs_ok, str_ok. apply _. Defined.
Definition enc_marking (m : Marking) : bytes :=
  [byte_of (class_tag (mk_level m))] ++ enc_strings (mk_compartments m) ++ enc_strings (mk_caveats m).

Lemma marking_encode_norm m : marking_encode m = enc_marking m.
Proof.
  unfold marking_encode, enc_marking. rewrite !into_vec_put_strings. wire_norm. done.
Qed.

Lemma class_tag_range c : 0 <= class_tag c < 256.
Proof. destruct c; cbn; lia. Qed.
Lemma class_from_tag_tag c : class_from_tag (class_tag c) = Ok c.
Proof. by destruct c. Qed.
Lemma class_tag_from_tag t c : class_from_tag t = Ok c -> t = class_tag c.
Proof. unfold class_from_tag. intros. repeat case_decide; by simplify_eq/=. Qed.

Lemma decodes_marking m : marking_ok m -> decodes marking_read (enc_marking m) m.
Proof.
  intros [Hc Hv]. unfold marking_read, enc_marking.
  eapply decodes_bind; [apply decodes_q, decodes_u8, class_tag_range|]. rewrite class_from_tag_tag.
  change (enc_strings (mk_compartments m) ++ _) with ([] ++ enc_strings (mk_compartments m) ++ enc_strings (mk_caveats m)).
  eapply decodes_bind; [apply decodes_lift|]. eapply decodes_bind; [by apply decodes_strings|].
  rewrite <- (app_nil_r (enc_strings _)). eapply decodes_bind; [by apply decodes_strings|].
  destruct m. apply decodes_ret.
Qed.

Lemma inverts_marking : inverts marking_read enc_marking marking_ok.
Proof.
  intros r x r' Hw H. unfold marking_read, gbind, glift, gret in H.
  apply rbind_Ok in H as ([t r1] & H0%inverts_q & H). apply rbind_Ok in H as ([c r1'] & H1 & H).
  apply rbind_Ok in H1 as (c' & H1 & [= <- <-]). apply rbind_Ok in H as ([l1 r2] & H2 & H).
  apply rbind_Ok in H as ([l2 r3] & H3 & [= <- <-]).
  destruct (inverts_u8 _ _ _ Hw H0) as (Hw1 & E1 & _). apply class_tag_from_tag in H1 as ->.
  destruct (inverts_strings _ _ _ Hw1 H2) as (Hw2 & E2 & ?).
  destruct (inverts_strings _ _ _ Hw2 H3) as (Hw3 & E3 & ?).
  split; [done|]. unfold enc_marking, marking_ok. cbn [mk_level mk_compartments mk_caveats].
  split; [|done]. rewrite E1, E2, E3. cbn [app]. by rewrite (assoc (++)).
Qed.

Lemma marking_decode_exact b m :
  zlen b <= usize_max -> (marking_decode b = Ok m <-> marking_ok m /\ b = enc_marking m).
Proof.
  intros Hb. unfold marking_decode. split.
  - intros H. unfold run_get, gbind, gret in H. apply rbind_Ok in H as ([x r'] & H & [= <-]).
    apply rbind_Ok in H as ([m' r1] & H1 & H). apply rbind_Ok in H as ([[] r2] & H2 & [= <- <-]).
    destruct (inverts_marking _ _ _ (rwf_new b Hb) H1) as (Hw1 & E1 & Hok).
    destruct (finish r1) as [[u r3]|] eqn:Ef; [|done]. destruct (inverts_finish _ _ _ Hw1 Ef) as [E2 _].
    rewrite rest_new, E2, app_nil_r in E1. done.
  - intros [Hok ->]. destruct (decodes_marking m Hok (r_new (enc_marking m)) [] (rwf_new _ Hb)) as (r' & H1 & Hw & Hr).
    { by rewrite app_nil_r. }
    unfold run_get, gbind. rewrite H1. cbn. unfold finish. rewrite remaining_rest, Hr by done. done.
Qed.

Definition opt_ok (m : option Marking) : Prop :=
  match m with Some mk => marking_ok mk /\ zlen (enc_marking mk) <= MAX_FRAME | None => True end.
Definition enc_opt (m : option Marking) : bytes :=
  match m with Some mk => [byte_of 1] ++ enc_bytes (enc_marking mk) | None => [byte_of 0] end.

Lemma into_vec_put_opt m w : into_vec (put_opt m w) = into_vec w ++ enc_opt m.
Proof. destruct m; unfold put_opt, enc_opt; wire_norm; [by rewrite marking_encode_norm|done]. Qed.

Lemma frame_usize (b : bytes) : zlen b <= MAX_FRAME -> zlen b <= usize_max.
Proof. unfold MAX_FRAME, usize_max. lia. Qed.

Lemma decodes_opt m : opt_ok m -> decodes get_opt (enc_opt m) m.
Proof.
  unfold get_opt. destruct m as [mk|]; cbn [opt_ok enc_opt].
  - intros [Hok Hl]. apply decodes_u8_tag; [lia|]. rewrite decide_False, decide_True by lia.
    rewrite <- (app_nil_r (enc_bytes _)). eapply decodes_bind; [by apply decodes_q, decodes_bytes|].
    change (@nil byte) with (@nil byte ++ []). eapply decodes_bind; [|apply decodes_ret].
    rewrite (proj2 (marking_decode_exact _ mk (frame_usize _ Hl))) by done. apply decodes_lift.
  - intros _. rewrite <- (app_nil_r [byte_of 0]). apply decodes_u8_tag; [lia|]. apply decodes_ret.
Qed.

Lemma inverts_opt : inverts get_opt enc_opt opt_ok.
Proof.
  intros r x r' Hw H. unfold get_opt, gbind, glift, gret, gfail in H.
  apply rbind_Ok in H as ([t r1] & H0%inverts_q & H). destruct (inverts_u8 _ _ _ Hw H0) as (Hw1 & E1 & _).
  case_decide as Ht; [injection H as <- <-; by rewrite Ht in E1|].
  case_decide as Ht'; [|done]. apply rbind_Ok in H as ([b r2] & H1%inverts_q & H).
  apply rbind_Ok in H as ([m r3] & H2 & [= <- <-]). apply rbind_Ok in H2 as (m' & H2 & [= <- <-]).
  destruct (inverts_bytes _ _ _ Hw1 H1) as (Hw2 & E2 & Hl).
  apply (marking_decode_exact _ _ (frame_usize _ Hl)) in H2 as [Hok ->].
  split; [done|]. split; [|done]. rewrite E1, E2, Ht'. done.
Qed.

Definition payload_ok (m : option Marking) (text : bytes) (name_tag : option bytes) : Prop :=
  opt_ok m /\ str_ok text /\ match name_tag with Some t => length t = 8%nat | None => True end.

Definition enc_tag (t : option bytes) : bytes := match t with Some t => enc_bytes t | None => [] end.

Lemma payload_norm m text t : encode_payload_tagged m text t = enc_opt m ++ enc_bytes text ++ enc_tag t.
Proof.
  unfold encode_payload_tagged. destruct t as [t|]; cbn [enc_tag]; rewrite ?into_vec_put_bytes, into_vec_put_opt,
    into_vec_new, <- ?(assoc (++)), ?app_nil_r; done.
Qed.

Lemma inverts_ok_opt {E A} (g : Get E A) r x r' : ok_opt g r = Ok (x, r') -> g r = Ok (x, r').
Proof. unfold ok_opt. destruct (g r); cbn; naive_solver. Qed.

(** Group-message payloads have exactly one wire form.  Decoding succeeds
    with marking, text and name tag exactly on the encoding of that well-formed
    triple (valid UTF-8, bounded lists, eight-byte tag); everything else,
    trailing bytes included, is refused. *)
Lemma payload_exact (b : bytes) m text t :
  zlen b <= usize_max ->
  (decode_payload_tagged b = Some (m, text, t) <-> payload_ok m text t /\ b = encode_payload_tagged m text t).
Proof.
  intros Hb. rewrite payload_norm. unfold decode_payload_tagged. rewrite to_option_Some. split.
  - unfold run_get, gbind at 1, gret. intros H. apply rbind_Ok in H as ([x r'] & H & E). injection E as ->.
    apply rbind_Ok in H as ([m' r1] & H1%inverts_ok_opt & H). unfold gbind at 1 in H.
    apply rbind_Ok in H as ([tb r2] & H2%inverts_q & H). unfold gbind at 1, glift, from_utf8 in H.
    destruct (utf8_valid tb) eqn:Eu; [|done]. cbn [rbind] in H. unfold gbind at 1 in H.
    apply rbind_Ok in H as ([nt r3] & H3 & H). unfold gbind in H. apply rbind_Ok in H as ([[] r4] & H4%inverts_q & E).
    injection E as -> -> -> ->.
    destruct (inverts_opt _ _ _ (rwf_new b Hb) H1) as (Hw1 & E1 & Hok). rewrite rest_new in E1.
    destruct (inverts_bytes _ _ _ Hw1 H2) as (Hw2 & E2 & Hl). rewrite E1, E2.
    rewrite remaining_rest in H3 by done. case_decide as Hrem.
    + unfold gbind in H3. apply rbind_Ok in H3 as ([t' r5] & H5%inverts_q & H3). case_decide as H8; [done|].
      unfold gret in H3. injection H3 as <- ->. destruct (inverts_bytes _ _ _ Hw2 H5) as (Hw3 & E3 & _).
      destruct (inverts_finish _ _ _ Hw3 H4) as [E4 _]. cbn [enc_tag]. rewrite E3, E4, app_nil_r.
      split; [|done]. split; [done|]. split; [done|]. lia.
    + injection H3 as <- ->. destruct (inverts_finish _ _ _ Hw2 H4) as [E4 _]. rewrite E4. done.
  - intros [(Hok & [Hu Hl] & Ht) ->]. apply run_decodes_all; [done|].
    eapply decodes_all_bind.
    { intros r tl Hw Hr. destruct (decodes_opt m Hok r tl Hw Hr) as (r' & E & ?). exists r'. unfold ok_opt. by rewrite E. }
    eapply decodes_all_bind; [by apply decodes_q, decodes_bytes|]. unfold from_utf8. rewrite Hu.
    rewrite <- (app_nil_l (enc_tag t)). eapply decodes_all_bind; [apply decodes_lift|]. intros r Hw Hr.
    unfold gbind at 1. rewrite remaining_rest, Hr by done. destruct t as [t|]; cbn [enc_tag].
    + rewrite decide_True by (rewrite zlen_enc_bytes; pose proof (zlen_nonneg t); lia).
      destruct (decodes_bytes t) with (r := r) (tl := @nil byte) as (r' & E & Hw' & Hr').
      { unfold zlen, MAX_FRAME. lia. } { done. } { by rewrite app_nil_r. }
      unfold gbind at 1, q at 1. rewrite E. cbn [map_err rbind]. rewrite decide_False by lia. cbn [gret rbind].
      by apply decodes_all_finish.
    + cbn [zlen length]. rewrite decide_False by (unfold zlen; cbn; lia). cbn [rbind]. by apply decodes_all_finish.
Qed.

(** ** Policy *)

Lemma permitted_spec m p :
  permitted_under m p = true <->
  class_tag (mk_level m) <= class_tag (mk_level p) /\ mk_compartments m ⊆ mk_compartments p /\
  mk_caveats m ⊆ mk_caveats p.
Proof.
  unfold permitted_under, class_le. rewrite !andb_true_iff, bool_decide_eq_true, !forallb_forall.
  setoid_rewrite bool_decide_eq_true. setoid_rewrite <- list_elem_of_In. unfold subseteq, list_subseteq. naive_solver.
Qed.

(** The channel policy check is an order on markings: a marking is permitted
    under itself, permission composes, and a permitted message never exceeds its
    policy's level. *)
Lemma permitted_order (m p r : Marking) :
  permitted_under m m = true /\
  (permitted_under m p = true -> class_le (mk_level m) (mk_level p) = true) /\
  (permitted_under m p = true -> permitted_under p r = true -> permitted_under m r = true).
Proof.
  rewrite !permitted_spec. split; [done|]. split.
  - intros [H _]. unfold class_le. by apply bool_decide_eq_true.
  - intros (L1 & C1 & V1) (L2 & C2 & V2). split; [lia|]. split; by etrans.
Qed.

(** ** Concrete payloads *)

Definition w_marking : Marking := mkMarking TopSecret [bstr "SI"; bstr "TK"] [bstr "NOFORN"].

Lemma payload_exact_witness :
  decode_payload_tagged (encode_payload_tagged (Some w_marking) (bstr "hello") (Some (bstr "8 bytes!"))) =
    Some (Some w_marking, bstr "hello", Some (bstr "8 bytes!")).
Proof.
  apply (payload_exact _ (Some w_marking) (bstr "hello") (Some (bstr "8 bytes!"))).
  - vm_compute. discriminate.
  - split; [|reflexivity]. split; [|split; [split; [reflexivity|vm_compute; discriminate]|reflexivity]].
    split; [|vm_compute; discriminate]. refine (bool_decide_unpack _ _). vm_compute. exact I.
Defined.

Lemma permitted_order_witness :
  permitted_under (marking_level Secret) (mkMarking TopSecret [bstr "SI"] []) = true.
Proof.
  refine (proj2 (proj2 (permitted_order (marking_level Secret) (mkMarking TopSecret [] [])
    (mkMarking TopSecret [bstr "SI"] []))) _ _); vm_compute; reflexivity.
Defined.
