(* ===== verification/Frames.v ===== *)
(** * Session frames

    The frame and envelope codecs of [core/src/engine.rs]: [Frame], the
    store-and-forward bodies, the relayed envelope [Routed], and the signed
    promotion and consent bodies. *)

From S2P Require Import Prelude Wire Crypto Marking.

(** ** Frames *)

Inductive Frame : Type :=
| FChat (channel text : bytes) (marking : option Marking)
| FKeyPackage (b : bytes)
| FWelcome (b : bytes)
| FCommit (from_epoch : Z) (b : bytes)
| FGroupMsg (b : bytes)
| FRoster (epoch : Z) (entries : list (Z * bytes)) (sig : bytes)
| FIdentity (b : bytes)
| FAccessDenied (reason : bytes)
| FRevocation (b : bytes)
| FLeafSigCert (b : bytes)
| FUpdateProposal (b : bytes)
| FRouteDescriptor (b : bytes)
| FPresence (b : bytes)
| FPromote (b : bytes)
| FConsent (b : bytes)
| FPromoteCommit (b : bytes)
| FDeliveryAck (ids : list bytes)
| FMailboxPut (recipient frame : bytes)
| FMailboxFetch
| FQueueSync (entries : list (bytes * bytes)).

Definition put_entry (x : Z * bytes) (w : Writer) : Writer := w |> put_u32 x.1 |> put_bytes x.2.
Definition put_pair (x : bytes * bytes) (w : Writer) : Writer := w |> put_bytes x.1 |> put_bytes x.2.
Definition put_count {A} (l : list A) (w : Writer) : Writer := put_u32 (u32_wrap (zlen l)) w.

Definition frame_encode (f : Frame) : bytes :=
  into_vec (match f with
  | FChat channel text marking => w_new |> put_u8 0 |> put_bytes channel |> put_bytes text |> put_opt marking
  | FKeyPackage b => w_new |> put_u8 1 |> put_bytes b
  | FWelcome b => w_new |> put_u8 2 |> put_bytes b
  | FCommit e b => w_new |> put_u8 3 |> put_u32 e |> put_bytes b
  | FGroupMsg b => w_new |> put_u8 4 |> put_bytes b
  | FRoster e entries sig =>
      w_new |> put_u8 5 |> put_u32 e |> put_count entries |> put_each put_entry entries |> put_bytes sig
  | FIdentity b => w_new |> put_u8 6 |> put_bytes b
  | FAccessDenied b => w_new |> put_u8 7 |> put_bytes b
  | FRevocation b => w_new |> put_u8 8 |> put_bytes b
  | FLeafSigCert b => w_new |> put_u8 9 |> put_bytes b
  | FRouteDescriptor b => w_new |> put_u8 10 |> put_bytes b
  | FUpdateProposal b => w_new |> put_u8 11 |> put_bytes b
  | FPresence b => w_new |> put_u8 12 |> put_bytes b
  | FPromote b => w_new |> put_u8 13 |> put_bytes b
  | FConsent b => w_new |> put_u8 14 |> put_bytes b
  | FPromoteCommit b => w_new |> put_u8 19 |> put_bytes b
  | FDeliveryAck ids => w_new |> put_u8 15 |> put_count ids |> put_each put_bytes ids
  | FMailboxPut recipient frame => w_new |> put_u8 16 |> put_bytes recipient |> put_bytes frame
  | FMailboxFetch => w_new |> put_u8 17
  | FQueueSync entries => w_new |> put_u8 18 |> put_count entries |> put_each put_pair entries
  end).

(** A [get_bytes] that must have exactly [n] bytes. *)
Definition fixed (n : nat) : Get unit bytes :=
  get* b := q get_bytes in if decide (length b <> n) then gfail tt else gret b.

Definition get_string : Get unit bytes := get* b := q get_vec in glift (from_utf8 b tt).

Definition get_entry : Get unit (Z * bytes) := get* l := q get_u32 in get* fp := fixed 48 in gret (l, fp).
Definition get_pair : Get unit (bytes * bytes) := get* g := fixed 32 in get* fp := fixed 48 in gret (g, fp).

Definition MAX_ROSTER : Z := 100000.
Definition MAX_ACK : Z := 64.
Definition MAX_SYNC : Z := 512.

Definition capped {A} (cap : Z) (g : Get unit A) : Get unit (list A) :=
  get* n := q get_u32 in if decide (n > cap) then gfail tt else get_times (Z.to_nat n) g.

Definition decode_delivery_ack (body : bytes) : option (list bytes) :=
  to_option (run_get (get* ids := capped MAX_ACK (fixed 32) in get* _ := q finish in gret ids) body).

Definition decode_mailbox_put (body : bytes) : option (bytes * bytes) :=
  to_option (run_get (
    get* recipient := fixed 48 in
    get* frame := q get_vec in
    get* _ := q finish in
    gret (recipient, frame)) body).

Definition decode_queue_sync (body : bytes) : option (list (bytes * bytes)) :=
  to_option (run_get (get* es := capped MAX_SYNC get_pair in get* _ := q finish in gret es) body).

(** [decode(r.rest())?]: the body decoder runs on the unread tail. *)
Definition on_rest {A} (f : bytes -> option A) : Get unit A :=
  fun r => match f (rest r) with Some a => Ok (a, r) | None => Err tt end.

Definition blob (c : bytes -> Frame) : Get unit Frame := get* b := q get_vec in gret (c b).

Definition frame_body (tag : Z) : Get unit Frame :=
  if decide (tag = 0) then
    get* channel := get_string in get* text := get_string in get* m := ok_opt get_opt in
    gret (FChat channel text m)
  else if decide (tag = 1) then blob FKeyPackage
  else if decide (tag = 2) then blob FWelcome
  else if decide (tag = 3) then get* e := q get_u32 in get* b := q get_vec in gret (FCommit e b)
  else if decide (tag = 4) then blob FGroupMsg
  else if decide (tag = 5) then
    get* e := q get_u32 in get* entries := capped MAX_ROSTER get_entry in get* sig := q get_vec in
    gret (FRoster e entries sig)
  else if decide (tag = 6) then blob FIdentity
  else if decide (tag = 7) then get* s := get_string in gret (FAccessDenied s)
  else if decide (tag = 8) then blob FRevocation
  else if decide (tag = 9) then blob FLeafSigCert
  else if decide (tag = 10) then blob FRouteDescriptor
  else if decide (tag = 11) then blob FUpdateProposal
  else if decide (tag = 12) then blob FPresence
  else if decide (tag = 13) then blob FPromote
  else if decide (tag = 14) then blob FConsent
  else if decide (tag = 19) then blob FPromoteCommit
  else if decide (tag = 15) then get* ids := on_rest decode_delivery_ack in gret (FDeliveryAck ids)
  else if decide (tag = 16) then get* (recipient, frame) := on_rest decode_mailbox_put in gret (FMailboxPut recipient frame)
  else if decide (tag = 17) then gret FMailboxFetch
  else if decide (tag = 18) then get* es := on_rest decode_queue_sync in gret (FQueueSync es)
  else gfail tt.

Definition frame_decode (b : bytes) : option Frame :=
  to_option (run_get (get* tag := q get_u8 in frame_body tag) b).

(** ** The shape of a frame *)

Definition frame_tag (f : Frame) : Z :=
  match f with
  | FChat _ _ _ => 0 | FKeyPackage _ => 1 | FWelcome _ => 2 | FCommit _ _ => 3 | FGroupMsg _ => 4
  | FRoster _ _ _ => 5 | FIdentity _ => 6 | FAccessDenied _ => 7 | FRevocation _ => 8 | FLeafSigCert _ => 9
  | FRouteDescriptor _ => 10 | FUpdateProposal _ => 11 | FPresence _ => 12 | FPromote _ => 13 | FConsent _ => 14
  | FPromoteCommit _ => 19 | FDeliveryAck _ => 15 | FMailboxPut _ _ => 16 | FMailboxFetch => 17
  | FQueueSync _ => 18
  end.

Definition enc_entry (x : Z * bytes) : bytes := be_bytes 4 x.1 ++ enc_bytes x.2.
Definition enc_pair (x : bytes * bytes) : bytes := enc_bytes x.1 ++ enc_bytes x.2.
Definition enc_list {A} (e : A -> bytes) (l : list A) : bytes := be_bytes 4 (zlen l) ++ mjoin (e <$> l).

Definition frame_bytes (f : Frame) : bytes :=
  match f with
  | FChat channel text m => enc_bytes channel ++ enc_bytes text ++ enc_opt m
  | FCommit e b => be_bytes 4 e ++ enc_bytes b
  | FRoster e entries sig => be_bytes 4 e ++ enc_list enc_entry entries ++ enc_bytes sig
  | FDeliveryAck ids => enc_list enc_bytes ids
  | FMailboxPut recipient frame => enc_bytes recipient ++ enc_bytes frame
  | FMailboxFetch => []
  | FQueueSync es => enc_list enc_pair es
  | FKeyPackage b | FWelcome b | FGroupMsg b | FIdentity b | FAccessDenied b | FRevocation b | FLeafSigCert b
  | FRouteDescriptor b | FUpdateProposal b | FPresence b | FPromote b | FConsent b | FPromoteCommit b => enc_bytes b
  end.

Definition small_blob (b : bytes) : Prop := zlen b <= MAX_FRAME.
Definition entry_ok (x : Z * bytes) : Prop := is_u32 x.1 /\ length x.2 = 48%nat.
Definition pair_ok (x : bytes * bytes) : Prop := length x.1 = 32%nat /\ length x.2 = 48%nat.
Definition list_ok {A} (cap : Z) (ok : A -> Prop) (l : list A) : Prop := zlen l <= cap /\ Forall ok l.

(** What a frame may hold: bounded fields, valid UTF-8 where the source has a
    [String], 32-byte ids and 48-byte fingerprints, capped lists. *)
Definition frame_ok (f : Frame) : Prop :=
  match f with
  | FChat channel text m => str_ok channel /\ str_ok text /\ opt_ok m
  | FCommit e b => is_u32 e /\ small_blob b
  | FRoster e entries sig => is_u32 e /\ list_ok MAX_ROSTER entry_ok entries /\ small_blob sig
  | FDeliveryAck ids => list_ok MAX_ACK (fun i => length i = 32%nat) ids
  | FMailboxPut recipient frame => length recipient = 48%nat /\ small_blob frame
  | FMailboxFetch => True
  | FQueueSync es => list_ok MAX_SYNC pair_ok es
  | FAccessDenied b => str_ok b
  | FKeyPackage b | FWelcome b | FGroupMsg b | FIdentity b | FRevocation b | FLeafSigCert b
  | FRouteDescriptor b | FUpdateProposal b | FPresence b | FPromote b | FConsent b | FPromoteCommit b => small_blob b
  end.

(** Whether the body decoder insists on the end of the input. *)
Definition frame_strict (f : Frame) : bool :=
  match f with FDeliveryAck _ | FMailboxPut _ _ | FQueueSync _ => true | _ => false end.

Lemma into_vec_put_entry x w : into_vec (put_entry x w) = into_vec w ++ enc_entry x.
Proof. unfold put_entry, enc_entry. by wire_norm. Qed.
Lemma into_vec_put_pair x w : into_vec (put_pair x w) = into_vec w ++ enc_pair x.
Proof. unfold put_pair, enc_pair. by wire_norm. Qed.
Lemma into_vec_put_list {A} (f : A -> Writer -> Writer) e l w :
  (forall a w, into_vec (f a w) = into_vec w ++ e a) ->
  into_vec (put_each f l (put_count l w)) = into_vec w ++ enc_list e l.
Proof.
  intros H. rewrite (into_vec_put_each f e) by done. unfold put_count, enc_list.
  by rewrite into_vec_put_u32, be_bytes_4_wrap, <- (assoc (++)).
Qed.

Lemma frame_encode_norm f : frame_encode f = [byte_of (frame_tag f)] ++ frame_bytes f.
Proof.
  destruct f; unfold frame_encode; cbn [frame_tag frame_bytes];
    rewrite ?into_vec_put_opt, ?into_vec_put_bytes, ?(into_vec_put_list put_entry enc_entry) by apply into_vec_put_entry;
    rewrite ?(into_vec_put_list put_pair enc_pair) by apply into_vec_put_pair;
    rewrite ?(into_vec_put_list put_bytes enc_bytes) by (intros; apply into_vec_put_bytes);
    by wire_norm.
Qed.

(** ** Field decoders *)

Lemma decodes_fixed n b : length b = n -> (n <= 48)%nat -> decodes (fixed n) (enc_bytes b) b.
Proof.
  intros Hl Hn. unfold fixed. rewrite <- (app_nil_r (enc_bytes b)).
  eapply decodes_bind; [apply decodes_q, decodes_bytes; unfold zlen, MAX_FRAME; lia|].
  rewrite decide_False by lia. apply decodes_ret.
Qed.

Lemma inverts_fixed n : inverts (fixed n) enc_bytes (fun b => length b = n).
Proof.
  intros r x r' Hw H. unfold fixed, gbind in H. apply rbind_Ok in H as ([b r1] & H1%inverts_q & H).
  destruct (inverts_bytes _ _ _ Hw H1) as (? & ? & ?). case_decide as Hd; [done|].
  unfold gret in H. injection H as <- <-. split; [done|]. split; [done|]. lia.
Qed.

Lemma decodes_get_string s : str_ok s -> decodes get_string (enc_bytes s) s.
Proof.
  intros [Hu Hl]. unfold get_string. rewrite <- (app_nil_r (enc_bytes s)).
  eapply decodes_bind; [by apply decodes_q, decodes_vec|]. unfold from_utf8. rewrite Hu. apply decodes_lift.
Qed.

Lemma inverts_get_string : inverts get_string enc_bytes str_ok.
Proof.
  intros r x r' Hw H. unfold get_string, gbind in H. apply rbind_Ok in H as ([b r1] & H1%inverts_q & H).
  unfold glift, from_utf8 in H. destruct (utf8_valid b) eqn:Eu; [|done]. injection H as <- <-.
  destruct (inverts_bytes _ _ _ Hw H1) as (? & ? & ?). done.
Qed.

Lemma decodes_entry x : entry_ok x -> decodes get_entry (enc_entry x) x.
Proof.
  destruct x as [l fp]. intros [Hl Hf]. unfold get_entry, enc_entry. eapply decodes_bind; [by apply decodes_q, decodes_u32|].
  rewrite <- (app_nil_r (enc_bytes _)). eapply decodes_bind; [apply decodes_fixed; [done|lia]|apply decodes_ret].
Qed.

Lemma inverts_entry : inverts get_entry enc_entry entry_ok.
Proof.
  intros r x r' Hw H. unfold get_entry, gbind in H. apply rbind_Ok in H as ([l r1] & H1%inverts_q & H).
  apply rbind_Ok in H as ([fp r2] & H2 & [= <- <-]). destruct (inverts_u32 _ _ _ Hw H1) as (Hw1 & E1 & Hu).
  destruct (inverts_fixed 48 _ _ _ Hw1 H2) as (Hw2 & E2 & Hl). split; [done|]. split; [|done].
  unfold enc_entry. cbn [fst snd]. by rewrite E1, E2, (assoc (++)).
Qed.

Lemma decodes_pair x : pair_ok x -> decodes get_pair (enc_pair x) x.
Proof.
  destruct x as [g fp]. intros [Hg Hf]. unfold get_pair, enc_pair.
  eapply decodes_bind; [apply decodes_fixed; [done|lia]|].
  rewrite <- (app_nil_r (enc_bytes _)). eapply decodes_bind; [apply decodes_fixed; [done|lia]|apply decodes_ret].
Qed.

Lemma inverts_pair : inverts get_pair enc_pair pair_ok.
Proof.
  intros r x r' Hw H. unfold get_pair, gbind in H. apply rbind_Ok in H as ([l r1] & H1 & H).
  apply rbind_Ok in H as ([fp r2] & H2 & [= <- <-]). destruct (inverts_fixed 32 _ _ _ Hw H1) as (Hw1 & E1 & Hu).
  destruct (inverts_fixed 48 _ _ _ Hw1 H2) as (Hw2 & E2 & Hl). split; [done|]. split; [|done].
  unfold enc_pair. cbn [fst snd]. by rewrite E1, E2, (assoc (++)).
Qed.

Lemma decodes_capped {A} cap (g : Get unit A) e ok l :
  cap < 2 ^ 32 -> (forall x, ok x -> decodes g (e x) x) -> list_ok cap ok l -> decodes (capped cap g) (enc_list e l) l.
Proof.
  intros Hc Hg [Hn Hf]. unfold capped, enc_list. pose proof (zlen_nonneg l).
  eapply decodes_bind; [apply decodes_q, decodes_u32; unfold is_u32; lia|].
  rewrite decide_False by lia. unfold zlen. rewrite Nat2Z.id. apply decodes_times. by eapply Forall_impl.
Qed.

Lemma inverts_capped {A} cap (g : Get unit A) e ok :
  inverts g e ok -> inverts (capped cap g) (enc_list e) (list_ok cap ok).
Proof.
  intros Hg r x r' Hw H. unfold capped in H. unfold gbind at 1 in H.
  apply rbind_Ok in H as ([n r1] & H1%inverts_q & H). destruct (inverts_u32 _ _ _ Hw H1) as (Hw1 & E1 & Hu).
  unfold is_u32 in Hu. case_decide; [done|].
  destruct (inverts_times _ _ _ _ Hg _ _ _ Hw1 H) as (Hw2 & E2 & Hl & Hf).
  unfold enc_list, list_ok, zlen. rewrite Hl, Z2Nat.id by lia.
  split; [done|]. split; [by rewrite E1, E2, (assoc (++))|]. split; [lia|done].
Qed.

(** A decoder followed by [finish] accepts exactly the encodings. *)
Lemma strict_exact {A} (g : Get unit A) e ok b x :
  zlen b <= usize_max -> (forall x, ok x -> decodes g (e x) x) -> inverts g e ok ->
  (to_option (run_get (get* x := g in get* _ := q finish in gret x) b) = Some x <-> ok x /\ b = e x).
Proof.
  intros Hb Hd Hi. rewrite to_option_Some. split.
  - unfold run_get, gbind, gret. intros H. apply rbind_Ok in H as ([y r'] & H & [= <-]).
    apply rbind_Ok in H as ([z r1] & H1 & H). apply rbind_Ok in H as ([u r2] & H2%inverts_q & [= <- <-]).
    destruct (Hi _ _ _ (rwf_new b Hb) H1) as (Hw & E & Hok). destruct (inverts_finish _ _ _ Hw H2) as [E2 _].
    by rewrite rest_new, E2, app_nil_r in E.
  - intros [Hok ->]. apply run_decodes_all; [done|]. rewrite <- (app_nil_r (e x)).
    eapply decodes_all_bind; [by apply Hd|]. apply decodes_all_finish.
Qed.

Lemma delivery_ack_exact b ids :
  zlen b <= usize_max ->
  (decode_delivery_ack b = Some ids <-> frame_ok (FDeliveryAck ids) /\ b = frame_bytes (FDeliveryAck ids)).
Proof.
  intros Hb. apply (strict_exact (capped MAX_ACK (fixed 32)) (enc_list enc_bytes)
    (list_ok MAX_ACK (fun i => length i = 32%nat)) b ids Hb); [|apply inverts_capped, inverts_fixed].
  intros x. apply decodes_capped; [done|]. intros y Hy. apply decodes_fixed; [done|lia].
Qed.

Lemma queue_sync_exact b es :
  zlen b <= usize_max ->
  (decode_queue_sync b = Some es <-> frame_ok (FQueueSync es) /\ b = frame_bytes (FQueueSync es)).
Proof.
  intros Hb. apply (strict_exact (capped MAX_SYNC get_pair) (enc_list enc_pair) (list_ok MAX_SYNC pair_ok) b es Hb);
    [|apply inverts_capped, inverts_pair].
  intros x. apply decodes_capped; [done|apply decodes_pair].
Qed.

Definition mailbox : Get unit (bytes * bytes) := get* r := fixed 48 in get* f := q get_vec in gret (r, f).

Lemma mailbox_put_exact b r f :
  zlen b <= usize_max ->
  (decode_mailbox_put b = Some (r, f) <-> frame_ok (FMailboxPut r f) /\ b = frame_bytes (FMailboxPut r f)).
Proof.
  intros Hb.
  assert (decode_mailbox_put b = to_option (run_get (get* x := mailbox in get* _ := q finish in gret x) b)) as ->.
  { unfold decode_mailbox_put, run_get, mailbox, gbind. destruct (fixed 48 (r_new b)) as [[a r1]|]; [|done].
    cbn. destruct (q get_vec r1) as [[c r2]|]; done. }
  apply (strict_exact mailbox enc_pair (fun x => length x.1 = 48%nat /\ small_blob x.2) b (r, f) Hb).
  - intros [a c] [Ha Hc]. unfold mailbox, enc_pair. eapply decodes_bind; [apply decodes_fixed; [done|lia]|].
    rewrite <- (app_nil_r (enc_bytes _)). eapply decodes_bind; [by apply decodes_q, decodes_vec|apply decodes_ret].
  - intros r0 x r' Hw H. unfold mailbox, gbind in H. apply rbind_Ok in H as ([l r1] & H1 & H).
    apply rbind_Ok in H as ([fp r2] & H2%inverts_q & [= <- <-]). destruct (inverts_fixed 48 _ _ _ Hw H1) as (Hw1 & E1 & Hu).
    destruct (inverts_bytes _ _ _ Hw1 H2) as (Hw2 & E2 & Hl). split; [done|]. split; [|done].
    unfold enc_pair. cbn [fst snd]. by rewrite E1, E2, (assoc (++)).
Qed.

(** ** Frames *)

Ltac pick_tag := unfold frame_body; repeat (rewrite decide_False by lia); rewrite decide_True by lia.

Lemma decodes_ok_opt {E A} (g : Get E A) e x : decodes g e x -> decodes (ok_opt g) e x.
Proof. intros H r tl Hw Hr. destruct (H r tl Hw Hr) as (r' & Eq & ?). exists r'. unfold ok_opt. by rewrite Eq. Qed.

#[local] Hint Resolve decodes_get_string decodes_opt decodes_ok_opt : tk.

Lemma body_decodes f :
  frame_ok f -> frame_strict f = false -> decodes (frame_body (frame_tag f)) (frame_bytes f) f.
Proof.
  unfold small_blob.
  destruct f; cbn [frame_ok frame_strict frame_tag frame_bytes]; intros Hok Hs; try discriminate Hs;
    pick_tag; destruct_and?; try unfold blob; try by dec.
  - eapply decodes_bind; [by apply decodes_q, decodes_u32|]. eapply decodes_bind; [|by dec].
    by eapply decodes_capped; [|apply decodes_entry|].
Qed.

Lemma body_strict f r :
  frame_ok f -> frame_strict f = true -> rwf r -> rest r = frame_bytes f -> frame_body (frame_tag f) r = Ok (f, r).
Proof.
  intros Hok Hs Hw Hr. assert (zlen (rest r) <= usize_max) as Hl.
  { rewrite <- remaining_rest by done. destruct Hw. unfold remaining. lia. }
  destruct f; try discriminate Hs; cbn [frame_tag]; pick_tag; unfold gbind, on_rest.
  - rewrite (proj2 (delivery_ack_exact _ ids Hl)) by done. done.
  - rewrite (proj2 (mailbox_put_exact _ recipient frame Hl)) by done. done.
  - rewrite (proj2 (queue_sync_exact _ entries Hl)) by done. done.
Qed.

Lemma blob_inv c r f r' :
  rwf r -> blob c r = Ok (f, r') -> exists b, f = c b /\ small_blob b /\ rest r = enc_bytes b ++ rest r'.
Proof.
  intros Hw H. unfold blob, gbind in H. apply rbind_Ok in H as ([b r1] & H1%inverts_q & [= <- <-]).
  destruct (inverts_bytes _ _ _ Hw H1) as (_ & ? & ?). eauto.
Qed.

Definition frame_read (t : bytes) (f : Frame) : Prop :=
  frame_ok f /\ exists tl, t = frame_bytes f ++ tl /\ (frame_strict f = true -> tl = []).

Lemma blob_read c t r f r' :
  (forall b, frame_tag (c b) = t /\ frame_strict (c b) = false /\ frame_bytes (c b) = enc_bytes b /\
     (small_blob b -> frame_ok (c b))) ->
  rwf r -> blob c r = Ok (f, r') -> frame_tag f = t /\ frame_read (rest r) f.
Proof.
  intros Hc Hw H. destruct (blob_inv c r f r' Hw H) as (b & -> & Hb & E).
  destruct (Hc b) as (? & Hs & Eb & Hok). split; [done|]. split; [by apply Hok|].
  exists (rest r'). by rewrite Eb, Hs.
Qed.

Lemma chat_inv r f r' :
  rwf r -> frame_body 0 r = Ok (f, r') -> frame_tag f = 0 /\ frame_read (rest r) f.
Proof.
  intros Hw H. unfold frame_body in H. rewrite decide_True in H by done. unfold gbind in H.
  apply rbind_Ok in H as ([ch r1] & H1 & H). apply rbind_Ok in H as ([tx r2] & H2 & H).
  apply rbind_Ok in H as ([m r3] & H3%inverts_ok_opt & [= <- <-]).
  destruct (inverts_get_string _ _ _ Hw H1) as (Hw1 & E1 & O1).
  destruct (inverts_get_string _ _ _ Hw1 H2) as (Hw2 & E2 & O2).
  destruct (inverts_opt _ _ _ Hw2 H3) as (Hw3 & E3 & O3). split; [done|]. split; [done|].
  exists (rest r3). cbn. rewrite E1, E2, E3, <- !(assoc (++)). done.
Qed.

Lemma roster_inv r f r' :
  rwf r -> frame_body 5 r = Ok (f, r') -> frame_tag f = 5 /\ frame_read (rest r) f.
Proof.
  intros Hw H. revert H. pick_tag. intros H. unfold gbind in H.
  apply rbind_Ok in H as ([e r1] & H1%inverts_q & H). apply rbind_Ok in H as ([es r2] & H2 & H).
  apply rbind_Ok in H as ([sg r3] & H3%inverts_q & [= <- <-]).
  destruct (inverts_u32 _ _ _ Hw H1) as (Hw1 & E1 & O1).
  destruct (inverts_capped _ _ _ _ inverts_entry _ _ _ Hw1 H2) as (Hw2 & E2 & O2).
  destruct (inverts_bytes _ _ _ Hw2 H3) as (Hw3 & E3 & O3). split; [done|]. split; [done|].
  exists (rest r3). cbn. rewrite E1, E2, E3, <- !(assoc (++)). done.
Qed.

Lemma body_inverts tag r f r' :
  rwf r -> frame_body tag r = Ok (f, r') -> frame_tag f = tag /\ frame_read (rest r) f.
Proof.
  intros Hw H. assert (zlen (rest r) <= usize_max) as Hl.
  { rewrite <- remaining_rest by done. destruct Hw. unfold remaining. lia. }
  destruct (decide (tag = 0)) as [->|]; [by eapply chat_inv|]. destruct (decide (tag = 5)) as [->|]; [by eapply roster_inv|].
  unfold frame_body in H.
  repeat (case_decide; [subst tag; try contradiction; try (solve [refine (blob_read _ _ r _ r' _ Hw H); by intros b; repeat split])|]);
    unfold gbind, on_rest in H.
  - apply rbind_Ok in H as ([e r1] & Hg1%inverts_q & H). apply rbind_Ok in H as ([b r2] & Hg2%inverts_q & [= <- <-]).
    destruct (inverts_u32 _ _ _ Hw Hg1) as (Hw1 & E1 & O1). destruct (inverts_bytes _ _ _ Hw1 Hg2) as (Hw2 & E2 & O2).
    split; [done|]. split; [done|]. exists (rest r2). cbn. rewrite E1, E2, <- !(assoc (++)). done.
  - apply rbind_Ok in H as ([s r1] & Hg1 & [= <- <-]). destruct (inverts_get_string _ _ _ Hw Hg1) as (Hw1 & E1 & O1).
    split; [done|]. split; [done|]. by exists (rest r1).
  - destruct (decode_delivery_ack (rest r)) as [ids|] eqn:E; [|done]. injection H as <- <-.
    apply (delivery_ack_exact _ _ Hl) in E as [? E]. split; [done|]. split; [done|]. exists []. by rewrite app_nil_r.
  - destruct (decode_mailbox_put (rest r)) as [[a b]|] eqn:E; [|done]. injection H as <- <-.
    apply (mailbox_put_exact _ _ _ Hl) in E as [? E]. split; [done|]. split; [done|]. exists []. by rewrite app_nil_r.
  - injection H as <- <-. split; [done|]. split; [done|]. by exists (rest r).
  - destruct (decode_queue_sync (rest r)) as [es|] eqn:E; [|done]. injection H as <- <-.
    apply (queue_sync_exact _ _ Hl) in E as [? E]. split; [done|]. split; [done|]. exists []. by rewrite app_nil_r.
  - done.
Qed.

Lemma frame_decode_spec (b : bytes) (f : Frame) :
  zlen b <= usize_max ->
  (frame_decode b = Some f <->
   frame_ok f /\ exists tl, b = frame_encode f ++ tl /\ (frame_strict f = true -> tl = [])).
Proof.
  intros Hb. rewrite frame_encode_norm. unfold frame_decode. rewrite to_option_Some. split.
  - unfold run_get, gbind. intros H. apply rbind_Ok in H as ([x r'] & H & [= <-]).
    apply rbind_Ok in H as ([tag r1] & H1%inverts_q & H2).
    destruct (inverts_u8 _ _ _ (rwf_new b Hb) H1) as (Hw1 & E1 & _).
    destruct (body_inverts tag r1 x r' Hw1 H2) as [<- [Hok (tl & E & Hs)]]. split; [done|].
    exists tl. rewrite rest_new in E1. by rewrite E1, E.
  - intros [Hok (tl & -> & Hs)]. assert (0 <= frame_tag f < 256) as Ht by (destruct f; cbn; lia).
    destruct (decodes_u8 _ Ht (r_new (([byte_of (frame_tag f)] ++ frame_bytes f) ++ tl)) (frame_bytes f ++ tl)) as (r1 & E1 & Hw1 & Hr1);
      [by apply rwf_new|by rewrite rest_new, <- (assoc (++))|].
    unfold run_get, gbind, q. rewrite E1. cbn [map_err rbind]. destruct (frame_strict f) eqn:Ef.
    + rewrite Hs, app_nil_r in Hr1 by done. by rewrite (body_strict f r1 Hok Ef Hw1 Hr1).
    + destruct (body_decodes f Hok Ef r1 tl Hw1 Hr1) as (r2 & E2 & _). by rewrite E2.
Qed.

(** Session frames have one meaning.  Bytes decode to a frame exactly when
    they are the encoding of that well-formed frame (bounded fields, valid
    UTF-8, fixed-size ids, capped lists), followed, except after the three
    store-and-forward frames, by bytes that are ignored; so encoding
    round-trips, no frame can be read as another, and the decoder is total. *)
Lemma frame_decode_exact (b : bytes) (f : Frame) :
  zlen b <= usize_max ->
  (frame_decode b = Some f <->
   frame_ok f /\ exists tl, b = frame_encode f ++ tl /\ (frame_strict f = true -> tl = [])).
Proof. apply frame_decode_spec. Qed.
