(* ===== verification/Engine.v ===== *)
(** * The group control plane

    The handlers of [core/src/engine.rs] that change a node's group, roster,
    promotion and history state, over one record [GroupNode] with the fields of
    [Inner] they touch.  [route] appends to [n_sent]: delivery is the network's
    business.  A panic of a called operation is the error of the [ST] monad; a
    [.ok()] or an early [return] is a value. *)

From S2P Require Import Prelude Wire Crypto Hybrid Ratchet TreeNode TreeCodec TreeKem Marking Frames.

(** ** Promotion bodies *)

Inductive RetentionMode : Type := Fresh | Carry | CarryFromPoint.

Definition retention_from_u8 (v : Z) : option RetentionMode :=
  if decide (v = 0) then Some Fresh
  else if decide (v = 1) then Some Carry
  else if decide (v = 2) then Some CarryFromPoint
  else None.

Record PromoteBody : Type := mkPromoteBody {
  pb_target_tier : Z;
  pb_retention_mode : Z;
  pb_consent_rule : Z;
  pb_picked : list bytes;
  pb_onion : bytes;
  pb_carry_from_secs : Z;
  pb_epoch : Z }.

Definition MAX_PICKED : Z := 256.

Definition promote_encode (p : PromoteBody) : bytes :=
  w_new |> put_u8 (pb_target_tier p) |> put_u8 (pb_retention_mode p) |> put_u8 (pb_consent_rule p)
        |> put_count (pb_picked p) |> put_each put_bytes (pb_picked p)
        |> put_bytes (pb_onion p) |> put_u64 (pb_carry_from_secs p) |> put_u32 (pb_epoch p) |> into_vec.

Definition promote_read : Get unit PromoteBody :=
  get* target_tier := q get_u8 in
  get* retention_mode := q get_u8 in
  get* consent_rule := q get_u8 in
  get* picked := capped MAX_PICKED (fixed 48) in
  get* onion := q get_vec in
  get* carry_from_secs := q get_u64 in
  get* epoch := q get_u32 in
  gret (mkPromoteBody target_tier retention_mode consent_rule picked onion carry_from_secs epoch).

Definition promote_decode_flat (b : bytes) : option PromoteBody :=
  to_option (run_get (get* p := promote_read in get* _ := q finish in gret p) b).

Definition promote_decode (b : bytes) : option PromoteBody :=
  p ← promote_decode_flat b; if utf8_valid (pb_onion p) then Some p else None.

Record ConsentBody : Type := mkConsentBody {
  cb_promote_id : bytes; cb_accept : bool; cb_leaf : Z; cb_epoch : Z }.

Definition consent_encode (c : ConsentBody) : bytes :=
  w_new |> put_bytes (cb_promote_id c) |> put_u8 (bool_u8 (cb_accept c)) |> put_u32 (cb_leaf c)
        |> put_u32 (cb_epoch c) |> into_vec.

Definition consent_read : Get unit ConsentBody :=
  get* promote_id := fixed 32 in
  get* a := q get_u8 in
  get* l := q get_u32 in
  get* epoch := q get_u32 in
  gret (mkConsentBody promote_id (bool_decide (a <> 0)) l epoch).

Definition consent_decode (b : bytes) : option ConsentBody :=
  to_option (run_get (get* c := consent_read in get* _ := q finish in gret c) b).

Definition wrap_signed (body : bytes) (l : Z) (sig : bytes) : bytes :=
  w_new |> put_bytes body |> put_u32 l |> put_bytes sig |> into_vec.

Definition signed_read : Get unit (bytes * Z * bytes) :=
  get* body := q get_vec in get* l := q get_u32 in get* sig := q get_vec in gret (body, l, sig).

Definition unwrap_signed (payload : bytes) : option (bytes * Z * bytes) :=
  to_option (run_get (get* x := signed_read in get* _ := q finish in gret x) payload).

Definition ROSTER_CONTEXT : bytes := bstr "talkrypt-roster-v1".

Definition roster_transcript (epoch : Z) (entries : list (Z * bytes)) : bytes :=
  w_new |> put_bytes ROSTER_CONTEXT |> put_u32 epoch |> put_count entries |> put_each put_entry entries |> into_vec.

(** ** The node *)

Inductive GroupRole : Type := RoleNone | RoleHost | RoleMember.
#[export] Instance group_role_eq_dec : EqDecision GroupRole.
Proof. solve_decision. Defined.

Inductive Route : Type := Broadcast | ToPeer (fp : bytes) | Committer.

Inductive AccessPolicy : Type := AOpen | AAccounts (fps : gset bytes) | AContacts | AFriends.

Definition is_open (a : AccessPolicy) : bool := match a with AOpen => true | _ => false end.

Definition admits (a : AccessPolicy) (account_fingerprint : bytes) (contact friend : bool) : bool :=
  match a with
  | AOpen => true
  | AAccounts s => bool_decide (account_fingerprint ∈ s)
  | AContacts => contact
  | AFriends => friend
  end.

Record PromoteState : Type := mkPromoteState {
  ps_body : PromoteBody; ps_consents : gmap Z bool; ps_my_response : option bool }.

Record BacklogEntry : Type := mkBacklog { be_gid : bytes; be_ts : Z; be_record : bytes }.

Inductive Event : Type :=
| EError        (** the text is for display *)
| EMessage (from channel text : bytes) (marking : option Marking)
| EDelivered (gossip_id : bytes)
| EOutboxDropped (count : Z)
| EPromoteProposed (by_ : bytes) (promote_id : bytes) (target_tier retention_mode : Z) (picked : list bytes)
| EPromoted (promote_id : bytes)
| EPromoteAborted (promote_id : bytes).

Record GroupNode : Type := mkNode_ {
  n_role : GroupRole;
  n_me : bytes;                        (** [identity.public().fingerprint()] *)
  n_access : AccessPolicy;
  n_admitted : gset bytes;
  n_message_padding : option Z;        (** [descriptor.message_padding] *)
  n_group : option TreeKemGroup;
  n_leaf_keypair : option LeafKeyPair;
  n_roster : gmap Z bytes;
  n_last_roster_epoch : Z;
  n_pending : gmap Z bytes;            (** [pending_commits] *)
  n_promote : option PromoteState;
  n_backlog : list BacklogEntry;
  n_history : gmap bytes bytes;        (** the chat's sealed records *)
  n_persistent : bool;
  n_sent : list (Frame * Route);
  n_events : list Event }.

(** Field updates. *)
Definition with_group (x : option TreeKemGroup) (n : GroupNode) : GroupNode :=
  mkNode_ (n_role n) (n_me n) (n_access n) (n_admitted n) (n_message_padding n) x (n_leaf_keypair n)
    (n_roster n) (n_last_roster_epoch n) (n_pending n) (n_promote n) (n_backlog n) (n_history n)
    (n_persistent n) (n_sent n) (n_events n).
Definition with_leaf_keypair (x : option LeafKeyPair) (n : GroupNode) : GroupNode :=
  mkNode_ (n_role n) (n_me n) (n_access n) (n_admitted n) (n_message_padding n) (n_group n) x (n_roster
    n) (n_last_roster_epoch n) (n_pending n) (n_promote n) (n_backlog n) (n_history n) (n_persistent n)
    (n_sent n) (n_events n).
Definition with_roster (x : gmap Z bytes) (n : GroupNode) : GroupNode :=
  mkNode_ (n_role n) (n_me n) (n_access n) (n_admitted n) (n_message_padding n) (n_group n)
    (n_leaf_keypair n) x (n_last_roster_epoch n) (n_pending n) (n_promote n) (n_backlog n) (n_history n)
    (n_persistent n) (n_sent n) (n_events n).
Definition with_last_roster_epoch (x : Z) (n : GroupNode) : GroupNode :=
  mkNode_ (n_role n) (n_me n) (n_access n) (n_admitted n) (n_message_padding n) (n_group n)
    (n_leaf_keypair n) (n_roster n) x (n_pending n) (n_promote n) (n_backlog n) (n_history n)
    (n_persistent n) (n_sent n) (n_events n).
Definition with_pending (x : gmap Z bytes) (n : GroupNode) : GroupNode :=
  mkNode_ (n_role n) (n_me n) (n_access n) (n_admitted n) (n_message_padding n) (n_group n)
    (n_leaf_keypair n) (n_roster n) (n_last_roster_epoch n) x (n_promote n) (n_backlog n) (n_history n)
    (n_persistent n) (n_sent n) (n_events n).
Definition with_promote (x : option PromoteState) (n : GroupNode) : GroupNode :=
  mkNode_ (n_role n) (n_me n) (n_access n) (n_admitted n) (n_message_padding n) (n_group n)
    (n_leaf_keypair n) (n_roster n) (n_last_roster_epoch n) (n_pending n) x (n_backlog n) (n_history n)
    (n_persistent n) (n_sent n) (n_events n).
Definition with_backlog (x : list BacklogEntry) (n : GroupNode) : GroupNode :=
  mkNode_ (n_role n) (n_me n) (n_access n) (n_admitted n) (n_message_padding n) (n_group n)
    (n_leaf_keypair n) (n_roster n) (n_last_roster_epoch n) (n_pending n) (n_promote n) x (n_history n)
    (n_persistent n) (n_sent n) (n_events n).
Definition with_history (x : gmap bytes bytes) (n : GroupNode) : GroupNode :=
  mkNode_ (n_role n) (n_me n) (n_access n) (n_admitted n) (n_message_padding n) (n_group n)
    (n_leaf_keypair n) (n_roster n) (n_last_roster_epoch n) (n_pending n) (n_promote n) (n_backlog n) x
    (n_persistent n) (n_sent n) (n_events n).
Definition with_persistent (x : bool) (n : GroupNode) : GroupNode :=
  mkNode_ (n_role n) (n_me n) (n_access n) (n_admitted n) (n_message_padding n) (n_group n)
    (n_leaf_keypair n) (n_roster n) (n_last_roster_epoch n) (n_pending n) (n_promote n) (n_backlog n)
    (n_history n) x (n_sent n) (n_events n).
Definition with_sent (x : list (Frame * Route)) (n : GroupNode) : GroupNode :=
  mkNode_ (n_role n) (n_me n) (n_access n) (n_admitted n) (n_message_padding n) (n_group n)
    (n_leaf_keypair n) (n_roster n) (n_last_roster_epoch n) (n_pending n) (n_promote n) (n_backlog n)
    (n_history n) (n_persistent n) x (n_events n).
Definition with_events (x : list Event) (n : GroupNode) : GroupNode :=
  mkNode_ (n_role n) (n_me n) (n_access n) (n_admitted n) (n_message_padding n) (n_group n)
    (n_leaf_keypair n) (n_roster n) (n_last_roster_epoch n) (n_pending n) (n_promote n) (n_backlog n)
    (n_history n) (n_persistent n) (n_sent n) x.

Definition send (f : Frame) (to : Route) : ST GroupNode string unit :=
  st_modify (fun n => with_sent (n_sent n ++ [(f, to)]) n).
Definition emit (e : Event) : ST GroupNode string unit :=
  st_modify (fun n => with_events (n_events n ++ [e]) n).

(** [roster.iter().find(|(_, fp)| fp == from)] *)
Definition leaf_of (roster : gmap Z bytes) (fp : bytes) : option Z :=
  (fun x => (x.2).1) <$> list_find (fun x : Z * bytes => x.2 = fp) (map_to_list roster).

Section Handlers.
Context {P : Primitives}.

(** [sha256] is the digest of the [sha2] crate. *)
Context (sha256 : bytes -> bytes).

Definition gossip_id (ciphertext : bytes) : bytes := sha256 ciphertext.
Definition promote_id (p : PromoteBody) : bytes := gossip_id (promote_encode p).

(** [match g.as_mut() { Some(grp) => op(grp).ok(), None => None }] *)
Definition on_group {A} (op : ST TreeKemGroup fault A) : ST GroupNode string (option A) := fun n =>
  match n_group n with
  | None => (Ok None, n)
  | Some g =>
      match op g with
      | (Ok a, g') => (Ok (Some a), with_group (Some g') n)
      | (Err (Fail _), g') => (Ok None, with_group (Some g') n)
      | (Err (Panic m), g') => (Err m, with_group (Some g') n)
      end
  end.

(** The operation with the epoch it started from. *)
Definition tagged {A} (op : ST TreeKemGroup fault A) : ST TreeKemGroup fault (Z * A) :=
  do* g := st_get in do* a := op in st_ret (tk_epoch g, a).

(** ** Membership *)

Definition signed_roster_frame (n : GroupNode) (entries : list (Z * bytes)) : option Frame :=
  grp ← n_group n;
  sig ← sign_as_host grp (roster_transcript (tk_epoch grp) entries);
  Some (FRoster (tk_epoch grp) entries sig).

Definition broadcast_roster : ST GroupNode string unit :=
  do* n := st_get in
  match signed_roster_frame n (map_to_list (n_roster n)) with
  | Some f => send f Broadcast
  | None => st_ret tt
  end.

(** Host: admit a new member.  The debounced name re-announcement is left out:
    it only schedules a timer. *)
Definition handle_keypackage (cs : nat -> coins) (from kp_bytes : bytes) : ST GroupNode string unit :=
  do* n := st_get in
  if negb (is_open (n_access n) || bool_decide (from ∈ n_admitted n)) then
    emit EError
  else
    do* res := on_group (
      do* grp := st_get in
      do* kp := lift_crypto (kp_decode (tk_profile grp) kp_bytes) in
      tagged (add cs kp)) in
    match res with
    | None => st_ret tt
    | Some (from_epoch, (l, c, w)) =>
        do* _ := st_modify (fun n => with_roster (<[l := from]> (n_roster n)) n) in
        do* _ := send (FWelcome (welcome_encode w)) (ToPeer from) in
        do* _ := send (FCommit from_epoch (commit_encode c)) Broadcast in
        broadcast_roster
    end.

(** Member: enter the group from a Welcome. *)
Definition handle_welcome (welcome_bytes : bytes) : ST GroupNode string unit :=
  do* n := st_get in
  do* _ := st_modify (with_leaf_keypair None) in
  match n_leaf_keypair n with
  | None => st_ret tt
  | Some kp =>
      match welcome_decode (lk_profile kp) welcome_bytes with
      | Err _ => st_ret tt
      | Ok w =>
          match join_with_welcome kp w with
          | Ok grp =>
              let grp := match n_message_padding n with Some step => set_pad_bucket step grp | None => grp end in
              st_modify (with_group (Some grp))
          | Err (Fail _) => emit EError
          | Err (Panic m) => st_err m
          end
      end
  end.

Definition remove_member (cs : nat -> coins) (fingerprint : bytes) : ST GroupNode string unit :=
  do* n := st_get in
  if decide (n_role n <> RoleHost) then st_ret tt
  else
    match leaf_of (n_roster n) fingerprint with
    | None => st_ret tt
    | Some l =>
        do* res := on_group (tagged (remove cs l)) in
        match res with
        | None => st_ret tt
        | Some (from_epoch, c) =>
            do* _ := st_modify (fun n => with_roster (delete l (n_roster n)) n) in
            do* _ := send (FCommit from_epoch (commit_encode c)) Broadcast in
            broadcast_roster
        end
    end.

Definition self_update (c1 c2 : coins) (cs : nat -> coins) : ST GroupNode string unit :=
  do* n := st_get in
  match n_role n with
  | RoleHost =>
      do* res := on_group (tagged (update c1 cs)) in
      match res with
      | None => st_ret tt
      | Some (from_epoch, c) => send (FCommit from_epoch (commit_encode c)) Broadcast
      end
  | RoleMember =>
      do* res := on_group (propose_update c1 c2) in
      match res with
      | None => st_ret tt
      | Some b => send (FUpdateProposal b) Committer
      end
  | RoleNone => st_ret tt
  end.

Definition handle_update_proposal (cs : nat -> coins) (from b : bytes) : ST GroupNode string unit :=
  do* n := st_get in
  match leaf_of (n_roster n) from with
  | None => st_ret tt
  | Some proposer_leaf =>
      do* res := on_group (tagged (commit_update cs proposer_leaf b)) in
      match res with
      | None => st_ret tt
      | Some (from_epoch, c) => send (FCommit from_epoch (commit_encode c)) Broadcast
      end
  end.

(** Drop anything already applied. *)
Definition not_stale (cur : Z) (pending : gmap Z bytes) : gmap Z bytes :=
  filter (fun x : Z * bytes => x.1 >= cur) pending.

(** Member: one turn of the loop of [handle_commit]; [true] to go on. *)
Definition commit_turn : ST GroupNode string bool :=
  do* n := st_get in
  match n_group n with
  | None => st_ret false
  | Some grp =>
      let cur := tk_epoch grp in
      let live := not_stale cur (n_pending n) in
      do* _ := st_modify (with_pending (delete cur live)) in
      match live !! cur with
      | None => st_ret false
      | Some b =>
          match commit_decode (tk_profile grp) b with
          | Err _ => st_ret false
          | Ok commit => do* res := on_group (apply_commit commit) in
              st_ret (match res with Some _ => true | None => false end)
          end
      end
  end.

Fixpoint commit_loop (fuel : nat) : ST GroupNode string unit :=
  match fuel with
  | O => st_err "out of fuel"
  | S fuel => do* more := commit_turn in if more : bool then commit_loop fuel else st_ret tt
  end.

(** Each turn that goes on consumes a pending commit. *)
Definition handle_commit (from_epoch : Z) (commit_bytes : bytes) : ST GroupNode string unit :=
  do* _ := st_modify (fun n => with_pending (<[from_epoch := commit_bytes]> (n_pending n)) n) in
  do* n := st_get in
  commit_loop (S (size (n_pending n))).

(** Member: the [Frame::Roster] arm of the receive loop. *)
Definition handle_roster (epoch : Z) (entries : list (Z * bytes)) (sig : bytes) : ST GroupNode string unit :=
  do* n := st_get in
  let verified := match n_group n with
                  | Some grp => verify_host_sig grp (roster_transcript epoch entries) sig
                  | None => false
                  end in
  let fresh := bool_decide (epoch >= n_last_roster_epoch n) in
  if verified && fresh then
    st_modify (fun n => with_roster (foldl (fun m x => <[x.1 := x.2]> m) ∅ entries) (with_last_roster_epoch epoch n))
  else st_ret tt.

(** ** Retention *)

Definition should_seal (mode : RetentionMode) (carry_from_secs ts : Z) : bool :=
  match mode with
  | Fresh => false
  | Carry => true
  | CarryFromPoint => bool_decide (ts >= carry_from_secs)
  end.

Definition apply_retention (retention_mode carry_from_secs : Z) : ST GroupNode string unit :=
  st_modify (fun n =>
    let mode := default Fresh (retention_from_u8 retention_mode) in
    let to_seal := filter (fun e => should_seal mode carry_from_secs (be_ts e) = true) (n_backlog n) in
    with_history (foldl (fun h e => <[be_gid e := be_record e]> h) (n_history n) to_seal) (with_backlog [] n)).

Definition purge_history : ST GroupNode string unit :=
  st_modify (fun n => with_backlog [] (with_history ∅ n)).

Definition set_persistence (on : bool) : ST GroupNode string unit :=
  do* _ := st_modify (with_persistent on) in
  if on then st_ret tt else purge_history.

Definition BACKLOG_CAP : Z := 4096.

(** [while bl.len() > BACKLOG_CAP { bl.remove(0) }] *)
Definition drop_oldest {A} (cap : Z) (l : list A) : list A := drop (length l - Z.to_nat cap) l.

Definition record_backlog (gid record : bytes) (ts : Z) : ST GroupNode string unit :=
  st_modify (fun n =>
    if decide (gid ∈ be_gid <$> n_backlog n) then n
    else
      let n := with_backlog (drop_oldest BACKLOG_CAP (n_backlog n ++ [mkBacklog gid ts record])) n in
      if n_persistent n then with_history (<[gid := record]> (n_history n)) n else n).

(** ** Promotion *)

Inductive PromoDecision : Type := PWait | PAbort | PCommit (carried : list bytes).

Definition promotion_decision (s : PromoteState) (roster : gmap Z bytes) (me_fp : bytes) : PromoDecision :=
  let picked_members :=
    filter (fun x : Z * bytes => x.2 ∈ pb_picked (ps_body s) /\ x.2 <> me_fp) (map_to_list roster) in
  let response (x : Z * bytes) := ps_consents s !! x.1 in
  if decide (pb_consent_rule (ps_body s) = 0) then
    if existsb (fun x => bool_decide (response x = Some false)) picked_members then PAbort
    else if forallb (fun x => bool_decide (response x = Some true)) picked_members then
      PCommit (me_fp :: picked_members.*2)
    else PWait
  else if decide (pb_consent_rule (ps_body s) = 1) then
    if forallb (fun x => bool_decide (is_Some (response x))) picked_members then
      PCommit (me_fp :: (filter (fun x => response x = Some true) picked_members).*2)
    else PWait
  else PWait.

(** Receive a proposal; the dispatcher calls it on hosts and members alike. *)
Definition handle_promote (from payload : bytes) : ST GroupNode string unit :=
  do* n := st_get in
  match unwrap_signed payload with
  | None => st_ret tt
  | Some (body_bytes, l, sig) =>
      let ok := match n_group n with
                | Some grp =>
                    verify_promote grp l body_bytes sig &&
                    match promote_decode body_bytes with
                    | Some b => bool_decide (pb_epoch b = tk_epoch grp)
                    | None => false
                    end
                | None => false
                end in
      if negb ok then st_ret tt
      else
        match promote_decode body_bytes with
        | None => st_ret tt
        | Some body =>
            do* _ := st_modify (with_promote (Some (mkPromoteState body ∅ None))) in
            emit (EPromoteProposed from (promote_id body) (pb_target_tier body) (pb_retention_mode body) (pb_picked body))
        end
  end.

(** [for fp in to_remove { let _ = core.remove_member(fp).await }] *)
Fixpoint remove_all (cs : nat -> nat -> coins) (k : nat) (fps : list bytes) : ST GroupNode string unit :=
  match fps with
  | [] => st_ret tt
  | fp :: fps => do* _ := remove_member (cs k) fp in remove_all cs (S k) fps
  end.

(** Host: carry out a promotion.  [cs] are the draws of the evictions, [c1],
    [c2] and [cu] those of the final [self_update]. *)
Definition commit_promotion (cs : nat -> nat -> coins) (c1 c2 : coins) (cu : nat -> coins)
    (id : bytes) (carried : list bytes) : ST GroupNode string unit :=
  do* n := st_get in
  let '(mode, secs) := match n_promote n with
                       | Some s => (pb_retention_mode (ps_body s), pb_carry_from_secs (ps_body s))
                       | None => (0, 0)
                       end in
  do* _ := (match grp ← n_group n; sig ← to_option (sign_promo_commit grp id); Some (wrap_signed id (tk_me grp) sig) with
            | Some payload => send (FPromoteCommit payload) Broadcast
            | None => st_ret tt
            end) in
  do* _ := apply_retention mode secs in
  do* n := st_get in
  let to_remove := filter (fun fp => fp <> n_me n /\ fp ∉ carried) (map_to_list (n_roster n)).*2 in
  do* _ := remove_all cs 0 to_remove in
  do* _ := self_update c1 c2 cu in
  do* _ := set_persistence true in
  do* _ := emit (EPromoted id) in
  st_modify (with_promote None).

(** Member: the committer announces that the promotion took effect. *)
Definition handle_promote_commit (payload : bytes) : ST GroupNode string unit :=
  do* n := st_get in
  match unwrap_signed payload with
  | None => st_ret tt
  | Some (body, l, sig) =>
      let verified := match n_group n with Some grp => verify_promo_commit grp l body sig | None => false end in
      if negb verified || bool_decide (length body <> 32%nat) then st_ret tt
      else
        let apply := match n_promote n with
                     | Some s =>
                         if decide (promote_id (ps_body s) = body /\ ps_my_response s = Some true)
                         then Some (pb_retention_mode (ps_body s), pb_carry_from_secs (ps_body s))
                         else None
                     | None => None
                     end in
        do* _ := st_modify (with_promote None) in
        match apply with
        | None => st_ret tt
        | Some (mode, secs) =>
            do* _ := apply_retention mode secs in
            do* _ := set_persistence true in
            emit (EPromoted body)
        end
  end.

(** Host: record a consent; the decision the tally then gives. *)
Definition tally_consent (payload : bytes) : ST GroupNode string PromoDecision :=
  do* n := st_get in
  match unwrap_signed payload with
  | None => st_ret PWait
  | Some (cb_bytes, l, sig) =>
      match n_group n with
      | None => st_ret PWait
      | Some grp =>
          if negb (verify_consent grp l cb_bytes sig) then st_ret PWait
          else
            match consent_decode cb_bytes with
            | None => st_ret PWait
            | Some cb =>
                if decide (cb_leaf cb <> l \/ cb_epoch cb <> tk_epoch grp) then st_ret PWait
                else
                  match n_promote n with
                  | None => st_ret PWait
                  | Some s =>
                      if decide (cb_promote_id cb <> promote_id (ps_body s) \/ cb_epoch cb <> pb_epoch (ps_body s))
                      then st_ret PWait
                      else
                        let s := mkPromoteState (ps_body s) (<[cb_leaf cb := cb_accept cb]> (ps_consents s))
                                   (ps_my_response s) in
                        do* _ := st_modify (with_promote (Some s)) in
                        st_ret (promotion_decision s (n_roster n) (n_me n))
                  end
            end
      end
  end.

Definition handle_consent (cs : nat -> nat -> coins) (c1 c2 : coins) (cu : nat -> coins) (payload : bytes)
  : ST GroupNode string unit :=
  do* decided := tally_consent payload in
  do* n := st_get in
  let id := promote_id <$> (ps_body <$> n_promote n) in
  match decided, id with
  | PCommit carried, Some id => commit_promotion cs c1 c2 cu id carried
  | PAbort, Some id =>
      do* _ := st_modify (with_promote None) in
      emit (EPromoteAborted id)
  | PAbort, None => st_modify (with_promote None)
  | _, _ => st_ret tt
  end.

Definition propose_promote (cs : nat -> nat -> coins) (c1 c2 : coins) (cu : nat -> coins)
    (target_tier retention_mode consent_rule : Z) (picked : list bytes) (onion : bytes) (carry_from_secs : Z)
  : ST GroupNode string (result CoreError bytes) :=
  do* n := st_get in
  match n_group n with
  | None => st_ret (Err CGroupNotReady)
  | Some grp =>
      let body := mkPromoteBody target_tier retention_mode consent_rule picked onion carry_from_secs (tk_epoch grp) in
      match sign_promote grp (promote_encode body) with
      | Err _ => st_ret (Err CGroupNotReady)
      | Ok sig =>
          do* _ := st_modify (with_promote (Some (mkPromoteState body ∅ (Some true)))) in
          do* _ := send (FPromote (wrap_signed (promote_encode body) (tk_me grp) sig)) Broadcast in
          do* _ := (if decide (consent_rule = 2) then
                      let carried := n_me n ::
                        filter (fun fp => fp ∈ picked /\ fp <> n_me n) (map_to_list (n_roster n)).*2 in
                      commit_promotion cs c1 c2 cu (promote_id body) carried
                    else st_ret tt) in
          st_ret (Ok (promote_id body))
      end
  end.

Definition respond_promote (id : bytes) (accept : bool) : ST GroupNode string (result CoreError unit) :=
  do* n := st_get in
  match n_group n with
  | None => st_ret (Err CGroupNotReady)
  | Some grp =>
      let cb_bytes := consent_encode (mkConsentBody id accept (tk_me grp) (tk_epoch grp)) in
      match sign_consent grp cb_bytes with
      | Err _ => st_ret (Err CGroupNotReady)
      | Ok sig =>
          do* _ := st_modify (fun n =>
            match n_promote n with
            | Some s =>
                if decide (promote_id (ps_body s) = id)
                then with_promote (Some (mkPromoteState (ps_body s) (ps_consents s) (Some accept))) n
                else n
            | None => n
            end) in
          do* _ := send (FConsent (wrap_signed cb_bytes (tk_me grp) sig)) Committer in
          st_ret (Ok tt)
      end
  end.

(** ** Dispatch

    The role-guarded arms of the receive loop for the frames above. *)
Definition dispatch (cs : nat -> nat -> coins) (c1 c2 : coins) (cu : nat -> coins) (from : bytes) (f : Frame)
  : ST GroupNode string unit :=
  do* n := st_get in
  match f, n_role n with
  | FKeyPackage b, RoleHost => handle_keypackage cu from b
  | FWelcome b, RoleMember => handle_welcome b
  | FCommit e b, RoleMember => handle_commit e b
  | FUpdateProposal b, RoleHost => handle_update_proposal cu from b
  | FRoster e entries sig, RoleMember => handle_roster e entries sig
  | FPromote payload, (RoleHost | RoleMember) => handle_promote from payload
  | FConsent payload, RoleHost => handle_consent cs c1 c2 cu payload
  | FPromoteCommit payload, RoleMember => handle_promote_commit payload
  | _, _ => st_ret tt
  end.
End Handlers.
