(* ===== verification/EngineProps.v ===== *)
(** * The group control plane: theorems

    Commit ordering, roster authentication, promotion and consent. *)

From S2P Require Import Prelude Wire Crypto Hybrid Ratchet TreeNode TreeCodec TreeKem TreeSecurity Marking Frames Engine.

Section CommitQueue.
Context {P : Primitives}.

(** ** Commits in epoch order *)

Lemma on_group_pending {A} (op : ST TreeKemGroup fault A) n : n_pending (on_group op n).2 = n_pending n.
Proof. unfold on_group. destruct (n_group n) as [g|]; [|done]. by destruct (op g) as [[a|[e|m]] g']. Qed.

Lemma not_stale_lookup cur (m : gmap Z bytes) k :
  not_stale cur m !! k = if decide (k >= cur) then m !! k else None.
Proof.
  unfold not_stale. rewrite map_lookup_filter. destruct (m !! k) as [b|]; cbn; [|by case_decide].
  by repeat case_match; repeat case_guard.
Qed.

Lemma size_live_le (m : gmap Z bytes) cur b :
  not_stale cur m !! cur = Some b -> (S (size (delete cur (not_stale cur m))) <= size m)%nat.
Proof.
  intros H. rewrite map_size_delete_Some by eauto.
  assert (size (not_stale cur m) <= size m)%nat by apply map_subseteq_size, map_filter_subseteq.
  assert (size (not_stale cur m) <> 0%nat); [|lia].
  intros E%map_size_empty_inv. by rewrite E, lookup_empty in H.
Qed.

(** A turn that goes on has consumed a pending commit. *)
Lemma commit_turn_size n n' : commit_turn n = (Ok true, n') -> (S (size (n_pending n')) <= size (n_pending n))%nat.
Proof.
  unfold commit_turn, st_bind, st_get, st_modify, st_ret. destruct (n_group n) as [g|]; [|by intros [=]].
  destruct (not_stale _ (n_pending n) !! tk_epoch g) as [b|] eqn:Eb; [|by intros [=]].
  destruct (commit_decode (tk_profile g) b) as [c|]; [|by intros [=]].
  pose proof (on_group_pending (apply_commit c) (with_pending (delete (tk_epoch g) (not_stale (tk_epoch g) (n_pending n))) n)) as Hp.
  destruct (on_group _ _) as [[[u|]|] n1]; try by intros [=]. intros [= <-]. cbn in Hp. rewrite Hp. by eapply size_live_le.
Qed.

Lemma commit_loop_fuel fuel n :
  (size (n_pending n) < fuel)%nat -> commit_loop fuel n = commit_loop (S (size (n_pending n))) n.
Proof.
  remember (size (n_pending n)) as k eqn:Ek. assert (size (n_pending n) <= k)%nat as Hk by lia. clear Ek.
  revert fuel n Hk. induction k as [|k IH]; intros [|fuel] n Hk Hf; try lia; cbn [commit_loop]; unfold st_bind.
  - destruct (commit_turn n) as [[[]|] n1] eqn:E; try done. apply commit_turn_size in E. lia.
  - destruct (commit_turn n) as [[[]|] n1] eqn:E; try done. apply commit_turn_size in E.
    rewrite (IH fuel) by lia. done.
Qed.

(** The loop without a budget: it ends after [k] turns, in a turn that says stop or
    in one that panics. *)
Inductive loop_ends : nat -> GroupNode -> result string unit * GroupNode -> Prop :=
| loop_stop n n' : commit_turn n = (Ok false, n') -> loop_ends 1 n (Ok tt, n')
| loop_panic n e n' : commit_turn n = (Err e, n') -> loop_ends 1 n (Err e, n')
| loop_more k n n1 r : commit_turn n = (Ok true, n1) -> loop_ends k n1 r -> loop_ends (S k) n r.

Lemma commit_loop_ends k n : (size (n_pending n) < k)%nat ->
  exists t, (t <= S (size (n_pending n)))%nat /\ loop_ends t n (commit_loop k n).
Proof.
  revert n. induction k as [|k IH]; intros n Hk; [lia|]. cbn [commit_loop]. unfold st_bind. destruct (commit_turn n) as [[[]|e] n1] eqn:E.
  - pose proof (commit_turn_size _ _ E). destruct (IH n1) as (t & Ht & Hl); [lia|]. exists (S t). split; [lia|]. by eapply loop_more.
  - exists 1%nat. split; [lia|]. by apply loop_stop.
  - exists 1%nat. split; [lia|]. by apply loop_panic.
Qed.

(** C40: the commit loop ends.  From every node state the loop of [handle_commit],
    taken without any budget, reaches a turn that ends it after at most one turn per
    buffered commit and one more, and what [handle_commit] returns and leaves is what
    the loop ends with; any larger budget gives the same. *)
Theorem handle_commit_terminates (n : GroupNode) (from_epoch : Z) (b : bytes) :
  let n1 := with_pending (<[from_epoch := b]> (n_pending n)) n in
  (exists turns, (turns <= S (size (n_pending n1)))%nat /\ loop_ends turns n1 (handle_commit from_epoch b n)) /\
  forall fuel, (size (n_pending n1) < fuel)%nat -> handle_commit from_epoch b n = commit_loop fuel n1.
Proof.
  intros n1. split; [|intros fuel Hf; by rewrite (commit_loop_fuel fuel n1 Hf)].
  apply (commit_loop_ends (S (size (n_pending n1))) n1). lia.
Qed.

(** [g'] is reached from [g] by applying the encoded commits in turn. *)
Inductive follows : TreeKemGroup -> list bytes -> TreeKemGroup -> Prop :=
| follows_nil g : follows g [] g
| follows_cons g b c g1 bs g2 :
    commit_decode (tk_profile g) b = Ok c -> apply_commit c g = (Ok tt, g1) ->
    follows g1 bs g2 -> follows g (b :: bs) g2.

Lemma apply_commit_epoch g c g' : apply_commit c g = (Ok tt, g') -> tk_epoch g' = u32_add (tk_epoch g) 1.
Proof.
  intros H. destruct (apply_commit_gate g c) as [(e & E & _)|[_ E]]; [congruence|].
  rewrite E in H. by eapply apply_verified_epoch.
Qed.

(** One turn with the next commit at hand applies it. *)
Lemma commit_turn_apply n g b c g1 :
  n_group n = Some g -> n_pending n !! tk_epoch g = Some b ->
  commit_decode (tk_profile g) b = Ok c -> apply_commit c g = (Ok tt, g1) ->
  commit_turn n =
    (Ok true, with_group (Some g1)
       (with_pending (delete (tk_epoch g) (not_stale (tk_epoch g) (n_pending n))) n)).
Proof.
  intros Hg Hp Hd Ha. unfold commit_turn, st_bind, st_get, st_modify, st_ret. rewrite Hg.
  rewrite not_stale_lookup, decide_True, Hp, Hd by lia. unfold on_group. cbn [n_group with_pending].
  by rewrite Hg, Ha.
Qed.

(** Without it, the turn ends the loop and only drops stale commits. *)
Lemma commit_turn_stop n g :
  n_group n = Some g -> n_pending n !! tk_epoch g = None ->
  commit_turn n = (Ok false, with_pending (not_stale (tk_epoch g) (n_pending n)) n).
Proof.
  intros Hg Hp. unfold commit_turn, st_bind, st_get, st_modify, st_ret. rewrite Hg.
  rewrite not_stale_lookup, decide_True, Hp by lia.
  by rewrite delete_id by (by rewrite not_stale_lookup, decide_True by lia).
Qed.

Lemma handle_commit_holds n g z b :
  n_group n = Some g -> z <> tk_epoch g -> n_pending n !! tk_epoch g = None ->
  handle_commit z b n = (Ok tt, with_pending (not_stale (tk_epoch g) (<[z := b]> (n_pending n))) n).
Proof.
  intros Hg Hz Hp. unfold handle_commit, st_bind at 1 2, st_modify, st_get. cbn [commit_loop]. unfold st_bind.
  rewrite (commit_turn_stop _ g); [done|done|]. cbn [n_pending with_pending]. by rewrite lookup_insert_ne.
Qed.

(** Undecodable bytes for the current epoch end the loop. *)
Lemma commit_turn_junk n g b :
  n_group n = Some g -> n_pending n !! tk_epoch g = Some b -> is_ok (commit_decode (tk_profile g) b) = false ->
  commit_turn n = (Ok false, with_pending (delete (tk_epoch g) (not_stale (tk_epoch g) (n_pending n))) n).
Proof.
  intros Hg Hp Hd. unfold commit_turn, st_bind, st_get, st_modify, st_ret. rewrite Hg.
  rewrite not_stale_lookup, decide_True, Hp by lia. by destruct (commit_decode (tk_profile g) b).
Qed.

(** The node has applied the first [f] commits of the chain [bs] that starts at
    epoch [e], and buffers those later ones whose position is in [D]. *)
Record catching_up (n : GroupNode) (e : Z) (bs : list bytes) (last : TreeKemGroup) (D : gset nat) (f : nat) : Prop := {
  cu_group : exists g, n_group n = Some g /\ tk_epoch g = e + Z.of_nat f /\ follows g (drop f bs) last;
  cu_pending i : (f <= i)%nat -> n_pending n !! (e + Z.of_nat i) = if decide (i ∈ D) then bs !! i else None }.

Lemma follows_epochs g bs last :
  follows g bs last -> 0 <= tk_epoch g -> tk_epoch g + zlen bs < 2 ^ 32 -> tk_epoch last = tk_epoch g + zlen bs.
Proof.
  induction 1 as [g|g b c g1 bs last Hd Ha _ IH]; intros H0 Hb; [unfold zlen; cbn; lia|].
  rewrite zlen_cons in *. pose proof (zlen_nonneg bs). apply apply_commit_epoch in Ha as E.
  unfold u32_add in E. rewrite u32_wrap_small in E by (unfold is_u32; lia). rewrite IH; lia.
Qed.

Lemma commit_loop_catches_up fuel n e bs last D f :
  (size (n_pending n) < fuel)%nat -> catching_up n e bs last D f ->
  (forall i, i ∈ D -> (i < length bs)%nat) -> 0 <= e -> e + zlen bs < 2 ^ 32 -> (f <= length bs)%nat ->
  exists n' f', commit_loop fuel n = (Ok tt, n') /\ catching_up n' e bs last D f' /\
    (f <= f' <= length bs)%nat /\ f' ∉ D /\ (forall i, (f <= i < f')%nat -> i ∈ D).
Proof.
  revert n f. induction fuel as [|fuel IH]; intros n f Hs [(g & Hg & He & Hf) Hp] HD H0 Hb Hl; [lia|].
  cbn [commit_loop]. unfold st_bind. pose proof (Hp f ltac:(lia)) as Hpf. rewrite <- He in Hpf.
  destruct (decide (f ∈ D)) as [Hin|Hin].
  - pose proof (HD f Hin) as Hlt. destruct (lookup_lt_is_Some_2 bs f Hlt) as [b Hbf]. rewrite Hbf in Hpf.
    rewrite (drop_S _ _ _ Hbf) in Hf. inversion Hf as [|? ? c g1 ? ? Hd Ha Hf' E1 E2]. subst.
    pose proof (commit_turn_apply n g b c g1 Hg Hpf Hd Ha) as Et. pose proof (commit_turn_size _ _ Et) as Hsz.
    rewrite Et. apply apply_commit_epoch in Ha as Ee.
    unfold u32_add in Ee. unfold zlen in Hb. rewrite u32_wrap_small in Ee by (unfold is_u32; lia).
    edestruct (IH (with_group (Some g1) (with_pending (delete (tk_epoch g) (not_stale (tk_epoch g) (n_pending n))) n)) (S f))
      as (n' & f' & E & Hc & Hff & Hnd & Hall); try done; try lia.
    { split; [exists g1; split; [done|]; split; [lia|done]|]. intros i Hi. cbn [n_pending with_group with_pending].
      rewrite lookup_delete_ne, not_stale_lookup, decide_True by lia. apply Hp. lia. }
    exists n', f'. split; [done|]. split; [done|]. split; [lia|]. split; [done|].
    intros i Hi. destruct (decide (i = f)) as [->|]; [done|]. apply Hall. lia.
  - rewrite (commit_turn_stop n g Hg Hpf). eexists _, f. split; [done|]. split; [|split; [lia|split; [done|lia]]].
    split; [by exists g|]. intros i Hi. cbn [n_pending with_pending]. rewrite not_stale_lookup, decide_True by lia. by apply Hp.
Qed.

Definition deliver_commits (l : list (Z * bytes)) : ST GroupNode string unit :=
  st_iter (fun x => handle_commit x.1 x.2) l.

Lemma deliver_catches_up e bs last order n D f :
  catching_up n e bs last D f -> (forall i, i ∈ D -> (i < length bs)%nat) -> 0 <= e -> e + zlen bs < 2 ^ 32 ->
  (f <= length bs)%nat -> f ∉ D -> (forall i, (i < f)%nat -> i ∈ D) -> Forall (fun i => i < length bs)%nat order ->
  exists n' f', deliver_commits ((fun i => (e + Z.of_nat i, bs !!! i)) <$> order) n = (Ok tt, n') /\
    catching_up n' e bs last (D ∪ list_to_set order) f' /\ (f' <= length bs)%nat /\ f' ∉ D ∪ list_to_set order.
Proof.
  intros Hc HD H0 Hb. revert n D f Hc HD. induction order as [|i order IH]; intros n D f Hc HD Hf Hnf Hall Ho.
  { exists n, f. cbn. rewrite union_empty_r_L. done. }
  apply Forall_cons in Ho as [Hi Ho]. unfold deliver_commits. cbn [fmap list_fmap st_iter]. unfold st_bind at 1.
  set (n1 := with_pending (<[e + Z.of_nat i := bs !!! i]> (n_pending n)) n).
  destruct (commit_loop_catches_up (S (size (n_pending n1))) n1 e bs last ({[i]} ∪ D) f) as (n2 & f2 & E & Hc2 & Hf2 & Hnd2 & Hall2);
    try done; try lia.
  { destruct Hc as [Hg Hp]. split; [done|]. intros j Hj. cbn [n1 n_pending with_pending].
    destruct (decide (j = i)) as [->|Hne].
    - rewrite lookup_insert_eq, decide_True by set_solver. symmetry. by apply list_lookup_lookup_total_lt.
    - rewrite lookup_insert_ne, Hp by lia. apply decide_ext. set_solver. }
  { set_solver. }
  cbn [fst snd]. assert (handle_commit (e + Z.of_nat i) (bs !!! i) n = (Ok tt, n2)) as ->.
  { unfold handle_commit, st_bind, st_modify, st_get. exact E. }
  destruct (IH n2 ({[i]} ∪ D) f2 Hc2) as (n' & f' & E' & Hc' & Hf' & Hnd'); try done; try lia.
  { set_solver. }
  { intros j Hj. destruct (decide (j < f)%nat); [set_solver|]. apply Hall2. lia. }
  exists n', f'. split; [exact E'|]. cbn [list_to_set]. by replace (D ∪ ({[i]} ∪ list_to_set order)) with ({[i]} ∪ D ∪ list_to_set order) by set_solver.
Qed.

(** C22: a member catches up whatever the order of delivery.  Take any chain of
    commits the member would accept one after the other.  If they arrive in any
    order, each any number of times, the member ends in the state that applying
    them in epoch order gives: early ones are buffered, late ones are dropped as
    stale, and none is applied twice. *)
Theorem commits_any_order (n : GroupNode) (g last : TreeKemGroup) (bs : list bytes) (order : list nat) :
  n_group n = Some g -> n_pending n = ∅ -> follows g bs last ->
  0 <= tk_epoch g -> tk_epoch g + zlen bs < 2 ^ 32 ->
  Forall (fun i => i < length bs)%nat order -> (forall i, (i < length bs)%nat -> i ∈ order) ->
  exists n', deliver_commits ((fun i => (tk_epoch g + Z.of_nat i, bs !!! i)) <$> order) n = (Ok tt, n') /\
    n_group n' = Some last.
Proof.
  intros Hg Hp Hf H0 Hb Ho Hall.
  destruct (deliver_catches_up (tk_epoch g) bs last order n ∅ 0) as (n' & f' & E & [(g' & Hg' & _ & Hfl) _] & Hle & Hnd);
    try done; try lia; try set_solver.
  { split; [exists g; split; [done|]; split; [lia|done]|]. intros i _. rewrite Hp, lookup_empty, decide_False by set_solver. done. }
  exists n'. split; [done|]. assert (f' = length bs) as ->.
  { destruct (decide (f' = length bs)); [done|]. destruct Hnd. apply elem_of_union_r, elem_of_list_to_set, Hall. lia. }
  rewrite drop_all in Hfl. by inversion Hfl; subst.
Qed.

(** The epoch tag of a commit frame is not authenticated, and a buffered
    commit is replaced by any later frame with the same tag.  A peer that sends
    undecodable bytes for the next epoch makes the member lose an honest commit
    it had buffered: it stops one epoch short, the commit is gone, and the chain
    it holds does not lead on. *)
Lemma forged_commit_displaces (n : GroupNode) (g g1 : TreeKemGroup) (b0 b1 junk : bytes) :
  n_group n = Some g -> n_pending n = ∅ -> 0 <= tk_epoch g -> tk_epoch g + 2 < 2 ^ 32 ->
  follows g [b0] g1 -> is_ok (commit_decode (tk_profile g1) junk) = false ->
  let e := tk_epoch g in
  exists n', deliver_commits [(e + 1, b1); (e + 1, junk); (e, b0)] n = (Ok tt, n') /\
     n_group n' = Some g1 /\ n_pending n' = ∅.
Proof.
  intros Hg Hp H0 Hb Hf0 Hj e. subst e.
  inversion Hf0 as [|? ? c0 g1' ? ? Hd0 Ha0 Hn0]. subst. inversion Hn0. subst. clear Hn0 Hf0.
  apply apply_commit_epoch in Ha0 as He. unfold u32_add in He. rewrite u32_wrap_small in He by (unfold is_u32; lia).
  unfold deliver_commits. cbn [st_iter fst snd]. unfold st_bind, st_ret.
  rewrite (handle_commit_holds n g) by (done || lia || by rewrite Hp, lookup_empty).
  rewrite (handle_commit_holds _ g); [|done|lia|].
  2:{ cbn [n_pending with_pending]. by rewrite not_stale_lookup, lookup_insert_ne, Hp, lookup_empty, decide_True by lia. }
  cbn [n_pending with_pending]. unfold handle_commit, st_bind, st_modify, st_get. cbn [n_pending with_pending].
  set (m := <[tk_epoch g:=b0]> _). set (n1 := with_pending m _).
  change m with (n_pending n1) at 1. rewrite <- (commit_loop_fuel (S (S (size (n_pending n1)))) n1) by lia.
  cbn [commit_loop]. unfold st_bind.
  rewrite (commit_turn_apply n1 g b0 c0 g1); [|done|apply lookup_insert_eq|done|done].
  rewrite (commit_turn_junk _ g1 junk); [|done| |done].
  - eexists. split; [done|]. split; [done|]. cbn [n_pending with_pending with_group]. apply map_eq. intros z.
    rewrite lookup_empty. destruct (decide (z = tk_epoch g1)) as [->|Hz]; [apply lookup_delete_eq|].
    rewrite lookup_delete_ne, not_stale_lookup by done. case_decide; [|done].
    rewrite lookup_delete_ne, not_stale_lookup by lia. case_decide; [|done]. cbn [n1 n_pending with_pending]. unfold m.
    rewrite lookup_insert_ne, not_stale_lookup by lia. case_decide; [|done].
    rewrite lookup_insert_ne, not_stale_lookup by lia. case_decide; [|done].
    by rewrite lookup_insert_ne, Hp, lookup_empty by lia.
  - cbn [n_pending with_pending with_group n1]. unfold m.
    rewrite lookup_delete_ne, not_stale_lookup, decide_True, lookup_insert_ne, not_stale_lookup, decide_True by lia.
    rewrite He. apply lookup_insert_eq.
Qed.
End CommitQueue.

(** ** Promotion and consent bodies *)

Definition is_u8 (z : Z) : Prop := 0 <= z < 256.

Record promote_ok (p : PromoteBody) : Prop := {
  po_tier : is_u8 (pb_target_tier p);
  po_mode : is_u8 (pb_retention_mode p);
  po_rule : is_u8 (pb_consent_rule p);
  po_picked : list_ok MAX_PICKED (fun fp => length fp = 48%nat) (pb_picked p);
  po_onion : small_blob (pb_onion p);
  po_secs : is_u64 (pb_carry_from_secs p);
  po_epoch : is_u32 (pb_epoch p) }.

Definition enc_promote (p : PromoteBody) : bytes :=
  [byte_of (pb_target_tier p)] ++ [byte_of (pb_retention_mode p)] ++ [byte_of (pb_consent_rule p)] ++
  enc_list enc_bytes (pb_picked p) ++ enc_bytes (pb_onion p) ++ be_bytes 8 (pb_carry_from_secs p) ++
  be_bytes 4 (pb_epoch p).

Lemma promote_encode_norm p : promote_encode p = enc_promote p.
Proof.
  unfold promote_encode, enc_promote. rewrite !into_vec_put_u32, into_vec_put_u64, into_vec_put_bytes.
  rewrite (into_vec_put_list put_bytes enc_bytes) by (intros; apply into_vec_put_bytes). by wire_norm.
Qed.

Lemma decodes_promote p : promote_ok p -> decodes promote_read (enc_promote p) p.
Proof.
  intros [H1 H2 H3 H4 H5 H6 H7]. unfold promote_read, enc_promote, is_u8, small_blob in *.
  do 3 (eapply decodes_bind; [by apply decodes_q, decodes_u8|]).
  eapply decodes_bind.
  { eapply decodes_capped; [done| |exact H4]. intros x Hx. apply decodes_fixed; [done|lia]. }
  eapply decodes_bind; [by apply decodes_q, decodes_vec|]. eapply decodes_bind; [by apply decodes_q, decodes_u64|].
  rewrite <- (app_nil_r (be_bytes 4 _)). eapply decodes_bind; [by apply decodes_q, decodes_u32|].
  destruct p. apply decodes_ret.
Qed.

Lemma inverts_promote : inverts promote_read enc_promote promote_ok.
Proof.
  intros r x r' Hw H. unfold promote_read, gbind, gret in H.
  apply rbind_Ok in H as ([a r1] & H1%inverts_q & H). apply rbind_Ok in H as ([b r2] & H2%inverts_q & H).
  apply rbind_Ok in H as ([c r3] & H3%inverts_q & H). apply rbind_Ok in H as ([pk r4] & H4 & H).
  apply rbind_Ok in H as ([on r5] & H5%inverts_q & H). apply rbind_Ok in H as ([cf r6] & H6%inverts_q & H).
  apply rbind_Ok in H as ([ep r7] & H7%inverts_q & [= <- <-]).
  destruct (inverts_u8 _ _ _ Hw H1) as (W1 & E1 & O1). destruct (inverts_u8 _ _ _ W1 H2) as (W2 & E2 & O2).
  destruct (inverts_u8 _ _ _ W2 H3) as (W3 & E3 & O3).
  destruct (inverts_capped MAX_PICKED _ _ _ (inverts_fixed 48) _ _ _ W3 H4) as (W4 & E4 & O4).
  destruct (inverts_bytes _ _ _ W4 H5) as (W5 & E5 & O5). destruct (inverts_u64 _ _ _ W5 H6) as (W6 & E6 & O6).
  destruct (inverts_u32 _ _ _ W6 H7) as (W7 & E7 & O7). split; [done|]. split; [|done].
  unfold enc_promote. cbn. rewrite E1, E2, E3, E4, E5, E6, E7. cbn. by rewrite <- !(assoc (++)).
Qed.

Lemma promote_decode_exact b p :
  zlen b <= usize_max ->
  (promote_decode b = Some p <-> promote_ok p /\ utf8_valid (pb_onion p) = true /\ b = promote_encode p).
Proof.
  intros Hb. unfold promote_decode. rewrite promote_encode_norm.
  pose proof (strict_exact promote_read enc_promote promote_ok b) as Hx.
  split.
  - intros (x & Hf & H)%bind_Some. destruct (utf8_valid (pb_onion x)) eqn:Eu; [|done]. injection H as <-.
    apply (Hx x Hb decodes_promote inverts_promote) in Hf as [? ?]. done.
  - intros (Hok & Hu & E). apply bind_Some. exists p. rewrite Hu. split; [|done].
    by apply (Hx p Hb decodes_promote inverts_promote).
Qed.

Definition signed_ok (x : bytes * Z * bytes) : Prop := small_blob x.1.1 /\ is_u32 x.1.2 /\ small_blob x.2.
Definition enc_signed (x : bytes * Z * bytes) : bytes := enc_bytes x.1.1 ++ be_bytes 4 x.1.2 ++ enc_bytes x.2.

Lemma decodes_signed x : signed_ok x -> decodes signed_read (enc_signed x) x.
Proof.
  destruct x as [[b l] s]. intros (H1 & H2 & H3). unfold signed_read, enc_signed, small_blob in *. cbn in *.
  eapply decodes_bind; [by apply decodes_q, decodes_vec|]. eapply decodes_bind; [by apply decodes_q, decodes_u32|].
  rewrite <- (app_nil_r (enc_bytes s)). eapply decodes_bind; [by apply decodes_q, decodes_vec|apply decodes_ret].
Qed.

Lemma unwrap_wrap body l sig :
  small_blob body -> is_u32 l -> small_blob sig -> unwrap_signed (wrap_signed body l sig) = Some (body, l, sig).
Proof.
  intros H1 H2 H3. assert (wrap_signed body l sig = enc_signed (body, l, sig)) as E
    by (unfold wrap_signed, enc_signed; by wire_norm).
  unfold unwrap_signed. rewrite to_option_Some, E. apply run_decodes_all.
  - unfold enc_signed. cbn. rewrite !zlen_app, !zlen_enc_bytes, zlen_be_bytes.
    unfold small_blob, MAX_FRAME, usize_max in *. lia.
  - rewrite <- (app_nil_r (enc_signed _)). eapply decodes_all_bind; [by apply decodes_signed|apply decodes_all_finish].
Qed.

Definition enc_consent (c : ConsentBody) : bytes :=
  enc_bytes (cb_promote_id c) ++ [byte_of (bool_u8 (cb_accept c))] ++ be_bytes 4 (cb_leaf c) ++ be_bytes 4 (cb_epoch c).

Lemma consent_decode_encode c :
  length (cb_promote_id c) = 32%nat -> is_u32 (cb_leaf c) -> is_u32 (cb_epoch c) ->
  consent_decode (consent_encode c) = Some c /\ zlen (consent_encode c) = 45.
Proof.
  intros H1 H2 H3. assert (consent_encode c = enc_consent c) as -> by (unfold consent_encode, enc_consent; by wire_norm).
  assert (zlen (enc_consent c) = 45) as Hz.
  { unfold enc_consent. rewrite !zlen_app, zlen_enc_bytes, !zlen_be_bytes. unfold zlen. rewrite H1. cbn. lia. }
  split; [|done]. unfold consent_decode. rewrite to_option_Some. apply run_decodes_all; [rewrite Hz; by vm_compute|].
  rewrite <- (app_nil_r (enc_consent _)). eapply decodes_all_bind; [|apply decodes_all_finish].
  unfold consent_read, enc_consent. eapply decodes_bind; [apply decodes_fixed; [done|lia]|].
  eapply decodes_bind; [apply decodes_q, decodes_u8; by destruct (cb_accept c)|].
  eapply decodes_bind; [by apply decodes_q, decodes_u32|].
  rewrite <- (app_nil_r (be_bytes 4 (cb_epoch c))). eapply decodes_bind; [by apply decodes_q, decodes_u32|].
  destruct c as [i [] l e]; apply decodes_ret.
Qed.

(** Promotion proposals have one wire form: the decoder accepts exactly the
    encodings of well-formed bodies (capped list of 48-byte fingerprints, valid
    UTF-8), so equal bytes, and with them equal proposal ids, are equal
    proposals. *)
Lemma promote_body_exact (b : bytes) (p : PromoteBody) :
  zlen b <= usize_max ->
  (promote_decode b = Some p <-> promote_ok p /\ utf8_valid (pb_onion p) = true /\ b = promote_encode p).
Proof. apply promote_decode_exact. Qed.

(** ** Who decides a promotion *)

(** The roster members a proposal asks: those it picks, less the host. *)
Definition asked (s : PromoteState) (roster : gmap Z bytes) (me : bytes) (l : Z) (fp : bytes) : Prop :=
  roster !! l = Some fp /\ fp ∈ pb_picked (ps_body s) /\ fp <> me.

Lemma in_picked (s : PromoteState) (roster : gmap Z bytes) me (x : Z * bytes) :
  x ∈ filter (fun x : Z * bytes => x.2 ∈ pb_picked (ps_body s) /\ x.2 <> me) (map_to_list roster) <->
  asked s roster me x.1 x.2.
Proof. destruct x as [l fp]. rewrite list_elem_of_filter, elem_of_map_to_list. unfold asked. cbn. naive_solver. Qed.

Lemma picked_fps (s : PromoteState) (roster : gmap Z bytes) me (Q : Z * bytes -> Prop) `{!forall x, Decision (Q x)} fp :
  fp ∈ (filter Q (filter (fun x : Z * bytes => x.2 ∈ pb_picked (ps_body s) /\ x.2 <> me) (map_to_list roster))).*2 <->
  exists l, asked s roster me l fp /\ Q (l, fp).
Proof.
  rewrite list_elem_of_fmap. split.
  - intros ([l fp'] & -> & [Hq Hx]%list_elem_of_filter). exists l. by apply in_picked in Hx.
  - intros (l & Ha & Hq). exists (l, fp). split; [done|]. apply list_elem_of_filter. split; [done|]. by apply in_picked.
Qed.

(** [iter().any] and [iter().all] over the asked members. *)
Lemma any_asked (s : PromoteState) (roster : gmap Z bytes) me (Q : Z * bytes -> Prop) `{!forall x, Decision (Q x)} :
  existsb (fun x => bool_decide (Q x))
    (filter (fun x : Z * bytes => x.2 ∈ pb_picked (ps_body s) /\ x.2 <> me) (map_to_list roster)) = true <->
  exists l fp, asked s roster me l fp /\ Q (l, fp).
Proof.
  rewrite existsb_exists. split.
  - intros ([l fp] & Hx%list_elem_of_In%in_picked & Hq%bool_decide_eq_true). by exists l, fp.
  - intros (l & fp & Ha & Hq). exists (l, fp). split; [by apply list_elem_of_In, in_picked|by apply bool_decide_eq_true].
Qed.

Lemma all_asked (s : PromoteState) (roster : gmap Z bytes) me (Q : Z * bytes -> Prop) `{!forall x, Decision (Q x)} :
  forallb (fun x => bool_decide (Q x))
    (filter (fun x : Z * bytes => x.2 ∈ pb_picked (ps_body s) /\ x.2 <> me) (map_to_list roster)) = true <->
  forall l fp, asked s roster me l fp -> Q (l, fp).
Proof.
  rewrite forallb_forall. split.
  - intros Hq l fp Ha. apply (bool_decide_eq_true (Q (l, fp))), Hq. by apply list_elem_of_In, in_picked.
  - intros Hq [l fp] Hx%list_elem_of_In%in_picked. by apply bool_decide_eq_true, Hq.
Qed.

Lemma unanimous_decision s roster me :
  pb_consent_rule (ps_body s) = 0 ->
  (promotion_decision s roster me = PAbort <->
     exists l fp, asked s roster me l fp /\ ps_consents s !! l = Some false) /\
  (forall carried, promotion_decision s roster me = PCommit carried ->
     (forall l fp, asked s roster me l fp -> ps_consents s !! l = Some true) /\
     (forall fp, fp ∈ carried <-> fp = me \/ exists l, asked s roster me l fp)).
Proof.
  intros Hr. unfold promotion_decision. rewrite decide_True by done.
  pose proof (any_asked s roster me (fun x => ps_consents s !! x.1 = Some false)) as Hex.
  pose proof (all_asked s roster me (fun x => ps_consents s !! x.1 = Some true)) as Hall. cbn beta zeta.
  destruct (existsb _ _); [split; [split; [intros _; by apply Hex|done]|done]|].
  split; [split; [by destruct (forallb _ _)|intros H; by apply Hex in H]|].
  intros carried. destruct (forallb _ _); [|done]. intros [= <-]. split; [by apply Hall|].
  intros fp. rewrite elem_of_cons, list_elem_of_fmap. f_equiv. split.
  - intros ([l fp'] & -> & Hx). exists l. by apply in_picked in Hx.
  - intros (l & Ha). exists (l, fp). split; [done|]. by apply in_picked.
Qed.

Lemma opt_in_decision s roster me :
  pb_consent_rule (ps_body s) = 1 ->
  promotion_decision s roster me <> PAbort /\
  (forall carried, promotion_decision s roster me = PCommit carried ->
     (forall l fp, asked s roster me l fp -> is_Some (ps_consents s !! l)) /\
     (forall fp, fp ∈ carried <-> fp = me \/ exists l, asked s roster me l fp /\ ps_consents s !! l = Some true)).
Proof.
  intros Hr. unfold promotion_decision. rewrite decide_False, decide_True by lia.
  pose proof (all_asked s roster me (fun x => is_Some (ps_consents s !! x.1))) as Hall. cbn beta zeta.
  destruct (forallb _ _); [|done]. split; [done|]. intros carried [= <-]. split; [by apply Hall|].
  intros fp. rewrite elem_of_cons, (picked_fps s roster me). done.
Qed.

(** A promotion is decided by the members it asks.  Under the unanimous
    rule it commits only when every asked member has consented, carrying all of
    them, and aborts exactly when one has declined; under the opt-in rule it
    commits only when every asked member has answered, and carries, besides the
    host, exactly those who accepted; no other rule decides by tally. *)
Lemma promotion_needs_consent (s : PromoteState) (roster : gmap Z bytes) (me : bytes) :
  let d := promotion_decision s roster me in
  (pb_consent_rule (ps_body s) = 0 ->
     (d = PAbort <-> exists l fp, asked s roster me l fp /\ ps_consents s !! l = Some false) /\
     (forall carried, d = PCommit carried ->
        (forall l fp, asked s roster me l fp -> ps_consents s !! l = Some true) /\
        (forall fp, fp ∈ carried <-> fp = me \/ exists l, asked s roster me l fp))) /\
  (pb_consent_rule (ps_body s) = 1 -> d <> PAbort /\
     (forall carried, d = PCommit carried ->
        (forall l fp, asked s roster me l fp -> is_Some (ps_consents s !! l)) /\
        (forall fp, fp ∈ carried <-> fp = me \/ exists l, asked s roster me l fp /\ ps_consents s !! l = Some true))) /\
  (pb_consent_rule (ps_body s) ∉ [0; 1] -> d = PWait).
Proof.
  split; [apply unanimous_decision|]. split; [apply opt_in_decision|]. intros Hn. unfold promotion_decision.
  rewrite !decide_False by (intros E; apply Hn; rewrite E; set_solver). done.
Qed.
Section Handling.
Context {P : Primitives} {POk : PrimitivesOk P} (sha256 : bytes -> bytes).

Lemma small_sig sk m : small_blob (id_sign sk m).
Proof. unfold small_blob, zlen. rewrite id_sign_len. pose proof mldsa_lens. unfold MAX_FRAME. lia. Qed.

(** A signature made with the key bound to leaf [l] verifies for that leaf. *)
Lemma verify_body_sign t g l kp body :
  tk_leaf_sig_keys g !! l = Some (id_public (id_from_secret_bytes kp)) ->
  verify_body t g l body (id_sign (id_from_secret_bytes kp) (t (tk_epoch g) l body)) = true.
Proof. intros Hk. unfold verify_body. rewrite Hk. by rewrite id_verify_sign. Qed.

(** ** Retention *)

(** Nothing is kept without consent.  A promotion announcement changes a
    member's sealed history, its backlog or its persistence only when the member
    had accepted exactly that proposal and the announcement carries a valid
    signature of a leaf of the group for the current epoch; then the history
    grows by backlog records only, and by none under the fresh (or an unknown)
    retention mode. *)
Lemma retention_needs_consent (n n' : GroupNode) (payload : bytes) :
  handle_promote_commit sha256 payload n = (Ok tt, n') ->
  (n_history n' = n_history n /\ n_backlog n' = n_backlog n /\ n_persistent n' = n_persistent n) \/
  exists s g l sig, n_promote n = Some s /\ ps_my_response s = Some true /\ n_group n = Some g /\
    verify_promo_commit g l (promote_id sha256 (ps_body s)) sig = true /\
    (forall gid r, n_history n' !! gid = Some r ->
       n_history n !! gid = Some r \/
       exists e, e ∈ n_backlog n /\ be_gid e = gid /\ be_record e = r /\
         retention_from_u8 (pb_retention_mode (ps_body s)) <> Some Fresh /\
         is_Some (retention_from_u8 (pb_retention_mode (ps_body s)))).
Proof.
  unfold handle_promote_commit, st_bind at 1, st_get at 1. unfold st_ret at 1.
  destruct (unwrap_signed payload) as [[[body l] sig]|]; [|intros [= <-]; by left].
  destruct (n_group n) as [g|] eqn:Eg; [|intros [= <-]; by left].
  destruct (verify_promo_commit g l body sig) eqn:Ev; [|intros [= <-]; by left].
  case_bool_decide as Hl; [intros [= <-]; by left|]. cbn [negb orb].
  destruct (n_promote n) as [s|] eqn:Es; [|intros [= <-]; by left].
  case_decide as Hd; [|intros [= <-]; by left]. destruct Hd as [<- Hresp].
  unfold st_bind, st_modify, apply_retention, set_persistence, emit, st_modify. cbn. intros [= <-]. right.
  exists s, g, l, sig. split; [done|]. split; [done|]. split; [done|]. split; [done|]. cbn.
  assert (forall es (h : gmap bytes bytes) gid r, foldl (fun h e => <[be_gid e := be_record e]> h) h es !! gid = Some r ->
    h !! gid = Some r \/ exists e, e ∈ es /\ be_gid e = gid /\ be_record e = r) as Hf.
  { induction es as [|e es IH]; intros h gid r H; [by left|]. cbn in H. apply IH in H as [H|(e' & ? & ?)]; [|set_solver].
    apply lookup_insert_Some in H as [[<- <-]|[_ H]]; [|by left]. right. exists e. set_solver. }
  intros gid r [H|(e & [Hs He]%list_elem_of_filter & ? & ?)]%Hf; [by left|]. right. exists e.
  split; [done|]. split; [done|]. split; [done|].
  destruct (retention_from_u8 (pb_retention_mode (ps_body s))) as [[]|]; done.
Qed.

(** The announcement need not come from the host.  Any leaf of the group can
    sign one; a member that had merely accepted a still undecided proposal then
    seals its backlog and turns persistent. *)
Lemma any_leaf_can_finalise (n : GroupNode) (g : TreeKemGroup) (s : PromoteState) (l : Z) (kp : bytes) :
  (forall b, length (sha256 b) = 32%nat) -> n_group n = Some g -> n_promote n = Some s ->
  ps_my_response s = Some true -> is_u32 l ->
  tk_leaf_sig_keys g !! l = Some (id_public (id_from_secret_bytes kp)) ->
  let id := promote_id sha256 (ps_body s) in
  let payload := wrap_signed id l (id_sign (id_from_secret_bytes kp) (promo_commit_transcript (tk_epoch g) l id)) in
  exists n', handle_promote_commit sha256 payload n = (Ok tt, n') /\
    n_persistent n' = true /\ n_promote n' = None /\ n_events n' = n_events n ++ [EPromoted id].
Proof.
  intros Hsha Hg Hs Hr Hl Hk id payload. assert (length id = 32%nat) as Hid by apply Hsha.
  unfold handle_promote_commit, st_bind at 1, st_get at 1. unfold payload.
  rewrite unwrap_wrap; [|unfold small_blob, zlen, MAX_FRAME; lia|done|apply small_sig].
  rewrite Hg. unfold verify_promo_commit. rewrite verify_body_sign by done.
  rewrite bool_decide_eq_false_2 by lia. cbn [negb orb]. rewrite Hs, decide_True by done.
  unfold st_bind, st_modify, apply_retention, set_persistence, emit, st_modify. cbn. eexists. split; [done|]. done.
Qed.

(** ** Hijacking a promotion *)

(** A proposal that asks nobody. *)
Definition empty_proposal (epoch : Z) : PromoteBody := mkPromoteBody 0 0 1 [] [] 0 epoch.

Lemma empty_proposal_ok epoch : is_u32 epoch -> promote_ok (empty_proposal epoch).
Proof. intros. split; cbn; try (unfold is_u8, is_u64; lia); done. Qed.

Lemma empty_proposal_len epoch : zlen (promote_encode (empty_proposal epoch)) <= 64.
Proof.
  rewrite promote_encode_norm. unfold enc_promote. rewrite !zlen_app, zlen_enc_bytes, !zlen_be_bytes.
  unfold enc_list. rewrite zlen_app, zlen_be_bytes. unfold zlen. cbn. lia.
Qed.

(** Any member can make the host evict everyone.  The host records a
    proposal from any leaf in place of whatever it was coordinating, and tallies
    consents from any leaf.  A member that sends a signed proposal picking
    nobody, and then its own consent to it, makes the host carry out a promotion
    that keeps only the host: every other roster member is removed. *)
Lemma member_hijacks_promotion (n : GroupNode) (g : TreeKemGroup) (l : Z) (kp from : bytes)
    (cs : nat -> nat -> coins) (c1 c2 : coins) (cu : nat -> coins) :
  (forall b, length (sha256 b) = 32%nat) -> n_role n = RoleHost -> n_group n = Some g ->
  is_u32 l -> is_u32 (tk_epoch g) ->
  tk_leaf_sig_keys g !! l = Some (id_public (id_from_secret_bytes kp)) ->
  let sk := id_from_secret_bytes kp in
  let body := promote_encode (empty_proposal (tk_epoch g)) in
  let id := promote_id sha256 (empty_proposal (tk_epoch g)) in
  let consent := consent_encode (mkConsentBody id true l (tk_epoch g)) in
  let n1 := (dispatch sha256 cs c1 c2 cu from
    (FPromote (wrap_signed body l (id_sign sk (promote_transcript (tk_epoch g) l body)))) n).2 in
  exists n2, dispatch sha256 cs c1 c2 cu from
      (FConsent (wrap_signed consent l (id_sign sk (consent_transcript (tk_epoch g) l consent)))) n1 =
    commit_promotion cs c1 c2 cu id [n_me n] n2 /\ n_roster n2 = n_roster n /\ n_group n2 = Some g.
Proof.
  intros Hsha Hrole Hg Hl He Hk sk body id consent n1. subst sk.
  pose proof (empty_proposal_len (tk_epoch g)) as Hbl. fold body in Hbl.
  assert (n1 = with_events (n_events n ++ [EPromoteProposed from id 0 0 []])
    (with_promote (Some (mkPromoteState (empty_proposal (tk_epoch g)) ∅ None)) n)) as ->.
  { unfold n1, dispatch, st_bind at 1, st_get at 1. rewrite Hrole. unfold handle_promote, st_bind at 1, st_get at 1.
    rewrite unwrap_wrap; [|unfold small_blob, MAX_FRAME; lia|done|apply small_sig].
    rewrite Hg. unfold verify_promote. rewrite (verify_body_sign promote_transcript g l kp body Hk).
    rewrite (proj2 (promote_decode_exact body (empty_proposal (tk_epoch g)) ltac:(unfold usize_max; lia)));
      [|split; [by apply empty_proposal_ok|done]].
    rewrite bool_decide_eq_true_2 by done. done. }
  destruct (consent_decode_encode (mkConsentBody id true l (tk_epoch g))) as [Hdec Hlen]; [apply Hsha|done|done|].
  unfold dispatch, st_bind at 1, st_get at 1. cbn [n_role with_events with_promote]. rewrite Hrole.
  unfold handle_consent, st_bind at 1, tally_consent, st_bind at 1, st_get at 1.
  rewrite unwrap_wrap; [|unfold small_blob, MAX_FRAME; unfold consent; lia|done|apply small_sig].
  cbn [n_group with_events with_promote]. rewrite Hg. unfold verify_consent. rewrite (verify_body_sign consent_transcript g l kp consent Hk). cbn [negb].
  unfold consent. rewrite Hdec. cbn [cb_leaf cb_epoch cb_promote_id cb_accept n_promote with_events with_promote].
  rewrite decide_False by naive_solver. rewrite decide_False by (cbn; naive_solver).
  unfold st_bind, st_modify, st_ret, st_get, promotion_decision. cbn [ps_body pb_consent_rule empty_proposal pb_picked].
  rewrite decide_False, decide_True by done. set (pm := filter _ (map_to_list (n_roster _))).
  assert (pm = []) as ->.
  { destruct pm as [|x pm'] eqn:E; [done|]. assert (x ∈ pm) as Hx by (rewrite E; set_solver).
    unfold pm in Hx. apply list_elem_of_filter in Hx as [[Hx _] _]. cbn in Hx. by apply elem_of_nil in Hx. }
  cbn [forallb]. eexists. split; [cbn [n_promote with_promote fmap option_fmap option_map ps_body]; reflexivity|].
  split; [done|exact Hg].
Qed.
End Handling.
