(* ===== verification/EngineRoster.v ===== *)
(** * Membership at the nodes: theorems

    What an arbitrary stream of frames can do to a member's view of the group:
    its roster, its way in, and what is left of a peer the host has removed. *)

From S2P Require Import Prelude Wire Crypto Hybrid Ratchet TreeNode TreeCodec TreeKem Marking Frames Engine.

(** ** Operations that leave a part of the node alone *)

Section Keeps.
Context {V : Type} (view : GroupNode -> V).

Definition spares {A} (op : ST GroupNode string A) : Prop := forall n, view (op n).2 = view n.

Lemma spares_ret {A} (a : A) : spares (st_ret a).
Proof. done. Qed.
Lemma spares_err {A} e : spares (A:=A) (st_err e).
Proof. done. Qed.
Lemma spares_get {A} (k : GroupNode -> ST GroupNode string A) : (forall m, spares (k m)) -> spares (st_bind st_get k).
Proof. intros H n. apply H. Qed.
Lemma spares_modify f : (forall n, view (f n) = view n) -> spares (st_modify f).
Proof. intros H n. apply H. Qed.
Lemma spares_bind {A B} (m : ST GroupNode string A) (k : A -> ST GroupNode string B) :
  spares m -> (forall a, spares (k a)) -> spares (st_bind m k).
Proof.
  intros Hm Hk n. unfold st_bind. specialize (Hm n). destruct (m n) as [[a|e] n1]; cbn in *; [|done].
  by rewrite Hk, Hm.
Qed.
Lemma spares_on_group {A} `{P : Primitives} (op : ST TreeKemGroup fault A) :
  (forall g n, view (with_group g n) = view n) -> spares (on_group op).
Proof.
  intros Hv n. unfold on_group. destruct (n_group n) as [g|]; [|done]. destruct (op g) as [[a|[e|m]] g']; apply Hv.
Qed.
End Keeps.

(** Decompose an operation down to its field updates. *)
Ltac spares_step :=
  match goal with
  | |- spares _ (st_bind st_get _) => apply spares_get; intros ?
  | |- spares _ (st_bind _ _) => apply spares_bind; [|intros ?]
  | |- spares _ (st_ret _) => apply spares_ret
  | |- spares _ (st_err _) => apply spares_err
  | |- spares _ (st_modify _) => apply spares_modify; intros ?
  | |- spares _ (emit _) => unfold emit
  | |- spares _ (send _ _) => unfold send
  | |- spares _ (on_group _) => apply (spares_on_group _); intros ??
  | |- spares _ (match ?x with _ => _ end) => destruct x
  | |- spares _ (let _ := _ in _) => cbv zeta
  | |- _ = _ => repeat case_match; done
  end.
Ltac spares := repeat spares_step.

Section Roster.
Context {P : Primitives} (sha256 : bytes -> bytes).

Definition roster_view (n : GroupNode) : GroupRole * gmap Z bytes * Z := (n_role n, n_roster n, n_last_roster_epoch n).

Lemma commit_turn_spares : spares roster_view commit_turn.
Proof. unfold commit_turn. spares. Qed.

Lemma commit_loop_spares fuel : spares roster_view (commit_loop fuel).
Proof.
  induction fuel as [|fuel IH]; cbn [commit_loop]; [apply spares_err|].
  apply spares_bind; [apply commit_turn_spares|]. intros []; [done|apply spares_ret].
Qed.

Lemma handle_commit_spares e b : spares roster_view (handle_commit e b).
Proof. unfold handle_commit. spares. apply commit_loop_spares. Qed.

Lemma handle_welcome_spares b : spares roster_view (handle_welcome b).
Proof. unfold handle_welcome. spares. Qed.

Lemma handle_promote_spares from b : spares roster_view (handle_promote sha256 from b).
Proof. unfold handle_promote. cbv zeta. spares. Qed.

Lemma handle_promote_commit_spares b : spares roster_view (handle_promote_commit sha256 b).
Proof. unfold handle_promote_commit, apply_retention, set_persistence, purge_history. cbv zeta. spares. Qed.

(** What a roster frame carries once it is installed. *)
Definition roster_of (entries : list (Z * bytes)) : gmap Z bytes := foldl (fun m x => <[x.1 := x.2]> m) ∅ entries.

Lemma handle_roster_run n epoch entries sig :
  roster_view (handle_roster epoch entries sig n).2 = roster_view n \/
  exists g, n_group n = Some g /\ verify_host_sig g (roster_transcript epoch entries) sig = true /\
    n_last_roster_epoch n <= epoch /\
    roster_view (handle_roster epoch entries sig n).2 = (n_role n, roster_of entries, epoch).
Proof.
  unfold handle_roster, st_bind, st_get, st_modify, st_ret. destruct (n_group n) as [g|] eqn:Eg; [|by left].
  destruct (verify_host_sig g _ sig) eqn:Ev; [|by left]. case_bool_decide; [|by left].
  right. exists g. split; [done|]. split; [done|]. split; [lia|done].
Qed.

(** The states a node passes through as frames reach it, from anyone and with
    any content. *)
Inductive hears : GroupNode -> GroupNode -> Prop :=
| hears_none n : hears n n
| hears_frame n n1 n2 cs c1 c2 cu from f r :
    hears n n1 -> dispatch sha256 cs c1 c2 cu from f n1 = (r, n2) -> hears n n2.

Lemma member_step n cs c1 c2 cu from f :
  n_role n = RoleMember ->
  roster_view (dispatch sha256 cs c1 c2 cu from f n).2 = roster_view n \/
  exists g epoch entries sig, f = FRoster epoch entries sig /\ n_group n = Some g /\
    verify_host_sig g (roster_transcript epoch entries) sig = true /\ n_last_roster_epoch n <= epoch /\
    roster_view (dispatch sha256 cs c1 c2 cu from f n).2 = (RoleMember, roster_of entries, epoch).
Proof.
  intros Hr. unfold dispatch, st_bind at 1 2, st_get. rewrite Hr. destruct f; try (by left).
  - left. apply handle_welcome_spares.
  - left. apply handle_commit_spares.
  - destruct (handle_roster_run n epoch entries sig) as [H|(g & Hg & Hv & Hf & H)]; [by left|].
    right. exists g, epoch, entries, sig. rewrite H, Hr. done.
  - left. apply handle_promote_spares.
  - left. apply handle_promote_commit_spares.
Qed.

(** C23: a member's roster is the host's.  Whatever frames a member receives,
    from whomever, its roster at the end is the one it started with or the exact
    content of a roster statement that, when it arrived, verified under the
    signing key the member's group had bound to the host leaf; and the epoch of
    the roster it holds never goes back. *)
Theorem roster_is_hosts (n n' : GroupNode) :
  n_role n = RoleMember -> hears n n' ->
  n_role n' = RoleMember /\ n_last_roster_epoch n <= n_last_roster_epoch n' /\
  ((n_roster n' = n_roster n /\ n_last_roster_epoch n' = n_last_roster_epoch n) \/
   exists m g entries sig, hears n m /\ n_group m = Some g /\
     verify_host_sig g (roster_transcript (n_last_roster_epoch n') entries) sig = true /\
     n_roster n' = roster_of entries).
Proof.
  intros Hr. induction 1 as [n|n n1 n2 cs c1 c2 cu from f r Hh IH Hd].
  { split; [done|]. split; [lia|]. by left. }
  destruct (IH Hr) as (Hr1 & Hm1 & Hc). assert (n2 = (dispatch sha256 cs c1 c2 cu from f n1).2) as -> by (by rewrite Hd).
  destruct (member_step n1 cs c1 c2 cu from f Hr1) as [Hv|(g & epoch & entries & sig & _ & Hg & Hs & Hle & Hv)];
    unfold roster_view in Hv; injection Hv as -> -> ->.
  - done.
  - split; [done|]. split; [lia|]. right. exists n1, g, entries, sig. done.
Qed.

(** ** The way in *)

(** One unauthenticated frame can keep a member out.  [handle_welcome]
    consumes the reserved leaf key pair before it has looked at the bytes, so
    after undecodable ones, whoever sent them, no later Welcome changes the
    member's group: not even the genuine one. *)
Lemma junk_welcome_blocks_join (n : GroupNode) (kp : LeafKeyPair) (junk : bytes) (ws : list bytes) :
  n_leaf_keypair n = Some kp -> is_ok (welcome_decode (lk_profile kp) junk) = false ->
  n_group (st_iter handle_welcome (junk :: ws) n).2 = n_group n.
Proof.
  intros Hk Hj. cbn [st_iter]. unfold st_bind at 1.
  assert (handle_welcome junk n = (Ok tt, with_leaf_keypair None n)) as ->.
  { unfold handle_welcome, st_bind, st_get, st_modify, st_ret. rewrite Hk. by destruct (welcome_decode _ junk). }
  assert (forall ws m, n_leaf_keypair m = None -> n_group (st_iter handle_welcome ws m).2 = n_group m) as H.
  { clear. induction ws as [|w ws IH]; intros m Hm; [done|]. cbn [st_iter]. unfold st_bind at 1.
    assert (handle_welcome w m = (Ok tt, with_leaf_keypair None m)) as ->.
    { unfold handle_welcome, st_bind, st_get, st_modify, st_ret. by rewrite Hm. }
    by rewrite IH. }
  by rewrite H.
Qed.

(** ** Removal *)

Lemma leaf_of_Some roster fp l : leaf_of roster fp = Some l -> roster !! l = Some fp.
Proof.
  unfold leaf_of. intros ([i [l' fp']] & Hf & ->)%fmap_Some. apply list_find_Some in Hf as (Hi & Hp & _). cbn in *. subst.
  by apply elem_of_map_to_list, list_elem_of_lookup_2 with i.
Qed.

Lemma broadcast_roster_spares : spares (fun n => (n_roster n, n_group n)) broadcast_roster.
Proof. unfold broadcast_roster. spares. Qed.

(** What [remove_member] does to the roster: nothing, or exactly one entry of
    that peer goes. *)
Lemma remove_member_roster cs fp n r n' :
  remove_member cs fp n = (r, n') ->
  n_roster n' = n_roster n \/ exists l, n_roster n !! l = Some fp /\ n_roster n' = delete l (n_roster n).
Proof.
  unfold remove_member. unfold st_bind at 1, st_get at 1. case_decide; [intros [= _ <-]; by left|].
  destruct (leaf_of (n_roster n) fp) as [l|] eqn:El; [|intros [= _ <-]; by left]. unfold st_bind at 1.
  pose proof (spares_on_group n_roster (tagged (remove cs l)) ltac:(done) n) as Hk.
  destruct (on_group (tagged (remove cs l)) n) as [[[[e c]|]|err] n1]; cbn [snd] in Hk;
    [|intros [= _ <-]; by left..].
  intros E. right. exists l. split; [by apply leaf_of_Some|]. revert E. unfold st_bind, st_modify, send, st_modify at 1.
  match goal with |- broadcast_roster ?m = _ -> _ => pose proof (broadcast_roster_spares m) as Hb end.
  intros E. rewrite E in Hb. injection Hb as Hb _. rewrite Hb. cbn [n_roster with_sent with_roster]. by rewrite Hk.
Qed.

(** Removing a peer that joined twice leaves it in.  The host assigns a
    fresh leaf to every key package, also to one from a peer that already has
    a leaf, and [remove_member] removes one leaf: a peer that held two is still
    on the roster afterwards. *)
Lemma removal_leaves_second_leaf (n : GroupNode) (cs : nat -> coins) (fp : bytes) (l1 l2 : Z) :
  l1 <> l2 -> n_roster n !! l1 = Some fp -> n_roster n !! l2 = Some fp ->
  exists l, n_roster (remove_member cs fp n).2 !! l = Some fp.
Proof.
  intros Hne H1 H2. destruct (remove_member cs fp n) as [r n'] eqn:E. cbn [snd].
  apply remove_member_roster in E as [->|(l & Hl & ->)]; [eauto|].
  destruct (decide (l = l1)) as [->|]; [exists l2|exists l1]; by rewrite lookup_delete_ne.
Qed.
End Roster.
