(* ===== verification/EngineDemo.v ===== *)
(** * The control plane: the theorems at concrete nodes

    The two-member group of [TreeDemo] behind engine nodes: Bob's node receives
    commits, rosters, welcomes and promotion traffic; the host's node removes and
    promotes. *)

From S2P Require Import Prelude Wire Crypto Hybrid Ratchet SenderKeys TreeNode TreeCodec TreeKem TreeAgree TreeGroup TreeSecurity Toy TreeDemo Marking Frames Engine EngineProps EngineRoster.

Definition e_sha (b : bytes) : bytes := toy_kdf b [] [] 32.
Lemma e_sha_len b : length (e_sha b) = 32%nat.
Proof. apply toy_kdf_len. Qed.

Definition e_fp (s : string) : bytes := resize 48 (byte_of 0) (bstr s).

Definition e_node (role : GroupRole) (me : string) (g : option TreeKemGroup) : GroupNode :=
  mkNode_ role (e_fp me) AOpen ∅ None g None {[1 := e_fp "bob"]} 0 ∅ None [] ∅ false [] [].
Definition e_host : GroupNode := e_node RoleHost "host" (Some d_host).
Definition e_bob : GroupNode := e_node RoleMember "bob" (Some d_mem).

(** ** Frames *)

Lemma frame_decode_exact_witness :
  frame_decode (frame_encode (FCommit 7 (bstr "commit"))) = Some (FCommit 7 (bstr "commit")).
Proof.
  apply frame_decode_exact; [vm_compute; discriminate|]. split.
  - refine (conj _ _); vm_compute; [split; [discriminate|reflexivity]|discriminate].
  - exists []. split; [by rewrite app_nil_r|done].
Defined.

(** ** Two rotations of the host *)

Definition e_host2 : TreeKemGroup := Eval vm_compute in (update (P:=toy) 31%nat (g_cs 3) d_host).2.
Definition e_rotation2 : Commit := Eval vm_compute in
  (some_of (A:=Commit) (to_option (update (P:=toy) 33%nat (g_cs 4) e_host2).1) <: Commit).
Definition e_commit1 : bytes := Eval vm_compute in commit_encode d_rotation.
Definition e_commit2 : bytes := Eval vm_compute in commit_encode e_rotation2.
Definition e_mem1 : TreeKemGroup := Eval vm_compute in (apply_commit (P:=toy) d_rotation d_mem).2.
Definition e_mem2 : TreeKemGroup := Eval vm_compute in (apply_commit (P:=toy) e_rotation2 e_mem1).2.

Lemma e_follows1 bs g : follows e_mem1 bs g -> follows d_mem (e_commit1 :: bs) g.
Proof. intros H. apply (follows_cons _ _ d_rotation e_mem1); [vm_compute; reflexivity..|exact H]. Qed.
Lemma e_follows2 : follows e_mem1 [e_commit2] e_mem2.
Proof. apply (follows_cons _ _ e_rotation2 e_mem2); [vm_compute; reflexivity..|constructor]. Qed.

Lemma commits_any_order_witness :
  exists n', deliver_commits (P:=toy) [(2, e_commit2); (1, e_commit1); (2, e_commit2)] e_bob = (Ok tt, n') /\
    n_group n' = Some e_mem2.
Proof.
  apply (commits_any_order (P:=toy) e_bob d_mem e_mem2 [e_commit1; e_commit2] [1; 0; 1]%nat).
  - reflexivity.
  - reflexivity.
  - exact (e_follows1 _ _ e_follows2).
  - vm_compute. discriminate.
  - vm_compute. reflexivity.
  - repeat constructor.
  - intros [|[|i]] Hi; [right; left|left|cbn in Hi; lia].
Defined.

Lemma forged_commit_displaces_witness :
  exists n', deliver_commits (P:=toy) [(2, e_commit2); (2, bstr "junk"); (1, e_commit1)] e_bob = (Ok tt, n') /\
    n_group n' = Some e_mem1 /\ n_pending n' = ∅.
Proof.
  apply (forged_commit_displaces (P:=toy) e_bob d_mem e_mem1 e_commit1 e_commit2 (bstr "junk")).
  - reflexivity.
  - reflexivity.
  - vm_compute. discriminate.
  - vm_compute. reflexivity.
  - apply e_follows1. constructor.
  - vm_compute. reflexivity.
Defined.

(** ** A promotion *)

(** The host asks Bob to carry the history over, unanimously. *)
Definition e_body : PromoteBody := mkPromoteBody 1 1 0 [e_fp "bob"] [] 0 1.
Definition e_accepted : PromoteState := mkPromoteState e_body {[1 := true]} (Some true).

Lemma promote_body_exact_witness : promote_decode (promote_encode e_body) = Some e_body.
Proof.
  apply promote_body_exact; [vm_compute; discriminate|]. split; [|split; vm_compute; reflexivity].
  split; try (vm_compute; split; [discriminate|reflexivity]).
  - split; [vm_compute; discriminate|repeat constructor].
  - vm_compute. discriminate.
Defined.

Lemma promotion_needs_consent_witness :
  e_fp "bob" ∈ [e_fp "host"; e_fp "bob"] <->
    e_fp "bob" = e_fp "host" \/ exists l, asked e_accepted {[1 := e_fp "bob"]} (e_fp "host") l (e_fp "bob").
Proof.
  assert (promotion_decision e_accepted {[1 := e_fp "bob"]} (e_fp "host") = PCommit [e_fp "host"; e_fp "bob"]) as E
    by (vm_compute; reflexivity).
  exact (proj2 (proj2 (proj1 (promotion_needs_consent e_accepted {[1 := e_fp "bob"]} (e_fp "host")) eq_refl) _ E) (e_fp "bob")).
Defined.

(** Bob has two messages in his backlog. *)
Definition e_keep : GroupNode :=
  with_backlog [mkBacklog (bstr "m1") 10 (bstr "r1"); mkBacklog (bstr "m2") 20 (bstr "r2")]
    (with_promote (Some e_accepted) e_bob).
Definition e_announce (body : bytes) (l : Z) (k : IdentityKeyPair) : bytes :=
  wrap_signed body l (id_sign (P:=toy) k (promo_commit_transcript 1 l body)).

Lemma retention_needs_consent_witness :
  let n' := (handle_promote_commit (P:=toy) e_sha (bstr "not signed") e_keep).2 in
  n_history n' = ∅ /\ n_persistent n' = false.
Proof.
  destruct (retention_needs_consent (P:=toy) e_sha e_keep
    (handle_promote_commit (P:=toy) e_sha (bstr "not signed") e_keep).2 (bstr "not signed")) as [H|H].
  - vm_compute. reflexivity.
  - intros n'. destruct H as (H1 & _ & H2). exact (conj H1 H2).
  - intros n'. split; vm_compute; reflexivity.
Defined.

Definition e_bob_seed : bytes := Eval vm_compute in sig_seed (lk_sig d_bob).

Lemma any_leaf_can_finalise_witness :
  exists n', handle_promote_commit (P:=toy) e_sha
      (e_announce (promote_id e_sha e_body) 1 (id_from_secret_bytes (P:=toy) e_bob_seed)) e_keep = (Ok tt, n') /\
    n_persistent n' = true /\ n_promote n' = None /\ n_events n' = [EPromoted (promote_id e_sha e_body)].
Proof.
  apply (any_leaf_can_finalise (P:=toy) e_sha e_keep d_mem e_accepted 1 e_bob_seed e_sha_len).
  - reflexivity.
  - reflexivity.
  - reflexivity.
  - vm_compute. split; [discriminate|reflexivity].
  - vm_compute. reflexivity.
Defined.

(** Bob makes the host evict everyone. *)
Definition e_hijack1 : bytes :=
  let body := promote_encode (empty_proposal 1) in
  wrap_signed body 1 (id_sign (P:=toy) (id_from_secret_bytes (P:=toy) e_bob_seed) (promote_transcript 1 1 body)).
Definition e_hijack2 : bytes :=
  let consent := consent_encode (mkConsentBody (promote_id e_sha (empty_proposal 1)) true 1 1) in
  wrap_signed consent 1 (id_sign (P:=toy) (id_from_secret_bytes (P:=toy) e_bob_seed) (consent_transcript 1 1 consent)).
Definition e_hears (f : Frame) (n : GroupNode) : GroupNode :=
  (dispatch (P:=toy) e_sha (fun k => g_cs (20 + k)) 61%nat 62%nat (g_cs 9) (e_fp "bob") f n).2.

Lemma member_hijacks_promotion_witness :
  exists n2, e_hears (FConsent e_hijack2) (e_hears (FPromote e_hijack1) e_host) =
    (commit_promotion (P:=toy) (fun k => g_cs (20 + k)) 61%nat 62%nat (g_cs 9)
      (promote_id e_sha (empty_proposal 1)) [e_fp "host"] n2).2 /\ n_roster n2 = {[1 := e_fp "bob"]}.
Proof.
  destruct (member_hijacks_promotion (P:=toy) e_sha e_host d_host 1 e_bob_seed (e_fp "bob")
    (fun k => g_cs (20 + k)) 61%nat 62%nat (g_cs 9) e_sha_len) as (n2 & E & Hr & _).
  - reflexivity.
  - reflexivity.
  - vm_compute. split; [discriminate|reflexivity].
  - vm_compute. split; [discriminate|reflexivity].
  - vm_compute. reflexivity.
  - exists n2. split; [exact (f_equal snd E)|exact Hr].
Defined.

(** ** Membership *)

Definition e_roster_frame : Frame :=
  FRoster 1 [(1, e_fp "bob")] (default [] (sign_as_host (P:=toy) d_host (roster_transcript 1 [(1, e_fp "bob")]))).

Lemma roster_is_hosts_witness :
  let n' := e_hears e_roster_frame e_bob in n_last_roster_epoch n' = 1 /\ n_role n' = RoleMember.
Proof.
  intros n'. split; [vm_compute; reflexivity|].
  refine (proj1 (roster_is_hosts (P:=toy) e_sha e_bob n' eq_refl _)).
  eapply hears_frame; [apply hears_none|apply surjective_pairing].
Defined.

(** A node that still waits for its Welcome. *)
Definition e_waiting : GroupNode := with_leaf_keypair (Some d_bob) (e_node RoleMember "bob" None).

Lemma junk_welcome_blocks_join_witness :
  n_group (st_iter (handle_welcome (P:=toy)) [bstr "junk"; bstr "the genuine welcome"] e_waiting).2 = None.
Proof.
  apply (junk_welcome_blocks_join (P:=toy) e_waiting d_bob (bstr "junk") [bstr "the genuine welcome"]);
    vm_compute; reflexivity.
Defined.

(** Carol holds two leaves and is removed once. *)
Definition e_twice : GroupNode := with_roster {[1 := e_fp "bob"; 2 := e_fp "carol"; 3 := e_fp "carol"]} e_host.

Lemma removal_leaves_second_leaf_witness :
  exists l, n_roster (remove_member (P:=toy) (g_cs 50) (e_fp "carol") e_twice).2 !! l = Some (e_fp "carol").
Proof.
  apply (removal_leaves_second_leaf (P:=toy) e_twice (g_cs 50) (e_fp "carol") 2 3).
  - discriminate.
  - reflexivity.
  - reflexivity.
Defined.
