(* ===== verification/Store.v ===== *)
(** * At-rest stores
      (crates/core/src/{outbox,history,atrest}.rs)

    The [OutboxStore] and [HistoryStore] traits are type classes; what their
    clients rely on is the class [OutboxStoreOk], proved here for the in-memory
    store and for the sealed on-disk one.  Iteration orders of [HashMap] and of
    directory listings are not specified by the source's platform: the laws speak
    of them up to permutation. *)

From S2P Require Import Prelude Wire Crypto Ratchet Marking Frames.

(** ** The interface *)

Class OutboxStore `{P : Primitives} (S : Type) := {
  os_put : coins -> bytes -> bytes -> bytes -> S -> S;     (** chat, gid, frame *)
  os_remove : bytes -> bytes -> S -> S;
  os_load : bytes -> S -> list (bytes * bytes) }.

(** A chat of the store is a map from 32-byte ids to frames.  [os_inv] holds of
    stores on which the operations cannot fail, [os_chat] of chat names the store
    tells apart. *)
Class OutboxStoreOk `{P : Primitives} (S : Type) {O : OutboxStore S} := {
  os_inv : S -> Prop;
  os_chat : bytes -> Prop;
  os_view : bytes -> S -> gmap bytes bytes;
  os_load_view s c : os_inv s -> os_chat c -> os_load c s ≡ₚ map_to_list (os_view c s);
  os_put_inv k c g f s : os_inv s -> os_inv (os_put k c g f s);
  os_remove_inv c g s : os_inv s -> os_inv (os_remove c g s);
  os_put_view k c g f s c' : os_inv s -> os_chat c -> os_chat c' -> length g = 32%nat -> zlen f <= 2 ^ 32 ->
    os_view c' (os_put k c g f s) = if decide (c = c') then <[g := f]> (os_view c s) else os_view c' s;
  os_remove_view c g s c' : os_inv s -> os_chat c -> os_chat c' -> length g = 32%nat ->
    os_view c' (os_remove c g s) = if decide (c = c') then delete g (os_view c s) else os_view c' s }.

(** ** In memory *)

Abbreviation InMemoryOutbox := (gmap bytes (gmap bytes bytes)).

Definition inmem_new : InMemoryOutbox := ∅.
Definition inmem_put (chat gid frame : bytes) (s : InMemoryOutbox) : InMemoryOutbox :=
  <[chat := <[gid := frame]> (default ∅ (s !! chat))]> s.
Definition inmem_remove (chat gid : bytes) (s : InMemoryOutbox) : InMemoryOutbox :=
  match s !! chat with Some m => <[chat := delete gid m]> s | None => s end.
Definition inmem_load (chat : bytes) (s : InMemoryOutbox) : list (bytes * bytes) :=
  default [] (map_to_list <$> s !! chat).

#[export] Instance inmem_store `{P : Primitives} : OutboxStore InMemoryOutbox := {|
  os_put _ := inmem_put; os_remove := inmem_remove; os_load := inmem_load |}.

#[local] Obligation Tactic := idtac.
#[export] Program Instance inmem_ok `{P : Primitives} : OutboxStoreOk InMemoryOutbox := {|
  os_inv _ := True; os_chat _ := True; os_view c s := default ∅ (s !! c) |}.
Next Obligation. intros ? s c _ _. cbn. unfold inmem_load. by destruct (s !! c). Qed.
Next Obligation. done. Qed.
Next Obligation. done. Qed.
Next Obligation.
  intros ? k c g f s c' _ _ _ _ _. cbn. unfold inmem_put.
  case_decide; subst; [by rewrite lookup_insert_eq|by rewrite lookup_insert_ne].
Qed.
Next Obligation.
  intros ? c g s c' _ _ _ _. cbn. unfold inmem_remove. destruct (s !! c) as [m|] eqn:E; case_decide; subst; cbn.
  - by rewrite lookup_insert_eq.
  - by rewrite lookup_insert_ne.
  - by rewrite E, delete_empty.
  - done.
Qed.

(** ** Retained history *)

Record HistoryRecord : Type := mkHistoryRecord {
  hr_from : bytes; hr_ts : Z; hr_text : bytes; hr_marking : option Marking }.

Definition history_encode (h : HistoryRecord) : bytes :=
  w_new |> put_bytes (hr_from h) |> put_u64 (hr_ts h)
        |> put_bytes (encode_payload (hr_marking h) (hr_text h)) |> into_vec.

Definition history_read : Get unit (bytes * Z * bytes) :=
  get* fp := fixed 48 in get* ts := q get_u64 in get* payload := q get_vec in gret (fp, ts, payload).

Definition history_decode (b : bytes) : option HistoryRecord :=
  '(from, ts, payload) ← to_option (run_get (get* x := history_read in get* _ := q finish in gret x) b);
  '(marking, text) ← decode_payload payload;
  Some (mkHistoryRecord from ts text marking).

Class HistoryStore `{P : Primitives} (S : Type) := {
  hs_put : coins -> bytes -> bytes -> bytes -> S -> S;
  hs_load : bytes -> S -> list (bytes * bytes);
  hs_purge : bytes -> S -> S }.

Abbreviation InMemoryHistory := (gmap bytes (gmap bytes bytes)).

Definition inmemh_put (chat gid record : bytes) (s : InMemoryHistory) : InMemoryHistory :=
  <[chat := <[gid := record]> (default ∅ (s !! chat))]> s.
Definition inmemh_load (chat : bytes) (s : InMemoryHistory) : list (bytes * bytes) :=
  default [] (map_to_list <$> s !! chat).
Definition inmemh_purge (chat : bytes) (s : InMemoryHistory) : InMemoryHistory := delete chat s.

#[export] Instance inmem_history `{P : Primitives} : HistoryStore InMemoryHistory := {|
  hs_put _ := inmemh_put; hs_load := inmemh_load; hs_purge := inmemh_purge |}.

(** ** The disk

    The part of [std::fs] that [atrest.rs] uses.  A full disk refuses writes. *)

Abbreviation Path := (list bytes).
Record Disk : Type := mkDisk { d_files : gmap Path bytes; d_full : bool }.

Definition fs_create_dir_all (d : Disk) : bool := negb (d_full d).
Definition fs_write (p : Path) (b : bytes) : ST Disk unit unit := fun d =>
  if d_full d then (Err tt, d) else (Ok tt, mkDisk (<[p := b]> (d_files d)) (d_full d)).
Definition fs_rename (p p' : Path) : ST Disk unit unit := fun d =>
  match d_files d !! p with
  | Some b => (Ok tt, mkDisk (<[p' := b]> (delete p (d_files d))) (d_full d))
  | None => (Err tt, d)
  end.
Definition fs_remove_file (p : Path) (d : Disk) : Disk := mkDisk (delete p (d_files d)) (d_full d).
(** The name of a file of [dir], from its path. *)
Definition name_in (dir p : Path) : option bytes :=
  match drop (length dir) p with
  | [name] => if decide (take (length dir) p = dir) then Some name else None
  | _ => None
  end.
Definition fs_read_dir (dir : Path) (d : Disk) : list (bytes * bytes) :=
  omap (fun x => (fun name => (name, x.2)) <$> name_in dir x.1) (map_to_list (d_files d)).
Definition fs_remove_dir_all (dir : Path) (d : Disk) : Disk :=
  mkDisk (filter (fun x : Path * bytes => take (length dir) x.1 <> dir) (d_files d)) (d_full d).

(** [Path::with_extension] on the last component. *)
Definition file_stem (name : bytes) : bytes :=
  match list_find (fun b => b = byte_of 46) (reverse name) with
  | Some (i, _) => let n := (length name - S i)%nat in if decide (n = 0%nat) then name else take n name
  | None => name
  end.
Definition with_extension (p : Path) (ext : bytes) : Path :=
  match last p with
  | Some name => take (length p - 1) p ++ [file_stem name ++ [byte_of 46] ++ ext]
  | None => p
  end.

(** A sequence of file operations, each followed by [?]. *)
Inductive FsOp : Type := FsWrite (p : Path) (b : bytes) | FsRename (p p' : Path).
Definition fs_op (o : FsOp) : ST Disk unit unit := match o with FsWrite p b => fs_write p b | FsRename p p' => fs_rename p p' end.
Fixpoint fs_run (ops : list FsOp) : ST Disk unit unit :=
  match ops with [] => st_ret tt | o :: ops' => do* _ := fs_op o in fs_run ops' end.

Definition write_atomic (p : Path) (b : bytes) : list FsOp :=
  let tmp := with_extension p (bstr "tmp") in
  [FsWrite tmp b; FsRename tmp p].

(** What a crash may leave of a sequence: the disk between two operations, or in the
    middle of a write, with any part of the data in the file.  A rename is atomic. *)
Inductive crashes : list FsOp -> Disk -> Disk -> Prop :=
| crash_here ops d : crashes ops d d
| crash_writing p b ops d n : crashes (FsWrite p b :: ops) d (mkDisk (<[p := take n b]> (d_files d)) (d_full d))
| crash_later o ops d d1 d' : fs_op o d = (Ok tt, d1) -> crashes ops d1 d' -> crashes (o :: ops) d d'.

(** ** File names *)

Definition hex_digit (n : Z) : byte := byte_of (if decide (n < 10) then 48 + n else 87 + n).
Definition hex (b : bytes) : bytes := b ≫= fun x => [hex_digit (bval x / 16); hex_digit (bval x mod 16)].

(** [char::to_digit(16)] *)
Definition to_digit16 (c : byte) : option Z :=
  let v := bval c in
  if decide (48 <= v <= 57) then Some (v - 48)
  else if decide (97 <= v <= 102) then Some (v - 87)
  else if decide (65 <= v <= 70) then Some (v - 55)
  else None.

Fixpoint unhex (s : bytes) : option bytes :=
  match s with
  | hi :: lo :: s => h ← to_digit16 hi; l ← to_digit16 lo; r ← unhex s; Some (byte_of (h * 16 + l) :: r)
  | [] => Some []
  | [_] => None
  end.
Definition unhex32 (s : bytes) : option bytes := if decide (length s <> 64%nat) then None else unhex s.

(** ** The sealed store *)

Definition AR_NONCE_LEN : nat := 12.
Definition OUTBOX_SUBDIR : bytes := bstr "outbox".
Definition HISTORY_SUBDIR : bytes := bstr "history".

Record SealedFileStore : Type := mkSealed { sf_root : Path; sf_dek : bytes; sf_disk : Disk }.

Definition with_disk (d : Disk) (s : SealedFileStore) : SealedFileStore := mkSealed (sf_root s) (sf_dek s) d.

Section Sealed.
Context {P : Primitives} (sha256 : bytes -> bytes).

Definition chat_hash (chat : bytes) : bytes := sha256 chat.
Definition chat_dir (s : SealedFileStore) (subdir ch : bytes) : Path := sf_root s ++ [subdir; hex ch].
Definition ar_aad (subdir ch gid : bytes) : bytes := subdir ++ ch ++ gid.

(** The file operations of a put. *)
Definition put_ops (k : coins) (subdir chat gid record : bytes) (s : SealedFileStore) : list FsOp :=
  let ch := chat_hash chat in
  let dir := chat_dir s subdir ch in
  if negb (fs_create_dir_all (sf_disk s)) then []
  else
    let nonce := random_bytes k AR_NONCE_LEN in
    match aead_seal (sf_dek s) nonce record (ar_aad subdir ch gid) with
    | Err _ => []
    | Ok ct => write_atomic (dir ++ [hex gid]) (nonce ++ ct)
    end.
Definition put_record (k : coins) (subdir chat gid record : bytes) (s : SealedFileStore) : SealedFileStore :=
  with_disk (fs_run (put_ops k subdir chat gid record s) (sf_disk s)).2 s.

(** One record file, opened; anything that does not open is skipped. *)
Definition open_record (dek subdir ch gid blob : bytes) : option bytes :=
  if decide (length blob < AR_NONCE_LEN)%nat then None
  else to_option (aead_open dek (take AR_NONCE_LEN blob) (drop AR_NONCE_LEN blob) (ar_aad subdir ch gid)).

Definition load_records (subdir chat : bytes) (s : SealedFileStore) : list (bytes * bytes) :=
  let ch := chat_hash chat in
  omap (fun x : bytes * bytes =>
    gid ← unhex32 x.1; rec ← open_record (sf_dek s) subdir ch gid x.2; Some (gid, rec))
    (fs_read_dir (chat_dir s subdir ch) (sf_disk s)).

Definition remove_record (subdir chat gid : bytes) (s : SealedFileStore) : SealedFileStore :=
  with_disk (fs_remove_file (chat_dir s subdir (chat_hash chat) ++ [hex gid]) (sf_disk s)) s.

Definition purge_chat (subdir chat : bytes) (s : SealedFileStore) : SealedFileStore :=
  with_disk (fs_remove_dir_all (chat_dir s subdir (chat_hash chat)) (sf_disk s)) s.

#[export] Instance sealed_outbox : OutboxStore SealedFileStore := {|
  os_put k := put_record k OUTBOX_SUBDIR; os_remove := remove_record OUTBOX_SUBDIR; os_load := load_records OUTBOX_SUBDIR |}.
#[export] Instance sealed_history : HistoryStore SealedFileStore := {|
  hs_put k := put_record k HISTORY_SUBDIR; hs_load := load_records HISTORY_SUBDIR; hs_purge := purge_chat HISTORY_SUBDIR |}.
End Sealed.

(** ** Lemmas on file names *)

Lemma hex_digit_inv n : 0 <= n < 16 -> to_digit16 (hex_digit n) = Some n /\ bval (hex_digit n) <> 46.
Proof.
  intros Hn. unfold to_digit16, hex_digit. rewrite bval_byte_of. cbv zeta. destruct (decide (n < 10)).
  - rewrite Z.mod_small, decide_True by lia. split; [f_equal; lia|lia].
  - rewrite Z.mod_small, decide_False, decide_True by lia. split; [f_equal; lia|lia].
Qed.

Lemma unhex_hex_app b t : unhex (hex b ++ t) = (app b) <$> unhex t.
Proof.
  induction b as [|x b IH]; [change (hex [] ++ t) with t; by destruct (unhex t)|]. pose proof (bval_range x).
  change (hex (x :: b) ++ t) with (hex_digit (bval x / 16) :: hex_digit (bval x mod 16) :: (hex b ++ t)). cbn [unhex].
  rewrite (proj1 (hex_digit_inv (bval x / 16) ltac:(split; [apply Z.div_pos|apply Z.div_lt_upper_bound]; lia))).
  rewrite (proj1 (hex_digit_inv (bval x mod 16) ltac:(apply Z.mod_pos_bound; lia))). cbn [mbind option_bind]. rewrite IH.
  rewrite (Z.mul_comm _ 16), <- Z.div_mod by lia. rewrite byte_of_bval. by destruct (unhex t).
Qed.

Lemma unhex_hex b : unhex (hex b) = Some b.
Proof. rewrite <- (app_nil_r (hex b)), unhex_hex_app. cbn. by rewrite app_nil_r. Qed.

Lemma length_hex b : length (hex b) = (2 * length b)%nat.
Proof. induction b as [|x b IH]; [done|]. unfold hex in *. cbn. lia. Qed.

Lemma hex_inj a b : hex a = hex b -> a = b.
Proof. intros E. apply (f_equal unhex) in E. rewrite !unhex_hex in E. by simplify_eq. Qed.

Lemma unhex32_hex g : length g = 32%nat -> unhex32 (hex g) = Some g.
Proof. intros H. unfold unhex32. rewrite length_hex, H, decide_False by auto. apply unhex_hex. Qed.

Lemma unhex_len s b : unhex s = Some b -> length s = (2 * length b)%nat.
Proof.
  revert s. induction b as [|x b IH]; intros [|hi [|lo s]] H; cbn in H; simplify_eq; try done.
  - apply bind_Some in H as (h & _ & H). apply bind_Some in H as (l & _ & H). apply bind_Some in H as (r & _ & H). done.
  - apply bind_Some in H as (h & _ & H). apply bind_Some in H as (l & _ & H). apply bind_Some in H as (r & Hr & H).
    simplify_eq. apply IH in Hr. cbn. lia.
Qed.

Lemma unhex32_len s g : unhex32 s = Some g -> length g = 32%nat.
Proof. unfold unhex32. case_decide as H; [done|]. intros E%unhex_len. lia. Qed.

Lemma hex_no_dot b : Forall (fun x => x <> byte_of 46) (hex b).
Proof.
  unfold hex. induction b as [|x b IH]; [constructor|]. cbn. pose proof (bval_range x).
  repeat constructor; try done; intros E;
    [apply (proj2 (hex_digit_inv (bval x / 16) ltac:(split; [apply Z.div_pos|apply Z.div_lt_upper_bound]; lia)))
    |apply (proj2 (hex_digit_inv (bval x mod 16) ltac:(apply Z.mod_pos_bound; lia)))];
    rewrite E, bval_byte_of; done.
Qed.

Lemma file_stem_hex b : file_stem (hex b) = hex b.
Proof.
  unfold file_stem. destruct (list_find _ (reverse (hex b))) as [[i x]|] eqn:E; [|done].
  apply list_find_Some in E as (Hi & -> & _). pose proof (hex_no_dot b) as H.
  apply list_elem_of_lookup_2 in Hi. rewrite elem_of_reverse in Hi. rewrite Forall_forall in H. by apply H in Hi.
Qed.

Lemma tmp_path dir g : with_extension (dir ++ [hex g]) (bstr "tmp") = dir ++ [hex g ++ bstr ".tmp"].
Proof.
  unfold with_extension. rewrite last_snoc, length_app, Nat.add_sub, take_app_length, file_stem_hex. done.
Qed.

Lemma unhex32_tmp g : unhex32 (hex g ++ bstr ".tmp") = None.
Proof. unfold unhex32. case_decide; [done|]. by rewrite unhex_hex_app. Qed.

(** ** Directories *)

Lemma name_in_Some dir p name : name_in dir p = Some name <-> p = dir ++ [name].
Proof.
  unfold name_in. split.
  - destruct (drop (length dir) p) as [|n [|]] eqn:Ed; try done. case_decide as Ht; [|done]. intros [= ->].
    by rewrite <- (take_drop (length dir) p), Ht, Ed.
  - intros ->. rewrite drop_app_length, take_app_length. by rewrite decide_True.
Qed.

Lemma elem_of_read_dir dir d name blob :
  (name, blob) ∈ fs_read_dir dir d <-> d_files d !! (dir ++ [name]) = Some blob.
Proof.
  unfold fs_read_dir. rewrite list_elem_of_omap. split.
  - intros ([p b] & Hp%elem_of_map_to_list & H). cbn in H. apply fmap_Some in H as (n & Hn%name_in_Some & E).
    simplify_eq. done.
  - intros H. exists (dir ++ [name], blob). split; [by apply elem_of_map_to_list|]. cbn.
    by rewrite (proj2 (name_in_Some dir (dir ++ [name]) name) eq_refl).
Qed.

Lemma read_dir_NoDup dir d : NoDup (fs_read_dir dir d).*1.
Proof.
  unfold fs_read_dir. pose proof (NoDup_fst_map_to_list (d_files d)) as H. revert H.
  generalize (map_to_list (d_files d)) as l. induction l as [|[p b] l IH]; intros H; [constructor|].
  cbn in H. apply NoDup_cons in H as [Hp H]. cbn. destruct (name_in dir p) as [n|] eqn:En; cbn; [|by apply IH].
  apply NoDup_cons. split; [|by apply IH]. intros Hn. apply Hp. apply name_in_Some in En as ->.
  apply list_elem_of_fmap in Hn as ([n' b'] & -> & Hx). apply list_elem_of_omap in Hx as ([p' b2] & Hp' & Hx).
  cbn in Hx. apply fmap_Some in Hx as (n2 & Hn2%name_in_Some & E). cbn in Hn2. simplify_eq.
  apply list_elem_of_fmap. exists (dir ++ [n2], b2). done.
Qed.

(** ** The sealed store implements the interface *)

Section SealedOk.
Context {P : Primitives} {POk : PrimitivesOk P} (sha256 : bytes -> bytes).

(** The chats in use, which the digest must tell apart, and the digest's size. *)
Context (chats : gset bytes).
Context (sha_inj : forall c c', c ∈ chats -> c' ∈ chats -> sha256 c = sha256 c' -> c = c').
Context (sha_len : forall c, length (sha256 c) = 32%nat).

Existing Instance sealed_outbox.

(** A healthy store: room on the disk, a data key, and every file of a chat
    directory that reads as a record has the record's own name. *)
Record sealed_inv (s : SealedFileStore) : Prop := {
  si_room : d_full (sf_disk s) = false;
  si_dek : length (sf_dek s) = KEY_LEN;
  si_names subdir ch name blob gid :
    d_files (sf_disk s) !! (chat_dir s subdir ch ++ [name]) = Some blob ->
    unhex32 name = Some gid -> name = hex gid }.

Definition sealed_view (subdir chat : bytes) (s : SealedFileStore) : gmap bytes bytes :=
  list_to_map (load_records sha256 subdir chat s).

(** The record file of an id. *)
Definition record_path (s : SealedFileStore) (subdir chat gid : bytes) : Path :=
  chat_dir s subdir (sha256 chat) ++ [hex gid].

Lemma elem_of_load s subdir chat gid rec :
  sealed_inv s ->
  (gid, rec) ∈ load_records sha256 subdir chat s <->
  length gid = 32%nat /\
  (d_files (sf_disk s) !! record_path s subdir chat gid ≫= open_record (sf_dek s) subdir (sha256 chat) gid) = Some rec.
Proof.
  intros Hi. unfold load_records, record_path, chat_hash. rewrite list_elem_of_omap. split.
  - intros ([name blob] & Hx%elem_of_read_dir & H). cbn in H. apply bind_Some in H as (g & Hg & H).
    apply bind_Some in H as (r & Hr & [= -> ->]). split; [by eapply unhex32_len|].
    rewrite <- (si_names s Hi _ _ _ _ _ Hx Hg), Hx. done.
  - intros [Hl (blob & Hb & Hr)%bind_Some]. exists (hex gid, blob). split; [by apply elem_of_read_dir|]. cbn.
    rewrite unhex32_hex by done. cbn. by rewrite Hr.
Qed.

Lemma load_NoDup s subdir chat : sealed_inv s -> NoDup (load_records sha256 subdir chat s).*1.
Proof.
  intros Hi. unfold load_records. pose proof (read_dir_NoDup (chat_dir s subdir (chat_hash sha256 chat)) (sf_disk s)) as H.
  assert (forall name blob, (name, blob) ∈ fs_read_dir (chat_dir s subdir (chat_hash sha256 chat)) (sf_disk s) ->
    forall gid, unhex32 name = Some gid -> name = hex gid) as Hn.
  { intros name blob Hx%elem_of_read_dir gid. by eapply si_names. }
  revert H Hn. generalize (fs_read_dir (chat_dir s subdir (chat_hash sha256 chat)) (sf_disk s)) as l.
  induction l as [|[name blob] l IH]; intros H Hn; [constructor|]. cbn in H. apply NoDup_cons in H as [Hni H].
  assert (NoDup (omap (fun x : bytes * bytes => gid ← unhex32 x.1;
    rec ← open_record (sf_dek s) subdir (chat_hash sha256 chat) gid x.2; Some (gid, rec)) l).*1) as IH'.
  { apply IH; [done|]. intros n b Hx. apply (Hn n b). by right. }
  cbn. destruct (unhex32 name) as [gid|] eqn:Eg; cbn; [|done].
  destruct (open_record _ _ _ gid blob) as [rec|]; cbn; [|done]. apply NoDup_cons. split; [|done].
  intros Hx. apply Hni. apply list_elem_of_fmap in Hx as ([g' r'] & -> & Hx). cbn in *.
  apply list_elem_of_omap in Hx as ([n2 b2] & Hx & H2). cbn in H2. apply bind_Some in H2 as (g2 & Hg2 & H2).
  apply bind_Some in H2 as (r2 & _ & [= -> ->]).
  rewrite (Hn name blob ltac:(by left) g' Eg), <- (Hn n2 b2 ltac:(by right) g' Hg2).
  apply list_elem_of_fmap. by exists (n2, b2).
Qed.

Lemma sealed_view_lookup s subdir chat gid :
  sealed_inv s ->
  sealed_view subdir chat s !! gid =
    if decide (length gid = 32%nat)
    then d_files (sf_disk s) !! record_path s subdir chat gid ≫= open_record (sf_dek s) subdir (sha256 chat) gid
    else None.
Proof.
  intros Hi. apply option_eq. intros rec. unfold sealed_view.
  rewrite <- elem_of_list_to_map by (by apply load_NoDup). rewrite elem_of_load by done.
  case_decide; naive_solver.
Qed.

(** A write leaves the record in its file and nothing else behind but what was
    there; the temporary file is gone. *)
Lemma write_atomic_run dir g b d :
  d_full d = false ->
  fs_run (write_atomic (dir ++ [hex g]) b) d =
    (Ok tt, mkDisk (<[dir ++ [hex g] := b]> (delete (dir ++ [hex g ++ bstr ".tmp"]) (d_files d))) (d_full d)).
Proof.
  intros Hf. unfold write_atomic. rewrite tmp_path. cbn [fs_run fs_op]. unfold st_bind, fs_write. rewrite Hf. unfold fs_rename. cbn [d_files].
  rewrite lookup_insert_eq, delete_insert_eq. done.
Qed.

Lemma open_sealed dek k subdir ch gid rec ct :
  aead_seal dek (random_bytes k AR_NONCE_LEN) rec (ar_aad subdir ch gid) = Ok ct ->
  open_record dek subdir ch gid (random_bytes k AR_NONCE_LEN ++ ct) = Some rec.
Proof.
  intros E. unfold open_record. assert (length (random_bytes k AR_NONCE_LEN) = AR_NONCE_LEN) as Hl by apply random_bytes_len.
  rewrite decide_False by (rewrite length_app; lia).
  rewrite take_app_length', drop_app_length' by done. by rewrite (aead_open_seal _ _ _ _ _ E).
Qed.

Lemma put_record_inv k subdir chat gid rec s : sealed_inv s -> sealed_inv (put_record sha256 k subdir chat gid rec s).
Proof.
  intros Hi. unfold put_record, put_ops. unfold fs_create_dir_all. rewrite (si_room s Hi). cbn [negb].
  destruct (aead_seal _ _ _ _) as [ct|]; [|by destruct s]. rewrite write_atomic_run by apply Hi. cbn [snd].
  destruct Hi as [H1 H2 H3]. split; [done|done|].
  intros subdir' ch name blob gid' H Hg. cbn in H. apply lookup_insert_Some in H as [[E <-]|[_ H]].
  - apply app_inj_2 in E as [_ [= <-]]; [|done]. destruct (decide (length gid = 32%nat)) as [Hl|Hl].
    + rewrite unhex32_hex in Hg by done. by simplify_eq.
    + unfold unhex32 in Hg. rewrite length_hex, decide_True in Hg by lia. done.
  - apply lookup_delete_Some in H as [_ H]. by eapply H3.
Qed.

Lemma remove_record_inv subdir chat gid s : sealed_inv s -> sealed_inv (remove_record sha256 subdir chat gid s).
Proof.
  intros [H1 H2 H3]. split; [done|done|]. intros subdir' ch name blob gid' H Hg. cbn in H.
  apply lookup_delete_Some in H as [_ H]. by eapply H3.
Qed.

Lemma record_path_inj s subdir c g c' g' :
  c ∈ chats -> c' ∈ chats -> record_path s subdir c g = record_path s subdir c' g' -> c = c' /\ g = g'.
Proof.
  intros Hc Hc' E. unfold record_path, chat_dir in E. apply app_inj_2 in E as [E [= E2%hex_inj]]; [|done].
  apply app_inj_1 in E as [_ [= E1%hex_inj]]; [|done]. split; [by apply sha_inj|done].
Qed.

Lemma record_path_tmp s subdir c g dir g' : length g = 32%nat -> record_path s subdir c g <> dir ++ [hex g' ++ bstr ".tmp"].
Proof.
  intros Hl E. unfold record_path in E. apply app_inj_2 in E as [_ [= E]]; [|done].
  apply (f_equal unhex32) in E. rewrite unhex32_tmp, unhex32_hex in E by done. done.
Qed.

Lemma put_record_view k subdir c g f s c' :
  sealed_inv s -> c ∈ chats -> c' ∈ chats -> length g = 32%nat -> zlen f <= 2 ^ 32 -> zlen subdir <= 2 ^ 31 ->
  sealed_view subdir c' (put_record sha256 k subdir c g f s) =
    if decide (c = c') then <[g := f]> (sealed_view subdir c s) else sealed_view subdir c' s.
Proof.
  intros Hi Hc Hc' Hg Hf Hsd. apply map_eq. intros x. rewrite sealed_view_lookup by (by apply put_record_inv).
  unfold put_record, put_ops. unfold fs_create_dir_all. rewrite (si_room s Hi). cbn [negb].
  destruct (aead_seal_total (sf_dek s) (random_bytes k AR_NONCE_LEN) f (ar_aad subdir (chat_hash sha256 c) g)) as (ct & E & _);
    [apply Hi|done| |].
  { unfold ar_aad, chat_hash. rewrite !zlen_app. unfold zlen in *. rewrite sha_len, Hg. lia. }
  rewrite E, write_atomic_run by apply Hi. cbn [snd sf_disk sf_dek with_disk d_files].
  change (chat_dir s subdir (chat_hash sha256 c) ++ [hex g]) with (record_path s subdir c g).
  change (record_path (with_disk _ s)) with (record_path s).
  destruct (decide (length x = 32%nat)) as [Hx|Hx].
  2:{ case_decide; subst; [rewrite lookup_insert_ne by congruence|]; by rewrite sealed_view_lookup, decide_False. }
  destruct (decide (c = c')) as [<-|Hne]; [destruct (decide (g = x)) as [<-|Hgx]|].
  - rewrite !lookup_insert_eq. cbn. by apply (open_sealed _ k).
  - rewrite lookup_insert_ne by (intros [_ ?]%record_path_inj; done).
    rewrite lookup_delete_ne by (intros H; symmetry in H; by apply record_path_tmp in H).
    rewrite lookup_insert_ne by done. by rewrite sealed_view_lookup, decide_True.
  - rewrite lookup_insert_ne by (intros [? _]%record_path_inj; done).
    rewrite lookup_delete_ne by (intros H; symmetry in H; by apply record_path_tmp in H).
    by rewrite sealed_view_lookup, decide_True.
Qed.

Lemma remove_record_view subdir c g s c' :
  sealed_inv s -> c ∈ chats -> c' ∈ chats -> length g = 32%nat ->
  sealed_view subdir c' (remove_record sha256 subdir c g s) =
    if decide (c = c') then delete g (sealed_view subdir c s) else sealed_view subdir c' s.
Proof.
  intros Hi Hc Hc' Hg. apply map_eq. intros x. rewrite sealed_view_lookup by (by apply remove_record_inv).
  unfold remove_record. cbn [sf_disk sf_dek with_disk d_files fs_remove_file].
  change (chat_dir s subdir (chat_hash sha256 c) ++ [hex g]) with (record_path s subdir c g).
  change (record_path (with_disk _ s)) with (record_path s).
  destruct (decide (length x = 32%nat)) as [Hx|Hx].
  2:{ case_decide; subst; [rewrite lookup_delete_ne by congruence|]; by rewrite sealed_view_lookup, decide_False. }
  destruct (decide (c = c')) as [<-|Hne]; [destruct (decide (g = x)) as [<-|Hgx]|].
  - by rewrite !lookup_delete_eq.
  - rewrite lookup_delete_ne by (intros [_ ?]%record_path_inj; done).
    rewrite lookup_delete_ne by done. by rewrite sealed_view_lookup, decide_True.
  - rewrite lookup_delete_ne by (intros [? _]%record_path_inj; done). by rewrite sealed_view_lookup, decide_True.
Qed.

#[export] Instance sealed_ok : OutboxStoreOk SealedFileStore (O:=sealed_outbox sha256).
Proof.
  refine {| os_inv := sealed_inv; os_chat c := c ∈ chats; os_view := sealed_view OUTBOX_SUBDIR |}.
  - intros s c Hi _. cbn. unfold sealed_view. symmetry. apply map_to_list_to_map. by apply load_NoDup.
  - intros. by apply put_record_inv.
  - intros. by apply remove_record_inv.
  - intros. by apply put_record_view.
  - intros. by apply remove_record_view.
Defined.

Lemma tmp_unseen (s : SealedFileStore) (dir : Path) (g b subdir chat : bytes) :
  sealed_inv s ->
  load_records sha256 subdir chat (with_disk (mkDisk (<[dir ++ [hex g ++ bstr ".tmp"] := b]> (d_files (sf_disk s))) (d_full (sf_disk s))) s) ≡ₚ
  load_records sha256 subdir chat s.
Proof.
  intros Hi. set (s' := with_disk _ s). assert (sealed_inv s') as Hi'.
  { destruct Hi as [H1 H2 H3]. split; [done|done|]. intros subdir' ch name blob gid H Hg. cbn in H.
    apply lookup_insert_Some in H as [[E _]|[_ H]]; [|by eapply H3].
    apply app_inj_2 in E as [_ [= <-]]; [|done]. by rewrite unhex32_tmp in Hg. }
  apply NoDup_Permutation.
  - by apply (NoDup_fmap_1 fst), load_NoDup.
  - by apply (NoDup_fmap_1 fst), load_NoDup.
  - intros [gid rec]. rewrite !elem_of_load by done. cbn [s' sf_disk sf_dek with_disk d_files].
    split; intros [Hl H]; (split; [done|]).
    + rewrite lookup_insert_ne in H; [done|]. intros E. symmetry in E. by apply record_path_tmp in E.
    + rewrite lookup_insert_ne; [done|]. intros E. symmetry in E. by apply record_path_tmp in E.
Qed.

(** The states a crash may leave of a put. *)
Lemma put_crash_states k subdir chat gid record (s : SealedFileStore) d' :
  sealed_inv s -> crashes (put_ops sha256 k subdir chat gid record s) (sf_disk s) d' ->
  d' = sf_disk s \/ with_disk d' s = put_record sha256 k subdir chat gid record s \/
  exists dir b, d' = mkDisk (<[dir ++ [hex gid ++ bstr ".tmp"] := b]> (d_files (sf_disk s))) (d_full (sf_disk s)).
Proof.
  intros Hi. unfold put_record. remember (put_ops sha256 k subdir chat gid record s) as ops eqn:Eo. unfold put_ops, fs_create_dir_all in Eo.
  rewrite (si_room s Hi) in Eo. cbn [negb] in Eo. destruct (aead_seal _ _ _ _) as [ct|]; subst ops; [|inversion 1; subst; by left].
  unfold write_atomic. rewrite tmp_path. inversion 1 as [|? ? ? ? n|o ops d d1 d2 Ho Hc]; subst; [by left|right; right; eauto|].
  cbn [fs_op] in Ho. inversion Hc as [|? ? ? ?|o ops d d3 d4 Hr Hc2]; subst.
  - unfold fs_write in Ho. rewrite (si_room s Hi) in Ho. injection Ho as <-. right; right. rewrite (si_room s Hi). eauto.
  - inversion Hc2; subst. right; left. cbn [fs_run]. unfold st_bind. cbn [fs_op] in *. rewrite Ho, Hr. done.
Qed.

(** C39: a crash during a write loses nothing and shows nothing by halves.  Stop the
    machine anywhere in the file operations of a put, also in the middle of writing a
    file with any part of its data there: every chat of every kind then loads exactly
    what it held before the put, or every one loads exactly what it holds after it. *)
Theorem write_crash_safe (k : coins) (subdir chat gid record : bytes) (s : SealedFileStore) (d' : Disk) :
  sealed_inv s -> crashes (put_ops sha256 k subdir chat gid record s) (sf_disk s) d' ->
  (forall subdir' chat', load_records sha256 subdir' chat' (with_disk d' s) ≡ₚ load_records sha256 subdir' chat' s) \/
  (forall subdir' chat', load_records sha256 subdir' chat' (with_disk d' s) =
     load_records sha256 subdir' chat' (put_record sha256 k subdir chat gid record s)).
Proof.
  intros Hi Hc. destruct (put_crash_states _ _ _ _ _ _ _ Hi Hc) as [->|[E|(dir & b & ->)]].
  - left. intros. by destruct s.
  - right. intros. by rewrite E.
  - left. intros. by apply tmp_unseen.
Qed.
End SealedOk.
