(* ===== verification/Outbox.v ===== *)
(** * The outbox and the keeper queues
      (crates/core/src/{outbox,keeper}.rs)

    Un-acknowledged frames, indexed in memory and kept in an [OutboxStore].  The
    theorems are proved against the store's interface: they hold of the
    in-memory store and of the sealed one alike. *)

From S2P Require Import Prelude Wire Crypto Frag Store.

(** The index of one chat (or recipient): ids with their time, oldest first. *)
Abbreviation Index := (list (bytes * Z)).

(** [if !v.iter().any(|(g, _)| *g == gid) { v.push((gid, now_secs)) }] *)
Definition index_add (gid : bytes) (now_secs : Z) (v : Index) : Index :=
  if existsb (fun x => bool_decide (x.1 = gid)) v then v else v ++ [(gid, now_secs)].

(** [now_secs.saturating_sub(t) > ttl] *)
Definition expired (ttl now_secs : Z) (x : bytes * Z) : bool := bool_decide (saturating_sub now_secs x.2 > ttl).

Section Queues.
Context `{P : Primitives} {S : Type} {O : OutboxStore S}.

(** [while v.len() > cap { let (old, _) = v.remove(0); store.remove(chat, old); dropped += 1 }] *)
Fixpoint evict_over (cap : Z) (chat : bytes) (v : Index) (s : S) : Z * Index * S :=
  match v with
  | [] => (0, [], s)
  | (old, t) :: v' =>
      if decide (zlen v > cap) then
        let '(dropped, v'', s') := evict_over cap chat v' (os_remove chat old s) in (dropped + 1, v'', s')
      else (0, v, s)
  end.

(** ** Outbox *)

Record Outbox : Type := mkOutbox {
  ob_store : S;
  ob_meta : gmap bytes Index;
  ob_cap : Z;
  ob_ttl_secs : Z }.

Definition outbox_new (store : S) (cap ttl_secs : Z) : Outbox := mkOutbox store ∅ cap ttl_secs.

Definition set_store (store : S) (o : Outbox) : Outbox := mkOutbox store (ob_meta o) (ob_cap o) (ob_ttl_secs o).

Definition rehydrate (chat : bytes) (now_secs : Z) (o : Outbox) : Outbox :=
  let persisted := os_load chat (ob_store o) in
  let v := foldl (fun v x => index_add x.1 now_secs v) (default [] (ob_meta o !! chat)) persisted in
  mkOutbox (ob_store o) (<[chat := v]> (ob_meta o)) (ob_cap o) (ob_ttl_secs o).

Definition enqueue (k : coins) (chat gid frame : bytes) (now_secs : Z) (o : Outbox) : Z * Outbox :=
  let store := os_put k chat gid frame (ob_store o) in
  let v := index_add gid now_secs (default [] (ob_meta o !! chat)) in
  let '(dropped, v, store) := evict_over (ob_cap o) chat v store in
  (dropped, mkOutbox store (<[chat := v]> (ob_meta o)) (ob_cap o) (ob_ttl_secs o)).

Definition ack (chat gid : bytes) (o : Outbox) : Outbox :=
  mkOutbox (os_remove chat gid (ob_store o))
    (alter (filter (fun x => x.1 <> gid)) chat (ob_meta o)) (ob_cap o) (ob_ttl_secs o).

Definition pending (chat : bytes) (o : Outbox) : list bytes := default [] ((fun v : Index => v.*1) <$> ob_meta o !! chat).

Definition due_for_resend (chat : bytes) (o : Outbox) : list (bytes * bytes) := os_load chat (ob_store o).

Definition evict_expired (chat : bytes) (now_secs : Z) (o : Outbox) : Z * Outbox :=
  match ob_meta o !! chat with
  | None => (0, o)
  | Some v =>
      let gone := (filter (fun x => expired (ob_ttl_secs o) now_secs x = true) v).*1 in
      let store := foldl (fun s g => os_remove chat g s) (ob_store o) gone in
      let v := filter (fun x => expired (ob_ttl_secs o) now_secs x = false) v in
      (zlen gone, mkOutbox store (<[chat := v]> (ob_meta o)) (ob_cap o) (ob_ttl_secs o))
  end.

(** ** Keeper *)

Record KeeperQueue : Type := mkKeeper {
  kq_store : S;
  kq_index : gmap bytes Index;
  kq_cap_per_peer : Z;
  kq_ttl_secs : Z }.

Definition keeper_new (store : S) (cap_per_peer ttl_secs : Z) : KeeperQueue := mkKeeper store ∅ cap_per_peer ttl_secs.

(** The store's chat key of a recipient. *)
Definition key (recipient : bytes) : bytes := hex recipient.

Definition buffer (k : coins) (recipient gid frame : bytes) (now_secs : Z) (q : KeeperQueue) : Z * KeeperQueue :=
  let store := os_put k (key recipient) gid frame (kq_store q) in
  let v := index_add gid now_secs (default [] (kq_index q !! recipient)) in
  let '(dropped, v, store) := evict_over (kq_cap_per_peer q) (key recipient) v store in
  (dropped, mkKeeper store (<[recipient := v]> (kq_index q)) (kq_cap_per_peer q) (kq_ttl_secs q)).

Definition drain (recipient : bytes) (q : KeeperQueue) : list (bytes * bytes) := os_load (key recipient) (kq_store q).

Definition digest (q : KeeperQueue) : list (bytes * bytes) :=
  map_to_list (kq_index q) ≫= fun x => (fun e => (e.1, x.1)) <$> x.2.

Definition frame_for (recipient gid : bytes) (q : KeeperQueue) : option bytes :=
  (fun x => x.2.2) <$> list_find (fun x : bytes * bytes => x.1 = gid) (os_load (key recipient) (kq_store q)).

Definition keeper_ack (recipient gid : bytes) (q : KeeperQueue) : KeeperQueue :=
  mkKeeper (os_remove (key recipient) gid (kq_store q))
    (alter (filter (fun x => x.1 <> gid)) recipient (kq_index q)) (kq_cap_per_peer q) (kq_ttl_secs q).

Definition keeper_evict_expired (recipient : bytes) (now_secs : Z) (q : KeeperQueue) : Z * KeeperQueue :=
  match kq_index q !! recipient with
  | None => (0, q)
  | Some v =>
      let gone := (filter (fun x => expired (kq_ttl_secs q) now_secs x = true) v).*1 in
      let store := foldl (fun s g => os_remove (key recipient) g s) (kq_store q) gone in
      let v := filter (fun x => expired (kq_ttl_secs q) now_secs x = false) v in
      (zlen gone, mkKeeper store (<[recipient := v]> (kq_index q)) (kq_cap_per_peer q) (kq_ttl_secs q))
  end.
End Queues.
Arguments Outbox : clear implicits.
Arguments KeeperQueue : clear implicits.

(** ** What a queue promises

    A queue is a list of entries, oldest first, one per id: adding an id it holds
    replaces the frame in place, and beyond the cap the oldest go. *)

Record Entry : Type := mkEntry { en_gid : bytes; en_time : Z; en_frame : bytes }.

Definition spec_add (gid : bytes) (now : Z) (frame : bytes) (l : list Entry) : list Entry :=
  if decide (gid ∈ en_gid <$> l)
  then (fun e => if decide (en_gid e = gid) then mkEntry gid (en_time e) frame else e) <$> l
  else l ++ [mkEntry gid now frame].
Definition spec_keep (cap : Z) (l : list Entry) : list Entry := drop (length l - Z.to_nat cap) l.
Definition spec_ack (gid : bytes) (l : list Entry) : list Entry := filter (fun e => en_gid e <> gid) l.
Definition spec_fresh (ttl now : Z) (l : list Entry) : list Entry :=
  filter (fun e => expired ttl now (en_gid e, en_time e) = false) l.

(** The index and the stored frames of a queue's entries. *)
Definition index_of (l : list Entry) : Index := (fun e => (en_gid e, en_time e)) <$> l.
Definition frames_of (l : list Entry) : gmap bytes bytes := list_to_map ((fun e => (en_gid e, en_frame e)) <$> l).

Lemma index_of_gids l : (index_of l).*1 = en_gid <$> l.
Proof. unfold index_of. by rewrite <- list_fmap_compose. Qed.

Lemma frames_of_lookup l g f :
  NoDup (en_gid <$> l) -> frames_of l !! g = Some f <-> exists t, mkEntry g t f ∈ l.
Proof.
  intros Hn. unfold frames_of. rewrite <- elem_of_list_to_map by (by rewrite <- list_fmap_compose).
  rewrite list_elem_of_fmap. split; [intros ([g' t f'] & [= -> ->] & ?); eauto|intros [t ?]; by exists (mkEntry g t f)].
Qed.

Lemma spec_add_index gid now frame l : index_of (spec_add gid now frame l) = index_add gid now (index_of l).
Proof.
  unfold spec_add, index_add. destruct (existsb _ (index_of l)) eqn:E.
  - apply existsb_exists in E as (x & Hx%list_elem_of_In & Hg%bool_decide_eq_true).
    rewrite decide_True; [|rewrite <- index_of_gids; apply list_elem_of_fmap; by exists x].
    unfold index_of. rewrite <- list_fmap_compose. apply list_fmap_ext. intros i e _. cbn. case_decide; cbn; congruence.
  - rewrite decide_False; [unfold index_of; by rewrite fmap_app|].
    intros Hi. rewrite <- index_of_gids in Hi. apply list_elem_of_fmap in Hi as (x & -> & Hx).
    apply not_true_iff_false in E. apply E, existsb_exists. exists x. split; [by apply list_elem_of_In|by apply bool_decide_eq_true].
Qed.

Lemma spec_add_gids gid now frame l :
  en_gid <$> spec_add gid now frame l = if decide (gid ∈ en_gid <$> l) then en_gid <$> l else (en_gid <$> l) ++ [gid].
Proof.
  unfold spec_add. case_decide as H; [|by rewrite fmap_app]. rewrite <- list_fmap_compose.
  apply list_fmap_ext. intros i e _. cbn. by case_decide.
Qed.

Lemma spec_add_NoDup gid now frame l : NoDup (en_gid <$> l) -> NoDup (en_gid <$> spec_add gid now frame l).
Proof.
  intros Hn. rewrite spec_add_gids. case_decide; [done|]. apply NoDup_app. split; [done|].
  split; [set_solver|apply NoDup_singleton].
Qed.

Lemma spec_add_frames gid now frame l :
  NoDup (en_gid <$> l) -> frames_of (spec_add gid now frame l) = <[gid := frame]> (frames_of l).
Proof.
  intros Hn. apply map_eq. intros g. apply option_eq. intros f.
  rewrite frames_of_lookup by (by apply spec_add_NoDup). unfold spec_add.
  destruct (decide (g = gid)) as [->|Hne].
  - rewrite lookup_insert_eq. case_decide as Hin; split.
    + intros [t (e & He & Hel)%list_elem_of_fmap]. case_decide; simplify_eq; done.
    + intros [= <-]. apply list_elem_of_fmap in Hin as (e & -> & He). exists (en_time e).
      apply list_elem_of_fmap. exists e. by rewrite decide_True.
    + intros [t [Hx|Hx]%elem_of_app]; [|apply list_elem_of_singleton in Hx; by simplify_eq].
      destruct Hin. apply list_elem_of_fmap. by exists (mkEntry gid t f).
    + intros [= <-]. exists now. set_solver.
  - rewrite lookup_insert_ne, frames_of_lookup by done. f_equiv. intros t. case_decide.
    + rewrite list_elem_of_fmap. split.
      * intros (e & He & Hel). case_decide; simplify_eq; done.
      * intros Hel. exists (mkEntry g t f). by rewrite decide_False.
    + rewrite elem_of_app, list_elem_of_singleton. naive_solver.
Qed.

Lemma filter_all {A} (Q : A -> Prop) `{!forall x, Decision (Q x)} l : Forall Q l -> filter Q l = l.
Proof. induction 1 as [|x l Hx _ IH]; [done|]. rewrite filter_cons, decide_True by done. by rewrite IH. Qed.

Lemma zlen_filter {A} (Q : A -> Prop) `{!forall x, Decision (Q x)} l : zlen (filter Q l) <= zlen l.
Proof. unfold zlen. apply inj_le, length_filter. Qed.

Lemma Forall_filter {A} (Q R : A -> Prop) `{!forall x, Decision (Q x)} l : Forall R l -> Forall R (filter Q l).
Proof. rewrite !Forall_forall. intros Hr x [_ Hx]%list_elem_of_filter. auto. Qed.

(** Filtering entries filters both halves. *)
Lemma filter_index (Q : Entry -> Prop) (R : bytes * Z -> Prop) `{!forall e, Decision (Q e), !forall x, Decision (R x)} l :
  (forall e, Q e <-> R (en_gid e, en_time e)) -> index_of (filter Q l) = filter R (index_of l).
Proof.
  intros Hq. induction l as [|e l IH]; [done|].
  change (index_of (e :: l)) with ((en_gid e, en_time e) :: index_of l). rewrite !filter_cons.
  destruct (decide (Q e)); [rewrite decide_True by (by apply Hq)|rewrite decide_False by (by rewrite <- Hq)]; rewrite <- IH; done.
Qed.

Lemma filter_gids_NoDup (Q : Entry -> Prop) `{!forall e, Decision (Q e)} l :
  NoDup (en_gid <$> l) -> NoDup (en_gid <$> filter Q l).
Proof. intros Hn. eapply sublist_NoDup; [exact Hn|]. by apply fmap_sublist, sublist_filter. Qed.

Lemma ack_frames gid l : NoDup (en_gid <$> l) -> frames_of (spec_ack gid l) = delete gid (frames_of l).
Proof.
  intros Hn. apply map_eq. intros g. apply option_eq. intros f. unfold spec_ack.
  rewrite frames_of_lookup by (by apply filter_gids_NoDup). rewrite lookup_delete_Some, frames_of_lookup by done.
  split; [intros [t [? ?]%list_elem_of_filter]; eauto|]. intros [Hne [t ?]]. exists t. by apply list_elem_of_filter.
Qed.

(** ** The queues refine the specification *)

Section Refine.
Context `{P : Primitives} {S : Type} {O : OutboxStore S} {OOk : OutboxStoreOk S}.

(** The store holds, for chat [c], the frames of the entries [l], and the index is theirs. *)
Record holds (c : bytes) (s : S) (v : Index) (l : list Entry) : Prop := {
  ho_index : v = index_of l;
  ho_nodup : NoDup (en_gid <$> l);
  ho_gids : Forall (fun e => length (en_gid e) = 32%nat) l;
  ho_view : os_view c s = frames_of l }.

Lemma holds_add k c gid frame now s v l :
  os_inv s -> os_chat c -> length gid = 32%nat -> zlen frame <= 2 ^ 32 -> holds c s v l ->
  holds c (os_put k c gid frame s) (index_add gid now v) (spec_add gid now frame l).
Proof.
  intros Hi Hc Hg Hf [-> Hn Hgs Hv]. split.
  - by rewrite spec_add_index.
  - by apply spec_add_NoDup.
  - apply (Forall_fmap en_gid (fun g : bytes => length g = 32%nat)). rewrite spec_add_gids.
    apply (Forall_fmap en_gid (fun g : bytes => length g = 32%nat)) in Hgs.
    case_decide; [done|]. apply Forall_app. split; [done|by constructor].
  - rewrite os_put_view by done. rewrite decide_True by done. rewrite Hv. symmetry. by apply spec_add_frames.
Qed.

Lemma spec_ack_notin gid l : gid ∉ en_gid <$> l -> spec_ack gid l = l.
Proof.
  intros H. unfold spec_ack. apply filter_all. apply Forall_forall. intros e He E. apply H.
  apply list_elem_of_fmap. by exists e.
Qed.

Lemma holds_ack c gid s v l :
  os_inv s -> os_chat c -> length gid = 32%nat -> holds c s v l ->
  holds c (os_remove c gid s) (filter (fun x => x.1 <> gid) v) (spec_ack gid l).
Proof.
  intros Hi Hc Hg [-> Hn Hgs Hv]. split.
  - symmetry. by apply filter_index.
  - by apply filter_gids_NoDup.
  - by apply Forall_filter.
  - rewrite os_remove_view by done. rewrite decide_True by done. rewrite Hv. symmetry. by apply ack_frames.
Qed.

Lemma spec_ack_head gid t f l : NoDup (en_gid <$> (mkEntry gid t f :: l)) -> spec_ack gid (mkEntry gid t f :: l) = l.
Proof.
  intros H. cbn in H. apply NoDup_cons in H as [H _]. unfold spec_ack. rewrite filter_cons, decide_False by (cbn; auto).
  by apply spec_ack_notin.
Qed.

Lemma evict_over_spec cap c s v l :
  os_inv s -> os_chat c -> 0 <= cap -> holds c s v l ->
  exists s', evict_over cap c v s = (zlen l - zlen (spec_keep cap l), index_of (spec_keep cap l), s') /\
    os_inv s' /\ holds c s' (index_of (spec_keep cap l)) (spec_keep cap l) /\
    (forall c', os_chat c' -> c <> c' -> os_view c' s' = os_view c' s).
Proof.
  intros Hi Hc H0 Hh. revert s v Hi Hh. induction l as [|[g t f] l IH]; intros s v Hi Hh.
  { destruct Hh as [-> ? ? ?]. exists s. done. }
  pose proof Hh as [-> Hn Hgs Hv]. unfold spec_keep. cbn [index_of fmap list_fmap evict_over en_gid en_time].
  change ((g, t) :: ((fun e => (en_gid e, en_time e)) <$> l)) with (index_of (mkEntry g t f :: l)).
  assert (zlen (index_of (mkEntry g t f :: l)) = 1 + zlen l) as -> by (unfold zlen, index_of; rewrite length_fmap; cbn; lia).
  case_decide as Hcap.
  - apply Forall_cons in Hgs as Hg. destruct Hg as [Hg _]. cbn in Hg.
    pose proof (holds_ack c g s _ _ Hi Hc Hg Hh) as Hh'. rewrite spec_ack_head in Hh' by done.
    destruct (IH _ _ (os_remove_inv c g s Hi) Hh') as (s' & E & Hi' & Hs' & Hf).
    destruct Hh' as [Ev _ _ _]. rewrite Ev in E. unfold index_of at 1 in E. rewrite E.
    replace (length (mkEntry g t f :: l) - Z.to_nat cap)%nat with (Datatypes.S (length l - Z.to_nat cap)) by (unfold zlen in *; cbn; lia).
    cbn [drop]. fold (spec_keep cap l). exists s'. split; [f_equal; f_equal; unfold zlen; cbn; lia|].
    split; [done|]. split; [done|]. intros c' Hc' Hne. rewrite Hf by done. rewrite os_remove_view by done. by rewrite decide_False.
  - replace (length (mkEntry g t f :: l) - Z.to_nat cap)%nat with 0%nat by (unfold zlen in *; cbn; lia).
    cbn [drop]. exists s. split; [f_equal; f_equal; lia|]. done.
Qed.

Lemma holds_evict_all c s v l gone :
  os_inv s -> os_chat c -> Forall (fun g => length g = 32%nat) gone -> holds c s v l ->
  let s' := foldl (fun s g => os_remove c g s) s gone in
  let keep := filter (fun e => en_gid e ∉ gone) l in
  os_inv s' /\ holds c s' (index_of keep) keep /\ (forall c', os_chat c' -> c <> c' -> os_view c' s' = os_view c' s).
Proof.
  intros Hi Hc Hg Hh. cbn zeta. revert s v l Hi Hh. induction gone as [|g gone IH]; intros s v l Hi Hh.
  { cbn. rewrite filter_all by (apply Forall_forall; intros e _; apply not_elem_of_nil).
    destruct Hh as [-> ? ? ?]. done. }
  apply Forall_cons in Hg as [Hg Hgs]. cbn [foldl].
  destruct (IH Hgs _ _ _ (os_remove_inv c g s Hi) (holds_ack c g s v l Hi Hc Hg Hh)) as (H1 & H2 & H3).
  assert (filter (fun e => en_gid e ∉ gone) (spec_ack g l) = filter (fun e => en_gid e ∉ g :: gone) l) as E.
  { unfold spec_ack. rewrite list_filter_filter. apply list_filter_iff. intros e. rewrite elem_of_cons. naive_solver. }
  rewrite E in H2. split; [done|]. split; [done|].
  intros c' Hc' Hne. rewrite H3 by done. rewrite os_remove_view by done. by rewrite decide_False.
Qed.

(** Evicting the expired ids leaves the fresh entries. *)
Lemma evict_fresh ttl now l :
  NoDup (en_gid <$> l) ->
  filter (fun e => en_gid e ∉ (filter (fun x => expired ttl now x = true) (index_of l)).*1) l = spec_fresh ttl now l.
Proof.
  intros Hn. unfold spec_fresh.
  assert (forall e, e ∈ l -> (en_gid e ∉ (filter (fun x => expired ttl now x = true) (index_of l)).*1 <->
    expired ttl now (en_gid e, en_time e) = false)) as H.
  { intros e He. rewrite <- not_true_iff_false. f_equiv. rewrite list_elem_of_fmap. split.
    - intros ([g t] & Hgt & [Hx Hi]%list_elem_of_filter). cbn in Hgt. subst g. unfold index_of in Hi.
      apply list_elem_of_fmap in Hi as (e' & [= Hg ->] & He').
      assert (e = e') as ->; [|done].
      apply list_elem_of_lookup_1 in He as [i Hi]. apply list_elem_of_lookup_1 in He' as [j Hj].
      assert (i = j) as ->; [|congruence].
      eapply (NoDup_lookup (en_gid <$> l)); [done|rewrite list_lookup_fmap, Hi; done|rewrite list_lookup_fmap, Hj; cbn; congruence].
    - intros Hx. exists (en_gid e, en_time e). split; [done|]. apply list_elem_of_filter. split; [done|].
      unfold index_of. apply list_elem_of_fmap. by exists e. }
  clear Hn. revert H. generalize ((filter (fun x => expired ttl now x = true) (index_of l)).*1) as gone. intros gone.
  induction l as [|e l IH]; intros H; [done|]. rewrite !filter_cons.
  rewrite IH by (intros e' He'; apply H; by right). specialize (H e ltac:(by left)).
  by destruct (decide (en_gid e ∉ gone)), (decide (expired ttl now (en_gid e, en_time e) = false)); try naive_solver.
Qed.

(** One addition and one expiry, on the index and the store of a chat; other
    chats keep their frames. *)
Lemma add_step k cap c gid frame now s v l :
  os_inv s -> os_chat c -> length gid = 32%nat -> zlen frame <= 2 ^ 32 -> 0 <= cap -> holds c s v l ->
  let l1 := spec_add gid now frame l in let l' := spec_keep cap l1 in
  exists s', evict_over cap c (index_add gid now v) (os_put k c gid frame s) = (zlen l1 - zlen l', index_of l', s') /\
    os_inv s' /\ holds c s' (index_of l') l' /\ (forall c', os_chat c' -> c <> c' -> os_view c' s' = os_view c' s).
Proof.
  intros Hi Hc Hg Hf H0 Hh l1 l'. pose proof (holds_add k c gid frame now s v l Hi Hc Hg Hf Hh) as Hh1. fold l1 in Hh1.
  destruct (evict_over_spec cap c _ _ l1 (os_put_inv k c gid frame s Hi) Hc H0 Hh1) as (s' & E & Hi' & Hs' & Hfr).
  exists s'. split; [exact E|]. split; [done|]. split; [done|]. intros c' Hc' Hne.
  rewrite Hfr by done. rewrite os_put_view by done. by rewrite decide_False.
Qed.

Lemma expire_step c ttl now s v l :
  os_inv s -> os_chat c -> holds c s v l ->
  let gone := (filter (fun x => expired ttl now x = true) v).*1 in
  let s' := foldl (fun s g => os_remove c g s) s gone in
  let l' := spec_fresh ttl now l in
  zlen gone = zlen l - zlen l' /\ filter (fun x => expired ttl now x = false) v = index_of l' /\
  os_inv s' /\ holds c s' (index_of l') l' /\ (forall c', os_chat c' -> c <> c' -> os_view c' s' = os_view c' s).
Proof.
  intros Hi Hc Hh gone s' l'. pose proof Hh as [-> Hn Hgs Hv].
  assert (Forall (fun g : bytes => length g = 32%nat) gone) as Hgone.
  { unfold gone. apply Forall_fmap, Forall_filter. unfold index_of. apply Forall_fmap. exact Hgs. }
  destruct (holds_evict_all c s _ l gone Hi Hc Hgone Hh) as (H1 & H2 & H3).
  unfold gone in H2. rewrite evict_fresh in H2 by done. split; [|split; [by symmetry; apply filter_index|done]].
  unfold gone, l', spec_fresh. clear. unfold zlen. rewrite length_fmap. induction l as [|e l IH]; [done|].
  change (index_of (e :: l)) with ((en_gid e, en_time e) :: index_of l). rewrite !filter_cons.
  destruct (expired ttl now (en_gid e, en_time e)) eqn:E.
  - rewrite decide_True, decide_False by done. cbn [length]. lia.
  - rewrite decide_False, decide_True by done. cbn [length]. lia.
Qed.

(** ** Runs *)

Inductive OutboxOp : Type :=
| OpEnqueue (k : coins) (chat gid frame : bytes) (now : Z)
| OpAck (chat gid : bytes)
| OpExpire (chat : bytes) (now : Z).

Definition op_ok (op : OutboxOp) : Prop :=
  match op with
  | OpEnqueue _ c g f _ => os_chat c /\ length g = 32%nat /\ zlen f <= 2 ^ 32
  | OpAck c g => os_chat c /\ length g = 32%nat
  | OpExpire c _ => os_chat c
  end.

Definition ob_step (op : OutboxOp) (o : Outbox S) : Z * Outbox S :=
  match op with
  | OpEnqueue k c g f now => enqueue k c g f now o
  | OpAck c g => (0, ack c g o)
  | OpExpire c now => evict_expired c now o
  end.

(** The specification: a queue per chat. *)
Abbreviation Spec := (gmap bytes (list Entry)).
Definition queue (a : Spec) (c : bytes) : list Entry := default [] (a !! c).

Definition spec_step (cap ttl : Z) (op : OutboxOp) (a : Spec) : Z * Spec :=
  let update c l' := (zlen (queue a c) - zlen l', <[c := l']> a) in
  match op with
  | OpEnqueue _ c g f now =>
      let l1 := spec_add g now f (queue a c) in
      let l' := spec_keep cap l1 in (zlen l1 - zlen l', <[c := l']> a)
  | OpAck c g => (0, <[c := spec_ack g (queue a c)]> a)
  | OpExpire c now => update c (spec_fresh ttl now (queue a c))
  end.

Fixpoint ob_run (ops : list OutboxOp) (o : Outbox S) : list Z * Outbox S :=
  match ops with
  | [] => ([], o)
  | op :: ops => let '(r, o) := ob_step op o in let '(rs, o) := ob_run ops o in (r :: rs, o)
  end.
Fixpoint spec_run (cap ttl : Z) (ops : list OutboxOp) (a : Spec) : list Z * Spec :=
  match ops with
  | [] => ([], a)
  | op :: ops => let '(r, a) := spec_step cap ttl op a in let '(rs, a) := spec_run cap ttl ops a in (r :: rs, a)
  end.

(** The simulation: every chat holds its queue, within the cap. *)
Record simulates (o : Outbox S) (a : Spec) : Prop := {
  sim_inv : os_inv (ob_store o);
  sim_cap : 0 <= ob_cap o;
  sim_queue c : os_chat c -> holds c (ob_store o) (default [] (ob_meta o !! c)) (queue a c) /\ zlen (queue a c) <= ob_cap o }.

Lemma queue_insert a c l c' : queue (<[c := l]> a) c' = if decide (c = c') then l else queue a c'.
Proof. unfold queue. case_decide; subst; [by rewrite lookup_insert_eq|by rewrite lookup_insert_ne]. Qed.

(** Updating one chat keeps the simulation when the others keep their frames. *)
Lemma simulates_update o a c s' l' :
  simulates o a -> os_inv s' -> holds c s' (index_of l') l' -> zlen l' <= ob_cap o ->
  (forall c', os_chat c' -> c <> c' -> os_view c' s' = os_view c' (ob_store o)) ->
  simulates (mkOutbox s' (<[c := index_of l']> (ob_meta o)) (ob_cap o) (ob_ttl_secs o)) (<[c := l']> a).
Proof.
  intros [Hi H0 Hq] Hi' Hh Hl Hf. split; [done|done|]. intros c' Hc'. cbn [ob_store ob_meta ob_cap]. rewrite queue_insert.
  case_decide as E; subst; [by rewrite lookup_insert_eq|]. rewrite lookup_insert_ne by done.
  destruct (Hq c' Hc') as [[E1 E2 E3 E4] Hz]. split; [|done]. split; [done..|]. by rewrite Hf.
Qed.

Lemma spec_keep_len cap l : 0 <= cap -> zlen (spec_keep cap l) <= cap.
Proof. intros. unfold spec_keep, zlen. rewrite length_drop. lia. Qed.

Lemma ob_step_simulates op o a :
  simulates o a -> op_ok op ->
  (ob_step op o).1 = (spec_step (ob_cap o) (ob_ttl_secs o) op a).1 /\
  simulates (ob_step op o).2 (spec_step (ob_cap o) (ob_ttl_secs o) op a).2 /\
  ob_cap (ob_step op o).2 = ob_cap o /\ ob_ttl_secs (ob_step op o).2 = ob_ttl_secs o.
Proof.
  intros Hs Hok. pose proof Hs as [Hi H0 Hq]. destruct op as [k c g f now|c g|c now].
  - destruct Hok as (Hc & Hg & Hf). destruct (Hq c Hc) as [Hh Hz].
    destruct (add_step k (ob_cap o) c g f now _ _ _ Hi Hc Hg Hf H0 Hh) as (s' & E & Hi' & Hh' & Hfr).
    cbn [ob_step spec_step]. unfold enqueue. rewrite E. cbn [fst snd]. split; [done|]. split; [|done].
    apply simulates_update; [done|done|done|by apply spec_keep_len|done].
  - destruct Hok as (Hc & Hg). destruct (Hq c Hc) as [Hh Hz].
    pose proof (holds_ack c g _ _ _ Hi Hc Hg Hh) as Hh'. cbn [ob_step spec_step fst snd]. split; [done|]. split; [|done].
    assert (ack c g o = mkOutbox (os_remove c g (ob_store o))
      (alter (filter (fun x => x.1 <> g)) c (ob_meta o)) (ob_cap o) (ob_ttl_secs o)) as -> by done.
    split; [by apply os_remove_inv|done|]. intros c' Hc'. cbn [ob_store ob_meta ob_cap]. rewrite queue_insert. case_decide as E.
    + subst c'. rewrite lookup_alter_eq. destruct (ob_meta o !! c) as [v|] eqn:Ev; cbn in *.
      * split; [done|]. etrans; [apply zlen_filter|exact Hz].
      * split; [done|]. etrans; [apply zlen_filter|exact Hz].
    + rewrite lookup_alter_ne by done. destruct (Hq c' Hc') as [[E1 E2 E3 E4] Hz']. split; [|done]. split; [done..|].
      rewrite os_remove_view by done. by rewrite decide_False.
  - cbn in Hok. destruct (Hq c Hok) as [Hh Hz].
    cbn [ob_step spec_step]. unfold evict_expired. destruct (ob_meta o !! c) as [v|] eqn:Ev.
    + change (default [] (Some v)) with v in Hh. destruct (expire_step c (ob_ttl_secs o) now _ _ _ Hi Hok Hh) as (E1 & E2 & Hi' & Hh' & Hfr).
      cbn [fst snd]. rewrite E1, E2. split; [done|]. split; [|done].
      apply simulates_update; [done|done|done| |done].
      etrans; [apply zlen_filter|exact Hz].
    + change (default [] None) with (@nil (bytes * Z)) in Hh. cbn [fst snd]. destruct Hh as [E _ _ _]. assert (queue a c = []) as -> by (by destruct (queue a c)).
      cbn. split; [done|]. split; [|done]. split; [done|done|]. intros c' Hc'. rewrite queue_insert.
      case_decide; subst; [|by apply Hq]. rewrite Ev. destruct (Hq c' Hc') as [Hh' Hz']. rewrite Ev in Hh'.
      destruct Hh' as [E' _ _ E4]. assert (queue a c' = []) as Hq0 by (by destruct (queue a c')). rewrite Hq0 in E4.
      split; [|done]. split; [done|apply NoDup_nil_2|constructor|done].
Qed.

Lemma ob_run_simulates ops o a :
  simulates o a -> Forall op_ok ops ->
  (ob_run ops o).1 = (spec_run (ob_cap o) (ob_ttl_secs o) ops a).1 /\
  simulates (ob_run ops o).2 (spec_run (ob_cap o) (ob_ttl_secs o) ops a).2.
Proof.
  revert o a. induction ops as [|op ops IH]; intros o a Hs Hok; [done|]. apply Forall_cons in Hok as [Hop Hok].
  destruct (ob_step_simulates op o a Hs Hop) as (E1 & Hs1 & Ec & Et). cbn [ob_run spec_run].
  destruct (ob_step op o) as [r o1]. destruct (spec_step _ _ op a) as [r' a1]. cbn [fst snd] in *. subst r'.
  destruct (IH o1 a1 Hs1 Hok) as [E2 Hs2]. rewrite Ec, Et in *.
  destruct (ob_run ops o1) as [rs o2]. destruct (spec_run _ _ ops a1) as [rs' a2]. cbn in *. by subst.
Qed.

Lemma simulates_new store cap ttl :
  os_inv store -> 0 <= cap -> (forall c, os_chat c -> os_view c store = ∅) ->
  simulates (outbox_new store cap ttl) ∅.
Proof.
  intros Hi H0 Hv. split; [done|done|]. intros c Hc. cbn. unfold queue. rewrite !lookup_empty. cbn. split; [|done].
  split; [done|apply NoDup_nil_2|constructor|by apply Hv].
Qed.

Lemma simulates_pending o a c : simulates o a -> os_chat c -> pending c o = en_gid <$> queue a c.
Proof.
  intros Hs Hc. destruct (sim_queue _ _ Hs c Hc) as [[E _ _ _] _]. unfold pending. rewrite <- index_of_gids, <- E.
  by destruct (ob_meta o !! c).
Qed.

Lemma simulates_resend o a c :
  simulates o a -> os_chat c -> due_for_resend c o ≡ₚ (fun e => (en_gid e, en_frame e)) <$> queue a c.
Proof.
  intros Hs Hc. destruct (sim_queue _ _ Hs c Hc) as [[_ Hn _ Hv] _]. unfold due_for_resend.
  rewrite os_load_view, Hv by (done || apply Hs). unfold frames_of. rewrite map_to_list_to_map; [done|].
  by rewrite <- list_fmap_compose.
Qed.

(** C24: the outbox is a bounded queue of un-acknowledged frames.  For any store
    that keeps the interface's laws and any run of sends, acknowledgements and
    expiries on any chats, the outbox reports the drop counts of the abstract
    queue, what is pending is exactly that queue's ids in order and within the
    cap, and what a reconnect re-sends is exactly its frames: nothing
    un-acknowledged is lost but by cap or age, nothing acknowledged comes back. *)
Theorem outbox_refines (store : S) (cap ttl : Z) (ops : list OutboxOp) :
  os_inv store -> 0 <= cap -> (forall c, os_chat c -> os_view c store = ∅) -> Forall op_ok ops ->
  let '(counts, o) := ob_run ops (outbox_new store cap ttl) in
  let '(spec_counts, a) := spec_run cap ttl ops ∅ in
  counts = spec_counts /\
  forall c, os_chat c ->
    pending c o = en_gid <$> queue a c /\ zlen (pending c o) <= cap /\
    due_for_resend c o ≡ₚ (fun e => (en_gid e, en_frame e)) <$> queue a c.
Proof.
  intros Hi H0 Hv Hok.
  destruct (ob_run_simulates ops _ _ (simulates_new store cap ttl Hi H0 Hv) Hok) as [E Hs]. cbn [ob_cap ob_ttl_secs outbox_new] in E, Hs.
  assert (ob_cap (ob_run ops (outbox_new store cap ttl)).2 = cap) as Hcap.
  { assert (forall ops o, ob_cap (ob_run ops o).2 = ob_cap o) as H; [|by rewrite H].
    clear. induction ops as [|op ops IH]; intros o; [done|]. cbn [ob_run].
    assert (ob_cap (ob_step op o).2 = ob_cap o) as Ho.
    { destruct op; cbn; [unfold enqueue; by destruct (evict_over _ _ _ _) as [[]]|done|].
      unfold evict_expired. by destruct (ob_meta o !! chat). }
    destruct (ob_step op o) as [r o1]. specialize (IH o1). destruct (ob_run ops o1). cbn in *. congruence. }
  destruct (ob_run ops _) as [cs o]. destruct (spec_run cap ttl ops ∅) as [cs' a]. cbn [fst snd] in *. split; [done|].
  intros c Hc. rewrite (simulates_pending o a c Hs Hc). split; [done|]. split; [|by apply simulates_resend].
  unfold zlen. rewrite length_fmap. fold (zlen (queue a c)). rewrite <- Hcap. by apply (sim_queue _ _ Hs).
Qed.

(** ** Restart *)

Lemma rehydrate_index now (l : list (bytes * bytes)) v :
  NoDup (v.*1 ++ l.*1) ->
  foldl (fun v x => index_add x.1 now v) v l = v ++ ((fun x => (x.1, now)) <$> l).
Proof.
  revert v. induction l as [|[g f] l IH]; intros v Hn; [by rewrite app_nil_r|]. cbn [foldl fst].
  assert (index_add g now v = v ++ [(g, now)]) as ->.
  { unfold index_add. destruct (existsb _ v) eqn:E; [|done]. apply existsb_exists in E as (x & Hx & Hg%bool_decide_eq_true).
    apply NoDup_app in Hn as (_ & Hn & _). destruct (Hn g); [|cbn; set_solver]. apply list_elem_of_fmap. exists x.
    split; [done|by apply list_elem_of_In]. }
  rewrite IH; [by rewrite <- (assoc (++))|]. rewrite fmap_app, <- (assoc (++)). exact Hn.
Qed.

(** Un-acknowledged frames survive a restart.  After any such run, a fresh
    outbox over the same store that rehydrates a chat has pending exactly the ids
    the old one had, in some order, with their frames ready to re-send, and
    rehydrating again changes nothing. *)
Lemma restart_recovers (store : S) (cap ttl : Z) (ops : list OutboxOp) (c : bytes) (cap' ttl' now now' : Z) :
  os_inv store -> 0 <= cap -> (forall c, os_chat c -> os_view c store = ∅) -> Forall op_ok ops -> os_chat c ->
  let o := (ob_run ops (outbox_new store cap ttl)).2 in
  let o' := rehydrate c now (outbox_new (ob_store o) cap' ttl') in
  pending c o' ≡ₚ pending c o /\ due_for_resend c o' = due_for_resend c o /\
  pending c (rehydrate c now' o') = pending c o'.
Proof.
  intros Hi H0 Hv Hok Hc o o'.
  destruct (ob_run_simulates ops _ _ (simulates_new store cap ttl Hi H0 Hv) Hok) as [_ Hs]. fold o in Hs.
  set (a := (spec_run _ _ ops ∅).2) in Hs.
  pose proof (simulates_resend o a c Hs Hc) as Hr. pose proof (ho_nodup _ _ _ _ (proj1 (sim_queue _ _ Hs c Hc))) as Hn.
  assert ((os_load c (ob_store o)).*1 ≡ₚ en_gid <$> queue a c) as Hg.
  { unfold due_for_resend in Hr. rewrite Hr, <- list_fmap_compose. done. }
  assert (NoDup (os_load c (ob_store o)).*1) as Hl by (by rewrite Hg).
  assert (pending c o' = (os_load c (ob_store o)).*1) as Hp.
  { unfold pending, o', rehydrate. cbn [ob_meta outbox_new ob_store]. rewrite lookup_insert_eq, lookup_empty.
    rewrite rehydrate_index by done. cbn. rewrite <- list_fmap_compose. done. }
  split; [by rewrite Hp, Hg, (simulates_pending o a c Hs Hc)|]. split; [done|].
  unfold pending in *. unfold rehydrate at 1. cbn [ob_meta]. rewrite lookup_insert_eq. cbn [fmap option_fmap option_map default].
  assert (forall (l : list (bytes * bytes)) v, l.*1 ⊆ v.*1 -> foldl (fun v x => index_add x.1 now' v) v l = v) as Hid.
  { clear. induction l as [|[g f] l IH]; intros v Hs; [done|]. cbn [foldl fst].
    assert (index_add g now' v = v) as ->; [|apply IH; cbn in Hs; set_solver]. unfold index_add.
    assert (g ∈ v.*1) as (x & -> & Hx)%list_elem_of_fmap by (apply Hs; left).
    assert (existsb (fun y => bool_decide (y.1 = x.1)) v = true) as ->; [|done].
    apply existsb_exists. exists x. split; [by apply list_elem_of_In|by apply bool_decide_eq_true]. }
  rewrite Hid; [by destruct (ob_meta o' !! c)|]. cbn [ob_store o' rehydrate outbox_new].
  rewrite <- Hp. by destruct (ob_meta o' !! c).
Qed.
End Refine.
