(* ===== verification/Forward.v ===== *)
(** * Store and forward
      (crates/core/src/engine.rs: deduplication, group messages, outbox, keeper,
      anchor mailbox and queue synchronisation)

    A [FwdNode] is an engine node with the fields of [Inner] these handlers use.
    Connected peers are their fingerprints; a payload written straight to a peer
    is logged in [fw_raw], a frame given to [route] in the node's [n_sent].  The
    presence, linkage and vouch payloads of group messages are handed over to
    handlers outside this model. *)

From S2P Require Import Prelude Wire Crypto Hybrid Ratchet TreeNode TreeCodec TreeKem Marking Frames Engine Frag Store Outbox.

(** ** Deduplication *)

Record SeenSet : Type := mkSeen { ss_order : list bytes; ss_set : gset bytes }.

Definition SEEN_CAP : Z := 4096.
Definition seen_new : SeenSet := mkSeen [] ∅.

Definition seen_insert (id : bytes) (s : SeenSet) : bool * SeenSet :=
  if decide (id ∈ ss_set s) then (false, s)
  else
    let set := {[id]} ∪ ss_set s in
    let order := ss_order s ++ [id] in
    if decide (zlen order > SEEN_CAP) then
      match order with
      | old :: order' => (true, mkSeen order' (set ∖ {[old]}))
      | [] => (true, mkSeen order set)
      end
    else (true, mkSeen order set).

(** ** The node *)

Definition LINKAGE_SENTINEL : Z := 0xF6.
Definition VOUCH_SENTINEL : Z := 0xF7.
Definition PRESENCE_SENTINEL : Z := 0xF5.

Inductive Handed : Type :=
| HPresence (sender body : bytes)
| HLinkage (sender body : bytes)
| HVouch (sender body : bytes)
| HNameTag (sender tag : bytes).

Section Forward.
Context {P : Primitives} {S : Type} {O : OutboxStore S} (sha256 : bytes -> bytes).

Record FwdNode : Type := mkFwd {
  fw_node : GroupNode;
  fw_channel : bytes;                    (** [descriptor.channel] *)
  fw_relayed : bool;
  fw_gossip : bool;
  fw_keeper_enabled : bool;
  fw_anchor_enabled : bool;
  fw_peers : list bytes;
  fw_seen : SeenSet;
  fw_outbox : Outbox S;
  fw_keeper : KeeperQueue InMemoryOutbox;
  fw_mailbox : KeeperQueue InMemoryOutbox;
  fw_qs_sent : gset bytes;
  fw_raw : list (bytes * bytes);
  fw_handed : list Handed }.

Definition with_node (x : GroupNode) (n : FwdNode) : FwdNode :=
  mkFwd x (fw_channel n) (fw_relayed n) (fw_gossip n) (fw_keeper_enabled n) (fw_anchor_enabled n) (fw_peers n)
    (fw_seen n) (fw_outbox n) (fw_keeper n) (fw_mailbox n) (fw_qs_sent n) (fw_raw n) (fw_handed n).
Definition with_seen (x : SeenSet) (n : FwdNode) : FwdNode :=
  mkFwd (fw_node n) (fw_channel n) (fw_relayed n) (fw_gossip n) (fw_keeper_enabled n) (fw_anchor_enabled n) (fw_peers n)
    x (fw_outbox n) (fw_keeper n) (fw_mailbox n) (fw_qs_sent n) (fw_raw n) (fw_handed n).
Definition with_outbox (x : Outbox S) (n : FwdNode) : FwdNode :=
  mkFwd (fw_node n) (fw_channel n) (fw_relayed n) (fw_gossip n) (fw_keeper_enabled n) (fw_anchor_enabled n) (fw_peers n)
    (fw_seen n) x (fw_keeper n) (fw_mailbox n) (fw_qs_sent n) (fw_raw n) (fw_handed n).
Definition with_keeper (x : KeeperQueue InMemoryOutbox) (n : FwdNode) : FwdNode :=
  mkFwd (fw_node n) (fw_channel n) (fw_relayed n) (fw_gossip n) (fw_keeper_enabled n) (fw_anchor_enabled n) (fw_peers n)
    (fw_seen n) (fw_outbox n) x (fw_mailbox n) (fw_qs_sent n) (fw_raw n) (fw_handed n).
Definition with_mailbox (x : KeeperQueue InMemoryOutbox) (n : FwdNode) : FwdNode :=
  mkFwd (fw_node n) (fw_channel n) (fw_relayed n) (fw_gossip n) (fw_keeper_enabled n) (fw_anchor_enabled n) (fw_peers n)
    (fw_seen n) (fw_outbox n) (fw_keeper n) x (fw_qs_sent n) (fw_raw n) (fw_handed n).
Definition with_qs_sent (x : gset bytes) (n : FwdNode) : FwdNode :=
  mkFwd (fw_node n) (fw_channel n) (fw_relayed n) (fw_gossip n) (fw_keeper_enabled n) (fw_anchor_enabled n) (fw_peers n)
    (fw_seen n) (fw_outbox n) (fw_keeper n) (fw_mailbox n) x (fw_raw n) (fw_handed n).
Definition with_raw (x : list (bytes * bytes)) (n : FwdNode) : FwdNode :=
  mkFwd (fw_node n) (fw_channel n) (fw_relayed n) (fw_gossip n) (fw_keeper_enabled n) (fw_anchor_enabled n) (fw_peers n)
    (fw_seen n) (fw_outbox n) (fw_keeper n) (fw_mailbox n) (fw_qs_sent n) x (fw_handed n).
Definition with_handed (x : list Handed) (n : FwdNode) : FwdNode :=
  mkFwd (fw_node n) (fw_channel n) (fw_relayed n) (fw_gossip n) (fw_keeper_enabled n) (fw_anchor_enabled n) (fw_peers n)
    (fw_seen n) (fw_outbox n) (fw_keeper n) (fw_mailbox n) (fw_qs_sent n) (fw_raw n) x.

(** An operation of the group node inside this one. *)
Definition on_node {A} (op : ST GroupNode string A) : ST FwdNode string A := fun n =>
  let '(r, g) := op (fw_node n) in (r, with_node g n).
Definition route (f : Frame) (to : Route) : ST FwdNode string unit := on_node (send f to).
Definition notify (e : Event) : ST FwdNode string unit := on_node (emit e).
Definition hand_over (h : Handed) : ST FwdNode string unit := st_modify (fun n => with_handed (fw_handed n ++ [h]) n).
Definition send_payload (fp payload : bytes) : ST FwdNode string unit :=
  st_modify (fun n => with_raw (fw_raw n ++ [(fp, payload)]) n).

(** ** Group messages *)

(** What an opened payload is, by its first byte. *)
Definition deliver (k : coins) (now : Z) (sender from gct pt : bytes) : ST FwdNode string unit :=
  let first := bval <$> head pt in
  if decide (first = Some PRESENCE_SENTINEL) then hand_over (HPresence sender (drop 1 pt))
  else if decide (first = Some LINKAGE_SENTINEL) then hand_over (HLinkage sender (drop 1 pt))
  else if decide (first = Some VOUCH_SENTINEL) then hand_over (HVouch sender (drop 1 pt))
  else
    match decode_payload_tagged pt with
    | None => st_ret tt
    | Some (marking, text, name_tag) =>
        do* n := st_get in
        let rec := mkHistoryRecord sender now text marking in
        do* _ := on_node (record_backlog (gossip_id sha256 gct) (history_encode rec) now) in
        do* _ := (match name_tag with Some tag => hand_over (HNameTag sender tag) | None => st_ret tt end) in
        do* _ := notify (EMessage sender (fw_channel n) text marking) in
        if n_persistent (fw_node n)
        then route (FDeliveryAck [gossip_id sha256 gct]) (ToPeer from)
        else st_ret tt
    end.

(** [for (s, w, fp) in collect_peers(inner) { if fp != from { send_payload(..) } }] *)
Definition fan_out (from frame_bytes : bytes) : ST FwdNode string unit :=
  do* n := st_get in
  if negb (fw_relayed n) && (fw_gossip n || bool_decide (n_role (fw_node n) = RoleHost))
  then st_iter (fun fp => if decide (fp <> from) then send_payload fp frame_bytes else st_ret tt) (fw_peers n)
  else st_ret tt.

Definition keep (k : coins) (now : Z) (gid frame_bytes fp : bytes) : ST FwdNode string unit :=
  st_modify (fun n => with_keeper (buffer k fp gid frame_bytes now (fw_keeper n)).2 n).

(** The keeper buffers for the roster members that are not connected. *)
Definition keep_for_offline (k : coins) (now : Z) (from gct frame_bytes : bytes) : ST FwdNode string unit :=
  do* n := st_get in
  if negb (fw_relayed n) && fw_keeper_enabled n then
    let offline := filter (fun fp => fp <> from /\ fp <> n_me (fw_node n) /\ fp ∉ fw_peers n)
                     (map_to_list (n_roster (fw_node n))).*2 in
    st_iter (keep k now (gossip_id sha256 gct) frame_bytes) offline
  else st_ret tt.

Definition handle_group_msg (k : coins) (now : Z) (from gct : bytes) : ST FwdNode string unit :=
  do* n := st_get in
  let '(fresh, seen) := seen_insert (gossip_id sha256 gct) (fw_seen n) in
  do* _ := st_modify (with_seen seen) in
  if negb fresh then st_ret tt
  else
    do* opened := on_node (on_group (decrypt_verified gct)) in
    match opened with
    | None => st_ret tt
    | Some pt =>
        let sender := default from (l ← sender_leaf gct; n_roster (fw_node n) !! l) in
        do* _ := deliver k now sender from gct pt in
        let frame_bytes := frame_encode (FGroupMsg gct) in
        do* _ := fan_out from frame_bytes in
        keep_for_offline k now from gct frame_bytes
    end.

(** ** Sending *)

(** The group branch of [send_marked]; [name_tag] is the on-message name id of
    the presence component. *)
Definition send_marked (k : coins) (now : Z) (text : bytes) (marking : option Marking) (name_tag : option bytes)
  : ST FwdNode string (result CoreError bytes) :=
  let payload := encode_payload_tagged marking text name_tag in
  do* n := st_get in
  match n_group (fw_node n) with
  | None => st_ret (Err CGroupNotReady)
  | Some grp =>
      do* ct := on_node (fun m =>
        let '(r, grp') := encrypt_signed payload grp in
        (match r with Ok ct => Ok (Ok ct) | Err (Fail e) => Ok (Err e) | Err (Panic msg) => Err msg end,
         with_group (Some grp') m)) in
      match ct with
      | Err e => st_ret (Err (CCrypto e))
      | Ok ct =>
          let rec := mkHistoryRecord (n_me (fw_node n)) now text marking in
          do* _ := on_node (record_backlog (gossip_id sha256 ct) (history_encode rec) now) in
          let gid := gossip_id sha256 ct in
          let frame := FGroupMsg ct in
          do* _ := (if n_persistent (fw_node n) then
                      do* n := st_get in
                      let '(dropped, o) := enqueue k (fw_channel n) gid (frame_encode frame) now (fw_outbox n) in
                      do* _ := st_modify (with_outbox o) in
                      if decide (dropped > 0) then notify (EOutboxDropped dropped) else st_ret tt
                    else st_ret tt) in
          do* _ := route frame Broadcast in
          st_ret (Ok gid)
      end
  end.

Definition flush_outbox (now : Z) : ST FwdNode string unit :=
  do* n := st_get in
  if negb (n_persistent (fw_node n)) then st_ret tt
  else
    let '(expired, o) := evict_expired (fw_channel n) now (fw_outbox n) in
    do* _ := st_modify (with_outbox o) in
    do* _ := (if decide (expired > 0) then notify (EOutboxDropped expired) else st_ret tt) in
    st_iter (fun x : bytes * bytes =>
      match frame_decode x.2 with Some f => route f Broadcast | None => st_ret tt end)
      (due_for_resend (fw_channel n) o).

(** [set_store] and [rehydrate] of the outbox. *)
Definition set_outbox_store (store : S) (now : Z) : ST FwdNode string unit :=
  st_modify (fun n => with_outbox (rehydrate (fw_channel n) now (set_store store (fw_outbox n))) n).

(** What [register] puts first on the queue of a peer that connects. *)
Definition replay (fingerprint : bytes) (n : FwdNode) : list bytes :=
  if fw_keeper_enabled n
  then (drain fingerprint (fw_keeper n)).*2 ++ [frame_encode (FQueueSync (digest (fw_keeper n)))]
  else [].

(** ** Frames of the store-and-forward layer *)

Definition handle_delivery_ack (from : bytes) (ids : list bytes) : ST FwdNode string unit :=
  st_iter (fun gid =>
    do* _ := st_modify (fun n => with_keeper (keeper_ack from gid (fw_keeper n))
                                  (with_outbox (ack (fw_channel n) gid (fw_outbox n)) n)) in
    notify (EDelivered gid)) ids.

Definition handle_mailbox_put (k : coins) (now : Z) (recipient frame : bytes) : ST FwdNode string unit :=
  st_modify (fun n =>
    let gid := gossip_id sha256 frame in
    let n := if fw_anchor_enabled n then with_mailbox (buffer k recipient gid frame now (fw_mailbox n)).2 n else n in
    if fw_keeper_enabled n then with_keeper (buffer k recipient gid frame now (fw_keeper n)).2 n else n).

(** The entries of [q] that a peer with digest [have] lacks. *)
Definition missing (have : list (bytes * bytes)) (q : KeeperQueue InMemoryOutbox) : list Frame :=
  omap (fun x : bytes * bytes =>
    if decide (x ∈ have) then None else FMailboxPut x.2 <$> frame_for x.2 x.1 q) (digest q).

Definition handle_queue_sync (from : bytes) (peer_digest : list (bytes * bytes)) : ST FwdNode string unit :=
  do* n := st_get in
  if negb (fw_keeper_enabled n) then st_ret tt
  else
    do* _ := st_iter (fun f => route f (ToPeer from)) (missing peer_digest (fw_keeper n)) in
    if decide (from ∈ fw_qs_sent n) then st_ret tt
    else
      do* _ := st_modify (with_qs_sent ({[from]} ∪ fw_qs_sent n)) in
      route (FQueueSync (digest (fw_keeper n))) (ToPeer from).

(** [sent] says which payloads the session to the requester accepted. *)
Definition handle_mailbox_fetch (sent : bytes -> bool) (from : bytes) : ST FwdNode string unit :=
  do* n := st_get in
  if negb (fw_anchor_enabled n) then st_ret tt
  else if decide (from ∉ fw_peers n) then st_ret tt
  else
    st_iter (fun x : bytes * bytes =>
      do* _ := send_payload from x.2 in
      if sent x.2 then st_modify (fun n => with_mailbox (keeper_ack from x.1 (fw_mailbox n)) n) else st_ret tt)
      (drain from (fw_mailbox n)).

(** The arms of the receive loop for these frames. *)
Definition forward (k : coins) (now : Z) (sent : bytes -> bool) (from : bytes) (f : Frame) : ST FwdNode string unit :=
  match f with
  | FGroupMsg b => handle_group_msg k now from b
  | FDeliveryAck ids => handle_delivery_ack from ids
  | FMailboxPut recipient frame => handle_mailbox_put k now recipient frame
  | FQueueSync d => handle_queue_sync from d
  | FMailboxFetch => handle_mailbox_fetch sent from
  | _ => st_ret tt
  end.
End Forward.
Arguments FwdNode : clear implicits.
