(* ===== verification/ForwardProps.v ===== *)
(** * Store and forward: theorems *)

From S2P Require Import Prelude Wire Crypto Hybrid Ratchet TreeNode TreeCodec TreeKem Marking Frames Engine Frag Store Outbox Forward.

(** ** The window of seen messages *)

(** The ids the set remembers are the last [SEEN_CAP] it accepted. *)
Record seen_ok (s : SeenSet) : Prop := {
  so_set : ss_set s = list_to_set (ss_order s);
  so_nodup : NoDup (ss_order s);
  so_len : zlen (ss_order s) <= SEEN_CAP }.

Definition window (l : list bytes) : list bytes := drop (length l - Z.to_nat SEEN_CAP) l.

Lemma seen_new_ok : seen_ok seen_new.
Proof. split; [done|apply NoDup_nil_2|done]. Qed.

Lemma seen_insert_spec id s :
  seen_ok s ->
  (seen_insert id s).1 = bool_decide (id ∉ ss_order s) /\
  ss_order (seen_insert id s).2 = (if decide (id ∈ ss_order s) then ss_order s else window (ss_order s ++ [id])) /\
  seen_ok (seen_insert id s).2.
Proof.
  intros [Hs Hn Hl]. pose proof (elem_of_list_to_set (C:=gset bytes) id (ss_order s)) as Hel. rewrite <- Hs in Hel.
  unfold seen_insert. destruct (decide (id ∈ ss_set s)) as [Hi|Hi].
  { rewrite bool_decide_eq_false_2 by naive_solver. rewrite decide_True by (by apply Hel). done. }
  assert (id ∉ ss_order s) as Hi' by naive_solver.
  rewrite bool_decide_eq_true_2, (decide_False (P:=id ∈ ss_order s)) by done.
  assert (NoDup (ss_order s ++ [id])) as Hn'.
  { apply NoDup_app. split; [done|]. split; [set_solver|apply NoDup_singleton]. }
  unfold window. destruct (decide (zlen (ss_order s ++ [id]) > SEEN_CAP)) as [Hc|Hc].
  - assert (length (ss_order s ++ [id]) - Z.to_nat SEEN_CAP = 1)%nat as ->.
    { rewrite zlen_app in Hc. unfold zlen, SEEN_CAP in *. rewrite length_app. cbn in *. lia. }
    assert (list_to_set (ss_order s ++ [id]) = {[id]} ∪ ss_set s) as Eset by (rewrite Hs; set_solver).
    destruct (ss_order s ++ [id]) as [|old order'] eqn:E; [by destruct (ss_order s)|]. cbn [fst snd ss_order drop].
    split; [done|]. split; [done|]. apply NoDup_cons in Hn' as [Ho Hn']. split; cbn [ss_set ss_order].
    + rewrite <- Eset. cbn. set_solver.
    + done.
    + apply (f_equal zlen) in E. rewrite zlen_app, zlen_cons in E. unfold zlen in *. cbn in E. lia.
  - rewrite zlen_app in Hc. assert (length (ss_order s ++ [id]) - Z.to_nat SEEN_CAP = 0)%nat as ->.
    { unfold zlen, SEEN_CAP in *. rewrite length_app. cbn in *. lia. }
    cbn [fst snd ss_order drop]. split; [done|]. split; [done|]. split; cbn [ss_set ss_order]; [rewrite Hs; set_solver|done|].
    rewrite zlen_app. lia.
Qed.

(** How many further ids a remembered one outlives, at least. *)
Definition slack (s : SeenSet) (i : nat) : Z := Z.of_nat i + SEEN_CAP - zlen (ss_order s).

Lemma seen_insert_mono id s x i :
  seen_ok s -> ss_order s !! i = Some x -> 0 < slack s i ->
  exists j, slack s i - 1 <= slack (seen_insert id s).2 j /\ ss_order (seen_insert id s).2 !! j = Some x.
Proof.
  intros Hs Hi H0. destruct (seen_insert_spec id s Hs) as (_ & E & _). unfold slack in *. rewrite E.
  case_decide; [exists i; split; [lia|done]|]. pose proof (so_len s Hs) as Hl.
  unfold window, zlen in *. set (d := (_ - _)%nat).
  assert ((d = 0 \/ d = 1 /\ Z.of_nat (length (ss_order s)) = SEEN_CAP)%nat) as Hd.
  { unfold d. rewrite length_app. cbn. unfold SEEN_CAP in *. lia. }
  exists (i - d)%nat. rewrite length_drop, length_app. cbn [length]. split; [lia|].
  rewrite lookup_drop. replace (d + (i - d))%nat with i by lia.
  rewrite lookup_app_l; [done|]. by apply lookup_lt_Some in Hi.
Qed.

(** Insertions in turn. *)
Definition seen_all (ids : list bytes) (s : SeenSet) : SeenSet := foldl (fun s id => (seen_insert id s).2) s ids.

Lemma seen_all_keeps ids s x i :
  seen_ok s -> ss_order s !! i = Some x -> zlen ids <= slack s i -> x ∈ ss_order (seen_all ids s).
Proof.
  revert s i. induction ids as [|id ids IH]; intros s i Hs Hi Hl; [by eapply list_elem_of_lookup_2|].
  rewrite zlen_cons in Hl. pose proof (zlen_nonneg ids).
  destruct (seen_insert_mono id s x i Hs Hi ltac:(lia)) as (j & Hj & E).
  apply (IH _ j); [by apply seen_insert_spec|done|lia].
Qed.

Lemma seen_insert_last id s :
  seen_ok s -> id ∉ ss_order s -> exists i, ss_order (seen_insert id s).2 !! i = Some id /\
    S i = length (ss_order (seen_insert id s).2).
Proof.
  intros Hs Hi. destruct (seen_insert_spec id s Hs) as (_ & E & _). rewrite E, decide_False by done. unfold window.
  set (d := (_ - _)%nat). assert (d <= length (ss_order s))%nat as Hd.
  { unfold d. rewrite length_app. unfold SEEN_CAP. cbn. lia. }
  exists (length (ss_order s) - d)%nat. split.
  - rewrite lookup_drop, lookup_app_r by lia. by replace (d + (length (ss_order s) - d) - length (ss_order s))%nat with 0%nat by lia.
  - rewrite length_drop, length_app. cbn. lia.
Qed.

(** ** Group messages *)

Section Messages.
Context {P : Primitives} {S : Type} {O : OutboxStore S} (sha256 : bytes -> bytes).

Lemma st_iter_view {A V} (view : FwdNode S -> V) (f : A -> ST (FwdNode S) string unit) l :
  (forall a n, view (f a n).2 = view n) -> forall n, view (st_iter f l n).2 = view n.
Proof.
  intros Hf. induction l as [|a l IH]; intros n; [done|]. cbn [st_iter]. unfold st_bind.
  pose proof (Hf a n) as E. destruct (f a n) as [[u|e] n1]; cbn in *; [|done]. by rewrite IH.
Qed.

Lemma on_node_seen {A} (op : ST GroupNode string A) (n : FwdNode S) : fw_seen (on_node op n).2 = fw_seen n.
Proof. unfold on_node. by destruct (op (fw_node n)). Qed.

Lemma st_bind_view {A B V} (view : FwdNode S -> V) (m : ST (FwdNode S) string A) (k : A -> ST (FwdNode S) string B) :
  (forall n, view (m n).2 = view n) -> (forall a n, view (k a n).2 = view n) -> forall n, view (st_bind m k n).2 = view n.
Proof.
  intros Hm Hk n. unfold st_bind. specialize (Hm n). destruct (m n) as [[a|e] n1]; cbn in *; [|done]. by rewrite Hk.
Qed.

Lemma deliver_seen k now sender from gct pt (n : FwdNode S) : fw_seen (deliver sha256 k now sender from gct pt n).2 = fw_seen n.
Proof.
  unfold deliver. repeat case_decide; [done..|]. destruct (decode_payload_tagged pt) as [[[m t] tag]|]; [|done].
  unfold st_bind at 1, st_get. revert n. intros n.
  apply (st_bind_view fw_seen); [intros; apply on_node_seen|]. intros _ n1.
  apply (st_bind_view fw_seen); [by intros; destruct tag|]. intros _ n2.
  apply (st_bind_view fw_seen); [intros; apply on_node_seen|]. intros _ n3.
  destruct (n_persistent _); [apply on_node_seen|done].
Qed.

Lemma fan_out_seen from b (n : FwdNode S) : fw_seen (fan_out from b n).2 = fw_seen n.
Proof.
  unfold fan_out, st_bind, st_get. destruct (_ && _); [|done]. apply (st_iter_view fw_seen). intros fp m. by case_decide.
Qed.

Lemma keep_for_offline_seen k now from gct b (n : FwdNode S) : fw_seen (keep_for_offline sha256 k now from gct b n).2 = fw_seen n.
Proof. unfold keep_for_offline, st_bind, st_get. destruct (_ && _); [|done]. by apply (st_iter_view fw_seen). Qed.

Lemma handle_group_msg_seen k now from gct (n : FwdNode S) :
  fw_seen (handle_group_msg sha256 k now from gct n).2 = (seen_insert (gossip_id sha256 gct) (fw_seen n)).2.
Proof.
  unfold handle_group_msg, st_bind at 1, st_get. destruct (seen_insert _ (fw_seen n)) as [[] seen]; cbn [negb snd]; [|done].
  unfold st_bind at 1, st_modify. change seen with (fw_seen (with_seen seen n)) at 2.
  generalize (with_seen seen n) as m. intros m.
  apply (st_bind_view fw_seen); [intros; apply on_node_seen|]. intros [pt|] m1; [|done].
  apply (st_bind_view fw_seen); [intros; apply deliver_seen|]. intros _ m2.
  apply (st_bind_view fw_seen); [intros; apply fan_out_seen|]. intros _ m3. apply keep_for_offline_seen.
Qed.

Lemma handle_seen_drops k now from gct (n : FwdNode S) :
  seen_ok (fw_seen n) -> gossip_id sha256 gct ∈ ss_order (fw_seen n) ->
  handle_group_msg sha256 k now from gct n = (Ok tt, n).
Proof.
  intros Hs Hi. unfold handle_group_msg, st_bind at 1, st_get. unfold seen_insert. rewrite decide_True.
  - cbn. unfold st_bind, st_modify, st_ret. by destruct n.
  - rewrite (so_set _ Hs). by apply elem_of_list_to_set.
Qed.

(** Messages handled in turn, whatever becomes of each. *)
Definition handle_all (msgs : list (coins * Z * bytes * bytes)) (n : FwdNode S) : FwdNode S :=
  foldl (fun n x => (handle_group_msg sha256 x.1.1.1 x.1.1.2 x.1.2 x.2 n).2) n msgs.

Lemma handle_all_seen msgs n :
  fw_seen (handle_all msgs n) = seen_all ((fun x => gossip_id sha256 x.2) <$> msgs) (fw_seen n).
Proof.
  revert n. induction msgs as [|x msgs IH]; intros n; [done|].
  change (handle_all (x :: msgs) n) with (handle_all msgs (handle_group_msg sha256 x.1.1.1 x.1.1.2 x.1.2 x.2 n).2).
  by rewrite IH, handle_group_msg_seen.
Qed.

Lemma seen_all_ok ids s : seen_ok s -> seen_ok (seen_all ids s).
Proof. revert s. induction ids as [|id ids IH]; intros s Hs; [done|]. apply IH. by apply seen_insert_spec. Qed.

(** A group message is processed once.  However often and over whatever
    paths a ciphertext arrives, the second and every later arrival changes
    nothing at all (no display, no acknowledgement, no forwarding, no decryption
    state), as long as fewer than [SEEN_CAP] other messages came in between. *)
Lemma group_msg_once (n : FwdNode S) (k k' : coins) (now now' : Z) (from from' gct : bytes)
    (between : list (coins * Z * bytes * bytes)) :
  seen_ok (fw_seen n) -> zlen between < SEEN_CAP ->
  let n1 := (handle_group_msg sha256 k now from gct n).2 in
  gossip_id sha256 gct ∉ ss_order (fw_seen n) ->
  handle_group_msg sha256 k' now' from' gct (handle_all between n1) = (Ok tt, handle_all between n1).
Proof.
  intros Hs Hb n1 Hni. assert (seen_ok (fw_seen n1)) as Hs1.
  { unfold n1. rewrite handle_group_msg_seen. by apply seen_insert_spec. }
  apply handle_seen_drops; rewrite handle_all_seen; [by apply seen_all_ok|].
  destruct (seen_insert_last (gossip_id sha256 gct) (fw_seen n) Hs Hni) as (i & Hi & Hl).
  apply (seen_all_keeps _ _ _ i); [done|unfold n1; by rewrite handle_group_msg_seen|].
  unfold slack, n1. rewrite handle_group_msg_seen. unfold zlen in *. rewrite length_fmap, <- Hl. lia.
Qed.

(** A message that arrives early is lost.  The ciphertext is recorded as
    seen before it is opened; if the group cannot open it yet (its epoch's commit
    is still to come) nothing is shown, and every later copy is dropped unopened,
    also once the group has moved on to [g'], which would open it. *)
Lemma early_message_lost (n : FwdNode S) (g g' g'' : TreeKemGroup) (k k' : coins) (now now' : Z)
    (from from' gct pt : bytes) (e : CryptoError) :
  seen_ok (fw_seen n) -> gossip_id sha256 gct ∉ ss_order (fw_seen n) ->
  n_group (fw_node n) = Some g -> decrypt_verified gct g = (Err (Fail e), g) ->
  decrypt_verified gct g' = (Ok pt, g'') ->
  let n1 := (handle_group_msg sha256 k now from gct n).2 in
  let n2 := with_node (with_group (Some g') (fw_node n1)) n1 in
  n_events (fw_node n1) = n_events (fw_node n) /\ fw_handed n1 = fw_handed n /\
  handle_group_msg sha256 k' now' from' gct n2 = (Ok tt, n2).
Proof.
  intros Hs Hni Hg He _ n1 n2. destruct (seen_insert_spec (gossip_id sha256 gct) (fw_seen n) Hs) as (Hf & _ & Hs1).
  destruct (seen_insert_last (gossip_id sha256 gct) (fw_seen n) Hs Hni) as (i & Hi & _).
  assert (n1 = with_node (with_group (Some g) (fw_node n)) (with_seen (seen_insert (gossip_id sha256 gct) (fw_seen n)).2 n)) as E.
  { unfold n1, handle_group_msg, st_bind at 1, st_get. destruct (seen_insert _ (fw_seen n)) as [b seen].
    cbn [fst snd] in *. rewrite Hf, bool_decide_eq_true_2 by done. cbn [negb]. unfold st_bind, st_modify, on_node, on_group.
    cbn [fw_node with_seen]. by rewrite Hg, He. }
  split; [by rewrite E|]. split; [by rewrite E|].
  apply handle_seen_drops; change (fw_seen n2) with (fw_seen n1); rewrite E; [done|]. by eapply list_elem_of_lookup_2.
Qed.
End Messages.

(** ** Keepers *)

Section Keepers.
Context {P : Primitives} {S : Type} {O : OutboxStore S} (sha256 : bytes -> bytes).

(** A keeper queue and what it holds for each recipient, within the cap. *)
Record kept (q : KeeperQueue InMemoryOutbox) (a : gmap bytes (list Entry)) : Prop := {
  kp_cap : 1 <= kq_cap_per_peer q;
  kp_queue r : holds (key r) (kq_store q) (default [] (kq_index q !! r)) (queue a r) /\
               zlen (queue a r) <= kq_cap_per_peer q }.

Lemma kept_new store cap ttl : 1 <= cap -> store = inmem_new -> kept (keeper_new store cap ttl) ∅.
Proof.
  intros Hc ->. split; [done|]. intros r. unfold queue. cbn. rewrite !lookup_empty. cbn. split; [|unfold zlen; cbn; lia].
  split; [done|apply NoDup_nil_2|constructor|done].
Qed.

Lemma buffer_kept k r gid frame now q a :
  kept q a -> length gid = 32%nat -> zlen frame <= 2 ^ 32 ->
  kept (buffer k r gid frame now q).2 (<[r := spec_keep (kq_cap_per_peer q) (spec_add gid now frame (queue a r))]> a) /\
  kq_cap_per_peer (buffer k r gid frame now q).2 = kq_cap_per_peer q.
Proof.
  intros [Hc Hq] Hg Hf. destruct (Hq r) as [Hh Hz]. assert (0 <= kq_cap_per_peer q) as H0 by lia.
  destruct (add_step (OOk:=inmem_ok) k (kq_cap_per_peer q) (key r) gid frame now _ _ _ I I Hg Hf H0 Hh) as (s' & E & _ & Hh' & Hfr).
  unfold buffer. rewrite E. cbn [snd]. split; [|done]. split; [done|]. intros r'. cbn [kq_store kq_index kq_cap_per_peer].
  rewrite queue_insert. case_decide as Er; subst.
  - rewrite lookup_insert_eq. split; [done|]. apply spec_keep_len. lia.
  - rewrite lookup_insert_ne by done. destruct (Hq r') as [[E1 E2 E3 E4] Hz']. split; [|done]. split; [done..|].
    rewrite Hfr; [done|done|]. intros ?%hex_inj. done.
Qed.

Lemma keeper_ack_kept r gid q a :
  kept q a -> length gid = 32%nat -> kept (keeper_ack r gid q) (<[r := spec_ack gid (queue a r)]> a).
Proof.
  intros [Hc Hq] Hg. destruct (Hq r) as [Hh Hz]. pose proof (holds_ack (OOk:=inmem_ok) (key r) gid _ _ _ I I Hg Hh) as Hh'.
  split; [done|]. intros r'. cbn [kq_store kq_index kq_cap_per_peer keeper_ack]. rewrite queue_insert. case_decide as Er; subst.
  - rewrite lookup_alter_eq. split; [by destruct (kq_index q !! r')|]. etrans; [apply zlen_filter|exact Hz].
  - rewrite lookup_alter_ne by done. destruct (Hq r') as [[E1 E2 E3 E4] Hz']. split; [|done]. split; [done..|].
    rewrite os_remove_view by done. rewrite decide_False; [done|]. intros ?%hex_inj. done.
Qed.

Lemma drain_kept r q a : kept q a -> drain r q ≡ₚ (fun e => (en_gid e, en_frame e)) <$> queue a r.
Proof.
  intros [_ Hq]. destruct (Hq r) as [[_ Hn _ Hv] _]. unfold drain.
  rewrite (os_load_view (OutboxStoreOk:=inmem_ok)), Hv by done. unfold frames_of. rewrite map_to_list_to_map; [done|].
  by rewrite <- list_fmap_compose.
Qed.

Lemma frame_for_kept r gid q a e : kept q a -> e ∈ queue a r -> en_gid e = gid -> frame_for r gid q = Some (en_frame e).
Proof.
  intros Hk He Hg. pose proof (drain_kept r q a Hk) as Hd. unfold drain in Hd. destruct (proj1 (kp_queue q a Hk r)) as [_ Hn _ _].
  assert (NoDup (os_load (key r) (kq_store q)).*1) as Hl by (rewrite Hd, <- list_fmap_compose; exact Hn).
  assert ((gid, en_frame e) ∈ os_load (key r) (kq_store q)) as Hi.
  { rewrite Hd. apply list_elem_of_fmap. exists e. by subst. }
  unfold frame_for. destruct (list_find _ _) as [[i [g' f]]|] eqn:Ef.
  - apply list_find_Some in Ef as (Hi' & Hg' & _). cbn in Hg'. subst g'. cbn. f_equal.
    apply list_elem_of_lookup_2 in Hi'. rewrite elem_of_list_to_map in Hi, Hi' by done. congruence.
  - apply list_find_None in Ef. rewrite Forall_forall in Ef. by apply Ef in Hi.
Qed.

(** What was just added stays. *)
Lemma spec_added gid now frame cap l :
  1 <= cap -> zlen l <= cap -> NoDup (en_gid <$> l) ->
  exists t, mkEntry gid t frame ∈ spec_keep cap (spec_add gid now frame l).
Proof.
  intros Hc Hz Hn. unfold spec_add, spec_keep. case_decide as Hi.
  - apply list_elem_of_fmap in Hi as (e & -> & He). exists (en_time e). rewrite length_fmap.
    replace (length l - Z.to_nat cap)%nat with 0%nat by (unfold zlen in Hz; lia). rewrite drop_0.
    apply list_elem_of_fmap. exists e. by rewrite decide_True.
  - exists now. rewrite length_app, drop_app_le by (unfold zlen in Hz; cbn; lia). set_solver.
Qed.

Lemma spec_keep_id cap l : zlen l <= cap -> spec_keep cap l = l.
Proof. intros Hz. unfold spec_keep. by replace (length l - Z.to_nat cap)%nat with 0%nat by (unfold zlen in Hz; lia). Qed.

(** Buffering for others leaves a recipient's queue alone. *)
Lemma keep_iter k now gid frame fps n a :
  kept (fw_keeper n) a -> length gid = 32%nat -> zlen frame <= 2 ^ 32 ->
  exists (n' : FwdNode S) a', st_iter (keep k now gid frame) fps n = (Ok tt, n') /\ kept (fw_keeper n') a' /\
    fw_keeper_enabled n' = fw_keeper_enabled n /\
    (forall r, r ∈ fps -> exists t, mkEntry gid t frame ∈ queue a' r) /\ (forall r, r ∉ fps -> queue a' r = queue a r).
Proof.
  intros Hk Hg Hf. revert n a Hk. induction fps as [|fp fps IH]; intros n a Hk.
  { exists n, a. split; [done|]. split; [done|]. split; [done|]. split; [set_solver|done]. }
  cbn [st_iter]. unfold st_bind, keep at 1, st_modify.
  destruct (buffer_kept k fp gid frame now (fw_keeper n) a Hk Hg Hf) as [Hk1 _].
  set (n1 := with_keeper _ n). destruct (IH n1 _ Hk1) as (n' & a' & E & Hk' & He & Hin & Hout).
  exists n', a'. split; [exact E|]. split; [done|]. split; [by rewrite He|]. split.
  - intros r Hr. destruct (decide (r ∈ fps)) as [?|Hnr]; [by apply Hin|].
    assert (r = fp) as -> by set_solver. rewrite Hout by done. rewrite queue_insert, decide_True by done.
    destruct (kp_queue _ _ Hk fp) as [[_ Hn _ _] Hz]. apply spec_added; [apply Hk|done|done].
  - intros r Hr. rewrite Hout by set_solver. rewrite queue_insert, decide_False by set_solver. done.
Qed.

(** ** Catching up *)

(** An operation that always succeeds and leaves the keeper and what it looks at alone. *)
Definition quiet (m : ST (FwdNode S) string unit) : Prop := forall n, exists n', m n = (Ok tt, n') /\
  fw_keeper n' = fw_keeper n /\ fw_keeper_enabled n' = fw_keeper_enabled n /\ fw_relayed n' = fw_relayed n /\
  fw_peers n' = fw_peers n /\ n_roster (fw_node n') = n_roster (fw_node n) /\ n_me (fw_node n') = n_me (fw_node n).

Lemma quiet_ret : quiet (st_ret tt).
Proof. intros n. by exists n. Qed.
Lemma quiet_bind m (k : unit -> ST (FwdNode S) string unit) : quiet m -> quiet (k tt) -> quiet (st_bind m k).
Proof.
  intros Hm Hk n. destruct (Hm n) as (n1 & E1 & H1). destruct (Hk n1) as (n2 & E2 & H2). exists n2.
  unfold st_bind. rewrite E1, E2. split; [done|]. destruct_and!. repeat split; congruence.
Qed.
Lemma quiet_get (k : FwdNode S -> ST (FwdNode S) string unit) : (forall m, quiet (k m)) -> quiet (st_bind st_get k).
Proof. intros Hk n. apply Hk. Qed.
Lemma quiet_iter {A} (f : A -> ST (FwdNode S) string unit) l : (forall a, quiet (f a)) -> quiet (st_iter f l).
Proof. intros Hf. induction l as [|a l IH]; cbn [st_iter]; [apply quiet_ret|by apply quiet_bind]. Qed.

Lemma quiet_deliver k now sender from gct pt : quiet (deliver sha256 k now sender from gct pt).
Proof.
  assert (forall h, quiet (hand_over h)) as Hh by (intros h n; by eexists).
  assert (forall g r ts, quiet (on_node (record_backlog g r ts))) as Hr.
  { intros g r ts n. eexists. split; [done|]. cbn. by repeat case_match. }
  unfold deliver. repeat case_decide; [done..|]. destruct (decode_payload_tagged pt) as [[[m t] tag]|]; [|apply quiet_ret].
  apply quiet_get. intros n. apply quiet_bind; [done|]. apply quiet_bind; [destruct tag; [done|apply quiet_ret]|].
  apply quiet_bind; [intros n'; by eexists|]. destruct (n_persistent _); [intros n'; by eexists|apply quiet_ret].
Qed.

Lemma quiet_fan_out from b : quiet (fan_out from b).
Proof.
  apply quiet_get. intros n. destruct (_ && _); [|apply quiet_ret]. apply quiet_iter. intros fp.
  case_decide; [intros m; by eexists|apply quiet_ret].
Qed.

Lemma zlen_group_msg gct : zlen (frame_encode (FGroupMsg gct)) = zlen gct + 5.
Proof. rewrite frame_encode_norm. cbn [frame_tag frame_bytes]. rewrite zlen_app, zlen_enc_bytes. unfold zlen. cbn. lia. Qed.

(** C38: an offline member catches up through a keeper.  When a keeper processes
    a group message while a roster member is not connected, the queue it will
    replay to that member when it connects contains the message, as a frame the
    member decodes to the same ciphertext. *)
Theorem keeper_catches_up (n : FwdNode S) (a : gmap bytes (list Entry)) (g g' : TreeKemGroup) (k : coins) (now l : Z)
    (from gct pt fp : bytes) :
  (forall b, length (sha256 b) = 32%nat) -> seen_ok (fw_seen n) -> kept (fw_keeper n) a ->
  fw_keeper_enabled n = true -> fw_relayed n = false -> zlen gct <= MAX_FRAME ->
  gossip_id sha256 gct ∉ ss_order (fw_seen n) ->
  n_group (fw_node n) = Some g -> decrypt_verified gct g = (Ok pt, g') ->
  n_roster (fw_node n) !! l = Some fp -> fp <> from -> fp <> n_me (fw_node n) -> fp ∉ fw_peers n ->
  exists n', handle_group_msg sha256 k now from gct n = (Ok tt, n') /\
    frame_encode (FGroupMsg gct) ∈ replay fp n' /\
    frame_decode (frame_encode (FGroupMsg gct)) = Some (FGroupMsg gct).
Proof.
  intros Hsha Hs Hk He Hr Hl Hni Hg Hd Hfp Hf1 Hf2 Hf3.
  destruct (seen_insert_spec (gossip_id sha256 gct) (fw_seen n) Hs) as (Hf & _ & _).
  unfold handle_group_msg, st_bind at 1, st_get. destruct (seen_insert _ (fw_seen n)) as [b seen].
  cbn [fst] in Hf. rewrite Hf, bool_decide_eq_true_2 by done. cbn [negb]. unfold st_bind at 1, st_modify.
  unfold st_bind at 1, on_node, on_group. cbn [fw_node with_seen]. rewrite Hg, Hd.
  set (n1 := with_node _ _). set (sender := default from _). unfold st_bind at 1.
  destruct (quiet_deliver k now sender from gct pt n1) as (n2 & -> & K2 & E2 & R2 & P2 & O2 & M2). unfold st_bind at 1.
  destruct (quiet_fan_out from (frame_encode (FGroupMsg gct)) n2) as (n3 & -> & K3 & E3 & R3 & P3 & O3 & M3).
  unfold keep_for_offline, st_bind, st_get. rewrite R3, R2, E3, E2. cbn [n1 fw_relayed fw_keeper_enabled with_node with_seen].
  rewrite Hr, He. cbn [negb andb].
  assert (kept (fw_keeper n3) a) as Hk3 by (by rewrite K3, K2).
  assert (zlen (frame_encode (FGroupMsg gct)) <= 2 ^ 32) as Hz by (rewrite zlen_group_msg; unfold MAX_FRAME in Hl; lia).
  set (off := filter _ _).
  destruct (keep_iter k now (gossip_id sha256 gct) (frame_encode (FGroupMsg gct)) off n3 a Hk3 (Hsha gct) Hz)
    as (n' & a' & E & Hk' & He' & Hin & _).
  exists n'. split; [exact E|]. split.
  - unfold replay. rewrite He', E3, E2. cbn [n1 fw_keeper_enabled with_node with_seen]. rewrite He. apply elem_of_app. left.
    destruct (Hin fp) as [t Ht].
    { unfold off. apply list_elem_of_filter. rewrite P3, P2, O3, O2, M3, M2. split; [done|].
      apply list_elem_of_fmap. exists (l, fp). split; [done|]. by apply elem_of_map_to_list. }
    rewrite (drain_kept fp (fw_keeper n') a' Hk'), <- list_fmap_compose. apply list_elem_of_fmap. exists (mkEntry (gossip_id sha256 gct) t (frame_encode (FGroupMsg gct))). done.
  - apply frame_decode_spec; [rewrite zlen_group_msg; unfold MAX_FRAME, usize_max in *; lia|]. split; [exact Hl|].
    exists []. by rewrite app_nil_r.
Qed.

(** A replicated copy is never acknowledged.  A keeper that stores a message
    it was pushed by another keeper files it under the digest of the frame, while
    acknowledgements name the digest of the ciphertext: after the recipient has
    acknowledged the message, the copy is still queued, to be replayed at every
    connection until it expires. *)
Lemma replica_never_acked (n : FwdNode S) (a : gmap bytes (list Entry)) (k : coins) (now : Z) (r gct : bytes) :
  (forall b, length (sha256 b) = 32%nat) -> kept (fw_keeper n) a ->
  fw_keeper_enabled n = true -> fw_anchor_enabled n = false -> zlen gct <= MAX_FRAME ->
  sha256 gct <> sha256 (frame_encode (FGroupMsg gct)) ->
  let frame := frame_encode (FGroupMsg gct) in
  exists n', (do* _ := handle_mailbox_put sha256 k now r frame in
              handle_delivery_ack r [gossip_id sha256 gct]) n = (Ok tt, n') /\
    frame ∈ replay r n'.
Proof.
  intros Hsha Hk He Ha Hl Hne frame. unfold st_bind at 1, handle_mailbox_put, st_modify. rewrite Ha, He. cbv zeta.
  assert (zlen frame <= 2 ^ 32) as Hz by (unfold frame; rewrite zlen_group_msg; unfold MAX_FRAME in Hl; lia).
  destruct (buffer_kept k r (gossip_id sha256 frame) frame now (fw_keeper n) a Hk (Hsha frame) Hz) as [Hk1 _].
  set (q1 := (buffer k r _ frame now (fw_keeper n)).2) in *. set (a1 := <[r := _]> a) in Hk1.
  pose proof (keeper_ack_kept r (gossip_id sha256 gct) q1 a1 Hk1 (Hsha gct)) as Hk2.
  eexists. split; [reflexivity|]. unfold replay. cbn [fw_keeper_enabled fw_keeper with_node with_keeper with_outbox on_node fst snd].
  rewrite He. apply elem_of_app. left. rewrite (drain_kept r _ _ Hk2), <- list_fmap_compose.
  rewrite queue_insert, decide_True by done. unfold a1. rewrite queue_insert, decide_True by done.
  destruct (kp_queue _ _ Hk r) as [[_ Hn _ _] Hzq].
  destruct (spec_added (gossip_id sha256 frame) now frame (kq_cap_per_peer (fw_keeper n)) (queue a r)) as [t Ht]; [apply Hk|done|done|].
  apply list_elem_of_fmap. exists (mkEntry (gossip_id sha256 frame) t frame). split; [done|].
  apply list_elem_of_filter. split; [|done]. cbn. unfold gossip_id, frame. intros E. by apply Hne.
Qed.

(** A digest that is too long for the decoder cannot be synchronised. *)
Lemma digest_overflow (d : list (bytes * bytes)) :
  MAX_SYNC < zlen d < 2 ^ 32 -> zlen (frame_encode (FQueueSync d)) <= usize_max ->
  frame_decode (frame_encode (FQueueSync d)) = None.
Proof.
  intros Hd Hz. destruct (frame_decode _) as [f|] eqn:E; [|done]. exfalso.
  apply frame_decode_spec in E as [Hok (tl & E & Hs)]; [|done]. rewrite !frame_encode_norm in E.
  cbn [frame_tag frame_bytes app] in E. apply (f_equal (fun l => (bval <$> head l, drop 1 l))) in E.
  cbn in E. rewrite !bval_byte_of in E. injection E as Et Eb.
  assert (exists d', f = FQueueSync d') as [d' ->] by (destruct f as [| | | | | | | | | | | | | | | | | | |d']; [..|by exists d']; vm_compute in Et; discriminate Et).
  rewrite Hs, app_nil_r in Eb by done. cbn [frame_bytes] in Eb. unfold enc_list in Eb. destruct Hok as [Hc _].
  apply app_inj_1 in Eb as [Eb _]; [|by rewrite !length_be_bytes]. pose proof (zlen_nonneg d').
  assert (zlen d = zlen d') as Ed by (apply (be_bytes_inj 4); [unfold MAX_SYNC in *; lia..|done]). unfold MAX_SYNC in *. lia.
Qed.

(** ** Anti-entropy *)

Lemma elem_of_digest q a g r : kept q a -> (g, r) ∈ digest q <-> exists e, e ∈ queue a r /\ en_gid e = g.
Proof.
  intros Hk. unfold digest. rewrite list_elem_of_bind. destruct (proj1 (kp_queue q a Hk r)) as [Ei _ _ _]. split.
  - intros ([r' v] & Hx & Hm%elem_of_map_to_list). apply list_elem_of_fmap in Hx as ([g' t] & [= -> ->] & Hx). cbn in *.
    rewrite Hm in Ei. cbn in Ei. subst v. unfold index_of in Hx. apply list_elem_of_fmap in Hx as (e & [= -> ->] & He). eauto.
  - intros (e & He & <-). destruct (kq_index q !! r) as [v|] eqn:Ev; cbn in Ei.
    + exists (r, v). split; [|by apply elem_of_map_to_list]. cbn. apply list_elem_of_fmap. exists (en_gid e, en_time e).
      split; [done|]. subst v. unfold index_of. apply list_elem_of_fmap. by exists e.
    + destruct (queue a r); [by apply elem_of_nil in He|done].
Qed.

Lemma elem_of_missing have q a f :
  kept q a -> f ∈ missing have q <-> exists r e, e ∈ queue a r /\ (en_gid e, r) ∉ have /\ f = FMailboxPut r (en_frame e).
Proof.
  intros Hk. unfold missing. rewrite list_elem_of_omap. split.
  - intros ([g r] & (e & He & <-)%(elem_of_digest q a g r Hk) & H). case_decide; [done|]. cbn [fst snd] in H.
    rewrite (frame_for_kept r _ q a e Hk He eq_refl) in H. injection H as <-. eauto.
  - intros (r & e & He & Hh & ->). exists (en_gid e, r). split; [apply (elem_of_digest q a _ r Hk); eauto|].
    rewrite decide_False by done. cbn [fst snd]. by rewrite (frame_for_kept r _ q a e Hk He eq_refl).
Qed.

(** The peer files what it is pushed. *)
Definition receive_puts (k : coins) (now : Z) : list Frame -> ST (FwdNode S) string unit :=
  st_iter (fun f => match f with FMailboxPut r b => handle_mailbox_put sha256 k now r b | _ => st_ret tt end).

Lemma spec_add_len gid now frame l : zlen (spec_add gid now frame l) <= zlen l + 1.
Proof. unfold spec_add. case_decide; [unfold zlen; rewrite length_fmap; lia|]. rewrite zlen_app. done. Qed.

(** With room for all of them, no put displaces an entry of another id. *)
Lemma receive_puts_run k now puts n b cap :
  (forall b, length (sha256 b) = 32%nat) -> kept (fw_keeper n) b -> kq_cap_per_peer (fw_keeper n) = cap ->
  fw_keeper_enabled n = true -> fw_anchor_enabled n = false ->
  (forall r, zlen (queue b r) + zlen puts <= cap) -> (forall r f, FMailboxPut r f ∈ puts -> zlen f <= 2 ^ 32) ->
  exists n' b', receive_puts k now puts n = (Ok tt, n') /\ kept (fw_keeper n') b' /\
    (forall r e, e ∈ queue b r -> (forall f, FMailboxPut r f ∈ puts -> sha256 f = en_gid e -> f = en_frame e) -> e ∈ queue b' r) /\
    ((forall r f f', FMailboxPut r f ∈ puts -> FMailboxPut r f' ∈ puts -> sha256 f = sha256 f' -> f = f') ->
     forall r f, FMailboxPut r f ∈ puts -> exists t, mkEntry (sha256 f) t f ∈ queue b' r).
Proof.
  intros Hsha Hk Hcap He Ha Hroom Hlen. revert n b Hk Hcap He Ha Hroom.
  induction puts as [|p puts IH]; intros n b Hk Hcap He Ha Hroom.
  { exists n, b. split; [done|]. split; [done|]. split; [done|]. intros _ r f Hf. by apply elem_of_nil in Hf. }
  unfold receive_puts. cbn [st_iter]. unfold st_bind at 1. setoid_rewrite zlen_cons in Hroom.
  pose proof (zlen_nonneg puts) as Hp0.
  assert ((forall r f, p <> FMailboxPut r f) \/ exists r0 f0, p = FMailboxPut r0 f0) as [Hp|(r0 & f0 & ->)].
  { destruct p; try (by left). right. eauto. }
  - assert (forall r f, FMailboxPut r f ∈ p :: puts -> FMailboxPut r f ∈ puts) as Hsub.
    { intros r f [E|?]%elem_of_cons; [|done]. by destruct (Hp r f). }
    destruct (IH ltac:(intros r f Hf; apply (Hlen r f); by right) n b Hk Hcap He Ha ltac:(intros r; specialize (Hroom r); lia))
      as (n' & b' & E & Hk' & H1 & H2).
    exists n', b'. split; [by destruct p; try exact E; destruct (Hp recipient frame)|]. split; [done|]. split.
    + intros r e Hre Hall. apply H1; [done|]. intros f Hf. apply Hall. by right.
    + intros Hinj r f Hf%Hsub. apply H2; [|done]. intros r' f1 f2 Hf1 Hf2. apply (Hinj r'); by right.
  - assert (zlen f0 <= 2 ^ 32) as Hf0 by (apply (Hlen r0); left).
    destruct (buffer_kept k r0 (sha256 f0) f0 now (fw_keeper n) b Hk (Hsha f0) Hf0) as [Hk1 Hc1].
    pose proof (spec_add_len (sha256 f0) now f0 (queue b r0)) as Hsl.
    rewrite spec_keep_id in Hk1 by (specialize (Hroom r0); lia).
    set (b1 := <[r0 := _]> b) in Hk1. unfold handle_mailbox_put, st_modify. rewrite Ha, He. cbv zeta. unfold gossip_id.
    set (n1 := with_keeper _ n).
    destruct (IH ltac:(intros r f Hf; apply (Hlen r f); by right) n1 b1 Hk1 ltac:(by rewrite <- Hcap) He Ha) as (n' & b' & E & Hk' & H1 & H2).
    { intros r. unfold b1. rewrite queue_insert. pose proof (Hroom r0). pose proof (Hroom r). case_decide; lia. }
    exists n', b'. split; [exact E|]. split; [done|]. split.
    + intros r e Hre Hall. apply H1; [|intros f Hf; apply Hall; by right]. unfold b1. rewrite queue_insert.
      case_decide as Er; [|done]. subst r0. unfold spec_add. case_decide; [|apply elem_of_app; by left].
      apply list_elem_of_fmap. exists e. split; [|done]. case_decide as Eg; [|done].
      rewrite <- Eg. rewrite (Hall f0 ltac:(by left) ltac:(by symmetry)). by destruct e.
    + intros Hinj r f [[= -> ->]|Hf]%elem_of_cons.
      * assert (exists t, mkEntry (sha256 f0) t f0 ∈ queue b1 r0) as [t Ht].
        { unfold b1. rewrite queue_insert, decide_True by done.
          destruct (spec_added (sha256 f0) now f0 cap (queue b r0)) as [t Ht].
          - rewrite <- Hcap. apply Hk.
          - specialize (Hroom r0). lia.
          - apply (kp_queue _ _ Hk).
          - exists t. by rewrite spec_keep_id in Ht by (specialize (Hroom r0); lia). }
        exists t. apply H1; [done|]. intros f Hf Hg. cbn in *. apply (Hinj r0); [by right|by left|done].
      * apply H2; [|done]. intros r' f1 f2 Hf1 Hf2. apply (Hinj r'); by right.
Qed.

(** Keepers converge.  When a keeper answers the digest of a peer keeper and
    the peer files what it is pushed (with room for it, and no two of the pushed
    frames colliding under the digest), the peer afterwards replays, for every
    recipient, every frame the first one holds, or already listed its id. *)
Lemma keepers_converge (qa : KeeperQueue InMemoryOutbox) (n : FwdNode S) (a b : gmap bytes (list Entry)) (k : coins) (now : Z) :
  (forall b, length (sha256 b) = 32%nat) -> kept qa a -> kept (fw_keeper n) b ->
  fw_keeper_enabled n = true -> fw_anchor_enabled n = false ->
  let pushed := missing (digest (fw_keeper n)) qa in
  (forall r, zlen (queue b r) + zlen pushed <= kq_cap_per_peer (fw_keeper n)) ->
  (forall r e, e ∈ queue a r -> zlen (en_frame e) <= 2 ^ 32) ->
  (forall r f f', FMailboxPut r f ∈ pushed -> FMailboxPut r f' ∈ pushed -> sha256 f = sha256 f' -> f = f') ->
  exists n', receive_puts k now pushed n = (Ok tt, n') /\
    forall r e, e ∈ queue a r ->
      (en_gid e, r) ∈ digest (fw_keeper n) \/ en_frame e ∈ (drain r (fw_keeper n')).*2.
Proof.
  intros Hsha Ha Hb He Han pushed Hroom Hlen Hinj.
  destruct (receive_puts_run k now pushed n b _ Hsha Hb eq_refl He Han Hroom) as (n' & b' & E & Hk' & _ & H2).
  { intros r f (r' & e & Hel & _ & [= -> ->])%(elem_of_missing _ qa a _ Ha). by eapply Hlen. }
  exists n'. split; [done|]. intros r e Hel. destruct (decide ((en_gid e, r) ∈ digest (fw_keeper n))) as [?|Hm]; [by left|].
  right. destruct (H2 Hinj r (en_frame e)) as [t Ht]; [apply (elem_of_missing _ qa a _ Ha); eauto|].
  rewrite (drain_kept r _ b' Hk'), <- list_fmap_compose. apply list_elem_of_fmap.
  by exists (mkEntry (sha256 (en_frame e)) t (en_frame e)).
Qed.
End Keepers.
