(* ===== verification/ForwardDemo.v ===== *)
(** * Store and forward: the theorems at concrete nodes *)

From S2P Require Import Prelude Wire Crypto Hybrid Ratchet SenderKeys TreeNode TreeCodec TreeKem TreeGroup Toy TreeDemo Marking Frames Engine EngineDemo Frag Store Outbox Forward ForwardProps.

(** ** Queues *)

Definition f_gid (n : Z) : bytes := replicate 32 (byte_of n).
Definition f_ops : list (OutboxOp (P:=toy)) :=
  [OpEnqueue 1%nat (bstr "c") (f_gid 1) (bstr "one") 10; OpEnqueue 2%nat (bstr "c") (f_gid 2) (bstr "two") 20;
   OpEnqueue 3%nat (bstr "c") (f_gid 3) (bstr "three") 30; OpAck (bstr "c") (f_gid 2); OpExpire (bstr "c") 31].

Lemma outbox_refines_witness :
  exists counts o, ob_run (P:=toy) f_ops (outbox_new (inmem_new : InMemoryOutbox) 2 100) = (counts, o) /\
    counts = [0; 0; 1; 0; 0] /\ zlen (pending (bstr "c") o) <= 2.
Proof.
  pose proof (outbox_refines (P:=toy) (OOk:=inmem_ok) inmem_new 2 100 f_ops I ltac:(lia)
    ltac:(intros; reflexivity)) as H.
  assert (Forall (op_ok (OOk:=inmem_ok)) f_ops) as Hok
    by (repeat constructor; vm_compute; discriminate).
  specialize (H Hok). destruct (ob_run f_ops _) as [counts o] eqn:E. destruct (spec_run 2 100 f_ops ∅) as [sc a] eqn:Es.
  destruct H as [-> H]. exists sc, o. split; [reflexivity|]. split; [|exact (proj1 (proj2 (H (bstr "c") I)))].
  assert (sc = (spec_run (P:=toy) 2 100 f_ops ∅).1) as -> by (rewrite Es; reflexivity). vm_compute. reflexivity.
Defined.

(** A sealed store on an empty disk, for one chat. *)
Definition f_chats : gset bytes := {[bstr "c"]}.
Lemma f_sha_inj c c' : c ∈ f_chats -> c' ∈ f_chats -> e_sha c = e_sha c' -> c = c'.
Proof. unfold f_chats. intros ->%elem_of_singleton ->%elem_of_singleton. done. Qed.
Definition f_sealed : SealedFileStore := mkSealed [bstr "store"] (replicate 32 (byte_of 9)) (mkDisk ∅ false).
Definition f_ok : OutboxStoreOk (P:=toy) SealedFileStore := sealed_ok (P:=toy) e_sha f_chats f_sha_inj e_sha_len.

Lemma f_sealed_inv : sealed_inv f_sealed.
Proof. split; [done|done|]. intros subdir ch name blob gid H. cbn in H. by rewrite lookup_empty in H. Qed.

Lemma restart_recovers_witness :
  let o := (ob_run (P:=toy) (O:=sealed_outbox e_sha) f_ops (outbox_new f_sealed 2 100)).2 in
  let o' := rehydrate (O:=sealed_outbox e_sha) (bstr "c") 50 (outbox_new (ob_store o) 2 100) in
  pending (bstr "c") o' ≡ₚ pending (bstr "c") o /\ pending (bstr "c") o = [f_gid 3].
Proof.
  intros o o'. split; [|vm_compute; reflexivity].
  refine (proj1 (restart_recovers (P:=toy) (OOk:=f_ok) f_sealed 2 100 f_ops (bstr "c") 2 100 50 60 _ _ _ _ _)).
  - exact f_sealed_inv.
  - lia.
  - intros c Hc. reflexivity.
  - repeat constructor; try (apply elem_of_singleton; reflexivity); vm_compute; discriminate.
  - apply elem_of_singleton. reflexivity.
Defined.

(** The disk when a write stops half-way through its temporary file. *)
Definition f_dir : Path := chat_dir f_sealed OUTBOX_SUBDIR (e_sha (bstr "c")).
Definition f_tmp : Path := with_extension (f_dir ++ [hex (f_gid 1)]) (bstr "tmp").
Definition f_put_ops : list FsOp := put_ops (P:=toy) e_sha 5%nat OUTBOX_SUBDIR (bstr "c") (f_gid 1) (bstr "record") f_sealed.
Definition f_half : bytes := match f_put_ops with FsWrite _ b :: _ => take 7 b | _ => [] end.
Definition f_crashed : Disk := mkDisk (<[f_tmp := f_half]> (d_files (sf_disk f_sealed))) (d_full (sf_disk f_sealed)).

Lemma f_crashes : crashes f_put_ops (sf_disk f_sealed) f_crashed.
Proof. unfold f_crashed, f_half. exact (crash_writing f_tmp _ _ _ 7). Qed.

Lemma write_crash_safe_witness :
  ((forall subdir chat, load_records (P:=toy) e_sha subdir chat (with_disk f_crashed f_sealed) ≡ₚ load_records (P:=toy) e_sha subdir chat f_sealed) \/
   (forall subdir chat, load_records (P:=toy) e_sha subdir chat (with_disk f_crashed f_sealed) =
      load_records (P:=toy) e_sha subdir chat (put_record (P:=toy) e_sha 5%nat OUTBOX_SUBDIR (bstr "c") (f_gid 1) (bstr "record") f_sealed))) /\
  length f_half = 7%nat.
Proof.
  split; [|vm_compute; reflexivity].
  apply (write_crash_safe (P:=toy) e_sha 5%nat OUTBOX_SUBDIR (bstr "c") (f_gid 1) (bstr "record") f_sealed f_crashed).
  - exact f_sealed_inv.
  - exact f_crashes.
Defined.

(** ** Messages *)

Definition f_keeper0 : KeeperQueue InMemoryOutbox := keeper_new inmem_new 8 100.
Definition f_node (n : GroupNode) : FwdNode InMemoryOutbox :=
  mkFwd n (bstr "c") false false true false [e_fp "bob"] seen_new (outbox_new inmem_new 8 100) f_keeper0 f_keeper0 ∅ [] [].

Lemma group_msg_once_witness :
  let n1 := (handle_group_msg (P:=toy) e_sha 1%nat 10 (e_fp "bob") (bstr "ct") (f_node e_host)).2 in
  handle_group_msg (P:=toy) e_sha 2%nat 20 (e_fp "carol") (bstr "ct") n1 = (Ok tt, n1).
Proof.
  apply (group_msg_once (P:=toy) e_sha (f_node e_host) 1%nat 2%nat 10 20 (e_fp "bob") (e_fp "carol") (bstr "ct") []).
  - exact seen_new_ok.
  - vm_compute. reflexivity.
  - apply not_elem_of_nil.
Defined.

(** The host speaks in the epoch after its rotation; Bob's commit is late. *)
Definition f_early : bytes := Eval vm_compute in
  (some_of (A:=bytes) (to_option (encrypt_signed (P:=toy) (encode_payload None (bstr "hello")) e_host2).1) <: bytes).
Definition f_mem1' : TreeKemGroup := Eval vm_compute in (decrypt_verified (P:=toy) f_early e_mem1).2.

Lemma early_message_lost_witness :
  exists e, decrypt_verified (P:=toy) f_early d_mem = (Err (Fail e), d_mem) /\
  (decrypt_verified (P:=toy) f_early e_mem1).1 = Ok (encode_payload None (bstr "hello")) /\
  let n1 := (handle_group_msg (P:=toy) e_sha 1%nat 10 (e_fp "host") f_early (f_node e_bob)).2 in
  let n2 := with_node (with_group (Some e_mem1) (fw_node n1)) n1 in
  handle_group_msg (P:=toy) e_sha 2%nat 20 (e_fp "host") f_early n2 = (Ok tt, n2).
Proof.
  exists BadSignature. assert (decrypt_verified (P:=toy) f_early d_mem = (Err (Fail BadSignature), d_mem)) as He
    by (vm_compute; reflexivity).
  assert (decrypt_verified (P:=toy) f_early e_mem1 = (Ok (encode_payload None (bstr "hello")), f_mem1')) as Ho
    by (vm_compute; reflexivity).
  split; [exact He|]. split; [rewrite Ho; reflexivity|].
  refine (proj2 (proj2 (early_message_lost (P:=toy) e_sha (f_node e_bob) d_mem e_mem1 f_mem1' 1%nat 2%nat 10 20
    (e_fp "host") (e_fp "host") f_early _ BadSignature _ _ _ He Ho))).
  - exact seen_new_ok.
  - apply not_elem_of_nil.
  - reflexivity.
Defined.

(** Bob speaks; Carol is on the host's roster and away. *)
Definition f_bobs : bytes := Eval vm_compute in
  (some_of (A:=bytes) (to_option (encrypt_signed (P:=toy) (encode_payload None (bstr "hi")) d_mem).1) <: bytes).
Definition f_host' : TreeKemGroup := Eval vm_compute in (decrypt_verified (P:=toy) f_bobs d_host).2.
Definition f_keeping : FwdNode InMemoryOutbox := f_node (with_roster {[1 := e_fp "bob"; 2 := e_fp "carol"]} e_host).

Lemma keeper_catches_up_witness :
  exists n', handle_group_msg (P:=toy) e_sha 1%nat 10 (e_fp "bob") f_bobs f_keeping = (Ok tt, n') /\
    frame_encode (FGroupMsg f_bobs) ∈ replay (e_fp "carol") n' /\
    frame_decode (frame_encode (FGroupMsg f_bobs)) = Some (FGroupMsg f_bobs).
Proof.
  apply (keeper_catches_up (P:=toy) e_sha f_keeping ∅ d_host f_host' 1%nat 10 2 (e_fp "bob") f_bobs
    (encode_payload None (bstr "hi")) (e_fp "carol") e_sha_len seen_new_ok).
  - apply kept_new; [lia|reflexivity].
  - reflexivity.
  - reflexivity.
  - vm_compute. discriminate.
  - apply not_elem_of_nil.
  - reflexivity.
  - vm_compute. reflexivity.
  - vm_compute. reflexivity.
  - vm_compute. discriminate.
  - vm_compute. discriminate.
  - refine (bool_decide_unpack _ _). vm_compute. exact I.
Defined.

Lemma replica_never_acked_witness :
  exists n', (do* _ := handle_mailbox_put (P:=toy) e_sha 1%nat 10 (e_fp "carol") (frame_encode (FGroupMsg f_bobs)) in
              handle_delivery_ack (e_fp "carol") [gossip_id e_sha f_bobs]) f_keeping = (Ok tt, n') /\
    frame_encode (FGroupMsg f_bobs) ∈ replay (e_fp "carol") n'.
Proof.
  apply (replica_never_acked (P:=toy) e_sha f_keeping ∅ 1%nat 10 (e_fp "carol") f_bobs e_sha_len).
  - apply kept_new; [lia|reflexivity].
  - reflexivity.
  - reflexivity.
  - vm_compute. discriminate.
  - vm_compute. discriminate.
Defined.

(** A keeper with one frame for Carol, and one with none. *)
Definition f_full : KeeperQueue InMemoryOutbox := (buffer (P:=toy) 1%nat (e_fp "carol") (f_gid 1) (bstr "frame") 10 f_keeper0).2.

Lemma keepers_converge_witness :
  exists n', receive_puts (P:=toy) e_sha 2%nat 20 (missing (P:=toy) (digest f_keeper0) f_full) f_keeping = (Ok tt, n') /\
    bstr "frame" ∈ (drain (P:=toy) (e_fp "carol") (fw_keeper n')).*2.
Proof.
  destruct (buffer_kept (P:=toy) 1%nat (e_fp "carol") (f_gid 1) (bstr "frame") 10 f_keeper0 ∅) as [Hk _];
    [apply kept_new; [lia|reflexivity]|reflexivity|vm_compute; discriminate|]. fold f_full in Hk.
  assert (forall r e, e ∈ queue (<[e_fp "carol" := spec_keep 8 (spec_add (f_gid 1) 10 (bstr "frame") (queue ∅ (e_fp "carol")))]> ∅) r ->
    r = e_fp "carol" /\ en_frame e = bstr "frame") as Hq.
  { intros r e. rewrite queue_insert. case_decide as E; [|unfold queue; rewrite lookup_empty; intros []%elem_of_nil].
    intros He. split; [done|]. assert (e = mkEntry (f_gid 1) 10 (bstr "frame")) as -> by (by apply list_elem_of_singleton). done. }
  destruct (keepers_converge (P:=toy) e_sha f_full f_keeping _ ∅ 2%nat 20 e_sha_len Hk) as (n' & E & H).
  - apply kept_new; [lia|reflexivity].
  - reflexivity.
  - reflexivity.
  - intros r. unfold queue. rewrite lookup_empty. vm_compute. discriminate.
  - intros r e He. rewrite (proj2 (Hq r e He)). vm_compute. discriminate.
  - intros r f f' (r1 & e1 & He1 & _ & [= -> ->])%(elem_of_missing _ f_full _ _ Hk) (r2 & e2 & He2 & _ & [= -> ->])%(elem_of_missing _ f_full _ _ Hk) _.
    rewrite (proj2 (Hq _ _ He1)), (proj2 (Hq _ _ He2)). reflexivity.
  - exists n'. split; [exact E|].
    destruct (H (e_fp "carol") (mkEntry (f_gid 1) 10 (bstr "frame"))) as [Hd|Hd]; [|apply elem_of_nil in Hd as []|exact Hd].
    rewrite queue_insert, decide_True by reflexivity. by left.
Defined.
