(* ===== verification/Noise.v ===== *)
(** * PQ-Noise sessions (crates/crypto/src/noise.rs)

    One hybrid step at the first message, then one symmetric chain per
    direction.  The initiator repeats the establishment header on every
    message, so the responder can start from whichever arrives first.  The
    theorems: any order of arrival delivers ([noise_any_order]), hostile bytes
    are harmless ([noise_hostile_safe]), and the store of skipped keys has no
    overall bound ([noise_skipped_grows]). *)

From S2P Require Import Prelude Wire Crypto Hybrid Ratchet Conversation Toy.

(** Run an operation on every element and collect the results. *)
Fixpoint st_map {S E A B} (f : A -> ST S E B) (l : list A) : ST S E (list B) :=
  match l with
  | [] => st_ret []
  | a :: l => do* b := f a in do* bs := st_map f l in st_ret (b :: bs)
  end.

Definition I2R : bytes := bstr "talkrypt-noise-i2r".
Definition R2I : bytes := bstr "talkrypt-noise-r2i".

(** The message header: a flag, the establishment material when the flag is
    set, the message number. *)
Definition noise_header (est : option (RatchetPublic * bytes)) (n : Z) : bytes :=
  let w := w_new |> put_u8 (if est then 1 else 0) in
  let w := match est with
           | Some (p, ct) => w |> put_bytes (rp_encode p) |> put_bytes ct
           | None => w
           end in
  w |> put_u32 n |> into_vec.

Definition noise_header_get (profile : KemProfile) : Get CryptoError (option (RatchetPublic * bytes)) :=
  get* flag := q get_u8 in
  if decide (flag <> 0) then
    get* eph_public := rp_field profile in
    get* eph_ct := q get_vec in
    gret (Some (eph_public, eph_ct))
  else gret None.

Section Noise.
Context {P : Primitives}.

Record NoiseSession : Type := mkNoise {
  nz_initiator : bool;
  nz_profile : KemProfile;
  nz_root0 : bytes;
  nz_peer_prekey : option RatchetPublic;
  nz_self_prekey : option RatchetSecret;
  nz_eph_public : option RatchetPublic;
  nz_eph_ct : bytes;
  nz_send_chain : option bytes;
  nz_recv_chain : option bytes;
  nz_send_n : Z;
  nz_recv_n : Z;
  nz_skipped : gmap Z bytes }.

Definition noise_initiator (root0 : bytes) (peer_prekey : RatchetPublic) : NoiseSession :=
  {| nz_initiator := true; nz_profile := rp_profile peer_prekey; nz_root0 := root0;
     nz_peer_prekey := Some peer_prekey; nz_self_prekey := None;
     nz_eph_public := None; nz_eph_ct := []; nz_send_chain := None; nz_recv_chain := None;
     nz_send_n := 0; nz_recv_n := 0; nz_skipped := ∅ |}.

Definition noise_responder (root0 : bytes) (prekey_secret : RatchetSecret) : NoiseSession :=
  {| nz_initiator := false; nz_profile := rs_profile prekey_secret; nz_root0 := root0;
     nz_peer_prekey := None; nz_self_prekey := Some prekey_secret;
     nz_eph_public := None; nz_eph_ct := []; nz_send_chain := None; nz_recv_chain := None;
     nz_send_n := 0; nz_recv_n := 0; nz_skipped := ∅ |}.

(** Field updates. *)
Definition nz_set_chains (send recv : bytes) (s : NoiseSession) : NoiseSession :=
  {| nz_initiator := nz_initiator s; nz_profile := nz_profile s; nz_root0 := nz_root0 s;
     nz_peer_prekey := nz_peer_prekey s; nz_self_prekey := nz_self_prekey s;
     nz_eph_public := nz_eph_public s; nz_eph_ct := nz_eph_ct s;
     nz_send_chain := Some send; nz_recv_chain := Some recv;
     nz_send_n := nz_send_n s; nz_recv_n := nz_recv_n s; nz_skipped := nz_skipped s |}.
Definition nz_set_eph (p : RatchetPublic) (ct : bytes) (s : NoiseSession) : NoiseSession :=
  {| nz_initiator := nz_initiator s; nz_profile := nz_profile s; nz_root0 := nz_root0 s;
     nz_peer_prekey := nz_peer_prekey s; nz_self_prekey := nz_self_prekey s;
     nz_eph_public := Some p; nz_eph_ct := ct;
     nz_send_chain := nz_send_chain s; nz_recv_chain := nz_recv_chain s;
     nz_send_n := nz_send_n s; nz_recv_n := nz_recv_n s; nz_skipped := nz_skipped s |}.
Definition nz_set_send (ck : bytes) (n : Z) (s : NoiseSession) : NoiseSession :=
  {| nz_initiator := nz_initiator s; nz_profile := nz_profile s; nz_root0 := nz_root0 s;
     nz_peer_prekey := nz_peer_prekey s; nz_self_prekey := nz_self_prekey s;
     nz_eph_public := nz_eph_public s; nz_eph_ct := nz_eph_ct s;
     nz_send_chain := Some ck; nz_recv_chain := nz_recv_chain s;
     nz_send_n := n; nz_recv_n := nz_recv_n s; nz_skipped := nz_skipped s |}.
Definition nz_set_recv (ck : option bytes) (n : Z) (sk : gmap Z bytes) (s : NoiseSession) : NoiseSession :=
  {| nz_initiator := nz_initiator s; nz_profile := nz_profile s; nz_root0 := nz_root0 s;
     nz_peer_prekey := nz_peer_prekey s; nz_self_prekey := nz_self_prekey s;
     nz_eph_public := nz_eph_public s; nz_eph_ct := nz_eph_ct s;
     nz_send_chain := nz_send_chain s; nz_recv_chain := ck;
     nz_send_n := nz_send_n s; nz_recv_n := n; nz_skipped := sk |}.

Definition chains_from_root (initiator : bool) (session_root : bytes) : bytes * bytes :=
  let i2r := (kdf_rk session_root I2R).2 in
  let r2i := (kdf_rk session_root R2I).2 in
  if initiator then (i2r, r2i) else (r2i, i2r).

(** [cs] supplies key generation (draws 0, 1) and the encapsulation (draw 2). *)
Definition establish_initiator (cs : nat -> coins) : ST NoiseSession fault unit :=
  do* s := st_get in
  do* peer := st_lift (ok_or (nz_peer_prekey s) (Fail (Malformed "noise: no peer prekey"))) in
  let (eph_secret, eph_public) := rs_generate (nz_profile s) cs in
  do* (ct, ikm) := lift_crypto (rs_step_to eph_secret peer (cs 2%nat)) in
  let session_root := (kdf_rk (nz_root0 s) ikm).1 in
  let (send, recv) := chains_from_root (nz_initiator s) session_root in
  do* _ := st_modify (nz_set_chains send recv) in
  st_modify (nz_set_eph eph_public ct).

Definition establish_responder (eph_public : RatchetPublic) (ct : bytes) : ST NoiseSession fault unit :=
  do* s := st_get in
  do* prekey := st_lift (ok_or (nz_self_prekey s) (Fail (Malformed "noise: no prekey secret"))) in
  do* ikm := lift_crypto (rs_step_from prekey eph_public ct) in
  let session_root := (kdf_rk (nz_root0 s) ikm).1 in
  let (send, recv) := chains_from_root (nz_initiator s) session_root in
  st_modify (nz_set_chains send recv).

Definition nz_can_send (s : NoiseSession) : bool :=
  bool_decide (is_Some (nz_send_chain s)) || nz_initiator s.

Definition nz_encrypt (cs : nat -> coins) (plaintext : bytes) : ST NoiseSession fault bytes :=
  do* s := st_get in
  do* _ := (if bool_decide (nz_send_chain s = None) then
              if nz_initiator s then establish_initiator cs
              else st_err (Fail (Malformed "noise: responder cannot send before receiving"))
            else st_ret tt) in
  do* s := st_get in
  do* ck := st_expect (nz_send_chain s) "send chain established" in
  let (next, mk_seed) := kdf_ck ck in
  let (key, nonce) := kdf_mk mk_seed in
  do* est := (if nz_initiator s
              then do* p := st_expect (nz_eph_public s) "unwrap on None" in
                   st_ret (Some (p, nz_eph_ct s))
              else st_ret None) in
  let aad := noise_header est (nz_send_n s) in
  do* ciphertext := lift_crypto (aead_seal key nonce plaintext aad) in
  do* _ := st_modify (fun s => nz_set_send next (u32_add (nz_send_n s) 1) s) in
  st_ret (msg_encode aad ciphertext).

(** [while self.recv_n < n], [k] iterations left; [ck] is the local variable. *)
Fixpoint nz_skip (k : nat) (ck : bytes) : ST NoiseSession fault bytes :=
  match k with
  | O => st_ret ck
  | S k =>
      let (next, mk_seed) := kdf_ck ck in
      do* _ := st_modify (fun s =>
        nz_set_recv (nz_recv_chain s) (u32_add (nz_recv_n s) 1)
          (<[nz_recv_n s := mk_seed]> (nz_skipped s)) s) in
      nz_skip k next
  end.

(** [decrypt_inner] from the skipped-key lookup on. *)
Definition nz_receive (n : Z) (ciphertext aad : bytes) : ST NoiseSession fault bytes :=
  do* s := st_get in
  match nz_skipped s !! n with
  | Some mk_seed =>
      let (key, nonce) := kdf_mk mk_seed in
      do* pt := lift_crypto (aead_open key nonce ciphertext aad) in
      do* _ := st_modify (fun s =>
        nz_set_recv (nz_recv_chain s) (nz_recv_n s) (delete n (nz_skipped s)) s) in
      st_ret pt
  | None =>
      do* ck := st_lift (ok_or (nz_recv_chain s) (Fail DecryptionFailed)) in
      if decide (n < nz_recv_n s) then st_err (Fail DecryptionFailed)
      else if decide (n - nz_recv_n s > MAX_SKIP) then st_err (Fail (TooManySkipped MAX_SKIP))
      else
        do* ck := nz_skip (Z.to_nat (n - nz_recv_n s)) ck in
        let (next, mk_seed) := kdf_ck ck in
        let (key, nonce) := kdf_mk mk_seed in
        do* pt := lift_crypto (aead_open key nonce ciphertext aad) in
        do* _ := st_modify (fun s =>
          nz_set_recv (Some next) (u32_add (nz_recv_n s) 1) (nz_skipped s) s) in
        st_ret pt
  end.

(** The first message the responder accepts establishes its chains. *)
Definition nz_establish (est : option (RatchetPublic * bytes)) : ST NoiseSession fault unit :=
  do* s := st_get in
  match est with
  | Some (eph_public, eph_ct) =>
      if bool_decide (nz_recv_chain s = None) && negb (nz_initiator s)
      then establish_responder eph_public eph_ct else st_ret tt
  | None => st_ret tt
  end.

Definition nz_decrypt_inner (message : bytes) : ST NoiseSession fault bytes :=
  do* (aad, ciphertext) := lift_crypto (msg_decode message) in
  do* s := st_get in
  do* (est, hr) := lift_crypto (noise_header_get (nz_profile s) (r_new aad)) in
  do* _ := nz_establish est in
  do* (n, hr) := lift_crypto (q get_u32 hr) in
  do* _ := lift_crypto (q finish hr) in
  nz_receive n ciphertext aad.

(** Runs on a clone and commits only on success. *)
Definition nz_decrypt (message : bytes) : ST NoiseSession fault bytes := fun s =>
  match nz_decrypt_inner message s with
  | (Ok pt, trial) => (Ok pt, trial)
  | (Err e, _) => (Err e, s)
  end.

End Noise.

(** ** Header codec *)

Definition est_wf (prof : KemProfile) (est : option (RatchetPublic * bytes)) : Prop :=
  match est with
  | Some (p, ct) => rp_wf p /\ rp_profile p = prof /\ zlen (rp_encode p) <= 2 ^ 17 /\ zlen ct <= 2 ^ 20
  | None => True
  end.

Definition est_enc (est : option (RatchetPublic * bytes)) : bytes :=
  [byte_of (if est then 1 else 0)] ++
  match est with Some (p, ct) => enc_bytes (rp_encode p) ++ enc_bytes ct | None => [] end.

Lemma noise_header_norm est n : noise_header est n = est_enc est ++ be_bytes 4 n.
Proof. unfold noise_header, est_enc. destruct est as [[p ct]|]; by wire_norm. Qed.

Lemma decodes_est prof est : est_wf prof est -> decodes (noise_header_get prof) (est_enc est) est.
Proof.
  intros H. unfold noise_header_get, est_enc. destruct est as [[p ct]|].
  - destruct H as (Hp & <- & _ & Hct). apply decodes_u8_tag; [lia|]. rewrite decide_True by done.
    eapply decodes_bind; [by apply decodes_rp_field|]. apply (decodes_ret_bind _ (fun ct => Some (p, ct))).
    apply decodes_q, decodes_bytes. unfold MAX_FRAME. lia.
  - apply decodes_u8_tag; [lia|]. rewrite decide_False by lia. apply decodes_ret.
Qed.

Section Delivery.
Context {P : Primitives} {POk : PrimitivesOk P}.

(** [m] parses, at the profile [prof], to an establishment part, a number and
    a ciphertext under the header bytes [aad]. *)
Definition nz_parses (prof : KemProfile) (m : bytes) (est : option (RatchetPublic * bytes)) (n : Z)
    (ct aad : bytes) : Prop :=
  msg_decode m = Ok (aad, ct) /\
  exists r1 r2, noise_header_get prof (r_new aad) = Ok (est, r1) /\
    get_u32 r1 = Ok (n, r2) /\ finish r2 = Ok (tt, r2).

Lemma nz_decrypt_parsed m est n ct aad s :
  nz_parses (nz_profile s) m est n ct aad ->
  nz_decrypt m s = match (do* _ := nz_establish est in nz_receive n ct aad) s with
                   | (Ok pt, s') => (Ok pt, s') | (Err e, _) => (Err e, s) end.
Proof.
  intros (Em & r1 & r2 & E1 & E2 & E3). unfold nz_decrypt, nz_decrypt_inner, lift_crypto, st_lift, st_get.
  unfold st_bind. rewrite Em. cbn [map_err]. rewrite E1. cbn [map_err].
  destruct (nz_establish est s) as [[[]|e] s1]; [|done]. unfold q. rewrite E2. cbn [map_err]. by rewrite E3.
Qed.

(** An accepted message was parsed, established and received. *)
Lemma nz_decrypt_Ok m s pt s' :
  nz_decrypt m s = (Ok pt, s') ->
  exists est n ct aad s1, nz_parses (nz_profile s) m est n ct aad /\
    nz_establish est s = (Ok tt, s1) /\ nz_receive n ct aad s1 = (Ok pt, s').
Proof.
  unfold nz_decrypt, nz_decrypt_inner, lift_crypto, st_lift, st_get, st_bind, q.
  destruct (msg_decode m) as [[aad ct]|] eqn:Em; [|done]. cbn [map_err].
  destruct (noise_header_get _ _) as [[est r1]|] eqn:E1; [|done]. cbn [map_err].
  destruct (nz_establish est s) as [[[]|] s1] eqn:E0; [|done].
  destruct (get_u32 r1) as [[n r2]|] eqn:E2; [|done]. cbn [map_err].
  destruct (finish r2) as [[[] r3]|] eqn:E3; [|done]. cbn [map_err].
  destruct (nz_receive n ct aad s1) as [[pt'|] s2] eqn:E4; [|done]. intros [= -> ->].
  exists est, n, ct, aad, s1. split; [|done]. split; [done|].
  exists r1, r2. split; [done|]. split; [done|]. unfold finish in *. case_decide; [done|]. by simplify_eq.
Qed.

(** What [nz_decrypt] does with a message that has a well-formed header. *)
Lemma nz_decrypt_honest est n ct s :
  est_wf (nz_profile s) est -> is_u32 n ->
  zlen (noise_header est n) <= MAX_FRAME -> zlen ct <= MAX_FRAME ->
  nz_decrypt (msg_encode (noise_header est n) ct) s =
    match (do* _ := nz_establish est in nz_receive n ct (noise_header est n)) s with
    | (Ok pt, s') => (Ok pt, s') | (Err e, _) => (Err e, s) end.
Proof.
  intros He Hn Ha Hc. apply nz_decrypt_parsed. split; [by apply msg_roundtrip|].
  assert (rwf (r_new (noise_header est n))) as Hw
    by (apply rwf_new; unfold MAX_FRAME, usize_max in *; lia).
  destruct (decodes_est _ _ He (r_new (noise_header est n)) (be_bytes 4 n) Hw) as (r1 & E1 & Hw1 & Hr1).
  { by rewrite rest_new, noise_header_norm. }
  destruct (decodes_u32 n Hn r1 [] Hw1) as (r2 & E2 & Hw2 & Hr2); [by rewrite app_nil_r|].
  exists r1, r2. split; [done|]. split; [done|]. unfold finish. by rewrite remaining_rest, Hr2.
Qed.

(** ** The sending side *)

Definition nz_est (x : NoiseSession) : option (RatchetPublic * bytes) :=
  if nz_initiator x then (fun p => (p, nz_eph_ct x)) <$> nz_eph_public x else None.

(** An established sender with sending chain [ck]. *)
Record nz_sender (x : NoiseSession) (ck : bytes) : Prop := {
  ns_chain : nz_send_chain x = Some ck;
  ns_n : is_u32 (nz_send_n x);
  ns_eph : nz_initiator x = true -> is_Some (nz_eph_public x);
  ns_wf : est_wf (nz_profile x) (nz_est x) }.

(** [m] is the honest message number [n] sealed under the key seed [seed]. *)
Definition nz_carries (est : option (RatchetPublic * bytes)) (seed : bytes) (n : Z) (m pt : bytes) : Prop :=
  exists ct, m = msg_encode (noise_header est n) ct /\ is_u32 n /\
    zlen (noise_header est n) <= MAX_FRAME /\ zlen ct <= MAX_FRAME /\
    open_with seed ct (noise_header est n) = Ok pt.

Lemma noise_header_len prof est n : est_wf prof est -> zlen (noise_header est n) <= 2 ^ 21.
Proof.
  intros H. rewrite noise_header_norm, zlen_app, zlen_be_bytes. unfold est_enc. rewrite zlen_app.
  change (zlen [_]) with 1. destruct est as [[p ct]|]; [|rewrite zlen_nil; lia].
  destruct H as (_ & _ & Hp & Hc). rewrite zlen_app, !zlen_enc_bytes. lia.
Qed.

Lemma nz_encrypt_run cs x ck pt :
  nz_sender x ck -> zlen pt <= MAX_FRAME - 16 ->
  let x' := nz_set_send (chain_key ck 1) (u32_add (nz_send_n x) 1) x in
  exists m, nz_encrypt cs pt x = (Ok m, x') /\ nz_sender x' (chain_key ck 1) /\
    nz_carries (nz_est x) (chain_seed ck 0) (nz_send_n x) m pt.
Proof.
  intros [Hck Hn He Hwf] Hpt x'. set (aad := noise_header (nz_est x) (nz_send_n x)).
  pose proof (noise_header_len _ _ (nz_send_n x) Hwf) as Hl. fold aad in Hl.
  destruct (seal_with_total (chain_seed ck 0) pt aad) as (ct & Hs & Hct); [unfold MAX_FRAME in *; lia..|].
  exists (msg_encode aad ct). split; [|split].
  - unfold nz_encrypt, st_bind, st_get, st_expect, st_lift, lift_crypto. rewrite Hck.
    rewrite bool_decide_false by done. cbn. rewrite Hck. cbn.
    unfold chain_seed, chain_key, seal_with in *. subst x'.
    destruct (kdf_ck ck) as [next seed]. cbn in *. destruct (kdf_mk seed) as [key nonce]. cbn in *.
    unfold st_ret, st_lift, aad, nz_est in *. destruct (nz_initiator x).
    + destruct (He eq_refl) as [p Hp]. rewrite Hp in *. cbn in *. by rewrite Hs.
    + by rewrite Hs.
  - split; [done|apply is_u32_add|exact He|exact Hwf].
  - exists ct. split; [done|]. split; [done|]. fold aad.
    split; [unfold MAX_FRAME; lia|]. split; [lia|]. by apply open_seal_with.
Qed.

(** An initiator that has not sent yet behaves like the established one. *)
Lemma nz_encrypt_first cs pt x x1 :
  nz_send_chain x = None -> nz_initiator x = true -> establish_initiator cs x = (Ok tt, x1) ->
  nz_send_chain x1 <> None -> nz_encrypt cs pt x = nz_encrypt cs pt x1.
Proof.
  intros Hc Hi He Hn. unfold nz_encrypt. unfold st_bind at 1, st_get at 1. unfold st_bind at 1.
  rewrite Hc, Hi. rewrite bool_decide_true by done. rewrite He.
  symmetry. unfold st_bind at 1, st_get at 1. unfold st_bind at 1. by rewrite bool_decide_false.
Qed.

(** ** Establishment *)

(** The first step of both sides agrees, whatever the draws. *)
Lemma establish_agree cs root0 sk pk :
  key_pair sk pk ->
  exists x1 est i2r r2i,
    establish_initiator cs (noise_initiator root0 pk) = (Ok tt, x1) /\
    x1 = nz_set_eph est.1 est.2 (nz_set_chains i2r r2i (noise_initiator root0 pk)) /\
    nz_sender x1 i2r /\ nz_est x1 = Some est /\
    nz_establish (Some est) (noise_responder root0 sk) =
      (Ok tt, nz_set_chains r2i i2r (noise_responder root0 sk)).
Proof.
  intros K. destruct (key_pair_generate (rp_profile pk) cs) as [Kn Hpr].
  destruct (rs_generate (rp_profile pk) cs) as [sn pn] eqn:Eg. cbn [fst snd] in *.
  destruct (step_agree sn pn sk pk (cs 2%nat) Kn K) as (ct & ikm & E1 & E2 & Hct).
  { by rewrite Hpr, (kp_profile _ _ K). }
  set (rt := (kdf_rk root0 ikm).1).
  exists (nz_set_eph pn ct (nz_set_chains (kdf_rk rt I2R).2 (kdf_rk rt R2I).2 (noise_initiator root0 pk))),
    (pn, ct), (kdf_rk rt I2R).2, (kdf_rk rt R2I).2.
  pose proof (key_pair_encode_len _ _ Kn). pose proof kem_lens as [_ Hkl].
  split; [|split; [done|split; [|split; [done|]]]].
  - unfold establish_initiator, st_bind, st_get, st_lift, lift_crypto. cbn [nz_peer_prekey noise_initiator ok_or nz_profile].
    rewrite Eg. unfold st_lift. by rewrite E1.
  - split; cbn; [done|unfold is_u32; lia|eauto|]. split; [apply Kn|]. split; [by rewrite (kp_profile _ _ Kn)|].
    split; [done|]. unfold zlen. rewrite Hct. lia.
  - unfold nz_establish, st_bind, st_get. cbn. unfold establish_responder, st_bind, st_get, st_lift, lift_crypto.
    cbn. unfold st_lift. by rewrite E2.
Qed.

(** ** The receiving side *)

Fixpoint nz_skip_map (ck : bytes) (n : Z) (k : nat) (m : gmap Z bytes) : gmap Z bytes :=
  match k with
  | O => m
  | S k => nz_skip_map (kdf_ck ck).1 (n + 1) k (<[n := (kdf_ck ck).2]> m)
  end.

Lemma nz_skip_map_lookup ck n k m j :
  nz_skip_map ck n k m !! j =
    if decide (n <= j < n + Z.of_nat k) then Some (chain_seed ck (Z.to_nat (j - n))) else m !! j.
Proof.
  revert ck n m. induction k as [|k IH]; intros ck n m; cbn [nz_skip_map].
  { by rewrite decide_False by lia. }
  rewrite IH. destruct (decide (j = n)) as [->|Hj].
  - rewrite decide_False by lia. rewrite decide_True by lia. by rewrite Z.sub_diag, lookup_insert_eq.
  - rewrite lookup_insert_ne by done. destruct (decide (n + 1 <= j < n + 1 + Z.of_nat k)).
    + rewrite decide_True by lia.
      by replace (Z.to_nat (j - n)) with (S (Z.to_nat (j - (n + 1)))) by lia.
    + by rewrite decide_False by lia.
Qed.

Lemma nz_skip_map_size ck n k m :
  (forall j, n <= j -> m !! j = None) -> size (nz_skip_map ck n k m) = (size m + k)%nat.
Proof.
  revert ck n m. induction k as [|k IH]; intros ck n m Hm; cbn [nz_skip_map]; [lia|].
  rewrite IH.
  - rewrite map_size_insert_None by (apply Hm; lia). lia.
  - intros j Hj. rewrite lookup_insert_ne by lia. apply Hm. lia.
Qed.

Lemma nz_skip_run k ck s :
  0 <= nz_recv_n s -> nz_recv_n s + Z.of_nat k < 2 ^ 32 ->
  nz_skip k ck s = (Ok (chain_key ck k),
    nz_set_recv (nz_recv_chain s) (nz_recv_n s + Z.of_nat k) (nz_skip_map ck (nz_recv_n s) k (nz_skipped s)) s).
Proof.
  revert s ck. induction k as [|k IH]; intros s ck Hn Hlt; cbn [nz_skip].
  { unfold st_ret. rewrite Z.add_0_r. by destruct s. }
  cbn [chain_key nz_skip_map]. destruct (kdf_ck ck) as [next seed]. unfold st_bind, st_modify.
  assert (u32_add (nz_recv_n s) 1 = nz_recv_n s + 1) as Hadd
    by (apply u32_wrap_small; unfold is_u32; lia).
  rewrite IH; cbn; rewrite ?Hadd; [|lia..]. unfold nz_set_recv. cbn. do 2 f_equal. lia.
Qed.

(** The receiver after the messages [seen] of the chain that starts at [ck]
    have arrived, the furthest being just before [f]: it stores exactly the
    keys of the messages still missing. *)
Record nz_receiving (y : NoiseSession) (ck : bytes) (f : nat) (seen : list nat) : Prop := {
  nr_ck : nz_recv_chain y = Some (chain_key ck f);
  nr_n : nz_recv_n y = Z.of_nat f;
  nr_seen : Forall (fun i => i < f)%nat seen;
  nr_keys j : nz_skipped y !! j =
    if decide (0 <= j < Z.of_nat f /\ Z.to_nat j ∉ seen) then Some (chain_seed ck (Z.to_nat j)) else None;
  nr_size : (size (nz_skipped y) + length seen = f)%nat }.

Lemma nz_receive_stored y ck f seen i ct aad pt :
  nz_receiving y ck f seen -> i ∉ seen -> (i < f)%nat -> open_with (chain_seed ck i) ct aad = Ok pt ->
  exists c n sk, nz_receive (Z.of_nat i) ct aad y = (Ok pt, nz_set_recv c n sk y) /\
    nz_receiving (nz_set_recv c n sk y) ck f (i :: seen).
Proof.
  intros [Rck Rn Rs Rk Rz] Hi Hif Hop. pose proof (Rk (Z.of_nat i)) as Hki.
  rewrite Nat2Z.id, decide_True in Hki by (split; [lia|done]).
  exists (nz_recv_chain y), (nz_recv_n y), (delete (Z.of_nat i) (nz_skipped y)). split.
  - unfold nz_receive, st_bind, st_get. rewrite Hki. unfold open_with in Hop.
    destruct (kdf_mk (chain_seed ck i)) as [key nonce]. cbn in *. unfold lift_crypto, st_lift. by rewrite Hop.
  - split; cbn; try done.
    + by constructor.
    + intros j. destruct (decide (j = Z.of_nat i)) as [->|Hj].
      * rewrite lookup_delete_eq, decide_False; [done|]. rewrite Nat2Z.id. set_solver.
      * rewrite lookup_delete_ne by done. rewrite Rk. apply decide_ext. rewrite not_elem_of_cons.
        split; [|naive_solver]. intros [? ?]. split_and!; [lia..|lia|done].
    + rewrite map_size_delete_Some by done.
      assert (size (nz_skipped y) <> 0%nat); [|lia].
      intros E%map_size_empty_inv. by rewrite E in Hki.
Qed.

Lemma nz_receive_ahead y ck f seen i ct aad pt :
  nz_receiving y ck f seen -> (f <= i)%nat -> Z.of_nat (i - f) <= MAX_SKIP -> Z.of_nat (S i) < 2 ^ 32 ->
  open_with (chain_seed ck i) ct aad = Ok pt ->
  exists c n sk, nz_receive (Z.of_nat i) ct aad y = (Ok pt, nz_set_recv c n sk y) /\
    nz_receiving (nz_set_recv c n sk y) ck (S i) (i :: seen).
Proof.
  intros [Rck Rn Rs Rk Rz] Hif Hm Hu Hop. set (sk := nz_skip_map (chain_key ck f) (Z.of_nat f) (i - f) (nz_skipped y)).
  exists (Some (chain_key ck (S i))), (Z.of_nat (S i)), sk. split.
  - unfold nz_receive, st_bind, st_get. rewrite Rk, decide_False by lia. unfold st_lift. rewrite Rck. cbn [ok_or].
    rewrite Rn, decide_False by lia. rewrite decide_False by lia. rewrite nz_skip_run by lia.
    replace (Z.to_nat _) with (i - f)%nat by lia. rewrite Rn, chain_key_add.
    replace (f + (i - f))%nat with i by lia. fold sk. unfold open_with, chain_seed in Hop.
    rewrite chain_key_S. destruct (kdf_ck (chain_key ck i)) as [next seed]. cbn [fst snd] in *.
    destruct (kdf_mk seed) as [key nonce]. cbn in *. unfold lift_crypto, st_lift. rewrite Hop.
    unfold st_modify, nz_set_recv, st_ret, u32_add. cbn. rewrite u32_wrap_small by (unfold is_u32; lia).
    do 3 f_equal. lia.
  - split; cbn [nz_set_recv nz_recv_chain nz_recv_n nz_skipped]; try done.
    + constructor; [lia|]. eapply Forall_impl; [done|]. simpl. lia.
    + intros j. unfold sk. rewrite nz_skip_map_lookup. case_decide as Hj.
      * rewrite decide_True; [|split; [lia|]].
        -- unfold chain_seed. rewrite chain_key_add. do 4 f_equal. lia.
        -- apply not_elem_of_cons. split; [lia|]. intros Hs. rewrite Forall_forall in Rs. specialize (Rs _ Hs). lia.
      * rewrite Rk. apply decide_ext. rewrite not_elem_of_cons. split; [intros [? ?]; split_and!; (lia || done)|].
        intros (? & ? & ?). split; [|done]. lia.
    + unfold sk. rewrite nz_skip_map_size; [simpl; lia|]. intros j Hj. rewrite Rk, decide_False; [done|lia].
Qed.

(** ** Bursts *)

(** Every arrival of [order] is at most [MAX_SKIP] ahead of the position. *)
Fixpoint reaches (f : nat) (order : list nat) : Prop :=
  match order with
  | [] => True
  | i :: order => Z.of_nat i - Z.of_nat f <= MAX_SKIP /\ reaches (f `max` S i) order
  end.

Lemma nz_establish_done est y : nz_recv_chain y <> None -> nz_establish est y = (Ok tt, y).
Proof.
  intros H. unfold nz_establish, st_bind, st_get. destruct est as [[p ct]|]; [|done].
  by rewrite bool_decide_false.
Qed.

Lemma nz_arrives y y1 ck f seen est i m pt :
  nz_establish est y = (Ok tt, y1) -> nz_receiving y1 ck f seen -> est_wf (nz_profile y) est ->
  i ∉ seen -> Z.of_nat i - Z.of_nat f <= MAX_SKIP -> Z.of_nat (S i) < 2 ^ 32 ->
  nz_carries est (chain_seed ck i) (Z.of_nat i) m pt ->
  exists c n sk, nz_decrypt m y = (Ok pt, nz_set_recv c n sk y1) /\
    nz_receiving (nz_set_recv c n sk y1) ck (f `max` S i) (i :: seen).
Proof.
  intros He Hr Hw Hi Hm Hu (ct & -> & Hn & Ha & Hc & Hop).
  rewrite nz_decrypt_honest by done. unfold st_bind. rewrite He. destruct (decide (i < f)%nat).
  - destruct (nz_receive_stored y1 ck f seen i ct _ pt Hr Hi ltac:(done) Hop) as (c & n1 & sk & E & Hr').
    exists c, n1, sk. rewrite E. split; [done|]. by replace (f `max` S i)%nat with f by lia.
  - destruct (nz_receive_ahead y1 ck f seen i ct _ pt Hr ltac:(lia) ltac:(lia) Hu Hop) as (c & n1 & sk & E & Hr').
    exists c, n1, sk. rewrite E. split; [done|]. by replace (f `max` S i)%nat with (S i) by lia.
Qed.

Lemma nz_send_all cs pts x ck :
  nz_sender x ck -> nz_send_n x + zlen pts < 2 ^ 32 -> Forall (fun pt => zlen pt <= MAX_FRAME - 16) pts ->
  exists msgs x', st_map (nz_encrypt cs) pts x = (Ok msgs, x') /\ length msgs = length pts /\
    forall i m pt, msgs !! i = Some m -> pts !! i = Some pt ->
      nz_carries (nz_est x) (chain_seed ck i) (nz_send_n x + Z.of_nat i) m pt.
Proof.
  revert x ck. induction pts as [|pt pts IH]; intros x ck Hsd Hn Hl; cbn [st_map].
  { exists [], x. done. }
  apply Forall_cons in Hl as [Hl Hls]. rewrite zlen_cons in Hn. pose proof (zlen_nonneg pts).
  destruct (nz_encrypt_run cs x ck pt Hsd Hl) as (m & Henc & Hsd' & Hc).
  pose proof (ns_n _ _ Hsd) as Hu. unfold is_u32 in Hu.
  assert (u32_add (nz_send_n x) 1 = nz_send_n x + 1) as Hadd by (apply u32_wrap_small; unfold is_u32; lia).
  destruct (IH _ _ Hsd') as (ms & x' & E & Hlen & Hcs); [simpl; lia|done|].
  exists (m :: ms), x'. unfold st_bind. rewrite Henc, E. split; [done|]. split; [simpl; lia|].
  intros [|i] m' pt'; cbn [lookup list_lookup].
  - intros [= <-] [= <-]. by rewrite Z.add_0_r.
  - intros Hm Hp. specialize (Hcs _ _ _ Hm Hp). rewrite chain_seed_shift in Hcs.
    cbn [nz_send_n nz_set_send] in Hcs. rewrite Hadd in Hcs.
    by replace (nz_send_n x + Z.of_nat (S i)) with (nz_send_n x + 1 + Z.of_nat i) by lia.
Qed.

Lemma nz_receive_all y y1 ck f seen est (msgs pts : list bytes) k order :
  nz_establish est y = (Ok tt, y1) -> nz_profile y1 = nz_profile y ->
  nz_receiving y1 ck f seen -> est_wf (nz_profile y) est -> order <> [] ->
  NoDup order -> Forall (fun i => i < k /\ i ∉ seen)%nat order -> reaches f order -> Z.of_nat k < 2 ^ 32 ->
  (forall i, (i < k)%nat -> nz_carries est (chain_seed ck i) (Z.of_nat i) (msgs !!! i) (pts !!! i)) ->
  exists c n sk, let y' := nz_set_recv c n sk y1 in
    st_map nz_decrypt ((fun i => msgs !!! i) <$> order) y = (Ok ((fun i => pts !!! i) <$> order), y') /\
    nz_receiving y' ck (foldl (fun f i => f `max` S i)%nat f order) (reverse order ++ seen).
Proof.
  intros He Hp Hr Hw Hne Hnd Ho Hre Hk Hc. revert y y1 f seen He Hp Hr Hw Ho Hre.
  induction Hnd as [|i order Hni Hnd IH]; intros y y1 f seen He Hp Hr Hw Ho Hre; [done|].
  apply Forall_cons in Ho as [[Hik His] Ho]. destruct Hre as [Hm Hre]. cbn [st_map fmap list_fmap].
  destruct (nz_arrives y y1 ck f seen est i _ _ He Hr Hw His Hm ltac:(lia) (Hc i Hik)) as (c & n & sk & E & Hr').
  unfold st_bind at 1. rewrite E. destruct order as [|i2 order].
  { exists c, n, sk. split; [done|]. done. }
  set (y2 := nz_set_recv c n sk y1) in *.
  destruct (IH ltac:(done) y2 y2 (f `max` S i)%nat (i :: seen)) as (c' & n' & sk' & E' & Hr''); try done.
  - apply nz_establish_done. by rewrite (nr_ck _ _ _ _ Hr').
  - by rewrite <- Hp in Hw.
  - apply Forall_forall. intros j Hj. rewrite Forall_forall in Ho. destruct (Ho j Hj). split; [done|].
    apply not_elem_of_cons. split; [|done]. by intros ->.
  - exists c', n', sk'. unfold st_bind. rewrite E'. split; [done|].
    cbn [foldl]. rewrite reverse_cons, <- (assoc (++)). exact Hr''.
Qed.

(** A burst of the initiator at a fresh responder. *)
Lemma noise_burst cs root0 sk pk pts order :
  key_pair sk pk -> zlen pts < 2 ^ 32 -> Forall (fun pt => zlen pt <= MAX_FRAME - 16) pts ->
  order <> [] -> NoDup order -> Forall (fun i => i < length pts)%nat order -> reaches 0 order ->
  exists msgs x' y' ck, st_map (nz_encrypt cs) pts (noise_initiator root0 pk) = (Ok msgs, x') /\
    length msgs = length pts /\
    st_map nz_decrypt ((fun i => msgs !!! i) <$> order) (noise_responder root0 sk) =
      (Ok ((fun i => pts !!! i) <$> order), y') /\
    nz_receiving y' ck (foldl (fun f i => f `max` S i)%nat 0%nat order) (reverse order) /\
    nz_can_send y' = true.
Proof.
  intros K Hz Hl Hne Hnd Ho Hre.
  destruct (establish_agree cs root0 sk pk K) as (x1 & est & i2r & r2i & E1 & Hx1 & Hsd & Hest & E2).
  destruct (nz_send_all cs pts x1 i2r Hsd) as (msgs & x' & E & Hlen & Hc); [by rewrite Hx1|done|].
  assert (st_map (nz_encrypt cs) pts (noise_initiator root0 pk) = (Ok msgs, x') \/ pts = []) as [Es| ->].
  { destruct pts as [|pt pts]; [by right|left]. cbn [st_map] in *. unfold st_bind at 1. unfold st_bind at 1 in E.
    by rewrite (nz_encrypt_first cs pt _ x1), E by (done || by rewrite Hx1). }
  2:{ destruct order as [|i order]; [done|]. by apply Forall_cons in Ho as [? _]; simpl in *; lia. }
  set (y1 := nz_set_chains r2i i2r (noise_responder root0 sk)).
  destruct (nz_receive_all (noise_responder root0 sk) y1 i2r 0 [] (Some est) msgs pts (length pts) order)
    as (c & n & skm & Er & Hr); try done.
  - split; cbn; try done. intros j. rewrite decide_False; [done|lia].
  - pose proof (ns_wf _ _ Hsd) as Hw. rewrite Hest, Hx1 in Hw. cbn in *. by rewrite <- (kp_profile _ _ K).
  - eapply Forall_impl; [done|]. intros i Hi. split; [done|]. apply not_elem_of_nil.
  - intros i Hi. destruct (lookup_lt_is_Some_2 pts i Hi) as [pt Hp].
    destruct (lookup_lt_is_Some_2 msgs i ltac:(lia)) as [m Hm].
    rewrite (list_lookup_total_correct _ _ _ Hp), (list_lookup_total_correct _ _ _ Hm).
    specialize (Hc i m pt Hm Hp). by rewrite Hest, Hx1 in Hc.
  - exists msgs, x', (nz_set_recv c n skm y1), i2r. rewrite app_nil_r in Hr. done.
Qed.

(** PQ-Noise needs no ordered channel.  The initiator of a fresh session
    sends a burst; whichever messages arrive, in whatever order (none more
    than [MAX_SKIP] ahead of the furthest seen), each decrypts to its own
    plaintext: the first to arrive establishes the responder.  Afterwards the
    responder can send, and it stores exactly as many keys as messages below
    the furthest are missing. *)
Lemma noise_any_order cs (root0 : bytes) (sk : RatchetSecret) (pk : RatchetPublic)
    (pts : list bytes) (order : list nat) :
  key_pair sk pk -> zlen pts < 2 ^ 32 -> Forall (fun pt => zlen pt <= MAX_FRAME - 16) pts ->
  order <> [] -> NoDup order -> Forall (fun i => i < length pts)%nat order -> reaches 0 order ->
  exists msgs x' y',
    st_map (nz_encrypt cs) pts (noise_initiator root0 pk) = (Ok msgs, x') /\ length msgs = length pts /\
    st_map nz_decrypt ((fun i => msgs !!! i) <$> order) (noise_responder root0 sk) =
      (Ok ((fun i => pts !!! i) <$> order), y') /\
    nz_can_send y' = true /\
    (size (nz_skipped y') + length order = foldl (fun f i => f `max` S i)%nat 0%nat order)%nat.
Proof.
  intros. destruct (noise_burst cs root0 sk pk pts order) as (msgs & x' & y' & ck & ? & ? & ? & Hr & ?); try done.
  exists msgs, x', y'. do 4 (split; [done|]). rewrite <- (length_reverse order). apply Hr.
Qed.

(** The schedule that loses the first [MAX_SKIP] messages of every [MAX_SKIP + 1]. *)
Definition lossy (m : nat) : list nat := (fun j => j * 1001 + 1000)%nat <$> seq 0 m.

Lemma lossy_S m : lossy (S m) = lossy m ++ [(m * 1001 + 1000)%nat].
Proof. unfold lossy. by rewrite seq_S, fmap_app. Qed.

Lemma reaches_app f l k : reaches f (l ++ k) <-> reaches f l /\ reaches (foldl (fun f i => f `max` S i)%nat f l) k.
Proof. revert f. induction l as [|i l IH]; intros f; simpl; [tauto|]. rewrite IH. tauto. Qed.

Lemma lossy_front m : foldl (fun f i => f `max` S i)%nat 0%nat (lossy m) = (m * 1001)%nat.
Proof. induction m as [|m IH]; [done|]. rewrite lossy_S, foldl_app, IH. simpl. lia. Qed.

Lemma lossy_reaches m : reaches 0 (lossy m).
Proof.
  induction m as [|m IH]; [done|]. rewrite lossy_S, reaches_app, lossy_front. split; [done|].
  split; [|done]. unfold MAX_SKIP. lia.
Qed.

(** The skipped-key store of a PQ-Noise session has no overall bound:
    [MAX_SKIP] limits one jump, not the store.  When a peer lets only the last
    of every 1001 messages through, all of those decrypt and the responder
    holds 1000 keys per delivered message, more than [MAX_SKIP] from the
    second one on. *)
Lemma noise_skipped_grows cs (root0 : bytes) (sk : RatchetSecret) (pk : RatchetPublic) (m : nat) :
  key_pair sk pk -> (0 < m)%nat -> Z.of_nat m * 1001 < 2 ^ 32 ->
  let pts := replicate (m * 1001) [] in
  exists msgs x' y',
    st_map (nz_encrypt cs) pts (noise_initiator root0 pk) = (Ok msgs, x') /\
    st_map nz_decrypt ((fun i => msgs !!! i) <$> lossy m) (noise_responder root0 sk) =
      (Ok (replicate m []), y') /\
    Z.of_nat (size (nz_skipped y')) = Z.of_nat m * MAX_SKIP.
Proof.
  intros K H0 Hm pts.
  destruct (noise_burst cs root0 sk pk pts (lossy m)) as (msgs & x' & y' & ck & E1 & _ & E2 & Hr & _).
  - done.
  - unfold zlen, pts. rewrite length_replicate. lia.
  - apply Forall_replicate. done.
  - destruct m; [lia|]. by rewrite lossy_S; intros ?%app_nil; naive_solver.
  - apply NoDup_fmap_2; [intros ?? ?; lia|apply NoDup_seq].
  - unfold lossy, pts. rewrite length_replicate. apply Forall_fmap, Forall_seq. simpl. lia.
  - apply lossy_reaches.
  - exists msgs, x', y'. split; [done|]. split.
    + rewrite E2. do 2 f_equal. symmetry. unfold lossy. apply replicate_as_Forall_2; [by rewrite !length_fmap, length_seq|].
      rewrite <- list_fmap_compose. apply Forall_fmap, Forall_seq. intros j Hj. cbn.
      symmetry. apply list_lookup_total_correct, lookup_replicate. split; [done|lia].
    + pose proof (nr_size _ _ _ _ Hr) as Hs. rewrite lossy_front, length_reverse in Hs.
      unfold lossy in Hs. rewrite length_fmap, length_seq in Hs. unfold MAX_SKIP. lia.
Qed.
(** ** Lockstep *)

(** [y] follows [x]'s sending chain with nothing missing. *)
Definition nz_flow (x y : NoiseSession) : Prop :=
  nz_profile x = nz_profile y /\
  exists ck, nz_sender x ck /\ nz_recv_chain y = Some ck /\ nz_recv_n y = nz_send_n x /\ nz_skipped y = ∅.

(** Receiving the next message of a chain. *)
Lemma nz_receive_next y ck n ct aad pt :
  nz_recv_chain y = Some ck -> nz_recv_n y = n -> nz_skipped y = ∅ ->
  open_with (chain_seed ck 0) ct aad = Ok pt ->
  nz_receive n ct aad y = (Ok pt, nz_set_recv (Some (chain_key ck 1)) (u32_add n 1) ∅ y).
Proof.
  intros Hck <- Hsk Hop. unfold nz_receive, st_bind, st_get, st_lift. rewrite Hsk, lookup_empty, Hck. cbn [ok_or].
  rewrite decide_False, Z.sub_diag by lia. rewrite decide_False by (unfold MAX_SKIP; lia).
  change (Z.to_nat 0) with 0%nat. cbn [nz_skip]. unfold st_ret.
  unfold open_with, chain_seed, chain_key in *. destruct (kdf_ck ck) as [next seed]. cbn in *.
  destruct (kdf_mk seed) as [key nonce]. cbn in *. unfold lift_crypto, st_lift. rewrite Hop.
  unfold st_modify, nz_set_recv. by rewrite Hsk.
Qed.

(** One message over a flow; the opposite flow is not disturbed. *)
Lemma nz_flow_message cs pt x y y1 ck :
  nz_sender x ck -> nz_profile x = nz_profile y -> nz_establish (nz_est x) y = (Ok tt, y1) ->
  nz_profile y1 = nz_profile y ->
  nz_recv_chain y1 = Some ck -> nz_recv_n y1 = nz_send_n x -> nz_skipped y1 = ∅ -> zlen pt <= MAX_FRAME - 16 ->
  exists m x' y', nz_encrypt cs pt x = (Ok m, x') /\ nz_decrypt m y = (Ok pt, y') /\ nz_flow x' y' /\
    (nz_flow y1 x -> nz_flow y' x').
Proof.
  intros Hsd Hp He Hp1 Hrc Hrn Hsk Hl.
  destruct (nz_encrypt_run cs x ck pt Hsd Hl) as (m & Henc & Hsd' & ct & -> & Hn & Ha & Hc & Hop).
  do 3 eexists. split; [exact Henc|]. split; [|split].
  - rewrite nz_decrypt_honest; [|rewrite <- Hp; apply Hsd|done..]. unfold st_bind. rewrite He.
    by rewrite (nz_receive_next y1 ck _ ct _ pt).
  - split; [cbn; congruence|]. exists (chain_key ck 1). done.
  - intros (Hpr & ck' & [] & Hr & Hn' & Hs'). split; [done|]. exists ck'. by split.
Qed.

Lemma nz_flow_step cs pt x y :
  nz_flow x y -> zlen pt <= MAX_FRAME - 16 ->
  exists m x' y', nz_encrypt cs pt x = (Ok m, x') /\ nz_decrypt m y = (Ok pt, y') /\ nz_flow x' y' /\
    (nz_flow y x -> nz_flow y' x').
Proof.
  intros (Hp & ck & Hsd & Hr & Hn & Hs) Hl. apply (nz_flow_message cs pt x y y ck); try done.
  apply nz_establish_done. by rewrite Hr.
Qed.

(** The first message of the initiator opens both directions. *)
Lemma nz_first_message cs root0 sk pk pt :
  key_pair sk pk -> zlen pt <= MAX_FRAME - 16 ->
  exists m x' y', nz_encrypt cs pt (noise_initiator root0 pk) = (Ok m, x') /\
    nz_decrypt m (noise_responder root0 sk) = (Ok pt, y') /\ nz_flow x' y' /\ nz_flow y' x'.
Proof.
  intros K Hl. destruct (establish_agree cs root0 sk pk K) as (x1 & est & i2r & r2i & E1 & Hx1 & Hsd & Hest & E2).
  assert (nz_profile x1 = rs_profile sk) as Hp by (rewrite Hx1; apply K).
  destruct (nz_flow_message cs pt x1 (noise_responder root0 sk) (nz_set_chains r2i i2r (noise_responder root0 sk)) i2r)
    as (m & x' & y' & E & E' & F & F'); try done; [by rewrite Hest|by rewrite Hx1|].
  exists m, x', y'. rewrite (nz_encrypt_first cs pt _ x1) by (done || by rewrite Hx1).
  do 3 (split; [done|]). apply F'. split; [done|]. exists r2i. subst x1. split; [|done].
  split; cbn; try done; unfold is_u32; lia.
Qed.

End Delivery.

(** ** Hostile input and replay *)

Lemma get_u32_is_u32 r n r' : get_u32 r = Ok (n, r') -> is_u32 n.
Proof.
  unfold get_u32. intros H. inv_run. destruct x as [b r1]. simplify_eq.
  unfold r_take, usize_checked_add in H0. case_decide; [|done]. case_decide; [done|]. simplify_eq.
  match goal with |- is_u32 (be_val ?b) => pose proof (be_val_range b) as Hb; assert (zlen b <= 4) as Hl end.
  { unfold zlen. rewrite length_take. lia. }
  unfold is_u32. pose proof (Z.pow_le_mono_r 256 _ _ ltac:(lia) Hl). change (256 ^ 4) with (2 ^ 32) in *. lia.
Qed.

Section Hostile.
Context {P : Primitives}.

Record nz_inv (s : NoiseSession) : Prop := {
  ni_send : is_u32 (nz_send_n s);
  ni_recv : is_u32 (nz_recv_n s);
  ni_keys : map_Forall (fun j _ => 0 <= j < nz_recv_n s /\ nz_recv_chain s <> None) (nz_skipped s);
  ni_eph : nz_initiator s = true -> is_Some (nz_send_chain s) -> is_Some (nz_eph_public s) }.

Lemma noise_initiator_inv root0 p : nz_inv (noise_initiator root0 p).
Proof. split; cbn; [unfold is_u32; lia..|apply map_Forall_empty|]. by intros _ []. Qed.
Lemma noise_responder_inv root0 sk : nz_inv (noise_responder root0 sk).
Proof. split; cbn; [unfold is_u32; lia..|apply map_Forall_empty|done]. Qed.

(** Establishment touches only the chains of a responder. *)
Lemma nz_establish_frame est s r s1 :
  nz_establish est s = (r, s1) ->
  (forall msg, r <> Err (Panic msg)) /\
  (s1 = s \/ nz_initiator s = false /\ exists a b, s1 = nz_set_chains a b s).
Proof.
  unfold nz_establish, st_bind, st_get. destruct est as [[p ct]|]; [|intros [= <- <-]; by split; [|left]].
  destruct (_ && _) eqn:Hb; [|intros [= <- <-]; by split; [|left]].
  apply andb_true_iff in Hb as [_ Hi%negb_true_iff].
  unfold establish_responder, st_bind, st_get, st_lift, lift_crypto.
  destruct (nz_self_prekey s) as [sk|]; cbn; [|intros [= <- <-]; by split; [|left]].
  unfold st_lift. destruct (rs_step_from _ _ _) as [ikm|e]; cbn; [|intros [= <- <-]; by split; [|left]].
  destruct (chains_from_root _ _) as [a b]. unfold st_modify. intros [= <- <-]. split; [done|]. right. eauto.
Qed.

(** The two ways a message is received. *)
Lemma nz_receive_cases n ct aad s r s' :
  is_u32 (nz_recv_n s) -> is_u32 n -> nz_receive n ct aad s = (r, s') ->
  (forall msg, r <> Err (Panic msg)) /\
  (is_ok r = true ->
   (exists seed, nz_skipped s !! n = Some seed /\
      s' = nz_set_recv (nz_recv_chain s) (nz_recv_n s) (delete n (nz_skipped s)) s) \/
   (exists ck next, nz_skipped s !! n = None /\ nz_recv_chain s = Some ck /\
      nz_recv_n s <= n <= nz_recv_n s + MAX_SKIP /\
      s' = nz_set_recv (Some next) (u32_add n 1)
             (nz_skip_map ck (nz_recv_n s) (Z.to_nat (n - nz_recv_n s)) (nz_skipped s)) s)).
Proof.
  unfold is_u32. intros Hr Hn. unfold nz_receive, st_bind, st_get. destruct (nz_skipped s !! n) as [seed|] eqn:Es.
  - destruct (kdf_mk seed) as [key nonce]. unfold lift_crypto, st_lift.
    destruct (aead_open _ _ _ _) as [pt|]; cbn; intros [= <- <-]; (split; [done|]); [|done]. intros _. left. eauto.
  - unfold st_lift. destruct (nz_recv_chain s) as [ck|] eqn:Ec; cbn [ok_or]; [|intros [= <- <-]; by split].
    case_decide; [intros [= <- <-]; by split|]. case_decide; [intros [= <- <-]; by split|].
    rewrite nz_skip_run by lia. destruct (kdf_ck _) as [next seed]. destruct (kdf_mk seed) as [key nonce].
    unfold lift_crypto, st_lift. destruct (aead_open _ _ _ _) as [pt|]; cbn; intros [= <- <-]; (split; [done|]); [|done].
    intros _. right. exists ck, next. split; [done|]. split; [done|]. split; [lia|].
    unfold nz_set_recv. cbn. do 2 f_equal. lia.
Qed.

(** A message number that has been used: behind the chain, its key not stored. *)
Definition nz_spent (n : Z) (s : NoiseSession) : Prop :=
  0 <= n < nz_recv_n s /\ nz_skipped s !! n = None /\ nz_recv_chain s <> None.

Definition nz_room (s : NoiseSession) : Prop := nz_recv_n s + MAX_SKIP + 1 < 2 ^ 32.

Lemma nz_establish_inv est s s1 :
  nz_inv s -> nz_establish est s = (Ok tt, s1) ->
  nz_inv s1 /\ nz_profile s1 = nz_profile s /\ nz_recv_n s1 = nz_recv_n s /\ nz_skipped s1 = nz_skipped s /\
  (nz_recv_chain s <> None -> nz_recv_chain s1 <> None).
Proof.
  intros Hi [_ [->|(Hf & a & b & ->)]]%nz_establish_frame; [done|]. destruct Hi as [Hs Hr Hk He].
  split; [|done]. split; cbn; try done.
  - intros j v Hj. destruct (Hk j v Hj). done.
  - by rewrite Hf.
Qed.

Lemma nz_receive_inv n ct aad s pt s' :
  nz_inv s -> nz_room s -> is_u32 n -> nz_receive n ct aad s = (Ok pt, s') ->
  nz_inv s' /\ nz_profile s' = nz_profile s /\ nz_recv_n s <= nz_recv_n s' <= nz_recv_n s + MAX_SKIP + 1 /\
  nz_spent n s' /\ (forall j, nz_spent j s -> nz_spent j s').
Proof.
  intros [Hs Hr Hk He] Hroom Hn H. apply nz_receive_cases in H as [_ H]; [|done..].
  unfold nz_room, is_u32, MAX_SKIP, nz_spent in *.
  destruct (H eq_refl) as [(seed & Hsk & ->)|(ck & next & Hsk & Hck & Hle & ->)]; clear H.
  - destruct (Hk _ _ Hsk) as [Hnr Hc]. cbn. split; [split; cbn; try done|split_and!; try done; try lia].
    + intros j v [_ Hj]%lookup_delete_Some. by apply (Hk j v).
    + by rewrite lookup_delete_eq.
    + intros j (Hj & Hjn & _). split_and!; [lia..|by rewrite lookup_delete_None; auto|done].
  - cbn. unfold u32_add. rewrite u32_wrap_small by (unfold is_u32; lia).
    split; [split; cbn; try done|split_and!; try done; try lia].
    + unfold is_u32. lia.
    + intros j v. rewrite nz_skip_map_lookup. case_decide; intros Hj; [split; [lia|done]|].
      destruct (Hk j v Hj). split; [lia|done].
    + rewrite nz_skip_map_lookup, decide_False by lia. done.
    + intros j (Hj & Hjn & _). split_and!; [lia..|by rewrite nz_skip_map_lookup, decide_False by lia|done].
Qed.

(** One accepted message, seen from outside. *)
Lemma nz_accept m s pt s' :
  nz_inv s -> nz_room s -> nz_decrypt m s = (Ok pt, s') ->
  nz_inv s' /\ nz_profile s' = nz_profile s /\ nz_recv_n s <= nz_recv_n s' <= nz_recv_n s + MAX_SKIP + 1 /\
  (forall j, nz_spent j s -> nz_spent j s') /\
  exists est n ct aad, nz_parses (nz_profile s) m est n ct aad /\ nz_spent n s'.
Proof.
  intros Hi Hroom H. apply nz_decrypt_Ok in H as (est & n & ct & aad & s1 & Hp & H1 & H2).
  assert (is_u32 n) as Hn by (destruct Hp as (_ & r1 & r2 & _ & Hg & _); by eapply get_u32_is_u32).
  destruct (nz_establish_inv est s s1 Hi H1) as (Hi1 & Hp1 & Hr1 & Hs1 & Hc1).
  destruct (nz_receive_inv n ct aad s1 pt s' Hi1) as (Hi' & Hp' & Hr' & Hn' & Hsp); [by unfold nz_room; rewrite Hr1|done..|].
  split; [done|]. split; [congruence|]. split; [by rewrite <- Hr1|]. split; [|by exists est, n, ct, aad].
  intros j (? & ? & ?). apply Hsp. unfold nz_spent. rewrite Hr1, Hs1. auto.
Qed.

Lemma nz_spent_refused m est n ct aad s :
  nz_parses (nz_profile s) m est n ct aad -> nz_spent n s ->
  nz_decrypt m s = (Err (Fail DecryptionFailed), s).
Proof.
  intros Hp (Hn & Hsk & Hc). rewrite (nz_decrypt_parsed _ _ _ _ _ _ Hp). unfold st_bind.
  rewrite nz_establish_done by done. unfold nz_receive, st_bind, st_get, st_lift. rewrite Hsk.
  destruct (nz_recv_chain s); [|done]. cbn. by rewrite decide_True by lia.
Qed.

Definition nz_after (ms : list bytes) (s : NoiseSession) : NoiseSession :=
  foldl (fun s m => (nz_decrypt m s).2) s ms.

Lemma nz_spent_stable ms n s :
  nz_inv s -> nz_spent n s -> nz_recv_n s + zlen ms * (MAX_SKIP + 1) < 2 ^ 32 ->
  nz_spent n (nz_after ms s) /\ nz_profile (nz_after ms s) = nz_profile s.
Proof.
  revert s. induction ms as [|m ms IH]; intros s Hi Hn Hz; [done|].
  change (nz_after (m :: ms) s) with (nz_after ms (nz_decrypt m s).2).
  rewrite zlen_cons in Hz. pose proof (zlen_nonneg ms). unfold MAX_SKIP in *.
  destruct (nz_decrypt m s) as [[pt|e] s'] eqn:E; cbn [snd].
  - apply nz_accept in E as (Hi' & Hp & Hr & Hsp & _); [|done|unfold nz_room, MAX_SKIP; lia].
    unfold MAX_SKIP in Hr. destruct (IH s' Hi' (Hsp n Hn)) as [? ?]; [lia|]. split; [done|congruence].
  - assert (s' = s) as ->; [|apply IH; try done; lia].
    revert E. unfold nz_decrypt. destruct (nz_decrypt_inner m s) as [[]]; naive_solver.
Qed.

(** A PQ-Noise message is accepted at most once.  After a session accepts
    a message, whatever other bytes it is given before (as long as the 32-bit
    counter cannot run out), the same message is refused and changes nothing. *)
Lemma noise_message_once (s s' : NoiseSession) (m pt : bytes) (ms : list bytes) :
  nz_inv s -> nz_decrypt m s = (Ok pt, s') ->
  nz_recv_n s + (zlen ms + 1) * (MAX_SKIP + 1) < 2 ^ 32 ->
  nz_decrypt m (nz_after ms s') = (Err (Fail DecryptionFailed), nz_after ms s').
Proof.
  intros Hi E Hz. pose proof (zlen_nonneg ms). unfold MAX_SKIP in *.
  apply nz_accept in E as (Hi' & Hp & Hr & _ & est & n & ct & aad & Hpa & Hn);
    [|done|unfold nz_room, MAX_SKIP; lia].
  unfold MAX_SKIP in Hr. destruct (nz_spent_stable ms n s' Hi' Hn) as [Hn' Hp']; [unfold MAX_SKIP; lia|].
  apply (nz_spent_refused m est n ct aad); [|done]. by rewrite Hp', Hp.
Qed.

(** The first half of [nz_encrypt]: establish when needed. *)
Lemma nz_ready cs s r s1 :
  nz_inv s ->
  (if bool_decide (nz_send_chain s = None) then
     if nz_initiator s then establish_initiator cs
     else st_err (Fail (Malformed "noise: responder cannot send before receiving"))
   else st_ret tt) s = (r, s1) ->
  (forall msg, r <> Err (Panic msg)) /\ (r = Ok tt -> is_Some (nz_send_chain s1) /\
    (nz_initiator s1 = true -> is_Some (nz_eph_public s1))).
Proof.
  intros Hi. case_bool_decide as Hc.
  - destruct (nz_initiator s); [|intros [= <- <-]; done].
    unfold establish_initiator, st_bind, st_get, st_lift, lift_crypto.
    destruct (nz_peer_prekey s); cbn; [|intros [= <- <-]; done]. destruct (rs_generate _ _) as [sn pn].
    unfold st_lift. destruct (rs_step_to _ _ _) as [[ct ikm]|]; cbn; [|intros [= <- <-]; done].
    destruct (chains_from_root _ _) as [a b]. unfold st_modify. intros [= <- <-]. cbn. eauto.
  - unfold st_ret. intros [= <- <-]. split; [done|]. intros _.
    assert (is_Some (nz_send_chain s)) as Hs by (destruct (nz_send_chain s); [eauto|done]).
    split; [done|]. intros Hin. by apply Hi.
Qed.

(** On any bytes and in any reachable state neither operation panics, and a
    message that is not accepted changes nothing. *)
Lemma noise_safe cs pt m s :
  nz_inv s ->
  (forall msg, (nz_decrypt m s).1 <> Err (Panic msg)) /\
  (is_ok (nz_decrypt m s).1 = false -> (nz_decrypt m s).2 = s) /\
  (forall msg, (nz_encrypt cs pt s).1 <> Err (Panic msg)).
Proof.
  intros Hi. split; [|split].
  - intros msg. unfold nz_decrypt, nz_decrypt_inner, lift_crypto, st_lift, st_get, st_bind, q.
    destruct (msg_decode m) as [[aad ct]|]; [|done]. cbn [map_err].
    destruct (noise_header_get _ _) as [[est r1]|]; [|done]. cbn [map_err].
    destruct (nz_establish est s) as [r s1] eqn:E0. destruct (nz_establish_frame _ _ _ _ E0) as [Hnp _].
    destruct r as [[]|e]; [|intros [= ->]; by apply (Hnp msg)].
    destruct (get_u32 r1) as [[n r2]|] eqn:E2; [|done]. cbn [map_err].
    destruct (finish r2) as [[[] r3]|]; [|done]. cbn [map_err].
    destruct (nz_receive n ct aad s1) as [r s2] eqn:E4.
    apply nz_receive_cases in E4 as [Hnp' _]; [destruct r; [done|intros [= ->]; by apply (Hnp' msg)]| |by eapply get_u32_is_u32].
    destruct (nz_establish_inv _ _ _ Hi E0) as (_ & _ & -> & _). apply Hi.
  - unfold nz_decrypt. by destruct (nz_decrypt_inner m s) as [[]].
  - intros msg. unfold nz_encrypt. unfold st_bind at 1, st_get at 1. unfold st_bind at 1.
    match goal with |- context [match ?p with pair _ _ => _ end] => destruct p as [r s1] eqn:E end.
    assert ((forall msg, r <> Err (Panic msg)) /\ (r = Ok tt -> is_Some (nz_send_chain s1) /\
      (nz_initiator s1 = true -> is_Some (nz_eph_public s1)))) as [Hnp Hok].
    { exact (nz_ready cs s r s1 Hi E). }
    destruct r as [[]|e]; [|intros [= ->]; by apply (Hnp msg)]. destruct (Hok eq_refl) as [[ck Hck] He].
    unfold st_bind, st_get, st_expect, st_lift, st_ret, lift_crypto. rewrite Hck. cbn.
    destruct (kdf_ck ck) as [next seed]. destruct (kdf_mk seed) as [key nonce].
    destruct (nz_initiator s1); [destruct (He eq_refl) as [p ->]|]; cbn; unfold st_lift;
      destruct (aead_seal _ _ _ _); done.
Qed.

End Hostile.

(** ** Witnesses *)

Section NoiseWitnesses.

Definition nw_pts : list bytes := [bstr "a"; bstr "b"; bstr "c"; bstr "d"].

Lemma noise_any_order_witness :
  exists msgs x' y',
    st_map (nz_encrypt (w_cs 3)) nw_pts (noise_initiator w_root w_pre.2) = (Ok msgs, x') /\ length msgs = 4%nat /\
    st_map nz_decrypt ((fun i => msgs !!! i) <$> [2; 0; 3]%nat) (noise_responder w_root w_pre.1) =
      (Ok [bstr "c"; bstr "a"; bstr "d"], y') /\
    nz_can_send y' = true /\ (size (nz_skipped y') + 3 = 4)%nat.
Proof.
  apply (noise_any_order (w_cs 3) w_root w_pre.1 w_pre.2 nw_pts [2; 0; 3]%nat).
  - exact w_pair.
  - by vm_compute.
  - repeat constructor; by vm_compute.
  - done.
  - refine (bool_decide_unpack _ _). by vm_compute.
  - repeat constructor.
  - repeat constructor; by vm_compute.
Defined.

Lemma noise_skipped_grows_witness :
  exists msgs x' y',
    st_map (nz_encrypt (w_cs 3)) (replicate (3 * 1001) []) (noise_initiator w_root w_pre.2) = (Ok msgs, x') /\
    st_map nz_decrypt ((fun i => msgs !!! i) <$> lossy 3) (noise_responder w_root w_pre.1) =
      (Ok (replicate 3 []), y') /\
    Z.of_nat (size (nz_skipped y')) = Z.of_nat 3 * MAX_SKIP.
Proof. apply (noise_skipped_grows (w_cs 3) w_root w_pre.1 w_pre.2 3 w_pair); lia. Defined.

Definition nw_msg : bytes :=
  default [] (to_option (nz_encrypt (w_cs 3) (bstr "hi") (noise_initiator w_root w_pre.2)).1).
Definition nw_bob : NoiseSession := noise_responder w_root w_pre.1.

Lemma noise_message_once_witness :
  let s := nz_after [bstr "junk"; nw_msg] (nz_decrypt nw_msg nw_bob).2 in
  nz_decrypt nw_msg s = (Err (Fail DecryptionFailed), s).
Proof.
  apply (noise_message_once nw_bob (nz_decrypt nw_msg nw_bob).2 nw_msg (bstr "hi") [bstr "junk"; nw_msg]).
  - apply noise_responder_inv.
  - apply injective_projections; [by vm_compute|done].
  - by vm_compute.
Defined.

End NoiseWitnesses.
