(* ===== verification/Suite.v ===== *)
(** * Crypto suites and their registry (crates/crypto/src/suite.rs)

    [CryptoSuite] is the trait as a record of operations; the two built-in
    suites are its values, and [SuiteOk] is what a suite promises to the code
    that is generic in it (the handshake and the relay): a prekey one side
    generates opens a pair of sessions on which every conversation is
    delivered.  The boxed [dyn Any] prekey handle and the boxed [dyn]
    session handle are sums over the built-in suites, so a failed downcast
    is a case and not an assumption.  The feature flags of the build are the
    class [Build]. *)

From S2P Require Import Prelude Wire Crypto Hybrid Ratchet Conversation Noise Store Toy.
From Stdlib Require Import Strings.Ascii.

(** ** Identifiers *)

Class Build := { cnsa_sha2 : bool; fips : bool }.

Section Ids.
Context `{Build}.

Definition HASH_TOKEN : string := if cnsa_sha2 then "sha384" else "sha3-384".

Definition kem_token (p : KemProfile) : string :=
  match posture p, pad_pure p with
  | PostureHybrid, _ => "mlkem1024+x25519"
  | PosturePqPure, true => "mlkem1024+pad"
  | PosturePqPure, false => "mlkem1024"
  end.

Definition dr_suite_id (p : KemProfile) : string :=
  ("tk.dr." ++ kem_token p ++ ".aes256gcm." ++ HASH_TOKEN ++ ".mldsa87")%string.

Definition noise_suite_id (p : KemProfile) : string :=
  ("tk.noise." ++ kem_token p ++ ".aes256gcm." ++ HASH_TOKEN)%string.

Definition offered_profiles : list KemProfile :=
  if fips then [profile_pq_pure; profile_hybrid]
  else [profile_pq_pure; profile_hybrid; profile_pq_pure_compact].

Definition DEFAULT_SUITE_ID : string :=
  if cnsa_sha2 then "tk.dr.mlkem1024+pad.aes256gcm.sha384.mldsa87"
  else "tk.dr.mlkem1024+pad.aes256gcm.sha3-384.mldsa87".
Definition NOISE_SUITE_ID : string :=
  if cnsa_sha2 then "tk.noise.mlkem1024+pad.aes256gcm.sha384"
  else "tk.noise.mlkem1024+pad.aes256gcm.sha3-384".
End Ids.

Inductive SecurityLevel : Type := Weak | PostQuantum.

#[export] Instance security_level_eq_dec : EqDecision SecurityLevel.
Proof. solve_decision. Defined.

(** The derived [Ord]: [Weak < PostQuantum]. *)
Definition level_lt (a b : SecurityLevel) : bool :=
  match a, b with Weak, PostQuantum => true | _, _ => false end.
Definition level_ge (a b : SecurityLevel) : bool := negb (level_lt a b).

(** [str::split] on one character: always at least one part. *)
Fixpoint split_on (c : Ascii.ascii) (s : string) : list string :=
  match s with
  | EmptyString => [EmptyString]
  | String a s =>
      if decide (a = c) then EmptyString :: split_on c s
      else match split_on c s with
           | p :: ps => String a p :: ps
           | [] => [String a EmptyString]
           end
  end.

Definition starts_with (pre s : string) : bool := String.prefix pre s.
Definition is_one_of (l : list string) (s : string) : bool := existsb (String.eqb s) l.

Definition meets_cnsa_floor (id : string) : bool :=
  let parts := split_on "."%char id in
  let kem := existsb (starts_with "mlkem1024") parts in
  let aead := existsb (fun p => String.eqb p "aes256gcm") parts in
  let hash := existsb (is_one_of ["sha384"; "sha512"; "sha3-384"; "sha3-512"]) parts in
  let sig_ok := forallb (fun p => String.eqb p "mldsa87") (filter (starts_with "mldsa") parts) in
  let subfloor := existsb (fun p =>
    is_one_of ["aes128gcm"; "aes128"; "mldsa65"; "mldsa44"; "sha256"; "sha3-256"] p
    || starts_with "mlkem768" p || starts_with "mlkem512" p) parts in
  kem && aead && hash && sig_ok && negb subfloor.

Record SuiteDescriptor : Type := mkDescriptor {
  sd_id : string; sd_version : Z; sd_level : SecurityLevel; sd_params : bytes }.

(** [sha3_256] is the digest of the [sha3] crate. *)
Definition scheme_hash (sha3_256 : bytes -> bytes) (suite_id : string) (params : bytes) : bytes :=
  sha3_256 (be_bytes 4 (u32_wrap (zlen (bstr suite_id))) ++ bstr suite_id ++
            be_bytes 4 (u32_wrap (zlen params)) ++ params).

Definition fingerprint (sha3_256 : bytes -> bytes) (d : SuiteDescriptor) : bytes :=
  scheme_hash sha3_256 (sd_id d) (sd_params d).

Section Suites.
Context {P : Primitives} `{Build}.

(** ** Handles *)

Inductive PrekeySecretHandle : Type :=
| DrPrekeySecret (secret : RatchetSecret) (public : RatchetPublic)
| NoisePrekeySecret (secret : RatchetSecret).

Inductive SessionHandle : Type :=
| DrHandle (s : Session)
| NoiseHandle (s : NoiseSession).

Definition sh_encrypt (cs : nat -> coins) (plaintext : bytes) : ST SessionHandle fault bytes := fun h =>
  match h with
  | DrHandle s => let (r, s) := encrypt cs plaintext s in (r, DrHandle s)
  | NoiseHandle s => let (r, s) := nz_encrypt cs plaintext s in (r, NoiseHandle s)
  end.

Definition sh_decrypt (message : bytes) : ST SessionHandle fault bytes := fun h =>
  match h with
  | DrHandle s => let (r, s) := decrypt message s in (r, DrHandle s)
  | NoiseHandle s => let (r, s) := nz_decrypt message s in (r, NoiseHandle s)
  end.

Definition sh_can_send (h : SessionHandle) : bool :=
  match h with DrHandle s => can_send s | NoiseHandle s => nz_can_send s end.

(** ** The trait *)

Record CryptoSuite : Type := mkSuite {
  descriptor : SuiteDescriptor;
  kem_profile : KemProfile;
  generate_prekey : (nat -> coins) -> bytes * PrekeySecretHandle;
  begin_session : bytes -> bytes -> result CryptoError SessionHandle;
  accept_session : bytes -> PrekeySecretHandle -> result CryptoError SessionHandle }.

Definition DoubleRatchetSuite (p : KemProfile) : CryptoSuite := {|
  descriptor := mkDescriptor (dr_suite_id p) 1 PostQuantum [];
  kem_profile := p;
  generate_prekey := fun cs =>
    let (secret, public) := rs_generate p cs in
    (rp_encode public, DrPrekeySecret secret public);
  begin_session := fun root0 peer_prekey =>
    let* peer := rp_decode p peer_prekey in
    Ok (DrHandle (initiator root0 peer));
  accept_session := fun root0 prekey_secret =>
    match prekey_secret with
    | DrPrekeySecret secret public => Ok (DrHandle (responder root0 secret public))
    | _ => Err (Malformed "prekey secret type mismatch")
    end |}.

Definition NoiseSuite (p : KemProfile) : CryptoSuite := {|
  descriptor := mkDescriptor (noise_suite_id p) 1 PostQuantum [];
  kem_profile := p;
  generate_prekey := fun cs =>
    let (secret, public) := rs_generate p cs in
    (rp_encode public, NoisePrekeySecret secret);
  begin_session := fun root0 peer_prekey =>
    let* peer := rp_decode p peer_prekey in
    Ok (NoiseHandle (noise_initiator root0 peer));
  accept_session := fun root0 prekey_secret =>
    match prekey_secret with
    | NoisePrekeySecret secret => Ok (NoiseHandle (noise_responder root0 secret))
    | _ => Err (Malformed "prekey secret type mismatch")
    end |}.

(** ** The registry *)

Record SuiteRegistry : Type := mkRegistry {
  suites : gmap string CryptoSuite; floor : SecurityLevel }.

Definition registry_new : SuiteRegistry := mkRegistry ∅ PostQuantum.

Definition set_floor (l : SecurityLevel) (r : SuiteRegistry) : SuiteRegistry := mkRegistry (suites r) l.

Definition register (suite : CryptoSuite) : ST SuiteRegistry CryptoError unit :=
  do* r := st_get in
  let d := descriptor suite in
  if level_lt (sd_level d) (floor r) then st_err (BelowFloor (sd_id d))
  else if level_ge (floor r) PostQuantum && negb (meets_cnsa_floor (sd_id d))
  then st_err (BelowFloor (sd_id d))
  else st_modify (fun r => mkRegistry (<[sd_id d := suite]> (suites r)) (floor r)).

Definition registry_get (id : string) (r : SuiteRegistry) : result CryptoError CryptoSuite :=
  ok_or (suites r !! id) (UnknownSuite id).

(** The iteration order of a [HashMap] is not fixed; any order is allowed by
    the theorems, this one is the map's own. *)
Definition get_by_scheme_hash (sha3_256 : bytes -> bytes) (hash : bytes) (r : SuiteRegistry)
  : result CryptoError CryptoSuite :=
  ok_or (snd <$> head (filter (fun x : string * CryptoSuite =>
                   fingerprint sha3_256 (descriptor x.2) = hash) (map_to_list (suites r))))
    (UnknownSuite ("scheme:" ++ String.string_of_list_byte (hex hash))).

(** [register(..).expect(..)]: a refusal is a panic. *)
Definition register_expect (suite : CryptoSuite) (msg : string) : ST SuiteRegistry fault unit := fun r =>
  match register suite r with (Ok _, r) => (Ok tt, r) | (Err _, r) => (Err (Panic msg), r) end.

(** The power-on self test that runs first has no effect on the registry. *)
Definition with_defaults : result fault unit * SuiteRegistry :=
  st_iter (fun p : KemProfile =>
    do* _ := register_expect (DoubleRatchetSuite p) "double-ratchet suite meets floor" in
    if pad_pure p || bool_decide (posture p = PostureHybrid)
    then register_expect (NoiseSuite p) "noise suite meets floor"
    else st_ret tt) offered_profiles registry_new.

(** ** What a suite promises *)

(** One message, and a conversation, over handles. *)
Definition sh_exchange (cs : nat -> coins) (pt : bytes) (x y : SessionHandle)
  : option (bytes * SessionHandle * SessionHandle) :=
  match sh_encrypt cs pt x with
  | (Ok m, x') => match sh_decrypt m y with (Ok pt', y') => Some (pt', x', y') | _ => None end
  | _ => None
  end.

Fixpoint sh_converse (evs : list event) (a b : SessionHandle) : option (list bytes) :=
  match evs with
  | [] => Some []
  | (true, cs, pt) :: evs =>
      '(m, a, b) ← sh_exchange cs pt a b; ms ← sh_converse evs a b; Some (m :: ms)
  | (false, cs, pt) :: evs =>
      '(m, b, a) ← sh_exchange cs pt b a; ms ← sh_converse evs a b; Some (m :: ms)
  end.

(** [a] and [b] deliver every conversation that [a] opens, provided the key
    material drawn along the way repeats neither itself nor the prekey. *)
Definition sh_matched (su : CryptoSuite) (cs0 : nat -> coins) (a b : SessionHandle) : Prop :=
  forall cs pt (evs : list event),
    Forall (fun e => zlen (ev_pt e) <= MAX_FRAME - 16) ((true, cs, pt) :: evs) ->
    NoDup ((fun c => (generate_prekey su c).1) <$> cs0 :: cs :: ((fun e : event => e.1.2) <$> evs)) ->
    sh_converse ((true, cs, pt) :: evs) a b = Some (pt :: (ev_pt <$> evs)).

Class SuiteOk (su : CryptoSuite) : Prop := {
  so_prekey_len cs : zlen (generate_prekey su cs).1 <= 2 ^ 17;
  so_pair cs root0 :
    length root0 = KEY_LEN ->
    exists a b, begin_session su root0 (generate_prekey su cs).1 = Ok a /\
      accept_session su root0 (generate_prekey su cs).2 = Ok b /\ sh_matched su cs a b }.

End Suites.

(** ** The built-in suites keep the promise *)

Section BuiltIn.
Context {P : Primitives} {POk : PrimitivesOk P} `{Build}.

Lemma generated_prekey p cs :
  exists sk pk, rs_generate p cs = (sk, pk) /\ key_pair sk pk /\ rs_profile sk = p /\
    rp_decode p (rp_encode pk) = Ok pk.
Proof.
  destruct (key_pair_generate p cs) as [K Hp]. destruct (rs_generate p cs) as [sk pk]. cbn in *.
  exists sk, pk. split; [done|]. split; [done|]. split; [done|].
  rewrite <- Hp, <- (kp_profile _ _ K). apply rp_decode_encode, K.
Qed.

Lemma converse_handles evs a b : sh_converse evs (DrHandle a) (DrHandle b) = converse evs a b.
Proof.
  revert a b. induction evs as [|[[[] cs] pt] evs IH]; intros a b; [done|..];
    cbn [sh_converse converse]; unfold sh_exchange, exchange; cbn [sh_encrypt sh_decrypt];
    (destruct (encrypt cs pt _) as [[m|] x']; [|done]); cbn [sh_decrypt];
    (destruct (decrypt m _) as [[pt'|] y']; [|done]); cbn; by rewrite IH.
Qed.

#[export] Instance double_ratchet_ok p : SuiteOk (DoubleRatchetSuite p).
Proof.
  split.
  - intros cs. cbn. destruct (generated_prekey p cs) as (sk & pk & -> & K & _). by apply (key_pair_encode_len sk).
  - intros cs0 root0 Hr. cbn. destruct (generated_prekey p cs0) as (sk & pk & Eg & K & Hp & Hd). rewrite Eg. cbn.
    exists (DrHandle (initiator root0 pk)), (DrHandle (responder root0 sk pk)). rewrite Hd.
    split; [done|]. split; [done|]. intros cs pt evs Hl Hn. rewrite converse_handles.
    apply conversation_run; [done..|]. rewrite Hp.
    apply (NoDup_fmap_1 rp_encode). revert Hn. cbn [fmap list_fmap]. rewrite <- !list_fmap_compose.
    cbn [generate_prekey DoubleRatchetSuite]. rewrite Eg. cbn [fst].
    assert (forall c, (let (secret, public) := rs_generate p c in (rp_encode public, DrPrekeySecret secret public)).1
      = rp_encode (rs_generate p c).2) as E by (intros c; by destruct (rs_generate p c)).
    rewrite E. erewrite (list_fmap_ext _ _ evs); [exact id|]. intros i e _. cbn. by rewrite E.
Qed.

Lemma noise_converse evs a b :
  nz_flow a b -> nz_flow b a -> Forall (fun e => zlen (ev_pt e) <= MAX_FRAME - 16) evs ->
  sh_converse evs (NoiseHandle a) (NoiseHandle b) = Some (ev_pt <$> evs).
Proof.
  intros Fa Fb Hl. revert a b Fa Fb. induction Hl as [|[[[] cs] pt] evs Hl Hls IH]; intros a b Fa Fb; [done|..];
    cbn [sh_converse]; unfold sh_exchange; cbn [sh_encrypt].
  - destruct (nz_flow_step cs pt a b Fa Hl) as (m & a' & b' & -> & E & Fa' & Fb'). cbn [sh_decrypt]. rewrite E.
    cbn. by rewrite IH by auto.
  - destruct (nz_flow_step cs pt b a Fb Hl) as (m & b' & a' & -> & E & Fb' & Fa'). cbn [sh_decrypt]. rewrite E.
    cbn. by rewrite IH by auto.
Qed.

#[export] Instance noise_ok p : SuiteOk (NoiseSuite p).
Proof.
  split.
  - intros cs. cbn. destruct (generated_prekey p cs) as (sk & pk & -> & K & _). by apply (key_pair_encode_len sk).
  - intros cs0 root0 Hr. cbn. destruct (generated_prekey p cs0) as (sk & pk & -> & K & Hp & Hd). cbn.
    exists (NoiseHandle (noise_initiator root0 pk)), (NoiseHandle (noise_responder root0 sk)). rewrite Hd.
    split; [done|]. split; [done|]. intros cs pt evs [Hl Hls]%Forall_cons _.
    cbn [sh_converse]. unfold sh_exchange. cbn [sh_encrypt].
    destruct (nz_first_message cs root0 sk pk pt K Hl) as (m & x' & y' & -> & E & F & F'). cbn [sh_decrypt].
    rewrite E. cbn. by rewrite noise_converse.
Qed.

(** A prekey of one suite never opens a session of the other. *)
Lemma prekey_type_mismatch p root0 cs :
  accept_session (DoubleRatchetSuite p) root0 (generate_prekey (NoiseSuite p) cs).2 =
    Err (Malformed "prekey secret type mismatch") /\
  accept_session (NoiseSuite p) root0 (generate_prekey (DoubleRatchetSuite p) cs).2 =
    Err (Malformed "prekey secret type mismatch").
Proof. cbn. by destruct (rs_generate p cs). Qed.

End BuiltIn.

(** ** The registry keeps its floor *)

Section Registry.
Context {P : Primitives} `{Build}.

Inductive reg_op : Type := Register (su : CryptoSuite) | SetFloor (l : SecurityLevel).

Definition reg_run (ops : list reg_op) : SuiteRegistry :=
  foldl (fun r op => match op with Register su => (register su r).2 | SetFloor l => set_floor l r end)
    registry_new ops.

Definition above_floor (id : string) (su : CryptoSuite) : Prop :=
  sd_id (descriptor su) = id /\ sd_level (descriptor su) = PostQuantum /\ meets_cnsa_floor id = true.

Record reg_inv (r : SuiteRegistry) : Prop := {
  ri_floor : floor r = PostQuantum; ri_suites : map_Forall above_floor (suites r) }.

Lemma register_inv su r : reg_inv r -> reg_inv (register su r).2.
Proof.
  intros [Hf Hs]. unfold register, st_bind, st_get. rewrite Hf. cbn.
  destruct (sd_level (descriptor su)) eqn:El; cbn; [done|].
  destruct (meets_cnsa_floor _) eqn:Em; cbn; [|done]. split; [done|].
  cbn. apply map_Forall_insert_2; [by split|done].
Qed.

(** The registry never hands out a suite below its floor.  Whatever suites
    are offered for registration, with whatever level they claim, as long as
    the floor is not lowered a suite found under an id carries that id, is
    tagged post-quantum and names components that meet the floor. *)
Lemma registry_floor (ops : list reg_op) (id : string) (su : CryptoSuite) :
  Forall (fun op => op <> SetFloor Weak) ops -> registry_get id (reg_run ops) = Ok su ->
  sd_id (descriptor su) = id /\ sd_level (descriptor su) = PostQuantum /\ meets_cnsa_floor id = true.
Proof.
  intros Ho Hg. assert (reg_inv (reg_run ops)) as [_ Hs].
  { clear Hg. unfold reg_run. assert (reg_inv registry_new) as Hi by (split; [done|apply map_Forall_empty]).
    revert Hi. generalize registry_new. induction Ho as [|[su'|[]] ops Hop Ho IH]; intros r Hi; cbn [foldl]; try done.
    - by apply IH, register_inv.
    - apply IH. destruct Hi. by split. }
  apply ok_or_Ok in Hg. by apply (Hs id su Hg).
Qed.

Lemma register_expect_ok su msg m :
  sd_level (descriptor su) = PostQuantum -> meets_cnsa_floor (sd_id (descriptor su)) = true ->
  register_expect su msg (mkRegistry m PostQuantum) =
    (Ok tt, mkRegistry (<[sd_id (descriptor su) := su]> m) PostQuantum).
Proof. intros Hl Hm. unfold register_expect, register, st_bind, st_get. cbn [floor]. by rewrite Hl, Hm. Qed.

Definition default_suites (l : list KemProfile) : gmap string CryptoSuite :=
  foldl (fun m p =>
    let m := <[dr_suite_id p := DoubleRatchetSuite p]> m in
    if pad_pure p || bool_decide (posture p = PostureHybrid)
    then <[noise_suite_id p := NoiseSuite p]> m else m) ∅ l.

Lemma builtin_ids_meet_floor p :
  meets_cnsa_floor (dr_suite_id p) = true /\ meets_cnsa_floor (noise_suite_id p) = true.
Proof. destruct p as [[] []], H as [[] []]; by vm_compute. Qed.

Lemma with_defaults_run : with_defaults = (Ok tt, mkRegistry (default_suites offered_profiles) PostQuantum).
Proof.
  unfold with_defaults, default_suites, registry_new. generalize (∅ : gmap string CryptoSuite).
  induction offered_profiles as [|p l IH]; intros m; [done|]. cbn [st_iter foldl].
  destruct (builtin_ids_meet_floor p) as [Hd Hn]. unfold st_bind at 1. unfold st_bind at 1.
  rewrite register_expect_ok by done. destruct (pad_pure p || _); [|apply IH].
  rewrite register_expect_ok by done. apply IH.
Qed.

(** Building the defaults never panics, and every build offers the padded
    PQ-pure and the hybrid suites; only the compact one depends on the build. *)
Lemma defaults_offered :
  with_defaults.1 = Ok tt /\
  registry_get DEFAULT_SUITE_ID with_defaults.2 = Ok (DoubleRatchetSuite profile_pq_pure) /\
  registry_get NOISE_SUITE_ID with_defaults.2 = Ok (NoiseSuite profile_pq_pure) /\
  registry_get (dr_suite_id profile_hybrid) with_defaults.2 = Ok (DoubleRatchetSuite profile_hybrid) /\
  is_ok (registry_get (dr_suite_id profile_pq_pure_compact) with_defaults.2) = negb fips.
Proof.
  rewrite with_defaults_run. unfold registry_get, default_suites. cbn [fst snd suites].
  destruct H as [[] []]; cbn; by simplify_map_eq.
Qed.

Lemma scheme_preimage_inj a b x y :
  zlen (bstr a) < 2 ^ 32 -> zlen (bstr b) < 2 ^ 32 -> zlen x < 2 ^ 32 -> zlen y < 2 ^ 32 ->
  be_bytes 4 (u32_wrap (zlen (bstr a))) ++ bstr a ++ be_bytes 4 (u32_wrap (zlen x)) ++ x =
  be_bytes 4 (u32_wrap (zlen (bstr b))) ++ bstr b ++ be_bytes 4 (u32_wrap (zlen y)) ++ y ->
  bstr a = bstr b /\ x = y.
Proof.
  intros Ha Hb Hx Hy. rewrite !be_bytes_4_wrap, !(assoc (++) (be_bytes 4 _) _ _).
  intros [-> E]%(enc_bytes_inj (bstr a) (bstr b)); [|done..]. split; [done|].
  rewrite <- (app_nil_r (be_bytes 4 (zlen x) ++ x)), <- (app_nil_r (be_bytes 4 (zlen y) ++ y)) in E.
  by apply (enc_bytes_inj x y) in E as [-> _].
Qed.

(** A lookup by fingerprint finds a registered suite with that fingerprint. *)
Lemma scheme_lookup_sound sha3_256 h r su :
  get_by_scheme_hash sha3_256 h r = Ok su ->
  fingerprint sha3_256 (descriptor su) = h /\ exists id, suites r !! id = Some su.
Proof.
  unfold get_by_scheme_hash. intros E%ok_or_Ok. apply fmap_Some in E as ([id su'] & Eh & ->). cbn.
  apply head_Some_elem_of in Eh. apply list_elem_of_filter in Eh as [Hf Hin].
  split; [done|]. exists id. by apply elem_of_map_to_list.
Qed.

(** The floor does not look at classical signatures.  The documentation
    asks that a signature a suite names be ML-DSA-87; an id that names Ed25519
    beside floor-meeting components is registered at the default floor. *)
Lemma floor_admits_classical_signature (p : KemProfile) :
  let id := "tk.dr.mlkem1024.aes256gcm.sha3-384.ed25519" in
  let su := mkSuite (mkDescriptor id 1 PostQuantum []) p
    (generate_prekey (DoubleRatchetSuite p)) (begin_session (DoubleRatchetSuite p))
    (accept_session (DoubleRatchetSuite p)) in
  registry_get id (register su registry_new).2 = Ok su.
Proof.
  intros id su. unfold registry_get, register, st_bind, st_get. change (level_lt _ _) with false.
  replace (meets_cnsa_floor _) with true by (by vm_compute). cbn [level_ge level_lt negb andb st_modify snd suites].
  change (level_ge _ _) with true. cbn [negb andb]. unfold st_modify. cbn [snd suites]. by rewrite lookup_insert_eq.
Qed.

End Registry.

(** ** Witnesses *)

Definition demo_build : Build := {| cnsa_sha2 := false; fips := false |}.

Section SuiteWitnesses.
#[local] Existing Instance demo_build.

Definition sw_suite : CryptoSuite := DoubleRatchetSuite profile_hybrid.
(** A suite that claims the level and names AES-128. *)
Definition sw_mislabelled : CryptoSuite :=
  mkSuite (mkDescriptor "tk.dr.mlkem1024.aes128gcm.sha3-384.mldsa87" 1 PostQuantum []) profile_hybrid
    (generate_prekey sw_suite) (begin_session sw_suite) (accept_session sw_suite).

Lemma sw_refused : register sw_mislabelled registry_new = (Err (BelowFloor (sd_id (descriptor sw_mislabelled))), registry_new).
Proof.
  unfold register, st_bind, st_get. change (level_lt _ _) with false. change (level_ge _ _) with true.
  by replace (meets_cnsa_floor _) with false by (by vm_compute).
Qed.

Lemma sw_found : registry_get (dr_suite_id profile_hybrid) (reg_run [Register sw_mislabelled; Register sw_suite]) = Ok sw_suite.
Proof.
  unfold reg_run. cbn [foldl]. rewrite sw_refused. cbn [snd].
  pose proof (register_expect_ok sw_suite "" ∅ eq_refl ltac:(by vm_compute)) as E.
  unfold register_expect in E. change (mkRegistry ∅ PostQuantum) with registry_new in E.
  destruct (register sw_suite registry_new) as [[]]; [|done]. injection E as ->.
  unfold registry_get. cbn [snd suites]. by rewrite lookup_insert_eq.
Qed.

Lemma registry_floor_witness :
  sd_id (descriptor sw_suite) = dr_suite_id profile_hybrid /\ sd_level (descriptor sw_suite) = PostQuantum /\
  meets_cnsa_floor (dr_suite_id profile_hybrid) = true.
Proof.
  apply (registry_floor [Register sw_mislabelled; Register sw_suite] (dr_suite_id profile_hybrid) sw_suite).
  - repeat constructor; done.
  - exact sw_found.
Defined.

End SuiteWitnesses.
