(* ===== verification/Handshake.v ===== *)
(** * The authenticated session handshake (crates/core/src/handshake.rs)

    [initiate] and [respond] run over a [Stream]: the frames the peer has
    sent, the frames we have sent, and how many more the connection takes.
    Both are generic in the suite; what they need of it is [SuiteOk].  The
    theorems: an honest run completes with the right identities and sessions
    that deliver ([handshake_completes]); whatever the network does, a
    completed side agrees with an execution of its peer on identities, nonces,
    suite and prekey, unless the signature it checked is forged
    ([initiator_agrees], [responder_agrees]). *)

From S2P Require Import Prelude Wire Crypto Hybrid Toy Ratchet Conversation Noise Suite Marking.

Definition T_RESP : bytes := bstr "talkrypt-resp-v2".
Definition T_CONFIRM : bytes := bstr "talkrypt-confirm-v2".

Definition handshake_transcript (tag : bytes) (suite_id : string) (id_i : IdentityPublic) (nonce_i : bytes)
    (id_r : IdentityPublic) (prekey nonce_r : bytes) : bytes :=
  w_new |> put_bytes tag |> put_bytes (bstr suite_id) |> put_bytes (sig_vk id_i) |> put_bytes nonce_i
        |> put_bytes (sig_vk id_r) |> put_bytes prekey |> put_bytes nonce_r |> into_vec.

Definition encode_identity (id : IdentityPublic) : bytes :=
  w_new |> put_bytes (sig_vk id) |> into_vec.

Definition decode_identity : Get CoreError IdentityPublic :=
  get* blob := q get_vec in
  glift (let* (vk, ir) := q get_vec (r_new blob) in
         let* _ := map_err (fun _ => CMalformed "identity trailing bytes") (finish ir) in
         Ok (mkIdentityPublic vk)).

(** ** Streams *)

Record Stream : Type := mkStream { s_in : list bytes; s_out : list bytes; s_room : nat }.

Definition send_frame (f : bytes) : ST Stream CoreError unit := fun s =>
  match s_room s with
  | O => (Err (CTransport Closed), s)
  | S n => (Ok tt, mkStream (s_in s) (s_out s ++ [f]) n)
  end.

Definition recv_frame : ST Stream CoreError bytes := fun s =>
  match s_in s with
  | [] => (Err (CTransport Closed), s)
  | f :: fs => (Ok f, mkStream fs (s_out s) (s_room s))
  end.

(** ** The three frames *)

Definition init_frame (id : IdentityPublic) (nonce_i : bytes) : bytes :=
  w_new |> put_bytes (encode_identity id) |> put_bytes nonce_i |> into_vec.
Definition get_init : Get CoreError (IdentityPublic * bytes) :=
  get* peer_identity := decode_identity in
  get* nonce_i := q get_vec in
  gret (peer_identity, nonce_i).

Definition resp_frame (id : IdentityPublic) (prekey nonce_r sig_r : bytes) : bytes :=
  w_new |> put_bytes (encode_identity id) |> put_bytes prekey |> put_bytes nonce_r |> put_bytes sig_r
        |> into_vec.
Definition get_resp : Get CoreError (IdentityPublic * bytes * bytes * bytes) :=
  get* peer_identity := decode_identity in
  get* prekey := q get_vec in
  get* nonce_r := q get_vec in
  get* sig_r := q get_vec in
  gret (peer_identity, prekey, nonce_r, sig_r).

Definition confirm_frame (sig_i : bytes) : bytes := w_new |> put_bytes sig_i |> into_vec.

Section Handshake.
Context {P : Primitives}.

Record HandshakeResult : Type := mkHandshakeResult {
  peer_identity : IdentityPublic; hs_session : SessionHandle }.

Definition random_nonce (c : coins) : bytes := random_bytes c 32.

Definition initiate (identity : IdentityKeyPair) (suite : CryptoSuite) (root0 : bytes) (cn : coins)
  : ST Stream CoreError HandshakeResult :=
  let suite_id := sd_id (descriptor suite) in
  let nonce_i := random_nonce cn in
  do* _ := send_frame (init_frame (id_public identity) nonce_i) in
  do* resp := recv_frame in
  do* (peer, prekey, nonce_r, sig_r) := st_lift (run_get get_resp resp) in
  let resp_transcript :=
    handshake_transcript T_RESP suite_id (id_public identity) nonce_i peer prekey nonce_r in
  do* _ := st_lift (map_err (fun _ => CPeerAuthFailed) (id_verify peer resp_transcript sig_r)) in
  do* session := st_lift (map_err CCrypto (begin_session suite root0 prekey)) in
  let confirm_transcript :=
    handshake_transcript T_CONFIRM suite_id (id_public identity) nonce_i peer prekey nonce_r in
  let sig_i := id_sign identity confirm_transcript in
  do* _ := send_frame (confirm_frame sig_i) in
  st_ret (mkHandshakeResult peer session).

Definition respond (identity : IdentityKeyPair) (suite : CryptoSuite) (root0 : bytes)
    (cs : nat -> coins) (cn : coins) : ST Stream CoreError HandshakeResult :=
  let suite_id := sd_id (descriptor suite) in
  do* init := recv_frame in
  do* (peer, nonce_i) := st_lift (run_get get_init init) in
  let (prekey_pub, prekey_secret) := generate_prekey suite cs in
  let nonce_r := random_nonce cn in
  let resp_transcript :=
    handshake_transcript T_RESP suite_id peer nonce_i (id_public identity) prekey_pub nonce_r in
  let sig_r := id_sign identity resp_transcript in
  do* _ := send_frame (resp_frame (id_public identity) prekey_pub nonce_r sig_r) in
  do* confirm := recv_frame in
  do* sig_i := st_lift (run_get (q get_vec) confirm) in
  let confirm_transcript :=
    handshake_transcript T_CONFIRM suite_id peer nonce_i (id_public identity) prekey_pub nonce_r in
  do* _ := st_lift (map_err (fun _ => CPeerAuthFailed) (id_verify peer confirm_transcript sig_i)) in
  do* session := st_lift (map_err CCrypto (accept_session suite root0 prekey_secret)) in
  st_ret (mkHandshakeResult peer session).

End Handshake.

(** ** Codec lemmas *)

Lemma hs_transcript_norm tag id i ni r pk nr :
  handshake_transcript tag id i ni r pk nr =
    enc_bytes tag ++ enc_bytes (bstr id) ++ enc_bytes (sig_vk i) ++ enc_bytes ni ++
    enc_bytes (sig_vk r) ++ enc_bytes pk ++ enc_bytes nr.
Proof. unfold handshake_transcript. by wire_norm. Qed.

Lemma encode_identity_norm id : encode_identity id = enc_bytes (sig_vk id).
Proof. unfold encode_identity. by wire_norm. Qed.

Lemma decodes_identity id :
  zlen (sig_vk id) <= 2 ^ 20 -> decodes decode_identity (enc_bytes (encode_identity id)) id.
Proof.
  intros Hl. unfold decode_identity. rewrite <- (app_nil_r (enc_bytes _)). eapply decodes_bind.
  - apply decodes_q, decodes_bytes. rewrite encode_identity_norm, zlen_enc_bytes. unfold MAX_FRAME. lia.
  - rewrite encode_identity_norm.
    assert (rwf (r_new (enc_bytes (sig_vk id)))) as Hw.
    { apply rwf_new. rewrite zlen_enc_bytes. unfold usize_max. lia. }
    destruct (decodes_bytes (sig_vk id) ltac:(unfold MAX_FRAME; lia) _ [] Hw) as (r' & E & Hw' & Hr').
    { by rewrite rest_new, app_nil_r. }
    unfold q. change get_vec with get_bytes. rewrite E. cbn [map_err rbind]. unfold finish.
    rewrite remaining_rest, Hr' by done. cbn. destruct id. apply decodes_lift.
Qed.

Lemma get_init_ok id n :
  zlen (sig_vk id) <= 2 ^ 20 -> zlen n <= 2 ^ 20 -> run_get get_init (init_frame id n) = Ok (id, n).
Proof.
  intros Hi Hn. pose proof (decodes_identity id Hi).
  assert (init_frame id n = enc_bytes (encode_identity id) ++ enc_bytes n) as -> by (unfold init_frame; by wire_norm).
  apply run_decodes.
  - rewrite zlen_app, !zlen_enc_bytes, encode_identity_norm, zlen_enc_bytes. unfold usize_max. lia.
  - unfold get_init. eapply decodes_bind; [done|]. apply (decodes_ret_bind (q get_vec) (fun n => (id, n))).
    apply decodes_q, decodes_bytes. unfold MAX_FRAME. lia.
Qed.

Lemma get_resp_ok id p n sg :
  zlen (sig_vk id) <= 2 ^ 20 -> zlen p <= 2 ^ 20 -> zlen n <= 2 ^ 20 -> zlen sg <= 2 ^ 20 ->
  run_get get_resp (resp_frame id p n sg) = Ok (id, p, n, sg).
Proof.
  intros Hi Hp Hn Hs. pose proof (decodes_identity id Hi).
  assert (resp_frame id p n sg = enc_bytes (encode_identity id) ++ enc_bytes p ++ enc_bytes n ++ enc_bytes sg)
    as -> by (unfold resp_frame; by wire_norm).
  assert (forall b : bytes, zlen b <= 2 ^ 20 -> zlen b <= MAX_FRAME) as Hm by (unfold MAX_FRAME; lia).
  apply run_decodes.
  - rewrite !zlen_app, !zlen_enc_bytes, encode_identity_norm, zlen_enc_bytes. unfold usize_max. lia.
  - unfold get_resp. eapply decodes_bind; [done|]. eapply decodes_bind; [by apply decodes_q, decodes_bytes, Hm|].
    eapply decodes_bind; [by apply decodes_q, decodes_bytes, Hm|].
    apply (decodes_ret_bind (q get_vec) (fun s => (id, p, n, s))). by apply decodes_q, decodes_bytes, Hm.
Qed.

Lemma get_confirm_ok sg :
  zlen sg <= 2 ^ 20 -> run_get (E:=CoreError) (q get_vec) (confirm_frame sg) = Ok sg.
Proof.
  intros Hs. assert (confirm_frame sg = enc_bytes sg) as -> by (unfold confirm_frame; by wire_norm).
  apply run_decodes; [rewrite zlen_enc_bytes; unfold usize_max; lia|].
  apply decodes_q, decodes_bytes. unfold MAX_FRAME. lia.
Qed.

(** ** Honest runs *)

Section Honest.
Context {P : Primitives} {POk : PrimitivesOk P} (su : CryptoSuite) {Hsu : SuiteOk su}.

Lemma vk_len seed : zlen (sig_vk (id_public (id_from_secret_bytes seed))) <= 2 ^ 20.
Proof. pose proof mldsa_lens as [H _]. unfold zlen. cbn. rewrite mldsa_vk_length, H. lia. Qed.

Lemma nonce_len c : zlen (random_nonce c) <= 2 ^ 20.
Proof. unfold zlen, random_nonce. rewrite random_bytes_len. lia. Qed.

Lemma sign_len k m : zlen (id_sign k m) <= 2 ^ 20.
Proof. pose proof mldsa_lens as [_ H]. unfold zlen. rewrite id_sign_len. lia. Qed.

Lemma prekey_len cs : zlen (generate_prekey su cs).1 <= 2 ^ 20.
Proof. pose proof (so_prekey_len cs). lia. Qed.

(** The response an honest responder makes. *)
Definition honest_resp (kr : IdentityKeyPair) (id_i : IdentityPublic) (nonce_i : bytes) (cs : nat -> coins)
    (cr : coins) : bytes :=
  let pk := (generate_prekey su cs).1 in
  resp_frame (id_public kr) pk (random_nonce cr)
    (id_sign kr (handshake_transcript T_RESP (sd_id (descriptor su)) id_i nonce_i (id_public kr) pk (random_nonce cr))).

Definition honest_confirm (ki : IdentityKeyPair) (id_r : IdentityPublic) (nonce_i pk nonce_r : bytes) : bytes :=
  confirm_frame (id_sign ki
    (handshake_transcript T_CONFIRM (sd_id (descriptor su)) (id_public ki) nonce_i id_r pk nonce_r)).

(** What each side does when the other is honest, frame by frame. *)
Lemma initiate_honest ki kr cn cs cr root0 a n rest :
  let id_i := id_public ki in
  id_verify (id_public kr) (handshake_transcript T_RESP (sd_id (descriptor su)) id_i (random_nonce cn)
      (id_public kr) (generate_prekey su cs).1 (random_nonce cr))
    (id_sign kr (handshake_transcript T_RESP (sd_id (descriptor su)) id_i (random_nonce cn)
      (id_public kr) (generate_prekey su cs).1 (random_nonce cr))) = Ok tt ->
  zlen (sig_vk (id_public kr)) <= 2 ^ 20 ->
  begin_session su root0 (generate_prekey su cs).1 = Ok a ->
  initiate ki su root0 cn (mkStream (honest_resp kr id_i (random_nonce cn) cs cr :: rest) [] (S (S n))) =
    (Ok (mkHandshakeResult (id_public kr) a),
     mkStream rest [init_frame id_i (random_nonce cn);
       honest_confirm ki (id_public kr) (random_nonce cn) (generate_prekey su cs).1 (random_nonce cr)] n).
Proof.
  intros id_i Hv Hl Hb. unfold initiate, st_bind, send_frame, recv_frame, st_lift, honest_resp, honest_confirm.
  cbn [s_in s_out s_room app]. rewrite get_resp_ok; [|done|apply prekey_len|apply nonce_len|apply sign_len]. fold id_i. rewrite Hv. cbn [map_err]. by rewrite Hb.
Qed.

Lemma respond_honest ki kr cn cs cr root0 b n rest :
  let id_i := id_public ki in
  let confirm := handshake_transcript T_CONFIRM (sd_id (descriptor su)) id_i (random_nonce cn)
      (id_public kr) (generate_prekey su cs).1 (random_nonce cr) in
  id_verify id_i confirm (id_sign ki confirm) = Ok tt ->
  zlen (sig_vk id_i) <= 2 ^ 20 ->
  accept_session su root0 (generate_prekey su cs).2 = Ok b ->
  respond kr su root0 cs cr (mkStream (init_frame id_i (random_nonce cn) ::
      honest_confirm ki (id_public kr) (random_nonce cn) (generate_prekey su cs).1 (random_nonce cr) :: rest) [] (S n)) =
    (Ok (mkHandshakeResult id_i b), mkStream rest [honest_resp kr id_i (random_nonce cn) cs cr] n).
Proof.
  intros id_i confirm Hv Hl Hb. unfold respond, st_bind, send_frame, recv_frame, st_lift, honest_resp, honest_confirm.
  cbn [s_in s_out s_room]. rewrite get_init_ok by (done || apply nonce_len).
  destruct (generate_prekey su cs) as [pk sec]. cbn [s_in s_out s_room app fst snd] in *.
  rewrite get_confirm_ok by apply sign_len. fold id_i. fold confirm. rewrite Hv. cbn. by rewrite Hb.
Qed.

End Honest.

Section Completion.
Context {P : Primitives} {POk : PrimitivesOk P}.

(** C10: an honest handshake completes, for every suite that keeps the suite
    promise.  Fed with each other's frames, [initiate] and [respond] both
    succeed, each reports the identity of the other, and the two sessions they
    return deliver every conversation the initiator opens. *)
Theorem handshake_completes (su : CryptoSuite) (seed_i seed_r root0 : bytes) (cn cr : coins) (cs : nat -> coins) :
  SuiteOk su -> length root0 = KEY_LEN ->
  let ki := id_from_secret_bytes seed_i in
  let kr := id_from_secret_bytes seed_r in
  exists init resp confirm a b,
    initiate ki su root0 cn (mkStream [resp] [] 2) =
      (Ok (mkHandshakeResult (id_public kr) a), mkStream [] [init; confirm] 0) /\
    respond kr su root0 cs cr (mkStream [init; confirm] [] 1) =
      (Ok (mkHandshakeResult (id_public ki) b), mkStream [] [resp] 0) /\
    sh_matched su cs a b.
Proof.
  intros Hsu Hr ki kr. destruct (so_pair (su:=su) cs root0 Hr) as (a & b & Ea & Eb & Hm).
  exists (init_frame (id_public ki) (random_nonce cn)), (honest_resp su kr (id_public ki) (random_nonce cn) cs cr),
    (honest_confirm su ki (id_public kr) (random_nonce cn) (generate_prekey su cs).1 (random_nonce cr)), a, b.
  split; [|split; [|done]].
  - apply initiate_honest; [done..|apply id_verify_sign|apply vk_len|done].
  - apply respond_honest; [done..|apply id_verify_sign|apply vk_len|done].
Qed.

End Completion.

(** ** Agreement against a hostile network *)

(** Length-prefixed fields determine their encoding. *)
Lemma enc_fields_inj (l k : list bytes) :
  Forall (fun b => zlen b < 2 ^ 32) l -> Forall (fun b => zlen b < 2 ^ 32) k -> length l = length k ->
  mjoin (enc_bytes <$> l) = mjoin (enc_bytes <$> k) -> l = k.
Proof.
  intros Hl. revert k. induction Hl as [|b l Hb Hl IH]; intros [|c k] Hk Hlen E; try done.
  apply Forall_cons in Hk as [Hc Hk]. cbn in E. apply enc_bytes_inj in E as [-> E]; [|done..].
  f_equal. apply IH; auto.
Qed.

Definition transcript_fields (tag : bytes) (suite_id : string) (id_i : IdentityPublic) (nonce_i : bytes)
    (id_r : IdentityPublic) (prekey nonce_r : bytes) : list bytes :=
  [tag; bstr suite_id; sig_vk id_i; nonce_i; sig_vk id_r; prekey; nonce_r].

Lemma handshake_transcript_inj tag s i ni r pk nr tag' s' i' ni' r' pk' nr' :
  Forall (fun b => zlen b < 2 ^ 32) (transcript_fields tag s i ni r pk nr) ->
  Forall (fun b => zlen b < 2 ^ 32) (transcript_fields tag' s' i' ni' r' pk' nr') ->
  handshake_transcript tag s i ni r pk nr = handshake_transcript tag' s' i' ni' r' pk' nr' ->
  tag = tag' /\ s = s' /\ i = i' /\ ni = ni' /\ r = r' /\ pk = pk' /\ nr = nr'.
Proof.
  intros H H' E. rewrite !hs_transcript_norm in E.
  assert (transcript_fields tag s i ni r pk nr = transcript_fields tag' s' i' ni' r' pk' nr') as E'.
  { apply enc_fields_inj; [done..|]. cbn. by rewrite !app_nil_r. }
  clear E. rename E' into E.
  injection E as -> Es Ei -> Er -> ->. destruct i, i', r, r'; cbn in *; subst.
  split_and!; try done. apply (f_equal String.string_of_list_byte) in Es. unfold bstr in Es.
  by rewrite !String.string_of_list_byte_of_string in Es.
Qed.

Lemma get_bytes_len r b r' : get_bytes r = Ok (b, r') -> zlen b <= MAX_FRAME.
Proof.
  unfold get_bytes. intros H. inv_run. destruct x as [len r1].
  apply get_u32_is_u32 in H0. unfold is_u32 in H0.
  case_decide; [done|]. unfold r_take, usize_checked_add in H. case_decide; [|done]. case_decide; [done|].
  simplify_eq. unfold zlen in *. rewrite length_take. lia.
Qed.

Lemma q_get_vec_len r b r' : q (E:=CoreError) get_vec r = Ok (b, r') -> zlen b <= MAX_FRAME.
Proof. unfold q. destruct (get_vec r) as [[]|] eqn:E; cbn; [|done]. intros [= -> ->]. by eapply get_bytes_len. Qed.

Lemma decode_identity_len r id r' : decode_identity r = Ok (id, r') -> zlen (sig_vk id) <= MAX_FRAME.
Proof.
  unfold decode_identity, gbind, glift. intros H. inv_run. destruct x as [blob r1]. inv_run. destruct x0 as [vk ir].
  inv_run. simplify_eq. cbn. by eapply q_get_vec_len.
Qed.

Lemma get_init_len f id n : run_get get_init f = Ok (id, n) -> zlen (sig_vk id) <= MAX_FRAME /\ zlen n <= MAX_FRAME.
Proof.
  unfold run_get, get_init, gbind. intros H. inv_run. destruct x as [x r]. inv_run. destruct x0 as [i r1]. inv_run.
  destruct x0 as [m r2]. unfold gret in *. simplify_eq.
  split; [by eapply decode_identity_len|by eapply q_get_vec_len].
Qed.

Lemma get_resp_len f id pk n sg :
  run_get get_resp f = Ok (id, pk, n, sg) ->
  zlen (sig_vk id) <= MAX_FRAME /\ zlen pk <= MAX_FRAME /\ zlen n <= MAX_FRAME.
Proof.
  unfold run_get, get_resp, gbind. intros H. inv_run. destruct x as [x r]. inv_run. destruct x0 as [i r1]. inv_run.
  destruct x0 as [m r2]. inv_run. destruct x0 as [m' r3]. inv_run. destruct x0 as [m'' r4]. unfold gret in *. simplify_eq.
  split_and!; [by eapply decode_identity_len|by eapply q_get_vec_len..].
Qed.

Section Agreement.
Context {P : Primitives} {POk : PrimitivesOk P}.

(** One execution of a party, from the draws and the frames it is given. *)
Inductive exec : Type :=
| ExecR (suite : CryptoSuite) (root0 : bytes) (cs : nat -> coins) (cn : coins) (st : Stream)
| ExecI (suite : CryptoSuite) (root0 : bytes) (cn : coins) (st : Stream).

(** The one message an execution of the holder of [k] signs, if it gets there. *)
Definition signs (k : IdentityKeyPair) (e : exec) : option bytes :=
  match e with
  | ExecR su root0 cs cn st =>
      f ← head (s_in st);
      '(peer, nonce_i) ← to_option (run_get get_init f);
      Some (handshake_transcript T_RESP (sd_id (descriptor su)) peer nonce_i (id_public k)
              (generate_prekey su cs).1 (random_nonce cn))
  | ExecI su root0 cn st =>
      match s_room st with
      | O => None
      | S _ =>
          f ← head (s_in st);
          '(peer, pk, nonce_r, sg) ← to_option (run_get get_resp f);
          _ ← to_option (id_verify peer (handshake_transcript T_RESP (sd_id (descriptor su)) (id_public k)
                (random_nonce cn) peer pk nonce_r) sg);
          _ ← to_option (begin_session su root0 pk);
          Some (handshake_transcript T_CONFIRM (sd_id (descriptor su)) (id_public k) (random_nonce cn) peer pk nonce_r)
      end
  end.

(** The key, message and signature that a side verifies. *)
Definition init_checks (k : IdentityKeyPair) (su : CryptoSuite) (cn : coins) (st : Stream)
  : option (IdentityPublic * bytes * bytes) :=
  f ← head (s_in st);
  '(peer, pk, nonce_r, sg) ← to_option (run_get get_resp f);
  Some (peer, handshake_transcript T_RESP (sd_id (descriptor su)) (id_public k) (random_nonce cn) peer pk nonce_r, sg).

Definition resp_checks (k : IdentityKeyPair) (su : CryptoSuite) (cs : nat -> coins) (cn : coins) (st : Stream)
  : option (IdentityPublic * bytes * bytes) :=
  match s_in st with
  | f :: g :: _ =>
      '(peer, nonce_i) ← to_option (run_get get_init f);
      sg ← to_option (run_get (E:=CoreError) (q get_vec) g);
      Some (peer, handshake_transcript T_CONFIRM (sd_id (descriptor su)) peer nonce_i (id_public k)
              (generate_prekey su cs).1 (random_nonce cn), sg)
  | _ => None
  end.

(** Nobody forged the signature that was checked: if it is one of the holder
    of [k], the holder signed that message in one of its executions. *)
Definition unforged (k : IdentityKeyPair) (log : list exec) (check : option (IdentityPublic * bytes * bytes)) : Prop :=
  forall m sg, check = Some (id_public k, m, sg) -> id_verify (id_public k) m sg = Ok tt -> m ∈ omap (signs k) log.

Definition exec_suite (e : exec) : CryptoSuite := match e with ExecR su _ _ _ _ => su | ExecI su _ _ _ => su end.
Definition short_id (su : CryptoSuite) : Prop := zlen (bstr (sd_id (descriptor su))) < 2 ^ 32.

(** What a successful side has done. *)
Lemma initiate_Ok k su root0 cn st res st' :
  initiate k su root0 cn st = (Ok res, st') ->
  exists f fs pk nr sg, s_in st = f :: fs /\ run_get get_resp f = Ok (peer_identity res, pk, nr, sg) /\
    id_verify (peer_identity res) (handshake_transcript T_RESP (sd_id (descriptor su)) (id_public k)
      (random_nonce cn) (peer_identity res) pk nr) sg = Ok tt /\
    begin_session su root0 pk = Ok (hs_session res) /\
    s_out st' = s_out st ++ [init_frame (id_public k) (random_nonce cn); confirm_frame (id_sign k
      (handshake_transcript T_CONFIRM (sd_id (descriptor su)) (id_public k) (random_nonce cn) (peer_identity res) pk nr))].
Proof.
  unfold initiate, st_bind, send_frame, recv_frame, st_lift. destruct (s_room st) as [|n]; [done|]. cbn [s_in s_room s_out].
  destruct (s_in st) as [|f fs]; [done|]. destruct (run_get get_resp f) as [[[[peer pk] nr] sg]|] eqn:Ep; [|done].
  destruct (id_verify _ _ _) as [[]|] eqn:Ev; cbn [map_err]; [|done].
  destruct (begin_session su root0 pk) as [a|] eqn:Eb; cbn [map_err]; [|done]. cbn [s_room].
  destruct n; [done|]. intros [= <- <-]. exists f, fs, pk, nr, sg. cbn [peer_identity hs_session s_out].
  by rewrite <- (assoc (++)).
Qed.

Lemma respond_Ok k su root0 cs cn st res st' :
  respond k su root0 cs cn st = (Ok res, st') ->
  exists f g fs ni sg, s_in st = f :: g :: fs /\ run_get get_init f = Ok (peer_identity res, ni) /\
    run_get (E:=CoreError) (q get_vec) g = Ok sg /\
    id_verify (peer_identity res) (handshake_transcript T_CONFIRM (sd_id (descriptor su)) (peer_identity res) ni
      (id_public k) (generate_prekey su cs).1 (random_nonce cn)) sg = Ok tt /\
    accept_session su root0 (generate_prekey su cs).2 = Ok (hs_session res).
Proof.
  unfold respond, st_bind, send_frame, recv_frame, st_lift. destruct (s_in st) as [|f fs]; [done|].
  destruct (run_get get_init f) as [[peer ni]|] eqn:Ep; [|done].
  destruct (generate_prekey su cs) as [pk sec]. cbn [s_in s_room s_out fst snd].
  destruct (s_room st) as [|n]; [done|]. cbn [s_in]. destruct fs as [|g fs]; [done|].
  destruct (run_get (q get_vec) g) as [sg|] eqn:Eg; [|done].
  destruct (id_verify _ _ _) as [[]|] eqn:Ev; cbn [map_err]; [|done].
  destruct (accept_session su root0 sec) as [b|] eqn:Eb; cbn [map_err]; [|done].
  intros [= <- <-]. by exists f, g, fs, ni, sg.
Qed.

(** The ghost log is exact for completed initiators. *)
Lemma signs_sent k su root0 cn st res st' :
  initiate k su root0 cn st = (Ok res, st') ->
  exists m, signs k (ExecI su root0 cn st) = Some m /\
    s_out st' = s_out st ++ [init_frame (id_public k) (random_nonce cn); confirm_frame (id_sign k m)].
Proof.
  intros H. assert (s_room st <> 0)%nat as Hr.
  { intros E. unfold initiate, st_bind, send_frame in H. by rewrite E in H. }
  apply initiate_Ok in H as (f & fs & pk & nr & sg & Ein & Ep & Ev & Eb & Eo).
  eexists. split; [|exact Eo]. cbn [signs]. destruct (s_room st); [done|]. rewrite Ein. cbn [head mbind option_bind].
  rewrite Ep. cbn [to_option mbind option_bind]. rewrite Ev. cbn [to_option mbind option_bind]. by rewrite Eb.
Qed.

(** A transcript that matches a signed one under the responder's tag was signed
    by a responder execution on the same six values; likewise for initiators. *)
Lemma signed_as k log tag s i ni r pk nr :
  Forall (fun e => short_id (exec_suite e) /\ SuiteOk (exec_suite e)) log ->
  zlen (sig_vk (id_public k)) < 2 ^ 32 ->
  Forall (fun b => zlen b < 2 ^ 32) (transcript_fields tag s i ni r pk nr) ->
  handshake_transcript tag s i ni r pk nr ∈ omap (signs k) log ->
  (tag = T_RESP /\ r = id_public k /\
    exists su' root' cs' cn' st' f, ExecR su' root' cs' cn' st' ∈ log /\ s = sd_id (descriptor su') /\
      head (s_in st') = Some f /\ run_get get_init f = Ok (i, ni) /\
      pk = (generate_prekey su' cs').1 /\ nr = random_nonce cn') \/
  (tag = T_CONFIRM /\ i = id_public k /\
    exists su' root' cn' st' f sg a, ExecI su' root' cn' st' ∈ log /\ s = sd_id (descriptor su') /\
      head (s_in st') = Some f /\ run_get get_resp f = Ok (r, pk, nr, sg) /\
      begin_session su' root' pk = Ok a /\ ni = random_nonce cn').
Proof.
  intros Hlog Hk Hf Hin. apply list_elem_of_omap in Hin as (e & He & Hs).
  rewrite Forall_forall in Hlog. destruct (Hlog e He) as [Hid Hsu]. unfold short_id in Hid. cbn in Hid.
  assert (forall c, zlen (random_nonce c) < 2 ^ 32) as Hnc by (intros c; pose proof (nonce_len c); lia).
  assert (zlen T_RESP < 2 ^ 32 /\ zlen T_CONFIRM < 2 ^ 32) as [HtR HtC] by done.
  destruct e as [su' root' cs' cn' st'|su' root' cn' st']; cbn [exec_suite] in *; cbn [signs] in Hs.
  - left. destruct (head (s_in st')) as [f|] eqn:Eh; [|done]. cbn [mbind option_bind] in Hs.
    destruct (run_get get_init f) as [[peer n]|] eqn:Ep; [|done]. cbn [to_option mbind option_bind] in Hs.
    apply (inj Some) in Hs. destruct (get_init_len _ _ _ Ep). unfold MAX_FRAME in *. pose proof (so_prekey_len (su:=su') cs').
    apply handshake_transcript_inj in Hs as (<- & <- & <- & <- & <- & <- & <-);
      [|repeat (apply Forall_cons; split); (done || apply Hnc || lia || by apply Forall_nil)|done].
    split; [done|]. split; [done|]. by exists su', root', cs', cn', st', f.
  - right. destruct (s_room st'); [done|]. destruct (head (s_in st')) as [f|] eqn:Eh; [|done]. cbn [mbind option_bind] in Hs.
    destruct (run_get get_resp f) as [[[[peer p] n'] sg]|] eqn:Ep; [|done]. cbn [to_option mbind option_bind] in Hs.
    destruct (id_verify _ _ _) as [[]|]; [|done]. cbn [to_option mbind option_bind] in Hs.
    destruct (begin_session su' root' p) as [a|] eqn:Eb; [|done]. cbn [to_option mbind option_bind] in Hs.
    apply (inj Some) in Hs. destruct (get_resp_len _ _ _ _ _ Ep) as (? & ? & ?). unfold MAX_FRAME in *.
    apply handshake_transcript_inj in Hs as (<- & <- & <- & <- & <- & <- & <-);
      [|repeat (apply Forall_cons; split); (done || apply Hnc || lia || by apply Forall_nil)|done].
    split; [done|]. split; [done|]. by exists su', root', cn', st', f, sg, a.
Qed.

(** C8: a completed initiator agrees with its peer.  The network delivers
    whatever it likes; if [initiate] succeeds with the holder of [kr] as its
    peer, and the signature it checked was not forged, then that holder ran
    [respond] on a first frame carrying exactly our identity and our nonce,
    under the same suite id, and our session was begun on the prekey that
    this very execution generated. *)
Theorem initiator_agrees (seed_i seed_r : bytes) (su : CryptoSuite) (root0 : bytes) (cn : coins)
    (st st' : Stream) (res : HandshakeResult) (log : list exec) :
  let ki := id_from_secret_bytes seed_i in
  let kr := id_from_secret_bytes seed_r in
  short_id su -> Forall (fun e => short_id (exec_suite e) /\ SuiteOk (exec_suite e)) log ->
  initiate ki su root0 cn st = (Ok res, st') -> peer_identity res = id_public kr ->
  unforged kr log (init_checks ki su cn st) ->
  exists su' root' cs' cn' st_r f,
    ExecR su' root' cs' cn' st_r ∈ log /\ sd_id (descriptor su) = sd_id (descriptor su') /\
    head (s_in st_r) = Some f /\ run_get get_init f = Ok (id_public ki, random_nonce cn) /\
    begin_session su root0 (generate_prekey su' cs').1 = Ok (hs_session res).
Proof.
  intros ki kr Hid Hlog H Hpeer Hu.
  apply initiate_Ok in H as (f & fs & pk & nr & sg & Ein & Ep & Ev & Eb & _). rewrite Hpeer in Ep, Ev.
  destruct (get_resp_len _ _ _ _ _ Ep) as (? & ? & ?). pose proof (nonce_len cn).
  assert (zlen (sig_vk (id_public ki)) <= 2 ^ 20) by apply vk_len.
  assert (zlen (sig_vk (id_public kr)) <= 2 ^ 20) by apply vk_len. unfold MAX_FRAME, short_id in *.
  assert (init_checks ki su cn st = Some (id_public kr, handshake_transcript T_RESP (sd_id (descriptor su))
    (id_public ki) (random_nonce cn) (id_public kr) pk nr, sg)) as Hc.
  { unfold init_checks. rewrite Ein. cbn [head mbind option_bind]. by rewrite Ep. }
  specialize (Hu _ _ Hc Ev).
  apply signed_as in Hu; [|done|lia|].
  { destruct Hu as [(_ & _ & su' & root' & cs' & cn' & st_r & f' & Hin & Hs & Hf & Hg & -> & _)|(? & _)]; [|done].
    by exists su', root', cs', cn', st_r, f'. }
  repeat (apply Forall_cons; split); try (done || by apply Forall_nil); lia.
Qed.

(** C9: a completed responder agrees with its peer.  If [respond] succeeds with
    the holder of [ki] as its peer, and the signature it checked was not
    forged, then that holder ran [initiate] with the nonce we received, under
    the same suite id, accepted a response carrying exactly our identity, our
    prekey and our nonce, and began its session on that prekey. *)
Theorem responder_agrees (seed_i seed_r : bytes) (su : CryptoSuite) (root0 : bytes) (cs : nat -> coins) (cn : coins)
    (st st' : Stream) (res : HandshakeResult) (log : list exec) :
  let ki := id_from_secret_bytes seed_i in
  let kr := id_from_secret_bytes seed_r in
  short_id su -> SuiteOk su -> Forall (fun e => short_id (exec_suite e) /\ SuiteOk (exec_suite e)) log ->
  respond kr su root0 cs cn st = (Ok res, st') -> peer_identity res = id_public ki ->
  unforged ki log (resp_checks kr su cs cn st) ->
  exists su' root' cn' st_i f g sg a,
    ExecI su' root' cn' st_i ∈ log /\ sd_id (descriptor su) = sd_id (descriptor su') /\
    head (s_in st) = Some f /\ run_get get_init f = Ok (id_public ki, random_nonce cn') /\
    head (s_in st_i) = Some g /\
    run_get get_resp g = Ok (id_public kr, (generate_prekey su cs).1, random_nonce cn, sg) /\
    begin_session su' root' (generate_prekey su cs).1 = Ok a.
Proof.
  intros ki kr Hid Hsu Hlog H Hpeer Hu.
  apply respond_Ok in H as (f & g & fs & ni & sg & Ein & Ep & Eg & Ev & Eb). rewrite Hpeer in Ep, Ev.
  destruct (get_init_len _ _ _ Ep) as [? ?]. pose proof (nonce_len cn). pose proof (so_prekey_len (su:=su) cs).
  assert (zlen (sig_vk (id_public ki)) <= 2 ^ 20) by apply vk_len.
  assert (zlen (sig_vk (id_public kr)) <= 2 ^ 20) by apply vk_len. unfold MAX_FRAME, short_id in *.
  assert (resp_checks kr su cs cn st = Some (id_public ki, handshake_transcript T_CONFIRM (sd_id (descriptor su))
    (id_public ki) ni (id_public kr) (generate_prekey su cs).1 (random_nonce cn), sg)) as Hc.
  { unfold resp_checks. rewrite Ein. cbn [head]. rewrite Ep. cbn [to_option mbind option_bind]. by rewrite Eg. }
  specialize (Hu _ _ Hc Ev).
  apply signed_as in Hu; [|done|lia|].
  { destruct Hu as [(? & _)|(_ & _ & su' & root' & cn' & st_i & g' & sg' & a & Hin & Hs & Hf & Hg & Hb & ->)]; [done|].
    exists su', root', cn', st_i, f, g', sg', a. by rewrite Ein. }
  repeat (apply Forall_cons; split); try (done || by apply Forall_nil); lia.
Qed.

(** The executions of an honest run sign what the other side checks. *)
Lemma honest_unforged su seed_i seed_r cn cs cr root0 n :
  let ki := id_from_secret_bytes seed_i in
  let kr := id_from_secret_bytes seed_r in
  let resp := honest_resp su kr (id_public ki) (random_nonce cn) cs cr in
  let init := init_frame (id_public ki) (random_nonce cn) in
  let confirm := honest_confirm su ki (id_public kr) (random_nonce cn) (generate_prekey su cs).1 (random_nonce cr) in
  SuiteOk su -> length root0 = KEY_LEN ->
  unforged kr [ExecR su root0 cs cr (mkStream [init; confirm] [] n)] (init_checks ki su cn (mkStream [resp] [] (S n))) /\
  unforged ki [ExecI su root0 cn (mkStream [resp] [] (S n))] (resp_checks kr su cs cr (mkStream [init; confirm] [] n)).
Proof.
  intros ki kr resp init confirm Hsu Hr. destruct (so_pair (su:=su) cs root0 Hr) as (a & b & Ea & _ & _).
  assert (run_get get_init init = Ok (id_public ki, random_nonce cn)) as Pi
    by (apply get_init_ok; [apply vk_len|apply nonce_len]).
  pose proof (get_resp_ok (id_public kr) (generate_prekey su cs).1 (random_nonce cr)) as Pr.
  split; intros m sg Hc _.
  - unfold init_checks, resp, honest_resp in Hc. cbn [s_in head mbind option_bind] in Hc.
    rewrite Pr in Hc; [|apply vk_len|by apply prekey_len|apply nonce_len|apply sign_len].
    cbn [to_option mbind option_bind] in Hc. simplify_eq. cbn [omap list_omap signs s_in head mbind option_bind].
    rewrite Pi. cbn [to_option mbind option_bind]. by left.
  - unfold resp_checks, confirm, honest_confirm in Hc. cbn [s_in] in Hc. rewrite Pi in Hc.
    cbn [to_option mbind option_bind] in Hc. rewrite get_confirm_ok in Hc by apply sign_len.
    cbn [to_option mbind option_bind] in Hc. simplify_eq.
    cbn [omap list_omap signs s_room s_in head mbind option_bind]. unfold resp, honest_resp.
    rewrite Pr; [|apply vk_len|by apply prekey_len|apply nonce_len|apply sign_len].
    cbn [to_option mbind option_bind]. unfold kr. rewrite id_verify_sign. cbn [to_option mbind option_bind]. rewrite Ea. by left.
Qed.

End Agreement.

(** ** Witnesses *)

Section HandshakeWitnesses.
#[local] Existing Instance demo_build.

Definition hw_suite : CryptoSuite := NoiseSuite profile_pq_pure.
Definition hw_i : IdentityKeyPair := id_from_secret_bytes (bstr "alice").
Definition hw_r : IdentityKeyPair := id_from_secret_bytes (bstr "bob").
Definition hw_resp : bytes := honest_resp hw_suite hw_r (id_public hw_i) (random_nonce 5%nat) (w_cs 1) 6%nat.
Definition hw_init : bytes := init_frame (id_public hw_i) (random_nonce 5%nat).
Definition hw_confirm : bytes :=
  honest_confirm hw_suite hw_i (id_public hw_r) (random_nonce 5%nat) (generate_prekey hw_suite (w_cs 1)).1 (random_nonce 6%nat).

Lemma handshake_completes_witness :
  exists init resp confirm a b,
    initiate hw_i hw_suite w_root 5%nat (mkStream [resp] [] 2) =
      (Ok (mkHandshakeResult (id_public hw_r) a), mkStream [] [init; confirm] 0) /\
    respond hw_r hw_suite w_root (w_cs 1) 6%nat (mkStream [init; confirm] [] 1) =
      (Ok (mkHandshakeResult (id_public hw_i) b), mkStream [] [resp] 0) /\
    sh_matched hw_suite (w_cs 1) a b.
Proof.
  apply (handshake_completes hw_suite (bstr "alice") (bstr "bob") w_root 5%nat 6%nat (w_cs 1)).
  - apply noise_ok.
  - reflexivity.
Defined.

(** The run of the witness on both sides. *)
Lemma hw_runs :
  exists a b,
    initiate hw_i hw_suite w_root 5%nat (mkStream [hw_resp] [] 2) =
      (Ok (mkHandshakeResult (id_public hw_r) a), mkStream [] [hw_init; hw_confirm] 0) /\
    respond hw_r hw_suite w_root (w_cs 1) 6%nat (mkStream [hw_init; hw_confirm] [] 1) =
      (Ok (mkHandshakeResult (id_public hw_i) b), mkStream [] [hw_resp] 0).
Proof.
  destruct (so_pair (su:=hw_suite) (w_cs 1) w_root eq_refl) as (a & b & Ea & Eb & _). exists a, b. split.
  - apply initiate_honest; [apply noise_ok|apply id_verify_sign|apply vk_len|done].
  - apply respond_honest; [apply id_verify_sign|apply vk_len|done].
Qed.

Definition hw_log_r : list exec := [ExecR hw_suite w_root (w_cs 1) 6%nat (mkStream [hw_init; hw_confirm] [] 1)].
Definition hw_log_i : list exec := [ExecI hw_suite w_root 5%nat (mkStream [hw_resp] [] 2)].

Lemma hw_short : short_id hw_suite.
Proof. by vm_compute. Qed.

Lemma initiator_agrees_witness :
  exists res su' root' cs' cn' st_r f,
    ExecR su' root' cs' cn' st_r ∈ hw_log_r /\ sd_id (descriptor hw_suite) = sd_id (descriptor su') /\
    head (s_in st_r) = Some f /\ run_get get_init f = Ok (id_public hw_i, random_nonce 5%nat) /\
    begin_session hw_suite w_root (generate_prekey su' cs').1 = Ok (hs_session res).
Proof.
  destruct hw_runs as (a & b & Hi & _). exists (mkHandshakeResult (id_public hw_r) a).
  apply (initiator_agrees (bstr "alice") (bstr "bob") hw_suite w_root 5%nat
    (mkStream [hw_resp] [] 2) (mkStream [] [hw_init; hw_confirm] 0)).
  - exact hw_short.
  - apply Forall_singleton. split; [exact hw_short|apply noise_ok].
  - exact Hi.
  - reflexivity.
  - exact (proj1 (honest_unforged hw_suite (bstr "alice") (bstr "bob") 5%nat (w_cs 1) 6%nat w_root 1 (noise_ok _) eq_refl)).
Defined.

Lemma responder_agrees_witness :
  exists su' root' cn' st_i f g sg a,
    ExecI su' root' cn' st_i ∈ hw_log_i /\ sd_id (descriptor hw_suite) = sd_id (descriptor su') /\
    head [hw_init; hw_confirm] = Some f /\ run_get get_init f = Ok (id_public hw_i, random_nonce cn') /\
    head (s_in st_i) = Some g /\
    run_get get_resp g = Ok (id_public hw_r, (generate_prekey hw_suite (w_cs 1)).1, random_nonce 6%nat, sg) /\
    begin_session su' root' (generate_prekey hw_suite (w_cs 1)).1 = Ok a.
Proof.
  destruct hw_runs as (a & b & _ & Hr).
  apply (responder_agrees (bstr "alice") (bstr "bob") hw_suite w_root (w_cs 1) 6%nat
    (mkStream [hw_init; hw_confirm] [] 1) (mkStream [] [hw_resp] 0) (mkHandshakeResult (id_public hw_i) b)).
  - exact hw_short.
  - apply noise_ok.
  - apply Forall_singleton. split; [exact hw_short|apply noise_ok].
  - exact Hr.
  - reflexivity.
  - exact (proj2 (honest_unforged hw_suite (bstr "alice") (bstr "bob") 5%nat (w_cs 1) 6%nat w_root 1 (noise_ok _) eq_refl)).
Defined.

End HandshakeWitnesses.
