(* ===== verification/Relay.v ===== *)
(** * The non-member relay (crates/core/src/relay.rs, engine.rs [Routed])

    The relay terminates the pairwise channel of every participant and
    forwards the inner frames per their route.  Its tasks share state through
    [Arc]s: a connection is an index into [sw_conns], a peer entry points to
    one, and the forwarding loop of a connection keeps using its own session
    after the entry is gone.  One turn of a loop is not atomic: it receives
    and picks its targets, then encrypts to one target at a time while other
    loops run, so the relay is a step relation over [RelayState]. *)

From S2P Require Import Prelude Wire Crypto Hybrid Toy Ratchet Conversation Noise Suite TreeNode TreeCodec TreeKem Marking Frames Engine Frag Store Outbox Forward ForwardProps Handshake.

#[export] Instance route_eq_dec : EqDecision Route.
Proof. solve_decision. Defined.

Record Routed : Type := mkRouted { rt_to : Route; rt_from : bytes; rt_inner : bytes }.

Definition routed_encode (r : Routed) : bytes :=
  let w := match rt_to r with
           | Broadcast => w_new |> put_u8 0
           | ToPeer fp => w_new |> put_u8 1 |> put_bytes fp
           | Committer => w_new |> put_u8 2
           end in
  w |> put_bytes (rt_from r) |> put_bytes (rt_inner r) |> into_vec.

(** [read_fp] is [fixed 48]. *)
Definition routed_decode (b : bytes) : option Routed :=
  to_option (run_get (E:=unit) (
    get* tag := q get_u8 in
    get* to := (match tag with
                | 0 => gret Broadcast
                | 1 => get* fp := fixed 48 in gret (ToPeer fp)
                | 2 => gret Committer
                | _ => gfail tt
                end) in
    get* from := fixed 48 in
    get* inner := q get_vec in
    gret (mkRouted to from inner)) b).

Section Relay.
Context {P : Primitives}.
(** The digests of the [sha2] and [sha3] crates. *)
Context (sha256 sha3_384 : bytes -> bytes).

Definition id_fingerprint (id : IdentityPublic) : bytes := sha3_384 (sig_vk id).

(** A connection: what its tasks share. *)
Record Conn : Type := mkConn {
  c_fp : bytes; c_session : SessionHandle;
  c_open : bool;  (** the transport still takes frames *)
  c_live : bool;  (** its forwarding loop runs *)
  c_out : list bytes }.

Record Switch : Type := mkSwitch {
  sw_conns : list Conn;
  sw_peers : list nat;
  sw_committer : option bytes;
  sw_seen : SeenSet }.

Definition switch_new : Switch := mkSwitch [] [] None seen_new.

Definition with_conn (i : nat) (f : Conn -> Conn) (s : Switch) : Switch :=
  mkSwitch (alter f i (sw_conns s)) (sw_peers s) (sw_committer s) (sw_seen s).
Definition set_session (h : SessionHandle) (c : Conn) : Conn := mkConn (c_fp c) h (c_open c) (c_live c) (c_out c).
Definition push_out (ct : bytes) (c : Conn) : Conn :=
  mkConn (c_fp c) (c_session c) (c_open c) (c_live c) (if c_open c then c_out c ++ [ct] else c_out c).

(** The accept loop of [run], once [respond] has succeeded. *)
Definition accept_peer (hs : HandshakeResult) (s : Switch) : Switch :=
  let fp := id_fingerprint (peer_identity hs) in
  mkSwitch (sw_conns s ++ [mkConn fp (hs_session hs) true true []])
    (sw_peers s ++ [length (sw_conns s)])
    (match sw_committer s with None => Some fp | Some c => Some c end)
    (sw_seen s).

Definition participant_count (s : Switch) : nat := length (sw_peers s).

(** The filter of [forward_loop]. *)
Definition goes_to (to : Route) (committer : option bytes) (sender_fp fp : bytes) : bool :=
  match to with
  | Broadcast => bool_decide (fp <> sender_fp)
  | ToPeer dst => bool_decide (fp = dst)
  | Committer => bool_decide (Some fp = committer) && bool_decide (fp <> sender_fp)
  end.

(** A test on the fingerprint of the connection a peer entry points to. *)
Definition fp_is (s : Switch) (j : nat) (test : bytes -> bool) : bool :=
  match sw_conns s !! j with Some p => test (c_fp p) | None => false end.

(** One received frame: the routed envelope it was, and the targets. *)
Definition forward_recv (i : nat) (frame : bytes) (s : Switch) : option (Routed * list nat) * Switch :=
  match sw_conns s !! i with
  | None => (None, s)
  | Some c =>
      let (r, h) := sh_decrypt frame (c_session c) in
      let s := with_conn i (set_session h) s in
      match r with
      | Err _ => (None, s)
      | Ok pt =>
          match routed_decode pt with
          | None => (None, s)
          | Some routed =>
              let (fresh, seen) := seen_insert (gossip_id sha256 (rt_inner routed)) (sw_seen s) in
              let s := mkSwitch (sw_conns s) (sw_peers s) (sw_committer s) seen in
              if negb fresh then (None, s)
              else
                let targets := filter (fun j =>
                  fp_is s j (goes_to (rt_to routed) (sw_committer s) (c_fp c)) = true) (sw_peers s) in
                (Some (routed, targets), s)
          end
      end
  end.

(** The forwarded envelope carries the authenticated sender. *)
Definition stamp (sender_fp : bytes) (r : Routed) : Routed := mkRouted (rt_to r) sender_fp (rt_inner r).

(** One turn of the [for (s, w) in targets] loop. *)
Definition forward_send (cs : nat -> coins) (fwd : Routed) (j : nat) (s : Switch) : bool * Switch :=
  match sw_conns s !! j with
  | None => (false, s)
  | Some p =>
      let (r, h) := sh_encrypt cs (routed_encode fwd) (c_session p) in
      let s := with_conn j (set_session h) s in
      match r with
      | Ok ct => (true, with_conn j (push_out ct) s)
      | Err _ => (false, s)
      end
  end.

(** After the loop: drop the peer, by fingerprint. *)
Definition hang_up (i : nat) (s : Switch) : Switch :=
  match sw_conns s !! i with
  | None => s
  | Some c =>
      let s := with_conn i (fun c => mkConn (c_fp c) (c_session c) (c_open c) false (c_out c)) s in
      mkSwitch (sw_conns s)
        (filter (fun j => fp_is s j (fun fp => bool_decide (fp <> c_fp c)) = true) (sw_peers s))
        (sw_committer s) (sw_seen s)
  end.

(** ** Interleavings *)

(** Beside the switch: what each loop is in the middle of sending. *)
Record RelayState : Type := mkRelay { r_switch : Switch; r_jobs : gmap nat (Routed * list nat) }.

(** What the relay does that a participant could notice. *)
Inductive revent : Type :=
| EHeard (i : nat) (said : Routed)
| ESent (j : nat) (fwd : Routed).

Inductive rstep : RelayState -> list revent -> RelayState -> Prop :=
| RAccept sw jobs hs : rstep (mkRelay sw jobs) [] (mkRelay (accept_peer hs sw) jobs)
| RFrame sw jobs i c frame said targets sw' :
    sw_conns sw !! i = Some c -> c_live c = true -> jobs !! i = None ->
    forward_recv i frame sw = (Some (said, targets), sw') ->
    rstep (mkRelay sw jobs) [EHeard i said] (mkRelay sw' (<[i := (stamp (c_fp c) said, targets)]> jobs))
| RDrop sw jobs i c frame sw' :
    sw_conns sw !! i = Some c -> c_live c = true -> jobs !! i = None ->
    forward_recv i frame sw = (None, sw') ->
    rstep (mkRelay sw jobs) [] (mkRelay sw' jobs)
| RSend sw jobs i fwd j targets cs ok sw' :
    jobs !! i = Some (fwd, j :: targets) -> forward_send cs fwd j sw = (ok, sw') ->
    rstep (mkRelay sw jobs) (if ok then [ESent j fwd] else []) (mkRelay sw' (<[i := (fwd, targets)]> jobs))
| RDone sw jobs i fwd :
    jobs !! i = Some (fwd, []) -> rstep (mkRelay sw jobs) [] (mkRelay sw (delete i jobs))
| RHangUp sw jobs i c :
    sw_conns sw !! i = Some c -> c_live c = true -> jobs !! i = None ->
    rstep (mkRelay sw jobs) [] (mkRelay (hang_up i sw) jobs)
| RClosed sw jobs i :
    rstep (mkRelay sw jobs) []
      (mkRelay (with_conn i (fun c => mkConn (c_fp c) (c_session c) false (c_live c) (c_out c)) sw) jobs).

Inductive rreach : list revent -> RelayState -> Prop :=
| RStart : rreach [] (mkRelay switch_new ∅)
| RNext tr s evs s' : rreach tr s -> rstep s evs s' -> rreach (tr ++ evs) s'.

(** ** Routing is authentic *)

(** What never changes about a connection, and the committer once set. *)
Definition sw_ext (s s' : Switch) : Prop :=
  (forall i c, sw_conns s !! i = Some c -> exists c', sw_conns s' !! i = Some c' /\ c_fp c' = c_fp c) /\
  (forall x, sw_committer s = Some x -> sw_committer s' = Some x).

#[export] Instance sw_ext_preorder : PreOrder sw_ext.
Proof.
  split; [split; eauto|]. intros s s1 s2 [H1 M1] [H2 M2]. split; [|eauto].
  intros i c E. destruct (H1 i c E) as (c1 & E1 & F1). destruct (H2 i c1 E1) as (c2 & E2 & F2).
  exists c2. split; [done|congruence].
Qed.

Lemma with_conn_lookup f i s j c' :
  sw_conns (with_conn i f s) !! j = Some c' ->
  exists c, sw_conns s !! j = Some c /\ c' = if decide (i = j) then f c else c.
Proof.
  cbn. destruct (decide (i = j)) as [->|Hij].
  - rewrite list_lookup_alter_eq. intros (c & E & ->)%fmap_Some. eauto.
  - rewrite list_lookup_alter_ne by done. eauto.
Qed.

Lemma with_conn_ext f i s : (forall c, c_fp (f c) = c_fp c) -> sw_ext s (with_conn i f s).
Proof.
  intros Hf. split; [|done]. intros j c Hc. cbn. destruct (decide (i = j)) as [->|Hij].
  - rewrite list_lookup_alter_eq, Hc. eexists. split; [done|apply Hf].
  - rewrite list_lookup_alter_ne by done. eauto.
Qed.

(** The relay invariant of a switch: the committer is the first participant,
    and the peer entries point to connections. *)
Record sw_inv (s : Switch) : Prop := {
  sv_committer : sw_committer s = c_fp <$> sw_conns s !! 0%nat;
  sv_peers : forall j, j ∈ sw_peers s -> (j < length (sw_conns s))%nat }.

(** [fwd] may go to connection [j]. *)
Definition allowed (s : Switch) (fwd : Routed) (j : nat) : Prop :=
  exists c, sw_conns s !! j = Some c /\ goes_to (rt_to fwd) (sw_committer s) (rt_from fwd) (c_fp c) = true.

Lemma allowed_ext s s' fwd j : sw_ext s s' -> allowed s fwd j -> allowed s' fwd j.
Proof.
  intros (Hc & Hm) (c & E & Hg). destruct (Hc j c E) as (c' & E' & Hfp). exists c'. split; [done|]. rewrite Hfp.
  destruct (rt_to fwd); cbn in *; [done..|]. apply andb_true_iff in Hg as [Hx Hy].
  apply bool_decide_eq_true in Hx. rewrite (Hm (c_fp c)) by done. by rewrite Hy, bool_decide_true.
Qed.

Lemma with_conn_inv f i s : (forall c, c_fp (f c) = c_fp c) -> sw_inv s -> sw_inv (with_conn i f s).
Proof.
  intros Hf [Hc Hp]. split; cbn.
  - rewrite Hc. destruct i as [|i]; [rewrite list_lookup_alter_eq|by rewrite list_lookup_alter_ne by done].
    destruct (sw_conns s !! 0%nat) as [c|]; cbn; [by rewrite Hf|done].
  - intros j Hj. rewrite length_alter. by apply Hp.
Qed.

Lemma accept_peer_ext hs s : sw_inv s -> sw_ext s (accept_peer hs s) /\ sw_inv (accept_peer hs s).
Proof.
  intros [Hc Hp]. split; [split|split]; cbn.
  - intros i c E. exists c. split; [|done]. by apply lookup_app_l_Some.
  - intros x ->. done.
  - rewrite Hc. destruct (sw_conns s); done.
  - intros j [Hj|Hj]%elem_of_app; rewrite length_app; cbn; [specialize (Hp j Hj); lia|].
    apply list_elem_of_singleton in Hj. lia.
Qed.

Lemma hang_up_ext i s : sw_inv s -> sw_ext s (hang_up i s) /\ sw_inv (hang_up i s).
Proof.
  intros Hi. unfold hang_up. destruct (sw_conns s !! i) as [c|] eqn:E; [|by split].
  set (s1 := with_conn i _ s). assert (sw_ext s s1) as [He Hm] by (by apply with_conn_ext).
  assert (sw_inv s1) as [Hc Hp] by (by apply with_conn_inv). split; [by split|split]; [done|]; cbn in *.
  - intros j [_ Hj]%list_elem_of_filter. by apply Hp.
Qed.

Lemma forward_recv_ext i frame s r s' :
  sw_inv s -> forward_recv i frame s = (r, s') -> sw_ext s s' /\ sw_inv s' /\
  forall said ts c, r = Some (said, ts) -> sw_conns s !! i = Some c -> Forall (allowed s' (stamp (c_fp c) said)) ts.
Proof.
  intros Hi. unfold forward_recv. destruct (sw_conns s !! i) as [c|] eqn:E.
  2:{ intros [= <- <-]. split; [done|done]. }
  destruct (sh_decrypt frame (c_session c)) as [rd h]. set (s1 := with_conn i _ s).
  assert (sw_ext s s1) as He by (by apply with_conn_ext). assert (sw_inv s1) as Hi1 by (by apply with_conn_inv).
  destruct rd as [pt|]; [|intros [= <- <-]; done]. destruct (routed_decode pt) as [said|]; [|intros [= <- <-]; done].
  destruct (seen_insert _ _) as [fresh seen]. set (s2 := mkSwitch _ _ _ seen).
  assert (sw_ext s s2 /\ sw_inv s2) as [He2 Hi2] by (destruct Hi1; done).
  destruct fresh; cbn [negb]; [|intros [= <- <-]; done]. intros [= <- <-]. split; [done|]. split; [done|].
  intros ? ? c0 [= <- <-] [= <-]. apply Forall_forall. intros j [Hj _]%list_elem_of_filter. unfold fp_is in Hj.
  destruct (sw_conns s2 !! j) as [p|] eqn:Ej; [|done]. by exists p.
Qed.

Lemma forward_send_ext cs fwd j s ok s' :
  sw_inv s -> forward_send cs fwd j s = (ok, s') -> sw_ext s s' /\ sw_inv s'.
Proof.
  intros Hi. unfold forward_send. destruct (sw_conns s !! j) as [p|] eqn:E.
  2:{ intros [= <- <-]. split; [done|done]. }
  destruct (sh_encrypt cs _ _) as [[ct|] h]; intros [= <- <-]; (split; [|by repeat apply with_conn_inv]).
  - etrans; [by apply (with_conn_ext (set_session h) j)|by apply with_conn_ext].
  - by apply with_conn_ext.
Qed.

Record rinv (tr : list revent) (s : RelayState) : Prop := {
  rv_sw : sw_inv (r_switch s);
  rv_jobs i fwd ts : r_jobs s !! i = Some (fwd, ts) ->
    (exists said c, EHeard i said ∈ tr /\ sw_conns (r_switch s) !! i = Some c /\ fwd = stamp (c_fp c) said) /\
    Forall (allowed (r_switch s) fwd) ts;
  rv_sent j fwd : ESent j fwd ∈ tr ->
    (exists i said c, EHeard i said ∈ tr /\ sw_conns (r_switch s) !! i = Some c /\ fwd = stamp (c_fp c) said) /\
    allowed (r_switch s) fwd j }.

(** [fwd] is what connection [i] said, stamped. *)
Definition heard_as (tr : list revent) (s : Switch) (i : nat) (fwd : Routed) : Prop :=
  exists said c, EHeard i said ∈ tr /\ sw_conns s !! i = Some c /\ fwd = stamp (c_fp c) said.

Lemma heard_as_mono tr evs s s' i fwd : sw_ext s s' -> heard_as tr s i fwd -> heard_as (tr ++ evs) s' i fwd.
Proof.
  intros [He _] (said & c & Hin & Hc & ->). destruct (He i c Hc) as (c' & Hc' & Hfp).
  exists said, c'. rewrite Hfp. split; [set_solver|done].
Qed.

(** How any step keeps the invariant: the switch extends, a job is an old one
    with fewer targets or a new one, and what is sent was the head of a job. *)
Lemma rinv_step tr s evs sw' jobs' :
  rinv tr s -> sw_ext (r_switch s) sw' -> sw_inv sw' ->
  (forall i fwd ts, jobs' !! i = Some (fwd, ts) ->
     (exists ts', r_jobs s !! i = Some (fwd, ts') /\ ts ⊆ ts') \/
     (heard_as evs sw' i fwd /\ Forall (allowed sw' fwd) ts)) ->
  (forall j fwd, ESent j fwd ∈ evs -> exists i ts, r_jobs s !! i = Some (fwd, ts) /\ j ∈ ts) ->
  rinv (tr ++ evs) (mkRelay sw' jobs').
Proof.
  intros [Hsw Hjobs Hsent] He Hi Hj Hs. split; cbn.
  - done.
  - intros i fwd ts E. destruct (Hj i fwd ts E) as [(ts' & E' & Hsub)|[(said & c & Hin & Hc & ->) Hal]].
    + destruct (Hjobs _ _ _ E') as [Hh Hal]. split; [by eapply heard_as_mono|].
      rewrite Forall_forall in *. intros j Hjt. eapply allowed_ext; [done|]. by apply Hal, Hsub.
    + split; [|done]. exists said, c. split; [set_solver|done].
  - intros j fwd [Hin|Hin]%elem_of_app.
    + destruct (Hsent j fwd Hin) as [(i & Hh) Hal].
      split; [exists i; by eapply heard_as_mono|by eapply allowed_ext].
    + destruct (Hs j fwd Hin) as (i & ts & E & Hjt). destruct (Hjobs _ _ _ E) as [Hh Hal].
      split; [exists i; by eapply heard_as_mono|]. rewrite Forall_forall in Hal. by eapply allowed_ext, Hal.
Qed.

Lemma rreach_inv tr s : rreach tr s -> rinv tr s.
Proof.
  induction 1 as [|tr s evs s' Hr IH Hst].
  { split; [split; [done|by intros ? ?%elem_of_nil]| |by intros ?? ?%elem_of_nil].
    intros i fwd ts. cbn. by rewrite lookup_empty. }
  destruct Hst as [sw jobs hs|sw jobs i c frame said ts sw' Hc Hl Hj Hf|sw jobs i c frame sw' Hc Hl Hj Hf
    |sw jobs i fwd j ts cs ok sw' Hj Hf|sw jobs i fwd Hj|sw jobs i c Hc Hl Hj|sw jobs i]; pose proof (rv_sw _ _ IH) as Hi; cbn in Hi.
  - destruct (accept_peer_ext hs sw Hi). apply (rinv_step _ _ _ _ _ IH); cbn; [done..|by eauto|by intros ?? ?%elem_of_nil].
  - destruct (forward_recv_ext _ _ _ _ _ Hi Hf) as ([He Hm] & Hi' & Hal).
    apply (rinv_step _ _ _ _ _ IH); cbn; [done..| |by intros ?? [?|?%elem_of_nil]%elem_of_cons].
    intros k fwd ts' [(<- & [= <- <-])|[? ?]]%lookup_insert_Some; [|by eauto]. right. split; [|by eauto].
    destruct (He i c Hc) as (c' & Hc' & Hfp). exists said, c'. rewrite Hfp. split; [by left|done].
  - destruct (forward_recv_ext _ _ _ _ _ Hi Hf) as (He & Hi' & _).
    apply (rinv_step _ _ _ _ _ IH); cbn; [done..|by eauto|by intros ?? ?%elem_of_nil].
  - destruct (forward_send_ext _ _ _ _ _ _ Hi Hf) as [He Hi']. apply (rinv_step _ _ _ _ _ IH); cbn; [done..| |].
    + intros k fwd' ts' [(<- & [= <- <-])|[? ?]]%lookup_insert_Some; [|by eauto]. left. eexists. split; [done|]. set_solver.
    + intros j' fwd'. destruct ok; [|by intros ?%elem_of_nil]. intros [[= -> ->]|?%elem_of_nil]%elem_of_cons; [|done].
      exists i, (j :: ts). split; [done|by left].
  - apply (rinv_step _ _ _ _ _ IH); cbn; [done..| |by intros ?? ?%elem_of_nil].
    intros k fwd' ts' [_ ?]%lookup_delete_Some. eauto.
  - destruct (hang_up_ext i sw Hi). apply (rinv_step _ _ _ _ _ IH); cbn; [done..|by eauto|by intros ?? ?%elem_of_nil].
  - apply (rinv_step _ _ _ _ _ IH); cbn; [by apply with_conn_ext|by apply with_conn_inv|by eauto|by intros ?? ?%elem_of_nil].
Qed.

(** C25: the relay stamps and routes faithfully, in every interleaving of its
    tasks.  Whatever it encrypts to a connection is the inner frame some
    connection sent it, under the route that connection asked for, with the
    fingerprint that connection authenticated with as the sender, whatever
    sender the envelope claimed; and the receiving connection is one that
    route names: never the sender's own for a broadcast, the addressed one, or
    the first participant that ever connected. *)
Theorem relay_authentic (tr : list revent) (s : RelayState) (j : nat) (fwd : Routed) :
  rreach tr s -> ESent j fwd ∈ tr ->
  let conns := sw_conns (r_switch s) in
  exists i said ci cj, EHeard i said ∈ tr /\ conns !! i = Some ci /\ conns !! j = Some cj /\
    fwd = mkRouted (rt_to said) (c_fp ci) (rt_inner said) /\
    match rt_to said with
    | Broadcast => c_fp cj <> c_fp ci
    | ToPeer dst => c_fp cj = dst
    | Committer => c_fp cj <> c_fp ci /\ c_fp <$> conns !! 0%nat = Some (c_fp cj)
    end.
Proof.
  intros Hr Hs conns. apply rreach_inv in Hr. destruct Hr as [[Hcom _] _ Hsent].
  destruct (Hsent j fwd Hs) as [(i & said & ci & Hin & Hci & ->) (cj & Hcj & Hg)].
  exists i, said, ci, cj. do 4 (split; [done|]). cbn in Hg. destruct (rt_to said); cbn in Hg.
  - by apply bool_decide_eq_true in Hg.
  - by apply bool_decide_eq_true in Hg.
  - apply andb_true_iff in Hg as [H1%bool_decide_eq_true H2%bool_decide_eq_true].
    split; [done|]. unfold conns. by rewrite <- Hcom.
Qed.

(** ** Two limits of the relay *)

(** Deduplication looks only at the inner frame: once one participant's frame
    is forwarded, an equal inner frame of any participant, under any route, is
    dropped.  [MailboxFetch] encodes to the same byte for everybody. *)
Lemma relay_drops_equal_inner i f s said ts s1 k c f' pt h said' :
  seen_ok (sw_seen s) -> forward_recv i f s = (Some (said, ts), s1) ->
  sw_conns s1 !! k = Some c -> sh_decrypt f' (c_session c) = (Ok pt, h) ->
  routed_decode pt = Some said' -> rt_inner said' = rt_inner said ->
  forward_recv k f' s1 = (None, with_conn k (set_session h) s1).
Proof.
  intros Hok H1 Hc Hd Hr Hin. unfold forward_recv in *. rewrite Hc, Hd, Hr, Hin.
  destruct (sw_conns s !! i) as [c0|]; [|done]. destruct (sh_decrypt f (c_session c0)) as [[pt0|] h0]; [|done].
  destruct (routed_decode pt0) as [r0|]; [|done]. cbn [sw_seen with_conn] in H1.
  pose proof (seen_insert_spec (gossip_id sha256 (rt_inner r0)) (sw_seen s) Hok) as (Hf & Ho & Hok').
  destruct (seen_insert _ (sw_seen s)) as [fresh seen]. cbn in Hf, Ho, Hok'.
  destruct fresh; [|done]. cbn [negb] in H1. injection H1 as <- _ <-. cbn [with_conn sw_seen sw_conns sw_peers sw_committer].
  symmetry in Hf. apply bool_decide_eq_true in Hf. rewrite decide_False in Ho by done.
  assert (gossip_id sha256 (rt_inner r0) ∈ ss_order seen) as Hse.
  { rewrite Ho. unfold window. set (d := (_ - _)%nat).
    assert (d <= length (ss_order (sw_seen s)))%nat by (unfold d; rewrite length_app; unfold SEEN_CAP; cbn; lia).
    rewrite drop_app_le by done. set_solver. }
  unfold seen_insert. rewrite decide_True; [done|]. rewrite (so_set _ Hok'). by apply elem_of_list_to_set.
Qed.

Lemma mailbox_fetch_is_constant : frame_encode FMailboxFetch = [byte_of 17].
Proof. done. Qed.

(** The peer list is pruned by fingerprint: when the old connection of a
    participant that has reconnected goes down, the new one is no longer a
    peer either, although its own loop still runs. *)
Lemma hang_up_evicts_reconnected s i j c c' :
  sw_conns s !! i = Some c -> sw_conns s !! j = Some c' -> i <> j -> c_fp c' = c_fp c ->
  j ∉ sw_peers (hang_up i s) /\ exists c2, sw_conns (hang_up i s) !! j = Some c2 /\ c_live c2 = c_live c'.
Proof.
  intros Hi Hj Hij Hfp. unfold hang_up. rewrite Hi. set (s1 := with_conn i _ s).
  assert (sw_conns s1 !! j = Some c') as Hj1 by (unfold s1; cbn; by rewrite list_lookup_alter_ne). split.
  - cbn. intros [Hf _]%list_elem_of_filter. unfold fp_is in Hf. rewrite Hj1, Hfp in Hf.
    by rewrite bool_decide_eq_true in Hf.
  - exists c'. by rewrite <- Hj1.
Qed.

(** ** An undisturbed turn *)

Fixpoint send_all (cs : nat -> coins) (fwd : Routed) (ts : list nat) (sw : Switch) : list revent * Switch :=
  match ts with
  | [] => ([], sw)
  | j :: ts =>
      let (ok, sw) := forward_send cs fwd j sw in
      let (evs, sw) := send_all cs fwd ts sw in
      ((if ok then [ESent j fwd] else []) ++ evs, sw)
  end.

(** One turn of the loop of connection [i] with no other task in between. *)
Definition forward_turn (cs : nat -> coins) (i : nat) (frame : bytes) (sw : Switch) : list revent * Switch :=
  match sw_conns sw !! i with
  | None => ([], sw)
  | Some c =>
      match forward_recv i frame sw with
      | (None, sw) => ([], sw)
      | (Some (said, ts), sw) =>
          let (evs, sw) := send_all cs (stamp (c_fp c) said) ts sw in (EHeard i said :: evs, sw)
      end
  end.

Lemma send_all_reach cs fwd ts i tr sw :
  rreach tr (mkRelay sw {[i := (fwd, ts)]}) ->
  rreach (tr ++ (send_all cs fwd ts sw).1) (mkRelay (send_all cs fwd ts sw).2 ∅).
Proof.
  revert tr sw. induction ts as [|j ts IH]; intros tr sw Hr; cbn [send_all].
  - replace (∅ : gmap nat (Routed * list nat)) with (delete i ({[i := (fwd, [])]} : gmap nat (Routed * list nat))).
    2:{ by rewrite delete_singleton_eq. }
    eapply RNext; [done|]. eapply RDone. by rewrite lookup_singleton_eq.
  - destruct (forward_send cs fwd j sw) as [ok sw1] eqn:E. specialize (IH (tr ++ if ok then [ESent j fwd] else []) sw1).
    destruct (send_all cs fwd ts sw1) as [evs sw2]. cbn in *. rewrite (assoc (++)). apply IH.
    eapply RNext; [done|]. pose proof (RSend sw {[i := (fwd, j :: ts)]} i fwd j ts cs ok sw1) as Hst.
    rewrite insert_singleton_eq in Hst. apply Hst; [by rewrite lookup_singleton_eq|done].
Qed.

Lemma forward_turn_reach cs i frame tr sw :
  rreach tr (mkRelay sw ∅) -> (c_live <$> sw_conns sw !! i) = Some true ->
  rreach (tr ++ (forward_turn cs i frame sw).1) (mkRelay (forward_turn cs i frame sw).2 ∅).
Proof.
  intros Hr (c & Hc & Hl)%fmap_Some. unfold forward_turn. rewrite Hc.
  destruct (forward_recv i frame sw) as [[[said ts]|] sw1] eqn:E.
  - assert (rreach (tr ++ [EHeard i said]) (mkRelay sw1 {[i := (stamp (c_fp c) said, ts)]})) as Hr1.
    { eapply RNext; [done|]. rewrite <- insert_empty. by eapply (RFrame _ _ i c frame). }
    apply (send_all_reach cs) in Hr1. destruct (send_all cs _ ts sw1) as [evs sw2]. cbn in *.
    by rewrite <- (assoc (++)) in Hr1.
  - cbn. eapply RNext; [done|]. by eapply (RDrop _ _ i c frame).
Qed.

End Relay.

(** ** Codec *)

Definition route_enc (to : Route) : bytes :=
  match to with
  | Broadcast => [byte_of 0] | ToPeer fp => [byte_of 1] ++ enc_bytes fp | Committer => [byte_of 2]
  end.

Lemma routed_encode_norm r : routed_encode r = route_enc (rt_to r) ++ enc_bytes (rt_from r) ++ enc_bytes (rt_inner r).
Proof. unfold routed_encode, route_enc. destruct (rt_to r); by wire_norm. Qed.

(** A forwarded envelope is read back as it was stamped. *)
Lemma routed_roundtrip r :
  length (rt_from r) = 48%nat -> zlen (rt_inner r) <= MAX_FRAME ->
  (forall fp, rt_to r = ToPeer fp -> length fp = 48%nat) ->
  routed_decode (routed_encode r) = Some r.
Proof.
  intros Hf Hi Hp. unfold routed_decode. apply to_option_Some. rewrite routed_encode_norm.
  assert (zlen (route_enc (rt_to r)) <= 60) as Hr.
  { destruct (rt_to r) as [|fp|]; [done| |done]. cbn [route_enc]. rewrite zlen_app, zlen_enc_bytes. unfold zlen.
    pose proof (Hp fp eq_refl). cbn. lia. }
  apply run_decodes.
  { rewrite !zlen_app, !zlen_enc_bytes. unfold zlen at 2. rewrite Hf. unfold MAX_FRAME, usize_max in *. lia. }
  assert (decodes (get* from := fixed 48 in get* inner := q get_vec in gret (mkRouted (rt_to r) from inner))
    (enc_bytes (rt_from r) ++ enc_bytes (rt_inner r)) r) as Hd.
  { eapply decodes_bind; [apply decodes_fixed; [done|lia]|]. destruct r as [to from inner].
    by apply (decodes_ret_bind _ (mkRouted to from)), decodes_q, decodes_bytes. }
  destruct (rt_to r) as [|fp|]; cbn [route_enc]; rewrite <- ?(assoc (++)); (apply decodes_u8_tag; [lia|]).
  - rewrite <- (app_nil_l (enc_bytes _ ++ _)). by eapply decodes_bind; [apply decodes_ret|].
  - eapply decodes_bind; [|exact Hd]. apply (decodes_ret_bind _ ToPeer). apply decodes_fixed; [by apply Hp|lia].
  - rewrite <- (app_nil_l (enc_bytes _ ++ _)). by eapply decodes_bind; [apply decodes_ret|].
Qed.

(** ** Witnesses *)

Section RelayWitnesses.

Definition rw_sha (b : bytes) : bytes := toy_kdf b [] [] 32.
Definition rw_fp (b : bytes) : bytes := toy_kdf b [] [] 48.
Definition rw_vk (name : string) : IdentityPublic := mkIdentityPublic (bstr name).

(** Two participants on PQ-Noise sessions; both speak, the second hears. *)
Definition rw_frame (n : nat) (text : string) : bytes :=
  default [] (to_option (nz_encrypt (w_cs n)
    (routed_encode (mkRouted Broadcast (replicate 48 (byte_of 0)) (bstr text))) (noise_initiator w_root w_pre.2)).1).
Definition rw_joined : Switch :=
  let hs name := mkHandshakeResult (rw_vk name) (NoiseHandle (noise_responder w_root w_pre.1)) in
  accept_peer rw_fp (hs "bob") (accept_peer rw_fp (hs "alice") switch_new).
Definition rw_primed : list revent * Switch := forward_turn rw_sha (w_cs 7) 1 (rw_frame 3 "hello") rw_joined.
Definition rw_said : list revent * Switch := forward_turn rw_sha (w_cs 8) 0 (rw_frame 4 "hi bob") rw_primed.2.

Lemma rw_reach_joined : rreach rw_sha rw_fp [] (mkRelay rw_joined ∅).
Proof.
  unfold rw_joined. cbv zeta.
  apply (RNext _ _ [] (mkRelay (accept_peer rw_fp (mkHandshakeResult (rw_vk "alice")
    (NoiseHandle (noise_responder w_root w_pre.1))) switch_new) ∅) []); [|apply RAccept].
  apply (RNext _ _ [] (mkRelay switch_new ∅) []); [apply RStart|apply RAccept].
Qed.

Lemma rw_reach : rreach rw_sha rw_fp (rw_primed.1 ++ rw_said.1) (mkRelay rw_said.2 ∅).
Proof.
  pose proof (forward_turn_reach rw_sha rw_fp (w_cs 7) 1 (rw_frame 3 "hello") [] rw_joined rw_reach_joined) as H1.
  fold rw_primed in H1. rewrite app_nil_l in H1.
  pose proof (forward_turn_reach rw_sha rw_fp (w_cs 8) 0 (rw_frame 4 "hi bob") rw_primed.1 rw_primed.2) as H2.
  fold rw_said in H2. apply H2; [apply H1|]; vm_compute; reflexivity.
Qed.

(** What the relay sent to the second participant. *)
Definition rw_fwd : Routed := mkRouted Broadcast (rw_fp (bstr "alice")) (bstr "hi bob").

Lemma rw_sent : last (rw_primed.1 ++ rw_said.1) = Some (ESent 1 rw_fwd).
Proof. by vm_compute. Qed.

Lemma relay_authentic_witness :
  let conns := sw_conns rw_said.2 in
  exists i said ci cj, EHeard i said ∈ rw_primed.1 ++ rw_said.1 /\ conns !! i = Some ci /\ conns !! 1%nat = Some cj /\
    rw_fwd = mkRouted (rt_to said) (c_fp ci) (rt_inner said) /\
    match rt_to said with
    | Broadcast => c_fp cj <> c_fp ci
    | ToPeer dst => c_fp cj = dst
    | Committer => c_fp cj <> c_fp ci /\ c_fp <$> conns !! 0%nat = Some (c_fp cj)
    end.
Proof.
  apply (relay_authentic rw_sha rw_fp (rw_primed.1 ++ rw_said.1) (mkRelay rw_said.2 ∅) 1 rw_fwd).
  - exact rw_reach.
  - apply last_Some_elem_of. exact rw_sent.
Defined.

End RelayWitnesses.
