(* ===== verification/B32.v ===== *)
(** * Base32 text (crates/core/src/b32.rs)

    The text form of invites: RFC 4648 base32, lowercase, no padding.  Both loops
    run over a 32-bit shift buffer of which only the low [bits] bits are live;
    [bits n x] reads a buffer as a bit string, and the proofs follow that string
    through the loops. *)

From S2P Require Import Prelude.

Definition ALPHABET : bytes := bstr "abcdefghijklmnopqrstuvwxyz234567".

(** [ALPHABET[idx]]; the index is masked to five bits. *)
Definition symbol (idx : Z) : Byte.byte := default (byte_of 0) (ALPHABET !! Z.to_nat idx).

(** [while bits >= 5]; every turn takes five bits away. *)
Fixpoint emit (fuel : nat) (buffer nbits : Z) (out : bytes) : Z * bytes :=
  match fuel with
  | O => (nbits, out)
  | S fuel =>
      if decide (nbits >= 5) then
        let nbits := nbits - 5 in
        emit fuel buffer nbits (out ++ [symbol (Z.land (Z.shiftr buffer nbits) 31)])
      else (nbits, out)
  end.

Definition b32_push (s : Z * Z * bytes) (b : Byte.byte) : Z * Z * bytes :=
  let '(buffer, nbits, out) := s in
  let buffer := Z.lor (u32_wrap (Z.shiftl buffer 8)) (bval b) in
  let nbits := nbits + 8 in
  let '(nbits, out) := emit (Z.to_nat nbits) buffer nbits out in
  (buffer, nbits, out).

Definition b32_encode (data : bytes) : bytes :=
  let '(buffer, nbits, out) := foldl b32_push (0, 0, []) data in
  if decide (nbits > 0) then out ++ [symbol (Z.land (Z.shiftl buffer (5 - nbits)) 31)] else out.

(** The value of a character: letters of either case and the digits 2 to 7. *)
Definition b32_value (c : Byte.byte) : option Z :=
  let c := bval c in
  if decide (97 <= c <= 122) then Some (c - 97)
  else if decide (65 <= c <= 90) then Some (c - 65)
  else if decide (50 <= c <= 55) then Some (c - 50 + 26)
  else None.

(** One turn of the loop over the characters. *)
Definition b32_feed (s : Z * Z * bytes) (v : Z) : Z * Z * bytes :=
  let '(buffer, nbits, out) := s in
  let buffer := Z.lor (u32_wrap (Z.shiftl buffer 5)) v in
  let nbits := nbits + 5 in
  if decide (nbits >= 8) then (buffer, nbits - 8, out ++ [byte_of (Z.shiftr buffer (nbits - 8))])
  else (buffer, nbits, out).

Fixpoint b32_loop (s : Z * Z * bytes) (text : bytes) : option bytes :=
  match text with
  | [] => Some s.2
  | c :: text => match b32_value c with Some v => b32_loop (b32_feed s v) text | None => None end
  end.

Definition b32_decode (text : bytes) : option bytes := b32_loop (0, 0, []) text.

(** ** Bit strings *)

(** The low [n] bits of [x], the highest first. *)
Fixpoint bits (n : nat) (x : Z) : list bool :=
  match n with O => [] | S n => Z.testbit x (Z.of_nat n) :: bits n x end.

Lemma length_bits n x : length (bits n x) = n.
Proof. induction n; cbn; congruence. Qed.

Lemma bits_ext n x y : (forall i, 0 <= i < Z.of_nat n -> Z.testbit x i = Z.testbit y i) -> bits n x = bits n y.
Proof. induction n as [|n IH]; intros H; [done|]. cbn. f_equal; [apply H; lia|apply IH; intros; apply H; lia]. Qed.

Lemma bits_app m n x : bits (m + n) x = bits m (Z.shiftr x (Z.of_nat n)) ++ bits n x.
Proof.
  induction m as [|m IH]; [done|]. cbn [bits Nat.add app]. rewrite IH. f_equal. rewrite Z.shiftr_spec by lia. f_equal. lia.
Qed.

Lemma bits_inj n x y : 0 <= x < 2 ^ Z.of_nat n -> 0 <= y < 2 ^ Z.of_nat n -> bits n x = bits n y -> x = y.
Proof.
  intros Hx Hy E. rewrite <- (Z.mod_small x (2 ^ Z.of_nat n)), <- (Z.mod_small y (2 ^ Z.of_nat n)) by done.
  apply Z.bits_inj_iff'. intros i Hi. destruct (decide (i < Z.of_nat n)) as [Hlt|Hge];
    [|by rewrite !Z.mod_pow2_bits_high by lia].
  rewrite !Z.mod_pow2_bits_low by lia. clear Hx Hy. revert i Hi Hlt. induction n as [|n IH]; [lia|].
  cbn [bits] in E. injection E as E1 E2. intros i Hi Hlt. destruct (decide (i = Z.of_nat n)) as [->|]; [done|]. apply IH; [done|lia|lia].
Qed.

(** Shift [k] bits into a 32-bit buffer. *)
Lemma bits_shift_in n k x v :
  (n + k <= 32)%nat -> 0 <= v < 2 ^ Z.of_nat k ->
  bits (n + k) (Z.lor (u32_wrap (Z.shiftl x (Z.of_nat k))) v) = bits n x ++ bits k v.
Proof.
  intros Hn Hv. rewrite bits_app.
  assert (forall i, Z.of_nat k <= i -> Z.testbit v i = false) as Hhi.
  { intros i Hi. rewrite <- (Z.mod_small v (2 ^ Z.of_nat k)) by done. by apply Z.mod_pow2_bits_high; lia. }
  f_equal; apply bits_ext; intros i Hi; rewrite ?Z.shiftr_spec, Z.lor_spec by lia; unfold u32_wrap;
    rewrite Z.mod_pow2_bits_low by lia.
  - rewrite Z.shiftl_spec by lia. rewrite (Hhi (i + _)) by lia. rewrite orb_false_r. f_equal. lia.
  - by rewrite Z.shiftl_spec_low by lia.
Qed.

Lemma bits_low k m x : (k <= m)%nat -> bits k (Z.shiftl x (Z.of_nat m)) = replicate k false.
Proof.
  intros Hk. induction k as [|k IH]; [done|]. cbn. rewrite Z.shiftl_spec_low by lia. by rewrite IH by lia.
Qed.

Lemma bits_land n x : bits n (Z.land x (Z.ones (Z.of_nat n))) = bits n x.
Proof.
  apply bits_ext. intros i Hi. rewrite Z.land_spec, Z.testbit_ones_nonneg by lia.
  rewrite (proj2 (Z.ltb_lt i _)) by lia. apply andb_true_r.
Qed.

(** ** Characters *)

Definition byte_bits (b : bytes) : list bool := mjoin ((fun c => bits 8 (bval c)) <$> b).
Definition value_bits (vs : list Z) : list bool := mjoin (bits 5 <$> vs).

Definition five (v : Z) : Prop := 0 <= v < 32.

Lemma symbol_value v : five v -> b32_value (symbol v) = Some v.
Proof.
  unfold five. intros Hv.
  assert (forallb (fun v => bool_decide (b32_value (symbol v) = Some v)) (seqZ 0 32) = true) as Hall by (by vm_compute).
  rewrite forallb_forall in Hall. eapply bool_decide_eq_true_1, Hall, list_elem_of_In, elem_of_seqZ. lia.
Qed.

Lemma value_range c v : b32_value c = Some v -> five v.
Proof. unfold b32_value, five. repeat case_decide; intros [= <-]; lia. Qed.

Lemma mask_five x : five (Z.land x 31).
Proof. unfold five. change 31 with (Z.ones 5). rewrite Z.land_ones by lia. apply Z.mod_pos_bound. lia. Qed.

Lemma mask_bits x : bits 5 (Z.land x 31) = bits 5 x.
Proof. exact (bits_land 5 x). Qed.

(** ** The encoder *)

(** A state of either loop: [n] live bits, and the values written so far. *)
Lemma emit_bits fuel x n out vs :
  (n <= fuel)%nat -> b32_value <$> out = Some <$> vs -> Forall five vs ->
  exists n' out' vs', emit fuel x (Z.of_nat n) out = (Z.of_nat n', out') /\ (n' < 5)%nat /\
    b32_value <$> out' = Some <$> vs' /\ Forall five vs' /\
    value_bits vs' ++ bits n' x = value_bits vs ++ bits n x.
Proof.
  revert n out vs. induction fuel as [|fuel IH]; intros n out vs Hn Ho Hv; cbn [emit].
  { exists n, out, vs. split; [done|]. split; [lia|]. done. }
  case_decide as Hd; [|exists n, out, vs; split; [done|]; split; [lia|done]].
  replace (Z.of_nat n - 5) with (Z.of_nat (n - 5)) by lia.
  set (v := Z.land (Z.shiftr x (Z.of_nat (n - 5))) 31).
  destruct (IH (n - 5)%nat (out ++ [symbol v]) (vs ++ [v])) as (n' & out' & vs' & E & Hn' & Ho' & Hv' & Hb); [lia|..].
  - rewrite !fmap_app, Ho. cbn. by rewrite symbol_value by apply mask_five.
  - apply Forall_app. split; [done|]. constructor; [apply mask_five|constructor].
  - exists n', out', vs'. split; [done|]. split; [done|]. split; [done|]. split; [done|]. rewrite Hb.
    unfold value_bits. rewrite fmap_app, join_app. cbn [fmap list_fmap mjoin list_join]. rewrite app_nil_r.
    unfold v. rewrite mask_bits, <- (assoc (++)), <- bits_app. f_equal. f_equal. lia.
Qed.

Lemma push_bits data x n out vs :
  (n < 5)%nat -> b32_value <$> out = Some <$> vs -> Forall five vs ->
  exists x' n' out' vs', foldl b32_push (x, Z.of_nat n, out) data = (x', Z.of_nat n', out') /\ (n' < 5)%nat /\
    b32_value <$> out' = Some <$> vs' /\ Forall five vs' /\
    value_bits vs' ++ bits n' x' = value_bits vs ++ bits n x ++ byte_bits data.
Proof.
  revert x n out vs. induction data as [|b data IH]; intros x n out vs Hn Ho Hv; cbn [foldl].
  { exists x, n, out, vs. unfold byte_bits. cbn. rewrite app_nil_r. done. }
  cbn [b32_push]. set (x1 := Z.lor (u32_wrap (Z.shiftl x 8)) (bval b)).
  replace (Z.of_nat n + 8) with (Z.of_nat (n + 8)) by lia. rewrite Nat2Z.id.
  destruct (emit_bits (n + 8) x1 (n + 8) out vs) as (n1 & out1 & vs1 & -> & Hn1 & Ho1 & Hv1 & Hb1); [lia|done|done|].
  destruct (IH x1 n1 out1 vs1) as (x2 & n2 & out2 & vs2 & E & Hn2 & Ho2 & Hv2 & Hb2); [done..|].
  exists x2, n2, out2, vs2. split; [done|]. split; [done|]. split; [done|]. split; [done|].
  rewrite Hb2, (assoc (++)), Hb1. unfold x1, byte_bits. rewrite (bits_shift_in n 8 x) by (try lia; apply bval_range).
  cbn [fmap list_fmap mjoin list_join]. by rewrite <- !(assoc (++)).
Qed.

(** The characters of an encoding carry the bits of the data, then fewer than
    five zeros. *)
Lemma encode_bits data :
  exists vs k, b32_value <$> b32_encode data = Some <$> vs /\ Forall five vs /\ (k < 5)%nat /\
    value_bits vs = byte_bits data ++ replicate k false.
Proof.
  unfold b32_encode. destruct (push_bits data 0 0 [] []) as (x & n & out & vs & E & Hn & Ho & Hv & Hb); [lia|done|constructor|].
  change (Z.of_nat 0) with 0 in E. rewrite E. cbn in Hb. case_decide as Hd.
  - set (v := Z.land (Z.shiftl x (5 - Z.of_nat n)) 31). exists (vs ++ [v]), (5 - n)%nat.
    rewrite !fmap_app, Ho. cbn. rewrite symbol_value by apply mask_five. split; [done|].
    split; [apply Forall_app; split; [done|]; constructor; [apply mask_five|constructor]|]. split; [lia|].
    rewrite <- Hb, <- (assoc (++)). unfold value_bits. rewrite fmap_app, join_app.
    f_equal. cbn [fmap list_fmap mjoin list_join]. rewrite app_nil_r. unfold v. rewrite mask_bits.
    replace 5%nat with (n + (5 - n))%nat at 1 by lia. rewrite bits_app. f_equal.
    + apply bits_ext. intros i Hi. rewrite Z.shiftr_spec, Z.shiftl_spec by lia. f_equal. lia.
    + replace (5 - Z.of_nat n) with (Z.of_nat (5 - n)) by lia. by apply bits_low.
  - assert (n = 0%nat) as -> by lia. exists vs, 0%nat. cbn in *. rewrite !app_nil_r in *. done.
Qed.

(** ** The decoder *)

Lemma loop_bits vs text x n out :
  b32_value <$> text = Some <$> vs -> Forall five vs -> (n < 8)%nat ->
  exists x' n' out', b32_loop (x, Z.of_nat n, out) text = Some out' /\ (n' < 8)%nat /\
    byte_bits out' ++ bits n' x' = byte_bits out ++ bits n x ++ value_bits vs.
Proof.
  revert vs x n out. induction text as [|c text IH]; intros [|v vs] x n out Ht Hv Hn; try done.
  { exists x, n, out. unfold value_bits. cbn. rewrite app_nil_r. done. }
  cbn in Ht. injection Ht as Hc Ht. apply Forall_cons in Hv as [H5 Hv]. cbn [b32_loop]. rewrite Hc. cbn [b32_feed].
  set (x1 := Z.lor (u32_wrap (Z.shiftl x 5)) v).
  assert (bits (n + 5) x1 = bits n x ++ bits 5 v) as Hx by (apply (bits_shift_in n 5); [lia|done]).
  replace (Z.of_nat n + 5) with (Z.of_nat (n + 5)) by lia.
  assert (value_bits (v :: vs) = bits 5 v ++ value_bits vs) as -> by done. case_decide as Hd.
  - replace (Z.of_nat (n + 5) - 8) with (Z.of_nat (n - 3)) by lia.
    destruct (IH vs x1 (n - 3)%nat (out ++ [byte_of (Z.shiftr x1 (Z.of_nat (n - 3)))])) as (x2 & n2 & out2 & E & Hn2 & Hb); [done|done|lia|].
    exists x2, n2, out2. split; [done|]. split; [done|]. rewrite Hb. unfold byte_bits. rewrite fmap_app, join_app.
    rewrite <- !(assoc (++)). f_equal. cbn [fmap list_fmap mjoin list_join]. rewrite app_nil_r, bval_byte_of.
    rewrite (assoc (++)), (assoc (++) (bits n x)), <- Hx. f_equal. replace (n + 5)%nat with (8 + (n - 3))%nat by lia. rewrite bits_app. f_equal.
    apply bits_ext. intros i Hi. change 256 with (2 ^ 8). by rewrite Z.mod_pow2_bits_low by lia.
  - destruct (IH vs x1 (n + 5)%nat out) as (x2 & n2 & out2 & E & Hn2 & Hb); [done|done|lia|].
    exists x2, n2, out2. split; [done|]. split; [done|]. rewrite Hb, Hx, <- !(assoc (++)). done.
Qed.

Lemma length_byte_bits b : length (byte_bits b) = (8 * length b)%nat.
Proof.
  induction b as [|c b IH]; [done|]. change (byte_bits (c :: b)) with (bits 8 (bval c) ++ byte_bits b).
  rewrite length_app, length_bits, IH. cbn. lia.
Qed.

Lemma byte_bits_inj a b : byte_bits a = byte_bits b -> a = b.
Proof.
  revert b. induction a as [|x a IH]; intros [|y b] E; try done; [apply (f_equal length) in E; by rewrite !length_byte_bits in E..|].
  change (bits 8 (bval x) ++ byte_bits a = bits 8 (bval y) ++ byte_bits b) in E. apply app_inj_1 in E as [E1 E2]; [|by rewrite !length_bits].
  apply bits_inj in E1; [|apply bval_range..]. apply bval_inj in E1 as ->. f_equal. by apply IH.
Qed.

(** Decoding inverts encoding; the zeros that fill the last character are
    dropped. *)
Lemma b32_roundtrip data : b32_decode (b32_encode data) = Some data.
Proof.
  destruct (encode_bits data) as (vs & k & Ht & Hv & Hk & Hb).
  destruct (loop_bits vs (b32_encode data) 0 0 [] Ht Hv ltac:(lia)) as (x & n & out & E & Hn & Ho).
  unfold b32_decode. change (Z.of_nat 0) with 0 in E. rewrite E. f_equal. cbn in Ho. rewrite Hb in Ho.
  assert (length out = length data /\ n = k) as [Hl ->].
  { apply (f_equal length) in Ho. rewrite !length_app, !length_byte_bits, length_bits, length_replicate in Ho. lia. }
  apply byte_bits_inj. apply app_inj_1 in Ho as [Ho _]; [done|]. rewrite !length_byte_bits. lia.
Qed.

(** Case does not matter. *)
Definition lower (c : Byte.byte) : Byte.byte := if decide (65 <= bval c <= 90) then byte_of (bval c + 32) else c.

Lemma value_lower c : b32_value (lower c) = b32_value c.
Proof.
  unfold lower. case_decide as Hd; [|done]. unfold b32_value. rewrite bval_byte_of, Z.mod_small by lia.
  repeat case_decide; try lia; done || (f_equal; lia).
Qed.

Lemma decode_lower text : b32_decode (lower <$> text) = b32_decode text.
Proof.
  unfold b32_decode. generalize (0, 0, @nil Byte.byte) as s. induction text as [|c text IH]; intros s; [done|].
  cbn [fmap list_fmap b32_loop]. rewrite value_lower. destruct (b32_value c); [apply IH|done].
Qed.

(** What holds of every symbol holds of every character written. *)
Lemma encode_all (Q : Byte.byte -> Prop) data : (forall v, five v -> Q (symbol v)) -> Forall Q (b32_encode data).
Proof.
  intros HQ.
  assert (forall fuel x n out, Forall Q out -> Forall Q (emit fuel x n out).2) as He.
  { induction fuel as [|fuel IH]; intros x n out Ho; cbn [emit]; [done|]. case_decide; [|done]. apply IH, Forall_app.
    split; [done|]. constructor; [apply HQ, mask_five|constructor]. }
  assert (forall s, Forall Q s.2 -> Forall Q (foldl b32_push s data).2) as Hf.
  { induction data as [|b data IH]; intros [[x n] out] Ho; cbn [foldl]; [done|]. apply IH. cbn [b32_push].
    set (x1 := Z.lor _ _). specialize (He (Z.to_nat (n + 8)) x1 (n + 8) out Ho). by destruct (emit _ _ _ _). }
  unfold b32_encode. specialize (Hf (0, 0, []) (Forall_nil_2 _)). destruct (foldl _ _ _) as [[x n] out]. cbn in Hf.
  case_decide; [|done]. apply Forall_app. split; [done|]. constructor; [apply HQ, mask_five|constructor].
Qed.

Lemma encode_chars data : Forall (fun c => is_Some (b32_value c)) (b32_encode data).
Proof. apply encode_all. intros v Hv. by rewrite symbol_value. Qed.

Lemma encode_nonempty data : data <> [] -> b32_encode data <> [].
Proof.
  intros Hd E. destruct (encode_bits data) as (vs & k & Ht & _ & _ & Hb). rewrite E in Ht. destruct vs; [|done].
  destruct data; [done|]. by apply (f_equal length) in Hb.
Qed.

(** Every character adds at most one byte. *)
Lemma decode_length text out : b32_decode text = Some out -> (length out <= length text)%nat.
Proof.
  unfold b32_decode. assert (forall s, b32_loop s text = Some out -> (length out <= length s.2 + length text)%nat) as H.
  { induction text as [|c text IH]; intros [[x n] o]; cbn [b32_loop]; [intros [= <-]; cbn; lia|].
    destruct (b32_value c) as [v|]; [|done]. intros H%IH. revert H. unfold b32_feed. case_decide; cbn [snd length];
      rewrite ?length_app; cbn [length]; lia. }
  intros E%H. cbn in E. lia.
Qed.

Lemma encode_lower data : lower <$> b32_encode data = b32_encode data.
Proof.
  assert (Forall (fun c => lower c = c) (b32_encode data)) as H.
  { apply encode_all. intros v Hv. unfold five in Hv.
    assert (forallb (fun v => bool_decide (lower (symbol v) = symbol v)) (seqZ 0 32) = true) as Hall by (by vm_compute).
    rewrite forallb_forall in Hall. eapply bool_decide_eq_true_1, Hall, list_elem_of_In, elem_of_seqZ. lia. }
  induction H as [|c l Hc _ IH]; [done|]. cbn. by rewrite Hc, IH.
Qed.
