(* ===== verification/Codec.v ===== *)
(** * Verified wire formats

    The account, contact, presence, linkage and vouch formats are all built the
    same way: read the fields in order, rebuild the value, insist that nothing
    is left.  [Codec g e ok] says that the reader [g] and the writer [e] are
    inverse to each other on the values that satisfy [ok]: [g] consumes exactly
    [e x] and returns [x], and whatever [g] accepts starts with the encoding of a
    value in [ok].  The combinators below follow the shapes the decoders are
    written in, so that a format's proof mirrors its code. *)

From S2P Require Import Prelude Wire Crypto Marking Frames.

Class Codec {E A} (g : Get E A) (e : A -> bytes) (ok : A -> Prop) : Prop := {
  codec_decodes : forall x, ok x -> decodes g (e x) x;
  codec_inverts : inverts g e ok }.

(** ** Readers shared by the formats *)

(** [r.finish()?] at the end of a decoder. *)
Definition strict {E A} `{FromWire E} (g : Get E A) : Get E A :=
  get* x := g in get* _ := q finish in gret x.

(** A length-prefixed field that must have exactly [n] bytes, or [err]. *)
Definition sized {E} `{FromWire E} (n : nat) (err : E) : Get E bytes :=
  get* b := q get_bytes in if decide (length b <> n) then gfail err else gret b.

(** [let mut cr = Reader::new(r.get_bytes()?); let x = g(&mut cr)?; cr.finish()?] *)
Definition nested {E A} `{FromWire E} (g : Get E A) : Get E A :=
  get* b := q get_bytes in glift (run_get (strict g) b).

(** [String::from_utf8(r.get_vec()?)] with its error *)
Definition text {E} `{FromWire E} (err : E) : Get E bytes :=
  get* b := q get_vec in glift (from_utf8 b err).

(** [T::decode(r.get_bytes()?)?]: a value with its own decoder, in a field *)
Definition carried {E F A} `{FromWire E} (dec : bytes -> result F A) (f : F -> E) : Get E A :=
  get* b := q get_bytes in glift (map_err f (dec b)).

(** A counted list: [n = r.get_u32()?; if n > cap { return Err(err) }]. *)
Definition counted {E A} `{FromWire E} (cap : Z) (err : E) (g : Get E A) : Get E (list A) :=
  get* n := q get_u32 in if decide (n > cap) then gfail err else get_times (Z.to_nat n) g.

(** A [u64] over the [u32] wire, high half first. *)
Definition u64_halves {E} (get_hi get_lo : Get E Z) : Get E Z :=
  get* hi := get_hi in get* lo := get_lo in gret (Z.lor (Z.shiftl hi 32) lo).

Definition put_u64_halves (v : Z) (w : Writer) : Writer :=
  w |> put_u32 (u32_wrap (Z.shiftr v 32)) |> put_u32 (u32_wrap v).

(** ** Field codecs *)

Section Fields.
Context {E : Type} `{FW : FromWire E}.

Definition is_u8 (z : Z) : Prop := 0 <= z < 256.
Definition short (b : bytes) : Prop := zlen b <= MAX_FRAME.

#[global] Instance is_u8_dec z : Decision (is_u8 z).
Proof. unfold is_u8. apply _. Defined.
#[global] Instance short_dec b : Decision (short b).
Proof. unfold short. apply _. Defined.

#[global] Instance codec_u8 : Codec (q (E:=E) get_u8) (fun v => [byte_of v]) is_u8.
Proof.
  split; [intros; by apply decodes_q, decodes_u8|].
  intros r x r' Hw H%inverts_q. by apply inverts_u8.
Qed.

#[global] Instance codec_u32 : Codec (q (E:=E) get_u32) (be_bytes 4) is_u32.
Proof.
  split; [intros; by apply decodes_q, decodes_u32|].
  intros r x r' Hw H%inverts_q. by apply inverts_u32.
Qed.

#[global] Instance codec_bytes : Codec (q (E:=E) get_bytes) enc_bytes short.
Proof.
  split; [intros; by apply decodes_q, decodes_bytes|].
  intros r x r' Hw H%inverts_q. by apply inverts_bytes.
Qed.

#[global] Instance codec_vec : Codec (q (E:=E) get_vec) enc_bytes short.
Proof. apply codec_bytes. Qed.

(** ** Combinators *)

Lemma codec_iff {A} (g : Get E A) e e' (ok ok' : A -> Prop) :
  Codec g e ok -> (forall x, ok x <-> ok' x) -> (forall x, ok x -> e x = e' x) -> Codec g e' ok'.
Proof.
  intros [Hd Hi] Hok He. split.
  - intros x Hx%Hok. rewrite <- He by done. auto.
  - intros r x r' Hw H. destruct (Hi r x r' Hw H) as (? & ? & Hx). rewrite <- He by done. by rewrite <- Hok.
Qed.

Lemma codec_ret {A} (x : A) (eqs : A -> Prop) :
  (forall y, eqs y <-> y = x) -> Codec (gret (E:=E) x) (fun _ => []) (fun y => True /\ eqs y).
Proof.
  intros Hok. split.
  - intros y [_ ->%Hok]. apply decodes_ret.
  - intros r y r' Hw [= <- <-]. split; [done|]. split; [done|]. split; [done|]. by apply Hok.
Qed.

Lemma codec_fail {A} (err : E) (e : A -> bytes) (ok : A -> Prop) :
  (forall y, ~ ok y) -> Codec (gfail err) e ok.
Proof. intros Hok. split; [intros y Hy; by destruct (Hok y)|]. by intros r y r' Hw. Qed.

(** Read a field, then the rest: [p] recovers the field from the value, and
    [eqs] collects what the earlier fields were. *)
Lemma codec_bind {A B} (g : Get E A) (k : A -> Get E B) (p : B -> A) e1 e2 (ok1 : A -> Prop) (ok2 eqs : B -> Prop) :
  Codec g e1 ok1 -> (forall a, ok1 a -> Codec (k a) e2 (fun b => ok2 b /\ (eqs b /\ p b = a))) ->
  Codec (gbind g k) (fun b => e1 (p b) ++ e2 b) (fun b => (ok1 (p b) /\ ok2 b) /\ eqs b).
Proof.
  intros [Hd Hi] Hk. split.
  - intros b [[H1 H2] H3]. eapply decodes_bind; [by apply Hd|]. by apply Hk.
  - intros r b r' Hw H. unfold gbind in H. apply rbind_Ok in H as ([a r1] & H1 & H2).
    destruct (Hi _ _ _ Hw H1) as (Hw1 & E1 & Ha). destruct (Hk a Ha) as [_ Hi2].
    destruct (Hi2 _ _ _ Hw1 H2) as (Hw2 & E2 & Hb & Hq & <-). split; [done|].
    split; [by rewrite E1, E2, (assoc (++))|done].
Qed.

(** The same for a field whose form depends on the earlier ones. *)
Lemma codec_bind_dep {A B} (g : Get E A) (k : A -> Get E B) (p : B -> A) e ok (e1 e2 : B -> bytes) (ok1 ok2 eqs : B -> Prop) :
  Codec g e ok -> (forall b, eqs b -> e1 b = e (p b) /\ (ok1 b <-> ok (p b))) ->
  (forall a, ok a -> Codec (k a) e2 (fun b => ok2 b /\ (eqs b /\ p b = a))) ->
  Codec (gbind g k) (fun b => e1 b ++ e2 b) (fun b => (ok1 b /\ ok2 b) /\ eqs b).
Proof.
  intros Hg He Hk. eapply codec_iff; [eapply (codec_bind g k p e e2 ok ok2 eqs Hg Hk)| |].
  - intros b. split; (intros [[H1 H2] H3]; destruct (He b H3) as [_ Hq]; naive_solver).
  - intros b [_ H3]. cbn. by destruct (He b H3) as [-> _].
Qed.

(** A constant that must come first. *)
Lemma codec_const {B} (g0 : Get E unit) (e0 : bytes) (g : Get E B) e ok :
  Codec g0 (fun _ => e0) (fun _ => True) -> Codec g e ok -> Codec (get* _ := g0 in g) (fun b => e0 ++ e b) ok.
Proof.
  intros [Hd0 Hi0] [Hd Hi]. split.
  - intros b Hb. eapply decodes_bind; [by apply (Hd0 tt)|]. by apply Hd.
  - intros r b r' Hw H. unfold gbind in H. apply rbind_Ok in H as ([[] r1] & H1 & H2).
    destruct (Hi0 _ _ _ Hw H1) as (Hw1 & E1 & _). destruct (Hi _ _ _ Hw1 H2) as (Hw2 & E2 & Hb).
    split; [done|]. split; [by rewrite E1, E2, (assoc (++))|done].
Qed.

(** Read a payload and wrap it in a constructor. *)
Lemma codec_con {A B} (g : Get E A) (c : A -> B) e e' (ok : A -> Prop) (ok' : B -> Prop) :
  Codec g e ok -> (forall a, e' (c a) = e a) -> (forall b, ok' b <-> exists a, b = c a /\ ok a) ->
  Codec (get* a := g in gret (c a)) e' ok'.
Proof.
  intros [Hd Hi] He Hok. split.
  - intros b (a & -> & Ha)%Hok. rewrite He. by apply decodes_ret_bind, Hd.
  - intros r b r' Hw H. unfold gbind, gret in H. apply rbind_Ok in H as ([a r1] & H1 & [= <- <-]).
    destruct (Hi _ _ _ Hw H1) as (? & ? & ?). rewrite He, Hok. naive_solver.
Qed.

Lemma codec_con0 {B} (c : B) e' (ok' : B -> Prop) :
  e' c = [] -> (forall b, ok' b <-> b = c) -> Codec (gret (E:=E) c) e' ok'.
Proof.
  intros He Hok. split.
  - intros b ->%Hok. rewrite He. apply decodes_ret.
  - intros r b r' Hw [= <- <-]. rewrite He, Hok. done.
Qed.

Lemma codec_con2 {A1 A2 B} (g1 : Get E A1) (g2 : Get E A2) (c : A1 -> A2 -> B) e1 e2 e' ok1 ok2 (ok' : B -> Prop) :
  Codec g1 e1 ok1 -> Codec g2 e2 ok2 -> (forall a b, e' (c a b) = e1 a ++ e2 b) ->
  (forall x, ok' x <-> exists a b, x = c a b /\ ok1 a /\ ok2 b) ->
  Codec (get* a := g1 in get* b := g2 in gret (c a b)) e' ok'.
Proof.
  intros [Hd1 Hi1] [Hd2 Hi2] He Hok. split.
  - intros x (a & b & -> & Ha & Hb)%Hok. rewrite He. eapply decodes_bind; [by apply Hd1|].
    by apply (decodes_ret_bind _ (c a)), Hd2.
  - intros r x r' Hw H. unfold gbind, gret in H. apply rbind_Ok in H as ([a r1] & H1 & H).
    apply rbind_Ok in H as ([b r2] & H2 & [= <- <-]).
    destruct (Hi1 _ _ _ Hw H1) as (Hw1 & E1 & ?). destruct (Hi2 _ _ _ Hw1 H2) as (? & E2 & ?).
    split; [done|]. split; [by rewrite He, E1, E2, (assoc (++))|]. apply Hok. eauto.
Qed.

Lemma codec_con4 {A1 A2 A3 A4 B} (g1 : Get E A1) (g2 : Get E A2) (g3 : Get E A3) (g4 : Get E A4) (c : A1 -> A2 -> A3 -> A4 -> B)
    e1 e2 e3 e4 e' ok1 ok2 ok3 ok4 (ok' : B -> Prop) :
  Codec g1 e1 ok1 -> Codec g2 e2 ok2 -> Codec g3 e3 ok3 -> Codec g4 e4 ok4 ->
  (forall a b x y, e' (c a b x y) = e1 a ++ e2 b ++ e3 x ++ e4 y) ->
  (forall z, ok' z <-> exists a b x y, z = c a b x y /\ ok1 a /\ ok2 b /\ ok3 x /\ ok4 y) ->
  Codec (get* a := g1 in get* b := g2 in get* x := g3 in get* y := g4 in gret (c a b x y)) e' ok'.
Proof.
  intros [Hd1 Hi1] [Hd2 Hi2] [Hd3 Hi3] [Hd4 Hi4] He Hok. split.
  - intros z (a & b & x & y & -> & ? & ? & ? & ?)%Hok. rewrite He. eapply decodes_bind; [by apply Hd1|].
    eapply decodes_bind; [by apply Hd2|]. eapply decodes_bind; [by apply Hd3|]. by apply (decodes_ret_bind _ (c a b x)), Hd4.
  - intros r z r' Hw H. unfold gbind, gret in H. apply rbind_Ok in H as ([a r1] & H1 & H). apply rbind_Ok in H as ([b r2] & H2 & H).
    apply rbind_Ok in H as ([x r3] & H3 & H). apply rbind_Ok in H as ([y r4] & H4 & [= <- <-]).
    destruct (Hi1 _ _ _ Hw H1) as (Hw1 & E1 & ?). destruct (Hi2 _ _ _ Hw1 H2) as (Hw2 & E2 & ?).
    destruct (Hi3 _ _ _ Hw2 H3) as (Hw3 & E3 & ?). destruct (Hi4 _ _ _ Hw3 H4) as (Hw4 & E4 & ?).
    split; [done|]. split; [by rewrite He, E1, E2, E3, E4, <- !(assoc (++))|]. apply Hok. eauto 10.
Qed.

Lemma codec_assoc {A B C} (g : Get E A) (h : A -> Get E B) (k : B -> Get E C) e ok :
  Codec (gbind (gbind g h) k) e ok -> Codec (gbind g (fun a => gbind (h a) k)) e ok.
Proof.
  assert (forall r, gbind (gbind g h) k r = gbind g (fun a => gbind (h a) k) r) as Hr.
  { intros r. unfold gbind. by destruct (g r) as [[a r1]|]. }
  intros [Hd Hi]. split.
  - intros x Hx r tl Hw Ht. rewrite <- Hr. by apply Hd.
  - intros r x r' Hw H. rewrite <- Hr in H. by apply Hi.
Qed.

(** A tag byte that selects the rest: [tag] recovers it from the value. *)
Lemma codec_tagged_by {B} (g : Get E Z) (tag : B -> Z) (k : Z -> Get E B) e2 (ok2 : B -> Prop) :
  Codec g (fun t => [byte_of t]) is_u8 -> (forall b, ok2 b -> is_u8 (tag b)) ->
  (forall t, Codec (k t) e2 (fun b => ok2 b /\ tag b = t)) ->
  Codec (gbind g k) (fun b => [byte_of (tag b)] ++ e2 b) ok2.
Proof.
  intros Hg Ht Hk. eapply (codec_iff _ _ _ (fun b => (is_u8 (tag b) /\ ok2 b) /\ True)); [|naive_solver|done].
  apply (codec_bind _ _ tag (fun t => [byte_of t]) e2 is_u8 ok2 (fun _ => True) Hg). intros t _.
  eapply codec_iff; [apply Hk|naive_solver|done].
Qed.

Lemma codec_tagged {B} (tag : B -> Z) (k : Z -> Get E B) e2 (ok2 : B -> Prop) :
  (forall b, ok2 b -> is_u8 (tag b)) -> (forall t, Codec (k t) e2 (fun b => ok2 b /\ tag b = t)) ->
  Codec (gbind (q get_u8) k) (fun b => [byte_of (tag b)] ++ e2 b) ok2.
Proof. apply codec_tagged_by, codec_u8. Qed.

(** [.map_err(|_| err)] around a reader *)
Lemma codec_map_err {E' A} (f : E' -> E) (g : Get E' A) e ok :
  Codec g e ok -> Codec (fun r => map_err f (g r)) e ok.
Proof.
  intros [Hd Hi]. split.
  - intros x Hx r tl Hw Hr. destruct (Hd x Hx r tl Hw Hr) as (r' & E1 & ?). exists r'. by rewrite E1.
  - intros r x r' Hw H. destruct (g r) as [[y r1]|] eqn:Eg; [|done]. injection H as <- <-. by apply (Hi r).
Qed.

(** Check a read value. *)
Lemma codec_check {A} (g : Get E A) (ok' : A -> Prop) {Dec : forall a, Decision (ok' a)} (err : E) e ok :
  Codec g e ok -> Codec (get* a := g in if decide (ok' a) then gret a else gfail err) e (fun a => ok a /\ ok' a).
Proof.
  intros [Hd Hi]. split.
  - intros a [H1 H2]. rewrite <- (app_nil_r (e a)). eapply decodes_bind; [by apply Hd|].
    rewrite decide_True by done. apply decodes_ret.
  - intros r a r' Hw H. unfold gbind in H. apply rbind_Ok in H as ([b r1] & H1 & H2).
    destruct (Hi _ _ _ Hw H1) as (? & ? & ?). case_decide; [|done]. injection H2 as <- <-. done.
Qed.

#[global] Instance codec_sized n (err : E) :
  Z.of_nat n <= MAX_FRAME -> Codec (sized n err) enc_bytes (fun b => length b = n).
Proof.
  intros Hn. split.
  - intros b Hb. unfold sized. rewrite <- (app_nil_r (enc_bytes b)).
    eapply decodes_bind; [apply decodes_q, decodes_bytes; unfold zlen; lia|].
    rewrite decide_False by lia. apply decodes_ret.
  - intros r b r' Hw H. unfold sized, gbind in H. apply rbind_Ok in H as ([c r1] & H1%inverts_q & H2).
    destruct (inverts_bytes _ _ _ Hw H1) as (? & ? & ?). case_decide; [done|]. injection H2 as <- <-.
    split; [done|]. split; [done|]. lia.
Qed.

#[global] Instance codec_text (err : E) : Codec (text err) enc_bytes str_ok.
Proof.
  split.
  - intros s [Hu Hl]. unfold text. rewrite <- (app_nil_r (enc_bytes s)).
    eapply decodes_bind; [by apply decodes_q, decodes_vec|]. unfold from_utf8. rewrite Hu. apply decodes_lift.
  - intros r x r' Hw H. unfold text, gbind in H. apply rbind_Ok in H as ([b r1] & H1%inverts_q & H).
    unfold glift, from_utf8 in H. destruct (utf8_valid b) eqn:Eu; [|done]. injection H as <- <-.
    destruct (inverts_bytes _ _ _ Hw H1) as (? & ? & ?). done.
Qed.

#[global] Instance codec_counted {A} cap (err : E) (g : Get E A) e ok :
  0 <= cap < 2 ^ 32 -> Codec g e ok -> Codec (counted cap err g) (enc_list e) (list_ok cap ok).
Proof.
  intros Hc [Hd Hi]. split.
  - intros l [Hn Hf]. unfold counted, enc_list. pose proof (zlen_nonneg l).
    eapply decodes_bind; [apply decodes_q, decodes_u32; unfold is_u32; lia|].
    rewrite decide_False by lia. unfold zlen. rewrite Nat2Z.id. apply decodes_times. by eapply Forall_impl.
  - intros r x r' Hw H. unfold counted in H. unfold gbind at 1 in H.
    apply rbind_Ok in H as ([n r1] & H1%inverts_q & H). destruct (inverts_u32 _ _ _ Hw H1) as (Hw1 & E1 & Hu).
    unfold is_u32 in Hu. case_decide; [done|].
    destruct (inverts_times _ _ _ _ Hi _ _ _ Hw1 H) as (Hw2 & E2 & Hl & Hf).
    unfold enc_list, list_ok, zlen. rewrite Hl, Z2Nat.id by lia.
    split; [done|]. split; [by rewrite E1, E2, (assoc (++))|]. split; [lia|done].
Qed.

(** A strict decoder accepts exactly the encodings. *)
Lemma codec_exact {A} (g : Get E A) e ok b x :
  Codec g e ok -> zlen b <= usize_max -> (run_get (strict g) b = Ok x <-> ok x /\ b = e x).
Proof.
  intros [Hd Hi] Hb. unfold strict. split.
  - unfold run_get, gbind, gret. intros H. apply rbind_Ok in H as ([y r'] & H & [= <-]).
    apply rbind_Ok in H as ([z r1] & H1 & H). apply rbind_Ok in H as ([u r2] & H2%inverts_q & [= <- <-]).
    destruct (Hi _ _ _ (rwf_new b Hb) H1) as (Hw & E1 & Hok). destruct (inverts_finish _ _ _ Hw H2) as [E2 _].
    by rewrite rest_new, E2, app_nil_r in E1.
  - intros [Hok ->]. apply run_decodes_all; [done|]. rewrite <- (app_nil_r (e x)).
    eapply decodes_all_bind; [by apply Hd|]. apply decodes_all_finish.
Qed.

Lemma codec_carried {F A} (dec : bytes -> result F A) (f : F -> E) (e : A -> bytes) (ok : A -> Prop) :
  (forall b x, zlen b <= usize_max -> (dec b = Ok x <-> ok x /\ b = e x)) ->
  Codec (carried dec f) (fun x => enc_bytes (e x)) (fun x => ok x /\ short (e x)).
Proof.
  intros Hd. split.
  - intros x [Hx Hs]. rewrite <- (app_nil_r (enc_bytes _)). eapply decodes_bind; [by apply decodes_q, decodes_bytes|].
    rewrite (proj2 (Hd (e x) x (frame_usize _ Hs))) by done. apply decodes_lift.
  - intros r x r' Hw H. unfold carried, gbind, glift in H. apply rbind_Ok in H as ([b r1] & H1%inverts_q & H).
    destruct (inverts_bytes _ _ _ Hw H1) as (Hw1 & E1 & Hs). apply rbind_Ok in H as (y & H2 & [= <- <-]).
    destruct (dec b) as [z|] eqn:Ed; [|done]. injection H2 as <-. apply (Hd b z (frame_usize _ Hs)) in Ed as [Hok ->]. done.
Qed.

#[global] Instance codec_nested {A} (g : Get E A) e ok :
  Codec g e ok -> Codec (nested g) (fun x => enc_bytes (e x)) (fun x => ok x /\ short (e x)).
Proof.
  intros Hg. split.
  - intros x [Hx Hs]. unfold nested. rewrite <- (app_nil_r (enc_bytes _)).
    eapply decodes_bind; [by apply decodes_q, decodes_bytes|].
    rewrite (proj2 (codec_exact g e ok (e x) x Hg (frame_usize _ Hs))) by done. apply decodes_lift.
  - intros r x r' Hw H. unfold nested, gbind in H. apply rbind_Ok in H as ([b r1] & H1%inverts_q & H).
    destruct (inverts_bytes _ _ _ Hw H1) as (Hw1 & E1 & Hs). unfold glift in H.
    apply rbind_Ok in H as (y & H2 & [= <- <-]).
    apply (codec_exact g e ok b y Hg (frame_usize _ Hs)) in H2 as [Hok ->]. done.
Qed.

End Fields.

(** ** 64-bit values in two halves *)

Definition enc_halves (v : Z) : bytes := be_bytes 4 (Z.shiftr v 32) ++ be_bytes 4 v.

Lemma into_vec_put_u64_halves v w : into_vec (put_u64_halves v w) = into_vec w ++ enc_halves v.
Proof. unfold put_u64_halves, enc_halves. wire_norm. by rewrite !be_bytes_4_wrap. Qed.
#[export] Hint Rewrite into_vec_put_u64_halves : wire.

Lemma halves_join v : is_u64 v -> Z.lor (Z.shiftl (Z.shiftr v 32) 32) (v mod 2 ^ 32) = v.
Proof.
  intros Hv. unfold is_u64 in Hv. rewrite <- Z.land_ones by lia.
  apply Z.bits_inj_iff'. intros i Hi. rewrite Z.lor_spec, Z.land_spec.
  destruct (decide (i < 32)) as [Hlt|Hge].
  - rewrite Z.shiftl_spec_low, Z.testbit_ones_nonneg by lia. cbn. rewrite (proj2 (Z.ltb_lt i 32)) by lia.
    by rewrite andb_true_r.
  - rewrite Z.shiftl_spec, Z.shiftr_spec, Z.testbit_ones_nonneg by lia. rewrite (proj2 (Z.ltb_ge i 32)) by lia.
    rewrite andb_false_r, orb_false_r. f_equal. lia.
Qed.

Lemma halves_split hi lo :
  is_u32 hi -> is_u32 lo ->
  forall v, v = Z.lor (Z.shiftl hi 32) lo -> is_u64 v /\ Z.shiftr v 32 = hi /\ v mod 2 ^ 32 = lo.
Proof.
  unfold is_u32, is_u64. intros Hh Hl v Hv.
  assert (v = hi * 2 ^ 32 + lo) as E.
  { rewrite Hv, Z.shiftl_mul_pow2 by lia. rewrite <- (Z.add_lor_land (hi * 2 ^ 32) lo).
    assert (Z.land (hi * 2 ^ 32) lo = 0) as ->; [|lia].
    apply Z.bits_inj_iff'. intros i Hi. rewrite Z.land_spec, Z.bits_0.
    destruct (decide (i < 32)); [by rewrite Z.mul_pow2_bits_low by lia|].
    by rewrite andb_comm, <- (Z.mod_small lo (2 ^ 32)), Z.mod_pow2_bits_high by lia. }
  rewrite E, Z.shiftr_div_pow2 by lia. clear Hv E. split; [nia|]. split.
  - rewrite Z.div_add_l by lia. rewrite Z.div_small by lia. lia.
  - rewrite Z.add_comm, Z.mod_add by lia. by apply Z.mod_small.
Qed.

#[global] Instance codec_u64_halves {E} (g1 g2 : Get E Z) :
  Codec g1 (be_bytes 4) is_u32 -> Codec g2 (be_bytes 4) is_u32 -> Codec (u64_halves g1 g2) enc_halves is_u64.
Proof.
  intros [Hd Hi] [Hd' Hi']. split.
  - intros v Hv. unfold u64_halves, enc_halves. pose proof (halves_join v Hv) as Hj.
    assert (is_u32 (Z.shiftr v 32)) as Hh.
    { unfold is_u64, is_u32 in *. rewrite Z.shiftr_div_pow2 by lia. split; [apply Z.div_pos; lia|].
      apply Z.div_lt_upper_bound; lia. }
    eapply decodes_bind; [by apply Hd|]. rewrite <- (be_bytes_4_wrap v), <- (app_nil_r (be_bytes 4 (u32_wrap v))).
    eapply decodes_bind; [apply Hd'; unfold is_u32, u32_wrap; apply Z.mod_pos_bound; lia|].
    unfold u32_wrap. rewrite Hj. apply decodes_ret.
  - intros r v r' Hw H. unfold u64_halves, gbind, gret in H. apply rbind_Ok in H as ([hi r1] & H1 & H).
    apply rbind_Ok in H as ([lo r2] & H2 & [= <- <-]).
    destruct (Hi _ _ _ Hw H1) as (Hw1 & E1 & O1). destruct (Hi' _ _ _ Hw1 H2) as (Hw2 & E2 & O2).
    destruct (halves_split hi lo O1 O2 _ eq_refl) as (Hu & Hhi & Hlo). split; [done|]. split; [|done].
    unfold enc_halves. rewrite Hhi, <- (be_bytes_4_wrap (Z.lor _ _)). unfold u32_wrap. rewrite Hlo, E1, E2.
    by rewrite (assoc (++)).
Qed.

(** Equal two-half encodings carry equal values and tails. *)
Lemma enc_halves_inj a b x y :
  is_u64 a -> is_u64 b -> enc_halves a ++ x = enc_halves b ++ y -> a = b /\ x = y.
Proof.
  intros Ha Hb E. apply app_inj_len in E as [E1 E2]; [|unfold enc_halves; by rewrite !length_app, !length_be_bytes].
  split; [|done].
  destruct (codec_u64_halves (q (E:=unit) get_u32) (q get_u32) codec_u32 codec_u32) as [Hd _].
  destruct (Hd a Ha (r_new (enc_halves a)) []) as (r1 & R1 & _); [apply rwf_new|by rewrite rest_new, app_nil_r|].
  { unfold zlen, enc_halves. rewrite length_app, !length_be_bytes. unfold usize_max. lia. }
  destruct (Hd b Hb (r_new (enc_halves b)) []) as (r2 & R2 & _); [apply rwf_new|by rewrite rest_new, app_nil_r|].
  { unfold zlen, enc_halves. rewrite length_app, !length_be_bytes. unfold usize_max. lia. }
  rewrite E1, R2 in R1. by injection R1.
Qed.

(** ** Lenient formats

    Some readers accept more than the writer produces: a flag is any nonzero
    byte, a version is cut to sixteen bits.  [Parses g e ok] keeps what still
    holds: encodings of [ok] values are read back, and whatever is accepted
    satisfies [ok] and is as long as its own encoding. *)

Class Parses {E A} (g : Get E A) (e : A -> bytes) (ok : A -> Prop) : Prop := {
  parses_decodes : forall x, ok x -> decodes g (e x) x;
  parses_yields : forall r x r', rwf r -> g r = Ok (x, r') ->
    rwf r' /\ ok x /\ zlen (rest r) = zlen (e x) + zlen (rest r') }.

#[export] Instance codec_parses {E A} (g : Get E A) e ok : Codec g e ok -> Parses g e ok | 10.
Proof.
  intros [Hd Hi]. split; [done|]. intros r x r' Hw H. destruct (Hi _ _ _ Hw H) as (Hw' & -> & Hok).
  by rewrite zlen_app.
Qed.

Lemma parses_iff {E A} (g : Get E A) e e' (ok ok' : A -> Prop) :
  Parses g e ok -> (forall x, ok x <-> ok' x) -> (forall x, ok x -> e x = e' x) -> Parses g e' ok'.
Proof.
  intros [Hd Hy] Hok He. split.
  - intros x Hx%Hok. rewrite <- He by done. auto.
  - intros r x r' Hw H. destruct (Hy r x r' Hw H) as (? & Hx & ?). rewrite <- He by done. by rewrite <- Hok.
Qed.

Lemma parses_ret {E A} (x : A) (ok eqs : A -> Prop) :
  (forall y, ok y /\ eqs y <-> y = x) -> Parses (gret (E:=E) x) (fun _ => []) (fun y => ok y /\ eqs y).
Proof.
  intros Hok. split.
  - intros y ->%Hok. apply decodes_ret.
  - intros r y r' Hw [= <- <-]. rewrite zlen_nil, Hok. split; [done|]. split; [done|lia].
Qed.

(** Read a field, then the rest.  What the field may be, and how it is written,
    may depend on the fields before it, which [eqs] records. *)
Lemma parses_bind {E A B} (g : Get E A) (k : A -> Get E B) (p : B -> A) e ok (e1 e2 : B -> bytes) (ok1 ok2 eqs : B -> Prop) :
  Parses g e ok -> (forall b, eqs b -> e1 b = e (p b) /\ (ok1 b <-> ok (p b))) ->
  (forall a, Parses (k a) e2 (fun b => ok2 b /\ (eqs b /\ p b = a))) ->
  Parses (gbind g k) (fun b => e1 b ++ e2 b) (fun b => (ok1 b /\ ok2 b) /\ eqs b).
Proof.
  intros [Hd Hy] Hsame Hk. split.
  - intros b [[H1 H2] H3]. destruct (Hsame b H3) as [-> Hok]. eapply decodes_bind; [by apply Hd, Hok|].
    by apply Hk.
  - intros r b r' Hw H. unfold gbind in H. apply rbind_Ok in H as ([a r1] & H1 & H2).
    destruct (Hy _ _ _ Hw H1) as (Hw1 & Ha & L1). destruct (Hk a) as [_ Hy2].
    destruct (Hy2 _ _ _ Hw1 H2) as (Hw2 & (Hb & Hq & <-) & L2). destruct (Hsame b Hq) as [-> Hok].
    split; [done|]. split; [by rewrite Hok|]. rewrite zlen_app. lia.
Qed.

(** A field whose form does not depend on the others. *)
Lemma parses_field {E A B} (g : Get E A) (k : A -> Get E B) (p : B -> A) e ok (e2 : B -> bytes) (ok2 eqs : B -> Prop) :
  Parses g e ok -> (forall a, Parses (k a) e2 (fun b => ok2 b /\ (eqs b /\ p b = a))) ->
  Parses (gbind g k) (fun b => e (p b) ++ e2 b) (fun b => (ok (p b) /\ ok2 b) /\ eqs b).
Proof. intros Hg. by apply (parses_bind g k p e ok). Qed.

(** A read value is post-processed: [f] maps it onto the value kept, [u] back to
    what the writer writes. *)
Lemma parses_map {E A B} (g : Get E A) (f : A -> B) (u : B -> A) e ok e' (ok' : B -> Prop) :
  Parses g e ok -> (forall b, ok' b -> ok (u b) /\ f (u b) = b) -> (forall b, e' b = e (u b)) ->
  (forall a, ok a -> ok' (f a) /\ zlen (e a) = zlen (e' (f a))) ->
  Parses (get* a := g in gret (f a)) e' ok'.
Proof.
  intros [Hd Hy] Hu He Hf. split.
  - intros b Hb. destruct (Hu b Hb) as [H1 H2]. rewrite He. rewrite <- H2 at 2. by apply decodes_ret_bind, Hd.
  - intros r b r' Hw H. unfold gbind, gret in H. apply rbind_Ok in H as ([a r1] & H1 & [= <- <-]).
    destruct (Hy _ _ _ Hw H1) as (? & Ha & ?). destruct (Hf a Ha). split; [done|]. split; [done|lia].
Qed.

(** [r.get_u8()? != 0] *)
Definition flag {E} `{FromWire E} : Get E bool := get* b := q get_u8 in gret (bool_decide (b <> 0)).
Definition b2z (b : bool) : Z := if b then 1 else 0.

#[export] Instance parses_flag {E} `{FromWire E} : Parses (E:=E) flag (fun b => [byte_of (b2z b)]) (fun _ => True).
Proof.
  eapply (parses_map _ _ b2z); [apply codec_parses, codec_u8| |done|].
  - intros [] _; by vm_compute.
  - intros a _. done.
Qed.

(** A field that only newer versions have. *)
Definition since {E A} (c : bool) (dflt : A) (g : Get E A) : Get E A := if c then g else gret dflt.

Lemma parses_since {E A} (c : bool) (dflt : A) (g : Get E A) e ok :
  Parses g e ok -> Parses (since c dflt g) (fun x => if c then e x else []) (fun x => if c then ok x else x = dflt).
Proof.
  intros Hg. destruct c; [done|]. cbn. split.
  - intros x ->. apply decodes_ret.
  - intros r x r' Hw [= <- <-]. rewrite zlen_nil. split; [done|]. split; [done|lia].
Qed.

(** A strict decoder over a lenient format reads back what is written, and
    whatever it accepts is well formed and no shorter than its encoding. *)
Lemma parses_strict {E A} (g : Get E A) (fin : Get E unit) e ok b x :
  Parses g e ok -> (forall r y r', fin r = Ok (y, r') <-> finish r = Ok (y, r')) -> zlen b <= usize_max ->
  (run_get (get* x := g in get* _ := fin in gret x) b = Ok x -> ok x /\ zlen b = zlen (e x)) /\
  (ok x -> b = e x -> run_get (get* x := g in get* _ := fin in gret x) b = Ok x).
Proof.
  intros [Hd Hy] Hfin Hb. split.
  - unfold run_get, gbind, gret. intros H. apply rbind_Ok in H as ([y r'] & H & [= <-]).
    apply rbind_Ok in H as ([z r1] & H1 & H). apply rbind_Ok in H as ([u r2] & H2%Hfin & [= <- <-]).
    destruct (Hy _ _ _ (rwf_new b Hb) H1) as (Hw & Hok & L). destruct (inverts_finish _ _ _ Hw H2) as [E2 _].
    rewrite rest_new, E2, zlen_nil, Z.add_0_r in L. done.
  - intros Hok ->. unfold run_get, gbind, gret.
    destruct (Hd x Hok (r_new (e x)) []) as (r1 & E1 & Hw & Hr); [by apply rwf_new|by rewrite rest_new, app_nil_r|].
    rewrite E1. cbn [rbind]. assert (finish r1 = Ok (tt, r1)) as E2.
    { unfold finish. by rewrite remaining_rest, Hr by done. }
    apply Hfin in E2. by rewrite E2.
Qed.

#[export] Hint Extern 1 (Z.of_nat _ <= MAX_FRAME) => by vm_compute : typeclass_instances.
#[export] Hint Extern 1 (0 <= _ < 2 ^ 32) => by vm_compute : typeclass_instances.

(** The codec of a record: [field p] for every field in the order the decoder
    reads them, [p] its projection, and [record_done] at the [gret]. *)
Ltac record_codec g :=
  unfold g; eapply (codec_iff _ _ _ (fun b => _ /\ True)).
Ltac field p := eapply (codec_bind _ _ p); [typeclasses eauto|intros ? ?].
Ltac record_done := apply codec_ret; intros []; cbn; naive_solver.
