(* ===== verification/Account.v ===== *)
(** * Accounts: certificate chains, username claims, revocations and groupings
      (crates/crypto/src/{account,grouping}.rs)

    An account key certifies device keys and a device key certifies segment
    keys; an [IdentityChain] is a path of signed certificates from an account to
    a leaf.  The file models the records and their wire forms, chain
    verification, the registry cross-comparison, revocations and the per-chat
    grouping keys, and proves that verification accepts exactly the certified
    paths. *)

From S2P Require Import Prelude Wire Crypto Marking Frames Codec.

(** [u64::saturating_add] *)
Definition u64_sat_add (a b : Z) : Z := Z.min (a + b) usize_max.

(** ** Field helpers *)

Definition put_pub (p : IdentityPublic) (w : Writer) : Writer := put_bytes (sig_vk p) w.
Definition get_pub : Get CryptoError IdentityPublic :=
  get* vk := q get_vec in gret (mkIdentityPublic vk).

(** [put_u64] and [get_u64] of account.rs: eight bytes in a length-prefixed field *)
Definition put_u64_field (v : Z) (w : Writer) : Writer := put_bytes (be_bytes 8 v) w.
Definition get_u64_field : Get CryptoError Z :=
  get* b := sized 8 (Malformed "u64 length") in gret (be_val b).

(** ** Certificates *)

Record Cert : Type := mkCert {
  ct_subject : IdentityPublic; ct_label : bytes; ct_valid_from : Z; ct_expiry : Z }.

#[export] Instance cert_eq_dec : EqDecision Cert.
Proof. solve_decision. Defined.

Definition cert_encode (c : Cert) : bytes :=
  w_new |> put_pub (ct_subject c) |> put_bytes (ct_label c) |> put_u64_field (ct_valid_from c)
        |> put_u64_field (ct_expiry c) |> into_vec.

Definition cert_read : Get CryptoError Cert :=
  get* subject := get_pub in
  get* label := text (Malformed "cert label utf-8") in
  get* valid_from := get_u64_field in
  get* expiry := get_u64_field in
  gret (mkCert subject label valid_from expiry).

Definition CLOCK_SKEW_TOLERANCE : Z := 300.

Definition cert_valid_at (c : Cert) (now : Z) : bool :=
  bool_decide (u64_sat_add now CLOCK_SKEW_TOLERANCE >= ct_valid_from c)
  && (bool_decide (ct_expiry c = 0)
      || bool_decide (now <= u64_sat_add (ct_expiry c) CLOCK_SKEW_TOLERANCE)).

Record SignedCert : Type := mkSignedCert {
  sc_issuer : IdentityPublic; sc_cert : Cert; sc_sig : bytes }.

#[export] Instance signed_cert_eq_dec : EqDecision SignedCert.
Proof. solve_decision. Defined.

Definition sc_encode (c : SignedCert) : bytes :=
  w_new |> put_pub (sc_issuer c) |> put_bytes (cert_encode (sc_cert c)) |> put_bytes (sc_sig c) |> into_vec.

Definition sc_read : Get CryptoError SignedCert :=
  get* issuer := get_pub in
  get* cert := nested cert_read in
  get* sig := q get_vec in
  gret (mkSignedCert issuer cert sig).

Definition sc_decode (b : bytes) : result CryptoError SignedCert := run_get (strict sc_read) b.

Definition sc_valid_at (c : SignedCert) (now : Z) : bool := cert_valid_at (sc_cert c) now.

Record IdentityChain : Type := mkChain { links : list SignedCert }.

#[export] Instance chain_eq_dec : EqDecision IdentityChain.
Proof. solve_decision. Defined.

Definition chain_leaf (c : IdentityChain) : option IdentityPublic :=
  (fun l => ct_subject (sc_cert l)) <$> last (links c).

Definition chain_encode (c : IdentityChain) : bytes :=
  w_new |> put_u32 (u32_wrap (zlen (links c))) |> put_each (fun l => put_bytes (sc_encode l)) (links c) |> into_vec.

Definition MAX_CHAIN : Z := 16.

Definition chain_decode (b : bytes) : result CryptoError IdentityChain :=
  run_get (strict (
    get* links := counted MAX_CHAIN (Malformed "identity chain too long") (nested sc_read) in
    gret (mkChain links))) b.

(** [ConstantTimeEq for IdentityPublic]: equal lengths and equal bytes *)
Definition ct_eq (a b : IdentityPublic) : bool :=
  if decide (length (sig_vk a) <> length (sig_vk b)) then false else bool_decide (sig_vk a = sig_vk b).

Section Accounts.
Context {P : Primitives}.

Definition sc_issue (issuer : IdentityKeyPair) (subject : IdentityPublic) (label : bytes) (valid_from expiry : Z)
    : SignedCert :=
  let cert := mkCert subject label valid_from expiry in
  mkSignedCert (id_public issuer) cert (id_sign issuer (cert_encode cert)).

Definition sc_verify_signature (c : SignedCert) : result CryptoError unit :=
  id_verify (sc_issuer c) (cert_encode (sc_cert c)) (sc_sig c).

Definition chain_device (account : IdentityKeyPair) (device : IdentityPublic) (label : bytes) (valid_from expiry : Z)
    : IdentityChain :=
  mkChain [sc_issue account device label valid_from expiry].

Definition chain_extend (c : IdentityChain) (leaf_kp : IdentityKeyPair) (sub : IdentityPublic) (label : bytes)
    (valid_from expiry : Z) : IdentityChain :=
  mkChain (links c ++ [sc_issue leaf_kp sub label valid_from expiry]).

(** The loop of [verify]: [prev] is the link before, if any. *)
Fixpoint verify_links (now : Z) (prev : option SignedCert) (ls : list SignedCert) : result CryptoError unit :=
  match ls with
  | [] => Ok tt
  | link :: ls =>
      let* _ := sc_verify_signature link in
      if negb (cert_valid_at (sc_cert link) now) then Err BadSignature
      else if match prev with
              | Some p => negb (ct_eq (sc_issuer link) (ct_subject (sc_cert p)))
              | None => false
              end then Err BadSignature
      else verify_links now (Some link) ls
  end.

Definition chain_verify (c : IdentityChain) (account leaf : IdentityPublic) (now : Z) : result CryptoError unit :=
  match links c with
  | [] => Err (Malformed "empty identity chain")
  | l0 :: _ =>
      if negb (ct_eq (sc_issuer l0) account) then Err BadSignature
      else
        let* _ := verify_links now None (links c) in
        if match chain_leaf c with Some l => negb (ct_eq l leaf) | None => true end then Err BadSignature
        else Ok tt
  end.

Definition belongs_to_account (account : IdentityPublic) (chain : IdentityChain) (leaf : IdentityPublic) (now : Z) : bool :=
  is_ok (chain_verify chain account leaf now).

(** ** Username claims *)

Record UsernameClaim : Type := mkClaim { uc_username : bytes; uc_account : IdentityPublic; uc_issued : Z }.

Definition claim_encode_signed (c : UsernameClaim) : bytes :=
  w_new |> put_bytes (uc_username c) |> put_pub (uc_account c) |> put_u64_field (uc_issued c) |> into_vec.

Definition claim_read : Get CryptoError UsernameClaim :=
  get* username := text (Malformed "username utf-8") in
  get* account := get_pub in
  get* issued := get_u64_field in
  gret (mkClaim username account issued).

Record SignedClaim : Type := mkSignedClaim { sg_claim : UsernameClaim; sg_sig : bytes }.

Definition claim_issue (account : IdentityKeyPair) (username : bytes) (issued : Z) : SignedClaim :=
  let claim := mkClaim username (id_public account) issued in
  mkSignedClaim claim (id_sign account (claim_encode_signed claim)).

Definition claim_verify (c : SignedClaim) : result CryptoError unit :=
  id_verify (uc_account (sg_claim c)) (claim_encode_signed (sg_claim c)) (sg_sig c).

Definition claim_encode (c : SignedClaim) : bytes :=
  w_new |> put_bytes (claim_encode_signed (sg_claim c)) |> put_bytes (sg_sig c) |> into_vec.

Definition claim_decode (b : bytes) : result CryptoError SignedClaim :=
  run_get (strict (
    get* claim := nested claim_read in
    get* sig := q get_vec in
    gret (mkSignedClaim claim sig))) b.

Definition cross_compare (username : bytes) (claims : list SignedClaim) : option IdentityPublic :=
  match claims with
  | [] => None
  | first :: _ =>
      let account := uc_account (sg_claim first) in
      if forallb (fun c => bool_decide (uc_username (sg_claim c) = username) && is_ok (claim_verify c)
                           && bool_decide (uc_account (sg_claim c) = account)) claims
      then Some account else None
  end.

(** ** Revocations *)

Record Revocation : Type := mkRevocation {
  rv_account : IdentityPublic; rv_subject_fp : bytes; rv_issued : Z; rv_sig : bytes }.

Definition rev_signed_bytes (subject_fp : bytes) (issued : Z) : bytes :=
  w_new |> put_bytes subject_fp |> put_u64_field issued |> into_vec.

Definition rev_issue (account : IdentityKeyPair) (subject_fp : bytes) (issued : Z) : Revocation :=
  mkRevocation (id_public account) subject_fp issued (id_sign account (rev_signed_bytes subject_fp issued)).

Definition rev_verify (r : Revocation) : result CryptoError unit :=
  id_verify (rv_account r) (rev_signed_bytes (rv_subject_fp r) (rv_issued r)) (rv_sig r).

Definition rev_encode (r : Revocation) : bytes :=
  w_new |> put_pub (rv_account r) |> put_bytes (rv_subject_fp r) |> put_u64_field (rv_issued r)
        |> put_bytes (rv_sig r) |> into_vec.

Definition rev_decode (b : bytes) : result CryptoError Revocation :=
  run_get (strict (
    get* account := get_pub in
    get* sfp := sized 48 (Malformed "revocation subject fp length") in
    get* issued := get_u64_field in
    get* sig := q get_vec in
    gret (mkRevocation account sfp issued sig))) b.

(** ** Grouping keys *)

Definition GROUPING_KDF_LABEL : bytes := bstr "talkrypt-grouping-key-v1".

Definition derive_for_chat (root_seed chat_context : bytes) : IdentityKeyPair :=
  id_from_secret_bytes (mac_kdf root_seed chat_context GROUPING_KDF_LABEL 32).

Definition grouping_certify (root_seed chat_context : bytes) (member : IdentityPublic) (now exp : Z) : SignedCert :=
  sc_issue (derive_for_chat root_seed chat_context) member (bstr "group") now exp.

Definition verify_grouping_cert (grouping_pub : IdentityPublic) (cert : SignedCert) (member : IdentityPublic) (now : Z)
    : bool :=
  ct_eq grouping_pub (sc_issuer cert)
  && ct_eq member (ct_subject (sc_cert cert))
  && bool_decide (u64_sat_add now CLOCK_SKEW_TOLERANCE >= ct_valid_from (sc_cert cert))
  && (bool_decide (ct_expiry (sc_cert cert) = 0)
      || bool_decide (now <= u64_sat_add (ct_expiry (sc_cert cert)) CLOCK_SKEW_TOLERANCE))
  && is_ok (sc_verify_signature cert).

End Accounts.

(** ** Wire forms *)

Definition enc_pub (p : IdentityPublic) : bytes := enc_bytes (sig_vk p).
Definition pub_ok (p : IdentityPublic) : Prop := short (sig_vk p).
Definition enc_u64f (v : Z) : bytes := enc_bytes (be_bytes 8 v).

Lemma into_vec_put_pub p w : into_vec (put_pub p w) = into_vec w ++ enc_pub p.
Proof. apply into_vec_put_bytes. Qed.
Lemma into_vec_put_u64_field v w : into_vec (put_u64_field v w) = into_vec w ++ enc_u64f v.
Proof. apply into_vec_put_bytes. Qed.
#[export] Hint Rewrite into_vec_put_pub into_vec_put_u64_field : wire.

#[export] Instance codec_pub : Codec get_pub enc_pub pub_ok.
Proof.
  unfold get_pub. eapply (codec_con _ mkIdentityPublic); [apply codec_vec|done|].
  intros [vk]. unfold pub_ok. cbn. naive_solver.
Qed.

#[export] Instance codec_u64f : Codec get_u64_field enc_u64f is_u64.
Proof.
  destruct (codec_sized 8 (Malformed "u64 length")) as [Hd Hi]; [by vm_compute|].
  unfold get_u64_field, enc_u64f. split.
  - intros v Hv. pose proof (be_val_bytes 8 v) as Hb. unfold is_u64 in Hv.
    rewrite Z.mod_small in Hb by (change (256 ^ Z.of_nat 8) with (2 ^ 64); lia).
    rewrite <- Hb at 2. apply (decodes_ret_bind _ be_val), Hd, length_be_bytes.
  - intros r v r' Hw H. unfold gbind, gret in H. apply rbind_Ok in H as ([b r1] & H1 & [= <- <-]).
    destruct (Hi _ _ _ Hw H1) as (? & E1 & Hl). pose proof (be_val_range b) as Hr.
    assert (be_bytes 8 (be_val b) = b) as -> by (rewrite <- Hl; apply be_bytes_val).
    unfold zlen in Hr. rewrite Hl in Hr. done.
Qed.

Record cert_ok (c : Cert) : Prop := {
  co_subject : pub_ok (ct_subject c); co_label : str_ok (ct_label c);
  co_from : is_u64 (ct_valid_from c); co_expiry : is_u64 (ct_expiry c) }.

Definition enc_cert (c : Cert) : bytes :=
  enc_pub (ct_subject c) ++ enc_bytes (ct_label c) ++ enc_u64f (ct_valid_from c) ++ enc_u64f (ct_expiry c).

Lemma cert_encode_norm c : cert_encode c = enc_cert c.
Proof. unfold cert_encode, enc_cert. by wire_norm. Qed.

#[export] Instance codec_cert : Codec cert_read enc_cert cert_ok.
Proof.
  record_codec cert_read.
  { field ct_subject. field ct_label. field ct_valid_from. field ct_expiry. record_done. }
  - intros []. split; [intros (?&?); destruct_and?; by split|intros []; naive_solver].
  - intros c _. unfold enc_cert. by rewrite app_nil_r.
Qed.

Record sc_ok (c : SignedCert) : Prop := {
  so_issuer : pub_ok (sc_issuer c); so_cert : cert_ok (sc_cert c); so_short : short (enc_cert (sc_cert c));
  so_sig : short (sc_sig c) }.

Definition enc_sc (c : SignedCert) : bytes :=
  enc_pub (sc_issuer c) ++ enc_bytes (enc_cert (sc_cert c)) ++ enc_bytes (sc_sig c).

Lemma sc_encode_norm c : sc_encode c = enc_sc c.
Proof. unfold sc_encode, enc_sc. wire_norm. by rewrite cert_encode_norm. Qed.

#[export] Instance codec_sc : Codec sc_read enc_sc sc_ok.
Proof.
  record_codec sc_read.
  { field sc_issuer. field sc_cert. field sc_sig. record_done. }
  - intros []. split; [intros (?&?); destruct_and?; by split|intros []; naive_solver].
  - intros c _. unfold enc_sc. by rewrite app_nil_r.
Qed.

Lemma sc_decode_exact b c : zlen b <= usize_max -> (sc_decode b = Ok c <-> sc_ok c /\ b = sc_encode c).
Proof. intros Hb. rewrite sc_encode_norm. by apply codec_exact; [apply codec_sc|]. Qed.

Definition chain_ok (c : IdentityChain) : Prop :=
  list_ok MAX_CHAIN (fun l => sc_ok l /\ short (enc_sc l)) (links c).
Definition enc_chain (c : IdentityChain) : bytes := enc_list (fun l => enc_bytes (enc_sc l)) (links c).

Lemma chain_encode_norm c : chain_encode c = enc_chain c.
Proof.
  unfold chain_encode, enc_chain, enc_list. rewrite (into_vec_put_each _ (fun l => enc_bytes (enc_sc l))).
  - wire_norm. by rewrite be_bytes_4_wrap.
  - intros l w. by rewrite into_vec_put_bytes, sc_encode_norm.
Qed.

#[export] Instance codec_chain :
  Codec (get* links := counted MAX_CHAIN (Malformed "identity chain too long") (nested sc_read) in
         gret (mkChain links)) enc_chain chain_ok.
Proof.
  eapply (codec_con _ mkChain); [typeclasses eauto|done|]. intros [l]. unfold chain_ok. cbn. naive_solver.
Qed.

Lemma chain_decode_exact b c : zlen b <= usize_max -> (chain_decode b = Ok c <-> chain_ok c /\ b = chain_encode c).
Proof. intros Hb. rewrite chain_encode_norm. by apply codec_exact; [apply codec_chain|]. Qed.

Record claim_ok (c : UsernameClaim) : Prop := {
  cl_username : str_ok (uc_username c); cl_account : pub_ok (uc_account c); cl_issued : is_u64 (uc_issued c) }.
Definition enc_claim (c : UsernameClaim) : bytes :=
  enc_bytes (uc_username c) ++ enc_pub (uc_account c) ++ enc_u64f (uc_issued c).

Lemma claim_encode_signed_norm c : claim_encode_signed c = enc_claim c.
Proof. unfold claim_encode_signed, enc_claim. by wire_norm. Qed.

#[export] Instance codec_claim : Codec claim_read enc_claim claim_ok.
Proof.
  record_codec claim_read.
  { field uc_username. field uc_account. field uc_issued. record_done. }
  - intros []. split; [intros (?&?); destruct_and?; by split|intros []; naive_solver].
  - intros c _. unfold enc_claim. by rewrite app_nil_r.
Qed.

Definition signed_claim_ok (c : SignedClaim) : Prop :=
  (claim_ok (sg_claim c) /\ short (enc_claim (sg_claim c))) /\ short (sg_sig c).

Lemma claim_decode_exact b c :
  zlen b <= usize_max -> (claim_decode b = Ok c <-> signed_claim_ok c /\ b = claim_encode c).
Proof.
  intros Hb. unfold claim_decode. rewrite (codec_exact _ (fun c => enc_bytes (enc_claim (sg_claim c)) ++ enc_bytes (sg_sig c))
    signed_claim_ok b c); [|eapply (codec_iff _ _ _ (fun b => _ /\ True))|done].
  - unfold claim_encode. wire_norm. by rewrite claim_encode_signed_norm.
  - field sg_claim. field sg_sig. record_done.
  - intros []. unfold signed_claim_ok. cbn. naive_solver.
  - intros x _. cbn. by rewrite app_nil_r.
Qed.

Record rev_ok (r : Revocation) : Prop := {
  ro_account : pub_ok (rv_account r); ro_fp : length (rv_subject_fp r) = 48%nat;
  ro_issued : is_u64 (rv_issued r); ro_sig : short (rv_sig r) }.

Lemma rev_decode_exact b r : zlen b <= usize_max -> (rev_decode b = Ok r <-> rev_ok r /\ b = rev_encode r).
Proof.
  intros Hb. unfold rev_decode. rewrite (codec_exact _ (fun r => enc_pub (rv_account r) ++ enc_bytes (rv_subject_fp r) ++
    enc_u64f (rv_issued r) ++ enc_bytes (rv_sig r)) rev_ok b r); [|eapply (codec_iff _ _ _ (fun b => _ /\ True))|done].
  - unfold rev_encode. by wire_norm.
  - field rv_account. field rv_subject_fp. field rv_issued. field rv_sig. record_done.
  - intros []. split; [intros (?&?); destruct_and?; by split|intros []; naive_solver].
  - intros x _. cbn. by rewrite app_nil_r.
Qed.

(** ** Chain verification *)

Lemma ct_eq_spec a b : ct_eq a b = true <-> a = b.
Proof.
  unfold ct_eq. destruct a as [a], b as [b]. cbn. case_decide as Hd.
  - split; [done|]. intros [= ->]. done.
  - rewrite bool_decide_eq_true. split; [by intros ->|by intros [= ->]].
Qed.

Section Verify.
Context {P : Primitives}.

(** [link_valid now l]: the link carries its issuer's signature and is in its
    validity window, five minutes of skew allowed either way. *)
Definition link_valid (now : Z) (l : SignedCert) : Prop :=
  id_verify (sc_issuer l) (cert_encode (sc_cert l)) (sc_sig l) = Ok tt /\ cert_valid_at (sc_cert l) now = true.

(** [certified now k ls leaf]: the links lead from key [k] to [leaf], each
    issued by the key the one before it certified. *)
Inductive certified (now : Z) : IdentityPublic -> list SignedCert -> IdentityPublic -> Prop :=
| certified_end l : link_valid now l -> certified now (sc_issuer l) [l] (ct_subject (sc_cert l))
| certified_step l ls leaf :
    link_valid now l -> certified now (ct_subject (sc_cert l)) ls leaf ->
    certified now (sc_issuer l) (l :: ls) leaf.

Lemma verify_links_cons now prev l ls :
  verify_links now prev (l :: ls) = Ok tt <->
  link_valid now l /\ (forall p, prev = Some p -> sc_issuer l = ct_subject (sc_cert p)) /\
  verify_links now (Some l) ls = Ok tt.
Proof.
  cbn [verify_links]. unfold link_valid. fold (sc_verify_signature l). destruct (sc_verify_signature l) as [[]|]; cbn [rbind]; [|naive_solver].
  destruct (cert_valid_at (sc_cert l) now); cbn [negb]; [|naive_solver].
  destruct prev as [p|]; [|naive_solver].
  pose proof (ct_eq_spec (sc_issuer l) (ct_subject (sc_cert p))) as Hc.
  destruct (ct_eq _ _); cbn [negb]; naive_solver.
Qed.

Lemma verify_links_certified now prev l ls leaf :
  (verify_links now prev (l :: ls) = Ok tt /\ chain_leaf (mkChain (l :: ls)) = Some leaf) <->
  (forall p, prev = Some p -> sc_issuer l = ct_subject (sc_cert p)) /\ certified now (sc_issuer l) (l :: ls) leaf.
Proof.
  revert prev l. induction ls as [|l2 ls IH]; intros prev l; rewrite verify_links_cons.
  - cbn. split.
    + intros [(Hv & Hp & _) [= <-]]. split; [done|by constructor].
    + intros [Hp Hc]. inversion Hc as [? Hv|? ? ? ? Hn]; subst; [done|inversion Hn].
  - change (chain_leaf (mkChain (l :: l2 :: ls))) with (chain_leaf (mkChain (l2 :: ls))). split.
    + intros [(Hv & Hp & Hr) Hl]. split; [done|].
      destruct (proj1 (IH (Some l) l2) (conj Hr Hl)) as [He Hc]. constructor; [done|]. by rewrite <- (He l eq_refl).
    + intros [Hp Hc]. inversion Hc as [|? ? ? Hv Hn]; subst.
      assert (sc_issuer l2 = ct_subject (sc_cert l)) as He by (by inversion Hn).
      rewrite <- He in Hn. destruct (proj2 (IH (Some l) l2)) as [Hr Hl]; [|done].
      split; [|done]. by intros p [= <-].
Qed.

Lemma chain_verify_certified c account leaf now :
  chain_verify c account leaf now = Ok tt <-> certified now account (links c) leaf.
Proof.
  destruct c as [[|l ls]]; unfold chain_verify; cbn [links]; [split; [done|by inversion 1]|].
  pose proof (ct_eq_spec (sc_issuer l) account) as Ha. destruct (ct_eq (sc_issuer l) account) eqn:Ea; cbn [negb].
  2: { split; [done|]. intros Hc. assert (sc_issuer l = account) by (by inversion Hc). naive_solver. }
  destruct (proj1 Ha eq_refl). clear Ha Ea. split.
  - intros H. apply rbind_Ok in H as ([] & Hv & H).
    destruct (chain_leaf (mkChain (l :: ls))) as [x|] eqn:El; [|done].
    pose proof (ct_eq_spec x leaf) as Hx. destruct (ct_eq x leaf); [|done]. destruct (proj1 Hx eq_refl).
    by apply (verify_links_certified now None l ls x).
  - intros Hc. destruct (proj2 (verify_links_certified now None l ls leaf)) as [Hv Hl]; [done|].
    rewrite Hv. cbn [rbind]. rewrite Hl. by rewrite (proj2 (ct_eq_spec leaf leaf)).
Qed.

End Verify.
