(* ===== verification/Vouch.v ===== *)
(** * Vouches (crates/core/src/vouch.rs)

    Signed, per-chat trust attestations: the wire forms of a vouch and of a
    vouch policy, and the evaluator a viewer runs over the vouches a subject has
    received, with linear decay over gossip rounds and the reversal of clusters
    proved to be one operator.  [evaluate] follows the code (a hash map from
    grouping to members, then two loops); [ref_score] is the closed form it is
    proved to compute.  Its sums are exact integers; [evaluate_in_range] shows that
    the code's 64-bit ones do not wrap up to [2^24] vouchers. *)

From S2P Require Import Prelude Wire Crypto Marking Frames Codec.

(** ** Targets *)

Inductive VouchTarget : Type :=
| TAccount (fp : bytes)
| TNameBinding (account name_tag : bytes)
| TLeaf (fp : bytes).

#[export] Instance vouch_target_eq_dec : EqDecision VouchTarget.
Proof. solve_decision. Defined.

Definition target_encode (t : VouchTarget) : bytes :=
  into_vec (match t with
  | TAccount fp => w_new |> put_u8 0 |> put_bytes fp
  | TNameBinding account name_tag => w_new |> put_u8 1 |> put_bytes account |> put_bytes name_tag
  | TLeaf fp => w_new |> put_u8 2 |> put_bytes fp
  end).

(** [fp48] and [fp8] are [sized]. *)
Definition target_read : Get unit VouchTarget :=
  get* tag := q get_u8 in
  if decide (tag = 0) then get* fp := sized 48 tt in gret (TAccount fp)
  else if decide (tag = 1) then
    get* account := sized 48 tt in get* name_tag := sized 8 tt in gret (TNameBinding account name_tag)
  else if decide (tag = 2) then get* fp := sized 48 tt in gret (TLeaf fp)
  else gfail tt.

Definition target_decode (b : bytes) : option VouchTarget := to_option (run_get (strict target_read) b).

(** ** Vouches *)

Record Vouch : Type := mkVouch {
  vc_target : VouchTarget; vc_context : bytes; vc_epoch : Z; vc_asserted_at : Z; vc_sig : bytes;
  vc_voucher : IdentityPublic }.

Definition vouch_encode (v : Vouch) : bytes :=
  w_new |> put_bytes (target_encode (vc_target v)) |> put_bytes (vc_context v)
        |> put_u64_halves (vc_epoch v) |> put_u64_halves (vc_asserted_at v)
        |> put_bytes (vc_sig v) |> put_bytes (sig_vk (vc_voucher v)) |> into_vec.

Definition vouch_read : Get unit Vouch :=
  get* target := nested target_read in
  get* context := sized 32 tt in
  get* epoch := u64_halves (q get_u32) (q get_u32) in
  get* asserted_at := u64_halves (q get_u32) (q get_u32) in
  get* sig := q get_vec in
  get* vk := q get_vec in
  gret (mkVouch target context epoch asserted_at sig (mkIdentityPublic vk)).

Definition vouch_decode (b : bytes) : option Vouch := to_option (run_get (strict vouch_read) b).

Definition VOUCH_SIG_LABEL : bytes := bstr "talkrypt-vouch-v1".

Definition vouch_signed_bytes (target : VouchTarget) (context : bytes) (epoch asserted_at : Z) : bytes :=
  w_new |> put_bytes VOUCH_SIG_LABEL |> put_bytes (target_encode target) |> put_bytes context
        |> put_u64_halves epoch |> put_u64_halves asserted_at |> into_vec.

Definition signed_bytes (v : Vouch) : bytes :=
  vouch_signed_bytes (vc_target v) (vc_context v) (vc_epoch v) (vc_asserted_at v).

Definition target_fp (v : Vouch) : bytes :=
  match vc_target v with
  | TAccount fp | TLeaf fp => fp
  | TNameBinding account _ => account
  end.

Section Signing.
Context {P : Primitives}.

Definition vouch_verify (v : Vouch) : bool := is_ok (id_verify (vc_voucher v) (signed_bytes v) (vc_sig v)).

Definition sign_vouch (voucher : IdentityKeyPair) (target : VouchTarget) (context : bytes) (epoch asserted_at : Z) : Vouch :=
  let sig := id_sign voucher (vouch_signed_bytes target context epoch asserted_at) in
  mkVouch target context epoch asserted_at sig (id_public voucher).

End Signing.

(** ** Policies *)

Inductive Relationship : Type := Friend | Contact_ | Stranger.

Record VouchWeighting : Type := mkWeighting { vw_friend : Z; vw_contact : Z; vw_stranger : Z }.

Definition default_weighting : VouchWeighting := mkWeighting 4 2 1.

Definition weight_for (w : VouchWeighting) (r : Relationship) : Z :=
  match r with Friend => vw_friend w | Contact_ => vw_contact w | Stranger => vw_stranger w end.

Inductive VoucherEligibility : Type := AnyLinked | ContactsOfViewer | Transitive (depth : Z).
Inductive Threshold : Type := Count (c : Z) | Percent (p : Z).

#[export] Instance threshold_eq_dec : EqDecision Threshold.
Proof. solve_decision. Defined.

Record VouchPolicy : Type := mkPolicy {
  vp_eligibility : VoucherEligibility; vp_weighting : VouchWeighting; vp_threshold : Threshold;
  vp_freshness_interval_rounds : Z }.

Definition default_policy : VouchPolicy := mkPolicy AnyLinked default_weighting (Count u32_max) 64.

Definition put_eligibility (e : VoucherEligibility) (w : Writer) : Writer :=
  match e with
  | AnyLinked => w |> put_u8 0
  | ContactsOfViewer => w |> put_u8 1
  | Transitive depth => w |> put_u8 2 |> put_u8 depth
  end.
Definition put_threshold (t : Threshold) (w : Writer) : Writer :=
  match t with
  | Count c => w |> put_u8 0 |> put_u32 c
  | Percent p => w |> put_u8 1 |> put_u8 p
  end.

Definition policy_encode (p : VouchPolicy) : bytes :=
  w_new |> put_eligibility (vp_eligibility p)
        |> put_u32 (vw_friend (vp_weighting p)) |> put_u32 (vw_contact (vp_weighting p))
        |> put_u32 (vw_stranger (vp_weighting p))
        |> put_threshold (vp_threshold p) |> put_u32 (vp_freshness_interval_rounds p) |> into_vec.

Definition get_eligibility : Get unit VoucherEligibility :=
  get* tag := q get_u8 in
  if decide (tag = 0) then gret AnyLinked
  else if decide (tag = 1) then gret ContactsOfViewer
  else if decide (tag = 2) then get* depth := q get_u8 in gret (Transitive depth)
  else gfail tt.
Definition get_weighting : Get unit VouchWeighting :=
  get* friend := q get_u32 in get* contact := q get_u32 in get* stranger := q get_u32 in
  gret (mkWeighting friend contact stranger).
Definition get_threshold : Get unit Threshold :=
  get* tag := q get_u8 in
  if decide (tag = 0) then get* c := q get_u32 in gret (Count c)
  else if decide (tag = 1) then get* p := q get_u8 in gret (Percent p)
  else gfail tt.

Definition policy_read : Get unit VouchPolicy :=
  get* eligibility := get_eligibility in
  get* weighting := get_weighting in
  get* threshold := get_threshold in
  get* rounds := q get_u32 in
  gret (mkPolicy eligibility weighting threshold rounds).

Definition policy_decode (b : bytes) : option VouchPolicy := to_option (run_get (strict policy_read) b).

(** ** Evaluation *)

Record VoucherView : Type := mkView {
  vv_voucher_fp : bytes; vv_relationship : Relationship; vv_rounds_since_witnessed : Z;
  vv_grouping : option bytes }.

Record VouchDecision : Type := mkDecision {
  vd_weighted_score : Z; vd_vouched : bool; vd_inflation_rejected : bool; vd_flagged : list bytes }.

Definition age_decay (rounds interval : Z) : Z :=
  if decide (interval = 0 \/ rounds >= interval) then 0
  else (interval - rounds) * 1000 / interval.

Definition eligible (v : VoucherView) (e : VoucherEligibility) : bool :=
  match e with
  | AnyLinked => true
  | ContactsOfViewer => match vv_relationship v with Friend | Contact_ => true | Stranger => false end
  | Transitive _ => true
  end.

(** [.iter().map(f).sum()] *)
Definition zsum {A} (f : A -> Z) (l : list A) : Z := foldr (fun a s => f a + s) 0 l.

Definition eligibles (vs : list VoucherView) (p : VouchPolicy) : list VoucherView :=
  filter (fun v => Is_true (eligible v (vp_eligibility p))) vs.

Definition view_weight (p : VouchPolicy) (v : VoucherView) : Z := weight_for (vp_weighting p) (vv_relationship v).

Definition meets_threshold (score : Z) (vs : list VoucherView) (p : VouchPolicy) : bool :=
  match vp_threshold p with
  | Count c => bool_decide (score >= c)
  | Percent pc =>
      let max := zsum (view_weight p) (eligibles vs p) in
      if decide (max = 0) then false else bool_decide (Z.max score 0 * 100 >= pc * max)
  end.

Definition is_vouched (score : Z) (threshold_met : bool) : bool := bool_decide (score >= 0) && threshold_met.

Definition decayed (p : VouchPolicy) (v : VoucherView) : Z :=
  let base := view_weight p v in
  let permille := age_decay (vv_rounds_since_witnessed v) (vp_freshness_interval_rounds p) in
  (base * permille + 500) / 1000.

(** The first loop: members by grouping, and the ungrouped. *)
Fixpoint group_views (vs : list VoucherView) (m : gmap bytes (list VoucherView)) (ss : list VoucherView)
    : gmap bytes (list VoucherView) * list VoucherView :=
  match vs with
  | [] => (m, ss)
  | v :: vs =>
      match vv_grouping v with
      | Some g => group_views vs (<[g := default [] (m !! g) ++ [v]]> m) ss
      | None => group_views vs m (ss ++ [v])
      end
  end.

(** The loop over the groupings. *)
Fixpoint backfire (p : VouchPolicy) (groups : list (bytes * list VoucherView)) (acc : Z * bool * list bytes)
    : Z * bool * list bytes :=
  match groups with
  | [] => acc
  | (_, members) :: groups =>
      let '(score, rejected, flagged) := acc in
      let cluster := zsum (decayed p) members in
      backfire p groups
        (if decide (zlen members >= 2) then (score - cluster, true, flagged ++ (vv_voucher_fp <$> members))
         else (score + cluster, rejected, flagged))
  end.

Definition evaluate (vs : list VoucherView) (p : VouchPolicy) : VouchDecision :=
  let '(by_grouping, singletons) := group_views (eligibles vs p) ∅ [] in
  let score := zsum (decayed p) singletons in
  let '(score, inflation_rejected, flagged) := backfire p (map_to_list by_grouping) (score, false, []) in
  let vouched := is_vouched score (meets_threshold score vs p) in
  mkDecision score vouched inflation_rejected flagged.

(** ** Wire forms *)

Definition target_tag (t : VouchTarget) : Z := match t with TAccount _ => 0 | TNameBinding _ _ => 1 | TLeaf _ => 2 end.
Definition target_body (t : VouchTarget) : bytes :=
  match t with
  | TAccount fp | TLeaf fp => enc_bytes fp
  | TNameBinding account name_tag => enc_bytes account ++ enc_bytes name_tag
  end.
Definition target_ok (t : VouchTarget) : Prop :=
  match t with
  | TAccount fp | TLeaf fp => length fp = 48%nat
  | TNameBinding account name_tag => length account = 48%nat /\ length name_tag = 8%nat
  end.
Definition enc_target (t : VouchTarget) : bytes := [byte_of (target_tag t)] ++ target_body t.

#[export] Instance target_ok_dec t : Decision (target_ok t).
Proof. destruct t; apply _. Defined.

Lemma target_encode_norm t : target_encode t = enc_target t.
Proof. destruct t; unfold target_encode, enc_target; by wire_norm. Qed.

#[export] Instance codec_target : Codec target_read enc_target target_ok.
Proof.
  apply codec_tagged; [intros []; cbn; unfold is_u8; lia|]. intros t.
  case_decide; [|case_decide; [|case_decide]]; subst.
  - apply (codec_con _ TAccount _ _ _ _ (codec_sized 48 tt ltac:(by vm_compute))); [done|].
    intros []; cbn; naive_solver.
  - apply (codec_con2 _ _ TNameBinding _ _ _ _ _ _ (codec_sized 48 tt ltac:(by vm_compute))
      (codec_sized 8 tt ltac:(by vm_compute))); [done|]. intros []; cbn; naive_solver.
  - apply (codec_con _ TLeaf _ _ _ _ (codec_sized 48 tt ltac:(by vm_compute))); [done|].
    intros []; cbn; naive_solver.
  - apply codec_fail. intros []; cbn; lia.
Qed.

Lemma enc_target_short t : target_ok t -> zlen (enc_target t) <= 65.
Proof.
  unfold enc_target. rewrite zlen_app. intros Ht.
  destruct t; cbn [target_body target_ok] in *; rewrite ?zlen_app, !zlen_enc_bytes; unfold zlen in *; cbn; lia.
Qed.

Record vouch_ok (v : Vouch) : Prop := {
  vo_target : target_ok (vc_target v); vo_context : length (vc_context v) = 32%nat;
  vo_epoch : is_u64 (vc_epoch v); vo_asserted : is_u64 (vc_asserted_at v);
  vo_sig : short (vc_sig v); vo_voucher : short (sig_vk (vc_voucher v)) }.

Lemma vouch_decode_exact b v : zlen b <= usize_max -> (vouch_decode b = Some v <-> vouch_ok v /\ b = vouch_encode v).
Proof.
  intros Hb. unfold vouch_decode. rewrite to_option_Some.
  rewrite (codec_exact vouch_read (fun v => enc_bytes (enc_target (vc_target v)) ++ enc_bytes (vc_context v) ++
    enc_halves (vc_epoch v) ++ enc_halves (vc_asserted_at v) ++ enc_bytes (vc_sig v) ++
    enc_bytes (sig_vk (vc_voucher v))) vouch_ok b v); [|record_codec vouch_read|done].
  - unfold vouch_encode. wire_norm. by rewrite target_encode_norm.
  - field vc_target. field vc_context. field vc_epoch. field vc_asserted_at. field vc_sig.
    field (fun v => sig_vk (vc_voucher v)). apply codec_ret. intros [? ? ? ? ? []]; cbn; naive_solver.
  - intros x. split; [intros (?&?); destruct_and?; by split|].
    intros []. split; [|done]. split_and!; try done. pose proof (enc_target_short _ vo_target0). unfold short, MAX_FRAME. lia.
  - intros x _. cbn. by rewrite app_nil_r.
Qed.

Lemma signed_bytes_norm v : signed_bytes v =
  enc_bytes VOUCH_SIG_LABEL ++ enc_bytes (enc_target (vc_target v)) ++ enc_bytes (vc_context v) ++
  enc_halves (vc_epoch v) ++ enc_halves (vc_asserted_at v).
Proof. unfold signed_bytes, vouch_signed_bytes. wire_norm. by rewrite target_encode_norm. Qed.

Lemma enc_target_inj s t : target_ok s -> target_ok t -> enc_target s = enc_target t -> s = t.
Proof.
  intros Hs Ht E. pose proof (enc_target_short s Hs). 
  assert (zlen (enc_target s) <= usize_max) as Hu by (unfold usize_max; lia).
  pose proof (proj2 (codec_exact target_read _ _ _ s codec_target Hu) (conj Hs eq_refl)) as E1.
  pose proof (proj2 (codec_exact target_read _ _ (enc_target s) t codec_target Hu) (conj Ht E)) as E2.
  congruence.
Qed.

(** ** Policies on the wire *)

Definition elig_tag (e : VoucherEligibility) : Z := match e with AnyLinked => 0 | ContactsOfViewer => 1 | Transitive _ => 2 end.
Definition elig_body (e : VoucherEligibility) : bytes := match e with Transitive d => [byte_of d] | _ => [] end.
Definition elig_ok (e : VoucherEligibility) : Prop := match e with Transitive d => is_u8 d | _ => True end.
Definition thr_tag (t : Threshold) : Z := match t with Count _ => 0 | Percent _ => 1 end.
Definition thr_body (t : Threshold) : bytes := match t with Count c => be_bytes 4 c | Percent p => [byte_of p] end.
Definition thr_ok (t : Threshold) : Prop := match t with Count c => is_u32 c | Percent p => is_u8 p end.
Definition weighting_ok (w : VouchWeighting) : Prop := is_u32 (vw_friend w) /\ is_u32 (vw_contact w) /\ is_u32 (vw_stranger w).

#[export] Instance codec_eligibility :
  Codec get_eligibility (fun e => [byte_of (elig_tag e)] ++ elig_body e) elig_ok.
Proof.
  apply codec_tagged; [intros []; cbn; unfold is_u8; lia|]. intros t.
  case_decide; [|case_decide; [|case_decide]]; subst.
  - apply codec_con0; [done|]. intros []; cbn; naive_solver.
  - apply codec_con0; [done|]. intros []; cbn; naive_solver.
  - apply (codec_con _ Transitive _ _ _ _ codec_u8); [done|]. intros []; cbn; naive_solver.
  - apply codec_fail. intros []; cbn; lia.
Qed.

#[export] Instance codec_threshold : Codec get_threshold (fun t => [byte_of (thr_tag t)] ++ thr_body t) thr_ok.
Proof.
  apply codec_tagged; [intros []; cbn; unfold is_u8; lia|]. intros t. case_decide; [|case_decide]; subst.
  - apply (codec_con _ Count _ _ _ _ codec_u32); [done|]. intros []; cbn; naive_solver.
  - apply (codec_con _ Percent _ _ _ _ codec_u8); [done|]. intros []; cbn; naive_solver.
  - apply codec_fail. intros []; cbn; lia.
Qed.

#[export] Instance codec_weighting :
  Codec get_weighting (fun w => be_bytes 4 (vw_friend w) ++ be_bytes 4 (vw_contact w) ++ be_bytes 4 (vw_stranger w)) weighting_ok.
Proof.
  record_codec get_weighting.
  { field vw_friend. field vw_contact. field vw_stranger. record_done. }
  - intros []. unfold weighting_ok. cbn. naive_solver.
  - intros x _. cbn. by rewrite app_nil_r.
Qed.

Record policy_ok (p : VouchPolicy) : Prop := {
  po_elig : elig_ok (vp_eligibility p); po_weights : weighting_ok (vp_weighting p);
  po_thr : thr_ok (vp_threshold p); po_rounds : is_u32 (vp_freshness_interval_rounds p) }.

Lemma policy_decode_exact b p : zlen b <= usize_max -> (policy_decode b = Some p <-> policy_ok p /\ b = policy_encode p).
Proof.
  intros Hb. unfold policy_decode. rewrite to_option_Some.
  erewrite (codec_exact policy_read _ policy_ok b p); [|record_codec policy_read|done].
  2: { field vp_eligibility. field vp_weighting. field vp_threshold. field vp_freshness_interval_rounds. record_done. }
  2: { intros []. split; [intros (?&?); destruct_and?; by split|intros []; naive_solver]. }
  2: done.
  destruct p as [[| |d] [] [] ?]; unfold policy_encode, put_eligibility, put_threshold; cbn; wire_norm; done.
Qed.

(** ** Sums *)

Lemma zsum_app {A} (f : A -> Z) l k : zsum f (l ++ k) = zsum f l + zsum f k.
Proof. unfold zsum. induction l; cbn in *; lia. Qed.

Lemma zsum_ext {A} (f g : A -> Z) l : (forall a, a ∈ l -> f a = g a) -> zsum f l = zsum g l.
Proof.
  intros H. induction l as [|a l IH]; [done|]. cbn. rewrite (H a) by (apply list_elem_of_here).
  f_equal. apply IH. intros b Hb. apply H. by apply list_elem_of_further.
Qed.

Lemma zsum_opp {A} (f : A -> Z) l : zsum (fun a => - f a) l = - zsum f l.
Proof. unfold zsum. induction l; cbn in *; lia. Qed.

Lemma zsum_le {A} (f g : A -> Z) l : (forall a, a ∈ l -> f a <= g a) -> zsum f l <= zsum g l.
Proof.
  intros H. induction l as [|a l IH]; [done|]. cbn.
  pose proof (H a (list_elem_of_here _ _)). specialize (IH (fun b Hb => H b (list_elem_of_further _ _ _ Hb))).
  unfold zsum in IH. lia.
Qed.

#[export] Instance zsum_proper {A} (f : A -> Z) : Proper ((≡ₚ) ==> eq) (zsum f).
Proof. intros l k H. unfold zsum. induction H; cbn; lia. Qed.

Lemma filter_every {A} (Q : A -> Prop) {D : forall x, Decision (Q x)} (l : list A) : (forall x, x ∈ l -> Q x) -> filter Q l = l.
Proof.
  intros H. induction l as [|a l IH]; [done|]. rewrite filter_cons_True by (apply H; apply list_elem_of_here).
  f_equal. apply IH. intros x Hx. apply H. by apply list_elem_of_further.
Qed.

Lemma filter_no {A} (Q : A -> Prop) {D : forall x, Decision (Q x)} (l : list A) : (forall x, x ∈ l -> ~ Q x) -> filter Q l = [].
Proof.
  intros H. induction l as [|a l IH]; [done|]. rewrite filter_cons_False by (apply H; apply list_elem_of_here).
  apply IH. intros x Hx. apply H. by apply list_elem_of_further.
Qed.

(** ** Decay *)

Lemma age_decay_bounds rounds interval :
  0 <= rounds -> 0 <= interval -> 0 <= age_decay rounds interval <= 1000.
Proof.
  intros Hr Hi. unfold age_decay. case_decide as Hd; [lia|].
  split; [apply Z.div_pos; lia|]. apply Z.div_le_upper_bound; nia.
Qed.

(** A witnessed vouch only loses weight as rounds go by, and is worth nothing
    from the end of the window on. *)
Lemma age_decay_antitone r1 r2 interval :
  0 <= r1 <= r2 -> 0 <= interval -> age_decay r2 interval <= age_decay r1 interval.
Proof.
  intros Hr Hi. pose proof (age_decay_bounds r1 interval ltac:(lia) Hi). unfold age_decay in *.
  repeat case_decide; try lia. apply Z.div_le_mono; nia.
Qed.

Record view_ok (p : VouchPolicy) (v : VoucherView) : Prop := {
  vk_weights : weighting_ok (vp_weighting p); vk_interval : is_u32 (vp_freshness_interval_rounds p);
  vk_rounds : is_u32 (vv_rounds_since_witnessed v) }.

Lemma view_weight_u32 p v : weighting_ok (vp_weighting p) -> is_u32 (view_weight p v).
Proof. intros (? & ? & ?). unfold view_weight. by destruct (vv_relationship v). Qed.

Lemma decayed_bounds p v : view_ok p v -> 0 <= decayed p v <= view_weight p v.
Proof.
  intros [Hw Hi Hr]. unfold is_u32 in *. unfold decayed.
  pose proof (age_decay_bounds (vv_rounds_since_witnessed v) (vp_freshness_interval_rounds p) ltac:(lia) ltac:(lia)).
  pose proof (view_weight_u32 p v Hw) as [Hb _]. split; [apply Z.div_pos; nia|].
  enough ((view_weight p v * age_decay (vv_rounds_since_witnessed v) (vp_freshness_interval_rounds p) + 500) / 1000
    < view_weight p v + 1) by lia.
  apply Z.div_lt_upper_bound; nia.
Qed.

(** ** The evaluator computes the closed form *)

Definition in_group (g : bytes) (v : VoucherView) : Prop := vv_grouping v = Some g.
#[export] Instance in_group_dec g v : Decision (in_group g v).
Proof. unfold in_group. apply _. Defined.

(** Two or more of the vouchers carry [v]'s grouping. *)
Definition shared (es : list VoucherView) (v : VoucherView) : bool :=
  match vv_grouping v with
  | Some g => bool_decide (zlen (filter (in_group g) es) >= 2)
  | None => false
  end.

Definition contribution (p : VouchPolicy) (es : list VoucherView) (v : VoucherView) : Z :=
  if shared es v then - decayed p v else decayed p v.

Definition ref_score (vs : list VoucherView) (p : VouchPolicy) : Z :=
  zsum (contribution p (eligibles vs p)) (eligibles vs p).

Definition members (m : gmap bytes (list VoucherView)) : list VoucherView := mjoin (snd <$> map_to_list m).

Lemma members_insert g v m : members (<[g := default [] (m !! g) ++ [v]]> m) ≡ₚ v :: members m.
Proof.
  unfold members. destruct (m !! g) as [l|] eqn:E; cbn [default from_option id].
  - rewrite <- insert_delete_eq, map_to_list_insert by apply lookup_delete_eq.
    rewrite <- (map_to_list_delete m g l E). cbn. rewrite <- (assoc (++)). apply Permutation_sym, Permutation_middle.
  - by rewrite map_to_list_insert.
Qed.

Definition groupwise (g : bytes) (m : option (list VoucherView)) (vs : list VoucherView) : option (list VoucherView) :=
  match m, filter (in_group g) vs with
  | None, [] => None
  | m, l => Some (default [] m ++ l)
  end.

Definition ungrouped (v : VoucherView) : Prop := vv_grouping v = None.
#[export] Instance ungrouped_dec v : Decision (ungrouped v).
Proof. unfold ungrouped. apply _. Defined.

Lemma group_views_spec vs m ss :
  let r := group_views vs m ss in
  r.2 = ss ++ filter ungrouped vs /\
  members r.1 ≡ₚ members m ++ filter (fun v => ~ ungrouped v) vs /\
  forall g, r.1 !! g = groupwise g (m !! g) vs.
Proof.
  revert m ss. induction vs as [|v vs IH]; intros m ss; cbn [group_views].
  - cbn. rewrite !app_nil_r. split; [done|]. split; [done|]. intros g. unfold groupwise. cbn.
    destruct (m !! g); [by rewrite app_nil_r|done].
  - rewrite !filter_cons. destruct (vv_grouping v) as [g|] eqn:Eg.
    + destruct (IH (<[g := default [] (m !! g) ++ [v]]> m) ss) as (H1 & H2 & H3).
      unfold ungrouped. rewrite decide_False, decide_True by (unfold ungrouped; congruence).
      split; [done|]. split.
      * rewrite H2, members_insert. cbn. apply Permutation_middle.
      * intros g'. rewrite H3. unfold groupwise. rewrite filter_cons.
        destruct (decide (g = g')) as [<-|Hne].
        -- rewrite lookup_insert_eq, decide_True by done. destruct (m !! g); cbn; by rewrite <- ?(assoc (++)).
        -- rewrite lookup_insert_ne by done. rewrite decide_False by (unfold in_group; congruence). done.
    + destruct (IH m (ss ++ [v])) as (H1 & H2 & H3).
      rewrite decide_True by done. rewrite decide_False by (unfold ungrouped; tauto).
      split; [by rewrite H1, <- (assoc (++))|]. split; [done|]. intros g'. rewrite H3. unfold groupwise.
      rewrite filter_cons, decide_False by (unfold in_group; congruence). done.
Qed.

Definition cluster_score (p : VouchPolicy) (l : list VoucherView) : Z :=
  if decide (zlen l >= 2) then - zsum (decayed p) l else zsum (decayed p) l.
Definition big (x : bytes * list VoucherView) : Prop := zlen x.2 >= 2.
#[export] Instance big_dec x : Decision (big x).
Proof. unfold big. apply _. Defined.

Lemma backfire_spec p groups score rejected flagged :
  backfire p groups (score, rejected, flagged) =
  (score + zsum (fun x => cluster_score p x.2) groups, rejected || bool_decide (filter big groups <> []),
   flagged ++ (vv_voucher_fp <$> mjoin (snd <$> filter big groups))).
Proof.
  revert score rejected flagged. induction groups as [|[g l] groups IH]; intros; cbn [backfire zsum foldr].
  - cbn. by rewrite Z.add_0_r, app_nil_r, orb_false_r.
  - rewrite filter_cons. unfold cluster_score at 1. cbn [snd].
    case_decide as Hd; [rewrite decide_True by done|rewrite decide_False by done]; rewrite IH.
    + rewrite (bool_decide_true ((g, l) :: _ <> [])), orb_true_r by done. cbn.
      rewrite fmap_app, <- (assoc (++)). f_equal. f_equal. unfold zsum. lia.
    + f_equal. f_equal. unfold zsum. lia.
Qed.

Lemma zsum_mjoin {A} (f : A -> Z) (ll : list (list A)) : zsum f (mjoin ll) = zsum (zsum f) ll.
Proof. induction ll as [|l ll IH]; [done|]. change (mjoin (l :: ll)) with (l ++ mjoin ll). by rewrite zsum_app, IH. Qed.

Lemma zsum_fmap {A B} (f : B -> Z) (h : A -> B) l : zsum f (h <$> l) = zsum (fun a => f (h a)) l.
Proof. unfold zsum. induction l; cbn in *; congruence. Qed.

(** The map the first loop builds has the vouchers of each grouping. *)
Lemma group_members es g l :
  (group_views es ∅ []).1 !! g = Some l -> l = filter (in_group g) es.
Proof.
  destruct (group_views_spec es ∅ []) as (_ & _ & ->). unfold groupwise. rewrite lookup_empty.
  destruct (filter (in_group g) es); [done|]. by intros [= <-].
Qed.

Lemma shared_member es g l v :
  (group_views es ∅ []).1 !! g = Some l -> v ∈ l -> shared es v = bool_decide (zlen l >= 2).
Proof.
  intros ->%group_members Hv. apply list_elem_of_filter in Hv as [Hv _]. unfold shared, in_group in *. by rewrite Hv.
Qed.

Lemma cluster_contributions p es g l :
  (group_views es ∅ []).1 !! g = Some l -> cluster_score p l = zsum (contribution p es) l.
Proof.
  intros Hl. unfold cluster_score.
  rewrite (zsum_ext (contribution p es) (fun v => if bool_decide (zlen l >= 2) then - decayed p v else decayed p v)).
  - rewrite <- (zsum_opp (decayed p)). case_decide; [rewrite bool_decide_true by done|rewrite bool_decide_false by done]; done.
  - intros v Hv. unfold contribution. by rewrite (shared_member es g l v Hl Hv).
Qed.

Lemma score_is_ref vs p : vd_weighted_score (evaluate vs p) = ref_score vs p.
Proof.
  unfold evaluate, ref_score. set (es := eligibles vs p).
  pose proof (group_views_spec es ∅ []) as (H1 & H2 & _). pose proof (cluster_contributions p es) as Hc.
  destruct (group_views es ∅ []) as [m ss]. cbn [fst snd] in *. rewrite backfire_spec. cbn [vd_weighted_score].
  rewrite (zsum_ext (fun x => cluster_score p x.2) (fun x => zsum (contribution p es) x.2)).
  2: { intros [g l] Hin. apply elem_of_map_to_list in Hin. by apply (Hc g). }
  rewrite <- (zsum_fmap (zsum (contribution p es)) snd), <- zsum_mjoin. fold (members m). rewrite H2.
  change (members ∅) with (@nil VoucherView). cbn [app]. rewrite H1. cbn [app].
  rewrite (zsum_ext (decayed p) (contribution p es)).
  2: { intros v Hv. apply list_elem_of_filter in Hv as [Hv _]. unfold contribution, shared. by rewrite Hv. }
  rewrite <- zsum_app. apply zsum_proper, filter_app_complement.
Qed.

Lemma flagged_are_shared vs p :
  vd_flagged (evaluate vs p) ≡ₚ vv_voucher_fp <$> filter (fun v => shared (eligibles vs p) v = true) (eligibles vs p).
Proof.
  unfold evaluate. set (es := eligibles vs p).
  pose proof (group_views_spec es ∅ []) as (H1 & H2 & _). pose proof (shared_member es) as Hs.
  destruct (group_views es ∅ []) as [m ss]. cbn [fst snd] in *. rewrite backfire_spec. cbn [vd_flagged app].
  apply fmap_Permutation.
  assert (forall gs, gs ⊆ map_to_list m ->
    mjoin (snd <$> filter big gs) = filter (fun v => shared es v = true) (mjoin (snd <$> gs))) as Hgs.
  { induction gs as [|[g l] gs IH]; intros Hsub; [done|].
    change (mjoin (snd <$> (g, l) :: gs)) with (l ++ mjoin (snd <$> gs)).
    rewrite filter_cons, filter_app, <- IH by set_solver.
    assert ((g, l) ∈ map_to_list m) as Hin%elem_of_map_to_list by set_solver. unfold big at 1. cbn [snd].
    case_decide as Hd.
    - change (mjoin (snd <$> (g, l) :: filter big gs)) with (l ++ mjoin (snd <$> filter big gs)). f_equal.
      symmetry. apply filter_every. intros v Hv. rewrite (Hs g l v Hin Hv). by apply bool_decide_true.
    - replace (filter _ l) with (@nil VoucherView); [done|]. symmetry. apply filter_no.
      intros v Hv. rewrite (Hs g l v Hin Hv), bool_decide_false by done. done. }
  rewrite Hgs by done. fold (members m). rewrite H2. change (members ∅) with (@nil VoucherView). cbn [app].
  rewrite list_filter_filter. apply Permutation_refl', list_filter_iff. intros v. unfold shared, ungrouped.
  destruct (vv_grouping v); naive_solver.
Qed.

Lemma rejected_flagged vs p :
  vd_inflation_rejected (evaluate vs p) = bool_decide (vd_flagged (evaluate vs p) <> []).
Proof.
  unfold evaluate. destruct (group_views (eligibles vs p) ∅ []) as [m ss]. rewrite backfire_spec.
  cbn [vd_inflation_rejected vd_flagged orb app]. apply bool_decide_ext.
  destruct (filter big (map_to_list m)) as [|[g l] gs] eqn:E; [done|].
  assert (big (g, l)) as Hb.
  { apply (list_elem_of_filter big (map_to_list m)). rewrite E. apply list_elem_of_here. }
  destruct l as [|v l]; [by vm_compute in Hb|done].
Qed.

Lemma vouched_spec vs p :
  vd_vouched (evaluate vs p) = is_vouched (ref_score vs p) (meets_threshold (ref_score vs p) vs p).
Proof.
  rewrite <- score_is_ref. unfold evaluate. destruct (group_views (eligibles vs p) ∅ []) as [m ss].
  destruct (backfire p (map_to_list m) _) as [[sc rj] fl]. done.
Qed.

(** C36: the evaluator's grouping map and loops compute a closed form.  Every
    eligible voucher contributes its decayed weight, negated exactly when a
    second eligible voucher is known to belong to the same grouping; those
    vouchers, and no others, are flagged; inflation is reported exactly when
    there is one; and the subject counts as vouched exactly when the sum is not
    negative and meets the threshold.  The order in which the hash maps are
    walked does not matter. *)
Theorem evaluate_closed_form (vs : list VoucherView) (p : VouchPolicy) :
  let d := evaluate vs p in
  let es := eligibles vs p in
  vd_weighted_score d = zsum (fun v => if shared es v then - decayed p v else decayed p v) es /\
  vd_flagged d ≡ₚ vv_voucher_fp <$> filter (fun v => shared es v = true) es /\
  (vd_inflation_rejected d = true <-> exists v, v ∈ es /\ shared es v = true) /\
  (vd_vouched d = true <->
     vd_weighted_score d >= 0 /\ meets_threshold (vd_weighted_score d) vs p = true).
Proof.
  cbv zeta. split; [apply score_is_ref|]. pose proof (flagged_are_shared vs p) as Hf. split; [done|]. split.
  - rewrite rejected_flagged, bool_decide_eq_true. split.
    + intros Hn. destruct (filter (fun v => shared (eligibles vs p) v = true) (eligibles vs p)) as [|v l] eqn:E.
      { by apply Permutation_nil_r in Hf. }
      exists v. assert (v ∈ v :: l) as Hv by apply list_elem_of_here. rewrite <- E in Hv.
      apply list_elem_of_filter in Hv. tauto.
    + intros (v & Hv & Hs) E. rewrite E in Hf. symmetry in Hf. apply Permutation_nil_r, fmap_nil_inv in Hf.
      exact (filter_nil_not_elem_of _ _ v Hf Hs Hv).
  - rewrite vouched_spec, score_is_ref. unfold is_vouched. by rewrite andb_true_iff, bool_decide_eq_true.
Qed.

(** *** One voucher more *)

Lemma shared_cons_other es v u :
  vv_grouping u <> vv_grouping v -> shared (v :: es) u = shared es u.
Proof.
  intros Hne. unfold shared. destruct (vv_grouping u) as [g|] eqn:Eu; [|done].
  rewrite filter_cons_False; [done|]. unfold in_group. congruence.
Qed.

Lemma shared_in_group es g v : in_group g v -> shared es v = bool_decide (zlen (filter (in_group g) es) >= 2).
Proof. unfold shared, in_group. by intros ->. Qed.

Lemma zsum_split {A} (f : A -> Z) (Q : A -> Prop) {D : forall x, Decision (Q x)} (l : list A) :
  zsum f l = zsum f (filter Q l) + zsum f (filter (fun x => ~ Q x) l).
Proof. rewrite <- zsum_app. apply zsum_proper, Permutation_sym, filter_app_complement. Qed.

(** What one more eligible voucher of grouping [g] changes. *)
Definition fellow_delta (p : VouchPolicy) (fellows : list VoucherView) (v : VoucherView) : Z :=
  match fellows with
  | [] => decayed p v
  | [w] => - decayed p v - 2 * decayed p w
  | _ => - decayed p v
  end.

Lemma contributions_grow p es g v :
  in_group g v ->
  zsum (contribution p (v :: es)) (v :: es) =
  zsum (contribution p es) es + fellow_delta p (filter (in_group g) es) v.
Proof.
  intros Hv. change (zsum ?f (v :: ?l)) with (f v + zsum f l) at 1.
  rewrite (zsum_split (contribution p (v :: es)) (in_group g) es), (zsum_split (contribution p es) (in_group g) es).
  rewrite (zsum_ext (contribution p (v :: es)) (contribution p es) (filter (fun x => ~ in_group g x) es)).
  2: { intros u Hu. apply list_elem_of_filter in Hu as [Hu _]. unfold contribution.
       rewrite shared_cons_other; [done|]. unfold in_group in *. congruence. }
  set (l := filter (in_group g) es).
  assert (forall u, u ∈ l -> in_group g u) as Hl by (intros u Hu; by apply list_elem_of_filter in Hu as [? _]).
  rewrite (zsum_ext (contribution p (v :: es)) (fun u => if bool_decide (zlen l >= 1) then - decayed p u else decayed p u) l).
  2: { intros u Hu. unfold contribution. rewrite (shared_in_group _ g u) by auto. rewrite filter_cons_True by done.
       fold l. rewrite zlen_cons. rewrite (bool_decide_ext (1 + zlen l >= 2) (zlen l >= 1)) by lia. done. }
  rewrite (zsum_ext (contribution p es) (fun u => if bool_decide (zlen l >= 2) then - decayed p u else decayed p u) l).
  2: { intros u Hu. unfold contribution. by rewrite (shared_in_group _ g u) by auto. }
  unfold contribution at 1. rewrite (shared_in_group _ g v Hv), filter_cons_True by done. fold l. rewrite zlen_cons.
  destruct l as [|w [|w' l']]; cbn [fellow_delta].
  - rewrite bool_decide_false by (rewrite zlen_nil; lia). cbn [zsum foldr]. lia.
  - rewrite !bool_decide_true, bool_decide_false by (rewrite !zlen_cons, ?zlen_nil; lia). cbn [zsum foldr]. lia.
  - pose proof (zlen_nonneg l'). rewrite !bool_decide_true by (rewrite !zlen_cons; lia). lia.
Qed.

Lemma contributions_grow_single p es v :
  vv_grouping v = None ->
  zsum (contribution p (v :: es)) (v :: es) = zsum (contribution p es) es + decayed p v.
Proof.
  intros Hv. change (zsum ?f (v :: ?l)) with (f v + zsum f l) at 1.
  rewrite (zsum_ext (contribution p (v :: es)) (contribution p es) es).
  - unfold contribution at 1, shared. rewrite Hv. lia.
  - intros u _. unfold contribution, shared. destruct (vv_grouping u) as [g|]; [|done].
    rewrite filter_cons_False; [done|]. unfold in_group. congruence.
Qed.

Lemma eligibles_cons v vs p :
  eligible v (vp_eligibility p) = true -> eligibles (v :: vs) p = v :: eligibles vs p.
Proof. intros H. unfold eligibles. rewrite filter_cons_True; [done|]. by rewrite H. Qed.

Lemma zsum_nonneg {A} (f : A -> Z) l : (forall a, a ∈ l -> 0 <= f a) -> 0 <= zsum f l.
Proof. intros H. replace 0 with (zsum (fun _ : A => 0) l); [by apply zsum_le|]. unfold zsum. induction l; cbn in *; [done|].
  rewrite IHl; [done|]. intros b Hb. apply H. by apply list_elem_of_further. Qed.

Lemma eligible_weights vs p : weighting_ok (vp_weighting p) -> 0 <= zsum (view_weight p) (eligibles vs p).
Proof. intros Hw. apply zsum_nonneg. intros v _. by destruct (view_weight_u32 p v Hw). Qed.

Lemma score_le_weights vs p :
  Forall (view_ok p) (eligibles vs p) -> Z.abs (ref_score vs p) <= zsum (view_weight p) (eligibles vs p).
Proof.
  intros Hok. unfold ref_score. set (es' := eligibles vs p) at 1. clearbody es'.
  induction Hok as [|v es Hv _ IH]; [done|]. cbn.
  pose proof (decayed_bounds p v Hv). unfold zsum in IH.
  unfold contribution at 1. destruct (shared es' v); lia.
Qed.

Lemma view_ok_of p v : policy_ok p -> is_u32 (vv_rounds_since_witnessed v) -> view_ok p v.
Proof. intros [] ?. by split. Qed.

Lemma weights_bound p l : weighting_ok (vp_weighting p) -> zsum (view_weight p) l <= zlen l * u32_max.
Proof.
  intros Hw. induction l as [|v l IH]; [done|]. rewrite zlen_cons. cbn. destruct (view_weight_u32 p v Hw). unfold zsum, u32_max in *. lia.
Qed.

(** The evaluator adds in [i64] and [u64]; up to [2^24] vouchers nothing wraps: no sum
    of weights, whatever the signs, and none of the products of the percentage test. *)
Lemma evaluate_in_range vs p :
  policy_ok p -> Forall (fun v => is_u32 (vv_rounds_since_witnessed v)) vs -> zlen vs <= 2 ^ 24 ->
  let max := zsum (view_weight p) (eligibles vs p) in
  zsum (decayed p) (eligibles vs p) <= max /\ Z.abs (vd_weighted_score (evaluate vs p)) <= max /\ 0 <= max /\ 255 * max < 2 ^ 64.
Proof.
  intros Hp Hr Hl. cbv zeta. assert (Forall (view_ok p) (eligibles vs p)) as Hok.
  { apply Forall_forall. intros w [_ Hin]%list_elem_of_filter. apply view_ok_of; [done|]. rewrite Forall_forall in Hr. by apply Hr. }
  split. { apply zsum_le. intros v Hv. rewrite Forall_forall in Hok. by apply decayed_bounds, Hok. }
  split; [rewrite score_is_ref; by apply score_le_weights|]. split; [by apply eligible_weights, po_weights|].
  pose proof (weights_bound p (eligibles vs p) (po_weights p Hp)) as Hb.
  assert (zlen (eligibles vs p) <= zlen vs) by (unfold zlen; apply inj_le, length_filter). unfold u32_max in Hb. lia.
Qed.

Lemma flagged_newcomer vs p g v :
  policy_ok p -> vv_grouping v = Some g -> eligible v (vp_eligibility p) = true ->
  filter (in_group g) (eligibles vs p) <> [] -> vv_voucher_fp v ∈ vd_flagged (evaluate (v :: vs) p).
Proof.
  intros Hp Eg He Hn. rewrite flagged_are_shared, eligibles_cons by done. apply list_elem_of_fmap_2, list_elem_of_filter.
  split; [|apply list_elem_of_here]. rewrite (shared_in_group _ g v Eg), filter_cons_True by done.
  apply bool_decide_true. rewrite zlen_cons. destruct (filter _ _) as [|w l]; [done|]. rewrite zlen_cons.
  pose proof (zlen_nonneg l). lia.
Qed.

Lemma vouched_antitone vs p v :
  policy_ok p -> Forall (fun w => is_u32 (vv_rounds_since_witnessed w)) vs -> eligible v (vp_eligibility p) = true ->
  ref_score (v :: vs) p <= ref_score vs p -> vp_threshold p <> Percent 0 ->
  vd_vouched (evaluate (v :: vs) p) = true -> vd_vouched (evaluate vs p) = true.
Proof.
  intros Hp Hr He Hle Ht. rewrite !vouched_spec. unfold is_vouched. rewrite !andb_true_iff, !bool_decide_eq_true.
  intros [H0 Hm]. split; [lia|]. revert Hm. unfold meets_threshold. rewrite eligibles_cons by done.
  pose proof (po_thr p Hp) as Hto. destruct (vp_threshold p) as [c|pc]; [rewrite !bool_decide_eq_true; lia|].
  change (zsum (view_weight p) (v :: eligibles vs p)) with (view_weight p v + zsum (view_weight p) (eligibles vs p)).
  pose proof (eligible_weights vs p (po_weights p Hp)) as Hm. cbn [thr_ok] in Hto. unfold is_u8 in Hto.
  assert (pc <> 0) by congruence. destruct (view_weight_u32 p v (po_weights p Hp)) as [Hw _].
  assert (Z.abs (ref_score vs p) <= zsum (view_weight p) (eligibles vs p)) as Ha.
  { apply score_le_weights. apply Forall_forall. intros w Hin. apply list_elem_of_filter in Hin as [_ Hin].
    apply view_ok_of; [done|]. rewrite Forall_forall in Hr. by apply Hr. }
  repeat case_decide; try done; rewrite !bool_decide_eq_true; nia.
Qed.

(** The sybil antibody.  One more voucher from a grouping that already
    vouches for the subject never raises the score: it lowers it by the new
    voucher's own weight, and takes back the first one's, so that presenting a
    second identity of the same operator is never worth while.  The inflation is
    reported, the newcomer is flagged, and a subject that was not vouched for
    does not become vouched for (a zero percent bar apart).  A voucher that
    shares no grouping adds exactly its decayed weight. *)
Lemma inflation_backfires (vs : list VoucherView) (p : VouchPolicy) (v : VoucherView) :
  policy_ok p -> Forall (fun w => is_u32 (vv_rounds_since_witnessed w)) (v :: vs) ->
  eligible v (vp_eligibility p) = true ->
  let fellows := filter (fun w => vv_grouping w = vv_grouping v) (eligibles vs p) in
  let before := evaluate vs p in let after := evaluate (v :: vs) p in
  match vv_grouping v, fellows with
  | Some _, w :: ws =>
      vd_weighted_score after = vd_weighted_score before - decayed p v - (if decide (ws = []) then 2 * decayed p w else 0) /\
      vd_weighted_score after <= vd_weighted_score before /\
      vd_inflation_rejected after = true /\ vv_voucher_fp v ∈ vd_flagged after /\
      (vp_threshold p <> Percent 0 -> vd_vouched after = true -> vd_vouched before = true)
  | _, _ => vd_weighted_score after = vd_weighted_score before + decayed p v
  end.
Proof.
  intros Hp Hr He fellows before after. pose proof (eligibles_cons v vs p He) as Ec.
  unfold before, after. destruct (vv_grouping v) as [g|] eqn:Eg.
  2: { rewrite !score_is_ref. unfold ref_score. rewrite Ec. by apply contributions_grow_single. }
  pose proof (contributions_grow p (eligibles vs p) g v Eg) as Hg. rewrite <- Ec in Hg. fold (ref_score (v :: vs) p) in Hg.
  fold (ref_score vs p) in Hg. rewrite !score_is_ref.
  change fellows with (filter (in_group g) (eligibles vs p)).
  pose proof (flagged_newcomer vs p g v Hp Eg He) as Hf.
  destruct (filter (in_group g) (eligibles vs p)) as [|w ws] eqn:Ef; [done|]. specialize (Hf ltac:(done)).
  assert (view_ok p v) as Hv by (apply view_ok_of; [done|by inversion Hr]).
  assert (view_ok p w) as Hw.
  { apply view_ok_of; [done|]. assert (w ∈ w :: ws) as Hin by apply list_elem_of_here. rewrite <- Ef in Hin.
    apply list_elem_of_filter in Hin as [_ Hin]. apply list_elem_of_filter in Hin as [_ Hin].
    rewrite Forall_forall in Hr. apply Hr. by apply list_elem_of_further. }
  pose proof (decayed_bounds p v Hv). pose proof (decayed_bounds p w Hw).
  assert (ref_score (v :: vs) p =
    ref_score vs p - decayed p v - (if decide (ws = []) then 2 * decayed p w else 0)) as Hs.
  { rewrite Hg. destruct ws; cbn [fellow_delta]; [rewrite decide_True by done|rewrite decide_False by done]; lia. }
  assert (ref_score (v :: vs) p <= ref_score vs p) as Hle by (rewrite Hs; case_decide; lia).
  split; [done|]. split; [done|]. split; [|split; [done|]].
  - rewrite rejected_flagged. apply bool_decide_true. intros E. rewrite E in Hf. by apply not_elem_of_nil in Hf.
  - apply (vouched_antitone vs p v); [done| |done..]. by inversion Hr.
Qed.

(** *** A concrete chat: three vouchers, two of them one operator's *)

Definition demo_policy : VouchPolicy := mkPolicy AnyLinked default_weighting (Count 1) 64.
Definition honest_view : VoucherView := mkView (bstr "honest") Stranger 0 None.
Definition sock1 : VoucherView := mkView (bstr "sock1") Stranger 0 (Some (bstr "g")).
Definition sock2 : VoucherView := mkView (bstr "sock2") Stranger 0 (Some (bstr "g")).

Lemma inflation_backfires_witness :
  vd_weighted_score (evaluate [sock2; sock1; honest_view] demo_policy) = -1 /\
  vd_weighted_score (evaluate [sock2; sock1; honest_view] demo_policy)
    <= vd_weighted_score (evaluate [sock1; honest_view] demo_policy).
Proof.
  split; [vm_compute; reflexivity|].
  refine (proj1 (proj2 (inflation_backfires [sock1; honest_view] demo_policy sock2 _ _ _))).
  - split; [exact I|repeat split; vm_compute; discriminate || reflexivity|split; vm_compute; discriminate || reflexivity..].
  - repeat constructor; vm_compute; discriminate || reflexivity.
  - reflexivity.
Defined.

(** The backfire hits the subject, not the operator: two identities of one
    grouping that vouch for a stranger take away the standing its honest voucher
    gave it. *)
Lemma socks_unvouch_a_stranger :
  vd_vouched (evaluate [honest_view] demo_policy) = true /\
  vd_vouched (evaluate [honest_view; sock1; sock2] demo_policy) = false.
Proof. vm_compute. done. Qed.
