(* ===== verification/Contacts.v ===== *)
(** * Contacts and account resolution (crates/core/src/contacts.rs)

    A peer presents the certificate chain that ties its authenticated device to
    an account; [resolve_chain] binds the chain to the device and looks the
    account up among the contacts.  The contact list is proved to be a map from
    accounts to names and labels. *)

From S2P Require Import Prelude Wire Crypto Marking Frames Codec Account Relay.

(** ** Presentations *)

Record Presentation : Type := mkPresentation { pr_chain : IdentityChain; pr_username : option bytes }.

#[export] Instance presentation_eq_dec : EqDecision Presentation.
Proof. solve_decision. Defined.

Definition pres_encode (p : Presentation) : bytes :=
  let w := w_new |> put_bytes (chain_encode (pr_chain p)) in
  into_vec (match pr_username p with
            | Some u => w |> put_u8 1 |> put_bytes u
            | None => w |> put_u8 0
            end).

Definition get_username : Get CoreError (option bytes) :=
  get* tag := q get_u8 in
  if decide (tag = 0) then gret None
  else if decide (tag = 1) then
    get* u := text (CCrypto (Malformed "username utf-8")) in gret (Some u)
  else gfail (CCrypto (Malformed "presentation username tag")).

Definition pres_read : Get CoreError Presentation :=
  get* cb := q get_bytes in
  get* chain := glift (map_err CCrypto (chain_decode cb)) in
  get* username := get_username in
  gret (mkPresentation chain username).

(** [r.finish().map_err(|_| e)?] at the end of a decoder *)
Definition strict_err {E A} (err : E) (g : Get E A) : Get E A :=
  get* x := g in get* _ := (fun r => map_err (fun _ => err) (finish r)) in gret x.

Definition pres_decode (b : bytes) : result CoreError Presentation :=
  run_get (strict_err (CCrypto (Malformed "presentation trailing bytes")) pres_read) b.

(** ** The contact list *)

Record Contact : Type := mkContact {
  co_account : IdentityPublic; co_fingerprint : bytes; co_name : option bytes; co_friend : bool }.

Definition ContactStore : Type := list Contact.

Definition is_contact (s : ContactStore) (account : IdentityPublic) : bool :=
  existsb (fun c => bool_decide (co_account c = account)) s.
Definition is_friend (s : ContactStore) (account : IdentityPublic) : bool :=
  existsb (fun c => bool_decide (co_account c = account) && co_friend c) s.
Definition get_contact (s : ContactStore) (account : IdentityPublic) : option Contact :=
  List.find (fun c => bool_decide (co_account c = account)) s.

(** [iter_mut().find(..)]: change the first entry of [account], if there is one. *)
Fixpoint update_first (f : Contact -> Contact) (account : IdentityPublic) (s : ContactStore) : option ContactStore :=
  match s with
  | [] => None
  | c :: s => if decide (co_account c = account) then Some (f c :: s) else cons c <$> update_first f account s
  end.

Section Contacts.
Context {P : Primitives} (sha3_384 : bytes -> bytes).

Definition store_add (account : IdentityPublic) (name : option bytes) (friend : bool) (s : ContactStore) : ContactStore :=
  let fp := id_fingerprint sha3_384 account in
  match update_first (fun c => mkContact (co_account c) (co_fingerprint c) name friend) account s with
  | Some s => s
  | None => s ++ [mkContact account fp name friend]
  end.

Definition store_set_friend (account : IdentityPublic) (friend : bool) (s : ContactStore) : bool * ContactStore :=
  match update_first (fun c => mkContact (co_account c) (co_fingerprint c) (co_name c) friend) account s with
  | Some s => (true, s)
  | None => (false, s)
  end.

Record Resolved : Type := mkResolved {
  res_account : IdentityPublic; res_account_fingerprint : bytes; res_leaf_fingerprint : bytes;
  res_contact : bool; res_friend : bool }.

Definition resolve_chain (store : ContactStore) (chain : IdentityChain) (peer_fp : bytes) (now : Z) : option Resolved :=
  match chain_leaf chain with
  | None => None
  | Some leaf =>
      let leaf_fingerprint := id_fingerprint sha3_384 leaf in
      if decide (leaf_fingerprint <> peer_fp) then None
      else match links chain with
      | [] => None
      | l0 :: _ =>
          let account := sc_issuer l0 in
          match chain_verify chain account leaf now with
          | Err _ => None
          | Ok _ =>
              Some (mkResolved account (id_fingerprint sha3_384 account) leaf_fingerprint
                      (is_contact store account) (is_friend store account))
          end
      end
  end.

(** ** The store is a map *)

Definition store_wf (s : ContactStore) : Prop :=
  NoDup (co_account <$> s) /\ Forall (fun c => co_fingerprint c = id_fingerprint sha3_384 (co_account c)) s.

(** What the list says of an account. *)
Definition entry (s : ContactStore) (a : IdentityPublic) : option (option bytes * bool) :=
  (fun c => (co_name c, co_friend c)) <$> get_contact s a.

Lemma get_contact_account s a c : get_contact s a = Some c -> c ∈ s /\ co_account c = a.
Proof. intros H. apply find_some in H as [H1 H2]. apply list_elem_of_In in H1. by apply bool_decide_eq_true in H2. Qed.

Lemma is_contact_entry s a : is_contact s a = bool_decide (entry s a <> None).
Proof.
  unfold is_contact, entry, get_contact. induction s as [|c s IH]; [done|]. cbn.
  destruct (bool_decide (co_account c = a)); [done|apply IH].
Qed.

Lemma is_friend_entry s a :
  NoDup (co_account <$> s) -> is_friend s a = match entry s a with Some (_, f) => f | None => false end.
Proof.
  unfold is_friend, entry, get_contact. induction s as [|c s IH]; [done|]. cbn.
  intros [Hn Hd]%NoDup_cons. case_bool_decide as E; cbn; [|by apply IH].
  destruct (co_friend c); [done|]. cbn. destruct (existsb _ s) eqn:Ex; [|done]. exfalso.
  apply existsb_exists in Ex as (c' & Hc' & Hb). apply andb_true_iff in Hb as [Hb%bool_decide_eq_true _].
  apply Hn. apply list_elem_of_fmap. exists c'. rewrite list_elem_of_In. split; [congruence|done].
Qed.

Lemma update_first_spec f a s :
  (forall c, co_account (f c) = co_account c /\ co_fingerprint (f c) = co_fingerprint c) ->
  match update_first f a s with
  | None => get_contact s a = None
  | Some s' =>
      co_account <$> s' = co_account <$> s /\ (store_wf s -> store_wf s') /\
      get_contact s' a = f <$> get_contact s a /\ get_contact s a <> None /\
      forall b, b <> a -> get_contact s' b = get_contact s b
  end.
Proof.
  intros Hf. unfold store_wf, get_contact. induction s as [|c s IH]; [done|]. cbn [update_first List.find].
  destruct (decide (co_account c = a)) as [E|E].
  - rewrite bool_decide_true by done. cbn [List.find fmap list_fmap]. destruct (Hf c) as [Ha Hp].
    rewrite Ha, (bool_decide_true (co_account c = a)) by done. split; [done|]. split.
    + intros [Hn Hw]. split; [done|]. inversion Hw; subst. constructor; [congruence|done].
    + split; [done|]. split; [done|]. intros b Hb. by rewrite !bool_decide_false by congruence.
  - rewrite bool_decide_false by done. destruct (update_first f a s) as [s'|]; [|done].
    destruct IH as (H1 & H2 & H3 & H4 & H5). cbn [fmap option_fmap option_map List.find list_fmap].
    rewrite bool_decide_false by done. split; [by f_equal|]. split.
    + intros [Hn Hw]. apply NoDup_cons in Hn as [Hn1 Hn2]. inversion Hw; subst. destruct H2 as [H2a H2b]; [done|].
      split; [apply NoDup_cons; split; [|done]|by constructor]. by rewrite H1.
    + split; [done|]. split; [done|]. intros b Hb. case_bool_decide; [done|by apply H5].
Qed.

Lemma find_app {A} (f : A -> bool) l k : List.find f (l ++ k) = match List.find f l with Some x => Some x | None => List.find f k end.
Proof. induction l as [|a l IH]; [done|]. cbn. by destruct (f a). Qed.

(** Adding a contact keeps the store well formed, sets exactly that account's
    entry and leaves every other one alone; a friend is always a contact. *)
Lemma store_add_spec account name friend s :
  store_wf s ->
  let s' := store_add account name friend s in
  store_wf s' /\ entry s' account = Some (name, friend) /\ forall b, b <> account -> entry s' b = entry s b.
Proof.
  intros Hw. unfold store_add, entry.
  pose proof (update_first_spec (fun c => mkContact (co_account c) (co_fingerprint c) name friend) account s) as Hu.
  destruct (update_first _ account s) as [s'|]; specialize (Hu ltac:(done)).
  - destruct Hu as (_ & H1 & H2 & H3 & H4). split; [by apply H1|]. split.
    + rewrite H2. by destruct (get_contact s account).
    + intros b Hb. by rewrite H4.
  - destruct Hw as [Hn Hf]. split; [split|].
    + rewrite fmap_app. apply NoDup_app. split; [done|]. split; [|apply NoDup_singleton].
      intros x Hx Hs. apply list_elem_of_singleton in Hs. cbn in Hs. subst x.
      apply list_elem_of_fmap in Hx as (c & -> & Hc). unfold get_contact in Hu.
      apply list_elem_of_In in Hc. pose proof (find_none _ _ Hu c Hc) as Hx. by apply bool_decide_eq_false in Hx.
    + apply Forall_app. split; [done|]. by constructor.
    + unfold get_contact in *. split.
      * rewrite find_app, Hu. cbn. by rewrite bool_decide_true.
      * intros b Hb. rewrite find_app. cbn. rewrite (bool_decide_false (account = b)) by congruence.
        by destruct (find (fun c => bool_decide (co_account c = b)) s).
Qed.

Lemma store_set_friend_spec account friend s :
  store_wf s ->
  let r := store_set_friend account friend s in
  store_wf r.2 /\ r.1 = is_contact s account /\
  entry r.2 account = (fun e => (e.1, friend)) <$> entry s account /\
  forall b, b <> account -> entry r.2 b = entry s b.
Proof.
  intros Hw. unfold store_set_friend, entry. rewrite is_contact_entry. unfold entry.
  pose proof (update_first_spec (fun c => mkContact (co_account c) (co_fingerprint c) (co_name c) friend) account s) as Hu.
  destruct (update_first _ account s) as [s'|]; specialize (Hu ltac:(done)); cbn [fst snd].
  - destruct Hu as (_ & H1 & H2 & H3 & H4). split; [by apply H1|]. split; [|split].
    + destruct (get_contact s account); [done|by destruct H3].
    + rewrite H2. by destruct (get_contact s account).
    + intros b Hb. by rewrite H4.
  - rewrite Hu. done.
Qed.

(** ** Resolution *)

Lemma certified_ends now a ls leaf :
  certified now a ls leaf -> exists l0, head ls = Some l0 /\ sc_issuer l0 = a /\ chain_leaf (mkChain ls) = Some leaf.
Proof.
  induction 1 as [l Hl|l ls leaf Hl Hc (l0 & H0 & E0 & Hlf)]; [by exists l|].
  exists l. split; [done|]. split; [done|]. unfold chain_leaf in *. cbn [links] in *.
  destruct ls as [|l' ls']; [done|]. by rewrite last_cons_cons.
Qed.

(** A resolution is exactly a certified path from the account to the
    authenticated device; the labels are the store's. *)
Lemma resolve_chain_spec store chain peer_fp now res :
  resolve_chain store chain peer_fp now = Some res <->
  exists leaf, certified now (res_account res) (links chain) leaf /\ id_fingerprint sha3_384 leaf = peer_fp /\
    res = mkResolved (res_account res) (id_fingerprint sha3_384 (res_account res)) peer_fp
            (is_contact store (res_account res)) (is_friend store (res_account res)).
Proof.
  destruct chain as [ls]. unfold resolve_chain. split.
  - destruct (chain_leaf (mkChain ls)) as [leaf|] eqn:El; [|done]. case_decide as Hd; [done|].
    destruct ls as [|l0 ls']; [done|]. cbn [links].
    destruct (chain_verify _ (sc_issuer l0) leaf now) as [[]|] eqn:Ev; [|done]. intros [= <-].
    apply chain_verify_certified in Ev. exists leaf. cbn [res_account]. split; [done|].
    assert (id_fingerprint sha3_384 leaf = peer_fp) as -> by (by destruct (decide (id_fingerprint sha3_384 leaf = peer_fp))).
    done.
  - intros (leaf & Hc & Hf & ->). cbn [res_account] in *. destruct (certified_ends _ _ _ _ Hc) as (l0 & H0 & E0 & El).
    cbn [links] in *. rewrite El. rewrite decide_False by (intros Hn; by apply Hn). destruct ls as [|l ls']; [done|].
    injection H0 as ->. rewrite E0. rewrite (proj2 (chain_verify_certified _ _ _ _)) by done. by rewrite Hf.
Qed.

End Contacts.

(** ** The presentation's wire form *)

Lemma codec_exact_err {E A} (err : E) (g : Get E A) e ok b x :
  Codec g e ok -> zlen b <= usize_max -> (run_get (strict_err err g) b = Ok x <-> ok x /\ b = e x).
Proof.
  intros [Hd Hi] Hb. unfold strict_err, run_get, gbind, gret. split.
  - intros H. apply rbind_Ok in H as ([y r'] & H & [= <-]). apply rbind_Ok in H as ([z r1] & H1 & H).
    apply rbind_Ok in H as ([u r2] & H2 & [= <- <-]). destruct (finish r1) as [[u' r3]|] eqn:Ef; [|done].
    destruct (Hi _ _ _ (rwf_new b Hb) H1) as (Hw & E1 & Hok). destruct (inverts_finish _ _ _ Hw Ef) as [E2 _].
    by rewrite rest_new, E2, app_nil_r in E1.
  - intros [Hok ->]. destruct (Hd x Hok (r_new (e x)) [] (rwf_new _ Hb)) as (r' & -> & Hw & Hr); [by rewrite app_nil_r|].
    cbn. unfold finish. rewrite remaining_rest, Hr by done. done.
Qed.

(** A whole-buffer decoder run on a length-prefixed field. *)
Lemma codec_embedded {E E' A} `{FromWire E} (f : E' -> E) (dec : bytes -> result E' A) (enc : A -> bytes) ok :
  (forall b x, zlen b <= usize_max -> (dec b = Ok x <-> ok x /\ b = enc x)) ->
  Codec (get* b := q get_bytes in glift (map_err f (dec b))) (fun x => enc_bytes (enc x)) (fun x => ok x /\ short (enc x)).
Proof.
  intros Hdec. split.
  - intros x [Hx Hs]. rewrite <- (app_nil_r (enc_bytes _)). eapply decodes_bind; [by apply decodes_q, decodes_bytes|].
    rewrite (proj2 (Hdec _ x (frame_usize _ Hs))) by done. apply decodes_lift.
  - intros r x r' Hw Hg. unfold gbind in Hg. apply rbind_Ok in Hg as ([b r1] & H1%inverts_q & Hg).
    destruct (inverts_bytes _ _ _ Hw H1) as (Hw1 & E1 & Hs). unfold glift in Hg.
    apply rbind_Ok in Hg as (y & H2 & [= <- <-]). destruct (dec b) as [z|] eqn:Ed; [|done].
    injection H2 as <-. apply (Hdec b z (frame_usize _ Hs)) in Ed as [Hok ->]. done.
Qed.

Definition user_tag (u : option bytes) : Z := match u with None => 0 | Some _ => 1 end.
Definition user_body (u : option bytes) : bytes := match u with None => [] | Some u => enc_bytes u end.
Definition user_ok (u : option bytes) : Prop := match u with None => True | Some u => str_ok u end.

#[export] Instance codec_username : Codec get_username (fun u => [byte_of (user_tag u)] ++ user_body u) user_ok.
Proof.
  apply codec_tagged; [intros []; cbn; unfold is_u8; lia|]. intros t. case_decide; [|case_decide]; subst.
  - apply codec_con0; [done|]. intros []; cbn; naive_solver.
  - apply (codec_con _ Some _ _ _ _ (codec_text _)); [done|]. intros []; cbn; naive_solver.
  - apply codec_fail. intros []; cbn; lia.
Qed.

Definition pres_ok (p : Presentation) : Prop :=
  chain_ok (pr_chain p) /\ short (chain_encode (pr_chain p)) /\ user_ok (pr_username p).

Definition enc_pres (p : Presentation) : bytes :=
  enc_bytes (chain_encode (pr_chain p)) ++ [byte_of (user_tag (pr_username p))] ++ user_body (pr_username p).

Lemma pres_encode_norm p : pres_encode p = enc_pres p.
Proof. unfold pres_encode, enc_pres. destruct (pr_username p); by wire_norm. Qed.

Lemma gbind_assoc {E A B C} (g : Get E A) (k : A -> Get E B) (h : B -> Get E C) r :
  gbind g (fun a => gbind (k a) h) r = gbind (gbind g k) h r.
Proof. unfold gbind. destruct (g r) as [[a r1]|]; [|done]. cbn. done. Qed.

Lemma codec_pointwise {E A} (g g' : Get E A) e ok : (forall r, g' r = g r) -> Codec g e ok -> Codec g' e ok.
Proof.
  intros Hg [Hd Hi]. split.
  - intros x Hx r tl Hw Hr. rewrite Hg. by apply Hd.
  - intros r x r' Hw H. rewrite Hg in H. by apply Hi.
Qed.

#[export] Instance codec_pres : Codec pres_read enc_pres pres_ok.
Proof.
  eapply codec_pointwise; [intros r; unfold pres_read; apply gbind_assoc|].
  eapply (codec_iff _ _ _ (fun b => _ /\ True)).
  { eapply (codec_bind _ _ pr_chain); [apply (codec_embedded CCrypto chain_decode chain_encode chain_ok), chain_decode_exact|].
    intros c Hc. field pr_username. record_done. }
  - intros []. unfold pres_ok. cbn. naive_solver.
  - intros p _. unfold enc_pres. cbn. by rewrite app_nil_r.
Qed.

Lemma pres_decode_exact b p : zlen b <= usize_max -> (pres_decode b = Ok p <-> pres_ok p /\ b = pres_encode p).
Proof. intros Hb. rewrite pres_encode_norm. by apply codec_exact_err; [apply codec_pres|]. Qed.
