(* ===== verification/Linkage.v ===== *)
(** * Linkage predicates and their proofs (crates/core/src/linkage.rs)

    A prover asserts a predicate (this leaf belongs to an account, shares a
    grouping key, descends from a named identity); the verifier learns pass or
    fail.  The file models the predicates, the proofs and payloads on the wire,
    and the ML-DSA backend that checks a proof against a claim. *)

From S2P Require Import Prelude Wire Crypto Marking Frames Codec Account Relay Contacts.

Inductive Predicate : Type :=
| LinkedToAccount (account_fp : bytes)
| Grouping (grouping_pub : bytes)
| DerivedFromNamed (ancestor_fp : bytes).

#[export] Instance predicate_eq_dec : EqDecision Predicate.
Proof. solve_decision. Defined.

Definition pred_encode (p : Predicate) : bytes :=
  into_vec (match p with
  | LinkedToAccount account_fp => w_new |> put_u8 0 |> put_bytes account_fp
  | Grouping grouping_pub => w_new |> put_u8 1 |> put_bytes grouping_pub
  | DerivedFromNamed ancestor_fp => w_new |> put_u8 2 |> put_bytes ancestor_fp
  end).

Definition pred_read : Get unit Predicate :=
  get* tag := q get_u8 in
  if decide (tag = 0) then get* fp := sized 48 tt in gret (LinkedToAccount fp)
  else if decide (tag = 1) then get* g := q get_bytes in gret (Grouping g)
  else if decide (tag = 2) then get* fp := sized 48 tt in gret (DerivedFromNamed fp)
  else gfail tt.

Definition pred_decode (b : bytes) : option Predicate := to_option (run_get (strict pred_read) b).

Record LClaim : Type := mkLClaim { lc_predicate : Predicate; lc_context : bytes }.

Inductive Verdict : Type := Pass | Fail_.

#[export] Instance verdict_eq_dec : EqDecision Verdict.
Proof. solve_decision. Defined.

Inductive LinkageProof : Type :=
| LPChain (chain : IdentityChain) (ctx_sig : bytes)
| LPGrouping (member : IdentityPublic) (cert : SignedCert) (ctx_sig : bytes).

Definition lp_encode (p : LinkageProof) : bytes :=
  into_vec (match p with
  | LPChain chain ctx_sig => w_new |> put_u8 0 |> put_bytes (chain_encode chain) |> put_bytes ctx_sig
  | LPGrouping member cert ctx_sig =>
      w_new |> put_u8 1 |> put_bytes (sig_vk member) |> put_bytes (sc_encode cert) |> put_bytes ctx_sig
  end).

(** [f(r.get_bytes().ok()?).ok()?] *)
Definition embedded {E A} (dec : bytes -> result E A) : Get unit A :=
  get* b := q get_bytes in glift (map_err (fun _ => tt) (dec b)).

Definition lp_read : Get unit LinkageProof :=
  get* tag := q get_u8 in
  if decide (tag = 0) then
    get* chain := embedded chain_decode in get* ctx_sig := q get_vec in gret (LPChain chain ctx_sig)
  else if decide (tag = 1) then
    get* vk := q get_vec in get* cert := embedded sc_decode in get* ctx_sig := q get_vec in
    gret (LPGrouping (mkIdentityPublic vk) cert ctx_sig)
  else gfail tt.

Definition lp_decode (b : bytes) : option LinkageProof := to_option (run_get (strict lp_read) b).

(** [LinkagePayload] has the one variant [GroupingProof]. *)
Record LinkagePayload : Type := mkGroupingProof {
  gp_grouping_pub : bytes; gp_cert : SignedCert; gp_ctx_sig : bytes; gp_seq : Z }.

Definition payload_encode (p : LinkagePayload) : bytes :=
  w_new |> put_u8 0 |> put_bytes (gp_grouping_pub p) |> put_bytes (sc_encode (gp_cert p))
        |> put_bytes (gp_ctx_sig p) |> put_u64_halves (gp_seq p) |> into_vec.

Definition payload_body : Get unit LinkagePayload :=
  get* grouping_pub := q get_vec in
  get* cert := embedded sc_decode in
  get* ctx_sig := q get_vec in
  get* seq := u64_halves (q get_u32) (q get_u32) in
  gret (mkGroupingProof grouping_pub cert ctx_sig seq).

Definition payload_decode (b : bytes) : option LinkagePayload :=
  to_option (run_get (strict (get* tag := q get_u8 in if decide (tag = 0) then payload_body else gfail tt)) b).

Section Backend.
Context {P : Primitives} (sha3_384 : bytes -> bytes).

Definition verify_chain_to_account (now : Z) (chain : IdentityChain) (ctx_sig context : bytes) : option bytes :=
  match head (links chain), chain_leaf chain with
  | Some l0, Some leaf =>
      let account := sc_issuer l0 in
      if negb (belongs_to_account account chain leaf now) then None
      else if negb (is_ok (id_verify leaf context ctx_sig)) then None
      else Some (id_fingerprint sha3_384 account)
  | _, _ => None
  end.

(** [ProofBackend::verify] of [MlDsaCertBackend]. *)
Definition backend_verify (now : Z) (claim : LClaim) (proof : bytes) : Verdict :=
  match lp_decode proof with
  | None => Fail_
  | Some lp =>
      let ok :=
        match lc_predicate claim, lp with
        | LinkedToAccount account_fp, LPChain chain ctx_sig =>
            match verify_chain_to_account now chain ctx_sig (lc_context claim) with
            | Some acct_fp => bool_decide (acct_fp = account_fp)
            | None => false
            end
        | DerivedFromNamed ancestor_fp, LPChain chain ctx_sig =>
            bool_decide (verify_chain_to_account now chain ctx_sig (lc_context claim) <> None)
            && existsb (fun c => bool_decide (id_fingerprint sha3_384 (sc_issuer c) = ancestor_fp)) (links chain)
        | Grouping grouping_pub, LPGrouping member cert ctx_sig =>
            verify_grouping_cert (mkIdentityPublic grouping_pub) cert member now
            && is_ok (id_verify member (lc_context claim) ctx_sig)
        | _, _ => false
        end in
      if ok then Pass else Fail_
  end.

End Backend.

(** ** Wire forms *)

Definition pred_tag (p : Predicate) : Z := match p with LinkedToAccount _ => 0 | Grouping _ => 1 | DerivedFromNamed _ => 2 end.
Definition pred_body (p : Predicate) : bytes :=
  match p with LinkedToAccount b | Grouping b | DerivedFromNamed b => enc_bytes b end.
Definition pred_ok (p : Predicate) : Prop :=
  match p with LinkedToAccount b | DerivedFromNamed b => length b = 48%nat | Grouping b => short b end.

Lemma pred_encode_norm p : pred_encode p = [byte_of (pred_tag p)] ++ pred_body p.
Proof. destruct p; unfold pred_encode; by wire_norm. Qed.

#[export] Instance codec_pred : Codec pred_read (fun p => [byte_of (pred_tag p)] ++ pred_body p) pred_ok.
Proof.
  apply codec_tagged; [intros []; cbn; unfold is_u8; lia|]. intros t.
  case_decide; [|case_decide; [|case_decide]]; subst.
  - apply (codec_con _ LinkedToAccount _ _ _ _ (codec_sized 48 tt ltac:(by vm_compute))); [done|].
    intros []; cbn; naive_solver.
  - apply (codec_con _ Grouping _ _ _ _ codec_bytes); [done|]. intros []; cbn; naive_solver.
  - apply (codec_con _ DerivedFromNamed _ _ _ _ (codec_sized 48 tt ltac:(by vm_compute))); [done|].
    intros []; cbn; naive_solver.
  - apply codec_fail. intros []; cbn; lia.
Qed.

Lemma pred_decode_exact b p : zlen b <= usize_max -> (pred_decode b = Some p <-> pred_ok p /\ b = pred_encode p).
Proof. intros Hb. unfold pred_decode. rewrite to_option_Some, pred_encode_norm. apply (codec_exact pred_read _ _ b p codec_pred Hb). Qed.

Definition chain_field_ok (c : IdentityChain) : Prop := chain_ok c /\ short (chain_encode c).
Definition sc_field_ok (c : SignedCert) : Prop := sc_ok c /\ short (sc_encode c).

#[export] Instance codec_chain_field : Codec (embedded chain_decode) (fun c => enc_bytes (chain_encode c)) chain_field_ok.
Proof. apply codec_embedded. apply chain_decode_exact. Qed.
#[export] Instance codec_sc_field : Codec (embedded sc_decode) (fun c => enc_bytes (sc_encode c)) sc_field_ok.
Proof. apply codec_embedded. apply sc_decode_exact. Qed.

Record payload_wf (p : LinkagePayload) : Prop := {
  pw_pub : short (gp_grouping_pub p); pw_cert : sc_field_ok (gp_cert p); pw_sig : short (gp_ctx_sig p);
  pw_seq : is_u64 (gp_seq p) }.

Definition enc_payload_body (p : LinkagePayload) : bytes :=
  enc_bytes (gp_grouping_pub p) ++ enc_bytes (sc_encode (gp_cert p)) ++ enc_bytes (gp_ctx_sig p) ++ enc_halves (gp_seq p).

#[export] Instance codec_payload_body : Codec payload_body enc_payload_body payload_wf.
Proof.
  record_codec payload_body.
  { field gp_grouping_pub. field gp_cert. field gp_ctx_sig. field gp_seq. record_done. }
  - intros []. split; [intros (?&?); destruct_and?; by split|intros []; naive_solver].
  - intros x _. unfold enc_payload_body. by rewrite app_nil_r.
Qed.

Lemma payload_decode_exact b p : zlen b <= usize_max -> (payload_decode b = Some p <-> payload_wf p /\ b = payload_encode p).
Proof.
  intros Hb. unfold payload_decode. rewrite to_option_Some.
  rewrite (codec_exact _ (fun p => [byte_of 0] ++ enc_payload_body p) payload_wf b p);
    [unfold payload_encode, enc_payload_body; by wire_norm| |done].
  apply (codec_tagged (fun _ => 0)); [intros; unfold is_u8; lia|]. intros t. case_decide as Ht.
  - eapply codec_iff; [apply codec_payload_body|naive_solver|done].
  - apply codec_fail. intros y [_ <-]. done.
Qed.

Definition lp_tag (p : LinkageProof) : Z := match p with LPChain _ _ => 0 | LPGrouping _ _ _ => 1 end.
Definition lp_body (p : LinkageProof) : bytes :=
  match p with
  | LPChain chain ctx_sig => enc_bytes (chain_encode chain) ++ enc_bytes ctx_sig
  | LPGrouping member cert ctx_sig => enc_bytes (sig_vk member) ++ enc_bytes (sc_encode cert) ++ enc_bytes ctx_sig
  end.
Definition lp_ok (p : LinkageProof) : Prop :=
  match p with
  | LPChain chain ctx_sig => chain_field_ok chain /\ short ctx_sig
  | LPGrouping member cert ctx_sig => short (sig_vk member) /\ sc_field_ok cert /\ short ctx_sig
  end.

Lemma lp_encode_norm p : lp_encode p = [byte_of (lp_tag p)] ++ lp_body p.
Proof. destruct p; unfold lp_encode; by wire_norm. Qed.

(** Three fields wrapped in a constructor. *)
Lemma codec_con3 {E A1 A2 A3 B} (g1 : Get E A1) (g2 : Get E A2) (g3 : Get E A3) (c : A1 -> A2 -> A3 -> B)
    e1 e2 e3 e' ok1 ok2 ok3 (ok' : B -> Prop) :
  Codec g1 e1 ok1 -> Codec g2 e2 ok2 -> Codec g3 e3 ok3 ->
  (forall a b d, e' (c a b d) = e1 a ++ e2 b ++ e3 d) ->
  (forall x, ok' x <-> exists a b d, x = c a b d /\ ok1 a /\ ok2 b /\ ok3 d) ->
  Codec (get* a := g1 in get* b := g2 in get* d := g3 in gret (c a b d)) e' ok'.
Proof.
  intros [Hd1 Hi1] [Hd2 Hi2] [Hd3 Hi3] He Hok. split.
  - intros x (a & b & d & -> & Ha & Hb & Hd)%Hok. rewrite He. eapply decodes_bind; [by apply Hd1|].
    eapply decodes_bind; [by apply Hd2|]. by apply (decodes_ret_bind _ (c a b)), Hd3.
  - intros r x r' Hw H. unfold gbind, gret in H. apply rbind_Ok in H as ([a r1] & H1 & H).
    apply rbind_Ok in H as ([b r2] & H2 & H). apply rbind_Ok in H as ([d r3] & H3 & [= <- <-]).
    destruct (Hi1 _ _ _ Hw H1) as (Hw1 & E1 & ?). destruct (Hi2 _ _ _ Hw1 H2) as (Hw2 & E2 & ?).
    destruct (Hi3 _ _ _ Hw2 H3) as (? & E3 & ?).
    split; [done|]. split; [by rewrite He, E1, E2, E3, !(assoc (++))|]. apply Hok. naive_solver.
Qed.

#[export] Instance codec_lp : Codec lp_read (fun p => [byte_of (lp_tag p)] ++ lp_body p) lp_ok.
Proof.
  apply codec_tagged; [intros []; cbn; unfold is_u8; lia|]. intros t. case_decide; [|case_decide]; subst.
  - apply (codec_con2 _ _ LPChain _ _ _ _ _ _ codec_chain_field codec_vec); [done|]. intros []; cbn; naive_solver.
  - apply (codec_con3 _ _ _ (fun vk => LPGrouping (mkIdentityPublic vk)) _ _ _ _ _ _ _ _ codec_vec codec_sc_field codec_vec);
      [done|]. intros [|[]]; cbn; naive_solver.
  - apply codec_fail. intros []; cbn; lia.
Qed.

Lemma lp_decode_exact b p : zlen b <= usize_max -> (lp_decode b = Some p <-> lp_ok p /\ b = lp_encode p).
Proof. intros Hb. unfold lp_decode. rewrite to_option_Some, lp_encode_norm. apply (codec_exact lp_read _ _ b p codec_lp Hb). Qed.
