(* ===== verification/Presence.v ===== *)
(** * Self-declared names (crates/core/src/{presence,nametrust}.rs)

    Name announcements, bare or signed by a certified device, their wire form,
    the user's book of names, and the rendering of a cached name under a chat's
    collision policy. *)

From S2P Require Import Prelude Wire Crypto Marking Frames Codec Account Relay Contacts.

(** [.map_err(|_| CoreError::Malformed(what))] on a wire call *)
Definition malformed {A} (what : string) (g : Get WireError A) : Get CoreError A :=
  fun r => map_err (fun _ => CMalformed what) (g r).

Definition presence_get_u64 : Get CoreError Z :=
  u64_halves (malformed "u64 hi" get_u32) (malformed "u64 lo" get_u32).

(** [String::from_utf8(r.get_vec().map_err(..)?).map_err(..)?] *)
Definition malformed_text (what utf8 : string) : Get CoreError bytes :=
  get* b := malformed what get_vec in glift (from_utf8 b (CMalformed utf8)).

(** ** Name announcements *)

Inductive NamePresence : Type :=
| NPBare (seq : Z) (label : bytes)
| NPLinked (seq : Z) (presentation : Presentation) (context sig : bytes).

Definition np_seq (n : NamePresence) : Z := match n with NPBare seq _ | NPLinked seq _ _ _ => seq end.
Definition np_label (n : NamePresence) : bytes :=
  match n with
  | NPBare _ label => label
  | NPLinked _ presentation _ _ => default [] (pr_username presentation)
  end.

Definition np_encode (n : NamePresence) : bytes :=
  into_vec (match n with
  | NPBare seq label => w_new |> put_u8 0 |> put_u64_halves seq |> put_bytes label
  | NPLinked seq presentation context sig =>
      w_new |> put_u8 1 |> put_u64_halves seq |> put_bytes (pres_encode presentation)
            |> put_bytes context |> put_bytes sig
  end).

Definition get_context : Get CoreError bytes :=
  get* ctx := malformed "linked context" get_bytes in
  if decide (length ctx <> 32%nat) then gfail (CMalformed "context len") else gret ctx.

Definition get_presentation : Get CoreError Presentation :=
  get* b := malformed "linked presentation" get_bytes in glift (pres_decode b).

Definition np_read : Get CoreError NamePresence :=
  get* tag := malformed "presence tag" get_u8 in
  if decide (tag = 0) then
    get* seq := presence_get_u64 in
    get* label := malformed_text "bare label" "bare label utf-8" in
    gret (NPBare seq label)
  else if decide (tag = 1) then
    get* seq := presence_get_u64 in
    get* presentation := get_presentation in
    get* context := get_context in
    get* sig := malformed "linked sig" get_vec in
    gret (NPLinked seq presentation context sig)
  else gfail (CMalformed "presence variant").

Definition np_decode (b : bytes) : result CoreError NamePresence :=
  run_get (strict_err (CMalformed "presence trailing") np_read) b.

Definition sign_input (seq : Z) (label context : bytes) : bytes :=
  w_new |> put_u64_halves seq |> put_bytes label |> put_bytes context |> into_vec.

Record VerifiedName : Type := mkVerifiedName {
  vn_account_fp : bytes; vn_device_fp : bytes; vn_label : bytes; vn_seq : Z }.

Section Names.
Context {P : Primitives} (sha256 sha3_384 : bytes -> bytes).

Definition chat_context (invite_token channel : bytes) : bytes := sha256 (invite_token ++ channel).

Definition name_tag (label context : bytes) (seq : Z) : bytes :=
  take 8 (sha256 (context ++ be_bytes 8 seq ++ label)).

Definition name_id_tag (label context : bytes) : bytes :=
  take 8 (sha256 (be_bytes 4 (u32_wrap (zlen label)) ++ label ++ context)).

Definition np_linked (seq : Z) (chain : IdentityChain) (label context : bytes) (signer : IdentityKeyPair) : NamePresence :=
  NPLinked seq (mkPresentation chain (Some label)) context (id_sign signer (sign_input seq label context)).

Definition verify_linked (n : NamePresence) (now : Z) : option VerifiedName :=
  match n with
  | NPBare _ _ => None
  | NPLinked seq presentation context sig =>
      match chain_leaf (pr_chain presentation), head (links (pr_chain presentation)) with
      | Some leaf, Some l0 =>
          let account := sc_issuer l0 in
          if negb (is_ok (chain_verify (pr_chain presentation) account leaf now)) then None
          else match pr_username presentation with
          | None => None
          | Some label =>
              if negb (is_ok (id_verify leaf (sign_input seq label context) sig)) then None
              else Some (mkVerifiedName (id_fingerprint sha3_384 account) (id_fingerprint sha3_384 leaf) label seq)
          end
      | _, _ => None
      end
  end.

End Names.

(** ** The name book *)

Inductive NameBacking : Type := BackBare | BackAccount (chain : IdentityChain).
Record NameEntry : Type := mkEntry { ne_id : bytes; ne_label : bytes; ne_backing : NameBacking }.
Record NameBook : Type := mkBook { nb_entries : list NameEntry; nb_default : option bytes }.

Definition book_get (b : NameBook) (id : bytes) : option NameEntry :=
  List.find (fun e => bool_decide (ne_id e = id)) (nb_entries b).

Fixpoint replace_first (e : NameEntry) (l : list NameEntry) : option (list NameEntry) :=
  match l with
  | [] => None
  | x :: l => if decide (ne_id x = ne_id e) then Some (e :: l) else cons x <$> replace_first e l
  end.

Definition book_upsert (e : NameEntry) (b : NameBook) : NameBook :=
  match replace_first e (nb_entries b) with
  | Some l => mkBook l (nb_default b)
  | None => mkBook (nb_entries b ++ [e]) (nb_default b)
  end.

Definition book_remove (id : bytes) (b : NameBook) : bool * NameBook :=
  let before := length (nb_entries b) in
  let l := filter (fun e => ne_id e <> id) (nb_entries b) in
  let d := if decide (nb_default b = Some id) then None else nb_default b in
  (bool_decide (length l <> before), mkBook l d).

Definition put_name_entry (e : NameEntry) (w : Writer) : Writer :=
  let w := w |> put_bytes (ne_id e) |> put_bytes (ne_label e) in
  match ne_backing e with
  | BackBare => w |> put_u8 0
  | BackAccount chain => w |> put_u8 1 |> put_bytes (chain_encode chain)
  end.

Definition book_encode (b : NameBook) : bytes :=
  let w := w_new |> put_u32 (u32_wrap (zlen (nb_entries b))) |> put_each put_name_entry (nb_entries b) in
  into_vec (match nb_default b with
            | Some d => w |> put_u8 1 |> put_bytes d
            | None => w |> put_u8 0
            end).

Definition get_backing : Get CoreError NameBacking :=
  get* tag := malformed "backing tag" get_u8 in
  if decide (tag = 0) then gret BackBare
  else if decide (tag = 1) then
    get* chain := (get* b := malformed "chain" get_bytes in glift (map_err CCrypto (chain_decode b))) in
    gret (BackAccount chain)
  else gfail (CMalformed "backing variant").

Definition get_name_entry : Get CoreError NameEntry :=
  get* id := malformed_text "id" "id utf-8" in
  get* label := malformed_text "label" "label utf-8" in
  get* backing := get_backing in
  gret (mkEntry id label backing).

Definition get_default : Get CoreError (option bytes) :=
  get* tag := malformed "default tag" get_u8 in
  if decide (tag = 0) then gret None
  else if decide (tag = 1) then get* d := malformed_text "default" "default utf-8" in gret (Some d)
  else gfail (CMalformed "default variant").

Definition MAX_NAMES : Z := 4096.

Definition get_names : Get CoreError (list NameEntry) :=
  get* n := malformed "book len" get_u32 in
  if decide (n > MAX_NAMES) then gfail (CMalformed "too many names") else get_times (Z.to_nat n) get_name_entry.

Definition book_decode (b : bytes) : result CoreError NameBook :=
  run_get (strict_err (CMalformed "book trailing") (
    get* entries := get_names in get* d := get_default in gret (mkBook entries d))) b.

(** ** Cadence *)

Definition MIN_PERIODIC_SECS : Z := 60.
Record PresenceCadence : Type := mkCadence { pc_periodic_secs : option Z; pc_on_message_id : bool }.
Definition effective_periodic (c : PresenceCadence) : option Z := Z.max MIN_PERIODIC_SECS <$> pc_periodic_secs c.

(** ** Tiers, policies and rendering *)

Inductive NameTier : Type := TierBare | TierLinked | RegistryConfirmed.

#[export] Instance tier_eq_dec : EqDecision NameTier.
Proof. solve_decision. Defined.

Definition tier_rank (t : NameTier) : Z := match t with TierBare => 0 | TierLinked => 1 | RegistryConfirmed => 2 end.

(** The badges are the UTF-8 of U+1F517 and U+2713. *)
Definition tier_badge (t : NameTier) : bytes :=
  match t with
  | TierBare => []
  | TierLinked => byte_of <$> [240; 159; 148; 151]
  | RegistryConfirmed => byte_of <$> [226; 156; 147]
  end.

Record NameRecord : Type := mkRecord {
  nr_label : bytes; nr_tier : NameTier; nr_seq : Z; nr_account_fp : option bytes }.

Inductive NameTrustPolicy : Type := SignalStyle | WarnOnCollision | SuppressColliding.

#[export] Instance trust_policy_eq_dec : EqDecision NameTrustPolicy.
Proof. solve_decision. Defined.

Definition trust_tag (p : NameTrustPolicy) : Z := match p with SignalStyle => 0 | WarnOnCollision => 1 | SuppressColliding => 2 end.
Definition trust_from_tag (t : Z) : option NameTrustPolicy :=
  if decide (t = 0) then Some SignalStyle
  else if decide (t = 1) then Some WarnOnCollision
  else if decide (t = 2) then Some SuppressColliding
  else None.
Definition strictness (p : NameTrustPolicy) : Z := trust_tag p.
Definition max_strictness (self other : NameTrustPolicy) : NameTrustPolicy :=
  if decide (strictness other > strictness self) then other else self.

Inductive Tint : Type := TintDefault | Verified | Isolated | Vouched.

#[export] Instance tint_eq_dec : EqDecision Tint.
Proof. solve_decision. Defined.

(** The caveat texts, by what they say. *)
Inductive Caveat : Type :=
| CavClaims (label verified : bytes)
| CavSuppressed (label : bytes)
| CavUnverified
| CavVouched (score : Z)
| CavRenamed.

Record NameRender : Type := mkRender {
  rd_label : option bytes; rd_tier : NameTier; rd_badge : bytes; rd_tint : Tint; rd_caveat : option Caveat;
  rd_safety_number : bytes }.

(** [homoglyph_to_ascii] on code points: combining marks are dropped, the
    listed Cyrillic and Greek letters become their Latin twins. *)
Definition HOMOGLYPHS : list (Z * Z) :=
  [(1072, 97); (1077, 101); (1086, 111); (1088, 112); (1089, 99); (1093, 120); (1091, 121); (1109, 115);
   (1110, 105); (1112, 106); (1281, 100); (959, 111); (945, 97); (961, 112)].

Definition homoglyph_to_ascii (c : Z) : option Z :=
  if decide (768 <= c <= 879) then None
  else match List.find (fun x => Z.eqb x.1 c) HOMOGLYPHS with
       | Some (_, a) => Some a
       | None => Some c
       end.

Section Render.
(** [nfkc_lower s]: the code points of the NFKC form (crate unicode-normalization),
    lower-cased. *)
Context (nfkc_lower : bytes -> list Z).

Definition confusable_fold (s : bytes) : list Z := omap homoglyph_to_ascii (nfkc_lower s).

(** [max_by_key]: the last of the entries with the greatest rank. *)
Fixpoint max_by_rank (best : option NameRecord) (l : list NameRecord) : option NameRecord :=
  match l with
  | [] => best
  | o :: l =>
      max_by_rank (match best with
                   | Some b => if decide (tier_rank (nr_tier b) > tier_rank (nr_tier o)) then Some b else Some o
                   | None => Some o
                   end) l
  end.
Definition collides_with (subject_fp : bytes) (rec : NameRecord) (x : bytes * NameRecord) : bool :=
  bool_decide (x.1 <> subject_fp) && bool_decide (tier_rank (nr_tier x.2) > tier_rank (nr_tier rec))
  && bool_decide (confusable_fold (nr_label x.2) = confusable_fold (nr_label rec)).

Definition resolve_render (subject_fp : bytes) (rec : NameRecord) (others : gmap bytes NameRecord)
    (policy : NameTrustPolicy) (safety_number : bytes) (isolated amplify_isolated vouched : bool)
    (vouch_badge : option Caveat) : NameRender :=
  let collision :=
    max_by_rank None (snd <$> filter (fun x => Is_true (collides_with subject_fp rec x)) (map_to_list others)) in
  let collides := bool_decide (is_Some collision) in
  let tint := match nr_tier rec with
              | TierLinked | RegistryConfirmed => Verified
              | TierBare => if isolated then Isolated else TintDefault
              end in
  let '(label, caveat) :=
    match collides, policy with
    | false, _ | true, SignalStyle => (Some (nr_label rec), None)
    | true, WarnOnCollision =>
        (Some (nr_label rec), Some (CavClaims (nr_label rec) (default (nr_label rec) (nr_label <$> collision))))
    | true, SuppressColliding => (None, Some (CavSuppressed (nr_label rec)))
    end in
  let caveat := match caveat with
                | Some c => Some c
                | None => if decide (tint = Isolated) then if amplify_isolated then Some CavUnverified else None else None
                end in
  let tint := if vouched then Vouched else tint in
  let caveat := if vouched then (match vouch_badge with Some c => Some c | None => caveat end) else caveat in
  mkRender label (nr_tier rec) (tier_badge (nr_tier rec)) tint caveat safety_number.

End Render.

(** ** Wire forms *)

Lemma codec_raw {A} (g : Get WireError A) e ok : Codec (q (E:=WireError) g) e ok -> Codec g e ok.
Proof. apply codec_pointwise. intros r. unfold q. by destruct (g r). Qed.

#[export] Instance codec_malformed {A} what (g : Get WireError A) e ok :
  Codec (q (E:=WireError) g) e ok -> Codec (malformed what g) e ok.
Proof. intros Hg. apply codec_map_err. by apply codec_raw. Qed.

#[export] Instance codec_presence_u64 : Codec presence_get_u64 enc_halves is_u64.
Proof. apply codec_u64_halves; apply codec_malformed, codec_u32. Qed.

(** A reader followed by a UTF-8 check. *)
#[export] Instance codec_malformed_text what utf8 : Codec (malformed_text what utf8) enc_bytes str_ok.
Proof.
  destruct (codec_malformed what get_vec _ _ codec_vec) as [Hd Hi]. unfold malformed_text. split.
  - intros s [Hu Hl]. rewrite <- (app_nil_r (enc_bytes s)). eapply decodes_bind; [by apply Hd|].
    unfold from_utf8. rewrite Hu. apply decodes_lift.
  - intros r x r' Hw H. unfold gbind in H. apply rbind_Ok in H as ([b r1] & H1 & H).
    unfold glift, from_utf8 in H. destruct (utf8_valid b) eqn:Eu; [|done]. injection H as <- <-.
    destruct (Hi _ _ _ Hw H1) as (? & ? & ?). done.
Qed.

#[export] Instance codec_context : Codec get_context enc_bytes (fun c => length c = 32%nat).
Proof.
  eapply codec_iff.
  { unfold get_context. eapply codec_pointwise; [|apply (codec_check (malformed "linked context" get_bytes)
      (fun c => length c = 32%nat) (CMalformed "context len")); apply codec_malformed, codec_bytes].
    intros r. unfold gbind. destruct (malformed _ _ r) as [[c r1]|]; [|done]. cbn [rbind].
    destruct (decide (length c = 32%nat)) as [Hc|Hc].
    - by rewrite decide_False by (intros Hn; by apply Hn).
    - by rewrite decide_True by done. }
  - intros c. unfold short, zlen, MAX_FRAME. lia.
  - done.
Qed.

(** A whole-buffer decoder on a field whose reader has its own error. *)
Lemma codec_embedded_by {E' A} what (f : E' -> CoreError) (dec : bytes -> result E' A) (enc : A -> bytes) ok :
  (forall b x, zlen b <= usize_max -> (dec b = Ok x <-> ok x /\ b = enc x)) ->
  Codec (get* b := malformed what get_bytes in glift (map_err f (dec b))) (fun x => enc_bytes (enc x))
    (fun x => ok x /\ short (enc x)).
Proof.
  intros Hdec. destruct (codec_malformed what get_bytes _ _ codec_bytes) as [Hd Hi]. split.
  - intros x [Hx Hs]. rewrite <- (app_nil_r (enc_bytes _)). eapply decodes_bind; [by apply Hd|].
    rewrite (proj2 (Hdec _ x (frame_usize _ Hs))) by done. apply decodes_lift.
  - intros r x r' Hw Hg. unfold gbind in Hg. apply rbind_Ok in Hg as ([b r1] & H1 & Hg).
    destruct (Hi _ _ _ Hw H1) as (Hw1 & E1 & Hs). unfold glift in Hg.
    apply rbind_Ok in Hg as (y & H2 & [= <- <-]). destruct (dec b) as [z|] eqn:Ed; [|done].
    injection H2 as <-. apply (Hdec b z (frame_usize _ Hs)) in Ed as [Hok ->]. done.
Qed.

#[export] Instance codec_presentation :
  Codec get_presentation (fun p => enc_bytes (pres_encode p)) (fun p => pres_ok p /\ short (pres_encode p)).
Proof.
  eapply codec_pointwise; [|apply (codec_embedded_by "linked presentation" id pres_decode), pres_decode_exact].
  intros r. unfold get_presentation, gbind. destruct (malformed _ _ r) as [[b r1]|]; [|done]. cbn [rbind].
  unfold glift. by destruct (pres_decode b).
Qed.

Definition np_tag (n : NamePresence) : Z := match n with NPBare _ _ => 0 | NPLinked _ _ _ _ => 1 end.
Definition np_body (n : NamePresence) : bytes :=
  match n with
  | NPBare seq label => enc_halves seq ++ enc_bytes label
  | NPLinked seq p context sig => enc_halves seq ++ enc_bytes (pres_encode p) ++ enc_bytes context ++ enc_bytes sig
  end.
Definition np_ok (n : NamePresence) : Prop :=
  match n with
  | NPBare seq label => is_u64 seq /\ str_ok label
  | NPLinked seq p context sig =>
      is_u64 seq /\ (pres_ok p /\ short (pres_encode p)) /\ length context = 32%nat /\ short sig
  end.

Lemma np_encode_norm n : np_encode n = [byte_of (np_tag n)] ++ np_body n.
Proof. destruct n; unfold np_encode, np_body; by wire_norm. Qed.

(** Four fields of a linked announcement, as a record. *)
Definition LinkedFields : Type := (Z * Presentation) * (bytes * bytes).
Definition of_linked (x : LinkedFields) : NamePresence := NPLinked x.1.1 x.1.2 x.2.1 x.2.2.

Lemma codec_linked_fields :
  Codec (get* seq := presence_get_u64 in get* presentation := get_presentation in get* context := get_context in
         get* sig := malformed "linked sig" get_vec in gret (seq, presentation, (context, sig)))
    (fun x : LinkedFields => enc_halves x.1.1 ++ enc_bytes (pres_encode x.1.2) ++ enc_bytes x.2.1 ++ enc_bytes x.2.2)
    (fun x => is_u64 x.1.1 /\ (pres_ok x.1.2 /\ short (pres_encode x.1.2)) /\ length x.2.1 = 32%nat /\ short x.2.2).
Proof.
  eapply (codec_iff _ _ _ (fun b => _ /\ True)).
  { field (fun x : LinkedFields => x.1.1). field (fun x : LinkedFields => x.1.2). field (fun x : LinkedFields => x.2.1).
    field (fun x : LinkedFields => x.2.2). apply codec_ret. intros [[] []]; cbn; naive_solver. }
  - intros [[] []]. cbn. naive_solver.
  - intros x _. cbn. by rewrite app_nil_r.
Qed.

#[export] Instance codec_np : Codec np_read (fun n => [byte_of (np_tag n)] ++ np_body n) np_ok.
Proof.
  apply codec_tagged_by; [apply codec_malformed, codec_u8|intros []; cbn; unfold is_u8; lia|].
  intros t. case_decide; [|case_decide]; subst.
  - apply (codec_con2 _ _ NPBare _ _ _ _ _ _ codec_presence_u64 (codec_malformed_text _ _)); [done|].
    intros []; cbn; naive_solver.
  - eapply codec_pointwise; [|apply (codec_con _ of_linked _ _ _ _ codec_linked_fields)].
    + intros r. unfold gbind. destruct (presence_get_u64 r) as [[s r1]|]; [|done]. cbn [rbind].
      destruct (get_presentation r1) as [[p r2]|]; [|done]. cbn [rbind].
      destruct (get_context r2) as [[c r3]|]; [|done]. cbn [rbind]. by destruct (malformed _ _ r3) as [[]|].
    + by intros [[] []].
    + intros [s l|s p c g]; cbn; split.
      * intros [_ ?]; lia.
      * by intros ([[] []] & [=] & _).
      * intros [? _]. by exists (s, p, (c, g)).
      * intros ([[] []] & [= -> -> -> ->] & ?). done.
  - apply codec_fail. intros []; cbn; lia.
Qed.

Lemma np_decode_exact b n : zlen b <= usize_max -> (np_decode b = Ok n <-> np_ok n /\ b = np_encode n).
Proof.
  intros Hb. rewrite np_encode_norm. unfold np_decode.
  exact (codec_exact_err (CMalformed "presence trailing") np_read _ _ b n codec_np Hb).
Qed.

(** ** The name book on the wire and in memory *)

Definition back_tag (b : NameBacking) : Z := match b with BackBare => 0 | BackAccount _ => 1 end.
Definition back_body (b : NameBacking) : bytes := match b with BackBare => [] | BackAccount c => enc_bytes (chain_encode c) end.
Definition back_ok (b : NameBacking) : Prop :=
  match b with BackBare => True | BackAccount c => chain_ok c /\ short (chain_encode c) end.

#[export] Instance codec_backing : Codec get_backing (fun b => [byte_of (back_tag b)] ++ back_body b) back_ok.
Proof.
  apply codec_tagged_by; [apply codec_malformed, codec_u8|intros []; cbn; unfold is_u8; lia|].
  intros t. case_decide; [|case_decide]; subst.
  - apply codec_con0; [done|]. intros []; cbn; naive_solver.
  - apply (codec_con _ BackAccount _ _ _ _ (codec_embedded_by _ CCrypto chain_decode _ _ chain_decode_exact)); [done|].
    intros []; cbn; naive_solver.
  - apply codec_fail. intros []; cbn; lia.
Qed.

#[export] Instance codec_default : Codec get_default (fun u => [byte_of (user_tag u)] ++ user_body u) user_ok.
Proof.
  apply codec_tagged_by; [apply codec_malformed, codec_u8|intros []; cbn; unfold is_u8; lia|].
  intros t. case_decide; [|case_decide]; subst.
  - apply codec_con0; [done|]. intros []; cbn; naive_solver.
  - apply (codec_con _ Some _ _ _ _ (codec_malformed_text _ _)); [done|]. intros []; cbn; naive_solver.
  - apply codec_fail. intros []; cbn; lia.
Qed.

Record entry_wf (e : NameEntry) : Prop := {
  ew_id : str_ok (ne_id e); ew_label : str_ok (ne_label e); ew_backing : back_ok (ne_backing e) }.
Definition enc_name_entry (e : NameEntry) : bytes :=
  enc_bytes (ne_id e) ++ enc_bytes (ne_label e) ++ [byte_of (back_tag (ne_backing e))] ++ back_body (ne_backing e).

#[export] Instance codec_name_entry : Codec get_name_entry enc_name_entry entry_wf.
Proof.
  record_codec get_name_entry.
  { field ne_id. field ne_label. field ne_backing. record_done. }
  - intros []. split; [intros (?&?); destruct_and?; by split|intros []; naive_solver].
  - intros x _. unfold enc_name_entry. by rewrite app_nil_r.
Qed.

#[export] Instance codec_names : Codec get_names (enc_list enc_name_entry) (list_ok MAX_NAMES entry_wf).
Proof.
  pose proof (codec_counted MAX_NAMES (CMalformed "too many names") get_name_entry _ _ ltac:(by vm_compute) codec_name_entry) as Hc.
  destruct Hc as [Hd Hi]. split.
  - intros l Hl r tl Hw Hr. destruct (Hd l Hl r tl Hw Hr) as (r' & E1 & ?). exists r'. split; [|done]. revert E1.
    unfold get_names, counted, gbind, malformed, q. by destruct (get_u32 r) as [[]|].
  - intros r l r' Hw H. apply Hi; [done|]. revert H.
    unfold get_names, counted, gbind, malformed, q. by destruct (get_u32 r) as [[]|].
Qed.

Definition book_ok (b : NameBook) : Prop := list_ok MAX_NAMES entry_wf (nb_entries b) /\ user_ok (nb_default b).

Lemma into_vec_put_name_entry e w : into_vec (put_name_entry e w) = into_vec w ++ enc_name_entry e.
Proof. unfold put_name_entry, enc_name_entry. destruct (ne_backing e); wire_norm; done. Qed.

Lemma book_decode_exact b k : zlen b <= usize_max -> (book_decode b = Ok k <-> book_ok k /\ b = book_encode k).
Proof.
  intros Hb. unfold book_decode.
  rewrite (codec_exact_err _ _ (fun k => enc_list enc_name_entry (nb_entries k) ++
    [byte_of (user_tag (nb_default k))] ++ user_body (nb_default k)) book_ok b k);
    [|eapply (codec_iff _ _ _ (fun b => _ /\ True))|done].
  - unfold book_encode, enc_list. destruct (nb_default k) as [d|]; autorewrite with wire;
      rewrite (into_vec_put_each put_name_entry enc_name_entry) by (intros; apply into_vec_put_name_entry); wire_norm;
      rewrite be_bytes_4_wrap; done.
  - field nb_entries. field nb_default. record_done.
  - intros []. unfold book_ok. cbn. naive_solver.
  - intros x _. cbn. by rewrite app_nil_r.
Qed.

Lemma replace_first_spec e l :
  match replace_first e l with
  | Some l' => ne_id <$> l' = ne_id <$> l /\
               forall id, List.find (fun x => bool_decide (ne_id x = id)) l' =
                 if decide (id = ne_id e) then Some e else List.find (fun x => bool_decide (ne_id x = id)) l
  | None => List.find (fun x => bool_decide (ne_id x = ne_id e)) l = None
  end.
Proof.
  induction l as [|x l IH]; [done|]. cbn [replace_first List.find]. case_decide as Hx.
  - cbn. rewrite Hx. split; [done|]. intros id. destruct (decide (id = ne_id e)) as [->|Hne].
    + by rewrite bool_decide_true.
    + by rewrite !bool_decide_false by congruence.
  - destruct (replace_first e l) as [l'|]; cbn [fmap option_fmap option_map].
    + destruct IH as [Hi Hf]. cbn [List.find]. split; [by rewrite !fmap_cons, Hi|]. intros id. rewrite Hf.
      case_bool_decide; [|done]. by rewrite decide_False by congruence.
    + by rewrite bool_decide_false.
Qed.

(** Saving a name: it is found under its id, every other id is as before, and
    no id occurs twice. *)
Lemma book_upsert_spec e b :
  NoDup (ne_id <$> nb_entries b) ->
  NoDup (ne_id <$> nb_entries (book_upsert e b)) /\
  forall id, book_get (book_upsert e b) id = if decide (id = ne_id e) then Some e else book_get b id.
Proof.
  intros Hn. unfold book_upsert, book_get. pose proof (replace_first_spec e (nb_entries b)) as Hr.
  destruct (replace_first e (nb_entries b)) as [l|]; cbn [nb_entries].
  - destruct Hr as [-> Hf]. done.
  - split.
    + rewrite fmap_app. apply NoDup_app. split; [done|]. split; [|apply NoDup_singleton].
      intros x (y & -> & Hy%list_elem_of_In)%list_elem_of_fmap Hs. apply list_elem_of_singleton in Hs.
      pose proof (find_none _ _ Hr y Hy) as Hx. by apply bool_decide_eq_false in Hx.
    + intros id. rewrite find_app. destruct (decide (id = ne_id e)) as [->|Hne].
      * rewrite Hr. cbn. by rewrite bool_decide_true.
      * cbn. rewrite (bool_decide_false (ne_id e = id)) by congruence.
        by destruct (find (fun x => bool_decide (ne_id x = id)) (nb_entries b)).
Qed.

Lemma book_remove_spec id b :
  let r := book_remove id b in
  r.1 = bool_decide (book_get b id <> None) /\ book_get r.2 id = None /\ nb_default r.2 <> Some id /\
  forall j, j <> id -> book_get r.2 j = book_get b j.
Proof.
  unfold book_remove, book_get. cbn [fst snd nb_entries nb_default]. split; [|split; [|split]].
  - induction (nb_entries b) as [|x l IH]; [done|]. rewrite filter_cons. cbn [List.find].
    destruct (decide (ne_id x = id)) as [->|Hne].
    + rewrite decide_False by tauto. rewrite (bool_decide_true (id = id)) by done. rewrite !bool_decide_true; [done..|].
      pose proof (length_filter (fun e => ne_id e <> id) l). cbn. lia.
    + rewrite decide_True by done. rewrite (bool_decide_false (ne_id x = id)) by done. rewrite <- IH. cbn.
      apply bool_decide_ext. lia.
  - induction (nb_entries b) as [|x l IH]; [done|]. rewrite filter_cons. case_decide; [|done]. cbn.
    by rewrite bool_decide_false.
  - case_decide; congruence.
  - intros j Hj. induction (nb_entries b) as [|x l IH]; [done|]. rewrite filter_cons. cbn [List.find].
    case_decide as Hd; cbn [List.find].
    + case_bool_decide; [done|apply IH].
    + rewrite bool_decide_false; [done|]. congruence.
Qed.

(** ** Rendering *)

Lemma max_strictness_spec a b :
  strictness (max_strictness a b) = Z.max (strictness a) (strictness b) /\
  (max_strictness a b = a \/ max_strictness a b = b).
Proof. unfold max_strictness. case_decide; split; (lia || tauto). Qed.

Section RenderProps.
Context (nfkc_lower : bytes -> list Z).

(** Another peer holds a confusable name of a higher tier. *)
Definition collision_in (subject_fp : bytes) (rec : NameRecord) (others : gmap bytes NameRecord) (o : NameRecord) : Prop :=
  exists fp, others !! fp = Some o /\ fp <> subject_fp /\
    tier_rank (nr_tier o) > tier_rank (nr_tier rec) /\
    confusable_fold nfkc_lower (nr_label o) = confusable_fold nfkc_lower (nr_label rec).

Lemma max_by_rank_spec best l :
  match max_by_rank best l with
  | None => best = None /\ l = []
  | Some o => (best = Some o \/ o ∈ l) /\
      (forall x, best = Some x \/ x ∈ l -> tier_rank (nr_tier x) <= tier_rank (nr_tier o))
  end.
Proof.
  revert best. induction l as [|x l IH]; intros best; cbn [max_by_rank].
  - destruct best as [b|]; [|done]. split; [by left|]. intros y [[= <-]|Hy]; [lia|]. by apply not_elem_of_nil in Hy.
  - set (best' := match best with Some b => _ | None => _ end). specialize (IH best').
    destruct (max_by_rank best' l) as [o|].
    + destruct IH as [Ho Hmax]. split.
      * destruct Ho as [Ho|Ho]; [|right; by apply list_elem_of_further]. unfold best' in Ho.
        destruct best as [b|]; [case_decide|]; simplify_eq; (by left) || (right; apply list_elem_of_here).
      * intros y Hy. assert (exists z, best' = Some z /\ (best = Some y \/ y = x -> tier_rank (nr_tier y) <= tier_rank (nr_tier z)))
          as (z & Hz & Hyz).
        { unfold best'. destruct best as [b|]; [case_decide|]; eexists; (split; [done|]); intros [?|?]; simplify_eq; lia. }
        pose proof (Hmax z (or_introl Hz)). rewrite elem_of_cons in Hy. destruct Hy as [Hy|[Hy|Hy]].
        -- pose proof (Hyz (or_introl Hy)). lia.
        -- pose proof (Hyz (or_intror Hy)). lia.
        -- by apply Hmax; right.
    + destruct IH as [Hb _]. unfold best' in Hb. destruct best; [case_decide|]; done.
Qed.

Lemma collisions_elem subject_fp rec others o :
  o ∈ (snd <$> filter (fun x => Is_true (collides_with nfkc_lower subject_fp rec x)) (map_to_list others)) <->
  collision_in subject_fp rec others o.
Proof.
  rewrite list_elem_of_fmap. unfold collision_in, collides_with. split.
  - intros ([fp r] & -> & Hin). apply list_elem_of_filter in Hin as [Hc Hin]. apply elem_of_map_to_list in Hin.
    apply Is_true_true, andb_true_iff in Hc as [Hc H3]. apply andb_true_iff in Hc as [H1 H2].
    rewrite bool_decide_eq_true in H1, H2, H3. by exists fp.
  - intros (fp & Hl & H1 & H2 & H3). exists (fp, o). split; [done|]. apply list_elem_of_filter.
    split; [|by apply elem_of_map_to_list]. by rewrite !bool_decide_true by done.
Qed.

(** How a name that imitates a better-attested one is shown.  When some other
    peer holds a confusable name of a higher tier, the suppressing policy never
    shows the label, vouched for or not, and the warning policy shows it only
    with a caveat that names a genuine holder of the highest tier (unless the
    subject is vouched for, whose badge takes the caveat's place).  Without such a
    peer the label is shown as it is, under every policy. *)
Lemma render_guards_names fp rec others policy sn isolated amplify vouched badge :
  let r := resolve_render nfkc_lower fp rec others policy sn isolated amplify vouched badge in
  let collides := exists o, collision_in fp rec others o in
  (~ collides -> rd_label r = Some (nr_label rec)) /\
  (collides ->
     match policy with
     | SignalStyle => rd_label r = Some (nr_label rec)
     | WarnOnCollision =>
         rd_label r = Some (nr_label rec) /\
         (vouched = false -> exists o, rd_caveat r = Some (CavClaims (nr_label rec) (nr_label o)) /\
            collision_in fp rec others o /\
            forall o', collision_in fp rec others o' -> tier_rank (nr_tier o') <= tier_rank (nr_tier o))
     | SuppressColliding => rd_label r = None
     end).
Proof.
  cbv zeta. unfold resolve_render.
  pose proof (max_by_rank_spec None (snd <$> filter (fun x => Is_true (collides_with nfkc_lower fp rec x)) (map_to_list others))) as Hm.
  destruct (max_by_rank None _) as [o|].
  - destruct Hm as [[?|Ho] Hmax]; [done|]. apply collisions_elem in Ho. rewrite (bool_decide_true (is_Some (Some o))) by done.
    split; [intros Hn; destruct Hn; by exists o|]. intros _. destruct policy; cbn; [done| |done].
    split; [done|]. intros ->. exists o. split; [done|]. split; [done|]. intros o' Ho'. apply Hmax. right. by apply collisions_elem.
  - destruct Hm as [_ Hn]. rewrite bool_decide_false by (by intros []). split; [done|].
    intros [o Ho]. apply collisions_elem in Ho. rewrite Hn in Ho. by apply not_elem_of_nil in Ho.
Qed.

(** A viewer who tightens the chat's policy sees the same label or none. *)
Lemma stricter_shows_less fp rec others p q sn isolated amplify vouched badge :
  let shown pol := rd_label (resolve_render nfkc_lower fp rec others pol sn isolated amplify vouched badge) in
  shown (max_strictness p q) = shown p \/ shown (max_strictness p q) = None.
Proof.
  unfold resolve_render. destruct (bool_decide _); [|by left]. unfold max_strictness, strictness.
  destruct p, q; cbn; auto.
Qed.

End RenderProps.

(** Under the warning policy, a vouch replaces the collision warning: an
    impostor's name that clears the vouch threshold is shown without it. *)
Lemma vouch_hides_warning :
  let alice := mkRecord (bstr "alice") TierLinked 1 (Some (bstr "acct")) in
  let impostor := mkRecord (bstr "alice") TierBare 1 None in
  let r := resolve_render (map bval) (bstr "mallory") impostor {[bstr "dev" := alice]} WarnOnCollision [] true true
             true (Some (CavVouched 6)) in
  rd_label r = Some (bstr "alice") /\ rd_caveat r = Some (CavVouched 6) /\ rd_tint r = Vouched.
Proof. vm_compute. done. Qed.
