(* ===== verification/People.v ===== *)
(** * The engine's view of the people in a chat (crates/core/src/engine.rs)

    The part of [Inner] that deals with who is who: contacts and access,
    revocations, names, grouping disclosures, vouches, routes and the accounts
    bound to group leaves, with the handlers that change them.  A handler takes
    the bytes a peer sent and the fingerprint they are attributed to; the clock is
    an argument.  What is sent out is recorded in [pe_announced] (payloads for the
    chat, carried by the session or group layer) and [pe_flooded]. *)

From S2P Require Import Prelude Wire Crypto Marking Frames TreeKem Engine Forward Codec Account Relay Contacts Linkage Vouch Presence.

Inductive PayloadKind : Type := KPresence | KLinkage | KVouch.

#[export] Instance payload_kind_eq_dec : EqDecision PayloadKind.
Proof. solve_decision. Defined.

Record VouchRecord : Type := mkVouchRecord { vr_epoch : Z; vr_voucher : IdentityPublic; vr_sender_fp : bytes }.

Inductive PEvent : Type :=
| PError          (** the text is for display *)
| PIdentity (from account_fp : bytes) (username : option bytes) (contact friend : bool)
| PName (from : bytes) (account_fp : option bytes) (label : option bytes) (tier : NameTier) (seq : Z) (caveat : option Caveat)
| PLinkage (subject grouping_pub : bytes) (verdict : bool)
| PVouch (subject : bytes) (score : Z) (vouched inflation_rejected : bool).

(** The chat descriptor's part in this, and what does not change. *)
Record Chat : Type := mkChat {
  ch_invite_token : bytes; ch_channel : bytes; ch_access_predicate : option Predicate;
  ch_vouch_policy : VouchPolicy; ch_name_trust_policy : NameTrustPolicy; ch_amplify_isolated : bool;
  ch_role : GroupRole; ch_relayed : bool; ch_identity : IdentityKeyPair }.

Section People.
Context {P : Primitives} (sha256 sha3_384 : bytes -> bytes) (nfkc_lower : bytes -> list Z).

Record People : Type := mkPeople {
  pe_chat : Chat;
  pe_gossip : bool;
  pe_group : option TreeKemGroup;
  pe_roster : gmap Z bytes;
  pe_peers : list bytes;  (** fingerprints of the connected peers *)
  pe_contacts : ContactStore;
  pe_access : AccessPolicy;
  pe_admitted : gset bytes;  (** [admitted_peers] *)
  pe_revocations : gset (bytes * bytes);  (** account and device fingerprints *)
  pe_seen_accounts : gmap bytes IdentityPublic;
  pe_names : gmap bytes NameRecord;
  pe_rate : gmap bytes (Z * Z);  (** [presence_rate] *)
  pe_policy_override : option NameTrustPolicy;
  pe_groupings : gmap bytes (gset bytes);  (** [groupings_seen] *)
  pe_linkage_seq : gmap bytes Z;
  pe_vouches : gmap bytes (gmap bytes VouchRecord);
  pe_user_weighting : option VouchWeighting;
  pe_user_threshold : option Threshold;
  pe_my_vouches : list VouchTarget;
  pe_round : Z;
  pe_voucher_round : gmap bytes Z;
  pe_last_advancer : option bytes;  (** [last_round_advancer] *)
  pe_routes : gmap bytes (Z * list bytes);  (** [known_routes] *)
  pe_leaf_accounts : gmap Z bytes;  (** [verified_leaf_accounts] *)
  pe_seen : SeenSet;
  pe_leading : option NameEntry;  (** [leading_name] *)
  pe_presence_seq : Z;
  pe_grouping_root : bytes;
  pe_events : list PEvent;
  pe_announced : list (PayloadKind * bytes);  (** payloads sent to the chat *)
  pe_flooded : list (bytes * Frame) }.  (** frames passed on to single peers *)

Definition set_gossip (x : bool) (s : People) : People :=
  mkPeople (pe_chat s) x (pe_group s) (pe_roster s) (pe_peers s) (pe_contacts s) (pe_access s) (pe_admitted s)
    (pe_revocations s) (pe_seen_accounts s) (pe_names s) (pe_rate s) (pe_policy_override s) (pe_groupings s)
    (pe_linkage_seq s) (pe_vouches s) (pe_user_weighting s) (pe_user_threshold s) (pe_my_vouches s) (pe_round s)
    (pe_voucher_round s) (pe_last_advancer s) (pe_routes s) (pe_leaf_accounts s) (pe_seen s) (pe_leading s)
    (pe_presence_seq s) (pe_grouping_root s) (pe_events s) (pe_announced s) (pe_flooded s).
Definition set_group (x : option TreeKemGroup) (s : People) : People :=
  mkPeople (pe_chat s) (pe_gossip s) x (pe_roster s) (pe_peers s) (pe_contacts s) (pe_access s) (pe_admitted s)
    (pe_revocations s) (pe_seen_accounts s) (pe_names s) (pe_rate s) (pe_policy_override s) (pe_groupings s)
    (pe_linkage_seq s) (pe_vouches s) (pe_user_weighting s) (pe_user_threshold s) (pe_my_vouches s) (pe_round s)
    (pe_voucher_round s) (pe_last_advancer s) (pe_routes s) (pe_leaf_accounts s) (pe_seen s) (pe_leading s)
    (pe_presence_seq s) (pe_grouping_root s) (pe_events s) (pe_announced s) (pe_flooded s).
Definition set_roster (x : gmap Z bytes) (s : People) : People :=
  mkPeople (pe_chat s) (pe_gossip s) (pe_group s) x (pe_peers s) (pe_contacts s) (pe_access s) (pe_admitted s)
    (pe_revocations s) (pe_seen_accounts s) (pe_names s) (pe_rate s) (pe_policy_override s) (pe_groupings s)
    (pe_linkage_seq s) (pe_vouches s) (pe_user_weighting s) (pe_user_threshold s) (pe_my_vouches s) (pe_round s)
    (pe_voucher_round s) (pe_last_advancer s) (pe_routes s) (pe_leaf_accounts s) (pe_seen s) (pe_leading s)
    (pe_presence_seq s) (pe_grouping_root s) (pe_events s) (pe_announced s) (pe_flooded s).
Definition set_peers (x : list bytes) (s : People) : People :=
  mkPeople (pe_chat s) (pe_gossip s) (pe_group s) (pe_roster s) x (pe_contacts s) (pe_access s) (pe_admitted s)
    (pe_revocations s) (pe_seen_accounts s) (pe_names s) (pe_rate s) (pe_policy_override s) (pe_groupings s)
    (pe_linkage_seq s) (pe_vouches s) (pe_user_weighting s) (pe_user_threshold s) (pe_my_vouches s) (pe_round s)
    (pe_voucher_round s) (pe_last_advancer s) (pe_routes s) (pe_leaf_accounts s) (pe_seen s) (pe_leading s)
    (pe_presence_seq s) (pe_grouping_root s) (pe_events s) (pe_announced s) (pe_flooded s).
Definition set_contacts (x : ContactStore) (s : People) : People :=
  mkPeople (pe_chat s) (pe_gossip s) (pe_group s) (pe_roster s) (pe_peers s) x (pe_access s) (pe_admitted s)
    (pe_revocations s) (pe_seen_accounts s) (pe_names s) (pe_rate s) (pe_policy_override s) (pe_groupings s)
    (pe_linkage_seq s) (pe_vouches s) (pe_user_weighting s) (pe_user_threshold s) (pe_my_vouches s) (pe_round s)
    (pe_voucher_round s) (pe_last_advancer s) (pe_routes s) (pe_leaf_accounts s) (pe_seen s) (pe_leading s)
    (pe_presence_seq s) (pe_grouping_root s) (pe_events s) (pe_announced s) (pe_flooded s).
Definition set_access (x : AccessPolicy) (s : People) : People :=
  mkPeople (pe_chat s) (pe_gossip s) (pe_group s) (pe_roster s) (pe_peers s) (pe_contacts s) x (pe_admitted s)
    (pe_revocations s) (pe_seen_accounts s) (pe_names s) (pe_rate s) (pe_policy_override s) (pe_groupings s)
    (pe_linkage_seq s) (pe_vouches s) (pe_user_weighting s) (pe_user_threshold s) (pe_my_vouches s) (pe_round s)
    (pe_voucher_round s) (pe_last_advancer s) (pe_routes s) (pe_leaf_accounts s) (pe_seen s) (pe_leading s)
    (pe_presence_seq s) (pe_grouping_root s) (pe_events s) (pe_announced s) (pe_flooded s).
Definition set_admitted (x : gset bytes) (s : People) : People :=
  mkPeople (pe_chat s) (pe_gossip s) (pe_group s) (pe_roster s) (pe_peers s) (pe_contacts s) (pe_access s) x
    (pe_revocations s) (pe_seen_accounts s) (pe_names s) (pe_rate s) (pe_policy_override s) (pe_groupings s)
    (pe_linkage_seq s) (pe_vouches s) (pe_user_weighting s) (pe_user_threshold s) (pe_my_vouches s) (pe_round s)
    (pe_voucher_round s) (pe_last_advancer s) (pe_routes s) (pe_leaf_accounts s) (pe_seen s) (pe_leading s)
    (pe_presence_seq s) (pe_grouping_root s) (pe_events s) (pe_announced s) (pe_flooded s).
Definition set_revocations (x : gset (bytes * bytes)) (s : People) : People :=
  mkPeople (pe_chat s) (pe_gossip s) (pe_group s) (pe_roster s) (pe_peers s) (pe_contacts s) (pe_access s)
    (pe_admitted s) x (pe_seen_accounts s) (pe_names s) (pe_rate s) (pe_policy_override s) (pe_groupings s)
    (pe_linkage_seq s) (pe_vouches s) (pe_user_weighting s) (pe_user_threshold s) (pe_my_vouches s) (pe_round s)
    (pe_voucher_round s) (pe_last_advancer s) (pe_routes s) (pe_leaf_accounts s) (pe_seen s) (pe_leading s)
    (pe_presence_seq s) (pe_grouping_root s) (pe_events s) (pe_announced s) (pe_flooded s).
Definition set_seen_accounts (x : gmap bytes IdentityPublic) (s : People) : People :=
  mkPeople (pe_chat s) (pe_gossip s) (pe_group s) (pe_roster s) (pe_peers s) (pe_contacts s) (pe_access s)
    (pe_admitted s) (pe_revocations s) x (pe_names s) (pe_rate s) (pe_policy_override s) (pe_groupings s)
    (pe_linkage_seq s) (pe_vouches s) (pe_user_weighting s) (pe_user_threshold s) (pe_my_vouches s) (pe_round s)
    (pe_voucher_round s) (pe_last_advancer s) (pe_routes s) (pe_leaf_accounts s) (pe_seen s) (pe_leading s)
    (pe_presence_seq s) (pe_grouping_root s) (pe_events s) (pe_announced s) (pe_flooded s).
Definition set_names (x : gmap bytes NameRecord) (s : People) : People :=
  mkPeople (pe_chat s) (pe_gossip s) (pe_group s) (pe_roster s) (pe_peers s) (pe_contacts s) (pe_access s)
    (pe_admitted s) (pe_revocations s) (pe_seen_accounts s) x (pe_rate s) (pe_policy_override s) (pe_groupings
    s) (pe_linkage_seq s) (pe_vouches s) (pe_user_weighting s) (pe_user_threshold s) (pe_my_vouches s) (pe_round
    s) (pe_voucher_round s) (pe_last_advancer s) (pe_routes s) (pe_leaf_accounts s) (pe_seen s) (pe_leading s)
    (pe_presence_seq s) (pe_grouping_root s) (pe_events s) (pe_announced s) (pe_flooded s).
Definition set_rate (x : gmap bytes (Z * Z)) (s : People) : People :=
  mkPeople (pe_chat s) (pe_gossip s) (pe_group s) (pe_roster s) (pe_peers s) (pe_contacts s) (pe_access s)
    (pe_admitted s) (pe_revocations s) (pe_seen_accounts s) (pe_names s) x (pe_policy_override s) (pe_groupings
    s) (pe_linkage_seq s) (pe_vouches s) (pe_user_weighting s) (pe_user_threshold s) (pe_my_vouches s) (pe_round
    s) (pe_voucher_round s) (pe_last_advancer s) (pe_routes s) (pe_leaf_accounts s) (pe_seen s) (pe_leading s)
    (pe_presence_seq s) (pe_grouping_root s) (pe_events s) (pe_announced s) (pe_flooded s).
Definition set_policy_override (x : option NameTrustPolicy) (s : People) : People :=
  mkPeople (pe_chat s) (pe_gossip s) (pe_group s) (pe_roster s) (pe_peers s) (pe_contacts s) (pe_access s)
    (pe_admitted s) (pe_revocations s) (pe_seen_accounts s) (pe_names s) (pe_rate s) x (pe_groupings s)
    (pe_linkage_seq s) (pe_vouches s) (pe_user_weighting s) (pe_user_threshold s) (pe_my_vouches s) (pe_round s)
    (pe_voucher_round s) (pe_last_advancer s) (pe_routes s) (pe_leaf_accounts s) (pe_seen s) (pe_leading s)
    (pe_presence_seq s) (pe_grouping_root s) (pe_events s) (pe_announced s) (pe_flooded s).
Definition set_groupings (x : gmap bytes (gset bytes)) (s : People) : People :=
  mkPeople (pe_chat s) (pe_gossip s) (pe_group s) (pe_roster s) (pe_peers s) (pe_contacts s) (pe_access s)
    (pe_admitted s) (pe_revocations s) (pe_seen_accounts s) (pe_names s) (pe_rate s) (pe_policy_override s) x
    (pe_linkage_seq s) (pe_vouches s) (pe_user_weighting s) (pe_user_threshold s) (pe_my_vouches s) (pe_round s)
    (pe_voucher_round s) (pe_last_advancer s) (pe_routes s) (pe_leaf_accounts s) (pe_seen s) (pe_leading s)
    (pe_presence_seq s) (pe_grouping_root s) (pe_events s) (pe_announced s) (pe_flooded s).
Definition set_linkage_seq (x : gmap bytes Z) (s : People) : People :=
  mkPeople (pe_chat s) (pe_gossip s) (pe_group s) (pe_roster s) (pe_peers s) (pe_contacts s) (pe_access s)
    (pe_admitted s) (pe_revocations s) (pe_seen_accounts s) (pe_names s) (pe_rate s) (pe_policy_override s)
    (pe_groupings s) x (pe_vouches s) (pe_user_weighting s) (pe_user_threshold s) (pe_my_vouches s) (pe_round s)
    (pe_voucher_round s) (pe_last_advancer s) (pe_routes s) (pe_leaf_accounts s) (pe_seen s) (pe_leading s)
    (pe_presence_seq s) (pe_grouping_root s) (pe_events s) (pe_announced s) (pe_flooded s).
Definition set_vouches (x : gmap bytes (gmap bytes VouchRecord)) (s : People) : People :=
  mkPeople (pe_chat s) (pe_gossip s) (pe_group s) (pe_roster s) (pe_peers s) (pe_contacts s) (pe_access s)
    (pe_admitted s) (pe_revocations s) (pe_seen_accounts s) (pe_names s) (pe_rate s) (pe_policy_override s)
    (pe_groupings s) (pe_linkage_seq s) x (pe_user_weighting s) (pe_user_threshold s) (pe_my_vouches s)
    (pe_round s) (pe_voucher_round s) (pe_last_advancer s) (pe_routes s) (pe_leaf_accounts s) (pe_seen s)
    (pe_leading s) (pe_presence_seq s) (pe_grouping_root s) (pe_events s) (pe_announced s) (pe_flooded s).
Definition set_user_weighting (x : option VouchWeighting) (s : People) : People :=
  mkPeople (pe_chat s) (pe_gossip s) (pe_group s) (pe_roster s) (pe_peers s) (pe_contacts s) (pe_access s)
    (pe_admitted s) (pe_revocations s) (pe_seen_accounts s) (pe_names s) (pe_rate s) (pe_policy_override s)
    (pe_groupings s) (pe_linkage_seq s) (pe_vouches s) x (pe_user_threshold s) (pe_my_vouches s) (pe_round s)
    (pe_voucher_round s) (pe_last_advancer s) (pe_routes s) (pe_leaf_accounts s) (pe_seen s) (pe_leading s)
    (pe_presence_seq s) (pe_grouping_root s) (pe_events s) (pe_announced s) (pe_flooded s).
Definition set_user_threshold (x : option Threshold) (s : People) : People :=
  mkPeople (pe_chat s) (pe_gossip s) (pe_group s) (pe_roster s) (pe_peers s) (pe_contacts s) (pe_access s)
    (pe_admitted s) (pe_revocations s) (pe_seen_accounts s) (pe_names s) (pe_rate s) (pe_policy_override s)
    (pe_groupings s) (pe_linkage_seq s) (pe_vouches s) (pe_user_weighting s) x (pe_my_vouches s) (pe_round s)
    (pe_voucher_round s) (pe_last_advancer s) (pe_routes s) (pe_leaf_accounts s) (pe_seen s) (pe_leading s)
    (pe_presence_seq s) (pe_grouping_root s) (pe_events s) (pe_announced s) (pe_flooded s).
Definition set_my_vouches (x : list VouchTarget) (s : People) : People :=
  mkPeople (pe_chat s) (pe_gossip s) (pe_group s) (pe_roster s) (pe_peers s) (pe_contacts s) (pe_access s)
    (pe_admitted s) (pe_revocations s) (pe_seen_accounts s) (pe_names s) (pe_rate s) (pe_policy_override s)
    (pe_groupings s) (pe_linkage_seq s) (pe_vouches s) (pe_user_weighting s) (pe_user_threshold s) x (pe_round
    s) (pe_voucher_round s) (pe_last_advancer s) (pe_routes s) (pe_leaf_accounts s) (pe_seen s) (pe_leading s)
    (pe_presence_seq s) (pe_grouping_root s) (pe_events s) (pe_announced s) (pe_flooded s).
Definition set_round (x : Z) (s : People) : People :=
  mkPeople (pe_chat s) (pe_gossip s) (pe_group s) (pe_roster s) (pe_peers s) (pe_contacts s) (pe_access s)
    (pe_admitted s) (pe_revocations s) (pe_seen_accounts s) (pe_names s) (pe_rate s) (pe_policy_override s)
    (pe_groupings s) (pe_linkage_seq s) (pe_vouches s) (pe_user_weighting s) (pe_user_threshold s)
    (pe_my_vouches s) x (pe_voucher_round s) (pe_last_advancer s) (pe_routes s) (pe_leaf_accounts s) (pe_seen s)
    (pe_leading s) (pe_presence_seq s) (pe_grouping_root s) (pe_events s) (pe_announced s) (pe_flooded s).
Definition set_voucher_round (x : gmap bytes Z) (s : People) : People :=
  mkPeople (pe_chat s) (pe_gossip s) (pe_group s) (pe_roster s) (pe_peers s) (pe_contacts s) (pe_access s)
    (pe_admitted s) (pe_revocations s) (pe_seen_accounts s) (pe_names s) (pe_rate s) (pe_policy_override s)
    (pe_groupings s) (pe_linkage_seq s) (pe_vouches s) (pe_user_weighting s) (pe_user_threshold s)
    (pe_my_vouches s) (pe_round s) x (pe_last_advancer s) (pe_routes s) (pe_leaf_accounts s) (pe_seen s)
    (pe_leading s) (pe_presence_seq s) (pe_grouping_root s) (pe_events s) (pe_announced s) (pe_flooded s).
Definition set_last_advancer (x : option bytes) (s : People) : People :=
  mkPeople (pe_chat s) (pe_gossip s) (pe_group s) (pe_roster s) (pe_peers s) (pe_contacts s) (pe_access s)
    (pe_admitted s) (pe_revocations s) (pe_seen_accounts s) (pe_names s) (pe_rate s) (pe_policy_override s)
    (pe_groupings s) (pe_linkage_seq s) (pe_vouches s) (pe_user_weighting s) (pe_user_threshold s)
    (pe_my_vouches s) (pe_round s) (pe_voucher_round s) x (pe_routes s) (pe_leaf_accounts s) (pe_seen s)
    (pe_leading s) (pe_presence_seq s) (pe_grouping_root s) (pe_events s) (pe_announced s) (pe_flooded s).
Definition set_routes (x : gmap bytes (Z * list bytes)) (s : People) : People :=
  mkPeople (pe_chat s) (pe_gossip s) (pe_group s) (pe_roster s) (pe_peers s) (pe_contacts s) (pe_access s)
    (pe_admitted s) (pe_revocations s) (pe_seen_accounts s) (pe_names s) (pe_rate s) (pe_policy_override s)
    (pe_groupings s) (pe_linkage_seq s) (pe_vouches s) (pe_user_weighting s) (pe_user_threshold s)
    (pe_my_vouches s) (pe_round s) (pe_voucher_round s) (pe_last_advancer s) x (pe_leaf_accounts s) (pe_seen s)
    (pe_leading s) (pe_presence_seq s) (pe_grouping_root s) (pe_events s) (pe_announced s) (pe_flooded s).
Definition set_leaf_accounts (x : gmap Z bytes) (s : People) : People :=
  mkPeople (pe_chat s) (pe_gossip s) (pe_group s) (pe_roster s) (pe_peers s) (pe_contacts s) (pe_access s)
    (pe_admitted s) (pe_revocations s) (pe_seen_accounts s) (pe_names s) (pe_rate s) (pe_policy_override s)
    (pe_groupings s) (pe_linkage_seq s) (pe_vouches s) (pe_user_weighting s) (pe_user_threshold s)
    (pe_my_vouches s) (pe_round s) (pe_voucher_round s) (pe_last_advancer s) (pe_routes s) x (pe_seen s)
    (pe_leading s) (pe_presence_seq s) (pe_grouping_root s) (pe_events s) (pe_announced s) (pe_flooded s).
Definition set_seen (x : SeenSet) (s : People) : People :=
  mkPeople (pe_chat s) (pe_gossip s) (pe_group s) (pe_roster s) (pe_peers s) (pe_contacts s) (pe_access s)
    (pe_admitted s) (pe_revocations s) (pe_seen_accounts s) (pe_names s) (pe_rate s) (pe_policy_override s)
    (pe_groupings s) (pe_linkage_seq s) (pe_vouches s) (pe_user_weighting s) (pe_user_threshold s)
    (pe_my_vouches s) (pe_round s) (pe_voucher_round s) (pe_last_advancer s) (pe_routes s) (pe_leaf_accounts s)
    x (pe_leading s) (pe_presence_seq s) (pe_grouping_root s) (pe_events s) (pe_announced s) (pe_flooded s).
Definition set_leading (x : option NameEntry) (s : People) : People :=
  mkPeople (pe_chat s) (pe_gossip s) (pe_group s) (pe_roster s) (pe_peers s) (pe_contacts s) (pe_access s)
    (pe_admitted s) (pe_revocations s) (pe_seen_accounts s) (pe_names s) (pe_rate s) (pe_policy_override s)
    (pe_groupings s) (pe_linkage_seq s) (pe_vouches s) (pe_user_weighting s) (pe_user_threshold s)
    (pe_my_vouches s) (pe_round s) (pe_voucher_round s) (pe_last_advancer s) (pe_routes s) (pe_leaf_accounts s)
    (pe_seen s) x (pe_presence_seq s) (pe_grouping_root s) (pe_events s) (pe_announced s) (pe_flooded s).
Definition set_presence_seq (x : Z) (s : People) : People :=
  mkPeople (pe_chat s) (pe_gossip s) (pe_group s) (pe_roster s) (pe_peers s) (pe_contacts s) (pe_access s)
    (pe_admitted s) (pe_revocations s) (pe_seen_accounts s) (pe_names s) (pe_rate s) (pe_policy_override s)
    (pe_groupings s) (pe_linkage_seq s) (pe_vouches s) (pe_user_weighting s) (pe_user_threshold s)
    (pe_my_vouches s) (pe_round s) (pe_voucher_round s) (pe_last_advancer s) (pe_routes s) (pe_leaf_accounts s)
    (pe_seen s) (pe_leading s) x (pe_grouping_root s) (pe_events s) (pe_announced s) (pe_flooded s).
Definition set_grouping_root (x : bytes) (s : People) : People :=
  mkPeople (pe_chat s) (pe_gossip s) (pe_group s) (pe_roster s) (pe_peers s) (pe_contacts s) (pe_access s)
    (pe_admitted s) (pe_revocations s) (pe_seen_accounts s) (pe_names s) (pe_rate s) (pe_policy_override s)
    (pe_groupings s) (pe_linkage_seq s) (pe_vouches s) (pe_user_weighting s) (pe_user_threshold s)
    (pe_my_vouches s) (pe_round s) (pe_voucher_round s) (pe_last_advancer s) (pe_routes s) (pe_leaf_accounts s)
    (pe_seen s) (pe_leading s) (pe_presence_seq s) x (pe_events s) (pe_announced s) (pe_flooded s).
Definition set_events (x : list PEvent) (s : People) : People :=
  mkPeople (pe_chat s) (pe_gossip s) (pe_group s) (pe_roster s) (pe_peers s) (pe_contacts s) (pe_access s)
    (pe_admitted s) (pe_revocations s) (pe_seen_accounts s) (pe_names s) (pe_rate s) (pe_policy_override s)
    (pe_groupings s) (pe_linkage_seq s) (pe_vouches s) (pe_user_weighting s) (pe_user_threshold s)
    (pe_my_vouches s) (pe_round s) (pe_voucher_round s) (pe_last_advancer s) (pe_routes s) (pe_leaf_accounts s)
    (pe_seen s) (pe_leading s) (pe_presence_seq s) (pe_grouping_root s) x (pe_announced s) (pe_flooded s).
Definition set_announced (x : list (PayloadKind * bytes)) (s : People) : People :=
  mkPeople (pe_chat s) (pe_gossip s) (pe_group s) (pe_roster s) (pe_peers s) (pe_contacts s) (pe_access s)
    (pe_admitted s) (pe_revocations s) (pe_seen_accounts s) (pe_names s) (pe_rate s) (pe_policy_override s)
    (pe_groupings s) (pe_linkage_seq s) (pe_vouches s) (pe_user_weighting s) (pe_user_threshold s)
    (pe_my_vouches s) (pe_round s) (pe_voucher_round s) (pe_last_advancer s) (pe_routes s) (pe_leaf_accounts s)
    (pe_seen s) (pe_leading s) (pe_presence_seq s) (pe_grouping_root s) (pe_events s) x (pe_flooded s).
Definition set_flooded (x : list (bytes * Frame)) (s : People) : People :=
  mkPeople (pe_chat s) (pe_gossip s) (pe_group s) (pe_roster s) (pe_peers s) (pe_contacts s) (pe_access s)
    (pe_admitted s) (pe_revocations s) (pe_seen_accounts s) (pe_names s) (pe_rate s) (pe_policy_override s)
    (pe_groupings s) (pe_linkage_seq s) (pe_vouches s) (pe_user_weighting s) (pe_user_threshold s)
    (pe_my_vouches s) (pe_round s) (pe_voucher_round s) (pe_last_advancer s) (pe_routes s) (pe_leaf_accounts s)
    (pe_seen s) (pe_leading s) (pe_presence_seq s) (pe_grouping_root s) (pe_events s) (pe_announced s) x.

Definition tell (e : PEvent) (s : People) : People := set_events (pe_events s ++ [e]) s.
Definition announce (k : PayloadKind) (b : bytes) (s : People) : People := set_announced (pe_announced s ++ [(k, b)]) s.

Notation fingerprint := (id_fingerprint sha3_384).

Definition my_context (s : People) : bytes := chat_context sha256 (ch_invite_token (pe_chat s)) (ch_channel (pe_chat s)).

(** ** Contacts, access and revocations *)

Definition add_contact (account : IdentityPublic) (name : option bytes) (friend : bool) (s : People) : People :=
  set_contacts (store_add sha3_384 account name friend (pe_contacts s)) s.

Definition set_friend (account : IdentityPublic) (friend : bool) (s : People) : bool * People :=
  let '(found, c) := store_set_friend account friend (pe_contacts s) in (found, set_contacts c s).

Definition add_seen_contact (account_fp : bytes) (name : option bytes) (friend : bool) (s : People) : bool * People :=
  match pe_seen_accounts s !! account_fp with
  | Some acct => (true, add_contact acct name friend s)
  | None => (false, s)
  end.

Definition add_revocation (r : Revocation) (s : People) : bool * People :=
  if negb (is_ok (rev_verify r)) then (false, s)
  else (true, set_revocations ({[(fingerprint (rv_account r), rv_subject_fp r)]} ∪ pe_revocations s) s).

(** A peer's [Frame::Revocation]. *)
Definition handle_revocation (b : bytes) (s : People) : People :=
  match rev_decode b with
  | Ok rev =>
      if is_ok (rev_verify rev) then
        set_revocations ({[(fingerprint (rv_account rev), rv_subject_fp rev)]} ∪ pe_revocations s) s
      else s
  | Err _ => s
  end.

Definition allow_account (account_fp : bytes) (s : People) : People :=
  match pe_access s with
  | AAccounts set => set_access (AAccounts ({[account_fp]} ∪ set)) s
  | _ => set_access (AAccounts {[account_fp]}) s
  end.

Definition deny_account (account_fp : bytes) (s : People) : People :=
  match pe_access s with
  | AAccounts set => set_access (AAccounts (set ∖ {[account_fp]})) s
  | _ => s
  end.

(** Some link of the chain has been revoked by the account. *)
Definition revoked_link (s : People) (account_fp : bytes) (chain : IdentityChain) : bool :=
  existsb (fun l => bool_decide ((account_fp, fingerprint (ct_subject (sc_cert l))) ∈ pe_revocations s)) (links chain).

Inductive IdentityOutcome : Type := Allowed | Ignored | Rejected.

Definition predicate_holds (pred : option Predicate) (account_fp : bytes) (chain : IdentityChain) : bool :=
  match pred with
  | None => true
  | Some (LinkedToAccount fp) => bool_decide (account_fp = fp)
  | Some (DerivedFromNamed fp) => existsb (fun l => bool_decide (fingerprint (sc_issuer l) = fp)) (links chain)
  | Some (Grouping _) => false
  end.

Definition handle_identity (now : Z) (peer_fp b : bytes) (s : People) : IdentityOutcome * People :=
  match pres_decode b with
  | Err _ => (Ignored, tell PError s)
  | Ok presentation =>
      match resolve_chain sha3_384 (pe_contacts s) (pr_chain presentation) peer_fp now with
      | None => (Ignored, tell PError s)
      | Some res =>
          if revoked_link s (res_account_fingerprint res) (pr_chain presentation) then (Ignored, tell PError s)
          else if negb (admits (pe_access s) (res_account_fingerprint res) (res_contact res) (res_friend res)) then
            (Rejected, tell PError s)
          else
            let s := set_seen_accounts (<[res_account_fingerprint res := res_account res]> (pe_seen_accounts s)) s in
            if negb (predicate_holds (ch_access_predicate (pe_chat s)) (res_account_fingerprint res) (pr_chain presentation))
            then (Rejected, tell PError s)
            else (Allowed, tell (PIdentity peer_fp (res_account_fingerprint res) (pr_username presentation)
                                   (res_contact res) (res_friend res)) s)
      end
  end.

Definition handle_group_member_identity (now : Z) (from b : bytes) (s : People) : People :=
  match pres_decode b with
  | Err _ => s
  | Ok presentation =>
      match resolve_chain sha3_384 (pe_contacts s) (pr_chain presentation) from now with
      | None => s
      | Some res =>
          if revoked_link s (res_account_fingerprint res) (pr_chain presentation) then tell PError s
          else
            let s := set_seen_accounts (<[res_account_fingerprint res := res_account res]> (pe_seen_accounts s)) s in
            let s := if admits (pe_access s) (res_account_fingerprint res) (res_contact res) (res_friend res)
                     then set_admitted ({[from]} ∪ pe_admitted s) s else s in
            tell (PIdentity from (res_account_fingerprint res) (pr_username presentation) (res_contact res) (res_friend res)) s
      end
  end.

(** ** The gossip clock and vouches *)

Definition witness_gossip_round (member_fp : bytes) (s : People) : People :=
  if decide (pe_last_advancer s = Some member_fp) then s
  else set_last_advancer (Some member_fp) (set_round ((pe_round s + 1) mod 2 ^ 64) s).

Definition effective_policy (s : People) : VouchPolicy :=
  let p := ch_vouch_policy (pe_chat s) in
  let p := match pe_user_weighting s with
           | Some w => mkPolicy (vp_eligibility p) w (vp_threshold p) (vp_freshness_interval_rounds p)
           | None => p
           end in
  match pe_user_threshold s with
  | None => p
  | Some t =>
      let th := match vp_threshold p, t with
                | Count a, _ => if decide (a = u32_max) then t
                                else match t with Count b => Count (Z.max a b) | Percent _ => t end
                | Percent a, Percent b => Percent (Z.max a b)
                | Percent _, Count _ => t
                end in
      mkPolicy (vp_eligibility p) (vp_weighting p) th (vp_freshness_interval_rounds p)
  end.

(** Leaf fingerprint to grouping key; a leaf in several groupings keeps the one
    the walk meets last. *)
Definition grouping_index (s : People) : gmap bytes bytes :=
  foldl (fun out x => foldl (fun out leaf => <[leaf := x.1]> out) out (elements x.2)) ∅ (map_to_list (pe_groupings s)).

Definition relationship_of (s : People) (voucher : IdentityPublic) : Relationship :=
  if is_friend (pe_contacts s) voucher then Friend
  else if is_contact (pe_contacts s) voucher then Contact_
  else Stranger.

(** [cur.saturating_sub(last) as u32] *)
Definition rounds_since (cur last : Z) : Z := u32_wrap (Z.max 0 (cur - last)).

Definition voucher_view (s : People) (gidx : gmap bytes bytes) (x : bytes * VouchRecord) : VoucherView :=
  mkView x.1 (relationship_of s (vr_voucher x.2))
    (rounds_since (pe_round s) (default 0 (pe_voucher_round s !! x.1)))
    (gidx !! vr_sender_fp x.2).

Definition compute_vouch_decision (s : People) (subject : bytes) : VouchDecision :=
  let views := match pe_vouches s !! subject with
               | Some per => voucher_view s (grouping_index s) <$> map_to_list per
               | None => []
               end in
  evaluate views (effective_policy s).

Definition handle_vouch (sender_fp b : bytes) (s : People) : People :=
  let s := witness_gossip_round sender_fp s in
  match vouch_decode b with
  | None => s
  | Some v =>
      if decide (vc_context v <> my_context s) then s
      else if negb (vouch_verify v) then s
      else
        let voucher_fp := fingerprint (vc_voucher v) in
        let subject := target_fp v in
        if decide (voucher_fp = subject) then s
        else
          let per := default ∅ (pe_vouches s !! subject) in
          let s := set_vouches (<[subject := per]> (pe_vouches s)) s in
          if match per !! voucher_fp with
             | Some existing => bool_decide (vc_epoch v <= vr_epoch existing)
             | None => false
             end then s
          else
            let rec := mkVouchRecord (vc_epoch v) (vc_voucher v) sender_fp in
            let s := set_vouches (<[subject := <[voucher_fp := rec]> per]> (pe_vouches s)) s in
            let s := set_voucher_round (<[voucher_fp := pe_round s]> (pe_voucher_round s)) s in
            let d := compute_vouch_decision s subject in
            tell (PVouch subject (vd_weighted_score d) (vd_vouched d) (vd_inflation_rejected d)) s
  end.

Definition cast_vouch (target : VouchTarget) (epoch now : Z) (s : People) : People :=
  announce KVouch (vouch_encode (sign_vouch (ch_identity (pe_chat s)) target (my_context s) epoch now)) s.

Definition vouch_for (now : Z) (target : VouchTarget) (s : People) : People :=
  let s := if decide (target ∈ pe_my_vouches s) then s else set_my_vouches (pe_my_vouches s ++ [target]) s in
  cast_vouch target now now s.

(** [now + 1] is a [u64] addition. *)
Definition revoke_vouch (now : Z) (target : VouchTarget) (s : People) : People :=
  let s := set_my_vouches (filter (fun t => t <> target) (pe_my_vouches s)) s in
  cast_vouch target ((now + 1) mod 2 ^ 64) now s.

Definition reassert_my_vouches (now : Z) (s : People) : People :=
  foldl (fun s target => cast_vouch target now now s) s (pe_my_vouches s).

(** ** Grouping disclosures *)

Definition handle_linkage (now : Z) (sender_fp b : bytes) (s : People) : People :=
  let s := witness_gossip_round sender_fp s in
  match payload_decode b with
  | None => s
  | Some p =>
      if match pe_linkage_seq s !! sender_fp with
         | Some last => bool_decide (gp_seq p <= last)
         | None => false
         end then s
      else
        let s := set_linkage_seq (<[sender_fp := gp_seq p]> (pe_linkage_seq s)) s in
        let subject := ct_subject (sc_cert (gp_cert p)) in
        let subject_ok := bool_decide (fingerprint subject = sender_fp) in
        let claim := mkLClaim (Grouping (gp_grouping_pub p)) (my_context s) in
        let proof := lp_encode (LPGrouping subject (gp_cert p) (gp_ctx_sig p)) in
        let verdict := subject_ok && bool_decide (backend_verify sha3_384 now claim proof = Pass) in
        let s := if verdict then
                   set_groupings (<[gp_grouping_pub p := {[sender_fp]} ∪ default ∅ (pe_groupings s !! gp_grouping_pub p)]>
                                    (pe_groupings s)) s
                 else s in
        tell (PLinkage sender_fp (gp_grouping_pub p) verdict) s
  end.

(** [presence_seq.fetch_add(1) + 1], in [u64] *)
Definition next_seq (s : People) : Z * People :=
  let seq := (pe_presence_seq s + 1) mod 2 ^ 64 in (seq, set_presence_seq seq s).

Definition GROUPING_TTL : Z := 30 * 24 * 3600.

Definition build_my_grouping_proof (now : Z) (s : People) : bytes * People :=
  let root := pe_grouping_root s in
  let ctx := my_context s in
  let me := ch_identity (pe_chat s) in
  let cert := grouping_certify root ctx (id_public me) now ((now + GROUPING_TTL) mod 2 ^ 64) in
  let ctx_sig := id_sign me ctx in
  let grouping_pub := sig_vk (id_public (derive_for_chat root ctx)) in
  let '(seq, s) := next_seq s in
  (payload_encode (mkGroupingProof grouping_pub cert ctx_sig seq), s).

Record SybilCount : Type := mkSybil {
  sy_distinct_accounts : Z; sy_distinct_groupings : Z; sy_isolated : Z; sy_min_distinct_people : Z }.

Definition sybil_estimate (s : People) : SybilCount :=
  let grouped : gset bytes := ⋃ (snd <$> map_to_list (pe_groupings s)) in
  let accounts : gset bytes := list_to_set (omap (fun x => nr_account_fp x.2) (map_to_list (pe_names s))) in
  let isolated := zlen (filter (fun x => nr_account_fp x.2 = None /\ x.1 ∉ grouped) (map_to_list (pe_names s))) in
  let a := zlen (elements accounts) in
  let g := zlen (map_to_list (pe_groupings s)) in
  mkSybil a g isolated (a + g + isolated).

(** ** Names *)

Definition PRESENCE_RATE_WINDOW_SECS : Z := 2.
Definition PRESENCE_RATE_BURST : Z := 3.

(** The budget of [key] at [now]: the window and count after the reset. *)
Definition rate_entry (now : Z) (key : bytes) (s : People) : Z * Z :=
  let e := default (now, 0) (pe_rate s !! key) in
  if decide (Z.max 0 (now - e.1) >= PRESENCE_RATE_WINDOW_SECS) then (now, 0) else e.

Definition name_policy (s : People) : NameTrustPolicy :=
  match pe_policy_override s with
  | Some local => max_strictness (ch_name_trust_policy (pe_chat s)) local
  | None => ch_name_trust_policy (pe_chat s)
  end.

(** Verify a presence and say which record it gives for which key. *)
Definition presence_record (now : Z) (attributed_fp : bytes) (np : NamePresence) (s : People) : option (NameRecord * bytes) :=
  match np with
  | NPBare seq label => Some (mkRecord label TierBare seq None, attributed_fp)
  | NPLinked _ _ context _ =>
      match verify_linked sha3_384 np now with
      | None => None
      | Some v =>
          if decide (context <> my_context s) then None
          else if decide ((vn_account_fp v, vn_device_fp v) ∈ pe_revocations s) then None
          else Some (mkRecord (vn_label v) TierLinked (vn_seq v) (Some (vn_account_fp v)), vn_device_fp v)
      end
  end.

(** The vouch state shown with a name: the key's, else the account's. *)
Definition vouch_shown (s : People) (key : bytes) (account_fp : option bytes) : bool * option Caveat :=
  let d := compute_vouch_decision s key in
  let d := if vd_vouched d then d
           else match account_fp with
                | Some acct => let da := compute_vouch_decision s acct in if vd_vouched da then da else d
                | None => d
                end in
  if vd_vouched d then (true, Some (CavVouched (vd_weighted_score d))) else (false, None).

Definition render_name (s : People) (key : bytes) (rec : NameRecord) : NameRender :=
  let isolated := bool_decide (nr_account_fp rec = None)
                  && negb (existsb (fun x : bytes * gset bytes => bool_decide (key ∈ x.2)) (map_to_list (pe_groupings s))) in
  let '(vouched, badge) := vouch_shown s key (nr_account_fp rec) in
  resolve_render nfkc_lower key rec (pe_names s) (name_policy s) (take 6 key) isolated
    (ch_amplify_isolated (pe_chat s)) vouched badge.

Definition handle_presence (now : Z) (attributed_fp b : bytes) (s : People) : People :=
  match np_decode b with
  | Err _ => s
  | Ok np =>
      match presence_record now attributed_fp np s with
      | None => s
      | Some (rec, key) =>
          if match pe_names s !! key with
             | Some existing => bool_decide (nr_seq rec <= nr_seq existing)
             | None => false
             end then s
          else
            let e := rate_entry now key s in
            let s := set_rate (<[key := e]> (pe_rate s)) s in
            if decide (e.2 >= PRESENCE_RATE_BURST) then s
            else
              let s := set_rate (<[key := (e.1, e.2 + 1)]> (pe_rate s)) s in
              let s := set_names (<[key := rec]> (pe_names s)) s in
              let r := render_name s key rec in
              tell (PName key (nr_account_fp rec) (rd_label r) (rd_tier r) (nr_seq rec) (rd_caveat r)) s
      end
  end.

Definition reconcile_name_tag (sender tag : bytes) (s : People) : People :=
  match pe_names s !! sender with
  | None => s
  | Some rec =>
      if decide (name_id_tag sha256 (nr_label rec) (my_context s) = tag) then s
      else
        let s := set_names (delete sender (pe_names s)) s in
        tell (PName sender (nr_account_fp rec) None (nr_tier rec) (nr_seq rec) (Some CavRenamed)) s
  end.

Definition build_my_presence (s : People) : option bytes * People :=
  match pe_leading s with
  | None => (None, s)
  | Some entry =>
      let '(seq, s) := next_seq s in
      let np := match ne_backing entry with
                | BackBare => NPBare seq (ne_label entry)
                | BackAccount chain => np_linked seq chain (ne_label entry) (my_context s) (ch_identity (pe_chat s))
                end in
      (Some (np_encode np), s)
  end.

Definition announce_presence (s : People) : People :=
  match build_my_presence s with
  | (Some b, s) => announce KPresence b s
  | (None, s) => s
  end.

(** ** Carrying payloads

    [send_presence_now], [send_linkage_now] and [send_vouch_now]: what rides in a
    pairwise [Frame::Presence] and what is encrypted for a group. *)

Definition pairwise_body (k : PayloadKind) (b : bytes) : bytes :=
  match k with KPresence => b | KLinkage => byte_of LINKAGE_SENTINEL :: b | KVouch => byte_of VOUCH_SENTINEL :: b end.
Definition group_plaintext (k : PayloadKind) (b : bytes) : bytes :=
  match k with
  | KPresence => byte_of PRESENCE_SENTINEL :: b
  | KLinkage => byte_of LINKAGE_SENTINEL :: b
  | KVouch => byte_of VOUCH_SENTINEL :: b
  end.

(** A pairwise [Frame::Presence]. *)
Definition on_presence_frame (now : Z) (fp body : bytes) (s : People) : People :=
  let first := bval <$> head body in
  if decide (first = Some LINKAGE_SENTINEL) then handle_linkage now fp (drop 1 body) s
  else if decide (first = Some VOUCH_SENTINEL) then handle_vouch fp (drop 1 body) s
  else handle_presence now fp body s.

(** What the group layer hands over. *)
Definition on_handed (now : Z) (h : Handed) (s : People) : People :=
  match h with
  | HPresence sender body => handle_presence now sender body s
  | HLinkage sender body => handle_linkage now sender body s
  | HVouch sender body => handle_vouch sender body s
  | HNameTag sender tag => reconcile_name_tag sender tag s
  end.

(** ** Routes *)

Definition ROUTE_CONTEXT : bytes := bstr "talkrypt-route-descriptor-v2".
Definition MAX_ROUTE_ENDPOINTS : Z := 8.
Definition MAX_ROUTE_EP_LEN : Z := 512.
Definition MAX_KNOWN_ROUTES : Z := 256.

Definition route_transcript (signer : IdentityPublic) (issued : Z) (endpoints : list bytes) : bytes :=
  w_new |> put_bytes ROUTE_CONTEXT |> put_bytes (sig_vk signer) |> put_bytes (be_bytes 8 issued)
        |> put_u32 (u32_wrap (zlen endpoints)) |> put_each put_bytes endpoints |> into_vec.

Definition encode_route_descriptor (signer : IdentityPublic) (issued : Z) (endpoints : list bytes) (sig : bytes) : bytes :=
  w_new |> put_bytes (sig_vk signer) |> put_bytes (be_bytes 8 issued)
        |> put_u32 (u32_wrap (zlen endpoints)) |> put_each put_bytes endpoints |> put_bytes sig |> into_vec.

Definition get_endpoint : Get unit bytes :=
  get* e := q get_bytes in
  if decide (zlen e > MAX_ROUTE_EP_LEN) then gfail tt else glift (from_utf8 e tt).

Definition parse_route (b : bytes) : option (IdentityPublic * Z * list bytes * bytes) :=
  to_option (run_get (
    get* sig_vk := q get_bytes in
    get* issued_be := sized 8 tt in
    get* endpoints := counted MAX_ROUTE_ENDPOINTS tt get_endpoint in
    get* sig := q get_bytes in
    get* _ := q finish in
    gret (mkIdentityPublic sig_vk, be_val issued_be, endpoints, sig)) b).

(** Pass a frame on to every peer but the one it came from. *)
Definition reflood (from : bytes) (f : Frame) (s : People) : People :=
  set_flooded (pe_flooded s ++ ((fun fp => (fp, f)) <$> filter (fun fp => fp <> from) (pe_peers s))) s.

Definition handle_route_descriptor (from b : bytes) (s : People) : People :=
  let '(fresh, seen) := seen_insert (sha256 b) (pe_seen s) in
  let s := set_seen seen s in
  if negb fresh then s
  else match parse_route b with
  | None => s
  | Some (signer, issued, endpoints, sig) =>
      if negb (is_ok (id_verify signer (route_transcript signer issued endpoints) sig)) then s
      else
        let signer_fp := fingerprint signer in
        if negb (existsb (fun x => bool_decide (x.2 = signer_fp)) (map_to_list (pe_roster s))) then s
        else if match pe_routes s !! signer_fp with
                | Some (last, _) => bool_decide (issued <= last)
                | None => bool_decide (Z.of_nat (size (pe_routes s)) >= MAX_KNOWN_ROUTES)
                end then s
        else
          let s := set_routes (<[signer_fp := (issued, endpoints)]> (pe_routes s)) s in
          if negb (ch_relayed (pe_chat s)) && (pe_gossip s || bool_decide (ch_role (pe_chat s) = RoleHost))
          then reflood from (FRouteDescriptor b) s else s
  end.

Definition advertise_routes (now : Z) (endpoints : list bytes) (s : People) : People :=
  if decide (endpoints = []) then s
  else
    let me := ch_identity (pe_chat s) in
    let signer := id_public me in
    let sig := id_sign me (route_transcript signer now endpoints) in
    let s := set_routes (<[fingerprint signer := (now, endpoints)]> (pe_routes s)) s in
    set_flooded (pe_flooded s ++ ((fun fp => (fp, FRouteDescriptor (encode_route_descriptor signer now endpoints sig))) <$> pe_peers s)) s.

(** ** Accounts bound to group leaves *)

Definition handle_leaf_sig_cert (now : Z) (from b : bytes) (s : People) : People :=
  let '(fresh, seen) := seen_insert (sha256 b) (pe_seen s) in
  let s := set_seen seen s in
  if negb fresh then s
  else match chain_decode b with
  | Err _ => s
  | Ok chain =>
      match head (links chain), chain_leaf chain with
      | Some l0, Some leaf_key =>
          let account := sc_issuer l0 in
          if negb (is_ok (chain_verify chain account leaf_key now)) then s
          else if revoked_link s (fingerprint account) chain then s
          else
            let matched_leaf :=
              match pe_group s with
              | Some grp => List.find (fun l => bool_decide (tk_leaf_sig_keys grp !! l = Some leaf_key))
                              (fst <$> map_to_list (pe_roster s))
              | None => None
              end in
            let relay s :=
              if negb (ch_relayed (pe_chat s)) && bool_decide (ch_role (pe_chat s) = RoleHost)
              then reflood from (FLeafSigCert b) s else s in
            match matched_leaf with
            | None => relay s
            | Some leaf =>
                let leaf_device := pe_roster s !! leaf in
                let cert_device := (fun l => fingerprint (sc_issuer l)) <$> last (links chain) in
                if decide (leaf_device = None \/ leaf_device <> cert_device) then s
                else relay (set_leaf_accounts (<[leaf := fingerprint account]> (pe_leaf_accounts s)) s)
            end
      | _, _ => s
      end
  end.

End People.
