(* ===== verification/PeopleProps.v ===== *)
(** * What the handlers of [People] guarantee

    [pstep] is one turn of the node: any handler on any bytes attributed to any
    peer at any time, an action of the user, or a change the group layer makes to
    the roster.  The theorems hold for every sequence of turns: what the node
    believes about vouches, names, admissions and leaf accounts is backed by
    signatures, and it never rolls back. *)

From S2P Require Import Prelude Wire Crypto Marking Frames TreeKem Engine Forward Codec Account Relay Contacts Linkage Vouch Presence People.

Section PeopleProps.
Context {P : Primitives} (sha256 sha3_384 : bytes -> bytes) (nfkc_lower : bytes -> list Z).

Notation fingerprint := (id_fingerprint sha3_384).
Notation ctx_of := (my_context sha256).

(** ** Turns *)

(** What a peer, or several that collude, can make the node do. *)
Inductive Heard : Type :=
| HeardIdentity (from b : bytes)
| HeardMemberIdentity (from b : bytes)
| HeardPresence (from body : bytes)
| HeardGroup (h : Handed)
| HeardRevocation (b : bytes)
| HeardRoute (from b : bytes)
| HeardLeafCert (from b : bytes).

Definition hear (now : Z) (h : Heard) (s : People) : People :=
  match h with
  | HeardIdentity from b => (handle_identity sha3_384 now from b s).2
  | HeardMemberIdentity from b => handle_group_member_identity sha3_384 now from b s
  | HeardPresence from body => on_presence_frame sha256 sha3_384 nfkc_lower now from body s
  | HeardGroup h => on_handed sha256 sha3_384 nfkc_lower now h s
  | HeardRevocation b => handle_revocation sha3_384 b s
  | HeardRoute from b => handle_route_descriptor sha256 sha3_384 from b s
  | HeardLeafCert from b => handle_leaf_sig_cert sha256 sha3_384 now from b s
  end.

(** What the user does, and what the group layer does to the roster. *)
Inductive Act : Type :=
| ActContact (a : IdentityPublic) (name : option bytes) (friend : bool)
| ActFriend (a : IdentityPublic) (friend : bool)
| ActSeenContact (fp : bytes) (name : option bytes) (friend : bool)
| ActRevoke (r : Revocation)
| ActAllow (fp : bytes)
| ActDeny (fp : bytes)
| ActAccess (a : AccessPolicy)
| ActNamePolicy (p : option NameTrustPolicy)
| ActWeighting (w : VouchWeighting)
| ActThreshold (t : Threshold)
| ActVouch (t : VouchTarget)
| ActUnvouch (t : VouchTarget)
| ActReassert
| ActLeading (e : option NameEntry)
| ActAnnounce
| ActGrouping
| ActRoutes (eps : list bytes)
| ActGroup (g : option TreeKemGroup) (roster : gmap Z bytes) (peers : list bytes).

Definition act (now : Z) (a : Act) (s : People) : People :=
  match a with
  | ActContact a name friend => add_contact sha3_384 a name friend s
  | ActFriend a friend => (set_friend a friend s).2
  | ActSeenContact fp name friend => (add_seen_contact sha3_384 fp name friend s).2
  | ActRevoke r => (add_revocation sha3_384 r s).2
  | ActAllow fp => allow_account fp s
  | ActDeny fp => deny_account fp s
  | ActAccess a => set_access a s
  | ActNamePolicy p => set_policy_override p s
  | ActWeighting w => set_user_weighting (Some w) s
  | ActThreshold t => set_user_threshold (Some t) s
  | ActVouch t => vouch_for sha256 now t s
  | ActUnvouch t => revoke_vouch sha256 now t s
  | ActReassert => reassert_my_vouches sha256 now s
  | ActLeading e => set_leading e s
  | ActAnnounce => announce_presence sha256 s
  | ActGrouping => let '(b, s) := build_my_grouping_proof sha256 now s in announce KLinkage b s
  | ActRoutes eps => advertise_routes sha3_384 now eps s
  | ActGroup g roster peers => set_peers peers (set_roster roster (set_group g s))
  end.

Inductive pstep : People -> People -> Prop :=
| step_hear now h s : pstep s (hear now h s)
| step_act now a s : pstep s (act now a s).

Definition psteps : People -> People -> Prop := rtc pstep.

(** ** What each turn leaves alone *)

Lemma cast_vouch_chat t e now s : pe_chat (cast_vouch sha256 t e now s) = pe_chat s.
Proof. done. Qed.

Lemma reassert_frame {A} (f : People -> A) now ts s :
  (forall k b s, f (announce k b s) = f s) -> f (foldl (fun s t => cast_vouch sha256 t now now s) s ts) = f s.
Proof. intros Hf. revert s. induction ts as [|t ts IH]; intros s; [done|]. cbn. rewrite IH. apply Hf. Qed.

(** Walk through every branch of a handler. *)
Ltac branches :=
  repeat match goal with
  | |- context [match ?x with _ => _ end] =>
      lazymatch x with
      | context [match _ with _ => _ end] => fail
      | _ => destruct x
      end
  end.

Ltac unfold_acts :=
  unfold act, add_contact, set_friend, add_seen_contact, add_contact, add_revocation, allow_account, deny_account,
    vouch_for, revoke_vouch, cast_vouch, announce_presence, build_my_presence, build_my_grouping_proof, next_seq,
    advertise_routes, announce.
Ltac unfold_handlers :=
  unfold hear, handle_identity, handle_group_member_identity, on_presence_frame, on_handed, handle_presence,
    handle_linkage, handle_vouch, reconcile_name_tag, handle_revocation, handle_route_descriptor,
    handle_leaf_sig_cert, witness_gossip_round, reflood, tell.

(** The user's actions leave the field alone. *)
Ltac frame_act a :=
  destruct a; try (unfold_acts; branches; reflexivity);
  unfold act, reassert_my_vouches; apply reassert_frame; reflexivity.
(** So does a handler that never writes the field. *)
Ltac frame_hear h := destruct h; try (unfold_handlers; branches; reflexivity).

Lemma act_chat now a s : pe_chat (act now a s) = pe_chat s.
Proof. frame_act a. Qed.
Lemma act_vouches now a s : pe_vouches (act now a s) = pe_vouches s.
Proof. frame_act a. Qed.
Lemma act_rate now a s : pe_rate (act now a s) = pe_rate s.
Proof. frame_act a. Qed.
Lemma act_admitted now a s : pe_admitted (act now a s) = pe_admitted s.
Proof. frame_act a. Qed.
Lemma act_leaf_accounts now a s : pe_leaf_accounts (act now a s) = pe_leaf_accounts s.
Proof. frame_act a. Qed.
Lemma act_groupings now a s : pe_groupings (act now a s) = pe_groupings s.
Proof. frame_act a. Qed.

Lemma hear_chat now h s : pe_chat (hear now h s) = pe_chat s.
Proof. frame_hear h. Qed.

Lemma step_chat s s' : pstep s s' -> pe_chat s' = pe_chat s.
Proof. destruct 1; [apply hear_chat|apply act_chat]. Qed.

Lemma steps_chat s s' : psteps s s' -> pe_chat s' = pe_chat s.
Proof. induction 1 as [|s s1 s' H _ IH]; [done|]. by rewrite IH, (step_chat _ _ H). Qed.

Lemma steps_context s s' : psteps s s' -> ctx_of s' = ctx_of s.
Proof. intros H. unfold my_context. by rewrite (steps_chat _ _ H). Qed.

(** ** Vouches *)

(** A vouch the node has checked: signed by [voucher] for [subject] in this chat. *)
Definition vouch_backed (context subject vf : bytes) (rec : VouchRecord) : Prop :=
  exists v, vouch_verify v = true /\ vc_context v = context /\ target_fp v = subject /\
    vc_voucher v = vr_voucher rec /\ fingerprint (vr_voucher rec) = vf /\ vc_epoch v = vr_epoch rec /\ vf <> subject.

Definition ledger (s : People) (subject vf : bytes) : option VouchRecord := pe_vouches s !! subject ≫= (.!! vf).

Definition newer (old : option VouchRecord) (rec : VouchRecord) : Prop :=
  match old with Some o => vr_epoch o < vr_epoch rec | None => True end.

Lemma handle_vouch_ledger fp b s :
  let s' := handle_vouch sha256 sha3_384 fp b s in
  (forall x y, ledger s' x y = ledger s x y) \/
  exists subject vf rec, vouch_backed (ctx_of s) subject vf rec /\ newer (ledger s subject vf) rec /\
    forall x y, ledger s' x y = if decide (x = subject /\ y = vf) then Some rec else ledger s x y.
Proof.
  unfold handle_vouch, ledger.
  assert (pe_vouches (witness_gossip_round fp s) = pe_vouches s) as Hw by (unfold witness_gossip_round; by case_decide).
  assert (ctx_of (witness_gossip_round fp s) = ctx_of s) as Hc by (unfold witness_gossip_round; by case_decide).
  set (s1 := witness_gossip_round fp s) in *. clearbody s1.
  destruct (vouch_decode b) as [v|]; [|left; by rewrite Hw]. case_decide as Hx; [left; by rewrite Hw|].
  destruct (vouch_verify v) eqn:Ev; cbn [negb]; [|left; by rewrite Hw]. case_decide as Hs; [left; by rewrite Hw|].
  set (per := default ∅ (pe_vouches s1 !! target_fp v)).
  assert (forall x y, (<[target_fp v := per]> (pe_vouches s1) !! x ≫= (.!! y)) = (pe_vouches s !! x ≫= (.!! y))) as Hper.
  { intros x y. rewrite Hw. destruct (decide (x = target_fp v)) as [->|Hn]; [|by rewrite lookup_insert_ne].
    rewrite lookup_insert_eq. unfold per. rewrite Hw. by destruct (pe_vouches s !! target_fp v). }
  destruct (match per !! _ with Some existing => _ | None => _ end) eqn:Est; [left; apply Hper|]. right.
  exists (target_fp v), (fingerprint (vc_voucher v)), (mkVouchRecord (vc_epoch v) (vc_voucher v) fp).
  assert (per !! fingerprint (vc_voucher v) = ledger s (target_fp v) (fingerprint (vc_voucher v))) as Hold.
  { unfold ledger. rewrite <- Hper. by rewrite lookup_insert_eq. }
  split; [|split].
  - exists v. rewrite <- Hc. split; [done|]. split; [by destruct (decide (vc_context v = ctx_of s1))|done].
  - change (newer (ledger s (target_fp v) (fingerprint (vc_voucher v))) (mkVouchRecord (vc_epoch v) (vc_voucher v) fp)).
    rewrite <- Hold. destruct (per !! _) as [o|]; [|done]. cbn. apply bool_decide_eq_false in Est. lia.
  - intros x y. cbn [pe_vouches tell set_events set_voucher_round set_vouches]. rewrite <- Hper.
    destruct (decide (x = target_fp v)) as [->|Hn].
    + rewrite !lookup_insert_eq. cbn. destruct (decide (y = fingerprint (vc_voucher v))) as [->|Hn].
      * by rewrite lookup_insert_eq, decide_True.
      * rewrite lookup_insert_ne by done. by rewrite decide_False by tauto.
    + rewrite !lookup_insert_ne by done. by rewrite decide_False by tauto.
Qed.

Lemma hear_ledger now h s :
  (forall x y, ledger (hear now h s) x y = ledger s x y) \/
  exists fp b, hear now h s = handle_vouch sha256 sha3_384 fp b s.
Proof.
  destruct h as [| |from body|h'| | |]; try (left; intros; unfold ledger; unfold_handlers; branches; reflexivity).
  - unfold hear, on_presence_frame. case_decide; [left; intros; unfold ledger; unfold_handlers; branches; reflexivity|].
    case_decide; [right; eauto|left; intros; unfold ledger; unfold_handlers; branches; reflexivity].
  - destruct h'; cbn [hear on_handed]; try (left; intros; unfold ledger; unfold_handlers; branches; reflexivity).
    right; eauto.
Qed.

(** One turn changes at most one record, to a newer, signed one. *)
Lemma step_ledger s s' :
  pstep s s' ->
  (forall x y, ledger s' x y = ledger s x y) \/
  exists subject vf rec, vouch_backed (ctx_of s) subject vf rec /\ newer (ledger s subject vf) rec /\
    forall x y, ledger s' x y = if decide (x = subject /\ y = vf) then Some rec else ledger s x y.
Proof.
  destruct 1 as [now h s|now a s].
  - destruct (hear_ledger now h s) as [H|(fp & b & ->)]; [by left|]. apply handle_vouch_ledger.
  - left. intros. unfold ledger. by rewrite act_vouches.
Qed.

(** C26: the vouch ledger is authentic and never rolls back.  Starting from an
    empty ledger, whatever bytes arrive from whomever and in whatever order,
    interleaved with any actions of the user: every recorded vouch was signed, by
    the account it is recorded under, for that subject in this chat and at the
    recorded epoch, and nobody is recorded as vouching for themselves; and from
    any point on, a recorded vouch is only ever replaced by one of a higher
    epoch. *)
Theorem vouch_ledger_authentic (s0 s1 s2 : People) :
  pe_vouches s0 = ∅ -> psteps s0 s1 -> psteps s1 s2 ->
  (forall subject vf rec, ledger s1 subject vf = Some rec -> vouch_backed (ctx_of s0) subject vf rec) /\
  (forall subject vf rec, ledger s1 subject vf = Some rec ->
     exists rec', ledger s2 subject vf = Some rec' /\ (rec' = rec \/ vr_epoch rec < vr_epoch rec')).
Proof.
  intros H0 H1 H2. split.
  - revert H1. assert (forall x y r, ledger s0 x y = Some r -> vouch_backed (ctx_of s0) x y r) as Hb.
    { intros x y r. unfold ledger. by rewrite H0, lookup_empty. }
    intros H1. clear H0 H2. induction H1 as [|s s' s1 Hs Hr IH]; [done|].
    assert (ctx_of s' = ctx_of s) as Ec by (unfold my_context; by rewrite (step_chat _ _ Hs)). rewrite Ec in IH. apply IH. intros x y r.
    destruct (step_ledger _ _ Hs) as [H|(su & vf & rec & Hbk & _ & H)]; rewrite H; [apply Hb|].
    case_decide as Hd; [destruct Hd as [-> ->]; by intros [= <-]|apply Hb].
  - clear H0 H1. induction H2 as [|s s' s2 Hs _ IH]; [eauto|]. intros x y r Hx.
    assert (exists r1, ledger s' x y = Some r1 /\ (r1 = r \/ vr_epoch r < vr_epoch r1)) as (r1 & H1 & Hr1).
    { destruct (step_ledger _ _ Hs) as [H|(su & vf & rec & _ & Hn & H)]; rewrite H; [eauto|].
      case_decide as Hd; [|eauto]. destruct Hd as [-> ->]. rewrite Hx in Hn. eauto. }
    destruct (IH x y r1 H1) as (r2 & H2 & Hr2). exists r2. split; [done|]. destruct Hr1 as [->|?], Hr2 as [->|?]; auto. right. lia.
Qed.

(** ** Names *)

(** What stands behind a cached name: a linked one carries the announcement of a
    device certified under the account, signed for this chat. *)
Definition name_backed (context key : bytes) (rec : NameRecord) : Prop :=
  match nr_tier rec with
  | TierBare => nr_account_fp rec = None
  | TierLinked => exists now ls account leaf sig,
      certified now account ls leaf /\ fingerprint leaf = key /\ nr_account_fp rec = Some (fingerprint account) /\
      id_verify leaf (sign_input (nr_seq rec) (nr_label rec) context) sig = Ok tt
  | RegistryConfirmed => False
  end.

Lemma is_ok_unit {E} (r : result E unit) : is_ok r = true -> r = Ok tt.
Proof. destruct r as [[]|]; done. Qed.

Lemma verify_linked_spec np now v :
  verify_linked sha3_384 np now = Some v ->
  exists seq p context sig account leaf label,
    np = NPLinked seq p context sig /\ certified now account (links (pr_chain p)) leaf /\ pr_username p = Some label /\
    id_verify leaf (sign_input seq label context) sig = Ok tt /\
    v = mkVerifiedName (fingerprint account) (fingerprint leaf) label seq.
Proof.
  destruct np as [|seq p context sig]; [done|]. cbn [verify_linked].
  destruct (chain_leaf (pr_chain p)) as [leaf|]; [|done]. destruct (head (links (pr_chain p))) as [l0|]; [|done].
  destruct (is_ok (chain_verify _ _ _ _)) eqn:Ev; [|done]. cbn [negb].
  destruct (pr_username p) as [label|] eqn:Eu; [|done]. destruct (is_ok (id_verify _ _ _)) eqn:Es; [|done].
  cbn [negb]. intros [= <-]. apply is_ok_unit in Ev, Es. apply chain_verify_certified in Ev.
  exists seq, p, context, sig, (sc_issuer l0), leaf, label. done.
Qed.

Lemma presence_record_backed now fp np s rec key :
  presence_record sha256 sha3_384 now fp np s = Some (rec, key) ->
  name_backed (ctx_of s) key rec /\
  (forall a, nr_account_fp rec = Some a -> (a, key) ∉ pe_revocations s).
Proof.
  destruct np as [seq label|seq p context sig]; cbn [presence_record]; [by intros [= <- <-]|].
  destruct (verify_linked _ _ _) as [v|] eqn:Ev; [|done]. case_decide as Hc; [done|]. case_decide as Hr; [done|].
  intros [= <- <-]. apply verify_linked_spec in Ev as (sq & p' & c & sg & ac & lf & lb & [= <- <- <- <-] & Hct & Hu & Hs & ->).
  split; [|by intros a [= <-]]. cbn. exists now, (links (pr_chain p)), ac, lf, sig.
  assert (context = ctx_of s) as <- by (by destruct (decide (context = ctx_of s))). done.
Qed.

Definition rate_ok (s : People) : Prop := forall key e, pe_rate s !! key = Some e -> 0 <= e.2 <= PRESENCE_RATE_BURST.

Lemma rate_entry_ok now key s : rate_ok s -> 0 <= (rate_entry now key s).2 <= PRESENCE_RATE_BURST.
Proof.
  intros Hr. unfold rate_entry, PRESENCE_RATE_BURST in *. specialize (Hr key).
  destruct (pe_rate s !! key) as [e|]; cbn [default from_option id]; case_decide; cbn; try lia.
  apply (Hr e eq_refl).
Qed.

Lemma render_caveat fp rec others policy sn isolated amplify vouched badge :
  badge <> Some CavRenamed ->
  rd_caveat (resolve_render nfkc_lower fp rec others policy sn isolated amplify vouched badge) <> Some CavRenamed.
Proof.
  intros Hb. unfold resolve_render. destruct (bool_decide _), policy, vouched; cbn; repeat case_match; simplify_eq/=; congruence.
Qed.

(** The three ends of a presence: dropped before the budget is touched, dropped
    by the budget, or shown. *)
Lemma handle_presence_cases now fp b s :
  let s' := handle_presence sha256 sha3_384 nfkc_lower now fp b s in
  s' = s \/
  exists key, let e := rate_entry now key s in
    (e.2 >= PRESENCE_RATE_BURST /\ s' = set_rate (<[key := e]> (pe_rate s)) s) \/
    (e.2 < PRESENCE_RATE_BURST /\ exists rec label tier caveat,
       name_backed (ctx_of s) key rec /\
       (forall a, nr_account_fp rec = Some a -> (a, key) ∉ pe_revocations s) /\
       (forall old, pe_names s !! key = Some old -> nr_seq old < nr_seq rec) /\ caveat <> Some CavRenamed /\
       s' = tell (PName key (nr_account_fp rec) label tier (nr_seq rec) caveat)
              (set_names (<[key := rec]> (pe_names s))
                (set_rate (<[key := (e.1, e.2 + 1)]> (<[key := e]> (pe_rate s))) (set_rate (<[key := e]> (pe_rate s)) s)))).
Proof.
  unfold handle_presence. destruct (np_decode b) as [np|]; [|by left].
  destruct (presence_record _ _ _ _ _ _) as [[rec key]|] eqn:Ep; [|by left].
  apply presence_record_backed in Ep as [Hb Hr].
  destruct (match pe_names s !! key with Some _ => _ | None => _ end) eqn:Eold; [by left|]. right. exists key.
  cbv zeta. case_decide as Hd; [by left|]. right. split; [lia|].
  eexists rec, _, _, _. split; [done|]. split; [done|]. split.
  - intros old Ho. rewrite Ho in Eold. apply bool_decide_eq_false in Eold. lia.
  - split; [|reflexivity]. unfold render_name. destruct (vouch_shown _ _ _) as [vc badge] eqn:Evs.
    apply render_caveat. revert Evs. unfold vouch_shown. destruct (vd_vouched _); intros [= <- <-]; done.
Qed.




(** ** The presence budget *)

Definition is_shown (key : bytes) (e : PEvent) : bool :=
  match e with
  | PName from _ _ _ _ (Some CavRenamed) => false
  | PName from _ _ _ _ _ => bool_decide (from = key)
  | _ => false
  end.
(** Presences of [key] accepted and shown so far. *)
Definition shown (key : bytes) (s : People) : Z := zlen (filter (fun e => is_shown key e = true) (pe_events s)).

Lemma shown_tell key e s : shown key (tell e s) = shown key s + (if is_shown key e then 1 else 0).
Proof.
  unfold shown, tell. cbn [pe_events set_events]. rewrite filter_app, zlen_app. f_equal.
  destruct (is_shown key e) eqn:E; [rewrite filter_cons_True by done|rewrite filter_cons_False by congruence]; done.
Qed.

Lemma act_events now a s : pe_events (act now a s) = pe_events s.
Proof. frame_act a. Qed.

(** A turn that does not carry a presence shows none. *)
Lemma hear_shown now h s key :
  (shown key (hear now h s) = shown key s /\ pe_rate (hear now h s) = pe_rate s) \/
  (exists fp b, hear now h s = handle_presence sha256 sha3_384 nfkc_lower now fp b s).
Proof.
  assert (forall fp b, shown key (handle_linkage sha256 sha3_384 now fp b s) = shown key s /\
    pe_rate (handle_linkage sha256 sha3_384 now fp b s) = pe_rate s) as Hl.
  { intros fp b. split; [|unfold_handlers; branches; reflexivity].
    unfold handle_linkage, witness_gossip_round. branches; rewrite ?shown_tell; cbn [is_shown]; rewrite ?Z.add_0_r; reflexivity. }
  assert (forall fp b, shown key (handle_vouch sha256 sha3_384 fp b s) = shown key s /\
    pe_rate (handle_vouch sha256 sha3_384 fp b s) = pe_rate s) as Hv.
  { intros fp b. split; [|unfold_handlers; branches; reflexivity].
    unfold handle_vouch, witness_gossip_round. branches; rewrite ?shown_tell; cbn [is_shown]; rewrite ?Z.add_0_r; reflexivity. }
  destruct h as [| |from body|h'| | |]; cbn [hear].
  1, 2, 5, 6, 7: left; split; [|unfold_handlers; branches; reflexivity];
    unfold handle_identity, handle_group_member_identity, handle_revocation, handle_route_descriptor, handle_leaf_sig_cert, reflood;
    branches; cbn [snd]; rewrite ?shown_tell; cbn [is_shown]; rewrite ?Z.add_0_r; reflexivity.
  - unfold on_presence_frame. case_decide; [left; apply Hl|]. case_decide; [left; apply Hv|right; eauto].
  - destruct h'; cbn [on_handed]; [right; eauto|left; apply Hl|left; apply Hv|left].
    split; [|unfold_handlers; branches; reflexivity].
    unfold reconcile_name_tag. branches; rewrite ?shown_tell; cbn [is_shown]; rewrite ?Z.add_0_r; reflexivity.
Qed.

(** How many presences of [key] can still be shown before [lo + WINDOW]. *)
Definition budget (lo : Z) (key : bytes) (s : People) : Z :=
  match pe_rate s !! key with
  | None => PRESENCE_RATE_BURST
  | Some (w, c) => PRESENCE_RATE_BURST - c + (if decide (w < lo) then PRESENCE_RATE_BURST else 0)
  end.

Lemma presence_spends lo now fp b s key :
  rate_ok s -> lo <= now < lo + PRESENCE_RATE_WINDOW_SECS ->
  let s' := handle_presence sha256 sha3_384 nfkc_lower now fp b s in
  rate_ok s' /\ shown key s' + budget lo key s' <= shown key s + budget lo key s.
Proof.
  intros Hr Hn. cbv zeta. destruct (handle_presence_cases now fp b s) as [->|(k & Hk)]; [split; [done|lia]|].
  pose proof (rate_entry_ok now k s Hr) as Hok. unfold PRESENCE_RATE_BURST in *.
  assert (forall e, 0 <= e.2 <= 3 -> forall s1, pe_rate s1 = <[k := e]> (pe_rate s) -> rate_ok s1) as Hins.
  { intros e He s1 E x y. rewrite E. destruct (decide (k = x)) as [->|Hne];
      [rewrite lookup_insert_eq; by intros [= <-]|rewrite lookup_insert_ne by done; apply Hr]. }
  assert (budget lo k s >= 3 - (rate_entry now k s).2 + (if decide ((rate_entry now k s).1 < lo) then 3 else 0)) as Hb.
  { unfold budget, rate_entry, rate_ok, PRESENCE_RATE_WINDOW_SECS, PRESENCE_RATE_BURST in *. specialize (Hr k).
    destruct (pe_rate s !! k) as [[w c]|]; cbn [default from_option id fst snd] in *.
    - specialize (Hr _ eq_refl). cbn in Hr. repeat case_decide; cbn [fst snd] in *; lia.
    - repeat case_decide; cbn [fst snd] in *; lia. }
  destruct Hk as [[_ ->]|(Hlt & rec & l & t & c & _ & _ & _ & Hc & ->)].
  - split; [by apply (Hins (rate_entry now k s))|].
    change (shown key (set_rate _ s)) with (shown key s). enough (budget lo key (set_rate (<[k := rate_entry now k s]> (pe_rate s)) s) <= budget lo key s) by lia.
    destruct (decide (k = key)) as [->|Hne].
    + unfold budget at 1. cbn [pe_rate set_rate]. rewrite lookup_insert_eq. destruct (rate_entry now key s) as [w c].
      cbn [fst snd] in Hb. unfold PRESENCE_RATE_BURST. lia.
    + unfold budget. cbn [pe_rate set_rate]. rewrite lookup_insert_ne by done. lia.
  - rewrite shown_tell. set (s1 := set_names _ _). assert (pe_rate s1 = <[k := ((rate_entry now k s).1, (rate_entry now k s).2 + 1)]> (pe_rate s)) as E1.
    { unfold s1. cbn [pe_rate set_names set_rate]. by rewrite insert_insert_eq. }
    split; [eapply Hins; [|exact E1]; cbn; lia|].
    change (shown key s1) with (shown key s). change (budget lo key (tell ?e s1)) with (budget lo key s1).
    assert (is_shown key (PName k (nr_account_fp rec) l t (nr_seq rec) c) = bool_decide (k = key)) as ->.
    { cbn. destruct c as [[]|]; done. }
    unfold budget at 1. rewrite E1. destruct (decide (k = key)) as [->|Hne].
    + rewrite lookup_insert_eq, bool_decide_true by done. destruct (rate_entry now key s) as [w n].
      cbn [fst snd] in *. unfold PRESENCE_RATE_BURST. lia.
    + rewrite lookup_insert_ne, bool_decide_false by done. unfold budget. lia.
Qed.

(** One turn at a time between [lo] and [hi]. *)
Definition tstep (lo hi : Z) (s s' : People) : Prop :=
  exists now, lo <= now < hi /\ ((exists h, s' = hear now h s) \/ (exists a, s' = act now a s)).

Lemma tstep_spends lo s s' key :
  rate_ok s -> tstep lo (lo + PRESENCE_RATE_WINDOW_SECS) s s' ->
  rate_ok s' /\ shown key s' + budget lo key s' <= shown key s + budget lo key s.
Proof.
  intros Hr (now & Hn & [[h ->]|[a ->]]).
  - destruct (hear_shown now h s key) as [[Hs Hrt]|(fp & b & ->)]; [|by apply presence_spends].
    unfold rate_ok, budget. rewrite Hs, Hrt. split; [exact Hr|lia].
  - unfold rate_ok, budget, shown. rewrite act_rate, act_events. split; [exact Hr|lia].
Qed.

Lemma steps_rate_ok s s' : psteps s s' -> rate_ok s -> rate_ok s'.
Proof.
  induction 1 as [|s s1 s' Hst _ IH]; [done|]. intros Hr. apply IH.
  destruct Hst as [now h s|now a s].
  - apply (tstep_spends now s _ [] Hr). exists now. unfold PRESENCE_RATE_WINDOW_SECS. split; [lia|]. left. eauto.
  - unfold rate_ok. by rewrite act_rate.
Qed.

(** The presence flood limit.  Whatever a peer sends, and whatever else goes
    on, the node shows at most twice the burst of names for one key in any span
    of one window; the budget is per window, so two adjoining windows may be
    spent in one span, and not more. *)
Lemma presence_flood_bounded (s0 s s' : People) (lo : Z) (key : bytes) :
  pe_rate s0 = ∅ -> psteps s0 s -> rtc (tstep lo (lo + PRESENCE_RATE_WINDOW_SECS)) s s' ->
  shown key s' - shown key s <= 2 * PRESENCE_RATE_BURST.
Proof.
  intros H0 Hs Ht. assert (rate_ok s) as Hr.
  { apply (steps_rate_ok s0); [done|]. intros k e. by rewrite H0, lookup_empty. }
  assert (rate_ok s' /\ shown key s' + budget lo key s' <= shown key s + budget lo key s) as [Hr' Hle].
  { clear H0 Hs. induction Ht as [|s s1 s' Hst _ IH]; [split; [done|lia]|].
    destruct (tstep_spends lo s s1 key Hr Hst) as [Hr1 H1]. destruct (IH Hr1) as [H2 H3]. split; [done|lia]. }
  assert (0 <= budget lo key s') as Hb'.
  { unfold budget, rate_ok, PRESENCE_RATE_BURST in *. specialize (Hr' key). destruct (pe_rate s' !! key) as [[w c]|]; [|lia].
    specialize (Hr' _ eq_refl). cbn in Hr'. case_decide; lia. }
  assert (budget lo key s <= 2 * PRESENCE_RATE_BURST) as Hb.
  { unfold budget, rate_ok, PRESENCE_RATE_BURST in *. specialize (Hr key). destruct (pe_rate s !! key) as [[w c]|]; [|lia].
    specialize (Hr _ eq_refl). cbn in Hr. case_decide; lia. }
  lia.
Qed.

(** ** Admissions and leaf accounts *)

(** A property that holds at the end and not at the start began to hold in one
    of the turns in between. *)
Lemma becomes (Q : People -> Prop) `{!forall s, Decision (Q s)} s s' :
  psteps s s' -> ~ Q s -> Q s' ->
  exists t t', psteps s t /\ pstep t t' /\ ~ Q t /\ Q t' /\ psteps t' s'.
Proof.
  intros Hs. induction Hs as [|s s1 s' Hst Hr IH]; [done|]. intros Hn Hq.
  destruct (decide (Q s1)) as [H1|H1].
  - exists s, s1. split; [apply rtc_refl|]. done.
  - destruct (IH H1 Hq) as (t & t' & Ht & ?). exists t, t'. split; [|done]. by eapply rtc_l.
Qed.

Lemma hear_admitted now h s :
  pe_admitted (hear now h s) = pe_admitted s \/
  exists from b, h = HeardMemberIdentity from b.
Proof. destruct h; try (left; unfold_handlers; branches; reflexivity). right. eauto. Qed.

(** What a joiner showed when it was admitted at [t]. *)
Definition admission (now : Z) (t : People) (fp b : bytes) (pres : Presentation) (account leaf : IdentityPublic) : Prop :=
  pres_decode b = Ok pres /\ certified now account (links (pr_chain pres)) leaf /\ fingerprint leaf = fp /\
  revoked_link sha3_384 t (fingerprint account) (pr_chain pres) = false /\
  admits (pe_access t) (fingerprint account) (is_contact (pe_contacts t) account) (is_friend (pe_contacts t) account) = true.

Lemma member_identity_admits now from b s fp :
  fp ∈ pe_admitted (handle_group_member_identity sha3_384 now from b s) -> fp ∉ pe_admitted s ->
  fp = from /\ exists pres account leaf, admission now s fp b pres account leaf.
Proof.
  unfold handle_group_member_identity. destruct (pres_decode b) as [pres|] eqn:Ep; [|done].
  destruct (resolve_chain _ _ _ _ _) as [res|] eqn:Er; [|done].
  apply resolve_chain_spec in Er as (leaf & Hc & Hf & Hres). rewrite Hres. cbn [res_account_fingerprint res_contact res_friend res_account].
  destruct (revoked_link _ _ _ _) eqn:Erv; [done|].
  change (pe_access (set_seen_accounts ?x s)) with (pe_access s).
  destruct (admits _ _ _ _) eqn:Ea; [|done]. cbn [pe_admitted tell set_events set_admitted set_seen_accounts].
  intros Hin Hn. assert (fp = from) as -> by set_solver. split; [done|].
  exists pres, (res_account res), leaf. done.
Qed.

(** C30: nobody is admitted to a group without having earned it.  If a peer is on
    the admitted list, then at some turn it presented a chain that certifies the
    device it is authenticated as under an account, with no link revoked, and the
    access policy in force at that turn admitted that account. *)
Theorem admission_earned (s0 s : People) (fp : bytes) :
  pe_admitted s0 = ∅ -> psteps s0 s -> fp ∈ pe_admitted s ->
  exists t now b pres account leaf,
    psteps s0 t /\ admission now t fp b pres account leaf /\
    psteps (handle_group_member_identity sha3_384 now fp b t) s.
Proof.
  intros H0 Hs Hin. destruct (becomes (fun s => fp ∈ pe_admitted s) s0 s Hs) as (t & t' & Ht & Hst & Hn & Hi & Ht').
  { rewrite H0. set_solver. } { done. }
  destruct Hst as [now h t|now a t]; [|by rewrite act_admitted in Hi].
  destruct (hear_admitted now h t) as [E|(from & b & ->)]; [by rewrite E in Hi|]. cbn [hear] in *.
  destruct (member_identity_admits now from b t fp Hi Hn) as [-> (pres & account & leaf & Ha)].
  exists t, now, b, pres, account, leaf. done.
Qed.

(** The evidence for a leaf's account at [t]: the account certifies the device
    that joined at this leaf, and that device certifies the leaf's signing key. *)
Definition leaf_bound (now : Z) (t : People) (leaf : Z) (account : IdentityPublic) (ls : list SignedCert) : Prop :=
  exists grp leaf_key device_cert,
    pe_group t = Some grp /\ tk_leaf_sig_keys grp !! leaf = Some leaf_key /\ certified now account ls leaf_key /\
    last ls = Some device_cert /\ pe_roster t !! leaf = Some (fingerprint (sc_issuer device_cert)) /\
    revoked_link sha3_384 t (fingerprint account) (mkChain ls) = false.

Lemma hear_leaf_accounts now h s :
  pe_leaf_accounts (hear now h s) = pe_leaf_accounts s \/ exists from b, h = HeardLeafCert from b.
Proof. destruct h; try (left; unfold_handlers; branches; reflexivity). right. eauto. Qed.

Lemma leaf_cert_binds now from b s leaf a :
  pe_leaf_accounts (handle_leaf_sig_cert sha256 sha3_384 now from b s) !! leaf = Some a ->
  pe_leaf_accounts s !! leaf <> Some a ->
  exists account ls, fingerprint account = a /\ leaf_bound now s leaf account ls.
Proof.
  intros Hl Hn. revert Hl. unfold handle_leaf_sig_cert. destruct (seen_insert _ _) as [[] seen]; cbn [negb]; [|done].
  destruct (chain_decode b) as [[ls]|]; [|done]. cbn [links].
  destruct (head ls) as [l0|]; [|done]. destruct (chain_leaf (mkChain ls)) as [key|] eqn:El; [|done].
  destruct (is_ok (chain_verify _ _ _ _)) eqn:Ev; [|done]. cbn [negb]. apply is_ok_unit, chain_verify_certified in Ev.
  destruct (revoked_link _ _ _ _) eqn:Er; [done|]. cbn [pe_group pe_roster set_seen].
  set (found := match pe_group s with Some grp => _ | None => _ end). destruct found as [lf|] eqn:Ef.
  2: { unfold reflood. branches; done. }
  case_decide as Hd; [done|]. intros Hl.
  assert (<[lf := fingerprint (sc_issuer l0)]> (pe_leaf_accounts s) !! leaf = Some a) as Hl'.
  { revert Hl. unfold reflood. branches; done. }
  destruct (decide (lf = leaf)) as [->|Hne]; [|by rewrite lookup_insert_ne in Hl' by done].
  rewrite lookup_insert_eq in Hl'. injection Hl' as <-.
  exists (sc_issuer l0), ls. split; [done|]. unfold found in Ef. destruct (pe_group s) as [grp|] eqn:Eg; [|done].
  apply find_some in Ef as [_ Hk%bool_decide_eq_true]. destruct (last ls) as [dc|] eqn:Edc.
  2: { exfalso. apply Hd. cbn. destruct (pe_roster s !! leaf); [right; done|by left]. }
  exists grp, key, dc. split; [done|]. split; [done|]. split; [done|]. split; [done|]. split; [|done].
  cbn in Hd. destruct (pe_roster s !! leaf) as [d|] eqn:Erl; [|naive_solver].
  destruct (decide (Some d = Some (fingerprint (sc_issuer dc)))) as [E|E]; [done|]. exfalso. apply Hd. by right.
Qed.

(** A leaf is shown under an account only on the account's word.  If the node
    holds an account for a leaf, then at some turn it verified a chain from that
    account, with no link revoked, whose last link, issued by the very device
    that had joined at this leaf, certifies the key the leaf signs with. *)
Lemma leaf_account_earned (s0 s : People) (leaf : Z) (a : bytes) :
  pe_leaf_accounts s0 = ∅ -> psteps s0 s -> pe_leaf_accounts s !! leaf = Some a ->
  exists t now account ls, psteps s0 t /\ psteps t s /\ fingerprint account = a /\ leaf_bound now t leaf account ls.
Proof.
  intros H0 Hs Hl. destruct (becomes (fun s => pe_leaf_accounts s !! leaf = Some a) s0 s Hs) as (t & t' & Ht & Hst & Hn & Hi & Ht').
  { by rewrite H0, lookup_empty. } { done. }
  assert (psteps t s) as Hts by (by eapply rtc_l).
  destruct Hst as [now h t|now ac t]; [|by rewrite act_leaf_accounts in Hi].
  destruct (hear_leaf_accounts now h t) as [E|(from & b & ->)]; [by rewrite E in Hi|]. cbn [hear] in *.
  destruct (leaf_cert_binds now from b t leaf a Hi Hn) as (account & ls & Ha & Hb).
  exists t, now, account, ls. done.
Qed.

(** ** The pairwise gate *)

(** When a pairwise peer's identity is let in: exactly when it presents a chain
    that binds its device to an account, nothing on it is revoked, and both the
    access policy and the channel's predicate accept it. *)
Lemma identity_allowed now peer_fp b s :
  (handle_identity sha3_384 now peer_fp b s).1 = Allowed <->
  exists pres account leaf,
    admission now s peer_fp b pres account leaf /\
    predicate_holds sha3_384 (ch_access_predicate (pe_chat s)) (fingerprint account) (pr_chain pres) = true.
Proof.
  unfold handle_identity, admission. split.
  - destruct (pres_decode b) as [pres|] eqn:Ep; [|done].
    destruct (resolve_chain _ _ _ _ _) as [res|] eqn:Er; [|done].
    apply resolve_chain_spec in Er as (leaf & Hc & Hf & Hres). rewrite Hres.
    cbn [res_account_fingerprint res_contact res_friend res_account].
    destruct (revoked_link _ _ _ _) eqn:Erv; [done|]. destruct (admits _ _ _ _) eqn:Ea; [|done]. cbn [negb].
    change (pe_chat (set_seen_accounts ?x s)) with (pe_chat s).
    destruct (predicate_holds _ _ _ _) eqn:Eh; [|done]. intros _. exists pres, (res_account res), leaf. done.
  - intros (pres & account & leaf & (Hp & Hc & Hf & Hr & Ha) & Hh). rewrite Hp.
    assert (resolve_chain sha3_384 (pe_contacts s) (pr_chain pres) peer_fp now =
      Some (mkResolved account (fingerprint account) peer_fp (is_contact (pe_contacts s) account)
              (is_friend (pe_contacts s) account))) as ->.
    { apply resolve_chain_spec. exists leaf. done. }
    cbn [res_account_fingerprint res_contact res_friend res_account]. rewrite Hr, Ha. cbn [negb].
    change (pe_chat (set_seen_accounts ?x s)) with (pe_chat s). by rewrite Hh.
Qed.

(** The group gate has no predicate: a joiner the policy accepts is admitted
    whatever [access_predicate] the descriptor carries. *)
Lemma group_gate_skips_predicate now from b s pres account leaf :
  admission now s from b pres account leaf ->
  from ∈ pe_admitted (handle_group_member_identity sha3_384 now from b s).
Proof.
  intros (Hp & Hc & Hf & Hr & Ha). unfold handle_group_member_identity. rewrite Hp.
  assert (resolve_chain sha3_384 (pe_contacts s) (pr_chain pres) from now =
    Some (mkResolved account (fingerprint account) from (is_contact (pe_contacts s) account)
            (is_friend (pe_contacts s) account))) as ->.
  { apply resolve_chain_spec. exists leaf. done. }
  cbn [res_account_fingerprint res_contact res_friend res_account]. rewrite Hr.
  change (pe_access (set_seen_accounts ?x s)) with (pe_access s). rewrite Ha. cbn. set_solver.
Qed.

(** An admission is never taken back: no turn removes a peer from the list. *)
Lemma admission_outlives s s' fp : psteps s s' -> fp ∈ pe_admitted s -> fp ∈ pe_admitted s'.
Proof.
  induction 1 as [|s s1 s' Hst _ IH]; [done|]. intros Hin. apply IH. destruct Hst as [now h s|now a s].
  - destruct (hear_admitted now h s) as [->|(from & b & ->)]; [done|]. cbn [hear]. unfold handle_group_member_identity.
    branches; try done; cbn; set_solver.
  - by rewrite act_admitted.
Qed.

(** ** Grouping disclosures *)

Definition grouping_backed (context gp fp : bytes) : Prop :=
  exists now member cert sig, fingerprint member = fp /\
    verify_grouping_cert (mkIdentityPublic gp) cert member now = true /\ id_verify member context sig = Ok tt.

Lemma lp_decode_grouping p :
  payload_wf p ->
  let lp := LPGrouping (ct_subject (sc_cert (gp_cert p))) (gp_cert p) (gp_ctx_sig p) in
  lp_decode (lp_encode lp) = Some lp.
Proof.
  intros [Hp [Hc Hcs] Hs Hq] lp. destruct Hc as [? [Hsub ? ? ?] ? ?]. apply lp_decode_exact.
  - rewrite lp_encode_norm. unfold lp, pub_ok, short, usize_max, MAX_FRAME in *. cbn [lp_body lp_tag].
    rewrite !zlen_app, !zlen_enc_bytes. change (zlen [byte_of 1]) with 1. lia.
  - split; [|done]. done.
Qed.

Lemma handle_linkage_backed now fp b s gp leaf :
  zlen b <= usize_max -> leaf ∈ default ∅ (pe_groupings (handle_linkage sha256 sha3_384 now fp b s) !! gp) ->
  leaf ∈ default ∅ (pe_groupings s !! gp) \/ (leaf = fp /\ grouping_backed (ctx_of s) gp fp).
Proof.
  intros Hb. unfold handle_linkage.
  assert (pe_groupings (witness_gossip_round fp s) = pe_groupings s) as Hg by (unfold witness_gossip_round; by case_decide).
  assert (ctx_of (witness_gossip_round fp s) = ctx_of s) as Hc by (unfold witness_gossip_round; by case_decide).
  set (s1 := witness_gossip_round fp s) in *. clearbody s1.
  destruct (payload_decode b) as [p|] eqn:Ed; [|rewrite Hg; by left]. apply payload_decode_exact in Ed as [Hwf _]; [|done].
  destruct (match pe_linkage_seq s1 !! fp with Some _ => _ | None => _ end); [rewrite Hg; by left|].
  change (my_context sha256 (set_linkage_seq ?x s1)) with (my_context sha256 s1).
  case_bool_decide as Hsub; cbn [andb]; [|cbn; rewrite Hg; by left].
  case_bool_decide as Hv; [|cbn; rewrite Hg; by left].
  cbn [pe_groupings tell set_events set_groupings set_linkage_seq]. rewrite Hg. intros Hin.
  destruct (decide (gp_grouping_pub p = gp)) as [<-|Hne]; [|rewrite lookup_insert_ne in Hin by done; by left].
  rewrite lookup_insert_eq in Hin. cbn in Hin. apply elem_of_union in Hin as [Hin|Hin]; [|by left].
  apply elem_of_singleton in Hin as ->. right. split; [done|].
  unfold backend_verify in Hv. rewrite (lp_decode_grouping p Hwf) in Hv. cbn [lc_predicate lc_context] in Hv.
  destruct (verify_grouping_cert _ _ _ _) eqn:E1; [|done]. destruct (is_ok (id_verify _ _ _)) eqn:E2; [|done].
  apply is_ok_unit in E2. rewrite Hc in E2. exists now, (ct_subject (sc_cert (gp_cert p))), (gp_cert p), (gp_ctx_sig p). done.
Qed.

End PeopleProps.
