(* ===== verification/PeopleDemo.v ===== *)
(** * A chat, its people and what they hear

    Concrete runs of the handlers of [People] on small stand-ins for the
    primitives: the hypotheses of the theorems of [PeopleProps] hold together, and
    the corner cases named at the end really occur. *)

From S2P Require Import Prelude Wire Crypto Hybrid Toy Marking Frames TreeKem Engine Forward Codec Account Relay Contacts Linkage Vouch Presence People PeopleProps.

(** Keys of 16 bytes whose fingerprint is the key itself, filled up, so that the
    runs stay small.  The theorems on runs ask nothing of the primitives. *)
Definition slim_sum (b : bytes) : bytes := [byte_of (toy_hash b)].
#[local] Instance slim : Primitives := {|
  coins := nat;
  random_bytes c n := replicate n (byte_of (Z.of_nat c));
  mac_kdf k m l n := resize n (byte_of 0) (slim_sum (k ++ m ++ l));
  gcm_encrypt k n p a := Some p;
  gcm_decrypt k n c a := Some c;
  kem_dk := bytes;
  kem_ek_len := 1;
  kem_ct_len := 1;
  kem_generate c := ([], []);
  kem_generate_deterministic d z := ([], []);
  kem_encapsulate ek c := None;
  kem_decapsulate dk ct := None;
  x_secret := bytes;
  x_random c := [];
  x_from_bytes b := b;
  x_public b := b;
  x_diffie_hellman a b := [];
  mldsa_vk_len := 16;
  mldsa_sig_len := 1;
  mldsa_vk seed := resize 16 (byte_of 0) seed;
  mldsa_sign seed m := slim_sum (resize 16 (byte_of 0) seed ++ m);
  mldsa_verify vk m s := bool_decide (s = slim_sum (vk ++ m));
|}.
Definition slim_sha (b : bytes) : bytes := resize 32 (byte_of 0) (slim_sum b).
Definition slim_fp (b : bytes) : bytes := resize 48 (byte_of 0) b.

Definition pd_key (name : string) : IdentityKeyPair := id_from_secret_bytes (bstr name).
Definition pd_pub (name : string) : IdentityPublic := id_public (pd_key name).
Definition pd_fp (name : string) : bytes := id_fingerprint slim_fp (pd_pub name).
Definition pd_fold (b : bytes) : list Z := bval <$> b.

Definition pd_chat : Chat :=
  mkChat (bstr "token") (bstr "lobby") None (mkPolicy AnyLinked default_weighting (Count 1) 64)
    WarnOnCollision false RoleHost false (pd_key "me").
Definition pd_start : People :=
  mkPeople pd_chat false None ∅ [] [] AOpen ∅ ∅ ∅ ∅ ∅ None ∅ ∅ ∅ None None [] 0 ∅ None ∅ ∅ seen_new None 0
    (bstr "root") [] [] [].
Definition pd_context : bytes := my_context slim_sha pd_start.

Notation pd_hear := (hear slim_sha slim_fp pd_fold).
Notation pd_act := (act slim_sha slim_fp).
Notation pd_steps := (psteps slim_sha slim_fp pd_fold).

(** A run of turns, each at its own time. *)
Definition pd_run (hs : list (Z * Heard)) (s : People) : People := foldl (fun s x => pd_hear x.1 x.2 s) s hs.

Lemma pd_run_steps hs s : pd_steps s (pd_run hs s).
Proof.
  revert s. induction hs as [|[now h] hs IH]; intros s; [apply rtc_refl|]. eapply rtc_l; [|apply IH].
  apply (step_hear slim_sha slim_fp pd_fold now h).
Qed.

(** The phone of an account, and the same with a signing key below it. *)
Definition pd_chain (acct dev : string) : IdentityChain :=
  chain_device (pd_key acct) (pd_pub dev) (bstr "phone") 0 0.

(** ** Witnesses *)

Definition pd_vouch (epoch : Z) : Z * Heard :=
  (100, HeardPresence (pd_fp "carol")
     (byte_of VOUCH_SENTINEL :: vouch_encode (sign_vouch (pd_key "carol") (TLeaf (pd_fp "bob")) pd_context epoch 0))).
Definition pd_vouched : People := pd_run [pd_vouch 5] pd_start.
Definition pd_revouched : People := pd_run [pd_vouch 5; pd_vouch 7; pd_vouch 6] pd_vouched.

Lemma vouch_ledger_authentic_witness :
  (exists rec, ledger pd_vouched (pd_fp "bob") (pd_fp "carol") = Some rec /\
     vouch_backed slim_fp pd_context (pd_fp "bob") (pd_fp "carol") rec) /\
  vr_epoch <$> ledger pd_revouched (pd_fp "bob") (pd_fp "carol") = Some 7 /\
  (forall subject vf rec, ledger pd_vouched subject vf = Some rec ->
     exists rec', ledger pd_revouched subject vf = Some rec' /\ (rec' = rec \/ vr_epoch rec < vr_epoch rec')).
Proof.
  destruct (vouch_ledger_authentic slim_sha slim_fp pd_fold pd_start pd_vouched pd_revouched eq_refl
    (pd_run_steps _ _) (pd_run_steps _ _)) as [Hb Hm].
  split; [|split; [|exact Hm]].
  - destruct (ledger pd_vouched (pd_fp "bob") (pd_fp "carol")) as [rec|] eqn:E; [exists rec; split; [reflexivity|exact (Hb _ _ _ E)]|].
    exfalso. apply (f_equal (fun o => bool_decide (is_Some o))) in E. revert E. vm_compute. discriminate.
  - vm_compute. reflexivity.
Defined.



Lemma pd_run_tsteps lo hs s :
  Forall (fun x => lo <= x.1 < lo + PRESENCE_RATE_WINDOW_SECS) hs ->
  rtc (tstep slim_sha slim_fp pd_fold lo (lo + PRESENCE_RATE_WINDOW_SECS)) s (pd_run hs s).
Proof.
  intros H. revert s. induction H as [|[now h] hs Hn _ IH]; intros s; [apply rtc_refl|].
  eapply rtc_l; [|apply IH]. exists now. split; [exact Hn|]. left. by exists h.
Qed.

(** Four presences at once: one more than the budget. *)
Definition pd_burst (now first : Z) : list (Z * Heard) :=
  (fun i => (now, HeardPresence (bstr "peer") (np_encode (NPBare (first + i) (bstr "bob"))))) <$> [0; 1; 2; 3].

Lemma presence_flood_bounded_witness :
  let before := pd_run (pd_burst 10 1) pd_start in
  let after := pd_run (pd_burst 11 11 ++ pd_burst 12 21) before in
  shown (bstr "peer") after - shown (bstr "peer") before = 3 /\
  shown (bstr "peer") after - shown (bstr "peer") before <= 2 * PRESENCE_RATE_BURST.
Proof.
  cbv zeta. split; [vm_compute; reflexivity|].
  apply (presence_flood_bounded slim_sha slim_fp pd_fold pd_start _ _ 11 (bstr "peer") eq_refl (pd_run_steps _ _)).
  apply pd_run_tsteps. repeat constructor; vm_compute; congruence.
Defined.

(** Only accounts on the list are admitted; [acct] is, through its phone. *)
Definition pd_gated : People := pd_act 0 (ActAllow (pd_fp "acct")) pd_start.
Definition pd_ident (acct dev : string) : Z * Heard :=
  (10, HeardMemberIdentity (pd_fp dev) (pres_encode (mkPresentation (pd_chain acct dev) None))).
Definition pd_joined : People := pd_run [pd_ident "eve" "mallory"; pd_ident "acct" "bob"] pd_gated.

Definition pd_is_admitted (fp : bytes) (s : People) : bool := bool_decide (fp ∈ pe_admitted s).
Lemma pd_joined_only : pd_is_admitted (pd_fp "bob") pd_joined = true /\ pd_is_admitted (pd_fp "mallory") pd_joined = false.
Proof. vm_compute. split; reflexivity. Qed.

Lemma admission_earned_witness :
  exists t now b pres account leaf,
    pd_steps pd_gated t /\ admission slim_fp now t (pd_fp "bob") b pres account leaf /\
    pd_steps (handle_group_member_identity slim_fp now (pd_fp "bob") b t) pd_joined.
Proof.
  apply (admission_earned slim_sha slim_fp pd_fold pd_gated pd_joined (pd_fp "bob") eq_refl (pd_run_steps _ _)).
  exact (bool_decide_eq_true_1 _ (proj1 pd_joined_only)).
Defined.

(** A member of the group signs with the key its phone certified for it. *)
Definition pd_leaf : Z := 1.
Definition pd_group : TreeKemGroup :=
  mkTreeKem profile_pq_pure_compact 2 ∅ [true; true] 0 ∅ 0 [] [] 0 ∅ {[ pd_leaf := pd_pub "leaf key" ]} ∅ None None 0.
Definition pd_in_group : People := pd_act 0 (ActGroup (Some pd_group) {[ pd_leaf := pd_fp "bob" ]} []) pd_start.
Definition pd_leaf_cert : Z * Heard :=
  (10, HeardLeafCert (pd_fp "bob")
     (chain_encode (chain_extend (pd_chain "acct" "bob") (pd_key "bob") (pd_pub "leaf key") (bstr "leaf") 0 0))).
Definition pd_bound : People := pd_run [pd_leaf_cert] pd_in_group.

Lemma leaf_account_earned_witness :
  exists t now account ls, pd_steps pd_in_group t /\ pd_steps t pd_bound /\
    id_fingerprint slim_fp account = pd_fp "acct" /\ leaf_bound slim_fp now t pd_leaf account ls.
Proof.
  apply (leaf_account_earned slim_sha slim_fp pd_fold pd_in_group pd_bound pd_leaf (pd_fp "acct") eq_refl (pd_run_steps _ _)).
  vm_compute. reflexivity.
Defined.

(** ** Corner cases *)

(** A replayed name comes back.  A message that carries another name id drops the
    cached name and its sequence number with it, so an announcement older than
    the dropped one is accepted again. *)
Lemma replayed_name_returns :
  let bare seq label := (10, HeardPresence (bstr "peer") (np_encode (NPBare seq (bstr label)))) in
  let label s := nr_label <$> (pe_names s !! bstr "peer") in
  let s1 := pd_run [bare 1 "old"; bare 2 "new"; bare 1 "old"] pd_start in
  let s2 := pd_run [(10, HeardGroup (HNameTag (bstr "peer") (bstr "other"))); bare 1 "old"] s1 in
  label s1 = Some (bstr "new") /\ label s2 = Some (bstr "old").
Proof. vm_compute. split; reflexivity. Qed.

(** A person with both an account and a grouping is counted twice by the estimate
    of distinct people. *)
Lemma sybil_counts_twice :
  let record := mkRecord (bstr "bob") TierLinked 1 (Some (bstr "account")) in
  let s := set_groupings {[bstr "group" := {[bstr "leaf"]}]} (set_names {[bstr "leaf" := record]} pd_start) in
  sy_min_distinct_people (sybil_estimate s) = 2.
Proof. vm_compute. reflexivity. Qed.

(** A revocation of a device does not reach the keys below it when a name is
    announced: only the leaf is looked up, while the identity handlers look at
    every link. *)
Definition pd_segment : IdentityChain := chain_extend (pd_chain "acct" "bob") (pd_key "bob") (pd_pub "segment") (bstr "segment") 0 0.
Definition pd_revoked : People :=
  set_revocations {[(pd_fp "acct", pd_fp "bob")]} pd_start.
Lemma segment_of_revoked_device_named :
  let b := np_encode (np_linked 1 pd_segment (bstr "bob") pd_context (pd_key "segment")) in
  revoked_link slim_fp pd_revoked (pd_fp "acct") pd_segment = true /\
  nr_account_fp <$> (pe_names (pd_run [(10, HeardPresence (bstr "peer") b)] pd_revoked) !! pd_fp "segment") = Some (Some (pd_fp "acct")).
Proof. vm_compute. split; reflexivity. Qed.

(** Withdrawing a vouch sends a newer vouch for the same subject: the receivers'
    ledgers keep the voucher, at a higher epoch. *)
Lemma withdrawn_vouch_counts :
  let cast s := (fun x => (10, HeardPresence (pd_fp "me") (byte_of VOUCH_SENTINEL :: x.2))) <$> pe_announced s in
  let mine := pd_act 21 (ActUnvouch (TLeaf (pd_fp "bob"))) (pd_act 20 (ActVouch (TLeaf (pd_fp "bob"))) pd_start) in
  let heard := pd_run (cast mine) pd_start in
  pe_my_vouches mine = [] /\ vr_epoch <$> ledger heard (pd_fp "bob") (pd_fp "me") = Some 22.
Proof. vm_compute. split; reflexivity. Qed.

(** Two peers that take turns advance the gossip clock with bytes that decode to
    nothing. *)
Lemma junk_advances_the_clock :
  let junk p := (10, HeardPresence (bstr p) [byte_of VOUCH_SENTINEL]) in
  pe_round (pd_run [junk "a"; junk "b"; junk "a"; junk "b"] pd_start) = 4.
Proof. vm_compute. reflexivity. Qed.
