(* ===== verification/Signing.v ===== *)
(** * One identity key, eight uses

    An identity key signs certificates, username claims, revocations, vouches,
    name announcements, chat contexts, handshake transcripts and route
    descriptors.  Only some of these formats carry a label.  [op_bytes] are the
    exact bytes each use signs; this file proves that no two uses can be confused
    and draws the conclusion for certificate chains: a verified chain from an
    honest account consists of certificates its keys really issued. *)

From S2P Require Import Prelude Wire Crypto Toy Marking Frames Handshake Codec Account Relay Contacts Vouch Presence People.

Inductive SignOp : Type :=
| OpCert (c : Cert)
| OpClaim (c : UsernameClaim)
| OpRevoke (subject_fp : bytes) (issued : Z)
| OpVouch (target : VouchTarget) (context : bytes) (epoch asserted_at : Z)
| OpPresence (seq : Z) (label context : bytes)
| OpContext (context : bytes)
| OpHandshake (confirm : bool) (suite_id : string) (id_i : IdentityPublic) (nonce_i : bytes) (id_r : IdentityPublic)
    (prekey nonce_r : bytes)
| OpRoute (signer : IdentityPublic) (issued : Z) (endpoints : list bytes).

Definition op_bytes (o : SignOp) : bytes :=
  match o with
  | OpCert c => cert_encode c
  | OpClaim c => claim_encode_signed c
  | OpRevoke fp issued => rev_signed_bytes fp issued
  | OpVouch target context epoch asserted_at => vouch_signed_bytes target context epoch asserted_at
  | OpPresence seq label context => sign_input seq label context
  | OpContext context => context
  | OpHandshake confirm suite_id id_i nonce_i id_r prekey nonce_r =>
      handshake_transcript (if confirm then T_CONFIRM else T_RESP) suite_id id_i nonce_i id_r prekey nonce_r
  | OpRoute signer issued endpoints => route_transcript signer issued endpoints
  end.

Section Signing.
Context {P : Primitives} {POk : PrimitivesOk P}.

Definition is_vk (p : IdentityPublic) : Prop := length (sig_vk p) = mldsa_vk_len.

(** What the honest code signs: full-length keys, fixed-length digests, a
    non-empty username, a presence counter below 2^32, a suite name shorter than
    a key. *)
Definition op_ok (o : SignOp) : Prop :=
  match o with
  | OpCert c => cert_ok c /\ is_vk (ct_subject c)
  | OpClaim c => claim_ok c /\ is_vk (uc_account c) /\ uc_username c <> []
  | OpRevoke fp issued => length fp = 48%nat /\ is_u64 issued
  | OpVouch target context epoch asserted_at =>
      target_ok target /\ length context = 32%nat /\ is_u64 epoch /\ is_u64 asserted_at
  | OpPresence seq label context => is_u32 seq /\ short label /\ length context = 32%nat
  | OpContext context => length context = 32%nat
  | OpHandshake _ suite_id id_i nonce_i id_r prekey nonce_r =>
      zlen (bstr suite_id) < 2592 /\ is_vk id_i /\ is_vk id_r /\ short nonce_i /\ short prekey /\ short nonce_r
  | OpRoute signer issued endpoints =>
      is_vk signer /\ is_u64 issued /\ list_ok MAX_ROUTE_ENDPOINTS short endpoints
  end.

(** ** Normal forms: length-prefixed fields and a tail *)

Definition fields (fs : list bytes) (tl : bytes) : bytes := mjoin (enc_bytes <$> fs) ++ tl.

Definition op_fields (o : SignOp) : list bytes :=
  match o with
  | OpCert c => [sig_vk (ct_subject c); ct_label c; be_bytes 8 (ct_valid_from c); be_bytes 8 (ct_expiry c)]
  | OpClaim c => [uc_username c; sig_vk (uc_account c); be_bytes 8 (uc_issued c)]
  | OpRevoke fp issued => [fp; be_bytes 8 issued]
  | OpVouch target context _ _ => [VOUCH_SIG_LABEL; enc_target target; context]
  | OpPresence _ _ _ => [[]]
  | OpContext _ => []
  | OpHandshake confirm suite_id id_i nonce_i id_r prekey nonce_r =>
      [if confirm then T_CONFIRM else T_RESP; bstr suite_id; sig_vk id_i; nonce_i; sig_vk id_r; prekey; nonce_r]
  | OpRoute signer issued _ => [ROUTE_CONTEXT; sig_vk signer; be_bytes 8 issued]
  end.

Definition op_tail (o : SignOp) : bytes :=
  match o with
  | OpVouch _ _ epoch asserted_at => enc_halves epoch ++ enc_halves asserted_at
  | OpPresence seq label context => be_bytes 4 seq ++ enc_bytes label ++ enc_bytes context
  | OpContext context => context
  | OpRoute _ _ endpoints => enc_list enc_bytes endpoints
  | _ => []
  end.

Ltac flat := cbn [fmap list_fmap mjoin list_join app]; rewrite ?app_nil_r, <- ?(assoc (++)); done.

Lemma op_bytes_norm o : op_ok o -> op_bytes o = fields (op_fields o) (op_tail o).
Proof.
  unfold fields. destruct o as [c|c|fp i|t c e a|sq l c|c|b s i n r p m|sg i eps]; cbn [op_bytes op_fields op_tail op_ok]; intros Hok.
  - rewrite cert_encode_norm. unfold enc_cert, enc_pub, enc_u64f. flat.
  - rewrite claim_encode_signed_norm. unfold enc_claim, enc_pub, enc_u64f. flat.
  - unfold rev_signed_bytes. wire_norm. unfold enc_u64f. flat.
  - unfold vouch_signed_bytes. wire_norm. rewrite target_encode_norm. flat.
  - unfold sign_input. wire_norm. destruct Hok as [[Hs1 Hs2] _]. unfold enc_halves. rewrite Z.shiftr_div_pow2 by lia.
    rewrite Z.div_small by lia. unfold enc_bytes at 3. flat.
  - done.
  - unfold handshake_transcript. wire_norm. flat.
  - unfold route_transcript. rewrite (into_vec_put_each put_bytes enc_bytes) by (intros; apply into_vec_put_bytes).
    wire_norm. unfold enc_list. rewrite be_bytes_4_wrap. flat.
Qed.

Lemma fields_cons f fs tl : fields (f :: fs) tl = enc_bytes f ++ fields fs tl.
Proof. unfold fields. cbn. by rewrite <- (assoc (++)). Qed.
Lemma fields_nil tl : fields [] tl = tl.
Proof. done. Qed.

Definition small (b : bytes) : Prop := zlen b < 2 ^ 32.

Lemma fields_peel f fs tl g gs tl' :
  small f -> small g -> fields (f :: fs) tl = fields (g :: gs) tl' -> f = g /\ fields fs tl = fields gs tl'.
Proof. rewrite !fields_cons. intros Hf Hg E. by apply enc_bytes_inj in E. Qed.

Lemma short_small b : short b -> small b.
Proof. unfold short, small, MAX_FRAME. lia. Qed.
Lemma vk_small p : is_vk p -> small (sig_vk p).
Proof. unfold is_vk, small, zlen. intros ->. destruct mldsa_lens as [-> _]. lia. Qed.
Lemma len_small b n : length b = n -> Z.of_nat n < 2 ^ 32 -> small b.
Proof. unfold small, zlen. lia. Qed.
Lemma be8_small v : small (be_bytes 8 v).
Proof. unfold small. rewrite zlen_be_bytes. lia. Qed.

Ltac smalls := rewrite ?Forall_cons, ?Forall_nil; split_and!; eauto using vk_small, be8_small, short_small.

Lemma op_fields_small o : op_ok o -> Forall small (op_fields o).
Proof.
  destruct o as [c|c|fp i|t c e a|sq l c|c|b s i n r p m|sg i eps]; cbn [op_ok op_fields]; intros Hok.
  - destruct Hok as [[? [_ ?] ? ?] ?]. smalls.
  - destruct Hok as ([[_ ?] ? ?] & ? & _). smalls.
  - destruct Hok as [? _]. smalls. by eapply len_small.
  - destruct Hok as (Ht & ? & _). pose proof (enc_target_short t Ht). smalls; [by vm_compute|unfold small; lia|by eapply len_small].
  - smalls. by vm_compute.
  - constructor.
  - destruct Hok as (? & ? & ? & ? & ? & ?). smalls; [by destruct b; vm_compute|unfold small; lia].
  - destruct Hok as (? & ? & _). smalls. by vm_compute.
Qed.

(** The length of the first field tells most uses apart. *)
Definition first_len (o : SignOp) : Z := match op_fields o with f :: _ => zlen f | [] => -1 end.

Lemma zlen_fields fs tl : zlen (fields fs tl) = zlen tl + foldr (fun f n => 4 + zlen f + n) 0 fs.
Proof.
  induction fs as [|f fs IH]; [rewrite fields_nil; cbn; lia|]. rewrite fields_cons, zlen_app, zlen_enc_bytes, IH. cbn. lia.
Qed.

Lemma first_field o o' f fs g gs :
  op_ok o -> op_ok o' -> op_fields o = f :: fs -> op_fields o' = g :: gs -> op_bytes o = op_bytes o' ->
  f = g /\ fields fs (op_tail o) = fields gs (op_tail o').
Proof.
  intros Ho Ho' Ef Eg E. rewrite !op_bytes_norm, Ef, Eg in E by done.
  pose proof (op_fields_small o Ho) as Hs. pose proof (op_fields_small o' Ho') as Hs'. rewrite Ef in Hs. rewrite Eg in Hs'.
  inversion Hs; subst. inversion Hs'; subst. by apply fields_peel.
Qed.

(** Which use it is. *)
Definition op_kind (o : SignOp) : nat :=
  match o with
  | OpCert _ => 0 | OpClaim _ => 1 | OpRevoke _ _ => 2 | OpVouch _ _ _ _ => 3 | OpPresence _ _ _ => 4
  | OpContext _ => 5 | OpHandshake _ _ _ _ _ _ _ => 6 | OpRoute _ _ _ => 7
  end.

Lemma vk_zlen p : is_vk p -> zlen (sig_vk p) = 2592.
Proof. unfold is_vk, zlen. intros ->. by destruct mldsa_lens as [-> _]. Qed.

Lemma first_len_kind o :
  op_ok o ->
  match op_kind o with
  | 0%nat => first_len o = 2592
  | 1%nat => first_len o > 0
  | 2%nat => first_len o = 48
  | 3%nat => first_len o = 17
  | 4%nat => first_len o = 0
  | 5%nat => first_len o = -1
  | 6%nat => first_len o = 16 \/ first_len o = 19
  | _ => first_len o = 28
  end.
Proof.
  unfold first_len. destruct o as [c|c|fp i|t c e a|sq l c|c|b s i n r p m|sg i eps]; cbn [op_kind op_fields op_ok]; intros Hok.
  - apply vk_zlen, Hok.
  - destruct Hok as (_ & _ & Hn). destruct (uc_username c); [done|]. rewrite zlen_cons. pose proof (zlen_nonneg l). lia.
  - unfold zlen. lia.
  - by vm_compute.
  - by vm_compute.
  - done.
  - destruct b; [right|left]; by vm_compute.
  - by vm_compute.
Qed.

Lemma op_bytes_long o : op_ok o -> op_kind o <> 5%nat -> zlen (op_bytes o) > 32.
Proof.
  intros Hok Hk. rewrite op_bytes_norm by done. pose proof (zlen_nonneg (op_tail o)). rewrite zlen_fields.
  destruct o as [c|c|fp i|t c e a|sq l c|c|b s i n r p m|sg i eps]; cbn [op_fields foldr op_ok op_tail] in *;
    destruct_and?; repeat match goal with H : is_vk ?p |- _ => apply vk_zlen in H; rewrite H end;
    rewrite ?zlen_be_bytes, ?zlen_app in *;
    repeat match goal with |- context [zlen ?b] => lazymatch goal with H : 0 <= zlen b |- _ => fail | _ => pose proof (zlen_nonneg b) end end;
    try (unfold zlen in *; lia).
  - rewrite !zlen_enc_bytes in *. unfold zlen in *. cbn. lia.
  - done.
Qed.

(** A claim's second field is a key: no other use has one there, the route
    descriptor apart, which goes on after the timestamp. *)
Lemma claim_apart c o :
  op_ok (OpClaim c) -> op_ok o -> op_kind o <> 1%nat -> op_kind o <> 5%nat -> op_bytes (OpClaim c) <> op_bytes o.
Proof.
  intros Hc Ho H1 H5 E. pose proof Hc as (_ & Hvk%vk_zlen & _).
  pose proof (op_fields_small _ Hc) as Hs. pose proof (op_fields_small _ Ho) as Hs'.
  rewrite !op_bytes_norm in E by done. cbn [op_fields op_tail] in *.
  destruct o as [d|d|fp i|t ct e a|sq l ct|ct|b s i n r p m|sg i eps]; cbn [op_fields op_tail op_ok op_kind] in *; try done;
    rewrite !Forall_cons in Hs, Hs'; destruct_and?.
  - apply fields_peel in E as [_ E]; [|done..]. apply fields_peel in E as [_ E]; [|done..].
    apply fields_peel in E as [_ E]; [|done..]. apply (f_equal zlen) in E. rewrite !zlen_fields in E. cbn in E.
    rewrite zlen_be_bytes in E. lia.
  - apply fields_peel in E as [_ E]; [|done..]. apply fields_peel in E as [E _]; [|done..].
    rewrite E, zlen_be_bytes in Hvk. lia.
  - apply fields_peel in E as [_ E]; [|done..]. apply fields_peel in E as [E _]; [|done..].
    rewrite E in Hvk. pose proof (enc_target_short t ltac:(done)). lia.
  - apply fields_peel in E as [E _]; [|done..]. congruence.
  - apply fields_peel in E as [_ E]; [|done..]. apply fields_peel in E as [E _]; [|done..]. rewrite E in Hvk. lia.
  - apply fields_peel in E as [_ E]; [|done..]. apply fields_peel in E as [_ E]; [|done..].
    apply fields_peel in E as [_ E]; [|done..]. rewrite !fields_nil in E. apply (f_equal zlen) in E.
    unfold enc_list in E. rewrite zlen_app, zlen_be_bytes in E. pose proof (zlen_nonneg (mjoin (enc_bytes <$> eps))).
    rewrite zlen_nil in E. lia.
Qed.

Lemma kinds_apart o o' : op_ok o -> op_ok o' -> op_bytes o = op_bytes o' -> op_kind o = op_kind o'.
Proof.
  intros Ho Ho' E. destruct (decide (op_kind o = 5%nat)) as [K|K], (decide (op_kind o' = 5%nat)) as [K'|K']; [congruence|..].
  1, 2: exfalso.
  - pose proof (op_bytes_long o' Ho' K'). destruct o; try done. cbn in Ho. rewrite <- E in H. cbn in H. unfold zlen in H. lia.
  - pose proof (op_bytes_long o Ho K). destruct o'; try done. cbn in Ho'. rewrite E in H. cbn in H. unfold zlen in H. lia.
  - destruct (decide (op_kind o = 1%nat)) as [C|C], (decide (op_kind o' = 1%nat)) as [C'|C']; [congruence|..].
    + destruct o; try done. by destruct (claim_apart _ o' Ho Ho' C' K').
    + destruct o'; try done. by destruct (claim_apart _ o Ho' Ho C K).
    + assert (first_len o = first_len o') as Hl.
      { unfold first_len. destruct (op_fields o) as [|f fs] eqn:Ef; [by destruct o|].
        destruct (op_fields o') as [|g gs] eqn:Eg; [by destruct o'|].
        by destruct (first_field o o' f fs g gs Ho Ho' Ef Eg E) as [-> _]. }
      pose proof (first_len_kind o Ho). pose proof (first_len_kind o' Ho').
      destruct o, o'; cbn [op_kind] in *; try done; lia.
Qed.

(** ** Within one use, the bytes determine the statement *)

Lemma fields_inj fs tl gs tl' :
  Forall small fs -> Forall small gs -> length fs = length gs -> fields fs tl = fields gs tl' -> fs = gs /\ tl = tl'.
Proof.
  intros Hf. revert gs. induction Hf as [|f fs Hf Hfs IH]; intros [|g gs] Hg Hl E; try done.
  apply Forall_cons in Hg as [Hg Hgs]. apply fields_peel in E as [-> E]; [|done..].
  destruct (IH gs Hgs ltac:(cbn in Hl; lia) E) as [-> ->]. done.
Qed.

Lemma be8_inj a b : is_u64 a -> is_u64 b -> be_bytes 8 a = be_bytes 8 b -> a = b.
Proof. unfold is_u64. intros. apply (be_bytes_inj 8); [change (256 ^ Z.of_nat 8) with (2 ^ 64); lia..|done]. Qed.

Lemma pub_inj a b : sig_vk a = sig_vk b -> a = b.
Proof. destruct a, b. cbn. congruence. Qed.

Lemma endpoints_inj l k :
  list_ok MAX_ROUTE_ENDPOINTS short l -> list_ok MAX_ROUTE_ENDPOINTS short k ->
  enc_list enc_bytes l = enc_list enc_bytes k -> l = k.
Proof.
  intros [Hl Fl] [Hk Fk] E. unfold enc_list, MAX_ROUTE_ENDPOINTS in *. pose proof (zlen_nonneg l). pose proof (zlen_nonneg k).
  apply be_bytes_4_inj in E as [En E]; [|unfold is_u32; lia..].
  apply enc_fields_inj; [| |unfold zlen in En; lia|done]; (eapply Forall_impl; [done|]); intros; by apply short_small.
Qed.

Lemma same_kind_fields o o' : op_kind o = op_kind o' -> length (op_fields o) = length (op_fields o').
Proof. by destruct o, o'. Qed.

Ltac peel E n := apply cons_eq_inj in E as [n E].

Lemma same_kind_inj o o' : op_ok o -> op_ok o' -> op_kind o = op_kind o' -> op_bytes o = op_bytes o' -> o = o'.
Proof.
  intros Ho Ho' K E. rewrite !op_bytes_norm in E by done.
  apply fields_inj in E as [E H]; [|by apply op_fields_small..|by apply same_kind_fields].
  destruct o as [c|c|fp i|t c e a|sq l c|c|b s i n r p m|sg i eps], o' as [c'|c'|fp' i'|t' c' e' a'|sq' l' c'|c'|b' s' i' n' r' p' m'|sg' i' eps'];
    try done; cbn [op_fields op_tail op_ok] in *.
  - peel E E1. peel E E2. peel E E3. peel E E4. destruct Ho as [[] _], Ho' as [[] _], c, c'. cbn in *.
    f_equal. f_equal; [by apply pub_inj|done|by apply be8_inj..].
  - peel E E1. peel E E2. peel E E3. destruct Ho as [[] _], Ho' as [[] _], c, c'. cbn in *.
    f_equal. f_equal; [done|by apply pub_inj|by apply be8_inj].
  - peel E E1. peel E E2. destruct_and?. f_equal; [done|by apply be8_inj].
  - peel E E0. peel E E1. peel E E2. destruct_and?. apply enc_target_inj in E1; [|done..]. subst.
    apply enc_halves_inj in H as [-> H]; [|done..].
    rewrite <- (app_nil_r (enc_halves a)), <- (app_nil_r (enc_halves a')) in H. by apply enc_halves_inj in H as [-> _].
  - destruct_and?. apply be_bytes_4_inj in H as [-> H]; [|done..].
    apply enc_bytes_inj in H as [-> H]; [|by apply short_small..].
    rewrite <- (app_nil_r (enc_bytes c)), <- (app_nil_r (enc_bytes c')) in H.
    apply enc_bytes_inj in H as [-> _]; [done|by eapply len_small..].
  - by f_equal.
  - peel E E1. peel E E2. peel E E3. peel E E4. peel E E5. peel E E6. peel E E7. apply bstr_inj in E2. apply pub_inj in E3, E5. subst. by destruct b, b'.
  - peel E E0. peel E E1. peel E E2. destruct_and?. apply pub_inj in E1. apply be8_inj in E2; [|done..].
    apply endpoints_inj in H; [|done..]. by subst.
Qed.

(** C28: signatures cannot be moved between uses.  The bytes an identity key signs
    as a certificate, a username claim, a revocation, a vouch, a name
    announcement, a chat context, a handshake transcript or a route descriptor
    determine which of the eight it is and every field of it, although most of
    the formats carry no label. *)
Theorem signed_statements_distinct (o o' : SignOp) :
  op_ok o -> op_ok o' -> op_bytes o = op_bytes o' -> o = o'.
Proof. intros Ho Ho' E. apply same_kind_inj; [done..|by apply kinds_apart|done]. Qed.

(** ** Chains of honest keys *)

Lemma id_verify_vk p m sig : id_verify p m sig = Ok tt -> is_vk p.
Proof.
  with_strategy transparent [id_verify] (unfold id_verify). unfold is_vk. intros H.
  destruct (decide (length (sig_vk p) = mldsa_vk_len)) as [|Hn]; [done|]. by rewrite decide_True in H.
Qed.

Lemma certified_issuer_vk now a ls leaf : certified now a ls leaf -> is_vk a.
Proof. destruct 1 as [l [Hv _]|l ls leaf [Hv _] _]; by apply id_verify_vk in Hv. Qed.

(** C29: what a verified chain proves.  Take the statements the holders of honest
    keys have signed, of all eight kinds, and suppose no signature is forged: bytes
    whose signature in the chain verifies under an honest key are bytes its holder
    signed as one of these.  If a chain verifies from an honest account to a leaf,
    then its links up to the first certificate issued to a key that is not honest are
    certificates honest keys really issued, each valid at the time; where there is no
    such certificate these are all links and the leaf is honest.  A signature made
    for another purpose never passes for a certificate. *)
Theorem chain_authentic (honest : IdentityPublic -> bool) (log : IdentityPublic -> list SignOp)
    (now : Z) (chain : IdentityChain) (account leaf : IdentityPublic) :
  chain_ok chain -> chain_verify chain account leaf now = Ok tt -> honest account = true -> is_vk leaf ->
  (forall k o, honest k = true -> o ∈ log k -> op_ok o) ->
  (forall l, l ∈ links chain -> honest (sc_issuer l) = true -> id_verify (sc_issuer l) (cert_encode (sc_cert l)) (sc_sig l) = Ok tt ->
     exists o, o ∈ log (sc_issuer l) /\ op_bytes o = cert_encode (sc_cert l)) ->
  exists issued rest, links chain = issued ++ rest /\ sc_issuer <$> head issued = Some account /\
    Forall (fun l => honest (sc_issuer l) = true /\ OpCert (sc_cert l) ∈ log (sc_issuer l) /\ cert_valid_at (sc_cert l) now = true) issued /\
    ((rest = [] /\ honest leaf = true /\ (fun l => ct_subject (sc_cert l)) <$> last issued = Some leaf) \/
     (exists l, last issued = Some l /\ honest (ct_subject (sc_cert l)) = false)).
Proof.
  intros [_ Hok] Hv Ha Hleaf Hlog. apply chain_verify_certified in Hv.
  assert (forall l, honest (sc_issuer l) = true -> sc_ok l -> is_vk (ct_subject (sc_cert l)) ->
    (exists o, o ∈ log (sc_issuer l) /\ op_bytes o = cert_encode (sc_cert l)) -> OpCert (sc_cert l) ∈ log (sc_issuer l)) as Hiss.
  { intros l Hh [_ Hc _ _] Hk (o & Hin & Ho). rewrite <- (same_kind_inj (OpCert (sc_cert l)) o) in Hin; [done| | | |done].
    - done.
    - by eapply Hlog.
    - apply kinds_apart; [done|by eapply Hlog|done]. }
  induction Hv as [l [Hs Hw]|l ls leaf [Hs Hw] Hc IH]; intros Hun; apply Forall_cons in Hok as [[Hk _] Hok].
  - pose proof (Hiss l Ha Hk Hleaf (Hun l (list_elem_of_here _ _) Ha Hs)) as Hin.
    exists [l], []. split; [done|]. split; [done|]. split; [by constructor|].
    destruct (honest (ct_subject (sc_cert l))) eqn:E; [by left|right; by exists l].
  - pose proof (Hiss l Ha Hk (certified_issuer_vk _ _ _ _ Hc) (Hun l (list_elem_of_here _ _) Ha Hs)) as Hin.
    destruct (honest (ct_subject (sc_cert l))) eqn:E; [|exists [l], ls; split_and!; [done|done|by constructor|right; by exists l]].
    destruct (IH Hok eq_refl Hleaf) as (issued & rest & -> & Hh & Hall & Hend).
    { intros l' Hl'. apply Hun. by apply list_elem_of_further. }
    exists (l :: issued), rest. split_and!; [done|done|by constructor|].
    destruct issued as [|l1 issued]; [done|]. exact Hend.
Qed.

End Signing.

(** ** Witnesses *)

Definition sg_key (name : string) : IdentityKeyPair := id_from_secret_bytes (P:=toy) (bstr name).
Definition sg_pub (name : string) : IdentityPublic := id_public (sg_key name).
Definition sg_chain (acct dev : string) : IdentityChain :=
  chain_device (P:=toy) (sg_key acct) (sg_pub dev) (bstr "phone") 0 0.

(** The closest pair: a claim to the username that is the route descriptors'
    label, and a route descriptor with no endpoints. *)
Definition sg_claim : SignOp := OpClaim (mkClaim ROUTE_CONTEXT (sg_pub "acct") 5).
Definition sg_route : SignOp := OpRoute (sg_pub "acct") 5 [].

Lemma sg_vk name : is_vk (sg_pub name).
Proof. apply (mldsa_vk_length (P:=toy)). Qed.

Lemma sg_pub_short name : pub_ok (sg_pub name).
Proof. unfold pub_ok, short, zlen. rewrite (sg_vk name : length _ = _). by vm_compute. Qed.

Lemma signed_statements_distinct_witness : op_bytes sg_claim <> op_bytes sg_route.
Proof.
  intros E. enough (sg_claim = sg_route) as D by discriminate D.
  apply (signed_statements_distinct sg_claim sg_route); [| |exact E].
  - split; [|split; [apply sg_vk|discriminate]]. split; cbn [uc_username uc_account uc_issued].
    + split; vm_compute; congruence.
    + apply sg_pub_short.
    + unfold is_u64. lia.
  - split; [apply sg_vk|]. split; [unfold is_u64; lia|]. split; [vm_compute; congruence|constructor].
Defined.

(** The account issued one certificate, to its phone, which is honest too. *)
Definition sg_honest (k : IdentityPublic) : bool := bool_decide (k = sg_pub "acct" \/ k = sg_pub "bob").
Definition sg_cert : Cert := mkCert (sg_pub "bob") (bstr "phone") 0 0.
Definition sg_log (k : IdentityPublic) : list SignOp := if decide (k = sg_pub "acct") then [OpCert sg_cert] else [].

Lemma sg_cert_ok : cert_ok sg_cert.
Proof.
  split; cbn [sg_cert ct_subject ct_label ct_valid_from ct_expiry]; [apply sg_pub_short|split; vm_compute; congruence|unfold is_u64; lia..].
Qed.

Lemma sg_cert_len : zlen (enc_cert sg_cert) = 2629.
Proof.
  unfold enc_cert, enc_pub, enc_u64f. rewrite !zlen_app, !zlen_enc_bytes, !zlen_be_bytes. cbn [sg_cert ct_subject ct_label].
  rewrite (vk_zlen (P:=toy) _ (sg_vk "bob")). reflexivity.
Qed.

Lemma sg_chain_ok : chain_ok (sg_chain "acct" "bob").
Proof.
  assert (zlen (sc_sig (sc_issue (P:=toy) (sg_key "acct") (sg_pub "bob") (bstr "phone") 0 0)) = 64) as Hs.
  { unfold zlen. cbn [sc_issue sc_sig]. by rewrite (id_sign_len (P:=toy)). }
  pose proof sg_cert_len as Hc. pose proof (vk_zlen (P:=toy) _ (sg_vk "acct")) as Hv.
  split; [cbn [sg_chain chain_device links]; by rewrite zlen_cons, zlen_nil|]. constructor; [|constructor]. unfold short, MAX_FRAME. split.
  - split; [apply sg_pub_short|apply sg_cert_ok|change (zlen (enc_cert sg_cert) <= 2 ^ 24)|unfold short, MAX_FRAME]; lia.
  - unfold enc_sc. rewrite !zlen_app, !zlen_enc_bytes, Hs. cbn [sc_issue sc_issuer sc_cert].
    change (mkCert _ _ _ _) with sg_cert. unfold enc_pub. rewrite zlen_enc_bytes. unfold sg_pub in Hv. lia.
Qed.

Lemma sg_chain_verifies : chain_verify (P:=toy) (sg_chain "acct" "bob") (sg_pub "acct") (sg_pub "bob") 10 = Ok tt.
Proof.
  apply (chain_verify_certified (P:=toy)). apply (certified_end (P:=toy) 10 (sc_issue (sg_key "acct") (sg_pub "bob") (bstr "phone") 0 0)).
  split; [|reflexivity]. apply (id_verify_sign (P:=toy) (bstr "acct")).
Qed.

Lemma chain_authentic_witness :
  OpCert sg_cert ∈ sg_log (sg_pub "acct") /\
  exists issued rest, links (sg_chain "acct" "bob") = issued ++ rest /\ sc_issuer <$> head issued = Some (sg_pub "acct") /\
    Forall (fun l => sg_honest (sc_issuer l) = true /\ OpCert (sc_cert l) ∈ sg_log (sc_issuer l) /\ cert_valid_at (sc_cert l) 10 = true) issued /\
    ((rest = [] /\ sg_honest (sg_pub "bob") = true /\ (fun l => ct_subject (sc_cert l)) <$> last issued = Some (sg_pub "bob")) \/
     (exists l, last issued = Some l /\ sg_honest (ct_subject (sc_cert l)) = false)).
Proof.
  assert (OpCert sg_cert ∈ sg_log (sg_pub "acct")) as Hin.
  { unfold sg_log. rewrite decide_True by reflexivity. apply list_elem_of_here. }
  split; [exact Hin|].
  apply (chain_authentic sg_honest sg_log 10 (sg_chain "acct" "bob") (sg_pub "acct") (sg_pub "bob")).
  - exact sg_chain_ok.
  - exact sg_chain_verifies.
  - apply bool_decide_eq_true. by left.
  - apply sg_vk.
  - intros k o _. unfold sg_log. destruct (decide (k = sg_pub "acct")); intros Ho; [|by apply not_elem_of_nil in Ho].
    apply list_elem_of_singleton in Ho as ->. split; [apply sg_cert_ok|apply sg_vk].
  - intros l Hl _ _. apply list_elem_of_singleton in Hl as ->. exists (OpCert sg_cert). split; [exact Hin|reflexivity].
Defined.
