(* ===== verification/Invite.v ===== *)
(** * Invites (crates/core/src/descriptor.rs)

    The chat descriptor a host shares: its binary form in seven versions, each
    appending fields to the one before, the [talkrypt://] text form, and the
    session root it yields.  Proved: an invite survives the trip through text for
    every version; whatever text is accepted gives a well-formed descriptor that
    survives the trip; and what the root binds. *)

From S2P Require Import Prelude Wire Crypto Toy Marking Frames Hybrid Suite Codec B32 Account Relay Contacts Linkage Vouch Presence.

Definition URI_SCHEME : bytes := bstr "talkrypt://".
Definition DESCRIPTOR_VERSION : Z := 7.
Definition ROOT_SALT : bytes := bstr "talkrypt-root-v1".
Definition PW_ROOT_SALT : bytes := bstr "talkrypt-pw-root-v1".
Definition ANON_ROOT_SALT : bytes := bstr "talkrypt-anon-root-v1".

Record PromotionMeta : Type := mkPromotionMeta { pm_tier : Z; pm_onion : bytes }.

Inductive TopologyKind : Type := P2P | Hub | TopoHybrid.
Definition topology_tag (t : TopologyKind) : Z := match t with P2P => 0 | Hub => 1 | TopoHybrid => 2 end.
Definition topology_from_tag (t : Z) : result CoreError TopologyKind :=
  if decide (t = 0) then Ok P2P else if decide (t = 1) then Ok Hub else if decide (t = 2) then Ok TopoHybrid
  else Err (CMalformed "topology tag").

Inductive Persistence : Type := Ephemeral | Persistent.
Definition persistence_tag (p : Persistence) : Z := match p with Ephemeral => 0 | Persistent => 1 end.
Definition persistence_from_tag (t : Z) : result CoreError Persistence :=
  if decide (t = 0) then Ok Ephemeral else if decide (t = 1) then Ok Persistent else Err (CMalformed "persistence tag").

Record ChatDescriptor : Type := mkDescriptor {
  cd_version : Z; cd_topology : TopologyKind; cd_persistence : Persistence; cd_suite_id : bytes;
  cd_suite_params : bytes; cd_endpoints : list bytes; cd_invite_token : bytes; cd_channel : bytes; cd_group : bool;
  cd_channel_marking : option Marking; cd_name_trust_policy : NameTrustPolicy; cd_amplify_isolated : bool;
  cd_access_predicate : option Predicate; cd_message_padding : option Z; cd_vouch_policy : VouchPolicy;
  cd_promotion : option PromotionMeta; cd_require_anon : bool; cd_password : option bytes }.

(** ** Binary form *)

Definition put_predicate (p : option Predicate) (w : Writer) : Writer :=
  match p with Some pr => w |> put_u8 1 |> put_bytes (pred_encode pr) | None => w |> put_u8 0 end.
Definition put_promotion (p : option PromotionMeta) (w : Writer) : Writer :=
  match p with None => w |> put_u8 0 | Some m => w |> put_u8 1 |> put_u8 (pm_tier m) |> put_bytes (pm_onion m) end.

(** [if self.version >= v { .. }] *)
Definition from_version (d : ChatDescriptor) (v : Z) (f : Writer -> Writer) (w : Writer) : Writer :=
  if decide (cd_version d >= v) then f w else w.

Definition encode_bytes (d : ChatDescriptor) : bytes :=
  w_new |> put_u32 (cd_version d) |> put_u8 (topology_tag (cd_topology d)) |> put_u8 (persistence_tag (cd_persistence d))
        |> put_bytes (cd_suite_id d) |> put_bytes (cd_suite_params d)
        |> put_u32 (u32_wrap (zlen (cd_endpoints d))) |> put_each put_bytes (cd_endpoints d)
        |> put_bytes (cd_invite_token d) |> put_bytes (cd_channel d) |> put_u8 (b2z (cd_group d))
        |> put_opt (cd_channel_marking d)
        |> from_version d 2 (put_u8 (trust_tag (cd_name_trust_policy d)))
        |> from_version d 3 (fun w => w |> put_u8 (b2z (cd_amplify_isolated d)) |> put_predicate (cd_access_predicate d))
        |> from_version d 4 (put_u32 (default 0 (cd_message_padding d)))
        |> from_version d 5 (put_bytes (policy_encode (cd_vouch_policy d)))
        |> from_version d 6 (put_promotion (cd_promotion d))
        |> from_version d 7 (put_u8 (b2z (cd_require_anon d)))
        |> into_vec.

(** [string(r.get_bytes()?)?] *)
Definition get_utf8 : Get CoreError bytes := get* b := q get_bytes in glift (from_utf8 b (CMalformed "invalid utf-8")).

Definition MAX_ENDPOINTS : Z := 1024.

Definition get_predicate : Get CoreError (option Predicate) :=
  get* t := q get_u8 in
  if decide (t = 0) then gret None
  else if decide (t = 1) then
    get* b := q get_bytes in get* p := glift (ok_or (pred_decode b) (CMalformed "access predicate")) in gret (Some p)
  else gfail (CMalformed "access predicate flag").

Definition get_padding : Get CoreError (option Z) :=
  get* step := q get_u32 in gret (if decide (step = 0) then None else Some step).

Definition get_policy : Get CoreError VouchPolicy :=
  get* b := q get_bytes in glift (ok_or (policy_decode b) (CMalformed "vouch policy")).

Definition get_promotion : Get CoreError (option PromotionMeta) :=
  get* t := q get_u8 in
  if decide (t = 0) then gret None
  else if decide (t = 1) then
    get* tier := q get_u8 in get* onion := get_utf8 in gret (Some (mkPromotionMeta tier onion))
  else gfail (CMalformed "promotion flag").

Definition get_trust : Get CoreError NameTrustPolicy :=
  get* t := q get_u8 in glift (ok_or (trust_from_tag t) (CMalformed "name trust policy tag")).

(** [r.get_u32()? as u16] *)
Definition get_u16 : Get CoreError Z := get* v := q get_u32 in gret (v mod 2 ^ 16).
Definition get_version : Get CoreError Z :=
  get* version := get_u16 in
  if decide (version = 0 \/ version > DESCRIPTOR_VERSION) then gfail (CUnsupportedVersion version) else gret version.

Definition get_topology : Get CoreError TopologyKind := get* t := q get_u8 in glift (topology_from_tag t).
Definition get_persistence : Get CoreError Persistence := get* t := q get_u8 in glift (persistence_from_tag t).

Definition descriptor_read : Get CoreError ChatDescriptor :=
  get* version := get_version in
  get* topology := get_topology in
  get* persistence := get_persistence in
  get* suite_id := get_utf8 in
  get* suite_params := q get_vec in
  get* endpoints := counted MAX_ENDPOINTS (CMalformed "too many endpoints") get_utf8 in
  get* invite_token := q get_vec in
  get* channel := get_utf8 in
  get* group := flag in
  get* channel_marking := get_opt in
  get* name_trust_policy := since (bool_decide (version >= 2)) SignalStyle get_trust in
  get* amplify := since (bool_decide (version >= 3)) false flag in
  get* predicate := since (bool_decide (version >= 3)) None get_predicate in
  get* message_padding := since (bool_decide (version >= 4)) None get_padding in
  get* vouch_policy := since (bool_decide (version >= 5)) default_policy get_policy in
  get* promotion := since (bool_decide (version >= 6)) None get_promotion in
  get* require_anon := since (bool_decide (version >= 7)) false flag in
  gret (mkDescriptor version topology persistence suite_id suite_params endpoints invite_token channel group
          channel_marking name_trust_policy amplify predicate message_padding vouch_policy promotion require_anon None).

Definition decode_bytes (b : bytes) : result CoreError ChatDescriptor :=
  run_get (strict_err (CMalformed "trailing descriptor bytes") descriptor_read) b.

(** ** Text form *)

(** The encodings of the characters with the Unicode property White_Space. *)
Definition WHITE_SPACE : list bytes :=
  fmap (M:=list) (fmap (M:=list) byte_of)
    ([[9]; [10]; [11]; [12]; [13]; [32]; [194; 133]; [194; 160]; [225; 154; 128]]
     ++ ((fun i => [226; 128; i]) <$> seqZ 128 11)
     ++ [[226; 128; 168]; [226; 128; 169]; [226; 128; 175]; [226; 129; 159]; [227; 128; 128]]).

Definition strip_prefix (p s : bytes) : option bytes :=
  if decide (take (length p) s = p) then Some (drop (length p) s) else None.

(** Strip one of [ws] again and again; every turn but the last shortens [s]. *)
Fixpoint trim_with (fuel : nat) (ws : list bytes) (s : bytes) : bytes :=
  match fuel with
  | O => s
  | S fuel => match head (omap (fun w => strip_prefix w s) ws) with Some s' => trim_with fuel ws s' | None => s end
  end.

(** [str::trim] on the UTF-8 bytes *)
Definition trim (s : bytes) : bytes :=
  let s := trim_with (length s) WHITE_SPACE s in
  reverse (trim_with (length s) (reverse <$> WHITE_SPACE) (reverse s)).

Definition to_uri (d : ChatDescriptor) : bytes := URI_SCHEME ++ b32_encode (encode_bytes d).

Definition from_uri (uri : bytes) : result CoreError ChatDescriptor :=
  let* body := ok_or (strip_prefix URI_SCHEME uri) (CMalformed "missing talkrypt:// scheme") in
  let* b := ok_or (b32_decode (trim body)) (CMalformed "bad base32") in
  decode_bytes b.

(** ** Well-formed descriptors *)

Definition version_ok (v : Z) : Prop := 1 <= v <= DESCRIPTOR_VERSION.
Definition predicate_ok (p : option Predicate) : Prop :=
  match p with Some p => pred_ok p /\ short (pred_encode p) | None => True end.
Definition padding_ok (p : option Z) : Prop := match p with Some s => is_u32 s /\ s <> 0 | None => True end.
Definition promotion_ok (p : option PromotionMeta) : Prop :=
  match p with Some m => is_u8 (pm_tier m) /\ str_ok (pm_onion m) | None => True end.

(** The field is of the descriptor's version, or at its default. *)
Definition field_since {A} (d : ChatDescriptor) (v : Z) (ok : A -> Prop) (dflt x : A) : Prop :=
  if bool_decide (cd_version d >= v) then ok x else x = dflt.

Record descriptor_ok (d : ChatDescriptor) : Prop := {
  do_version : version_ok (cd_version d);
  do_suite : str_ok (cd_suite_id d);
  do_params : short (cd_suite_params d);
  do_endpoints : list_ok MAX_ENDPOINTS str_ok (cd_endpoints d);
  do_token : short (cd_invite_token d);
  do_channel : str_ok (cd_channel d);
  do_marking : opt_ok (cd_channel_marking d);
  do_trust : field_since d 2 (fun _ => True) SignalStyle (cd_name_trust_policy d);
  do_amplify : field_since d 3 (fun _ => True) false (cd_amplify_isolated d);
  do_predicate : field_since d 3 predicate_ok None (cd_access_predicate d);
  do_padding : field_since d 4 padding_ok None (cd_message_padding d);
  do_policy : field_since d 5 policy_ok default_policy (cd_vouch_policy d);
  do_promotion : field_since d 6 promotion_ok None (cd_promotion d);
  do_anon : field_since d 7 (fun _ => True) false (cd_require_anon d);
  do_password : cd_password d = None }.

Definition enc_predicate (p : option Predicate) : bytes :=
  match p with Some p => [byte_of 1] ++ enc_bytes (pred_encode p) | None => [byte_of 0] end.
Definition enc_promotion (p : option PromotionMeta) : bytes :=
  match p with Some m => [byte_of 1] ++ [byte_of (pm_tier m)] ++ enc_bytes (pm_onion m) | None => [byte_of 0] end.
Definition enc_since (d : ChatDescriptor) (v : Z) (e : bytes) : bytes := if bool_decide (cd_version d >= v) then e else [].

Definition enc_descriptor (d : ChatDescriptor) : bytes :=
  be_bytes 4 (cd_version d) ++ [byte_of (topology_tag (cd_topology d))] ++ [byte_of (persistence_tag (cd_persistence d))]
  ++ enc_bytes (cd_suite_id d) ++ enc_bytes (cd_suite_params d) ++ enc_list enc_bytes (cd_endpoints d)
  ++ enc_bytes (cd_invite_token d) ++ enc_bytes (cd_channel d) ++ [byte_of (b2z (cd_group d))] ++ enc_opt (cd_channel_marking d)
  ++ enc_since d 2 [byte_of (trust_tag (cd_name_trust_policy d))]
  ++ enc_since d 3 [byte_of (b2z (cd_amplify_isolated d))] ++ enc_since d 3 (enc_predicate (cd_access_predicate d))
  ++ enc_since d 4 (be_bytes 4 (default 0 (cd_message_padding d)))
  ++ enc_since d 5 (enc_bytes (policy_encode (cd_vouch_policy d)))
  ++ enc_since d 6 (enc_promotion (cd_promotion d)) ++ enc_since d 7 [byte_of (b2z (cd_require_anon d))] ++ [].

Lemma enc_since_app d v a b : enc_since d v (a ++ b) = enc_since d v a ++ enc_since d v b.
Proof. unfold enc_since. by case_bool_decide. Qed.

Lemma into_vec_since d v f e w :
  (forall w, into_vec (f w) = into_vec w ++ e) -> into_vec (from_version d v f w) = into_vec w ++ enc_since d v e.
Proof.
  intros Hf. unfold from_version, enc_since. case_decide as Hd; [by rewrite Hf, bool_decide_true|].
  by rewrite bool_decide_false, app_nil_r.
Qed.

Lemma into_vec_put_predicate p w : into_vec (put_predicate p w) = into_vec w ++ enc_predicate p.
Proof. destruct p; unfold put_predicate, enc_predicate; by wire_norm. Qed.
Lemma into_vec_put_promotion p w : into_vec (put_promotion p w) = into_vec w ++ enc_promotion p.
Proof. destruct p; unfold put_promotion, enc_promotion; by wire_norm. Qed.

Lemma encode_bytes_norm d : encode_bytes d = enc_descriptor d.
Proof.
  unfold encode_bytes, enc_descriptor.
  rewrite (into_vec_since _ _ _ [byte_of (b2z (cd_require_anon d))]) by (intros; apply into_vec_put_u8).
  rewrite (into_vec_since _ _ _ (enc_promotion (cd_promotion d))) by (intros; apply into_vec_put_promotion).
  rewrite (into_vec_since _ _ _ (enc_bytes (policy_encode (cd_vouch_policy d)))) by (intros; apply into_vec_put_bytes).
  rewrite (into_vec_since _ _ _ (be_bytes 4 (default 0 (cd_message_padding d)))) by (intros; apply into_vec_put_u32).
  rewrite (into_vec_since _ 3 _ ([byte_of (b2z (cd_amplify_isolated d))] ++ enc_predicate (cd_access_predicate d)))
    by (intros; by rewrite into_vec_put_predicate, into_vec_put_u8, (assoc (++))).
  rewrite (into_vec_since _ _ _ [byte_of (trust_tag (cd_name_trust_policy d))]) by (intros; apply into_vec_put_u8).
  rewrite into_vec_put_opt, into_vec_put_u8, !into_vec_put_bytes, (into_vec_put_each put_bytes enc_bytes) by (intros; apply into_vec_put_bytes).
  wire_norm. unfold enc_list. rewrite be_bytes_4_wrap, app_nil_r, <- ?(assoc (++)).
  by rewrite enc_since_app, <- !(assoc (++)).
Qed.

(** ** Each field of the reader *)

Lemma ok_or_inv {A E} (o : option A) (err : E) x : ok_or o err = Ok x <-> o = Some x.
Proof. destruct o; cbn; naive_solver. Qed.

#[local] Instance codec_utf8 : Codec get_utf8 enc_bytes str_ok.
Proof. exact (codec_text (CMalformed "invalid utf-8")). Qed.

(** A tag byte that [g] maps to a value. *)
Lemma codec_enum {A} (dec : Z -> result CoreError A) (tag : A -> Z) :
  (forall a, is_u8 (tag a)) -> (forall t a, dec t = Ok a <-> t = tag a) ->
  Codec (get* t := q get_u8 in glift (dec t)) (fun a => [byte_of (tag a)]) (fun _ => True).
Proof.
  intros Ht Hdec. split.
  - intros a _. rewrite <- (app_nil_r [byte_of _]). apply decodes_u8_tag; [apply Ht|].
    rewrite (proj2 (Hdec (tag a) a) eq_refl). apply decodes_lift.
  - intros r a r' Hw H. unfold gbind, glift in H. apply rbind_Ok in H as ([t r1] & H1%inverts_q & H).
    destruct (inverts_u8 _ _ _ Hw H1) as (? & E1 & _). apply rbind_Ok in H as (a' & H2 & [= <- <-]).
    apply Hdec in H2 as ->. done.
Qed.

#[local] Instance codec_topology : Codec get_topology (fun t => [byte_of (topology_tag t)]) (fun _ => True).
Proof.
  apply codec_enum; [intros []; by vm_compute|]. intros t a. unfold topology_from_tag.
  destruct a; cbn; repeat case_decide; naive_solver lia.
Qed.
#[local] Instance codec_persistence : Codec get_persistence (fun t => [byte_of (persistence_tag t)]) (fun _ => True).
Proof.
  apply codec_enum; [intros []; by vm_compute|]. intros t a. unfold persistence_from_tag.
  destruct a; cbn; repeat case_decide; naive_solver lia.
Qed.
#[local] Instance codec_trust : Codec get_trust (fun t => [byte_of (trust_tag t)]) (fun _ => True).
Proof.
  apply (codec_enum (fun t => ok_or (trust_from_tag t) _)); [intros []; by vm_compute|]. intros t a.
  rewrite ok_or_inv. unfold trust_from_tag. destruct a; cbn; repeat case_decide; naive_solver lia.
Qed.

#[local] Instance codec_marking : Codec get_opt enc_opt opt_ok.
Proof. split; [apply decodes_opt|apply inverts_opt]. Qed.

(** A value inside a length-prefixed field, with an exact decoder. *)
Lemma codec_inner {A} (dec : bytes -> option A) (err : CoreError) e (ok : A -> Prop) :
  (forall b x, zlen b <= usize_max -> (dec b = Some x <-> ok x /\ b = e x)) ->
  Codec (get* b := q get_bytes in glift (ok_or (dec b) err)) (fun x => enc_bytes (e x)) (fun x => ok x /\ short (e x)).
Proof.
  intros Hd. split.
  - intros x [Hx Hs]. rewrite <- (app_nil_r (enc_bytes _)). eapply decodes_bind; [by apply decodes_q, decodes_bytes|].
    rewrite (proj2 (Hd (e x) x (frame_usize _ Hs))) by done. apply decodes_lift.
  - intros r x r' Hw H. unfold gbind, glift in H. apply rbind_Ok in H as ([b r1] & H1%inverts_q & H).
    destruct (inverts_bytes _ _ _ Hw H1) as (Hw1 & E1 & Hs). apply rbind_Ok in H as (y & H2%ok_or_inv & [= <- <-]).
    apply (Hd b y (frame_usize _ Hs)) in H2 as [Hok ->]. done.
Qed.

Lemma policy_short p : short (policy_encode p).
Proof.
  unfold short, MAX_FRAME, policy_encode, put_eligibility, put_threshold. destruct p as [[] [wf wc ws] [] fr];
    cbn [vp_eligibility vp_weighting vp_threshold vp_freshness_interval_rounds]; wire_norm;
    rewrite ?zlen_app, ?zlen_be_bytes, ?zlen_cons, ?zlen_nil; lia.
Qed.

#[local] Instance codec_policy : Codec get_policy (fun p => enc_bytes (policy_encode p)) policy_ok.
Proof.
  eapply codec_iff; [apply (codec_inner policy_decode _ policy_encode policy_ok), policy_decode_exact| |done].
  intros p. pose proof (policy_short p). naive_solver.
Qed.

Definition some_tag {A} (o : option A) : Z := if o then 1 else 0.
Definition some_body {A} (e : A -> bytes) (o : option A) : bytes := match o with Some a => e a | None => [] end.

(** A flag byte, then the value if it is one. *)
Lemma codec_option {A} (g : Get CoreError (option A)) (e : A -> bytes) (ok : A -> Prop) (err : CoreError) :
  Codec g (some_body e) (fun o => match o with Some a => ok a | None => False end) ->
  Codec (get* t := q get_u8 in if decide (t = 0) then gret None else if decide (t = 1) then g else gfail err)
    (fun o => [byte_of (some_tag o)] ++ some_body e o) (fun o => match o with Some a => ok a | None => True end).
Proof.
  intros Hg. apply (codec_tagged some_tag); [intros [] _; by vm_compute|].
  intros t. case_decide; [|case_decide]; subst.
  - apply codec_con0; [done|]. intros []; cbn; naive_solver.
  - eapply codec_iff; [exact Hg| |done]. intros []; cbn; naive_solver.
  - apply codec_fail. intros []; cbn; naive_solver.
Qed.

#[local] Instance codec_predicate : Codec get_predicate enc_predicate predicate_ok.
Proof.
  unfold get_predicate. eapply codec_iff.
  { apply (codec_option _ (fun p => enc_bytes (pred_encode p)) (fun p => pred_ok p /\ short (pred_encode p))).
    apply (codec_assoc (q get_bytes) (fun b => glift (ok_or (pred_decode b) (CMalformed "access predicate"))) (fun p => gret (Some p))).
    eapply (codec_con _ Some); [apply (codec_inner pred_decode _ pred_encode pred_ok), pred_decode_exact|done|].
    intros [p|]; naive_solver. }
  - by intros [p|].
  - by intros [p|].
Qed.

#[local] Instance codec_promotion : Codec get_promotion enc_promotion promotion_ok.
Proof.
  unfold get_promotion. eapply codec_iff.
  { apply (codec_option _ (fun m => [byte_of (pm_tier m)] ++ enc_bytes (pm_onion m)) (fun m => is_u8 (pm_tier m) /\ str_ok (pm_onion m))).
    eapply (codec_con2 _ _ (fun tier onion => Some (mkPromotionMeta tier onion))); [apply codec_u8|apply codec_utf8|done|].
    intros [[tier onion]|]; naive_solver. }
  - by intros [p|].
  - by intros [p|].
Qed.

#[local] Instance parses_padding : Parses get_padding (fun p => be_bytes 4 (default 0 p)) padding_ok.
Proof.
  eapply (parses_map _ _ (default 0)); [apply codec_parses, codec_u32| |done|].
  - intros [s|]; cbn; [intros [Hs Hn]; by rewrite decide_False|intros _; by rewrite decide_True].
  - intros a Ha. rewrite !zlen_be_bytes. case_decide; done.
Qed.

#[local] Instance parses_version : Parses get_version (be_bytes 4) version_ok.
Proof.
  assert (Parses get_u16 (be_bytes 4) (fun v => 0 <= v < 2 ^ 16)) as Hg.
  { eapply (parses_map _ _ id); [apply codec_parses, codec_u32| |done|].
    - intros v Hv. cbn. split; [unfold is_u32; lia|]. by rewrite Z.mod_small.
    - intros v _. rewrite !zlen_be_bytes. split; [apply Z.mod_pos_bound; lia|done]. }
  destruct Hg as [Hd Hy]. unfold get_version, version_ok, DESCRIPTOR_VERSION. split.
  - intros v Hv. rewrite <- (app_nil_r (be_bytes 4 v)). eapply decodes_bind; [apply Hd; lia|].
    rewrite decide_False by lia. apply decodes_ret.
  - intros r v r' Hw H. unfold gbind at 1 in H. apply rbind_Ok in H as ([x r1] & H1 & H2).
    destruct (Hy _ _ _ Hw H1) as (? & ? & ?). case_decide; [done|]. injection H2 as <- <-. split; [done|]. split; [lia|done].
Qed.

#[local] Existing Instance codec_parses.

Ltac fixed_field p := eapply (parses_field _ _ p); [typeclasses eauto|intros ?].
Ltac since_field p v e ok d :=
  eapply (parses_bind _ _ p _ _ (fun b => enc_since b v (e (p b))) _ (fun b => field_since b v ok d (p b)));
    [apply parses_since; typeclasses eauto|intros ? ?; destruct_and?; subst; done|intros ?].

Lemma parses_descriptor : Parses descriptor_read enc_descriptor descriptor_ok.
Proof.
  unfold descriptor_read. eapply (parses_iff _ _ _ (fun b => _ /\ True)).
  { fixed_field cd_version. fixed_field cd_topology. fixed_field cd_persistence. fixed_field cd_suite_id. fixed_field cd_suite_params.
    fixed_field cd_endpoints. fixed_field cd_invite_token. fixed_field cd_channel. fixed_field cd_group. fixed_field cd_channel_marking.
    since_field cd_name_trust_policy 2 (fun t => [byte_of (trust_tag t)]) (fun _ : NameTrustPolicy => True) SignalStyle.
    since_field cd_amplify_isolated 3 (fun b => [byte_of (b2z b)]) (fun _ : bool => True) false.
    since_field cd_access_predicate 3 enc_predicate predicate_ok (@None Predicate).
    since_field cd_message_padding 4 (fun p => be_bytes 4 (default 0 p)) padding_ok (@None Z).
    since_field cd_vouch_policy 5 (fun p => enc_bytes (policy_encode p)) policy_ok default_policy.
    since_field cd_promotion 6 enc_promotion promotion_ok (@None PromotionMeta).
    since_field cd_require_anon 7 (fun b => [byte_of (b2z b)]) (fun _ : bool => True) false.
    apply (parses_ret _ (fun y => cd_password y = None)). intros y. split; [destruct y; cbn; intros; destruct_and?; by subst|intros ->; split_and!; done]. }
  - intros d. split; [intros [? _]; destruct_and?; by split|intros []; split_and!; done].
  - intros d _. reflexivity.
Qed.


(** What of a descriptor an invite carries: the fields of its version, and never
    the password. *)
Definition as_shared (d : ChatDescriptor) : ChatDescriptor :=
  let since {A} v (x dflt : A) := if bool_decide (cd_version d >= v) then x else dflt in
  mkDescriptor (cd_version d) (cd_topology d) (cd_persistence d) (cd_suite_id d) (cd_suite_params d) (cd_endpoints d)
    (cd_invite_token d) (cd_channel d) (cd_group d) (cd_channel_marking d)
    (since 2 (cd_name_trust_policy d) SignalStyle) (since 3 (cd_amplify_isolated d) false) (since 3 (cd_access_predicate d) None)
    (since 4 (if decide (cd_message_padding d = Some 0) then None else cd_message_padding d) None)
    (since 5 (cd_vouch_policy d) default_policy) (since 6 (cd_promotion d) None) (since 7 (cd_require_anon d) false) None.

Lemma encode_as_shared d : encode_bytes (as_shared d) = encode_bytes d.
Proof.
  rewrite !encode_bytes_norm. unfold enc_descriptor, enc_since, as_shared.
  cbn [cd_version cd_topology cd_persistence cd_suite_id cd_suite_params cd_endpoints cd_invite_token cd_channel cd_group
    cd_channel_marking cd_name_trust_policy cd_amplify_isolated cd_access_predicate cd_message_padding cd_vouch_policy cd_promotion cd_require_anon].
  repeat case_bool_decide; try done; case_decide as Hp; rewrite ?Hp; done.
Qed.

Lemma shared_ok_id d : descriptor_ok d -> as_shared d = d.
Proof.
  intros []. destruct d. unfold as_shared, field_since in *. cbn in *. subst.
  assert (cd_message_padding0 <> Some 0) as Hp.
  { intros ->. destruct (bool_decide (cd_version0 >= 4)); [by destruct do_padding0|discriminate]. }
  rewrite (decide_False (P := cd_message_padding0 = Some 0)) by done. f_equal; repeat case_bool_decide; done.
Qed.

Lemma trailing_fin (err : CoreError) r y r' :
  map_err (fun _ => err) (finish r) = Ok (y, r') <-> finish r = Ok (y, r').
Proof. destruct (finish r) as [[]|]; cbn; naive_solver. Qed.

Lemma decode_bytes_ok b d :
  zlen b <= usize_max -> decode_bytes b = Ok d -> descriptor_ok d /\ zlen b = zlen (encode_bytes d).
Proof.
  intros Hb H. rewrite encode_bytes_norm. eapply parses_strict; [apply parses_descriptor| |done|exact H].
  apply trailing_fin.
Qed.

Lemma decode_encode_bytes d :
  zlen (encode_bytes d) <= usize_max -> descriptor_ok (as_shared d) -> decode_bytes (encode_bytes d) = Ok (as_shared d).
Proof.
  intros Hb Hok. unfold decode_bytes, strict_err.
  eapply (parses_strict _ (fun r => map_err (fun _ => CMalformed "trailing descriptor bytes") (finish r)));
    [apply parses_descriptor|apply trailing_fin|done|done|]. by rewrite <- encode_as_shared, encode_bytes_norm.
Qed.

(** ** White space *)

Lemma strip_prefix_Some p s s' : strip_prefix p s = Some s' <-> s = p ++ s'.
Proof.
  unfold strip_prefix. case_decide as Hd; split; intros H.
  - injection H as <-. rewrite <- Hd at 1. by rewrite take_drop.
  - subst. by rewrite drop_app_length.
  - done.
  - subst. by rewrite take_app_length in Hd.
Qed.

Definition prefix_free (ws : list bytes) : Prop := forall a b, a ∈ ws -> b ∈ ws -> a `prefix_of` b -> a = b.

Lemma trim_with_spec ws l text fuel :
  prefix_free ws -> Forall (fun w => w ∈ ws) l -> (length l <= fuel)%nat ->
  Forall (fun w => strip_prefix w text = None) ws -> trim_with fuel ws (mjoin l ++ text) = text.
Proof.
  intros Hp Hl. revert fuel. induction Hl as [|w l Hw Hl IH]; intros fuel Hf Ht.
  - cbn. destruct fuel; cbn; [done|]. assert (omap (fun w => strip_prefix w text) ws = []) as ->; [|done].
    clear - Ht. induction Ht as [|w ws Hw _ IH]; cbn; [done|]. by rewrite Hw.
  - destruct fuel as [|fuel]; cbn in Hf; [lia|]. change (mjoin (w :: l)) with (w ++ mjoin l).
    rewrite <- (assoc (++)). cbn [trim_with].
    set (s := mjoin l ++ text) in *.
    destruct (head (omap (fun w' => strip_prefix w' (w ++ s)) ws)) as [s'|] eqn:Eh.
    + apply head_Some_elem_of, list_elem_of_omap in Eh as (w' & Hw' & E%strip_prefix_Some).
      assert (w' = w) as ->.
      { destruct (prefix_weak_total w w' (w ++ s)) as [H|H]; [by apply prefix_app_r|rewrite E; by apply prefix_app_r|..].
        - symmetry. by apply Hp.
        - by apply Hp. }
      apply app_inv_head in E as <-. apply IH; [lia|done].
    + exfalso. apply head_None in Eh. assert (s ∈ omap (fun w' => strip_prefix w' (w ++ s)) ws) as Hin.
      { apply list_elem_of_omap. exists w. split; [done|]. by apply strip_prefix_Some. }
      rewrite Eh in Hin. by apply not_elem_of_nil in Hin.
Qed.

Lemma white_space_free : prefix_free WHITE_SPACE /\ prefix_free (reverse <$> WHITE_SPACE).
Proof.
  assert (forall ws : list bytes,
    forallb (fun a => forallb (fun b => bool_decide (take (length a) b = a -> a = b)) ws) ws = true -> prefix_free ws) as H.
  { intros ws Hw a b Ha Hb [k ->]. rewrite forallb_forall in Hw. specialize (Hw a (proj1 (list_elem_of_In _ _) Ha)).
    rewrite forallb_forall in Hw. specialize (Hw _ (proj1 (list_elem_of_In _ _) Hb)).
    apply bool_decide_eq_true in Hw. apply Hw. by rewrite take_app_length. }
  split; apply H; by vm_compute.
Qed.

(** A character of base32 text is no white space, from either end. *)
Lemma b32_char_kept ws c text :
  (ws = WHITE_SPACE \/ ws = reverse <$> WHITE_SPACE) -> is_Some (b32_value c) ->
  Forall (fun w => strip_prefix w (c :: text) = None) ws.
Proof.
  intros Hws [v Hv]. assert (Forall (fun w => exists h w', w = h :: w' /\ b32_value h = None) ws) as Hf.
  { assert (forall ws, forallb (fun w : bytes => match w with h :: _ => bool_decide (b32_value h = None) | [] => false end) ws = true ->
      Forall (fun w => exists h w', w = h :: w' /\ b32_value h = None) ws) as H.
    { intros l Hl. apply Forall_forall. intros w Hw. rewrite forallb_forall in Hl. apply list_elem_of_In in Hw.
      specialize (Hl w Hw). destruct w as [|h w]; [done|]. apply bool_decide_eq_true in Hl. eauto. }
    destruct Hws as [->| ->]; apply H; by vm_compute. }
  eapply Forall_impl; [exact Hf|]. intros w (h & w' & -> & Hh). destruct (strip_prefix _ _) eqn:E; [|done].
  apply strip_prefix_Some in E. injection E as -> _. congruence.
Qed.

Lemma reverse_mjoin (l : list bytes) : reverse (mjoin l) = mjoin (reverse <$> reverse l).
Proof.
  induction l as [|x l IH]; [done|]. change (mjoin (x :: l)) with (x ++ mjoin l).
  rewrite reverse_app, IH, reverse_cons, fmap_app, join_app. cbn. by rewrite app_nil_r.
Qed.

Definition spaces (s : bytes) : Prop := exists l, Forall (fun w => w ∈ WHITE_SPACE) l /\ s = mjoin l.

Lemma mjoin_long (l : list bytes) : Forall (fun w => w <> []) l -> (length l <= length (mjoin l))%nat.
Proof.
  induction 1 as [|w l Hw _ IH]; [done|]. change (mjoin (w :: l)) with (w ++ mjoin l). rewrite length_app.
  destruct w; [done|]. cbn. lia.
Qed.

Lemma trim_spaces a text b :
  spaces a -> spaces b -> text <> [] -> Forall (fun c => is_Some (b32_value c)) text -> trim (a ++ text ++ b) = text.
Proof.
  intros (l & Hl & ->) (k & Hk & ->) Hn Ht. destruct white_space_free as [Hf Hf'].
  assert (forall l, Forall (fun w => w ∈ WHITE_SPACE) l -> Forall (fun w => w <> []) l) as Hne.
  { intros x Hx. eapply Forall_impl; [exact Hx|]. intros w Hw ->. revert Hw. refine (bool_decide_unpack (_ -> False) _). by vm_compute. }
  unfold trim. rewrite (trim_with_spec _ l (text ++ mjoin k)).
  - rewrite reverse_app, reverse_mjoin. rewrite (trim_with_spec _ (reverse <$> reverse k) (reverse text)).
    + apply reverse_involutive.
    + done.
    + apply Forall_fmap, Forall_reverse. eapply Forall_impl; [exact Hk|]. intros w Hw. by apply list_elem_of_fmap_2.
    + rewrite length_fmap, length_reverse, length_app. pose proof (mjoin_long k (Hne k Hk)). lia.
    + destruct (reverse text) as [|c t] eqn:E. { apply (f_equal reverse) in E. by rewrite reverse_involutive in E. }
      apply b32_char_kept; [by right|]. assert (c ∈ text) as Hc by (apply elem_of_reverse; rewrite E; apply list_elem_of_here).
      rewrite Forall_forall in Ht. by apply Ht.
  - done.
  - done.
  - rewrite !length_app. pose proof (mjoin_long l (Hne l Hl)). lia.
  - destruct text as [|c t]; [done|]. apply Forall_cons in Ht as [Hc _]. apply b32_char_kept; [by left|done].
Qed.

Lemma trim_with_length fuel ws s : (length (trim_with fuel ws s) <= length s)%nat.
Proof.
  revert s. induction fuel as [|fuel IH]; intros s; cbn [trim_with]; [done|].
  destruct (head _) as [s'|] eqn:E; [|done]. apply head_Some_elem_of, list_elem_of_omap in E as (w & _ & Hw%strip_prefix_Some).
  subst. specialize (IH s'). rewrite length_app. lia.
Qed.
Lemma trim_length s : (length (trim s) <= length s)%nat.
Proof.
  unfold trim. rewrite length_reverse. etrans; [apply trim_with_length|]. rewrite length_reverse. apply trim_with_length.
Qed.

(** ** Invites as text *)

Lemma from_uri_text a text b d :
  spaces a -> spaces b -> lower <$> text = b32_encode (encode_bytes d) ->
  zlen (encode_bytes d) <= usize_max -> descriptor_ok (as_shared d) ->
  from_uri (URI_SCHEME ++ a ++ text ++ b) = Ok (as_shared d).
Proof.
  intros Ha Hb Ht Hl Hok. unfold from_uri.
  rewrite (proj2 (ok_or_inv _ _ (a ++ text ++ b))) by (by apply strip_prefix_Some). cbn [rbind].
  assert (encode_bytes d <> []) as Hne.
  { intros E. apply (f_equal length) in E. rewrite encode_bytes_norm in E. unfold enc_descriptor in E.
    rewrite length_app, length_be_bytes in E. done. }
  rewrite trim_spaces; [|done|done| |].
  - rewrite <- decode_lower, Ht, b32_roundtrip. cbn [ok_or rbind]. by apply decode_encode_bytes.
  - intros ->. by apply (encode_nonempty _ Hne).
  - pose proof (encode_chars (encode_bytes d)) as Hc. rewrite <- Ht, Forall_fmap in Hc.
    eapply Forall_impl; [exact Hc|]. intros c Hcc. cbn in Hcc. by rewrite value_lower in Hcc.
Qed.

Lemma from_own_uri d d' :
  from_uri (to_uri d) = Ok d' -> descriptor_ok (as_shared d) -> zlen (encode_bytes d) <= usize_max -> d' = as_shared d.
Proof.
  intros Hu Hok Hl. unfold to_uri in Hu. rewrite <- (app_nil_r (b32_encode _)), <- (app_nil_l (b32_encode _ ++ [])) in Hu.
  assert (spaces []) as Hsp by (exists []; by split; [constructor|]).
  rewrite from_uri_text with (d := d) in Hu; [|done..|apply encode_lower|done|done]. by injection Hu.
Qed.

(** C12: an invite survives being shared.  Printed as text, passed on with the scheme
    exactly as it was printed and the base32 text after it in any case of letters and
    with any white space before and after that text, and parsed, an invite of any
    version gives back the descriptor: all the fields its version carries, the
    defaults for the later ones, and no password. *)
Theorem invite_roundtrip (d : ChatDescriptor) (a text b : bytes) :
  descriptor_ok (as_shared d) -> zlen (encode_bytes d) <= usize_max ->
  spaces a -> spaces b -> lower <$> text = drop (length URI_SCHEME) (to_uri d) ->
  from_uri (URI_SCHEME ++ a ++ text ++ b) = Ok (as_shared d).
Proof.
  intros Hok Hl Ha Hb Ht. unfold to_uri in Ht. rewrite drop_app_length in Ht. by apply from_uri_text.
Qed.

(** C13: only well-formed descriptors come out of an invite, whatever the text:
    every string is UTF-8, every number is in the range of its type, every list
    and predicate within its bounds, the fields a version does not have are at
    their defaults, and there is no password.  Such a descriptor is what its own
    invite gives back, even where the text was not canonical. *)
Theorem from_uri_typed (uri : bytes) (d : ChatDescriptor) :
  zlen uri <= usize_max -> from_uri uri = Ok d -> descriptor_ok d /\ from_uri (to_uri d) = Ok d.
Proof.
  intros Hu H. unfold from_uri in H. apply rbind_Ok in H as (body & Hp%ok_or_inv & H).
  apply rbind_Ok in H as (b & Hb%ok_or_inv & H). apply strip_prefix_Some in Hp as ->.
  assert (zlen b <= usize_max) as Hl.
  { apply decode_length in Hb. pose proof (trim_length body). rewrite zlen_app in Hu. unfold zlen in *. lia. }
  apply decode_bytes_ok in H as [Hok Hlen]; [|done]. split; [done|].
  pose proof (shared_ok_id d Hok) as Hs. rewrite <- Hs at 2. unfold to_uri.
  rewrite <- (app_nil_r (b32_encode _)), <- (app_nil_l (b32_encode _ ++ [])).
  assert (spaces []) as Hsp by (exists []; by split; [constructor|]).
  apply from_uri_text; [done|done| |lia|by rewrite Hs].
  apply encode_lower.
Qed.

(** ** The session root *)

Section Root.
Context {P : Primitives} `{Build} (sha3_256 : bytes -> bytes) (argon2id : bytes -> bytes -> option bytes).

Definition descriptor_new (c : coins) (topology : TopologyKind) (persistence : Persistence) (suite_id : bytes)
    (endpoints : list bytes) (channel : bytes) : ChatDescriptor :=
  mkDescriptor DESCRIPTOR_VERSION topology persistence suite_id [] endpoints (random_bytes c 32) channel false None
    SignalStyle false None None default_policy None false None.

Definition with_require_anon (require : bool) (d : ChatDescriptor) : ChatDescriptor :=
  mkDescriptor (cd_version d) (cd_topology d) (cd_persistence d) (cd_suite_id d) (cd_suite_params d) (cd_endpoints d)
    (cd_invite_token d) (cd_channel d) (cd_group d) (cd_channel_marking d) (cd_name_trust_policy d) (cd_amplify_isolated d)
    (cd_access_predicate d) (cd_message_padding d) (cd_vouch_policy d) (cd_promotion d) require (cd_password d).

Definition with_password (password : option bytes) (d : ChatDescriptor) : ChatDescriptor :=
  mkDescriptor (cd_version d) (cd_topology d) (cd_persistence d) (cd_suite_id d) (cd_suite_params d) (cd_endpoints d)
    (cd_invite_token d) (cd_channel d) (cd_group d) (cd_channel_marking d) (cd_name_trust_policy d) (cd_amplify_isolated d)
    (cd_access_predicate d) (cd_message_padding d) (cd_vouch_policy d) (cd_promotion d) (cd_require_anon d) password.

Definition resolved_suite_id (d : ChatDescriptor) : bytes :=
  if decide (cd_suite_id d = []) then bstr DEFAULT_SUITE_ID else cd_suite_id d.

Definition descriptor_scheme_hash (d : ChatDescriptor) : bytes :=
  scheme_hash sha3_256 (String.string_of_list_byte (resolved_suite_id d)) (cd_suite_params d).

(** [argon2id] is the [argon2] crate's [hash_password_into] with the parameters of
    [argon2id_key]; it refuses some salts, and the [expect] on it then panics:
    no root. *)
Definition derive_root (d : ChatDescriptor) : option bytes :=
  let base := mac_kdf (cd_invite_token d) ROOT_SALT (resolved_suite_id d) 32 in
  let base := if cd_require_anon d then mac_kdf base ANON_ROOT_SALT (bstr "require-anon") 32 else base in
  match cd_password d with
  | None => Some base
  | Some pw => (fun pwk => mac_kdf pwk PW_ROOT_SALT base 32) <$> argon2id pw (cd_invite_token d)
  end.

(** The root before the password. *)
Definition token_root (d : ChatDescriptor) : bytes :=
  let base := mac_kdf (cd_invite_token d) ROOT_SALT (resolved_suite_id d) 32 in
  if cd_require_anon d then mac_kdf base ANON_ROOT_SALT (bstr "require-anon") 32 else base.

(** The inputs [derive_root] gives to the key derivation, and to Argon2id. *)
Definition kdf_queries (d : ChatDescriptor) : list (bytes * bytes * bytes) :=
  [(cd_invite_token d, ROOT_SALT, resolved_suite_id d);
   (mac_kdf (cd_invite_token d) ROOT_SALT (resolved_suite_id d) 32, ANON_ROOT_SALT, bstr "require-anon")]
  ++ (if (pw ← cd_password d; argon2id pw (cd_invite_token d)) is Some pwk then [(pwk, PW_ROOT_SALT, token_root d)] else []).
Definition argon_query (d : ChatDescriptor) : option (bytes * bytes) := (fun pw => (pw, cd_invite_token d)) <$> cd_password d.

(** Deriving both roots, two different inputs gave one output. *)
Definition kdf_collision (d d' : ChatDescriptor) : Prop :=
  exists k m l k' m' l', (k, m, l) ∈ kdf_queries d /\ (k', m', l') ∈ kdf_queries d' /\
    (k, m, l) <> (k', m', l') /\ mac_kdf k m l 32 = mac_kdf k' m' l' 32.
Definition argon_collision (d d' : ChatDescriptor) : Prop :=
  exists p s p' s' k, argon_query d = Some (p, s) /\ argon_query d' = Some (p', s') /\
    (p, s) <> (p', s') /\ argon2id p s = Some k /\ argon2id p' s' = Some k.

Lemma kdf_inj d d' k m l k' m' l' :
  (k, m, l) ∈ kdf_queries d -> (k', m', l') ∈ kdf_queries d' ->
  mac_kdf k m l 32 = mac_kdf k' m' l' 32 -> (k, m, l) = (k', m', l') \/ kdf_collision d d'.
Proof.
  intros Hq Hq' E. destruct (decide ((k, m, l) = (k', m', l'))) as [|Hn]; [by left|]. right. exists k, m, l, k', m', l'. done.
Qed.

Lemma query_token d : (cd_invite_token d, ROOT_SALT, resolved_suite_id d) ∈ kdf_queries d.
Proof. apply list_elem_of_here. Qed.
Lemma query_anon d :
  (mac_kdf (cd_invite_token d) ROOT_SALT (resolved_suite_id d) 32, ANON_ROOT_SALT, bstr "require-anon") ∈ kdf_queries d.
Proof. apply list_elem_of_further, list_elem_of_here. Qed.
Lemma query_password d pw k :
  cd_password d = Some pw -> argon2id pw (cd_invite_token d) = Some k -> (k, PW_ROOT_SALT, token_root d) ∈ kdf_queries d.
Proof. intros Hp Hk. unfold kdf_queries. rewrite Hp. cbn. rewrite Hk. do 2 apply list_elem_of_further. apply list_elem_of_here. Qed.

#[local] Hint Resolve query_token query_anon query_password : core.

Lemma token_root_binds d d' :
  token_root d = token_root d' ->
  (cd_invite_token d = cd_invite_token d' /\ resolved_suite_id d = resolved_suite_id d' /\ cd_require_anon d = cd_require_anon d')
  \/ kdf_collision d d'.
Proof.
  unfold token_root. intros E. destruct (cd_require_anon d), (cd_require_anon d');
    apply (kdf_inj d d') in E as [E|?]; auto; try discriminate E.
  - injection E as E. apply (kdf_inj d d') in E as [E|?]; auto. injection E as -> ->. by left.
  - injection E as -> ->. by left.
Qed.

(** A root under a password is no root without one. *)
Lemma salts_apart d d' k pw :
  cd_password d = Some pw -> argon2id pw (cd_invite_token d) = Some k ->
  mac_kdf k PW_ROOT_SALT (token_root d) 32 = token_root d' -> kdf_collision d d' /\ kdf_collision d' d.
Proof.
  intros Hp Hk E. assert (exists k' m' l', (k', m', l') ∈ kdf_queries d' /\ m' <> PW_ROOT_SALT /\
    mac_kdf k PW_ROOT_SALT (token_root d) 32 = mac_kdf k' m' l' 32) as (k' & m' & l' & Hq & Hm & E').
  { unfold token_root in E at 2. destruct (cd_require_anon d'); do 3 eexists; (split; [|split; [|exact E]]); auto. }
  split; [exists k, PW_ROOT_SALT, (token_root d), k', m', l'|exists k', m', l', k, PW_ROOT_SALT, (token_root d)];
    (split; [eauto|split; [eauto|split; [congruence|done]]]).
Qed.

(** What the session root binds.  Two descriptors that yield the same root
    have the same invite token, the same resolved suite, the same requirement of
    an anonymising transport and the same password, unless the two derivations
    themselves ran into a collision: two different inputs they gave to the key
    derivation, or to Argon2id, with one output.  So a peer who changes any of
    these ends up with another root. *)
Lemma root_binds (d d' : ChatDescriptor) (root : bytes) :
  derive_root d = Some root -> derive_root d' = Some root ->
  (cd_invite_token d = cd_invite_token d' /\ resolved_suite_id d = resolved_suite_id d' /\
   cd_require_anon d = cd_require_anon d' /\ cd_password d = cd_password d')
  \/ kdf_collision d d' \/ argon_collision d d'.
Proof.
  unfold derive_root. fold (token_root d) (token_root d').
  destruct (cd_password d) as [pw|] eqn:Hp, (cd_password d') as [pw'|] eqn:Hp'; intros E E'.
  - apply fmap_Some in E as (k & Ek & ->), E' as (k' & Ek' & E). apply (kdf_inj d d') in E as [E|?]; [|eauto..]. injection E as -> E2.
    destruct (decide ((pw, cd_invite_token d) = (pw', cd_invite_token d'))) as [Ep|Hn].
    + injection Ep as -> Et. apply token_root_binds in E2 as [(_ & ? & ?)|?]; [|auto]. left. done.
    + right. right. unfold argon_collision, argon_query. rewrite Hp, Hp'. do 5 eexists. done.
  - apply fmap_Some in E as (k & Ek & ->). injection E' as E'. right. left. by apply (salts_apart d d' k pw Hp Ek).
  - apply fmap_Some in E' as (k & Ek & ->). injection E as E. right. left. by apply (salts_apart d' d k pw' Hp' Ek).
  - injection E as <-. injection E' as E. symmetry in E. apply token_root_binds in E as [(? & ? & ?)|?]; [|auto]. left. done.
Qed.

(** An invite is accepted with a token of any length, but Argon2id takes no salt
    under eight bytes: with a password, such an invite makes the joiner panic. *)
Lemma short_token_panics d pw :
  (forall p s, zlen s < 8 -> argon2id p s = None) -> zlen (cd_invite_token d) < 8 -> derive_root (with_password (Some pw) d) = None.
Proof. intros Ha Ht. unfold derive_root. cbn. by rewrite Ha. Qed.

(** The endpoints are not part of the root, whatever the descriptor requires:
    an invite whose onion address was replaced yields the same root. *)
Lemma root_ignores_endpoints d eps :
  derive_root (mkDescriptor (cd_version d) (cd_topology d) (cd_persistence d) (cd_suite_id d) (cd_suite_params d) eps
    (cd_invite_token d) (cd_channel d) (cd_group d) (cd_channel_marking d) (cd_name_trust_policy d) (cd_amplify_isolated d)
    (cd_access_predicate d) (cd_message_padding d) (cd_vouch_policy d) (cd_promotion d) (cd_require_anon d) (cd_password d)) =
  derive_root d.
Proof. reflexivity. Qed.

(** The joiner's root is the host's: parse the invite, then set the password that
    was told out of band. *)
Lemma joiner_root d d' :
  from_uri (to_uri d) = Ok d' -> descriptor_ok (as_shared d) -> zlen (encode_bytes d) <= usize_max ->
  cd_require_anon d = false \/ cd_version d = 7 ->
  derive_root (with_password (cd_password d) d') = derive_root d /\ descriptor_scheme_hash d' = descriptor_scheme_hash d.
Proof.
  intros Hu Hok Hl Hv. apply from_own_uri in Hu as ->; [|done..]. split; [|done]. unfold derive_root, with_password, as_shared. cbn [cd_invite_token cd_require_anon cd_password].
  assert ((if bool_decide (cd_version d >= 7) then cd_require_anon d else false) = cd_require_anon d) as ->.
  { destruct Hv as [->| ->]; [by case_bool_decide|done]. }
  reflexivity.
Qed.

End Root.

(** ** Examples *)

Section InviteWitnesses.
#[local] Existing Instance demo_build.

(** A group with a marking, an admission predicate, padding and a successor. *)
Definition iw_descriptor : ChatDescriptor :=
  mkDescriptor 7 Hub Persistent [] (byte_of <$> [1; 2]) [bstr "abc.onion"; bstr "d"] (byte_of <$> seqZ 0 8) (bstr "general") true
    None WarnOnCollision true None (Some 256) default_policy (Some (mkPromotionMeta 2 (bstr "x.onion"))) true (Some (bstr "pw")).

Lemma invite_roundtrip_witness :
  from_uri (URI_SCHEME ++ bstr " " ++ (b32_encode (encode_bytes iw_descriptor)) ++ [byte_of 10]) = Ok (as_shared iw_descriptor).
Proof.
  apply (invite_roundtrip iw_descriptor (bstr " ") (b32_encode (encode_bytes iw_descriptor)) [byte_of 10]).
  - apply (decode_bytes_ok (encode_bytes iw_descriptor)); by vm_compute.
  - by vm_compute.
  - exists [bstr " "]. split; [|done]. repeat constructor.
  - exists [[byte_of 10]]. split; [|done]. repeat constructor.
  - by vm_compute.
Defined.

Lemma from_uri_typed_witness :
  exists d, descriptor_ok d /\ from_uri (to_uri d) = Ok d /\ cd_version d = 7.
Proof.
  exists (as_shared iw_descriptor).
  destruct (from_uri_typed (to_uri iw_descriptor) (as_shared iw_descriptor)) as [H1 H2]; [by vm_compute..|].
  split; [exact H1|]. split; [exact H2|reflexivity].
Defined.

Lemma root_binds_witness :
  let argon p s := if decide (zlen s < 8) then None else Some (p ++ s) in
  let d' := with_password (Some (bstr "pw")) (as_shared iw_descriptor) in
  cd_require_anon iw_descriptor = cd_require_anon d' \/
  kdf_collision (P := toy) argon iw_descriptor d' \/ argon_collision argon iw_descriptor d'.
Proof.
  intros argon d'.
  destruct (root_binds (P := toy) argon iw_descriptor d' (default [] (derive_root (P := toy) argon iw_descriptor)))
    as [(_ & _ & H & _)|H]; [by vm_compute..|by left|by right].
Defined.

End InviteWitnesses.
