(* ===== verification/Mls.v ===== *)
(** * MLS tree math (crates/crypto/src/mls/treemath.rs)

    Level, children, parent and sibling of a node of a binary tree kept in an
    array, on 32-bit indices.  The arithmetic on indices is proved to be
    navigation in a binary tree. *)

From S2P Require Import Prelude.

(** A failed [assert!], and a loop that never ends: a shift by 32 or more is
    taken modulo 32. *)
Inductive TreeFault : Type := TreePanic | TreeLoop.
Notation tree_result := (result TreeFault).

Definition u32_shr (x k : Z) : Z := Z.shiftr x (k mod 32).
Definition u32_shl (x k : Z) : Z := u32_wrap (Z.shiftl x (k mod 32)).

(** [while test(k) { k += 1 }]; a [u32] has 32 bits, so a loop that has not ended
    after 33 turns tests the same bits again. *)
Fixpoint count_while (fuel : nat) (test : Z -> bool) (k : Z) : tree_result Z :=
  match fuel with
  | O => Err TreeLoop
  | S fuel => if test k then count_while fuel test (u32_add k 1) else Ok k
  end.
Definition SHIFT_FUEL : nat := 33.

Definition mls_log2 (x : Z) : tree_result Z :=
  if decide (x = 0) then Ok 0
  else let* k := count_while SHIFT_FUEL (fun k => bool_decide (u32_shr x k > 0)) 0 in Ok (k - 1).

Definition mls_level (x : Z) : tree_result Z :=
  if decide (Z.land x 1 = 0) then Ok 0
  else count_while SHIFT_FUEL (fun k => bool_decide (Z.land (u32_shr x k) 1 = 1)) 0.

Definition node_width (n : Z) : Z := if decide (n = 0) then 0 else u32_add (u32_wrap (2 * (n - 1))) 1.

Definition mls_root (n : Z) : tree_result Z :=
  let* h := mls_log2 (node_width n) in Ok (u32_wrap (u32_shl 1 h - 1)).

Definition mls_left (x : Z) : tree_result Z :=
  let* k := mls_level x in if decide (k = 0) then Err TreePanic else Ok (Z.lxor x (u32_shl 1 (k - 1))).
Definition mls_right (x : Z) : tree_result Z :=
  let* k := mls_level x in if decide (k = 0) then Err TreePanic else Ok (Z.lxor x (u32_shl 3 (k - 1))).

Definition parent_step (x : Z) : tree_result Z :=
  let* k := mls_level x in
  let b := Z.land (u32_shr x (k + 1)) 1 in
  Ok (Z.lxor (Z.lor x (u32_shl 1 k)) (u32_shl b (k + 1))).

(** [while p >= w { p = parent_step(p) }] *)
Fixpoint climb_below (fuel : nat) (w p : Z) : tree_result Z :=
  match fuel with
  | O => Err TreeLoop
  | S fuel => if decide (p >= w) then let* p := parent_step p in climb_below fuel w p else Ok p
  end.

Definition mls_parent (x n : Z) : tree_result (option Z) :=
  let* r := mls_root n in
  if decide (x = r) then Ok None
  else let* p := parent_step x in let* p := climb_below SHIFT_FUEL (node_width n) p in Ok (Some p).

Definition mls_sibling (x n : Z) : tree_result (option Z) :=
  let* p := mls_parent x n in
  match p with
  | None => Ok None
  | Some p => let* s := if decide (x < p) then mls_right p else mls_left p in Ok (Some s)
  end.

(** *** Coordinates

    The [m]-th node of level [k], counted from the left, has index
    [m 2^(k+1) + 2^k - 1]: [k] trailing ones, a zero, then the bits of [m]. *)
Definition at_node (k m : Z) : Z := Z.lor (Z.shiftl m (k + 1)) (Z.ones k).

Lemma at_node_bit k m i :
  0 <= k -> 0 <= i ->
  Z.testbit (at_node k m) i = if decide (i < k) then true else if decide (i = k) then false else Z.testbit m (i - k - 1).
Proof.
  intros Hk Hi. unfold at_node. rewrite Z.lor_spec, Z.shiftl_spec by lia. case_decide.
  - rewrite Z.ones_spec_low by lia. apply orb_true_r.
  - rewrite Z.ones_spec_high by lia. rewrite orb_false_r. case_decide; [apply Z.testbit_neg_r; lia|f_equal; lia].
Qed.

Lemma at_node_eq k m : 0 <= k -> 0 <= m -> at_node k m = m * 2 ^ (k + 1) + 2 ^ k - 1.
Proof.
  intros Hk Hm. unfold at_node. pose proof (Z.add_lor_land (Z.shiftl m (k + 1)) (Z.ones k)) as H.
  rewrite Z.land_ones, Z.shiftl_mul_pow2, Z.pow_add_r in H by lia.
  replace (m * (2 ^ k * 2 ^ 1)) with (m * 2 * 2 ^ k) in H by lia. rewrite Z.mod_mul in H by lia.
  rewrite Z.ones_equiv in *. rewrite Z.shiftl_mul_pow2, Z.pow_add_r by lia.
  replace (m * (2 ^ k * 2 ^ 1)) with (m * 2 * 2 ^ k) by lia. lia.
Qed.

Lemma at_node_range k m h : 0 <= k -> 0 <= m -> m < 2 ^ (h - k) -> k <= h -> 0 <= at_node k m < 2 ^ (h + 1) - 1.
Proof.
  intros Hk Hm Hlt Hh. rewrite at_node_eq by done. rewrite (Z.pow_add_r 2 k 1) by lia.
  replace (h + 1) with ((h - k) + k + 1) by lia. rewrite !Z.pow_add_r by lia. nia.
Qed.

Lemma at_node_inj k m k' m' : 0 <= k -> 0 <= k' -> 0 <= m -> 0 <= m' -> at_node k m = at_node k' m' -> k = k' /\ m = m'.
Proof.
  intros Hk Hk' Hm Hm' E.
  assert (k = k') as <-.
  { destruct (Z.lt_trichotomy k k') as [Hl|[Hl|Hl]]; [|done|]; exfalso.
    - apply (f_equal (fun x => Z.testbit x k)) in E. rewrite !at_node_bit in E by lia.
      rewrite decide_False, decide_True, decide_True in E by lia. done.
    - apply (f_equal (fun x => Z.testbit x k')) in E. rewrite !at_node_bit in E by lia.
      rewrite decide_True, decide_False, decide_True in E by lia. done. }
  split; [done|]. rewrite !at_node_eq in E by done. assert (0 < 2 ^ (k + 1)) by (apply Z.pow_pos_nonneg; lia). nia.
Qed.

(** Every index is a node. *)
Lemma at_node_surj x : 0 <= x -> exists k m, 0 <= k /\ 0 <= m /\ x = at_node k m.
Proof.
  intros Hx. assert (forall n : nat, forall x, 0 <= x < Z.of_nat n -> exists k m, 0 <= k /\ 0 <= m /\ x = at_node k m) as H.
  { clear. induction n as [|n IH]; intros x Hx; [lia|]. destruct (Z.even x) eqn:He.
    - exists 0, (x / 2). apply Z.even_spec in He as [y ->]. rewrite Z.mul_comm, Z.div_mul by lia.
      split; [lia|]. split; [lia|]. rewrite at_node_eq by lia. lia.
    - destruct (IH ((x - 1) / 2)) as (k & m & Hk & Hm & E).
      { rewrite <- Z.negb_odd in He. apply negb_false_iff, Z.odd_spec in He as [y ->].
        replace (2 * y + 1 - 1) with (y * 2) by lia. rewrite Z.div_mul by lia. lia. }
      exists (k + 1), m. split; [lia|]. split; [done|]. rewrite at_node_eq in * by lia.
      rewrite <- Z.negb_odd in He. apply negb_false_iff, Z.odd_spec in He as [y ->].
      replace (2 * y + 1 - 1) with (y * 2) in E by lia. rewrite Z.div_mul in E by lia. subst y.
      rewrite !(Z.pow_add_r 2 _ 1) by lia. lia. }
  apply (H (S (Z.to_nat x))). lia.
Qed.

(** *** The loops *)

Lemma count_while_spec fuel test k n :
  (forall i, 0 <= i < Z.of_nat n -> test (k + i) = true) -> test (k + Z.of_nat n) = false ->
  (n < fuel)%nat -> 0 <= k -> k + Z.of_nat n < 2 ^ 32 -> count_while fuel test k = Ok (k + Z.of_nat n).
Proof.
  revert k n. induction fuel as [|fuel IH]; intros k n Ht Hf Hn Hk Hb; [lia|]. cbn [count_while]. destruct n as [|n].
  - rewrite Z.add_0_r in *. by rewrite Hf.
  - replace (test k) with true by (rewrite <- (Ht 0); [f_equal; lia|lia]).
    unfold u32_add. rewrite u32_wrap_small by (unfold is_u32; lia). rewrite (IH (k + 1) n).
    + f_equal. lia.
    + intros i Hi. replace (k + 1 + i) with (k + (i + 1)) by lia. apply Ht. lia.
    + rewrite <- Hf. f_equal. lia.
    + lia. + lia. + lia.
Qed.

Lemma land_1 x : Z.land x 1 = Z.b2z (Z.testbit x 0).
Proof. change 1 with (Z.ones 1). rewrite Z.land_ones by lia. change (2 ^ 1) with 2. rewrite Zmod_odd, Z.bit0_odd. by destruct (Z.odd x). Qed.

Lemma shr_bit x k : 0 <= k < 32 -> Z.land (u32_shr x k) 1 = Z.b2z (Z.testbit x k).
Proof. intros Hk. unfold u32_shr. rewrite Z.mod_small by lia. by rewrite land_1, Z.shiftr_spec. Qed.

Lemma level_at k m : 0 <= k < 32 -> 0 <= m -> mls_level (at_node k m) = Ok k.
Proof.
  intros Hk Hm. unfold mls_level. rewrite land_1, at_node_bit by lia. destruct (decide (0 < k)) as [H0|H0].
  - rewrite decide_False by done. rewrite (count_while_spec _ _ 0 (Z.to_nat k)); [f_equal; lia|..].
    + intros i Hi. apply bool_decide_eq_true. rewrite Z.add_0_l, shr_bit, at_node_bit by lia. by rewrite decide_True by lia.
    + apply bool_decide_eq_false. rewrite shr_bit, at_node_bit by lia. rewrite decide_False, decide_True by lia. done.
    + unfold SHIFT_FUEL. lia.
    + lia.
    + lia.
  - rewrite (decide_True (P := 0 = k)) by lia. rewrite decide_True by done. f_equal. lia.
Qed.

Lemma shl_bit c k i : 0 <= k < 32 -> 0 <= i < 32 -> Z.testbit (u32_shl c k) i = Z.testbit c (i - k).
Proof.
  intros Hk Hi. unfold u32_shl, u32_wrap. rewrite (Z.mod_small k) by lia. rewrite Z.mod_pow2_bits_low by lia. by rewrite Z.shiftl_spec by lia.
Qed.
Lemma shl_high c k i : 32 <= i -> Z.testbit (u32_shl c k) i = false.
Proof. intros Hi. unfold u32_shl, u32_wrap. by apply Z.mod_pow2_bits_high; lia. Qed.

Lemma bit_ones n j : 0 <= n -> Z.testbit (Z.ones n) j = bool_decide (0 <= j < n).
Proof.
  intros Hn. case_bool_decide as H; [by apply Z.ones_spec_low|]. destruct (decide (j < 0)); [by apply Z.testbit_neg_r|].
  apply Z.ones_spec_high. lia.
Qed.

Lemma double_bit m b i : 0 <= b < 2 -> 0 < i -> Z.testbit (2 * m + b) i = Z.testbit m (i - 1).
Proof.
  intros Hb Hi. replace i with (Z.succ (i - 1)) at 1 by lia. destruct (decide (b = 0)) as [->|].
  - by rewrite Z.add_0_r, Z.testbit_even_succ by lia.
  - replace b with 1 by lia. by rewrite Z.testbit_odd_succ by lia.
Qed.

Ltac node_bits :=
  apply Z.bits_inj_iff'; intros i Hi; rewrite ?Z.lxor_spec, ?Z.lor_spec, !at_node_bit by lia;
  destruct (decide (i < 32)); [rewrite ?shl_bit by lia|rewrite ?shl_high by lia].

(** A child: flipping bits [k - 1] or [k - 1, k] of an inner node. *)
Lemma child_at k m c b :
  0 < k < 32 -> 0 <= m -> 0 <= b < 2 -> c = Z.ones (b + 1) ->
  Z.lxor (at_node k m) (u32_shl c (k - 1)) = at_node (k - 1) (2 * m + b).
Proof.
  intros Hk Hm Hb ->. node_bits; rewrite ?bit_ones by lia.
  - destruct (decide (i < k - 1)); [by rewrite !decide_True, bool_decide_false by lia|].
    destruct (decide (i = k - 1)) as [->|];
      [by rewrite decide_True, bool_decide_true by lia|].
    rewrite decide_False by lia. destruct (decide (i = k)) as [->|].
    + replace (k - (k - 1) - 1) with 0 by lia. replace (k - (k - 1)) with 1 by lia. destruct (decide (b = 0)) as [->|].
      * rewrite bool_decide_false by lia. by rewrite Z.add_0_r, Z.testbit_even_0.
      * assert (b = 1) as -> by lia. rewrite bool_decide_true by lia. by rewrite Z.testbit_odd_0.
    + rewrite bool_decide_false by lia. rewrite xorb_false_r, double_bit by lia. f_equal. lia.
  - rewrite !decide_False by lia. rewrite xorb_false_r, double_bit by lia. f_equal. lia.
Qed.

Lemma left_at k m : 0 < k < 32 -> 0 <= m -> mls_left (at_node k m) = Ok (at_node (k - 1) (2 * m)).
Proof.
  intros Hk Hm. unfold mls_left. rewrite level_at by lia. cbn [rbind]. rewrite decide_False by lia. f_equal.
  rewrite (child_at k m 1 0) by (try lia; done). f_equal. lia.
Qed.
Lemma right_at k m : 0 < k < 32 -> 0 <= m -> mls_right (at_node k m) = Ok (at_node (k - 1) (2 * m + 1)).
Proof.
  intros Hk Hm. unfold mls_right. rewrite level_at by lia. cbn [rbind]. rewrite decide_False by lia. f_equal.
  by apply (child_at k m 3 1); try lia.
Qed.

Lemma parent_step_at k m : 0 <= k < 31 -> 0 <= m -> parent_step (at_node k m) = Ok (at_node (k + 1) (m / 2)).
Proof.
  intros Hk Hm. unfold parent_step. rewrite level_at by lia. cbn [rbind]. f_equal.
  rewrite shr_bit, at_node_bit by lia. rewrite decide_False, decide_False by lia. replace (k + 1 - k - 1) with 0 by lia.
  replace (m / 2) with (Z.shiftr m 1) by (by rewrite Z.shiftr_div_pow2).
  node_bits; rewrite ?(bit_ones 1 _ ltac:(lia)).
  - destruct (decide (i < k)); [by rewrite decide_True, bool_decide_false, Z.testbit_neg_r by lia|].
    destruct (decide (i = k)) as [->|].
    { by rewrite decide_True, bool_decide_true, Z.testbit_neg_r by lia. }
    rewrite bool_decide_false, orb_false_r by lia. rewrite (decide_False (P := i < k + 1)) by lia.
    destruct (decide (i = k + 1)) as [->|].
    + replace (k + 1 - k - 1) with 0 by lia. replace (k + 1 - (k + 1)) with 0 by lia. by destruct (Z.testbit m 0).
    + rewrite Z.shiftr_spec by lia. replace (i - (k + 1) - 1 + 1) with (i - k - 1) by lia.
      assert (Z.testbit (Z.b2z (Z.testbit m 0)) (i - (k + 1)) = false) as ->; [|apply xorb_false_r].
      destruct (Z.testbit m 0); [|apply Z.bits_0]. change (Z.b2z true) with (Z.ones 1). rewrite bit_ones by lia.
      by rewrite bool_decide_false by lia.
  - rewrite !decide_False by lia. rewrite xorb_false_r, orb_false_r, Z.shiftr_spec by lia. f_equal. lia.
Qed.

Lemma log2_small x : 0 < x < 2 ^ 31 -> mls_log2 x = Ok (Z.log2 x).
Proof.
  intros Hx. unfold mls_log2. rewrite decide_False by lia. pose proof (Z.log2_spec x ltac:(lia)) as [Hl Hu].
  pose proof (Z.log2_nonneg x). assert (Z.log2 x < 31) by (apply Z.log2_lt_pow2; lia).
  assert (forall k, 0 <= k < 32 -> (u32_shr x k > 0 <-> k <= Z.log2 x)) as Hs.
  { intros k Hk. unfold u32_shr. rewrite Z.mod_small, Z.shiftr_div_pow2 by lia.
    assert (0 < 2 ^ k) by (apply Z.pow_pos_nonneg; lia). rewrite <- (Z.log2_le_pow2 x k) by lia. split; intros.
    - apply Z.nlt_ge. intros Hlt. rewrite Z.div_small in * by lia. lia.
    - assert (1 <= x / 2 ^ k); [|lia]. apply Z.div_le_lower_bound; lia. }
  rewrite (count_while_spec _ _ 0 (Z.to_nat (Z.log2 x + 1))); cbn [rbind].
  - f_equal. lia.
  - intros i Hi. apply bool_decide_eq_true, Hs; lia.
  - apply bool_decide_eq_false. rewrite Hs; lia.
  - unfold SHIFT_FUEL. lia.
  - lia.
  - lia.
Qed.

Definition leaves_ok (n : Z) : Prop := 1 <= n <= 2 ^ 30.
(** The level of the root. *)
Definition height (n : Z) : Z := Z.log2 (2 * n - 1).

Lemma width_eq n : leaves_ok n -> node_width n = 2 * n - 1.
Proof.
  unfold leaves_ok. intros Hn. unfold node_width, u32_add. rewrite decide_False by lia.
  rewrite (u32_wrap_small (2 * (n - 1))) by (unfold is_u32; lia). rewrite u32_wrap_small by (unfold is_u32; lia). lia.
Qed.

Lemma height_spec n : leaves_ok n -> 0 <= height n < 31 /\ 2 ^ height n <= 2 * n - 1 < 2 ^ (height n + 1).
Proof.
  unfold leaves_ok. intros Hn. unfold height. pose proof (Z.log2_spec (2 * n - 1) ltac:(lia)) as Hs.
  pose proof (Z.log2_nonneg (2 * n - 1)). rewrite <- Z.add_1_r in Hs. split; [|lia]. split; [lia|]. apply Z.log2_lt_pow2; lia.
Qed.

Lemma root_at n : leaves_ok n -> mls_root n = Ok (at_node (height n) 0).
Proof.
  intros Hn. pose proof (height_spec n Hn) as [Hh Hw]. unfold mls_root. rewrite width_eq by done.
  rewrite log2_small by (unfold leaves_ok in Hn; lia). cbn [rbind]. f_equal. rewrite at_node_eq by lia.
  change (Z.log2 (2 * n - 1)) with (height n). unfold u32_shl. rewrite Z.mod_small, Z.shiftl_mul_pow2 by lia.
  assert (0 < 2 ^ height n < 2 ^ 31) by (split; [apply Z.pow_pos_nonneg; lia|apply Z.pow_lt_mono_r; lia]).
  rewrite (u32_wrap_small (1 * _)) by (unfold is_u32; lia). rewrite u32_wrap_small by (unfold is_u32; lia). lia.
Qed.

(** The nodes of the array lie below the root. *)
Lemma below_root n k m :
  leaves_ok n -> 0 <= k -> 0 <= m -> at_node k m < node_width n -> k <= height n /\ m < 2 ^ (height n - k).
Proof.
  intros Hn Hk Hm Hx. pose proof (height_spec n Hn) as [Hh Hw]. rewrite width_eq, at_node_eq in Hx by done.
  assert (k <= height n) as Hkh.
  { apply Z.nlt_ge. intros Hl. assert (2 ^ (height n + 1) <= 2 ^ k) by (apply Z.pow_le_mono_r; lia). nia. }
  split; [done|]. replace (height n + 1) with ((height n - k) + (k + 1)) in Hw by lia. rewrite (Z.pow_add_r 2 (height n - k)) in Hw by lia.
  assert (0 < 2 ^ (k + 1)) by (apply Z.pow_pos_nonneg; lia). assert (0 < 2 ^ k) by (apply Z.pow_pos_nonneg; lia). nia.
Qed.

Definition ancestor (k m j : Z) : Z := at_node (k + j) (m / 2 ^ j).

Lemma ancestor_step k m j : 0 <= k -> 0 <= m -> 0 <= j -> k + j < 31 -> parent_step (ancestor k m j) = Ok (ancestor k m (j + 1)).
Proof.
  intros Hk Hm Hj Hb. unfold ancestor. assert (0 < 2 ^ j) by (apply Z.pow_pos_nonneg; lia).
  rewrite parent_step_at by (try lia; apply Z.div_pos; lia). rewrite Z.div_div, Z.pow_add_r by lia. do 2 f_equal. lia.
Qed.

(** The lowest ancestor inside the array. *)
Lemma climb_below_spec k m w J fuel j :
  0 <= k -> 0 <= m -> 0 <= j <= J -> k + J <= 31 -> ancestor k m J < w -> J - j < Z.of_nat fuel ->
  exists i, j <= i <= J /\ climb_below fuel w (ancestor k m j) = Ok (ancestor k m i) /\ ancestor k m i < w /\
    forall i', j <= i' < i -> ancestor k m i' >= w.
Proof.
  intros Hk Hm. revert j. induction fuel as [|fuel IH]; intros j Hj Hb HJ Hf; [lia|]. cbn [climb_below]. case_decide as Hd.
  - assert (j <> J) by (intros ->; lia). rewrite ancestor_step by lia. cbn [rbind].
    destruct (IH (j + 1)) as (i & Hi & E & Hw & Hall); [lia|lia|done|lia|]. exists i. split; [lia|]. split; [done|]. split; [done|].
    intros i' Hi'. destruct (decide (i' = j)) as [->|]; [done|]. apply Hall. lia.
  - exists j. split; [lia|]. split; [done|]. split; [lia|]. intros i' Hi'. lia.
Qed.

(** The parent of any node of any tree: the nearest of the nodes above it that
    the array has. *)
Lemma parent_nearest n k m :
  leaves_ok n -> 0 <= k -> 0 <= m -> at_node k m < node_width n -> at_node k m <> at_node (height n) 0 ->
  exists j, 1 <= j /\ mls_parent (at_node k m) n = Ok (Some (ancestor k m j)) /\
    ancestor k m j < node_width n /\ forall i, 1 <= i < j -> ancestor k m i >= node_width n.
Proof.
  intros Hn Hk Hm Hx Hr. pose proof (height_spec n Hn) as [Hh Hw].
  destruct (below_root n k m Hn Hk Hm Hx) as [Hkh Hmh].
  assert (k < height n) as Hlt.
  { destruct (decide (k = height n)) as [->|]; [|lia]. rewrite Z.sub_diag in Hmh. destruct Hr. f_equal. change (2 ^ 0) with 1 in Hmh. lia. }
  unfold mls_parent. rewrite root_at by done. cbn [rbind]. rewrite decide_False by done.
  rewrite parent_step_at by lia. cbn [rbind].
  replace (at_node (k + 1) (m / 2)) with (ancestor k m 1) by (unfold ancestor; by rewrite Z.pow_1_r).
  destruct (climb_below_spec k m (node_width n) (height n - k) SHIFT_FUEL 1) as (j & Hj & E & Hlow & Hall); [done|done|lia|lia| |unfold SHIFT_FUEL; lia|].
  - unfold ancestor. rewrite Z.div_small by lia. replace (k + (height n - k)) with (height n) by lia.
    rewrite at_node_eq, width_eq by (try lia; done). lia.
  - exists j. rewrite E. cbn [rbind]. split; [lia|]. done.
Qed.

(** A full tree of [2^e] leaves. *)
Lemma full_height e : 0 <= e -> height (2 ^ e) = e.
Proof.
  intros He. unfold height. replace (2 * 2 ^ e - 1) with (2 ^ (e + 1) - 1) by (rewrite Z.pow_add_r by lia; lia).
  replace (2 ^ (e + 1) - 1) with (Z.pred (2 ^ (e + 1))) by lia. rewrite Z.log2_pred_pow2 by lia. lia.
Qed.

Lemma lxor_1 m : 0 <= m -> Z.lxor m 1 = if Z.even m then 2 * (m / 2) + 1 else 2 * (m / 2).
Proof.
  intros Hm. destruct (Z.even m) eqn:He.
  - apply Z.even_spec in He as [y ->]. rewrite (Z.mul_comm 2 y), Z.div_mul, (Z.mul_comm y 2) by lia.
    rewrite <- Z.add_nocarry_lxor; [done|]. rewrite land_1. by rewrite Z.testbit_even_0.
  - rewrite <- Z.negb_odd in He. apply negb_false_iff, Z.odd_spec in He as [y ->].
    replace ((2 * y + 1) / 2) with y by (apply Z.div_unique with 1; lia).
    rewrite (Z.add_nocarry_lxor (2 * y) 1) by (rewrite land_1; by rewrite Z.testbit_even_0).
    by rewrite Z.lxor_assoc, Z.lxor_nilpotent, Z.lxor_0_r.
Qed.

(** C37: the tree math on array indices is navigation in a binary tree.  In a tree
    of [2^e] leaves, up to [2^30], every index below the width is one node of one
    level; [level], [root], [left], [right], [parent] and [sibling] take it to the
    level, top, children, parent and sibling of that node, [left] and [right]
    panic exactly on leaves, and all loops end. *)
Theorem tree_math_refines (e x : Z) :
  0 <= e <= 30 -> 0 <= x < node_width (2 ^ e) ->
  exists k m, 0 <= k <= e /\ 0 <= m < 2 ^ (e - k) /\ x = at_node k m /\ mls_level x = Ok k /\
    mls_root (2 ^ e) = Ok (at_node e 0) /\
    mls_left x = (if decide (k = 0) then Err TreePanic else Ok (at_node (k - 1) (2 * m))) /\
    mls_right x = (if decide (k = 0) then Err TreePanic else Ok (at_node (k - 1) (2 * m + 1))) /\
    mls_parent x (2 ^ e) = Ok (if decide (k = e) then None else Some (at_node (k + 1) (m / 2))) /\
    mls_sibling x (2 ^ e) = Ok (if decide (k = e) then None else Some (at_node k (Z.lxor m 1))).
Proof.
  intros He Hx. assert (leaves_ok (2 ^ e)) as Hn.
  { split; [pose proof (Z.pow_pos_nonneg 2 e); lia|]. apply Z.pow_le_mono_r; lia. }
  destruct (at_node_surj x) as (k & m & Hk & Hm & ->); [lia|].
  destruct (below_root _ k m Hn Hk Hm) as [Hke Hme]; [lia|]. rewrite full_height in Hke, Hme by lia.
  pose proof (root_at _ Hn) as Hroot. rewrite full_height in Hroot by lia.
  assert (mls_parent (at_node k m) (2 ^ e) = Ok (if decide (k = e) then None else Some (at_node (k + 1) (m / 2)))) as Hp.
  { case_decide as Hd.
    - subst. rewrite Z.sub_diag in Hme. change (2 ^ 0) with 1 in Hme. assert (m = 0) as -> by lia.
      unfold mls_parent. rewrite Hroot. cbn [rbind]. by rewrite decide_True.
    - destruct (parent_nearest _ k m Hn Hk Hm) as (j & Hj & E & _ & Hall); [lia| |].
      { rewrite full_height by lia. intros E%at_node_inj; lia. }
      rewrite E. destruct (decide (j = 1)) as [->|]; [unfold ancestor; by rewrite Z.pow_1_r|].
      exfalso. specialize (Hall 1 ltac:(lia)). unfold ancestor in Hall. rewrite Z.pow_1_r, width_eq in Hall by done.
      assert (m / 2 < 2 ^ (e - (k + 1))).
      { apply Z.div_lt_upper_bound; [lia|]. rewrite <- Z.pow_succ_r by lia. by replace (Z.succ (e - (k + 1))) with (e - k) by lia. }
      assert (0 <= m / 2) by (apply Z.div_pos; lia).
      pose proof (at_node_range (k + 1) (m / 2) e ltac:(lia) ltac:(lia) ltac:(lia) ltac:(lia)) as Hr.
      rewrite Z.pow_add_r in Hr by lia. lia. }
  exists k, m. split; [lia|]. split; [lia|]. split; [done|]. split; [apply level_at; lia|]. split; [done|].
  assert (0 < k -> mls_left (at_node k m) = Ok (at_node (k - 1) (2 * m))) as Hl by (intros; apply left_at; lia).
  assert (0 < k -> mls_right (at_node k m) = Ok (at_node (k - 1) (2 * m + 1))) as Hr by (intros; apply right_at; lia).
  split; [|split; [|split; [done|]]].
  - destruct (decide (k = 0)); [|apply Hl; lia]. unfold mls_left. rewrite level_at by lia. cbn [rbind]. by rewrite decide_True.
  - destruct (decide (k = 0)); [|apply Hr; lia]. unfold mls_right. rewrite level_at by lia. cbn [rbind]. by rewrite decide_True.
  - unfold mls_sibling. rewrite Hp. cbn [rbind]. destruct (decide (k = e)) as [|Hd]; [done|]. rewrite lxor_1 by done.
    assert (0 <= m / 2) as Hm2 by (apply Z.div_pos; lia). assert (0 < 2 ^ k) by (apply Z.pow_pos_nonneg; lia).
    pose proof (Z.div_mod m 2 ltac:(lia)) as Hdm.
    assert (m mod 2 = if Z.even m then 0 else 1) as Hpar by (rewrite Zmod_even; done).
    pose proof (at_node_eq k m ltac:(lia) ltac:(lia)) as E1. pose proof (at_node_eq (k + 1) (m / 2) ltac:(lia) ltac:(lia)) as E2.
    rewrite Z.pow_add_r in E1 by lia. rewrite (Z.pow_add_r 2 (k + 1)), (Z.pow_add_r 2 k) in E2 by lia. change (2 ^ 1) with 2 in *.
    assert (m * (2 ^ k * 2) = (2 * (m / 2) + m mod 2) * (2 ^ k * 2)) as E3 by (by rewrite <- Hdm).
    rewrite Hpar in E3. destruct (Z.even m).
    + rewrite decide_True by lia. rewrite right_at by lia. cbn [rbind]. by replace (k + 1 - 1) with k by lia.
    + rewrite decide_False by lia. rewrite left_at by lia. cbn [rbind]. by replace (k + 1 - 1) with k by lia.
Qed.

(** In a tree whose number of leaves is no power of two, [sibling] may lead out
    of the array. *)
Lemma sibling_outside : mls_sibling 1 3 = Ok (Some 5) /\ node_width 3 = 5.
Proof. by vm_compute. Qed.

(** From [2^30 + 1] leaves on, [root] does not come back. *)
Lemma root_loops n : 2 ^ 30 < n <= 2 ^ 31 -> mls_root n = Err TreeLoop.
Proof.
  intros Hn. assert (node_width n = 2 * n - 1) as Hw.
  { unfold node_width, u32_add. rewrite decide_False by lia. rewrite (u32_wrap_small (2 * (n - 1))) by (unfold is_u32; lia).
    rewrite u32_wrap_small by (unfold is_u32; lia). lia. }
  unfold mls_root, mls_log2. rewrite Hw, decide_False by lia.
  assert (forall fuel k, 0 <= k -> count_while fuel (fun k => bool_decide (u32_shr (2 * n - 1) k > 0)) k = Err TreeLoop) as ->; [|done|lia].
  induction fuel as [|fuel IH]; intros k Hk; [done|]. cbn [count_while]. rewrite bool_decide_true.
  - apply IH. unfold u32_add, u32_wrap. apply Z.mod_pos_bound. lia.
  - unfold u32_shr. pose proof (Z.mod_pos_bound k 32 ltac:(lia)) as Hb. rewrite Z.shiftr_div_pow2 by lia.
    assert (2 ^ (k mod 32) <= 2 ^ 31) by (apply Z.pow_le_mono_r; lia). assert (0 < 2 ^ (k mod 32)) by (apply Z.pow_pos_nonneg; lia).
    assert (1 <= (2 * n - 1) / 2 ^ (k mod 32)); [|lia]. apply Z.div_le_lower_bound; lia.
Qed.

(** The right child of the root of a tree of eight leaves. *)
Lemma tree_math_refines_witness : exists k m, 11 = at_node k m /\ mls_sibling 11 8 = Ok (Some (at_node k (Z.lxor m 1))).
Proof.
  destruct (tree_math_refines 3 11) as (k & m & _ & _ & E & Hl & _ & _ & _ & _ & Hs); [lia|by vm_compute|].
  exists k, m. split; [exact E|]. change (2 ^ 3) with 8 in Hs. rewrite Hs.
  destruct (decide (k = 3)) as [->|]; [|reflexivity]. exfalso. revert Hl. by vm_compute.
Defined.
