(* ===== verification/MlsKeys.v ===== *)
(** * MLS keys (crates/crypto/src/mls/: schedule.rs, secret_tree.rs, hpke.rs, sign.rs)

    Labelled content with variable-length integers, the epoch key schedule, the
    secret tree, labelled encryption over ML-KEM and labelled signatures over
    ML-DSA.  Proved: the labelled formats determine label and content; the secret
    tree gives every leaf the secret at the end of its path, and no two messages
    of an epoch share a key unless HKDF collides on the inputs used; sealing and
    opening are inverse, and what is sealed opens under no other label or
    context. *)

From S2P Require Import Prelude Wire Crypto Toy Frames Codec B32 Mls.

(** ** Labelled content *)

Definition put_varint (v : Z) : bytes :=
  if decide (v < Z.shiftl 1 6) then [byte_of v]
  else if decide (v < Z.shiftl 1 14) then be_bytes 2 (Z.lor (v mod 2 ^ 16) 0x4000)
  else if decide (v < Z.shiftl 1 30) then be_bytes 4 (Z.lor (u32_wrap v) 0x80000000)
  else be_bytes 8 (Z.lor v 0xC000000000000000).

Definition put_opaque (data : bytes) : bytes := put_varint (zlen data) ++ data.

Definition full_label (label : string) : bytes := bstr "MLS 1.0 " ++ bstr label.

Definition labeled_content (label : string) (content : bytes) : bytes :=
  put_opaque (full_label label) ++ put_opaque content.

(** *** The formats are injective *)

(** The two top bits of the first byte: the integer takes [2^c] bytes. *)
Definition vclass (v : Z) : Z :=
  if decide (v < 2 ^ 6) then 0 else if decide (v < 2 ^ 14) then 1 else if decide (v < 2 ^ 30) then 2 else 3.
Definition vbytes (c : Z) : nat := Z.to_nat (2 ^ c).

Definition varint_ok (v : Z) : Prop := 0 <= v < 2 ^ 62.

Lemma lor_top v n c : 0 <= v < 2 ^ n -> 0 <= n -> 0 <= c -> Z.lor v (c * 2 ^ n) = v + c * 2 ^ n.
Proof.
  intros Hv Hn Hc. symmetry. rewrite <- Z.lxor_lor; [apply Z.add_nocarry_lxor|]; apply Z.bits_inj'; intros i Hi;
    rewrite Z.land_spec, Z.bits_0; (destruct (decide (i < n));
    [rewrite Z.mul_pow2_bits_low by lia; apply andb_false_r|
     rewrite <- (Z.mod_small v (2 ^ n)), Z.mod_pow2_bits_high by lia; done]).
Qed.

Lemma put_varint_eq v :
  varint_ok v -> let c := vclass v in
  put_varint v = be_bytes (vbytes c) (v + c * 2 ^ (8 * 2 ^ c - 2)) /\ 0 <= c < 4 /\ v < 2 ^ (8 * 2 ^ c - 2).
Proof.
  unfold varint_ok. intros Hv. unfold put_varint, vclass. change (Z.shiftl 1 6) with (2 ^ 6).
  change (Z.shiftl 1 14) with (2 ^ 14). change (Z.shiftl 1 30) with (2 ^ 30). cbv zeta.
  repeat case_decide; (split; [|split; [lia|]]).
  - change (vbytes 0) with 1%nat. rewrite be_bytes_1. f_equal. f_equal. lia.
  - done.
  - change (vbytes 1) with 2%nat. rewrite Z.mod_small by lia. f_equal. exact (lor_top v 14 1 ltac:(lia) ltac:(lia) ltac:(lia)).
  - done.
  - change (vbytes 2) with 4%nat. rewrite u32_wrap_small by (unfold is_u32; lia). f_equal.
    exact (lor_top v 30 2 ltac:(lia) ltac:(lia) ltac:(lia)).
  - done.
  - change (vbytes 3) with 8%nat. f_equal. exact (lor_top v 62 3 ltac:(lia) ltac:(lia) ltac:(lia)).
  - lia.
Qed.

Lemma be_bytes_cons m z : be_bytes (S m) z = byte_of (Z.shiftr z (8 * Z.of_nat m)) :: be_bytes m z.
Proof. with_strategy transparent [be_bytes] reflexivity. Qed.

Lemma put_varint_head v :
  varint_ok v -> exists b r, put_varint v = b :: r /\ bval b / 64 = vclass v.
Proof.
  intros Hv. pose proof (put_varint_eq v Hv) as (-> & Hc & Hlt). unfold varint_ok in Hv.
  set (c := vclass v) in *. assert (exists m, vbytes c = S m /\ Z.of_nat m = 2 ^ c - 1) as (m & -> & Hm).
  { pose proof (Z.pow_pos_nonneg 2 c). unfold vbytes. exists (Z.to_nat (2 ^ c - 1)). lia. }
  rewrite be_bytes_cons. do 2 eexists. split; [done|]. rewrite Hm, bval_byte_of, Z.shiftr_div_pow2 by lia.
  assert (0 < 2 ^ c) by lia. assert (0 < 2 ^ (8 * (2 ^ c - 1))) by (apply Z.pow_pos_nonneg; lia).
  assert (2 ^ (8 * 2 ^ c - 2) = 2 ^ (8 * (2 ^ c - 1)) * 64) as E.
  { change 64 with (2 ^ 6). rewrite <- Z.pow_add_r by lia. f_equal. lia. }
  rewrite E, Z.mul_assoc in *. set (p := 2 ^ (8 * (2 ^ c - 1))) in *.
  replace (v + c * p * 64) with (v + c * 64 * p) by lia. rewrite Z.div_add by lia.
  assert (0 <= v / p < 64). { split; [apply Z.div_pos; lia|]. apply Z.div_lt_upper_bound; lia. }
  rewrite Z.mod_small by lia. rewrite Z.div_add by lia. rewrite Z.div_small by lia. lia.
Qed.

Lemma put_varint_inj v v' x y :
  varint_ok v -> varint_ok v' -> put_varint v ++ x = put_varint v' ++ y -> v = v' /\ x = y.
Proof.
  intros Hv Hv' E. assert (vclass v = vclass v') as Hc.
  { destruct (put_varint_head v Hv) as (b & r & E1 & <-), (put_varint_head v' Hv') as (b' & r' & E2 & <-).
    rewrite E1, E2 in E. by injection E as ->. }
  pose proof (put_varint_eq v Hv) as (E1 & _ & H1). pose proof (put_varint_eq v' Hv') as (E2 & Hr & H2).
  rewrite Hc in *. unfold varint_ok in *. rewrite E1, E2 in E. set (c := vclass v') in *.
  assert (0 < 2 ^ c) by (apply Z.pow_pos_nonneg; lia).
  apply app_inj_len in E as [E ->]; [|by rewrite !length_be_bytes]. split; [|done].
  apply be_bytes_inj in E; [lia|..]; unfold vbytes; rewrite Z2Nat.id by lia; change 256 with (2 ^ 8); rewrite <- Z.pow_mul_r by lia;
    assert (2 ^ (8 * 2 ^ c) = 4 * 2 ^ (8 * 2 ^ c - 2)) by (change 4 with (2 ^ 2); rewrite <- Z.pow_add_r by lia; f_equal; lia);
    assert (c * 2 ^ (8 * 2 ^ c - 2) <= 3 * 2 ^ (8 * 2 ^ c - 2)) by (apply Z.mul_le_mono_nonneg_r; lia);
    assert (0 <= c * 2 ^ (8 * 2 ^ c - 2)) by (apply Z.mul_nonneg_nonneg; lia); lia.
Qed.

(** A field that its length prefix can carry. *)
Definition fits (b : bytes) : Prop := zlen b < 2 ^ 61.

Lemma put_opaque_inj a b x y :
  fits a -> fits b -> put_opaque a ++ x = put_opaque b ++ y -> a = b /\ x = y.
Proof.
  unfold fits, put_opaque. intros Ha Hb E. rewrite <- !(assoc (++)) in E.
  apply put_varint_inj in E as [El E]; [|unfold varint_ok; pose proof (zlen_nonneg a); pose proof (zlen_nonneg b); lia..].
  apply app_inj_len in E; [done|]. unfold zlen in El. lia.
Qed.

Lemma full_label_inj l l' : full_label l = full_label l' -> l = l'.
Proof. intros E%app_inv_head. by apply bstr_inj. Qed.

(** A label with its prefix. *)
Definition label_fits (l : string) : Prop := fits (full_label l).

Lemma labelled_inj l c l' c' x y :
  label_fits l -> label_fits l' -> fits c -> fits c' ->
  put_opaque (full_label l) ++ put_opaque c ++ x = put_opaque (full_label l') ++ put_opaque c' ++ y -> l = l' /\ c = c' /\ x = y.
Proof.
  intros Hl Hl' Hc Hc' E. apply put_opaque_inj in E as [E1%full_label_inj E]; [|done..]. by apply put_opaque_inj in E as [-> ->].
Qed.

Lemma labeled_content_inj l c l' c' :
  label_fits l -> label_fits l' -> fits c -> fits c' -> labeled_content l c = labeled_content l' c' -> l = l' /\ c = c'.
Proof.
  intros Hl Hl' Hc Hc' E. unfold labeled_content in E. rewrite <- (app_nil_r (put_opaque c)), <- (app_nil_r (put_opaque c')) in E.
  by apply labelled_inj in E as (? & ? & _).
Qed.

(** ** The key schedule *)

Definition NH : Z := 32.
Definition NK : Z := 16.
Definition NN : Z := 12.

Definition kdf_label (label : string) (context : bytes) (length : Z) : bytes :=
  be_bytes 2 length ++ put_opaque (full_label label) ++ put_opaque context.

Record EpochSecrets : Type := mkEpochSecrets {
  es_sender_data : bytes; es_encryption : bytes; es_exporter : bytes; es_external : bytes; es_confirmation_key : bytes;
  es_membership_key : bytes; es_resumption_psk : bytes; es_epoch_authenticator : bytes; es_init_next : bytes }.

Record KeyNonce : Type := mkKeyNonce { kn_key : bytes; kn_nonce : bytes }.

Section Schedule.
(** HKDF and SHA-256 of the [hkdf] and [sha2] crates: extract, expand of a key
    that is long enough, and the digest. *)
Context (hkdf_extract : bytes -> bytes -> bytes) (hkdf_expand : bytes -> bytes -> Z -> option bytes) (sha256 : bytes -> bytes).

(** [from_prk(..).expect(..)], [expand(..).expect(..)]: a refusal is a panic. *)
Definition expand_with_label (secret : bytes) (label : string) (context : bytes) (length : Z) : tree_result bytes :=
  ok_or (hkdf_expand secret (kdf_label label context length) length) TreePanic.

Definition derive_secret (secret : bytes) (label : string) : tree_result bytes := expand_with_label secret label [] NH.

Definition extract (salt ikm : bytes) : bytes := hkdf_extract salt ikm.

Definition epoch_key_schedule (joiner_secret psk_secret group_context : bytes) : tree_result (bytes * bytes * EpochSecrets) :=
  let prk := extract joiner_secret psk_secret in
  let* welcome_secret := expand_with_label prk "welcome" [] NH in
  let* epoch_secret := expand_with_label prk "epoch" group_context NH in
  let* sender_data := derive_secret epoch_secret "sender data" in
  let* encryption := derive_secret epoch_secret "encryption" in
  let* exporter := derive_secret epoch_secret "exporter" in
  let* external := derive_secret epoch_secret "external" in
  let* confirmation_key := derive_secret epoch_secret "confirm" in
  let* membership_key := derive_secret epoch_secret "membership" in
  let* resumption_psk := derive_secret epoch_secret "resumption" in
  let* epoch_authenticator := derive_secret epoch_secret "authentication" in
  let* init_next := derive_secret epoch_secret "init" in
  Ok (welcome_secret, epoch_secret,
      mkEpochSecrets sender_data encryption exporter external confirmation_key membership_key resumption_psk
        epoch_authenticator init_next).

Definition ref_hash (label : string) (value : bytes) : bytes := sha256 (put_opaque (bstr label) ++ put_opaque value).

(** ** The secret tree *)

Definition derive_tree_secret (secret : bytes) (label : string) (generation length : Z) : tree_result bytes :=
  expand_with_label secret label (be_bytes 4 generation) length.

(** [while level(node) > 0]; every turn goes one level down. *)
Fixpoint descend (fuel : nat) (target node : Z) (secret : bytes) : tree_result bytes :=
  match fuel with
  | O => Err TreeLoop
  | S fuel =>
      let* k := mls_level node in
      if decide (k > 0) then
        if decide (target < node) then
          let* secret := expand_with_label secret "tree" (bstr "left") NH in
          let* node := mls_left node in descend fuel target node secret
        else
          let* secret := expand_with_label secret "tree" (bstr "right") NH in
          let* node := mls_right node in descend fuel target node secret
      else Ok secret
  end.

Definition leaf_secret (encryption_secret : bytes) (n_leaves leaf : Z) : tree_result bytes :=
  let target := u32_wrap (2 * leaf) in
  let* node := mls_root n_leaves in
  descend SHIFT_FUEL target node encryption_secret.

(** [for j in 0..generation] from [j] on, [n] turns left *)
Fixpoint ratchet_on (n : nat) (j : Z) (ratchet : bytes) : tree_result bytes :=
  match n with
  | O => Ok ratchet
  | S n => let* ratchet := derive_tree_secret ratchet "secret" j NH in ratchet_on n (j + 1) ratchet
  end.

Definition ratchet_key (leaf_secret : bytes) (which : string) (generation : Z) : tree_result KeyNonce :=
  let* ratchet := expand_with_label leaf_secret which [] NH in
  let* ratchet := ratchet_on (Z.to_nat generation) 0 ratchet in
  let* key := derive_tree_secret ratchet "key" generation NK in
  let* nonce := derive_tree_secret ratchet "nonce" generation NN in
  Ok (mkKeyNonce key nonce).

Definition sender_data_key_nonce (sender_data_secret ciphertext : bytes) : tree_result KeyNonce :=
  let sample := take (Z.to_nat (Z.min NH (zlen ciphertext))) ciphertext in
  let* key := expand_with_label sender_data_secret "key" sample NK in
  let* nonce := expand_with_label sender_data_secret "nonce" sample NN in
  Ok (mkKeyNonce key nonce).

(** *** Chains of derivations

    A secret, then one [ExpandWithLabel] after the other. *)

Definition kstep : Type := string * bytes * Z.

Fixpoint run_chain (s : bytes) (l : list kstep) : tree_result bytes :=
  match l with
  | [] => Ok s
  | (label, context, n) :: l => let* s := expand_with_label s label context n in run_chain s l
  end.

(** The inputs HKDF sees along a chain. *)
Fixpoint chain_queries (s : bytes) (l : list kstep) : list (bytes * bytes * Z) :=
  match l with
  | [] => []
  | (label, context, n) :: l =>
      (s, kdf_label label context n, n) ::
      match expand_with_label s label context n with Ok s => chain_queries s l | Err _ => [] end
  end.

(** Running both chains, HKDF gave one output for two different inputs. *)
Definition hkdf_collision (s : bytes) (l l' : list kstep) : Prop :=
  exists a i n a' i' n' out, (a, i, n) ∈ chain_queries s l /\ (a', i', n') ∈ chain_queries s l' /\
    (a, i, n) <> (a', i', n') /\ hkdf_expand a i n = Some out /\ hkdf_expand a' i' n' = Some out.

Definition kstep_ok (x : kstep) : Prop := label_fits x.1.1 /\ fits x.1.2 /\ 0 <= x.2 < 2 ^ 16.

Lemma run_chain_app s l l' : run_chain s (l ++ l') = (let* r := run_chain s l in run_chain r l').
Proof.
  revert s. induction l as [|[[lab ctx] n] l IH]; intros s; [done|]. cbn [app run_chain].
  destruct (expand_with_label s lab ctx n); cbn [rbind]; [apply IH|done].
Qed.

Lemma chain_queries_app s l l' r : run_chain s l = Ok r -> chain_queries s (l ++ l') = chain_queries s l ++ chain_queries r l'.
Proof.
  revert s. induction l as [|[[lab ctx] n] l IH]; intros s; cbn [app run_chain chain_queries]; [by intros [= ->]|].
  destruct (expand_with_label s lab ctx n); cbn [rbind]; [|done]. intros E. by rewrite (IH _ E).
Qed.

Lemma collision_app s l l' m m' : hkdf_collision s l l' -> (exists r, run_chain s l = Ok r) -> (exists r, run_chain s l' = Ok r) ->
  hkdf_collision s (l ++ m) (l' ++ m').
Proof.
  intros (a & i & n & a' & i' & n' & out & H1 & H2 & Hc) [r Hr] [r' Hr']. exists a, i, n, a', i', n', out.
  rewrite (chain_queries_app _ _ _ _ Hr), (chain_queries_app _ _ _ _ Hr'). split; [|split; [|done]]; apply elem_of_app; by left.
Qed.

Lemma kdf_label_inj l c n l' c' n' :
  kstep_ok (l, c, n) -> kstep_ok (l', c', n') -> kdf_label l c n = kdf_label l' c' n' -> (l, c, n) = (l', c', n').
Proof.
  intros (Hl & Hc & Hn) (Hl' & Hc' & Hn') E. cbn in *. unfold kdf_label in E.
  apply app_inj_len in E as [E1 E]; [|by rewrite !length_be_bytes].
  apply be_bytes_inj in E1; [|change (256 ^ Z.of_nat 2) with (2 ^ 16); lia..]. subst.
  rewrite <- (app_nil_r (put_opaque c)), <- (app_nil_r (put_opaque c')) in E. by apply labelled_inj in E as (-> & -> & _).
Qed.

(** The last step of two chains that end in one secret. *)
Lemma chain_last s l l' x x' out :
  kstep_ok x -> kstep_ok x' -> run_chain s (l ++ [x]) = Ok out -> run_chain s (l' ++ [x']) = Ok out ->
  (x = x' /\ exists r, run_chain s l = Ok r /\ run_chain s l' = Ok r) \/ hkdf_collision s (l ++ [x]) (l' ++ [x']).
Proof.
  intros Hx Hx' E E'. rewrite run_chain_app in E, E'. apply rbind_Ok in E as (r & Er & E), E' as (r' & Er' & E').
  destruct x as [[lab ctx] n], x' as [[lab' ctx'] n']. cbn in E, E'.
  apply rbind_Ok in E as (o & E%ok_or_Ok & [= ->]), E' as (o & E'%ok_or_Ok & [= ->]).
  destruct (decide ((r, kdf_label lab ctx n, n) = (r', kdf_label lab' ctx' n', n'))) as [Eq|Hn].
  - left. apply pair_equal_spec in Eq as [[-> Ek]%pair_equal_spec ->]. apply kdf_label_inj in Ek; [|done..].
    split; [done|]. by exists r'.
  - right. do 7 eexists. rewrite (chain_queries_app _ _ _ _ Er), (chain_queries_app _ _ _ _ Er').
    split; [apply elem_of_app; right; apply list_elem_of_here|]. split; [apply elem_of_app; right; apply list_elem_of_here|]. done.
Qed.

Lemma chain_inj s l l' out :
  length l = length l' -> Forall kstep_ok l -> Forall kstep_ok l' ->
  run_chain s l = Ok out -> run_chain s l' = Ok out -> l = l' \/ hkdf_collision s l l'.
Proof.
  revert l' out. induction l as [|x l IH] using rev_ind; intros l' out Hlen Hl Hl' E E'.
  - left. by destruct l'.
  - destruct l' as [|x' l' _] using rev_ind; [rewrite length_app in Hlen; cbn in Hlen; lia|].
    rewrite !length_app in Hlen. cbn in Hlen. apply Forall_app in Hl as [Hl [Hx _]%Forall_cons], Hl' as [Hl' [Hx' _]%Forall_cons].
    destruct (chain_last s l l' x x' out Hx Hx' E E') as [(-> & r & Er & Er')|?]; [|by right].
    destruct (IH l' r ltac:(lia) Hl Hl' Er Er') as [->|?]; [by left|right]. apply collision_app; eauto.
Qed.

(** *** Every leaf's path *)

Definition turn (right : bool) : kstep := ("tree", bstr (if right then "right" else "left"), NH).
#[local] Instance turn_inj : Inj (=) (=) turn.
Proof. intros [] []; (done || discriminate). Qed.
Definition leaf_chain (n leaf : Z) : list kstep := turn <$> bits (Z.to_nat (height n)) leaf.
Definition ratchet_chain (j : Z) (n : nat) : list kstep := (fun j => ("secret", be_bytes 4 j, NH)) <$> seqZ j (Z.of_nat n).
(** All the derivations from the epoch's secret to a message key. *)
Definition message_chain (n leaf : Z) (which : string) (generation : Z) : list kstep :=
  leaf_chain n leaf ++ [(which, [], NH)] ++ ratchet_chain 0 (Z.to_nat generation) ++ [("key", be_bytes 4 generation, NK)].

Lemma descend_path k fuel m leaf s :
  Z.of_nat k < 32 -> (k < fuel)%nat -> 0 <= m -> m * 2 ^ Z.of_nat k <= leaf < (m + 1) * 2 ^ Z.of_nat k ->
  descend fuel (2 * leaf) (at_node (Z.of_nat k) m) s = run_chain s (turn <$> bits k leaf).
Proof.
  revert fuel m s. induction k as [|k IH]; intros fuel m s Hk Hf Hm Hl; (destruct fuel as [|fuel]; [lia|]); cbn [descend];
    rewrite level_at by lia; cbn [rbind]; [done|].
  rewrite decide_True by lia. cbn [bits fmap list_fmap run_chain turn].
  assert (0 < 2 ^ Z.of_nat k) as Hp by (apply Z.pow_pos_nonneg; lia).
  rewrite Nat2Z.inj_succ, Z.pow_succ_r in Hl by lia.
  pose proof (at_node_eq (Z.of_nat (S k)) m ltac:(lia) Hm) as En.
  rewrite Z.pow_add_r, Nat2Z.inj_succ, Z.pow_succ_r in En by lia. change (2 ^ 1) with 2 in En.
  replace (Z.succ (Z.of_nat k)) with (Z.of_nat (S k)) in En by lia.
  assert (Z.testbit leaf (Z.of_nat k) = bool_decide ((2 * m + 1) * 2 ^ Z.of_nat k <= leaf)) as ->.
  { rewrite Z.testbit_odd, Z.shiftr_div_pow2 by lia. case_bool_decide.
    - replace (leaf / 2 ^ Z.of_nat k) with (1 + 2 * m); [by rewrite Z.odd_add_mul_2|].
      apply Z.div_unique with (leaf - (2 * m + 1) * 2 ^ Z.of_nat k); lia.
    - replace (leaf / 2 ^ Z.of_nat k) with (0 + 2 * m); [by rewrite Z.odd_add_mul_2|].
      apply Z.div_unique with (leaf - 2 * m * 2 ^ Z.of_nat k); lia. }
  case_bool_decide; [rewrite decide_False by lia|rewrite decide_True by lia];
    (destruct (expand_with_label s "tree" _ NH) as [s'|]; cbn [rbind]; [|done]);
    [rewrite right_at by lia|rewrite left_at by lia]; cbn [rbind]; replace (Z.of_nat (S k) - 1) with (Z.of_nat k) by lia; apply IH; lia.
Qed.

Lemma leaf_secret_chain s n leaf : leaves_ok n -> 0 <= leaf < 2 ^ height n -> leaf_secret s n leaf = run_chain s (leaf_chain n leaf).
Proof.
  intros Hn Hl. pose proof (height_spec n Hn) as [Hh _]. unfold leaf_secret. rewrite root_at by done. cbn [rbind].
  assert (2 ^ height n <= 2 ^ 30) by (apply Z.pow_le_mono_r; lia).
  rewrite u32_wrap_small by (unfold is_u32; lia). rewrite <- (Z2Nat.id (height n)) at 1 by lia.
  apply descend_path; [lia|unfold SHIFT_FUEL; lia|lia|]. rewrite Z2Nat.id by lia. lia.
Qed.

Lemma ratchet_on_chain k j s : ratchet_on k j s = run_chain s (ratchet_chain j k).
Proof.
  revert j s. induction k as [|k IH]; intros j s; [done|]. unfold ratchet_chain. rewrite seqZ_cons by lia. cbn [ratchet_on fmap list_fmap run_chain].
  unfold derive_tree_secret. destruct (expand_with_label _ _ _ _); cbn [rbind]; [|done]. rewrite IH. unfold ratchet_chain.
  by replace (Z.pred (Z.of_nat (S k))) with (Z.of_nat k) by lia.
Qed.

(** The key for one message: [ratchet_key] at a leaf of the epoch's tree. *)
Definition message_key (encryption_secret : bytes) (n leaf : Z) (which : string) (generation : Z) : tree_result KeyNonce :=
  let* s := leaf_secret encryption_secret n leaf in ratchet_key s which generation.

Lemma message_key_chain s n leaf which g kn :
  leaves_ok n -> 0 <= leaf < 2 ^ height n -> message_key s n leaf which g = Ok kn -> run_chain s (message_chain n leaf which g) = Ok (kn_key kn).
Proof.
  intros Hn Hl H. unfold message_key in H. rewrite leaf_secret_chain in H by done. apply rbind_Ok in H as (r & Er & H).
  unfold ratchet_key in H. apply rbind_Ok in H as (r1 & E1 & H). apply rbind_Ok in H as (r2 & E2 & H).
  apply rbind_Ok in H as (key & Ek & H). apply rbind_Ok in H as (nonce & _ & [= <-]). cbn [kn_key].
  unfold message_chain. rewrite run_chain_app, Er. cbn [rbind app run_chain]. rewrite E1. cbn [rbind].
  rewrite run_chain_app, <- ratchet_on_chain, E2. cbn [rbind run_chain]. unfold derive_tree_secret in Ek. rewrite Ek. done.
Qed.

Lemma height_covers n leaf : leaves_ok n -> leaf < n -> leaf < 2 ^ height n.
Proof.
  intros Hn Hl. pose proof (height_spec n Hn) as [Hh [_ Hu]]. rewrite Z.pow_add_r in Hu by lia. change (2 ^ 1) with 2 in Hu.
  destruct (decide (2 ^ height n <= leaf)) as [Hd|]; lia.
Qed.

Lemma small_step l c n : fits (bstr l) -> zlen c <= 8 -> 0 <= n <= 32 -> zlen (bstr l) < 2 ^ 60 -> kstep_ok (l, c, n).
Proof.
  intros Hl Hc Hn Hs. split; [|split]; cbn; [|unfold fits; lia|lia]. unfold label_fits, fits, full_label. rewrite zlen_app.
  change (zlen (bstr "MLS 1.0 ")) with 8. lia.
Qed.

Lemma message_chain_ok n leaf which g : zlen (bstr which) < 2 ^ 60 -> Forall kstep_ok (message_chain n leaf which g).
Proof.
  intros Hw. assert (forall l c k, bool_decide (zlen (bstr l) < 2 ^ 10) = true -> zlen c <= 8 -> 0 <= k <= 32 -> kstep_ok (l, c, k)) as Hs.
  { intros l c k Hb%bool_decide_eq_true Hc Hk. apply small_step; unfold fits; lia. }
  unfold message_chain, leaf_chain, ratchet_chain, NH, NK. repeat apply Forall_app_2.
  - apply Forall_fmap, Forall_true. intros []; by apply Hs.
  - apply Forall_singleton. apply small_step; unfold fits; [lia|done|lia|lia].
  - apply Forall_fmap, Forall_true. intros j. cbn. apply Hs; [done|rewrite zlen_be_bytes; lia|lia].
  - apply Forall_singleton. apply Hs; [done|rewrite zlen_be_bytes; lia|lia].
Qed.

Lemma message_chain_length n leaf leaf' which which' g :
  length (message_chain n leaf which g) = length (message_chain n leaf' which' g).
Proof. unfold message_chain, leaf_chain. by rewrite !length_app, !length_fmap, !length_bits. Qed.

(** C21: no two messages of an epoch are encrypted under one key.  In a group of up
    to [2^30] leaves, if two message keys of one epoch are equal then they are of the
    same leaf, the same kind of message and the same generation, unless on the way
    to these two keys HKDF itself gave one output for two different inputs. *)
Theorem message_keys_distinct (s : bytes) (n leaf leaf' : Z) (which which' : string) (g g' : Z) (kn kn' : KeyNonce) :
  leaves_ok n -> 0 <= leaf < n -> 0 <= leaf' < n -> is_u32 g -> is_u32 g' ->
  zlen (bstr which) < 2 ^ 60 -> zlen (bstr which') < 2 ^ 60 ->
  message_key s n leaf which g = Ok kn -> message_key s n leaf' which' g' = Ok kn' -> kn_key kn = kn_key kn' ->
  (leaf = leaf' /\ which = which' /\ g = g')
  \/ hkdf_collision s (message_chain n leaf which g) (message_chain n leaf' which' g').
Proof.
  intros Hn Hl Hl' Hg Hg' Hw Hw' E E' Ek. pose proof (height_covers n leaf Hn ltac:(lia)). pose proof (height_covers n leaf' Hn ltac:(lia)).
  apply message_key_chain in E, E'; [|done || lia..]. rewrite <- Ek in E'.
  pose proof (message_chain_ok n leaf which g Hw) as Ho. pose proof (message_chain_ok n leaf' which' g' Hw') as Ho'.
  assert (g = g' \/ hkdf_collision s (message_chain n leaf which g) (message_chain n leaf' which' g')) as [<-|?]; [|..|by right].
  { unfold message_chain in *. rewrite !(assoc (++)) in *. apply Forall_app in Ho as [_ [Ho _]%Forall_cons], Ho' as [_ [Ho' _]%Forall_cons].
    destruct (chain_last _ _ _ _ _ _ Ho Ho' E E') as [[Ex _]|?]; [left|by right]. apply pair_equal_spec in Ex as [[_ Ex]%pair_equal_spec _].
    apply (be_bytes_4_inj g g' [] []); [done|done|by rewrite Ex]. }
  destruct (chain_inj s _ _ _ (message_chain_length n leaf leaf' which which' g) Ho Ho' E E') as [Eq|?]; [left|by right].
  unfold message_chain in Eq. apply app_inj_len in Eq as [Eb Eq]; [|unfold leaf_chain; by rewrite !length_fmap, !length_bits].
  apply cons_eq_inj in Eq as [Ew _]. injection Ew as ->. split; [|done]. unfold leaf_chain in Eb.
  apply (inj (fmap turn)) in Eb. apply bits_inj in Eb; [done|rewrite Z2Nat.id; [lia|by apply height_spec]..].
Qed.

(** A leaf beyond the tree is not refused: it gets the secret of the last one. *)
Lemma leaf_outside s : leaf_secret s 2 5 = leaf_secret s 2 1.
Proof. reflexivity. Qed.

End Schedule.

(** ** Labelled encryption (hpke.rs) and signatures (sign.rs) *)

Section Labelled.
Context {P : Primitives}.

Record HpkeKeyPair : Type := mkHpkeKeyPair { hk_dk : kem_dk; hk_public : bytes }.

Definition hpke_generate (c : coins) : HpkeKeyPair := let '(dk, ek) := kem_generate c in mkHpkeKeyPair dk ek.

Definition hpke_derive (ss info : bytes) : bytes * bytes :=
  let okm := mac_kdf ss info (bstr "talkrypt-mls-hpke") 44 in (take 32 okm, drop 32 okm).

Definition encrypt_with_label (c : coins) (public : bytes) (label : string) (context plaintext : bytes) : result CryptoError bytes :=
  if decide (length public <> kem_ek_len) then Err (Malformed "ml-kem encapsulation key length")
  else
    let* (kem_ct, ss) := ok_or (kem_encapsulate public c) (Malformed "ml-kem encapsulation failed") in
    let info := labeled_content label context in
    let '(key, nonce) := hpke_derive ss info in
    let* aead_ct := aead_seal key nonce plaintext info in
    Ok (w_new |> put_bytes kem_ct |> put_bytes aead_ct |> into_vec).

Definition hpke_read : Get CryptoError (bytes * bytes) :=
  get* kem_ct := q get_vec in get* aead_ct := q get_vec in gret (kem_ct, aead_ct).

Definition decrypt_with_label (k : HpkeKeyPair) (label : string) (context blob : bytes) : result CryptoError bytes :=
  let* (kem_ct, aead_ct) := run_get (strict hpke_read) blob in
  if decide (length kem_ct <> kem_ct_len) then Err (Malformed "ml-kem ciphertext length")
  else
    let* ss := ok_or (kem_decapsulate (hk_dk k) kem_ct) DecryptionFailed in
    let info := labeled_content label context in
    let '(key, nonce) := hpke_derive ss info in
    aead_open key nonce aead_ct info.

(** [seed] is the signer's 32 bytes. *)
Record MlsSigner : Type := mkMlsSigner { ms_seed : bytes }.
Definition mls_verifying_key (s : MlsSigner) : bytes := mldsa_vk (ms_seed s).
Definition sign_with_label (s : MlsSigner) (label : string) (content : bytes) : bytes :=
  mldsa_sign (ms_seed s) (labeled_content label content).
Definition verify_with_label (vk : bytes) (label : string) (content signature : bytes) : result CryptoError unit :=
  if decide (length vk <> mldsa_vk_len) then Err (Malformed "ml-dsa verifying key length")
  else if decide (length signature <> mldsa_sig_len) then Err (Malformed "ml-dsa signature length")
  else if mldsa_verify vk (labeled_content label content) signature then Ok tt else Err BadSignature.

Definition hpke_bytes (x : bytes * bytes) : bytes := enc_bytes x.1 ++ enc_bytes x.2.

#[local] Instance codec_hpke : Codec hpke_read hpke_bytes (fun x => short x.1 /\ short x.2).
Proof.
  eapply (codec_con2 _ _ pair); [apply codec_vec|apply codec_vec|done|]. intros [a b]. naive_solver.
Qed.

(** [ct] holds [pt] under the label and context, for the shared secret [ss]. *)
Definition hpke_seals (ss : bytes) (label : string) (context pt ct : bytes) : Prop :=
  let info := labeled_content label context in aead_seal (hpke_derive ss info).1 (hpke_derive ss info).2 pt info = Ok ct.

Section Ok.
Context {OK : PrimitivesOk P}.

Lemma hpke_derive_len ss info : length (hpke_derive ss info).1 = KEY_LEN.
Proof. unfold hpke_derive. cbn [fst]. by rewrite length_take, mac_kdf_len. Qed.

(** Opening is sealing read backwards. *)
Lemma decrypt_seals k label context kem_ct ct ss pt :
  short kem_ct -> short ct -> zlen (hpke_bytes (kem_ct, ct)) <= usize_max -> length kem_ct = kem_ct_len ->
  kem_decapsulate (hk_dk k) kem_ct = Some ss ->
  decrypt_with_label k label context (hpke_bytes (kem_ct, ct)) = Ok pt <-> hpke_seals ss label context pt ct.
Proof.
  intros Hk Hc Hb Hl Hd. unfold decrypt_with_label, hpke_seals.
  rewrite (proj2 (codec_exact hpke_read hpke_bytes _ _ (kem_ct, ct) codec_hpke Hb)) by done. cbn [rbind].
  rewrite decide_False by (intros H; by apply H). rewrite Hd. cbn [ok_or rbind].
  destruct (hpke_derive ss (labeled_content label context)) as [key nonce]. cbn [fst snd].
  split; [apply aead_seal_open|apply aead_open_seal].
Qed.

Lemma encrypt_opens_raw g c label context pt :
  zlen pt + 16 <= MAX_FRAME -> zlen (labeled_content label context) <= 2 ^ 32 ->
  exists kem_ct ss ct, kem_encapsulate (hk_public (hpke_generate g)) c = Some (kem_ct, ss) /\ hpke_seals ss label context pt ct /\
    encrypt_with_label c (hk_public (hpke_generate g)) label context pt = Ok (hpke_bytes (kem_ct, ct)) /\
    forall l x p, decrypt_with_label (hpke_generate g) l x (hpke_bytes (kem_ct, ct)) = Ok p <-> hpke_seals ss l x p ct.
Proof.
  intros Hp Hi. pose proof (kem_generate_ek_len g) as Hek. pose proof (kem_correct_gen g c) as Hcor.
  unfold hpke_generate, encrypt_with_label. destruct (kem_generate g) as [dk ek]. cbn [fst snd hk_public] in *.
  destruct (kem_encapsulate_total ek c Hek) as (kem_ct & ss & Ee & Hkl & Hsl). specialize (Hcor _ _ Ee).
  destruct (aead_seal_total (hpke_derive ss (labeled_content label context)).1 (hpke_derive ss (labeled_content label context)).2 pt
    (labeled_content label context)) as (ct & Es & Hct); [apply hpke_derive_len|unfold MAX_FRAME in Hp; lia|done|].
  assert (short kem_ct /\ short ct) as [Hk Hc].
  { pose proof (proj2 kem_lens). unfold short, MAX_FRAME in *. unfold zlen at 1. rewrite Hkl. lia. }
  assert (zlen (hpke_bytes (kem_ct, ct)) <= usize_max) as Hu.
  { unfold hpke_bytes, short, MAX_FRAME, usize_max in *. cbn [fst snd]. rewrite zlen_app, !zlen_enc_bytes. lia. }
  exists kem_ct, ss, ct. split; [done|]. split; [done|]. split; [|intros; by apply decrypt_seals].
  rewrite decide_False by (intros H; by apply H). rewrite Ee. cbn [ok_or rbind].
  destruct (hpke_derive ss (labeled_content label context)) as [key nonce]. cbn [fst snd] in Es. rewrite Es. cbn [rbind].
  f_equal. unfold hpke_bytes. by wire_norm.
Qed.

Lemma encrypt_opens g c label context pt :
  zlen pt + 16 <= MAX_FRAME -> zlen (labeled_content label context) <= 2 ^ 32 ->
  exists blob, encrypt_with_label c (hk_public (hpke_generate g)) label context pt = Ok blob /\
    decrypt_with_label (hpke_generate g) label context blob = Ok pt.
Proof.
  intros Hp Hi. destruct (encrypt_opens_raw g c label context pt Hp Hi) as (k & ss & ct & _ & Hs & He & Hd).
  eexists. split; [exact He|]. by apply Hd.
Qed.

(** Labelled encryption.  What is sealed to a key pair's public key opens with
    the pair, under the same label and context, to the same plaintext.  It opens
    under no other label and context, unless the very same AEAD ciphertext is also
    a sealing under the other, different associated data. *)
Lemma hpke_opens_as_sealed (g c : coins) (label : string) (context pt : bytes) :
  zlen pt + 16 <= MAX_FRAME -> zlen (labeled_content label context) <= 2 ^ 32 ->
  exists kem_ct ss ct, kem_encapsulate (hk_public (hpke_generate g)) c = Some (kem_ct, ss) /\ hpke_seals ss label context pt ct /\
    encrypt_with_label c (hk_public (hpke_generate g)) label context pt = Ok (hpke_bytes (kem_ct, ct)) /\
    decrypt_with_label (hpke_generate g) label context (hpke_bytes (kem_ct, ct)) = Ok pt /\
    forall label' context' pt', label_fits label -> label_fits label' -> fits context -> fits context' ->
      decrypt_with_label (hpke_generate g) label' context' (hpke_bytes (kem_ct, ct)) = Ok pt' ->
      (label' = label /\ context' = context /\ pt' = pt)
      \/ (labeled_content label' context' <> labeled_content label context /\ hpke_seals ss label' context' pt' ct).
Proof.
  intros Hp Hi. destruct (encrypt_opens_raw g c label context pt Hp Hi) as (kem_ct & ss & ct & Ek & Hs & He & Hopen).
  exists kem_ct, ss, ct. split; [done|]. split; [done|]. split; [done|]. split; [by apply Hopen|].
  intros l x p Hl Hl' Hx Hx' Hd. destruct (decide (labeled_content l x = labeled_content label context)) as [E|]; [|right; by rewrite <- Hopen].
  apply labeled_content_inj in E as [-> ->]; [|done..]. left. rewrite (proj2 (Hopen label context pt)) in Hd by done. by injection Hd.
Qed.

(** A labelled signature verifies under its label; and where verification binds the
    message, under no other. *)
Lemma signed_verifies s label content : verify_with_label (mls_verifying_key s) label content (sign_with_label s label content) = Ok tt.
Proof.
  unfold verify_with_label, mls_verifying_key, sign_with_label.
  rewrite decide_False by (rewrite mldsa_vk_length; lia). rewrite decide_False by (rewrite mldsa_sign_length; lia).
  by rewrite mldsa_correct.
Qed.

Lemma verified_as_signed s label content label' content' :
  label_fits label -> label_fits label' -> fits content -> fits content' ->
  (forall m, mldsa_verify (mldsa_vk (ms_seed s)) m (sign_with_label s label content) = true -> m = labeled_content label content) ->
  verify_with_label (mls_verifying_key s) label' content' (sign_with_label s label content) = Ok tt -> label' = label /\ content' = content.
Proof.
  intros Hl Hl' Hc Hc' Hu H. unfold verify_with_label, mls_verifying_key in H. repeat (case_decide; [done|]).
  destruct (mldsa_verify _ _ _) eqn:E; [|done]. apply Hu in E. by apply labeled_content_inj in E.
Qed.

End Ok.
End Labelled.

(** ** Examples *)

(** A small expander: the secret's first bytes moved by the label's length. *)
Definition toy_expand (secret info : bytes) (n : Z) : option bytes :=
  if decide (zlen secret < 2) then None else Some (take 4 (byte_of (zlen info) :: reverse info ++ secret)).

Lemma message_keys_distinct_witness :
  exists kn, message_key toy_expand (bstr "seed") 5 3 "handshake" 2 = Ok kn /\
  ((3 = 3 /\ "handshake" = "handshake" /\ 2 = 2) \/
   hkdf_collision toy_expand (bstr "seed") (message_chain 5 3 "handshake" 2) (message_chain 5 3 "handshake" 2)).
Proof.
  destruct (message_key toy_expand (bstr "seed") 5 3 "handshake" 2) as [kn|] eqn:E; [|exfalso; revert E; by vm_compute].
  exists kn. split; [reflexivity|].
  apply (message_keys_distinct toy_expand (bstr "seed") 5 3 3 "handshake" "handshake" 2 2 kn kn);
    unfold leaves_ok, is_u32; (lia || exact E || by vm_compute).
Defined.

Lemma hpke_opens_as_sealed_witness :
  exists blob, encrypt_with_label (P := toy) 1%nat (hk_public (hpke_generate (P := toy) 2%nat)) "Welcome" (bstr "ctx") (bstr "pt") = Ok blob /\
    decrypt_with_label (hpke_generate (P := toy) 2%nat) "Welcome" (bstr "ctx") blob = Ok (bstr "pt").
Proof.
  destruct (hpke_opens_as_sealed (P := toy) 2%nat 1%nat "Welcome" (bstr "ctx") (bstr "pt")) as (k & ss & ct & _ & _ & He & Hd & _).
  - by vm_compute.
  - by vm_compute.
  - exists (hpke_bytes (k, ct)). split; [exact He|exact Hd].
Defined.
