(* ===== verification/Advert.v ===== *)
(** * Beacons and advertisements (crates/crypto/src/beacon.rs, crates/core/src/advert.rs)

    The always-encrypted announcement of a chat's crypto scheme: its wire form,
    the broadcast form under a key derived from the chat root, the form for one
    recipient, and the store a directory host keeps.  Proved: what a host
    publishes opens for every holder of the invite and names the chat's scheme,
    and a directory host stores and serves it unchanged. *)

From S2P Require Import Prelude Wire Crypto Toy Marking Frames Hybrid Suite Codec B32 Presence Vouch Relay Invite MlsKeys.

(** ** Beacons *)

Definition BEACON_AAD : bytes := bstr "talkrypt/v1/beacon".
Definition BEACON_KEY_LABEL : bytes := bstr "talkrypt/v1/beacon-key".
Definition BEACON_HPKE_LABEL : string := "talkrypt-beacon".
Definition SCHEME_HASH_LEN : nat := 32.

Inductive BeaconBody : Type :=
| BFingerprint (h : bytes)
| BFull (suite_id params : bytes).

Definition beacon_is_full (b : BeaconBody) : bool := match b with BFull _ _ => true | BFingerprint _ => false end.

Definition beacon_encode (b : BeaconBody) : bytes :=
  match b with
  | BFingerprint h => w_new |> put_u8 0 |> put_bytes h |> into_vec
  | BFull suite_id params => w_new |> put_u8 1 |> put_bytes suite_id |> put_bytes params |> into_vec
  end.

Definition beacon_read : Get CryptoError BeaconBody :=
  get* tag := q get_u8 in
  if decide (tag = 0) then
    get* h := sized SCHEME_HASH_LEN (Malformed "beacon fingerprint length") in gret (BFingerprint h)
  else if decide (tag = 1) then
    get* id := text (Malformed "beacon suite id utf-8") in get* params := q get_vec in gret (BFull id params)
  else gfail (Malformed "beacon body tag").

Definition beacon_decode (b : bytes) : result CryptoError BeaconBody := run_get (strict beacon_read) b.

Definition beacon_ok (b : BeaconBody) : Prop :=
  match b with BFingerprint h => length h = SCHEME_HASH_LEN | BFull id params => str_ok id /\ short params end.

Definition beacon_tag (b : BeaconBody) : Z := match b with BFingerprint _ => 0 | BFull _ _ => 1 end.
Definition beacon_fields (b : BeaconBody) : bytes :=
  match b with BFingerprint h => enc_bytes h | BFull id params => enc_bytes id ++ enc_bytes params end.

Lemma beacon_encode_norm b : beacon_encode b = [byte_of (beacon_tag b)] ++ beacon_fields b.
Proof. destruct b; unfold beacon_encode, beacon_fields; by wire_norm. Qed.

#[local] Instance codec_beacon : Codec beacon_read (fun b => [byte_of (beacon_tag b)] ++ beacon_fields b) beacon_ok.
Proof.
  apply (codec_tagged beacon_tag); [intros [] _; by vm_compute|]. intros t. case_decide; [|case_decide]; subst.
  - eapply (codec_con _ BFingerprint); [apply codec_sized; by vm_compute|done|]. intros []; cbn; naive_solver.
  - eapply (codec_con2 _ _ BFull); [apply codec_text|apply codec_vec|done|]. intros []; cbn; naive_solver.
  - apply codec_fail. intros []; cbn; naive_solver.
Qed.

Lemma beacon_decode_exact b x : zlen b <= usize_max -> beacon_decode b = Ok x <-> beacon_ok x /\ b = beacon_encode x.
Proof. intros Hb. rewrite beacon_encode_norm. apply (codec_exact _ _ _ _ _ codec_beacon Hb). Qed.

Lemma beacon_size x : beacon_ok x -> zlen (beacon_encode x) <= 2 * MAX_FRAME + 9.
Proof.
  rewrite beacon_encode_norm, zlen_app, zlen_cons, zlen_nil. destruct x as [h|id params]; cbn [beacon_ok beacon_fields].
  - intros Hl. rewrite zlen_enc_bytes. unfold zlen. rewrite Hl. by vm_compute.
  - intros [[_ Hi] Hp]. unfold short in Hp. rewrite zlen_app, !zlen_enc_bytes. lia.
Qed.

Section Sealed.
Context {P : Primitives}.

Definition beacon_key (root : bytes) : bytes := mac_kdf root [] BEACON_KEY_LABEL KEY_LEN.

Definition seal_broadcast (c : coins) (root : bytes) (body : BeaconBody) : result CryptoError bytes :=
  let key := beacon_key root in
  let nonce := random_bytes c NONCE_LEN in
  let* ct := aead_seal key nonce (beacon_encode body) BEACON_AAD in
  Ok (nonce ++ ct).

Definition open_broadcast (root blob : bytes) : result CryptoError BeaconBody :=
  if decide (zlen blob < Z.of_nat NONCE_LEN) then Err (Malformed "beacon too short")
  else
    let key := beacon_key root in
    let nonce := take NONCE_LEN blob in let ct := drop NONCE_LEN blob in
    let* pt := aead_open key nonce ct BEACON_AAD in
    beacon_decode pt.

Definition seal_to_recipient (c : coins) (recipient_public : bytes) (body : BeaconBody) : result CryptoError bytes :=
  encrypt_with_label c recipient_public BEACON_HPKE_LABEL BEACON_AAD (beacon_encode body).
Definition open_to_recipient (kp : HpkeKeyPair) (blob : bytes) : result CryptoError BeaconBody :=
  let* pt := decrypt_with_label kp BEACON_HPKE_LABEL BEACON_AAD blob in beacon_decode pt.

Section Ok.
Context {OK : PrimitivesOk P}.

Lemma broadcast_opens c root body :
  beacon_ok body -> exists blob, seal_broadcast c root body = Ok blob /\ open_broadcast root blob = Ok body.
Proof.
  intros Hb. pose proof (beacon_size body Hb) as Hs. unfold MAX_FRAME in Hs. unfold seal_broadcast, open_broadcast.
  destruct (aead_seal_total (beacon_key root) (random_bytes c NONCE_LEN) (beacon_encode body) BEACON_AAD) as (ct & E & _);
    [apply mac_kdf_len|lia|by vm_compute|].
  exists (random_bytes c NONCE_LEN ++ ct). rewrite E. cbn [rbind]. split; [done|].
  pose proof (random_bytes_len c NONCE_LEN) as Hn.
  rewrite decide_False by (rewrite zlen_app; pose proof (zlen_nonneg ct); unfold zlen at 1; rewrite Hn; lia).
  rewrite take_app_length', drop_app_length' by done. rewrite (aead_open_seal _ _ _ _ _ E). cbn [rbind].
  apply beacon_decode_exact; [unfold usize_max; lia|done].
Qed.

(** A beacon for one recipient opens with the recipient's key pair. *)
Lemma recipient_opens g c body :
  beacon_ok body -> zlen (beacon_encode body) + 16 <= MAX_FRAME ->
  exists blob, seal_to_recipient c (hk_public (hpke_generate g)) body = Ok blob /\ open_to_recipient (hpke_generate g) blob = Ok body.
Proof.
  intros Hb Hs. unfold seal_to_recipient, open_to_recipient.
  destruct (encrypt_opens g c BEACON_HPKE_LABEL BEACON_AAD (beacon_encode body) Hs) as (blob & E & D); [by vm_compute|].
  exists blob. split; [done|]. rewrite D. cbn [rbind]. apply beacon_decode_exact; [unfold usize_max, MAX_FRAME in *; lia|done].
Qed.

End Ok.
End Sealed.

(** ** Advertisements *)

Inductive AdvertisePolicy : Type := AdvOff | AdvFingerprint | AdvFull.
#[export] Instance advertise_policy_eq_dec : EqDecision AdvertisePolicy.
Proof. solve_decision. Defined.

Definition adv_is_on (p : AdvertisePolicy) : bool := match p with AdvOff => false | _ => true end.

Section Adverts.
Context {P : Primitives} `{Build} (sha3_256 : bytes -> bytes) (argon2id : bytes -> bytes -> option bytes).

Definition beacon_fingerprint (b : BeaconBody) : bytes :=
  match b with
  | BFingerprint h => h
  | BFull suite_id params => scheme_hash sha3_256 (String.string_of_list_byte suite_id) params
  end.

(** The outer [option] is the panic of [derive_root]. *)
Definition build_advertisement (c : coins) (desc : ChatDescriptor) (policy : AdvertisePolicy)
  : option (result CoreError (option bytes)) :=
  match
    match policy with
    | AdvOff => None
    | AdvFingerprint => Some (BFingerprint (descriptor_scheme_hash sha3_256 desc))
    | AdvFull => Some (BFull (resolved_suite_id desc) (cd_suite_params desc))
    end with
  | None => Some (Ok None)
  | Some body =>
      (fun root => let* blob := map_err CCrypto (seal_broadcast c root body) in Ok (Some blob)) <$> derive_root argon2id desc
  end.

Definition open_advertisement (desc : ChatDescriptor) (blob : bytes) : option (result CoreError BeaconBody) :=
  (fun root => map_err CCrypto (open_broadcast root blob)) <$> derive_root argon2id desc.

(** The store: a channel name to the last blob put under it. *)
Record AdvertStore : Type := mkAdvertStore { as_map : gmap bytes bytes }.
Definition as_new : AdvertStore := mkAdvertStore ∅.
Definition as_put (channel blob : bytes) (s : AdvertStore) : AdvertStore := mkAdvertStore (<[channel := blob]> (as_map s)).
Definition as_get (channel : bytes) (s : AdvertStore) : option bytes := as_map s !! channel.
Definition as_len (s : AdvertStore) : Z := Z.of_nat (size (as_map s)).

Lemma default_suite_ok : str_ok (bstr DEFAULT_SUITE_ID).
Proof. unfold str_ok, DEFAULT_SUITE_ID, HASH_TOKEN. destruct cnsa_sha2, fips; by vm_compute. Qed.

Lemma resolved_ok d : str_ok (cd_suite_id d) -> str_ok (resolved_suite_id d).
Proof. unfold resolved_suite_id. case_decide; [intros _; apply default_suite_ok|done]. Qed.

Context {OK : PrimitivesOk P}.

Lemma as_get_later channel blob s later :
  Forall (fun x => x.1 <> channel) later ->
  as_get channel (foldl (fun s x => as_put x.1 x.2 s) (as_put channel blob s) later) = Some blob.
Proof.
  intros Hl. assert (as_get channel (as_put channel blob s) = Some blob) as H1 by apply lookup_insert_eq. revert H1.
  generalize (as_put channel blob s) as t. induction Hl as [|[ch b] l Hx _ IH]; intros t Ht; cbn; [done|].
  apply IH. cbn in Hx. unfold as_get, as_put. cbn. by rewrite lookup_insert_ne.
Qed.

(** An advertisement reaches the holders of the invite.  Whatever the policy that is
    on, a host with a well-formed descriptor publishes a blob; a directory host that
    has stored it under the channel, and others under other channels, serves that
    blob; and whoever parses the invite, and has the password where there is one,
    opens it to a beacon of the chat's scheme, a full definition exactly when the
    policy says so. *)
Lemma advert_reaches_holders (c : coins) (d d' : ChatDescriptor) (policy : AdvertisePolicy) (root : bytes)
    (s : AdvertStore) (later : list (bytes * bytes)) :
  (forall m, length (sha3_256 m) = SCHEME_HASH_LEN) ->
  adv_is_on policy = true -> derive_root argon2id d = Some root ->
  descriptor_ok (as_shared d) -> zlen (encode_bytes d) <= usize_max -> cd_require_anon d = false \/ cd_version d = 7 ->
  from_uri (to_uri d) = Ok d' -> Forall (fun x => x.1 <> cd_channel d) later ->
  exists blob body, build_advertisement c d policy = Some (Ok (Some blob)) /\
    as_get (cd_channel d') (foldl (fun s x => as_put x.1 x.2 s) (as_put (cd_channel d) blob s) later) = Some blob /\
    open_advertisement (with_password (cd_password d) d') blob = Some (Ok body) /\
    beacon_fingerprint body = descriptor_scheme_hash sha3_256 d /\
    beacon_is_full body = bool_decide (policy = AdvFull).
Proof.
  intros Hsha Hon Hr Hok Hl Hv Hu Hlater. destruct (joiner_root sha3_256 argon2id d d' Hu Hok Hl Hv) as [Hroot _].
  apply from_own_uri in Hu as Hd; [|done..]. pose proof (resolved_ok d (do_suite _ Hok)) as Hres.
  pose proof (do_params _ Hok) as Hpar.
  assert (forall body, beacon_ok body -> exists blob, seal_broadcast c root body = Ok blob /\
    as_get (cd_channel d') (foldl (fun s x => as_put x.1 x.2 s) (as_put (cd_channel d) blob s) later) = Some blob /\
    open_advertisement (with_password (cd_password d) d') blob = Some (Ok body)) as Hsealed.
  { intros body Hb. destruct (broadcast_opens c root body Hb) as (blob & E & Ho). exists blob. split; [done|]. split.
    - rewrite Hd. by apply as_get_later.
    - unfold open_advertisement. rewrite Hroot, Hr. cbn. by rewrite Ho. }
  destruct policy; [done| |]; unfold build_advertisement; rewrite Hr; cbn [fmap option_fmap option_map].
  - destruct (Hsealed (BFingerprint (descriptor_scheme_hash sha3_256 d))) as (blob & E & Hg & Ho); [apply Hsha|].
    exists blob, (BFingerprint (descriptor_scheme_hash sha3_256 d)). rewrite E. done.
  - destruct (Hsealed (BFull (resolved_suite_id d) (cd_suite_params d))) as (blob & E & Hg & Ho); [done|].
    exists blob, (BFull (resolved_suite_id d) (cd_suite_params d)). rewrite E. done.
Qed.

End Adverts.

(** ** Examples *)

Section AdvertWitnesses.
#[local] Existing Instance demo_build.

Lemma advert_reaches_holders_witness :
  let sha m := toy_fit m in
  let argon p s := if decide (zlen s < 8) then None else Some (p ++ s) in
  exists blob body, build_advertisement (P := toy) sha argon 3%nat iw_descriptor AdvFull = Some (Ok (Some blob)) /\
    open_advertisement (P := toy) argon (with_password (Some (bstr "pw")) (as_shared iw_descriptor)) blob = Some (Ok body) /\
    beacon_is_full body = true.
Proof.
  intros sha argon.
  destruct (advert_reaches_holders (P := toy) sha argon 3%nat iw_descriptor (as_shared iw_descriptor) AdvFull
    (default [] (derive_root (P := toy) argon iw_descriptor)) as_new [(bstr "other", [])])
    as (blob & body & H1 & _ & H2 & _ & H3).
  - intros m. apply toy_fit_len.
  - reflexivity.
  - by vm_compute.
  - apply (decode_bytes_ok (encode_bytes iw_descriptor)); by vm_compute.
  - by vm_compute.
  - by right.
  - by vm_compute.
  - repeat constructor. discriminate.
  - exists blob, body. split; [exact H1|]. split; [exact H2|exact H3].
Defined.

End AdvertWitnesses.
