(* ===== verification/Channel.v ===== *)
(** * One request and one reply over a session

    A stream together with the session set up on it ([Box<dyn Stream>],
    [Box<dyn SessionHandle>]), as the registry (crates/core/src/registry.rs) and
    device linking (crates/core/src/linking.rs) use it, and what a suite's promise
    means for a request and its reply. *)

From S2P Require Import Prelude Wire Crypto Hybrid Ratchet Conversation Noise Suite Marking Handshake.

(** A [CoreError], or a panic. *)
Inductive core_fault : Type :=
| CoreFail (e : CoreError)
| CorePanic (msg : string).

Section Channel.
Context {P : Primitives}.

Record Channel : Type := mkChannel { ch_stream : Stream; ch_session : SessionHandle }.

Definition on_stream {A} (m : ST Stream CoreError A) : ST Channel core_fault A := fun c =>
  let (r, s) := m (ch_stream c) in (map_err CoreFail r, mkChannel s (ch_session c)).

Definition on_session {A} (m : ST SessionHandle fault A) : ST Channel core_fault A := fun c =>
  let (r, h) := m (ch_session c) in
  (map_err (fun f => match f with Fail e => CoreFail (CCrypto e) | Panic msg => CorePanic msg end) r, mkChannel (ch_stream c) h).

(** The first request of a session and its reply go through. *)
Lemma request_reply su cs0 a b cs1 cs2 pt1 pt2 :
  sh_matched su cs0 a b -> zlen pt1 <= MAX_FRAME - 16 -> zlen pt2 <= MAX_FRAME - 16 ->
  NoDup ((fun c => (generate_prekey su c).1) <$> [cs0; cs1; cs2]) ->
  exists ct1 a1 b1 ct2 a2 b2,
    sh_encrypt cs1 pt1 a = (Ok ct1, a1) /\ sh_decrypt ct1 b = (Ok pt1, b1) /\
    sh_encrypt cs2 pt2 b1 = (Ok ct2, b2) /\ sh_decrypt ct2 a1 = (Ok pt2, a2).
Proof.
  intros Hm H1 H2 Hn. specialize (Hm cs1 pt1 [(false, cs2, pt2)] ltac:(by repeat constructor) Hn).
  cbn [sh_converse] in Hm. unfold sh_exchange in Hm.
  destruct (sh_encrypt cs1 pt1 a) as [[ct1|] a1] eqn:E1; [|done].
  destruct (sh_decrypt ct1 b) as [[pt|] b1] eqn:E2; [|done]. cbn [mbind option_bind] in Hm.
  destruct (sh_encrypt cs2 pt2 b1) as [[ct2|] b2] eqn:E3; [|done].
  destruct (sh_decrypt ct2 a1) as [[pt'|] a2] eqn:E4; [|done]. cbn in Hm. injection Hm as -> ->.
  by exists ct1, a1, b1, ct2, a2, b2.
Qed.

End Channel.
