(* ===== verification/Registry.v ===== *)
(** * The username registry (crates/core/src/registry.rs)

    A directory from names to self-signed claims, its request and response
    formats, the server's request loop and the client.  Every branch of [apply]
    runs under one lock, so the connections of a server interleave as a sequence of
    requests.  Proved: a name belongs to whoever first registered it with a valid
    claim, for every sequence of requests; one honest registry among those asked
    is enough that a name resolves to its owner or not at all; a request over a
    fresh session is answered as [apply] says. *)

From S2P Require Import Prelude Wire Crypto Toy Hybrid Ratchet Conversation Noise Suite Marking Frames Codec Handshake Channel Account.

Definition MAX_CLAIMS : Z := 100000.

Inductive Request : Type :=
| Register (claim : SignedClaim)
| Resolve (name : bytes)
| ListAll.

Inductive Response : Type :=
| Registered
| Claims (claims : list SignedClaim)
| RError (msg : bytes).

Definition request_encode (r : Request) : bytes :=
  match r with
  | Register c => w_new |> put_u8 0 |> put_bytes (claim_encode c) |> into_vec
  | Resolve name => w_new |> put_u8 1 |> put_bytes name |> into_vec
  | ListAll => w_new |> put_u8 2 |> into_vec
  end.

Definition get_claim : Get CoreError SignedClaim := carried claim_decode CCrypto.

(** No [finish]: bytes after the request are ignored. *)
Definition request_read : Get CoreError Request :=
  get* t := q get_u8 in
  if decide (t = 0) then get* c := get_claim in gret (Register c)
  else if decide (t = 1) then get* n := text (CMalformed "resolve username utf-8") in gret (Resolve n)
  else if decide (t = 2) then gret ListAll
  else gfail (CMalformed "registry request tag").
Definition request_decode (b : bytes) : result CoreError Request := run_get request_read b.

Definition response_encode (r : Response) : bytes :=
  match r with
  | Registered => w_new |> put_u8 0 |> into_vec
  | Claims claims =>
      w_new |> put_u8 1 |> put_u32 (u32_wrap (zlen claims)) |> put_each (fun c => put_bytes (claim_encode c)) claims |> into_vec
  | RError msg => w_new |> put_u8 2 |> put_bytes msg |> into_vec
  end.

Definition response_read : Get CoreError Response :=
  get* t := q get_u8 in
  if decide (t = 0) then gret Registered
  else if decide (t = 1) then get* l := counted MAX_CLAIMS (CMalformed "too many claims") get_claim in gret (Claims l)
  else if decide (t = 2) then get* m := text (CMalformed "registry error utf-8") in gret (RError m)
  else gfail (CMalformed "registry response tag").
Definition response_decode (b : bytes) : result CoreError Response := run_get response_read b.

(** ** The store *)

Notation store := (gmap bytes SignedClaim).

Section Apply.
Context {P : Primitives}.

Definition reg_apply (req : Request) (map : store) : Response * store :=
  match req with
  | Register claim =>
      if negb (is_ok (claim_verify claim)) then (RError (bstr "claim is not validly self-signed"), map)
      else
        let name := uc_username (sg_claim claim) in
        if match map !! name with
           | Some existing => bool_decide (uc_account (sg_claim existing) <> uc_account (sg_claim claim))
           | None => false
           end
        then (RError (bstr "username already registered to another account"), map)
        else (Registered, <[name := claim]> map)
  | Resolve name => (Claims (option_list (map !! name)), map)
  | ListAll => (Claims (snd <$> map_to_list map), map)
  end.

Definition resolve_across (username : bytes) (claims : list SignedClaim) : option IdentityPublic := cross_compare username claims.

(** The store after the requests of all connections, in the order the lock was taken. *)
Definition reg_run (reqs : list Request) : store := foldl (fun m r => (reg_apply r m).2) ∅ reqs.

(** The valid claims for a name among some requests. *)
Definition claim_for (name : bytes) (r : Request) : option SignedClaim :=
  match r with
  | Register c => if is_ok (claim_verify c) && bool_decide (uc_username (sg_claim c) = name) then Some c else None
  | _ => None
  end.
Definition valid_claims (name : bytes) (reqs : list Request) : list SignedClaim := omap (claim_for name) reqs.
Definition same_account (c d : SignedClaim) : Prop := uc_account (sg_claim c) = uc_account (sg_claim d).
#[export] Instance same_account_dec c d : Decision (same_account c d).
Proof. unfold same_account. apply _. Defined.

(** The last claim of whoever claimed first. *)
Definition owner_claim (vs : list SignedClaim) : option SignedClaim :=
  c0 ← head vs; last (filter (same_account c0) vs).

Lemma owner_claim_snoc vs c :
  owner_claim (vs ++ [c]) =
    match owner_claim vs with Some d => Some (if decide (same_account d c) then c else d) | None => Some c end.
Proof.
  unfold owner_claim. destruct vs as [|c0 vs]; cbn [app head mbind option_bind].
  - by rewrite filter_cons_True.
  - change (c0 :: vs ++ [c]) with ((c0 :: vs) ++ [c]). rewrite filter_app.
    destruct (last (filter (same_account c0) (c0 :: vs))) as [d|] eqn:El.
    + assert (same_account c0 d) as Hd by (apply last_Some_elem_of, list_elem_of_filter in El as [? _]; done).
      case_decide as Hc; unfold same_account in Hc, Hd.
      * assert (filter (same_account c0) [c] = [c]) as -> by (rewrite filter_cons_True by (unfold same_account; congruence); done). apply last_snoc.
      * assert (filter (same_account c0) [c] = []) as -> by (rewrite filter_cons_False by (unfold same_account; congruence); done). by rewrite app_nil_r.
    + rewrite filter_cons_True in El by done. by apply last_None in El.
Qed.

Lemma reg_apply_lookup r m name :
  (reg_apply r m).2 !! name =
    match claim_for name r with
    | Some c => match m !! name with Some d => Some (if decide (same_account d c) then c else d) | None => Some c end
    | None => m !! name
    end.
Proof.
  destruct r as [c| |]; [|done..]. cbn [reg_apply claim_for]. destruct (is_ok (claim_verify c)); cbn [negb andb]; [|done].
  set (u := uc_username (sg_claim c)). case_bool_decide as Hu.
  - destruct (m !! u) as [d|] eqn:El; rewrite <- Hu, El.
    + unfold same_account. case_bool_decide as Hd; cbn [snd].
      * by rewrite El, decide_False.
      * rewrite decide_True by (first [exact Hd|exact (dec_stable Hd)]). exact (lookup_insert_eq (M:=gmap bytes) _ _ _).
    + exact (lookup_insert_eq (M:=gmap bytes) _ _ _).
  - destruct (match m !! u with Some _ => _ | None => false end); cbn [snd]; [done|]. by apply (lookup_insert_ne (M:=gmap bytes)).
Qed.

(** A name belongs to the account that first registered it with a valid claim;
    the registry serves that account's latest claim. *)
Lemma reg_run_owner reqs name : reg_run reqs !! name = owner_claim (valid_claims name reqs).
Proof.
  unfold reg_run. induction reqs as [|r reqs IH] using rev_ind; [exact (lookup_empty (M:=gmap bytes) name)|].
  rewrite foldl_app. cbn [foldl]. rewrite reg_apply_lookup, IH. unfold valid_claims. rewrite omap_app. cbn [omap list_omap].
  destruct (claim_for name r) as [c|]; [|by rewrite app_nil_r]. by rewrite owner_claim_snoc.
Qed.

Lemma owner_claim_spec vs d :
  owner_claim vs = Some d -> d ∈ vs /\ exists c0, head vs = Some c0 /\ uc_account (sg_claim d) = uc_account (sg_claim c0).
Proof.
  unfold owner_claim. intros H. apply bind_Some in H as (c0 & Hh & Hl). apply last_Some_elem_of, list_elem_of_filter in Hl as [Hs Hin].
  split; [done|]. exists c0. split; [done|]. by symmetry.
Qed.

Lemma valid_claims_spec name reqs c :
  c ∈ valid_claims name reqs <-> Register c ∈ reqs /\ claim_verify c = Ok tt /\ uc_username (sg_claim c) = name.
Proof.
  unfold valid_claims. rewrite list_elem_of_omap. split.
  - intros (r & Hr & H). destruct r as [c'| |]; [|done..]. cbn in H. destruct (claim_verify c') as [[]|] eqn:Ev; [|done]. cbn in H.
    case_bool_decide; [|done]. by injection H as <-.
  - intros (Hr & Hv & Hn). exists (Register c). split; [done|]. cbn. rewrite Hv. cbn. by rewrite bool_decide_true.
Qed.

(** C18: first come, first served, in every interleaving of connections.  What a
    registry answers for a name is decided by the valid claims it has received for
    it: nothing if there was none, else the latest claim of the account whose
    claim came first.  So nobody takes over a registered name, and nothing that was
    not validly signed by the account it names is ever served. *)
Theorem registry_first_come (reqs : list Request) (name : bytes) :
  (reg_apply (Resolve name) (reg_run reqs)).1 = Claims (option_list (owner_claim (valid_claims name reqs))) /\
  forall c, owner_claim (valid_claims name reqs) = Some c ->
    Register c ∈ reqs /\ claim_verify c = Ok tt /\ uc_username (sg_claim c) = name /\
    exists c0 pre post, reqs = pre ++ Register c0 :: post /\ claim_verify c0 = Ok tt /\ uc_username (sg_claim c0) = name /\
      valid_claims name pre = [] /\ uc_account (sg_claim c) = uc_account (sg_claim c0).
Proof.
  split; [cbn; by rewrite reg_run_owner|]. intros c Ho. apply owner_claim_spec in Ho as (Hin & c0 & Hh & Ha).
  apply valid_claims_spec in Hin as (Hr & Hv & Hn). split; [done|]. split; [done|]. split; [done|].
  clear -Hh Ha. induction reqs as [|r reqs IH]; [done|]. unfold valid_claims in Hh. cbn [omap list_omap] in Hh.
  destruct (claim_for name r) as [x|] eqn:Ec.
  - injection Hh as ->. destruct r as [c'| |]; [|done..]. cbn in Ec. destruct (claim_verify c') as [[]|] eqn:Ev; [|done]. cbn in Ec.
    case_bool_decide; [|done]. injection Ec as ->. by exists c0, [], reqs.
  - destruct (IH Hh) as (d & pre & post & -> & Hv & Hn & Hp & Hd). exists d, (r :: pre), post.
    split; [done|]. split; [done|]. split; [done|]. split; [|done]. unfold valid_claims. cbn. by rewrite Ec.
Qed.

Lemma cross_compare_spec name claims a :
  resolve_across name claims = Some a <->
  claims <> [] /\ Forall (fun c => uc_username (sg_claim c) = name /\ claim_verify c = Ok tt /\ uc_account (sg_claim c) = a) claims.
Proof.
  unfold resolve_across, cross_compare. destruct claims as [|c0 l]; [naive_solver|]. set (b := uc_account (sg_claim c0)).
  set (check := fun c => bool_decide (uc_username (sg_claim c) = name) && is_ok (claim_verify c) && bool_decide (uc_account (sg_claim c) = b)).
  assert (forallb check (c0 :: l) = true <->
    Forall (fun c => uc_username (sg_claim c) = name /\ claim_verify c = Ok tt /\ uc_account (sg_claim c) = b) (c0 :: l)) as H.
  { rewrite forallb_forall, Forall_forall. setoid_rewrite <- list_elem_of_In. unfold check. apply forall_proper. intros c.
    rewrite !andb_true_iff, !bool_decide_eq_true. destruct (claim_verify c) as [[]|]; cbn; naive_solver. }
  destruct (forallb check (c0 :: l)) eqn:E.
  - split; [intros [= <-]; split; [done|]; by apply H|]. intros [_ Hf]. apply Forall_cons in Hf as [(_ & _ & <-) _]. done.
  - split; [done|]. intros [_ Hf]. exfalso. assert (b = a) as <- by (apply Forall_cons in Hf as [(_ & _ & <-) _]; done).
    apply H in Hf. done.
Qed.

(** What a registry with this history answers for a name. *)
Definition reg_answer (name : bytes) (history : list Request) : list SignedClaim :=
  match (reg_apply (Resolve name) (reg_run history)).1 with Claims l => l | _ => [] end.

Lemma reg_answer_owner name h : reg_answer name h = option_list (owner_claim (valid_claims name h)).
Proof. unfold reg_answer. cbn. by rewrite reg_run_owner. Qed.

(** C19: one honest registry suffices.  If among the claims gathered for a name are the
    answers of registries that run this code, in any state they can be in, and one of
    them knows the name, then the name resolves to the account that first claimed it
    there or to nothing, whatever the other registries sent.  If all registries
    asked are honest and know the name under one account, it resolves to it. *)
Theorem one_honest_registry (name : bytes) (histories : list (list Request)) (others : list SignedClaim) (c0 : SignedClaim) :
  let answers := mjoin (reg_answer name <$> histories) in
  (exists h, h ∈ histories /\ head (valid_claims name h) = Some c0) ->
  (forall claims a, answers ++ others ≡ₚ claims -> resolve_across name claims = Some a -> a = uc_account (sg_claim c0)) /\
  ((forall h c, h ∈ histories -> head (valid_claims name h) = Some c -> same_account c c0) ->
   resolve_across name answers = Some (uc_account (sg_claim c0))).
Proof.
  intros answers (h & Hh & Hc0).
  assert (forall h c, h ∈ histories -> head (valid_claims name h) = Some c ->
    exists d, owner_claim (valid_claims name h) = Some d /\ d ∈ answers /\ same_account d c) as Hans.
  { intros k c Hk Hc. destruct (owner_claim (valid_claims name k)) as [d|] eqn:Eo.
    - exists d. split; [done|]. split; [|destruct (owner_claim_spec _ _ Eo) as (_ & x & Hx & Ha); unfold same_account; congruence].
      unfold answers. apply list_elem_of_join. exists [d]. split; [apply list_elem_of_here|]. apply list_elem_of_fmap. exists k. by rewrite reg_answer_owner, Eo.
    - exfalso. unfold owner_claim in Eo. rewrite Hc in Eo. cbn in Eo. destruct (valid_claims name k) as [|x l]; [done|]. injection Hc as ->.
      rewrite filter_cons_True in Eo by done. by apply last_None in Eo. }
  destruct (Hans h c0 Hh Hc0) as (d & _ & Hd & Hs). split.
  - intros claims a Hp Hr. apply cross_compare_spec in Hr as [_ Hf]. rewrite <- Hp, Forall_app in Hf. destruct Hf as [Hf _].
    rewrite Forall_forall in Hf. destruct (Hf d Hd) as (_ & _ & <-). done.
  - intros Hall. apply cross_compare_spec. split; [intros E; rewrite E in Hd; by apply not_elem_of_nil in Hd|].
    apply Forall_forall. intros x Hx. unfold answers in Hx. apply list_elem_of_join in Hx as (l & Hx & Hl).
    apply list_elem_of_fmap in Hl as (k & -> & Hk). rewrite reg_answer_owner in Hx. destruct (owner_claim (valid_claims name k)) as [y|] eqn:Eo; [|by apply not_elem_of_nil in Hx].
    apply list_elem_of_singleton in Hx as ->. destruct (owner_claim_spec _ _ Eo) as (Hin & c & Hc & Ha).
    apply valid_claims_spec in Hin as (_ & Hv & Hn). split; [done|]. split; [done|]. rewrite Ha. by apply Hall with k.
Qed.

End Apply.

(** ** Wire forms *)

Definition sclaim_field (c : SignedClaim) : bytes := enc_bytes (claim_encode c).
Definition sclaim_ok (c : SignedClaim) : Prop := signed_claim_ok c /\ short (claim_encode c).

#[local] Instance codec_get_claim : Codec get_claim sclaim_field sclaim_ok.
Proof. apply codec_carried. intros. by apply claim_decode_exact. Qed.

Definition request_tag (r : Request) : Z := match r with Register _ => 0 | Resolve _ => 1 | ListAll => 2 end.
Definition request_fields (r : Request) : bytes :=
  match r with Register c => sclaim_field c | Resolve n => enc_bytes n | ListAll => [] end.
Definition request_ok (r : Request) : Prop :=
  match r with Register c => sclaim_ok c | Resolve n => str_ok n | ListAll => True end.

Lemma codec_request : Codec request_read (fun r => [byte_of (request_tag r)] ++ request_fields r) request_ok.
Proof.
  apply (codec_tagged request_tag); [intros [] _; by vm_compute|]. intros t. repeat case_decide; subst.
  - eapply (codec_con _ Register); [apply codec_get_claim|done|]. intros []; cbn; naive_solver.
  - eapply (codec_con _ Resolve); [apply codec_text|done|]. intros []; cbn; naive_solver.
  - apply codec_con0; [done|]. intros []; cbn; naive_solver.
  - apply codec_fail. intros []; cbn; naive_solver.
Qed.

Definition response_tag (r : Response) : Z := match r with Registered => 0 | Claims _ => 1 | RError _ => 2 end.
Definition response_fields (r : Response) : bytes :=
  match r with Registered => [] | Claims l => enc_list sclaim_field l | RError m => enc_bytes m end.
Definition response_ok (r : Response) : Prop :=
  match r with Registered => True | Claims l => list_ok MAX_CLAIMS sclaim_ok l | RError m => str_ok m end.

Lemma codec_response : Codec response_read (fun r => [byte_of (response_tag r)] ++ response_fields r) response_ok.
Proof.
  apply (codec_tagged response_tag); [intros [] _; by vm_compute|]. intros t. repeat case_decide; subst.
  - apply codec_con0; [done|]. intros []; cbn; naive_solver.
  - eapply (codec_con _ Claims); [typeclasses eauto|done|]. intros []; cbn; naive_solver.
  - eapply (codec_con _ RError); [apply codec_text|done|]. intros []; cbn; naive_solver.
  - apply codec_fail. intros []; cbn; naive_solver.
Qed.

Lemma request_roundtrip r : request_ok r -> zlen (request_encode r) <= usize_max -> request_decode (request_encode r) = Ok r.
Proof.
  assert (request_encode r = [byte_of (request_tag r)] ++ request_fields r) as -> by (destruct r; unfold request_encode; by wire_norm).
  intros Hr Hl. by apply run_decodes, codec_request.
Qed.

Lemma response_roundtrip r : response_ok r -> zlen (response_encode r) <= usize_max -> response_decode (response_encode r) = Ok r.
Proof.
  assert (response_encode r = [byte_of (response_tag r)] ++ response_fields r) as ->.
  { destruct r as [|l|]; unfold response_encode; wire_norm; [done| |done].
    rewrite (into_vec_put_each _ sclaim_field) by (intros; apply into_vec_put_bytes). wire_norm. by rewrite be_bytes_4_wrap. }
  intros Hr Hl. by apply run_decodes, codec_response.
Qed.

(** A directory of more than a hundred thousand names cannot be listed: the client
    refuses the server's own answer. *)
Lemma list_over_cap l : MAX_CLAIMS < zlen l < 2 ^ 32 -> zlen (response_encode (Claims l)) <= usize_max ->
  response_decode (response_encode (Claims l)) = Err (CMalformed "too many claims").
Proof.
  unfold MAX_CLAIMS. intros Hl Hu. assert (response_encode (Claims l) = [byte_of 1] ++ be_bytes 4 (zlen l) ++ mjoin (sclaim_field <$> l)) as E.
  { unfold response_encode. wire_norm. rewrite (into_vec_put_each _ sclaim_field) by (intros; apply into_vec_put_bytes).
    wire_norm. by rewrite be_bytes_4_wrap. }
  rewrite E in *. unfold response_decode, run_get, response_read, gbind at 1.
  assert (forall r, rwf r -> rest r = [byte_of 1] ++ be_bytes 4 (zlen l) ++ mjoin (sclaim_field <$> l) ->
    exists r1, q (E:=CoreError) get_u8 r = Ok (1, r1) /\ rwf r1 /\ rest r1 = be_bytes 4 (zlen l) ++ mjoin (sclaim_field <$> l)) as H1.
  { intros r Hw Hr. apply (decodes_q _ _ _ (decodes_u8 1 ltac:(by vm_compute)) r _ Hw Hr). }
  destruct (H1 _ (rwf_new _ Hu) (rest_new _)) as (r1 & -> & Hw1 & Hr1). cbn [rbind].
  rewrite decide_False, decide_True by lia. unfold counted, gbind at 1. unfold gbind at 1.
  destruct (decodes_q _ _ _ (decodes_u32 (zlen l) ltac:(unfold is_u32; lia)) r1 _ Hw1 Hr1) as (r2 & -> & _ & _). cbn [rbind].
  by rewrite decide_True by (unfold MAX_CLAIMS; lia).
Qed.

(** ** Server and client over a session *)

Section Serve.
Context {P : Primitives}.

(** One turn of [serve_loop]: whether the loop goes on.  A panic ends the task. *)
Definition serve_turn (cs : nat -> coins) (c : Channel) (m : store) : bool * Channel * store :=
  match on_stream recv_frame c with
  | (Err _, c) => (false, c, m)
  | (Ok frame, c) =>
      match on_session (sh_decrypt frame) c with
      | (Err (CoreFail _), c) => (true, c, m)
      | (Err (CorePanic _), c) => (false, c, m)
      | (Ok pt, c) =>
          let '(response, m) :=
            match request_decode pt with
            | Ok req => reg_apply req m
            | Err _ => (RError (bstr "malformed request"), m)
            end in
          match on_session (sh_encrypt cs (response_encode response)) c with
          | (Err _, c) => (false, c, m)
          | (Ok ct, c) => let (r, c) := on_stream (send_frame ct) c in (is_ok r, c, m)
          end
      end
  end.

Definition round_trip (cs : nat -> coins) (req : Request) : ST Channel core_fault Response :=
  do* ct := on_session (sh_encrypt cs (request_encode req)) in
  do* _ := on_stream (send_frame ct) in
  do* frame := on_stream recv_frame in
  do* pt := on_session (sh_decrypt frame) in
  st_lift (map_err CoreFail (response_decode pt)).

Definition client_register (cs : nat -> coins) (claim : SignedClaim) : ST Channel core_fault unit :=
  do* r := round_trip cs (Register claim) in
  match r with
  | Registered => st_ret tt
  | RError msg => st_err (CoreFail (CRegistry msg))
  | _ => st_err (CoreFail (CMalformed "unexpected registry response"))
  end.

(** [resolve] and [list] differ in the request only. *)
Definition client_claims (cs : nat -> coins) (req : Request) : ST Channel core_fault (list SignedClaim) :=
  do* r := round_trip cs req in
  match r with
  | Claims claims => st_ret claims
  | RError msg => st_err (CoreFail (CRegistry msg))
  | _ => st_err (CoreFail (CMalformed "unexpected registry response"))
  end.
Definition client_resolve (cs : nat -> coins) (username : bytes) := client_claims cs (Resolve username).
Definition client_list (cs : nat -> coins) := client_claims cs ListAll.

(** A request on a fresh session is applied once and answered as [reg_apply] says. *)
Lemma registry_answers su cs0 a b cs1 cs2 req m :
  sh_matched su cs0 a b -> NoDup ((fun c => (generate_prekey su c).1) <$> [cs0; cs1; cs2]) ->
  request_ok req -> response_ok (reg_apply req m).1 ->
  zlen (request_encode req) <= MAX_FRAME - 16 -> zlen (response_encode (reg_apply req m).1) <= MAX_FRAME - 16 ->
  exists ct1 ct2 a' b',
    serve_turn cs2 (mkChannel (mkStream [ct1] [] 1) b) m = (true, mkChannel (mkStream [] [ct2] 0) b', (reg_apply req m).2) /\
    round_trip cs1 req (mkChannel (mkStream [ct2] [] 1) a) = (Ok (reg_apply req m).1, mkChannel (mkStream [] [ct1] 0) a').
Proof.
  intros Hm Hn Hq Hr Hl1 Hl2. unfold MAX_FRAME in Hl1, Hl2.
  destruct (request_reply su cs0 a b cs1 cs2 (request_encode req) (response_encode (reg_apply req m).1) Hm) as
    (ct1 & a1 & b1 & ct2 & a2 & b2 & E1 & E2 & E3 & E4); [unfold MAX_FRAME; lia..|done|].
  exists ct1, ct2, a2, b2. split.
  - unfold serve_turn, on_stream, on_session. cbn [recv_frame s_in ch_stream ch_session]. cbn [map_err]. rewrite E2. cbn [map_err ch_stream ch_session].
    rewrite request_roundtrip by (unfold usize_max; done || lia). destruct (reg_apply req m) as [resp m'].
    cbn [fst snd] in *. rewrite E3. reflexivity.
  - unfold round_trip, st_bind, on_session, on_stream, st_lift. cbn [ch_session ch_stream]. rewrite E1. cbn -[sh_decrypt response_decode].
    rewrite E4. cbn [map_err]. by rewrite response_roundtrip by (unfold usize_max; done || lia).
Qed.

End Serve.

(** ** Examples *)

Section RegistryWitnesses.
#[local] Existing Instance toy.

Definition rw_alice : IdentityKeyPair := id_from_secret_bytes (bstr "alice").
Definition rw_mallory : IdentityKeyPair := id_from_secret_bytes (bstr "mallory").
(** Alice registers, Mallory tries to take the name over, Alice refreshes. *)
Definition rw_history : list Request :=
  [Register (claim_issue rw_alice (bstr "al") 1); Register (claim_issue rw_mallory (bstr "al") 2);
   Register (claim_issue rw_alice (bstr "al") 3)].

Lemma rw_claim seed t : claim_for (bstr "al") (Register (claim_issue (id_from_secret_bytes seed) (bstr "al") t)) =
  Some (claim_issue (id_from_secret_bytes seed) (bstr "al") t).
Proof.
  unfold claim_for, claim_verify, claim_issue. cbn [sg_claim sg_sig uc_account uc_username]. rewrite (id_verify_sign). done.
Qed.

(** All three claims verify; Mallory's is of another account. *)
Lemma rw_valid : valid_claims (bstr "al") rw_history =
  [claim_issue rw_alice (bstr "al") 1; claim_issue rw_mallory (bstr "al") 2; claim_issue rw_alice (bstr "al") 3].
Proof. unfold valid_claims, rw_history, rw_alice, rw_mallory. cbn [omap list_omap]. by rewrite !rw_claim. Qed.

Lemma rw_same k n t t' : same_account (claim_issue k n t) (claim_issue k n t').
Proof. unfold same_account, claim_issue. reflexivity. Qed.

Lemma rw_answer : mjoin (reg_answer (bstr "al") <$> [rw_history]) = [claim_issue rw_alice (bstr "al") 3].
Proof.
  cbn [fmap list_fmap mjoin list_join]. rewrite reg_answer_owner, rw_valid. unfold owner_claim. cbn [head mbind option_bind].
  assert (id_public rw_alice <> id_public rw_mallory) as Hn.
  { intros E. apply (f_equal (fun i => head (sig_vk i))) in E. revert E. by vm_compute. }
  rewrite filter_cons_True by apply rw_same. rewrite filter_cons_False by exact Hn. rewrite filter_cons_True by apply rw_same.
  rewrite filter_nil. cbn [last option_list app]. exact eq_refl.
Qed.

Lemma one_honest_registry_witness :
  (resolve_across (bstr "al") [claim_issue rw_alice (bstr "al") 3; claim_issue rw_mallory (bstr "al") 9] = None \/
   resolve_across (bstr "al") [claim_issue rw_alice (bstr "al") 3; claim_issue rw_mallory (bstr "al") 9] = Some (id_public rw_alice)) /\
  resolve_across (bstr "al") [claim_issue rw_alice (bstr "al") 3] = Some (id_public rw_alice).
Proof.
  destruct (one_honest_registry (bstr "al") [rw_history] [claim_issue rw_mallory (bstr "al") 9] (claim_issue rw_alice (bstr "al") 1))
    as [H1 H2].
  - exists rw_history. split; [apply list_elem_of_here|]. by rewrite rw_valid.
  - rewrite rw_answer in H1, H2. split.
    + destruct (resolve_across _ [claim_issue rw_alice (bstr "al") 3; _]) as [a|] eqn:E; [right|left; reflexivity].
      rewrite (H1 _ a (reflexivity _) E). reflexivity.
    + apply H2. intros h c Hh Hc. apply list_elem_of_singleton in Hh as ->. rewrite rw_valid in Hc. injection Hc as <-. reflexivity.
Defined.

End RegistryWitnesses.
