(* ===== verification/Linking.v ===== *)
(** * Device linking (crates/core/src/linking.rs)

    A primary device that holds the account key certifies a new device over a
    session whose root is a one-time descriptor.  Modelled: the two messages, the
    host's accept loop with its approval gate, and the new device's side.  Proved:
    an offer certifies at most one device, only one the operator approved, and
    only for a bounded time; an approved pairing completes and gives the new
    device a chain that verifies. *)

From S2P Require Import Prelude Wire Crypto Toy Hybrid Ratchet Conversation Noise Suite Marking Frames Codec Handshake Channel Account.

Record LinkRequest : Type := mkLinkRequest { lr_device : IdentityPublic; lr_label : bytes }.

Inductive LinkReply : Type :=
| LGrant (chain : IdentityChain) (account : IdentityPublic) (username : option bytes)
| LDenied (msg : bytes).

Definition link_get_pub : Get CoreError IdentityPublic := get* vk := q get_vec in gret (mkIdentityPublic vk).

Definition lreq_encode (r : LinkRequest) : bytes := w_new |> put_pub (lr_device r) |> put_bytes (lr_label r) |> into_vec.

(** Neither decoder has a [finish]: bytes after the message are ignored. *)
Definition lreq_read : Get CoreError LinkRequest :=
  get* device := link_get_pub in get* label := text (CMalformed "link label utf-8") in gret (mkLinkRequest device label).
Definition lreq_decode (b : bytes) : result CoreError LinkRequest := run_get lreq_read b.

Definition put_link_username (u : option bytes) (w : Writer) : Writer :=
  match u with Some u => w |> put_u8 1 |> put_bytes u | None => w |> put_u8 0 end.

Definition lrep_encode (r : LinkReply) : bytes :=
  match r with
  | LGrant chain account username =>
      w_new |> put_u8 0 |> put_bytes (chain_encode chain) |> put_pub account |> put_link_username username |> into_vec
  | LDenied msg => w_new |> put_u8 1 |> put_bytes msg |> into_vec
  end.

Definition get_link_username : Get CoreError (option bytes) :=
  get* t := q get_u8 in
  if decide (t = 0) then gret None
  else if decide (t = 1) then get* u := text (CMalformed "link username utf-8") in gret (Some u)
  else gfail (CMalformed "link username tag").

Definition lrep_read : Get CoreError LinkReply :=
  get* t := q get_u8 in
  if decide (t = 0) then
    get* chain := carried chain_decode CCrypto in
    get* account := link_get_pub in
    get* username := get_link_username in
    gret (LGrant chain account username)
  else if decide (t = 1) then get* m := text (CMalformed "link denied utf-8") in gret (LDenied m)
  else gfail (CMalformed "link reply tag").
Definition lrep_decode (b : bytes) : result CoreError LinkReply := run_get lrep_read b.

(** ** The primary *)

Definition LINK_CERT_TTL : Z := 24 * 3600.

Section Linking.
Context {P : Primitives}.

(** [approve] is the operator's hook; there is none by default. *)
Record LinkHost : Type := mkLinkHost {
  lh_account : IdentityKeyPair; lh_device_identity : IdentityKeyPair; lh_suite : CryptoSuite; lh_root0 : bytes;
  lh_username : option bytes; lh_now : Z; lh_approve : option (bytes -> bool); lh_cert_ttl : Z }.

Definition linkhost_new (account device_identity : IdentityKeyPair) (suite : CryptoSuite) (root0 : bytes)
    (username : option bytes) (now : Z) : LinkHost :=
  mkLinkHost account device_identity suite root0 username now None LINK_CERT_TTL.
Definition with_approval (approve : bytes -> bool) (h : LinkHost) : LinkHost :=
  mkLinkHost (lh_account h) (lh_device_identity h) (lh_suite h) (lh_root0 h) (lh_username h) (lh_now h) (Some approve) (lh_cert_ttl h).
Definition auto_approve (h : LinkHost) : LinkHost := with_approval (fun _ => true) h.
Definition with_cert_ttl (ttl : Z) (h : LinkHost) : LinkHost :=
  mkLinkHost (lh_account h) (lh_device_identity h) (lh_suite h) (lh_root0 h) (lh_username h) (lh_now h) (lh_approve h) ttl.

(** The reply to a decrypted request, and whether a certificate was issued. *)
Definition link_answer (h : LinkHost) (pt : bytes) : bool * LinkReply :=
  match lreq_decode pt with
  | Ok req =>
      if bool_decide ((fun a => a (lr_label req)) <$> lh_approve h = Some true) then
        let ttl := if decide (lh_cert_ttl h = 0) then LINK_CERT_TTL else lh_cert_ttl h in
        let chain := chain_device (lh_account h) (lr_device req) (bstr "device:" ++ lr_label req) (lh_now h)
                       (u64_sat_add (lh_now h) ttl) in
        (true, LGrant chain (id_public (lh_account h)) (lh_username h))
      else (false, LDenied (bstr "pairing not approved"))
  | Err _ => (false, LDenied (bstr "malformed link request"))
  end.

(** Whether a certificate was issued; [None] is a panic, which ends the offer. *)
Definition grant_once (h : LinkHost) (cs : nat -> coins) (c : Channel) : option bool * Channel :=
  match on_stream recv_frame c with
  | (Err _, c) => (Some false, c)
  | (Ok frame, c) =>
      match on_session (sh_decrypt frame) c with
      | (Err (CoreFail _), c) => (Some false, c)
      | (Err (CorePanic _), c) => (None, c)
      | (Ok pt, c) =>
          let '(granted, reply) := link_answer h pt in
          match on_session (sh_encrypt cs (lrep_encode reply)) c with
          | (Ok ct, c) => let (_, c) := on_stream (send_frame ct) c in (Some granted, c)
          | (Err (CoreFail _), c) => (Some granted, c)
          | (Err (CorePanic _), c) => (None, c)
          end
      end
  end.

(** One turn of the accept loop of [run]: whether a device was certified. *)
Definition link_accept (h : LinkHost) (cs_prekey cs : nat -> coins) (cn : coins) (s : Stream) : option bool * Stream :=
  match respond (lh_device_identity h) (lh_suite h) (lh_root0 h) cs_prekey cn s with
  | (Err _, s) => (Some false, s)
  | (Ok hs, s) => let (granted, c) := grant_once h cs (mkChannel s (hs_session hs)) in (granted, ch_stream c)
  end.

(** The connections accepted while the offer stands ([LINK_WINDOW] may cut the list
    anywhere), each with the draws made for it.  The result: what happened on each. *)
Record Arrival : Type := mkArrival { ar_stream : Stream; ar_prekey : nat -> coins; ar_reply : nat -> coins; ar_nonce : coins }.

Fixpoint link_run (h : LinkHost) (conns : list Arrival) : list (option bool * Stream) :=
  match conns with
  | [] => []
  | a :: conns =>
      let '(granted, s) := link_accept h (ar_prekey a) (ar_reply a) (ar_nonce a) (ar_stream a) in
      (granted, s) :: if decide (granted = Some false) then link_run h conns else []
  end.

(** ** The new device *)

Record Linked : Type := mkLinked { ln_chain : IdentityChain; ln_account : IdentityPublic; ln_username : option bytes }.

(** After the dial; [root0] is the descriptor's root. *)
Definition link_request (device_identity : IdentityKeyPair) (suite : CryptoSuite) (root0 : bytes) (label : bytes) (now : Z)
    (cn : coins) (cs : nat -> coins) : Stream -> result core_fault Linked * Stream := fun s =>
  match initiate device_identity suite root0 cn s with
  | (Err e, s) => (Err (CoreFail e), s)
  | (Ok hs, s) =>
      let '(r, c) :=
        (do* ct := on_session (sh_encrypt cs (lreq_encode (mkLinkRequest (id_public device_identity) label))) in
         do* _ := on_stream (send_frame ct) in
         do* frame := on_stream recv_frame in
         do* pt := on_session (sh_decrypt frame) in
         do* reply := st_lift (map_err CoreFail (lrep_decode pt)) in
         match reply with
         | LGrant chain account username =>
             do* _ := st_lift (map_err (fun _ => CoreFail (CHandshake "link grant did not certify our device"))
                        (chain_verify chain account (id_public device_identity) now)) in
             st_ret (mkLinked chain account username)
         | LDenied msg => st_err (CoreFail (CRegistry (bstr "link denied: " ++ msg)))
         end) (mkChannel s (hs_session hs)) in
      (r, ch_stream c)
  end.

(** ** What an offer yields *)

(** The certificate that [h] issues for a request. *)
Definition link_cert (h : LinkHost) (req : LinkRequest) : SignedCert :=
  sc_issue (lh_account h) (lr_device req) (bstr "device:" ++ lr_label req) (lh_now h)
    (u64_sat_add (lh_now h) (if decide (lh_cert_ttl h = 0) then LINK_CERT_TTL else lh_cert_ttl h)).

Definition link_approved (h : LinkHost) (label : bytes) : Prop := exists approve, lh_approve h = Some approve /\ approve label = true.

Lemma link_answer_spec h pt g reply :
  link_answer h pt = (g, reply) ->
  if g then exists req, lreq_decode pt = Ok req /\ link_approved h (lr_label req) /\
    reply = LGrant (mkChain [link_cert h req]) (id_public (lh_account h)) (lh_username h)
  else exists msg, reply = LDenied msg.
Proof.
  unfold link_answer. destruct (lreq_decode pt) as [req|]; [|intros [= <- <-]; eauto]. case_bool_decide as Hb; intros [= <- <-]; [|eauto].
  exists req. split; [done|]. split; [|done]. apply fmap_Some in Hb as (a & Ha & Hb). by exists a.
Qed.

(** What is owed for a grant: a well-formed request whose label was approved. *)
Definition request_approved (h : LinkHost) (c : Channel) (req : LinkRequest) : Prop :=
  exists frame pt, head (s_in (ch_stream c)) = Some frame /\ (sh_decrypt frame (ch_session c)).1 = Ok pt /\
    lreq_decode pt = Ok req /\ link_approved h (lr_label req).

(** The frame sent is the reply, encrypted in the session after the request. *)
Definition replied (cs : nat -> coins) (c : Channel) (reply : LinkReply) (ct : bytes) : Prop :=
  exists frame, head (s_in (ch_stream c)) = Some frame /\
    (sh_encrypt cs (lrep_encode reply) (sh_decrypt frame (ch_session c)).2).1 = Ok ct.

(** A certificate, in the reply that carries it. *)
Definition grant_reply (h : LinkHost) (req : LinkRequest) : LinkReply :=
  LGrant (mkChain [link_cert h req]) (id_public (lh_account h)) (lh_username h).

Lemma grant_once_spec h cs c granted c' :
  grant_once h cs c = (granted, c') ->
  (granted = Some true -> exists req, request_approved h c req) /\
  (s_out (ch_stream c') = s_out (ch_stream c) \/
   exists reply ct, replied cs c reply ct /\ s_out (ch_stream c') = s_out (ch_stream c) ++ [ct] /\
     ((granted = Some false /\ exists msg, reply = LDenied msg) \/
      (granted = Some true /\ exists req, request_approved h c req /\ reply = grant_reply h req))).
Proof.
  unfold grant_once, on_stream, on_session, request_approved, replied. destruct c as [[sin out room] hd]. cbn. intros H.
  destruct sin as [|frame sin]; cbn in H; [injection H as <- <-; split; [done|by left]|].
  destruct (sh_decrypt frame hd) as [[pt|[]] hd'] eqn:Ed; cbn in H; [|injection H as <- <-; split; [done|by left]..].
  destruct (link_answer h pt) as [g reply] eqn:Ea. apply link_answer_spec in Ea.
  assert (forall x, g = true -> x = Some g -> exists req, request_approved h (mkChannel (mkStream (frame :: sin) out room) hd) req) as Hg.
  { intros x -> _. destruct Ea as (req & Hq & Hap & _). exists req, frame, pt. cbn. by rewrite Ed. }
  destruct (sh_encrypt cs (lrep_encode reply) hd') as [[ct|[]] hd2] eqn:Ee; cbn in H;
    [|injection H as <- <-; (split; [intros [= ->]; by eapply Hg|by left])|injection H as <- <-; (split; [done|by left])].
  unfold send_frame in H. cbn in H. destruct room as [|room]; cbn in H; injection H as <- <-; (split; [intros [= ->]; by eapply Hg|]); [by left|].
  right. exists reply, ct. split; [exists frame; cbn [s_in head]; split; [done|]; rewrite Ed; cbn [snd]; by rewrite Ee|]. split; [done|].
  destruct g; [right|left; by split]. split; [done|]. destruct Ea as (req & Hq & Hap & ->). exists req. split; [|done].
  exists frame, pt. cbn. by rewrite Ed.
Qed.

(** A certificate was issued on connection [i]: it is the last one served, its handshake
    completed under the offer's root, it carried a well-formed request for the device,
    the operator approved the label, and the certificate expires. *)
Definition link_issued (h : LinkHost) (conns : list Arrival) (i : nat) (req : LinkRequest) : Prop :=
  S i = length (link_run h conns) /\
  (exists a hs s1, conns !! i = Some a /\
    respond (lh_device_identity h) (lh_suite h) (lh_root0 h) (ar_prekey a) (ar_nonce a) (ar_stream a) = (Ok hs, s1) /\
    request_approved h (mkChannel s1 (hs_session hs)) req) /\
  (is_u64 (lh_now h) -> is_u64 (lh_cert_ttl h) ->
   lh_now h <= ct_expiry (sc_cert (link_cert h req)) /\ 0 < ct_expiry (sc_cert (link_cert h req)) <= lh_now h + Z.max LINK_CERT_TTL (lh_cert_ttl h)).

Lemma cert_expires h req : is_u64 (lh_now h) -> is_u64 (lh_cert_ttl h) ->
  lh_now h <= ct_expiry (sc_cert (link_cert h req)) /\ 0 < ct_expiry (sc_cert (link_cert h req)) <= lh_now h + Z.max LINK_CERT_TTL (lh_cert_ttl h).
Proof. unfold is_u64, link_cert, sc_issue, u64_sat_add, LINK_CERT_TTL, usize_max. cbn [sc_cert ct_expiry]. intros. case_decide; lia. Qed.

Lemma link_run_served h conns i g s : link_run h conns !! i = Some (g, s) ->
  (g <> Some false -> S i = length (link_run h conns)) /\
  exists a, conns !! i = Some a /\ link_accept h (ar_prekey a) (ar_reply a) (ar_nonce a) (ar_stream a) = (g, s).
Proof.
  revert i. induction conns as [|a conns IH]; intros i; cbn [link_run]; [done|].
  destruct (link_accept h (ar_prekey a) (ar_reply a) (ar_nonce a) (ar_stream a)) as [granted s'] eqn:Ea.
  destruct i as [|i]; cbn [lookup list_lookup].
  - intros [= -> ->]. split; [|by exists a]. intros Hg. by rewrite decide_False.
  - case_decide; [|by destruct i]. intros Hr. destruct (IH _ Hr) as [Hl Hb]. split; [intros Hg; cbn; by rewrite <- Hl|done].
Qed.

(** C17: an offer is one-time and gated.  Whatever connects, on each connection served
    the host sends, after the handshake, nothing or one reply, encrypted in the session
    of that connection.  A reply that grants is sent, and a device counted as certified,
    only on the last connection served, in answer to a well-formed request that came
    over a session whose handshake completed under the offer's root, and whose label
    the operator approved; without an approval hook there is none.  The reply carries
    exactly the certificate for the requested device, which starts at the host's clock
    and expires, never at zero; every other reply is a denial. *)
Theorem link_offer_once (h : LinkHost) (conns : list Arrival) (i : nat) (g : option bool) (s : Stream) :
  link_run h conns !! i = Some (g, s) ->
  (g = Some true -> exists req, link_issued h conns i req) /\
  exists a r s1, conns !! i = Some a /\
    respond (lh_device_identity h) (lh_suite h) (lh_root0 h) (ar_prekey a) (ar_nonce a) (ar_stream a) = (r, s1) /\
    (s_out s = s_out s1 \/
     exists hs reply ct, r = Ok hs /\ replied (ar_reply a) (mkChannel s1 (hs_session hs)) reply ct /\ s_out s = s_out s1 ++ [ct] /\
       match reply with
       | LDenied _ => g = Some false
       | LGrant chain account username => g = Some true /\ exists req, link_issued h conns i req /\
           chain = mkChain [link_cert h req] /\ account = id_public (lh_account h) /\ username = lh_username h
       end).
Proof.
  intros Hr. destruct (link_run_served _ _ _ _ _ Hr) as [Hlast (a & Ha & Hacc)]. unfold link_accept in Hacc.
  destruct (respond _ _ _ _ _ (ar_stream a)) as [[hs|e] s1] eqn:Er.
  2:{ injection Hacc as <- <-. split; [done|]. exists a, (Err e), s1. split; [done|]. split; [done|]. by left. }
  destruct (grant_once _ _ _) as [g' c] eqn:Eg. injection Hacc as -> <-. destruct (grant_once_spec _ _ _ _ _ Eg) as [Hgr Hout]. cbn [ch_stream] in Hout.
  assert (forall req, g = Some true -> request_approved h (mkChannel s1 (hs_session hs)) req -> link_issued h conns i req) as Hiss.
  { intros req -> Hq. split; [by apply Hlast|]. split; [by exists a, hs, s1|by apply cert_expires]. }
  split; [intros Hg; destruct (Hgr Hg) as [req Hq]; exists req; by apply Hiss|].
  exists a, (Ok hs), s1. split; [done|]. split; [done|]. destruct Hout as [Hout|(reply & ct & Hrep & Hout & Hcase)]; [by left|right].
  exists hs, reply, ct. split_and!; [done..|]. destruct Hcase as [[-> [msg ->]]|[-> (req & Hq & ->)]]; [done|].
  split; [done|]. exists req. split; [by apply Hiss|done].
Qed.

(** ** An approved pairing *)

Definition enc_link_username (u : option bytes) : bytes :=
  match u with Some u => [byte_of 1] ++ enc_bytes u | None => [byte_of 0] ++ [] end.

Lemma codec_link_pub : Codec link_get_pub enc_pub pub_ok.
Proof.
  unfold link_get_pub. eapply (codec_con _ mkIdentityPublic); [apply codec_vec|done|].
  intros [vk]. unfold pub_ok. cbn. naive_solver.
Qed.

Lemma lreq_roundtrip r : pub_ok (lr_device r) -> str_ok (lr_label r) -> lreq_decode (lreq_encode r) = Ok r.
Proof.
  intros Hd Hl. unfold lreq_decode, lreq_encode. wire_norm. apply run_decodes.
  - destruct Hl as [_ Hl]. unfold pub_ok, short, enc_pub, MAX_FRAME, usize_max in *. rewrite zlen_app, !zlen_enc_bytes. lia.
  - unfold lreq_read. destruct r as [dev label]. cbn [lr_device lr_label] in *. eapply decodes_bind; [by apply codec_link_pub|].
    apply (decodes_ret_bind _ (mkLinkRequest dev)). by apply codec_text.
Qed.

Definition username_ok (u : option bytes) : Prop := match u with Some u => str_ok u | None => True end.

Lemma decodes_link_username u : username_ok u -> decodes get_link_username (enc_link_username u) u.
Proof.
  intros Hu. unfold get_link_username. destruct u as [u|].
  - apply decodes_u8_tag; [by vm_compute|]. cbn. apply (decodes_ret_bind _ Some). by apply codec_text.
  - apply decodes_u8_tag; [by vm_compute|]. apply decodes_ret.
Qed.

Lemma grant_encode_norm chain account u :
  lrep_encode (LGrant chain account u) = [byte_of 0] ++ enc_bytes (chain_encode chain) ++ enc_pub account ++ enc_link_username u.
Proof.
  unfold lrep_encode, put_link_username. destruct u; wire_norm; by rewrite <- ?(assoc (++)).
Qed.

Lemma grant_roundtrip chain account u :
  chain_ok chain -> short (chain_encode chain) -> pub_ok account -> username_ok u ->
  lrep_decode (lrep_encode (LGrant chain account u)) = Ok (LGrant chain account u).
Proof.
  intros Hc Hs Ha Hu. rewrite grant_encode_norm. apply run_decodes.
  - unfold pub_ok, short, enc_pub, MAX_FRAME, usize_max in *. rewrite !zlen_app, !zlen_enc_bytes, zlen_cons, zlen_nil.
    assert (zlen (enc_link_username u) <= MAX_FRAME + 5); [|unfold MAX_FRAME in *; lia].
    destruct u as [u|]; cbn [enc_link_username]; rewrite zlen_app, ?zlen_enc_bytes, zlen_cons, !zlen_nil; [|by vm_compute].
    destruct Hu as [_ Hu]. unfold MAX_FRAME in *. lia.
  - unfold lrep_read. apply decodes_u8_tag; [by vm_compute|]. cbn.
    eapply decodes_bind; [apply (codec_carried chain_decode CCrypto chain_encode chain_ok chain_decode_exact); done|].
    eapply decodes_bind; [by apply codec_link_pub|]. apply (decodes_ret_bind _ (LGrant chain account)). by apply decodes_link_username.
Qed.

Section Pairing.
Context {POk : PrimitivesOk P}.

(** A host whose keys were generated, and labels of reasonable size. *)
Record link_setting (h : LinkHost) (seed_a seed_h : bytes) (label : bytes) : Prop := {
  ls_account : lh_account h = id_from_secret_bytes seed_a;
  ls_device : lh_device_identity h = id_from_secret_bytes seed_h;
  ls_root : length (lh_root0 h) = KEY_LEN;
  ls_now : is_u64 (lh_now h);
  ls_ttl : is_u64 (lh_cert_ttl h);
  ls_label : utf8_valid label = true /\ zlen label <= 2 ^ 20;
  ls_username : match lh_username h with Some u => utf8_valid u = true /\ zlen u <= 2 ^ 20 | None => True end;
  ls_approved : link_approved h label }.

Lemma device_pub_ok seed : pub_ok (id_public (id_from_secret_bytes seed)).
Proof. pose proof (vk_len seed). unfold pub_ok, short, MAX_FRAME. lia. Qed.

Lemma link_expiry_u64 h req : is_u64 (lh_now h) -> is_u64 (lh_cert_ttl h) -> is_u64 (ct_expiry (sc_cert (link_cert h req))).
Proof.
  unfold is_u64, link_cert, sc_issue, u64_sat_add, LINK_CERT_TTL, usize_max. cbn [sc_cert ct_expiry]. intros. case_decide; lia.
Qed.

Lemma link_chain_ok h seed_a seed_h label dev :
  link_setting h seed_a seed_h label -> zlen (sig_vk dev) <= 2 ^ 20 ->
  let c := mkChain [link_cert h (mkLinkRequest dev label)] in
  chain_ok c /\ zlen (chain_encode c) <= 2 ^ 23.
Proof.
  intros [Ha Hh Hr Hn Ht [Hu Hl] _ _] Hd c. set (l := link_cert h (mkLinkRequest dev label)).
  assert (zlen (enc_cert (sc_cert l)) <= 2 ^ 22) as Hcl.
  { unfold l, link_cert, sc_issue, enc_cert, enc_pub, enc_u64f. cbn [sc_cert ct_subject ct_label ct_valid_from ct_expiry lr_device lr_label].
    rewrite !zlen_app, !zlen_enc_bytes, !zlen_be_bytes, zlen_app. change (zlen (bstr "device:")) with 7. lia. }
  assert (zlen (sig_vk (sc_issuer l)) <= 2 ^ 20) as Hi.
  { unfold l, link_cert, sc_issue. cbn [sc_issuer]. rewrite Ha. apply vk_len. }
  assert (zlen (sc_sig l) <= 2 ^ 20) as Hs by apply sign_len.
  assert (sc_ok l) as Hok.
  { split; [unfold pub_ok, short, MAX_FRAME; lia| |unfold short, MAX_FRAME; lia|unfold short, MAX_FRAME; lia].
    split; [unfold pub_ok, short, MAX_FRAME; cbn; lia| |done|by apply link_expiry_u64].
    unfold l, link_cert, sc_issue. cbn [sc_cert ct_label lr_label]. split; [exact Hu|].
    rewrite zlen_app. change (zlen (bstr "device:")) with 7. unfold MAX_FRAME. lia. }
  assert (zlen (enc_sc l) <= 2 ^ 22 + 2 ^ 21 + 12) as Hsl.
  { unfold enc_sc, enc_pub. rewrite !zlen_app, !zlen_enc_bytes. lia. }
  split.
  - unfold chain_ok, list_ok, c. cbn [links]. split; [by vm_compute|]. apply Forall_singleton. fold l. split; [done|]. unfold short, MAX_FRAME. lia.
  - rewrite chain_encode_norm. unfold enc_chain, enc_list, c. cbn [links fmap list_fmap]. fold l.
    change (mjoin [enc_bytes (enc_sc l)]) with (enc_bytes (enc_sc l) ++ []).
    rewrite app_nil_r, zlen_app, zlen_be_bytes, zlen_enc_bytes. lia.
Qed.

Lemma link_chain_verifies h seed_a seed_h label dev now :
  link_setting h seed_a seed_h label ->
  lh_now h <= u64_sat_add now CLOCK_SKEW_TOLERANCE ->
  now <= u64_sat_add (ct_expiry (sc_cert (link_cert h (mkLinkRequest dev label)))) CLOCK_SKEW_TOLERANCE ->
  chain_verify (mkChain [link_cert h (mkLinkRequest dev label)]) (id_public (lh_account h)) dev now = Ok tt.
Proof.
  intros [Ha _ _ _ _ _ _ _] H1 H2. apply chain_verify_certified. cbn [links].
  apply (certified_end now (link_cert h (mkLinkRequest dev label))). split.
  - unfold sc_verify_signature, link_cert, sc_issue. cbn [sc_issuer sc_cert sc_sig]. rewrite Ha. apply id_verify_sign.
  - unfold cert_valid_at. rewrite andb_true_iff, orb_true_iff, !bool_decide_eq_true. split; [cbn; lia|by right].
Qed.

Lemma pairing_runs (h : LinkHost) (seed_a seed_h seed_d label : bytes) (now : Z) (cn cr : coins) (cs0 cs1 cs2 : nat -> coins) :
  let kd := id_from_secret_bytes seed_d in
  let l := link_cert h (mkLinkRequest (id_public kd) label) in
  SuiteOk (lh_suite h) -> link_setting h seed_a seed_h label ->
  NoDup ((fun c => (generate_prekey (lh_suite h) c).1) <$> [cs0; cs1; cs2]) ->
  lh_now h <= u64_sat_add now CLOCK_SKEW_TOLERANCE -> now <= u64_sat_add (ct_expiry (sc_cert l)) CLOCK_SKEW_TOLERANCE ->
  exists init resp confirm ct1 ct2,
    link_accept h cs0 cs2 cr (mkStream [init; confirm; ct1] [] 2) = (Some true, mkStream [] [resp; ct2] 0) /\
    link_request kd (lh_suite h) (lh_root0 h) label now cn cs1 (mkStream [resp; ct2] [] 3) =
      (Ok (mkLinked (mkChain [l]) (id_public (lh_account h)) (lh_username h)), mkStream [] [init; confirm; ct1] 0).
Proof.
  intros kd l Hsu Hset Hn H1 H2. destruct (so_pair (su:=lh_suite h) cs0 (lh_root0 h) (ls_root _ _ _ _ Hset)) as (a & b & Ea & Eb & Hm).
  set (reply := LGrant (mkChain [l]) (id_public (lh_account h)) (lh_username h)).
  pose (req := mkLinkRequest (id_public kd) label). pose proof (vk_len seed_d) as Hvk. fold kd in Hvk. destruct (ls_label _ _ _ _ Hset) as [Hu8 Hll].
  destruct (link_chain_ok h seed_a seed_h label (id_public kd) Hset Hvk) as [Hco Hcl]. fold l in Hco, Hcl.
  pose proof (ls_username _ _ _ _ Hset) as Hun.
  assert (username_ok (lh_username h)) as Huo by (destruct (lh_username h); [destruct Hun; split; [done|unfold MAX_FRAME; lia]|done]).
  assert (zlen (sig_vk (id_public (lh_account h))) <= 2 ^ 20) as Hacc by (rewrite (ls_account _ _ _ _ Hset); apply vk_len).
  assert (lreq_decode (lreq_encode req) = Ok req) as Hreq.
  { apply lreq_roundtrip; [apply device_pub_ok|split; [done|unfold MAX_FRAME; cbn; lia]]. }
  assert (lrep_decode (lrep_encode reply) = Ok reply) as Hrep.
  { apply grant_roundtrip; [done|unfold short, MAX_FRAME; lia|unfold pub_ok, short, MAX_FRAME; lia|done]. }
  destruct (request_reply (lh_suite h) cs0 a b cs1 cs2 (lreq_encode req) (lrep_encode reply) Hm) as
    (ct1 & a1 & b1 & ct2 & a2 & b2 & E1 & E2 & E3 & E4); [..|done|].
  { unfold lreq_encode, req. cbn [lr_device lr_label]. wire_norm. unfold enc_pub. rewrite zlen_app, !zlen_enc_bytes. unfold MAX_FRAME. lia. }
  { unfold reply. rewrite grant_encode_norm. unfold enc_pub. rewrite !zlen_app, !zlen_enc_bytes, zlen_cons, zlen_nil.
    assert (zlen (enc_link_username (lh_username h)) <= 2 ^ 20 + 5); [|unfold MAX_FRAME; lia].
    destruct (lh_username h); cbn [enc_link_username]; rewrite zlen_app, ?zlen_enc_bytes, zlen_cons, !zlen_nil; [destruct Hun; lia|by vm_compute]. }
  pose proof (link_chain_verifies h seed_a seed_h label (id_public kd) now Hset H1 H2) as Hver. fold l in Hver.
  set (kr := lh_device_identity h). pose proof (ls_device _ _ _ _ Hset) as Hkr. fold kr in Hkr.
  exists (init_frame (id_public kd) (random_nonce cn)), (honest_resp (lh_suite h) kr (id_public kd) (random_nonce cn) cs0 cr),
    (honest_confirm (lh_suite h) kd (id_public kr) (random_nonce cn) (generate_prekey (lh_suite h) cs0).1 (random_nonce cr)), ct1, ct2.
  split.
  - unfold link_accept. fold kr. rewrite (respond_honest (lh_suite h) kd kr cn cs0 cr (lh_root0 h) b 1 [ct1]);
      [|apply id_verify_sign|done|done].
    unfold grant_once, on_stream, on_session. cbn [recv_frame s_in ch_stream ch_session hs_session map_err]. rewrite E2. cbn [map_err ch_stream ch_session].
    assert (link_answer h (lreq_encode req) = (true, reply)) as ->.
    { unfold link_answer. rewrite Hreq. destruct (ls_approved _ _ _ _ Hset) as (ap & Hap & Hl). rewrite bool_decide_true; [done|].
      rewrite Hap. cbn. by rewrite Hl. }
    rewrite E3. reflexivity.
  - unfold link_request. rewrite (initiate_honest (lh_suite h) kd kr cn cs0 cr (lh_root0 h) a 1 [ct2]);
      [|rewrite Hkr; apply id_verify_sign|rewrite Hkr; apply vk_len|done].
    unfold st_bind, on_session, on_stream, st_lift. cbn [ch_session ch_stream hs_session]. fold req. rewrite E1.
    cbn [map_err send_frame s_room s_in s_out ch_stream ch_session recv_frame]. rewrite E4. cbn [map_err]. rewrite Hrep. cbn [map_err].
    unfold reply. rewrite Hver. reflexivity.
Qed.

(** C16: an approved pairing completes.  Fed with each other's frames, the host's accept
    loop and the new device's request both succeed: the host has issued one certificate,
    and the device holds the chain from the account to its own key, which verifies at
    its clock, with the account to compare out of band. *)
Theorem link_completes (h : LinkHost) (seed_a seed_h seed_d label : bytes) (now : Z) (cn cr : coins) (cs0 cs1 cs2 : nat -> coins) :
  let kd := id_from_secret_bytes seed_d in
  let l := link_cert h (mkLinkRequest (id_public kd) label) in
  SuiteOk (lh_suite h) -> link_setting h seed_a seed_h label ->
  NoDup ((fun c => (generate_prekey (lh_suite h) c).1) <$> [cs0; cs1; cs2]) ->
  lh_now h <= u64_sat_add now CLOCK_SKEW_TOLERANCE -> now <= u64_sat_add (ct_expiry (sc_cert l)) CLOCK_SKEW_TOLERANCE ->
  exists init resp confirm ct1 ct2,
    link_accept h cs0 cs2 cr (mkStream [init; confirm; ct1] [] 2) = (Some true, mkStream [] [resp; ct2] 0) /\
    link_request kd (lh_suite h) (lh_root0 h) label now cn cs1 (mkStream [resp; ct2] [] 3) =
      (Ok (mkLinked (mkChain [l]) (id_public (lh_account h)) (lh_username h)), mkStream [] [init; confirm; ct1] 0).
Proof. intros kd l. apply pairing_runs. Qed.

End Pairing.

End Linking.

(** ** Examples *)

Section LinkWitnesses.
#[local] Existing Instance demo_build.

(** A host that approves the label "phone". *)
Definition lw_host : LinkHost :=
  with_approval (fun l => bool_decide (l = bstr "phone"))
    (linkhost_new (id_from_secret_bytes (bstr "acct")) (id_from_secret_bytes (bstr "bob")) hw_suite w_root (Some (bstr "ann")) 1000).

Lemma lw_setting : link_setting lw_host (bstr "acct") (bstr "bob") (bstr "phone").
Proof.
  split; [reflexivity..|by vm_compute|by vm_compute|by vm_compute|by vm_compute|]. exists (fun l => bool_decide (l = bstr "phone")). split; reflexivity.
Qed.

Lemma lw_fresh : NoDup ((fun c => (generate_prekey (lh_suite lw_host) c).1) <$> [w_cs 1; w_cs 2; w_cs 3]).
Proof. refine (bool_decide_unpack _ _). by vm_compute. Qed.

Lemma link_completes_witness :
  exists init resp confirm ct1 ct2 linked,
    link_accept lw_host (w_cs 1) (w_cs 3) 6%nat (mkStream [init; confirm; ct1] [] 2) = (Some true, mkStream [] [resp; ct2] 0) /\
    link_request (id_from_secret_bytes (bstr "dev")) hw_suite w_root (bstr "phone") 1010 5%nat (w_cs 2) (mkStream [resp; ct2] [] 3) =
      (Ok linked, mkStream [] [init; confirm; ct1] 0).
Proof.
  destruct (link_completes lw_host (bstr "acct") (bstr "bob") (bstr "dev") (bstr "phone") 1010 5%nat 6%nat (w_cs 1) (w_cs 2) (w_cs 3))
    as (init & resp & confirm & ct1 & ct2 & H1 & H2).
  - apply noise_ok.
  - exact lw_setting.
  - exact lw_fresh.
  - by vm_compute.
  - by vm_compute.
  - exists init, resp, confirm, ct1, ct2. eexists. split; [exact H1|exact H2].
Defined.

Lemma lw_grants : exists s, (link_accept lw_host (w_cs 1) (w_cs 3) 6%nat s).1 = Some true.
Proof.
  destruct (pairing_runs lw_host (bstr "acct") (bstr "bob") (bstr "dev") (bstr "phone") 1010 5%nat 6%nat (w_cs 1) (w_cs 2) (w_cs 3))
    as (init & resp & confirm & ct1 & ct2 & H1 & _);
    [apply noise_ok|exact lw_setting|exact lw_fresh|by vm_compute|by vm_compute|].
  eexists. rewrite H1. reflexivity.
Qed.

(** A connection that says nothing, then the device, then another one. *)
Lemma link_offer_once_witness :
  exists s, let silent := mkArrival (mkStream [] [] 9) (w_cs 4) (w_cs 5) 7%nat in
    length (link_run lw_host [silent; mkArrival s (w_cs 1) (w_cs 3) 6%nat; silent]) = 2%nat.
Proof.
  destruct lw_grants as [s Hs]. exists s. intros silent.
  destruct (link_accept lw_host (w_cs 1) (w_cs 3) 6%nat s) as [g s'] eqn:E. cbn [fst] in Hs. subst g.
  destruct (link_offer_once lw_host [silent; mkArrival s (w_cs 1) (w_cs 3) 6%nat; silent] 1 (Some true) s') as [Hi _].
  { cbn [link_run ar_prekey ar_reply ar_nonce ar_stream]. rewrite E. reflexivity. }
  destruct (Hi eq_refl) as [req [Hl _]]. symmetry. exact Hl.
Defined.

End LinkWitnesses.
