(* ===== verification/Custody.v ===== *)
(** * Key custody and sealing at rest (crates/core/src/{custody,seal}.rs,
      crates/server/src/keystore.rs)

    Custody tiers, the portable sealed envelope with its two factors (a passphrase
    and a secure element that wraps a key), and the passphrase-only keystore
    blobs.  Argon2id and the secure element are parameters.  Proved: what was sealed
    opens with its factors; it opens with nothing less, and with other factors only
    if the key derivation or the AEAD ciphertext is ambiguous; hardware-only sealing
    follows the quantum-safety policy. *)

From S2P Require Import Prelude Wire Crypto Toy Marking Frames Codec.

(** ** Tiers (custody.rs) *)

Inductive CustodyTier : Type := SoftwareSealed | OsKeystore | HardwareBacked.

#[export] Instance tier_eq_dec : EqDecision CustodyTier.
Proof. solve_decision. Defined.

Definition custody_tag (t : CustodyTier) : Z := match t with SoftwareSealed => 0 | OsKeystore => 1 | HardwareBacked => 2 end.
Definition custody_from_tag (t : Z) : result CoreError CustodyTier :=
  if decide (t = 0) then Ok SoftwareSealed else if decide (t = 1) then Ok OsKeystore
  else if decide (t = 2) then Ok HardwareBacked else Err (CMalformed "custody tier tag").

Record Capabilities : Type := mkCapabilities { cp_pq_identity : bool; cp_tiers : list CustodyTier }.

Definition caps_encode (c : Capabilities) : bytes :=
  w_new |> put_u8 (if cp_pq_identity c then 1 else 0) |> put_u32 (u32_wrap (zlen (cp_tiers c)))
        |> put_each (fun t => put_u8 (custody_tag t)) (cp_tiers c) |> into_vec.

Definition get_tier : Get CoreError CustodyTier := get* t := q get_u8 in glift (custody_from_tag t).

Definition caps_read : Get CoreError Capabilities :=
  get* pq := q get_u8 in
  get* tiers := counted 16 (CMalformed "too many custody tiers") get_tier in
  gret (mkCapabilities (bool_decide (pq <> 0)) tiers).
Definition caps_decode (b : bytes) : result CoreError Capabilities :=
  run_get (get* c := caps_read in get* _ := (fun r => map_err (fun _ => CMalformed "trailing capabilities bytes") (finish r)) in gret c) b.

(** [tiers.iter().copied().max()] under the derived order *)
Definition tier_max (a b : CustodyTier) : CustodyTier := if decide (custody_tag a <= custody_tag b) then b else a.
Definition caps_strongest (c : Capabilities) : option CustodyTier :=
  match cp_tiers c with [] => None | t :: l => Some (foldl tier_max t l) end.

Lemma custody_from_tag_spec t a : custody_from_tag t = Ok a <-> t = custody_tag a.
Proof. unfold custody_from_tag. destruct a; cbn; repeat case_decide; naive_solver lia. Qed.

#[export] Instance codec_tier : Codec get_tier (fun t => [byte_of (custody_tag t)]) (fun _ => True).
Proof.
  split.
  - intros a _. rewrite <- (app_nil_r [byte_of _]). apply decodes_u8_tag; [by destruct a|].
    rewrite (proj2 (custody_from_tag_spec (custody_tag a) a) eq_refl). apply decodes_lift.
  - intros r a r' Hw H. unfold get_tier, gbind, glift in H. apply rbind_Ok in H as ([t r1] & H1%inverts_q & H).
    destruct (inverts_u8 _ _ _ Hw H1) as (? & E1 & _). apply rbind_Ok in H as (a' & H2 & [= <- <-]).
    apply custody_from_tag_spec in H2 as ->. done.
Qed.

(** ** The envelope (seal.rs) *)

Definition SEAL_MAGIC : bytes := bstr "TKS1".
Definition SEAL_VERSION : Z := 1.
Definition SALT_LEN : nat := 16.
Definition KEK_LEN : nat := 32.
Definition FLAG_PASSPHRASE : Z := 1.
Definition FLAG_HARDWARE : Z := 2.
Definition KEK_LABEL : bytes := bstr "talkrypt-seal-kek-v1".
Definition KEK_CONTEXT : bytes := bstr "talkrypt-at-rest-seal".

(** The [KeyWrapper] trait: a secure element of the host. *)
Record KeyWrapper : Type := mkKeyWrapper {
  kw_wrap : bytes -> result bytes bytes; kw_unwrap : bytes -> result bytes bytes; kw_qrom_safe : bool }.

Record SealOptions : Type := mkSealOptions {
  so_passphrase : option bytes; so_wrapper : option KeyWrapper; so_allow_weak : bool }.

Definition has_flag (flags f : Z) : bool := bool_decide (Z.land flags f <> 0).

Definition encode_header (tier : CustodyTier) (flags : Z) (has_pw : bool) (salt : bytes) (has_hw : bool)
    (wrapped_kek nonce : bytes) : bytes :=
  let w := w_new |> put_bytes SEAL_MAGIC |> put_u8 SEAL_VERSION |> put_u8 (custody_tag tier) |> put_u8 flags in
  let w := if has_pw then put_bytes salt w else w in
  let w := if has_hw then put_bytes wrapped_kek w else w in
  w |> put_bytes nonce |> into_vec.

(** What an envelope says. *)
Record Envelope : Type := mkEnvelope {
  ev_tier : CustodyTier; ev_flags : Z; ev_salt : bytes; ev_wrapped : bytes; ev_nonce : bytes; ev_ct : bytes }.
Definition ev_pw (e : Envelope) : bool := has_flag (ev_flags e) FLAG_PASSPHRASE.
Definition ev_hw (e : Envelope) : bool := has_flag (ev_flags e) FLAG_HARDWARE.
Definition ev_header (e : Envelope) : bytes :=
  encode_header (ev_tier e) (ev_flags e) (ev_pw e) (ev_salt e) (ev_hw e) (ev_wrapped e) (ev_nonce e).

Definition check_magic : Get CoreError unit :=
  get* magic := q get_bytes in if decide (magic <> SEAL_MAGIC) then gfail (CSeal "bad seal magic") else gret tt.
Definition check_version : Get CoreError unit :=
  get* v := q get_u8 in if decide (v <> SEAL_VERSION) then gfail (CSeal "unsupported seal version") else gret tt.
Definition get_flags : Get CoreError Z :=
  get* flags := q get_u8 in
  if negb (has_flag flags FLAG_PASSPHRASE) && negb (has_flag flags FLAG_HARDWARE)
  then gfail (CSeal "seal declares no custody factor") else gret flags.
Definition when_flag {A} (c : bool) (dflt : A) (g : Get CoreError A) : Get CoreError A := if c then g else gret dflt.

Definition envelope_read : Get CoreError Envelope :=
  get* _ := check_magic in
  get* _ := check_version in
  get* tier := get_tier in
  get* flags := get_flags in
  get* salt := when_flag (has_flag flags FLAG_PASSPHRASE) (replicate SALT_LEN (byte_of 0)) (sized SALT_LEN (CSeal "bad salt length")) in
  get* wrapped := when_flag (has_flag flags FLAG_HARDWARE) [] (q get_bytes) in
  get* nonce := sized NONCE_LEN (CSeal "bad nonce length") in
  get* ct := q get_bytes in
  gret (mkEnvelope tier flags salt wrapped nonce ct).

Definition tier_of (blob : bytes) : result CoreError CustodyTier :=
  run_get (get* _ := check_magic in get* _ := check_version in get_tier) blob.

(** ** The envelope's wire form *)

Record envelope_ok (e : Envelope) : Prop := {
  eo_flags : is_u8 (ev_flags e);
  eo_factor : ev_pw e = true \/ ev_hw e = true;
  eo_salt : if ev_pw e then length (ev_salt e) = SALT_LEN else ev_salt e = replicate SALT_LEN (byte_of 0);
  eo_wrapped : if ev_hw e then short (ev_wrapped e) else ev_wrapped e = [];
  eo_nonce : length (ev_nonce e) = NONCE_LEN;
  eo_ct : short (ev_ct e) }.

Definition enc_when (c : bool) (b : bytes) : bytes := if c then enc_bytes b else [].
Definition enc_envelope (e : Envelope) : bytes :=
  enc_bytes SEAL_MAGIC ++ [byte_of SEAL_VERSION] ++ [byte_of (custody_tag (ev_tier e))] ++ [byte_of (ev_flags e)] ++
  enc_when (ev_pw e) (ev_salt e) ++ enc_when (ev_hw e) (ev_wrapped e) ++ enc_bytes (ev_nonce e) ++ enc_bytes (ev_ct e).

Lemma enc_envelope_split e : enc_envelope e = ev_header e ++ enc_bytes (ev_ct e).
Proof.
  unfold enc_envelope, ev_header, encode_header, enc_when. destruct (ev_pw e), (ev_hw e); wire_norm; by rewrite <- ?(assoc (++)).
Qed.

Lemma codec_magic : Codec check_magic (fun _ => enc_bytes SEAL_MAGIC) (fun _ => True).
Proof.
  unfold check_magic. split.
  - intros [] _. rewrite <- (app_nil_r (enc_bytes _)). eapply decodes_bind; [apply decodes_q, decodes_bytes; by vm_compute|].
    apply decodes_ret.
  - intros r [] r' Hw H. unfold gbind in H. apply rbind_Ok in H as ([m r1] & H1%inverts_q & H).
    destruct (inverts_bytes _ _ _ Hw H1) as (Hw1 & E1 & _). case_decide as Hm; [done|]. injection H as <-.
    by subst m.
Qed.

Lemma codec_version : Codec check_version (fun _ => [byte_of SEAL_VERSION]) (fun _ => True).
Proof.
  unfold check_version. split.
  - intros [] _. rewrite <- (app_nil_r [_]). apply decodes_u8_tag; [by vm_compute|]. apply decodes_ret.
  - intros r [] r' Hw H. unfold gbind in H. apply rbind_Ok in H as ([m r1] & H1%inverts_q & H).
    destruct (inverts_u8 _ _ _ Hw H1) as (Hw1 & E1 & _). case_decide as Hm; [done|]. injection H as <-.
    by subst m.
Qed.

Definition flags_ok (f : Z) : Prop := is_u8 f /\ (has_flag f FLAG_PASSPHRASE = true \/ has_flag f FLAG_HARDWARE = true).

Lemma codec_flags : Codec get_flags (fun f => [byte_of f]) flags_ok.
Proof.
  unfold get_flags, flags_ok. split.
  - intros f [Hf Hb]. rewrite <- (app_nil_r [_]). apply decodes_u8_tag; [done|].
    destruct (has_flag f FLAG_PASSPHRASE), (has_flag f FLAG_HARDWARE); cbn; try apply decodes_ret. destruct Hb; done.
  - intros r f r' Hw H. unfold gbind in H. apply rbind_Ok in H as ([m r1] & H1%inverts_q & H).
    destruct (inverts_u8 _ _ _ Hw H1) as (Hw1 & E1 & Hu).
    destruct (has_flag m FLAG_PASSPHRASE) eqn:E2, (has_flag m FLAG_HARDWARE) eqn:E3; cbn in H; try done; injection H as <- <-; auto 6.
Qed.

Lemma codec_when c dflt (g : Get CoreError bytes) ok :
  Codec g enc_bytes ok -> Codec (when_flag c dflt g) (enc_when c) (fun x => if c then ok x else x = dflt).
Proof. intros Hg. unfold when_flag. destruct c; [exact Hg|]. by apply codec_con0. Qed.

Lemma codec_envelope : Codec envelope_read enc_envelope envelope_ok.
Proof.
  unfold envelope_read, enc_envelope. apply codec_const; [apply codec_magic|]. apply codec_const; [apply codec_version|].
  eapply (codec_iff _ _ _ (fun b => _ /\ True)).
  { eapply (codec_bind _ _ ev_tier); [apply codec_tier|intros tier _].
    eapply (codec_bind _ _ ev_flags); [apply codec_flags|intros flags _].
    eapply (codec_bind_dep _ _ ev_salt _ _ (fun b => enc_when (ev_pw b) (ev_salt b)) _
        (fun b => if ev_pw b then length (ev_salt b) = SALT_LEN else ev_salt b = replicate SALT_LEN (byte_of 0)));
      [apply codec_when, codec_sized; by vm_compute|intros b [_ Hb]; unfold ev_pw; by rewrite Hb|intros salt _].
    eapply (codec_bind_dep _ _ ev_wrapped _ _ (fun b => enc_when (ev_hw b) (ev_wrapped b)) _
        (fun b => if ev_hw b then short (ev_wrapped b) else ev_wrapped b = []));
      [apply codec_when, codec_bytes|intros b [[_ Hb] _]; unfold ev_hw; by rewrite Hb|intros wrapped _].
    eapply (codec_bind _ _ ev_nonce); [apply codec_sized; by vm_compute|intros nonce _].
    eapply (codec_bind _ _ ev_ct); [apply codec_bytes|intros ct _].
    apply codec_ret. intros []; cbn; naive_solver. }
  - intros e. unfold flags_ok. split; [intros [H _]; destruct_and?; by split|intros []; split_and!; done].
  - intros e _. cbn. by rewrite app_nil_r.
Qed.

Lemma envelope_decode_exact b e : zlen b <= usize_max -> run_get (strict envelope_read) b = Ok e <-> envelope_ok e /\ b = enc_envelope e.
Proof. apply (codec_exact _ _ _ _ _ codec_envelope). Qed.

Section Sealing.
Context {P : Primitives} (argon2id : bytes -> bytes -> option bytes).

Definition derive_kek (flags : Z) (has_hw : bool) (kek_rand : bytes) (has_pw : bool) (pw_key : bytes) : bytes :=
  let material := w_new |> put_u8 flags in
  let material := if has_hw then put_bytes kek_rand material else material in
  let material := if has_pw then put_bytes pw_key material else material in
  mac_kdf KEK_CONTEXT (into_vec material) KEK_LABEL 32.

Definition zeros (n : nat) : bytes := replicate n (byte_of 0).

(** [argon2id] panics where it yields nothing (the [expect] in [argon2id_key]); so
    may sealing. *)
Definition pw_factor (pw : option bytes) (salt : bytes) : option bytes :=
  match pw with Some pw => argon2id pw salt | None => Some (zeros KEK_LEN) end.

Definition custody_seal (cs : nat -> coins) (plaintext : bytes) (opts : SealOptions) : option (result CoreError bytes) :=
  let has_pw := bool_decide (is_Some (so_passphrase opts)) in
  let has_hw := match so_wrapper opts with Some _ => true | None => false end in
  if negb has_pw && negb has_hw then Some (Err (CSeal "at least one of passphrase or hardware wrapper is required"))
  else if has_hw && negb has_pw && negb (match so_wrapper opts with Some w => kw_qrom_safe w | None => false end) && negb (so_allow_weak opts)
  then Some (Err (CSeal "hardware-only custody is not QROM/L5-safe unless the wrapper attests a symmetric wrap (qrom_safe) — pair it with a passphrase, or explicitly set allow_weak_hardware_only for a classical hardware-bound tier"))
  else
    let flags := Z.lor (if has_pw then FLAG_PASSPHRASE else 0) (if has_hw then FLAG_HARDWARE else 0) in
    let tier := if has_hw then HardwareBacked else SoftwareSealed in
    let kek_rand := if has_hw then random_bytes (cs 0%nat) KEK_LEN else zeros KEK_LEN in
    match match so_wrapper opts with Some w => map_err CWrap (kw_wrap w kek_rand) | None => Ok [] end with
    | Err e => Some (Err e)
    | Ok wrapped_kek =>
        let salt := if has_pw then random_bytes (cs 1%nat) SALT_LEN else zeros SALT_LEN in
        match pw_factor (so_passphrase opts) salt with
        | None => None
        | Some pw_key =>
            let nonce := random_bytes (cs 2%nat) NONCE_LEN in
            let header := encode_header tier flags has_pw salt has_hw wrapped_kek nonce in
            let k_final := derive_kek flags has_hw kek_rand has_pw pw_key in
            Some (let* ct := map_err CCrypto (aead_seal k_final nonce plaintext header) in
                  Ok (header ++ (w_new |> put_bytes ct |> into_vec)))
        end
    end.

(** The key of an envelope, from the factors at hand. *)
Definition unseal_kek (e : Envelope) (passphrase : option bytes) (wrapper : option KeyWrapper) : option (result CoreError bytes) :=
  if ev_pw e && negb (bool_decide (is_Some passphrase)) then Some (Err (CSeal "passphrase required to unseal this blob"))
  else if ev_hw e && match wrapper with None => true | Some _ => false end
  then Some (Err (CSeal "hardware key-wrapper required to unseal this blob"))
  else
    match (if ev_hw e then
             match wrapper with
             | Some w =>
                 let* unwrapped := map_err CWrap (kw_unwrap w (ev_wrapped e)) in
                 if decide (length unwrapped <> KEK_LEN) then Err (CSeal "unwrapped KEK has wrong length") else Ok unwrapped
             | None => Ok (zeros KEK_LEN)
             end
           else Ok (zeros KEK_LEN)) with
    | Err e => Some (Err e)
    | Ok kek_rand =>
        (fun pw_key => Ok (derive_kek (ev_flags e) (ev_hw e) kek_rand (ev_pw e) pw_key))
          <$> pw_factor (if ev_pw e then passphrase else None) (ev_salt e)
    end.

Definition custody_unseal (blob : bytes) (passphrase : option bytes) (wrapper : option KeyWrapper) : option (result CoreError bytes) :=
  match run_get (strict envelope_read) blob with
  | Err err => Some (Err err)
  | Ok e =>
      match unseal_kek e passphrase wrapper with
      | None => None
      | Some (Err err) => Some (Err err)
      | Some (Ok k_final) => Some (map_err CCrypto (aead_open k_final (ev_nonce e) (ev_ct e) (ev_header e)))
      end
  end.

(** ** What sealing gives *)

Context {OK : PrimitivesOk P}.

(** A wrapper unwraps what it wrapped, on the same device, and its blobs fit a field. *)
Definition wrapper_ok (w : KeyWrapper) : Prop :=
  forall kek b, kw_wrap w kek = Ok b -> kw_unwrap w b = Ok kek /\ zlen b <= 2 ^ 20.

(** The envelope a successful sealing wrote, and its key. *)
Lemma custody_seal_inv cs pt opts blob :
  custody_seal cs pt opts = Some (Ok blob) -> (forall w, so_wrapper opts = Some w -> wrapper_ok w) -> zlen pt <= 2 ^ 20 ->
  exists e k, blob = enc_envelope e /\ envelope_ok e /\ zlen blob <= usize_max /\
    ev_pw e = bool_decide (is_Some (so_passphrase opts)) /\ ev_hw e = (match so_wrapper opts with Some _ => true | None => false end) /\
    unseal_kek e (so_passphrase opts) (so_wrapper opts) = Some (Ok k) /\
    aead_seal k (ev_nonce e) pt (ev_header e) = Ok (ev_ct e) /\
    ev_tier e = (if ev_hw e then HardwareBacked else SoftwareSealed).
Proof.
  unfold custody_seal. set (has_pw := bool_decide (is_Some (so_passphrase opts))).
  set (has_hw := match so_wrapper opts with Some _ => true | None => false end).
  intros H Hw Hpt. destruct (negb has_pw && negb has_hw) eqn:Hnone; [done|].
  destruct (_ && negb (so_allow_weak opts)); [done|].
  set (flags := Z.lor (if has_pw then FLAG_PASSPHRASE else 0) (if has_hw then FLAG_HARDWARE else 0)) in *.
  set (kek := if has_hw then random_bytes (cs 0%nat) KEK_LEN else zeros KEK_LEN) in *.
  destruct (match so_wrapper opts with Some w => map_err CWrap (kw_wrap w kek) | None => Ok [] end) as [wrapped|] eqn:Ew; [|done].
  set (salt := if has_pw then random_bytes (cs 1%nat) SALT_LEN else zeros SALT_LEN) in *.
  destruct (pw_factor (so_passphrase opts) salt) as [pwk|] eqn:Ep; [|done].
  set (nonce := random_bytes (cs 2%nat) NONCE_LEN) in *. set (header := encode_header _ _ _ _ _ _ _) in *.
  injection H as H. apply rbind_Ok in H as (ct & Hct & Hblob).
  destruct (aead_seal _ nonce pt header) as [ct'|] eqn:Es; [|done]. injection Hct as ->.
  assert (has_flag flags FLAG_PASSPHRASE = has_pw /\ has_flag flags FLAG_HARDWARE = has_hw /\ is_u8 flags) as (Hfp & Hfh & Hf8).
  { unfold flags. destruct has_pw, has_hw; by vm_compute. }
  set (e := mkEnvelope (if has_hw then HardwareBacked else SoftwareSealed) flags salt wrapped nonce ct).
  assert (ev_pw e = has_pw /\ ev_hw e = has_hw) as [Hp Hh] by (unfold ev_pw, ev_hw; cbn; done).
  assert (ev_header e = header) as Hhd by (unfold ev_header; rewrite Hp, Hh; done).
  assert (length nonce = NONCE_LEN) as Hln by apply random_bytes_len.
  assert (zlen wrapped <= 2 ^ 20 /\ (has_hw = false -> wrapped = [])) as [Hwl Hw0].
  { unfold has_hw. destruct (so_wrapper opts) as [w|]; [|by injection Ew as <-].
    destruct (kw_wrap w kek) as [b|] eqn:Eb; [|done]. injection Ew as <-. split; [|done]. by apply (Hw w eq_refl _ _ Eb). }
  assert (length salt = SALT_LEN) as Hsl by (unfold salt; destruct has_pw; [apply random_bytes_len|done]).
  assert (zlen header <= 2 ^ 21) as Hhl.
  { rewrite <- Hhd. unfold ev_header, encode_header. rewrite Hp, Hh.
    assert (zlen salt = 16 /\ zlen nonce = 12) as [Hz1 Hz2] by (unfold zlen; rewrite Hsl, Hln; done).
    cbn [ev_tier ev_flags ev_salt ev_wrapped ev_nonce e]. destruct has_pw, has_hw; wire_norm;
      rewrite !zlen_app, !zlen_enc_bytes, !zlen_cons, !zlen_nil; change (zlen SEAL_MAGIC) with 4; lia. }
  destruct (aead_seal_total (derive_kek flags has_hw kek has_pw pwk) nonce pt header) as (ct'' & Es' & Hcl); [apply mac_kdf_len|lia|lia|].
  rewrite Es in Es'. injection Es' as <-.
  assert (blob = enc_envelope e) as ->.
  { change (Ok (E:=CoreError) (header ++ into_vec (put_bytes ct w_new)) = Ok blob) in Hblob.
    assert (header ++ into_vec (put_bytes ct w_new) = blob) as <- by congruence. rewrite enc_envelope_split, Hhd. by wire_norm. }
  exists e, (derive_kek flags has_hw kek has_pw pwk). split; [done|]. split; [|split; [|split; [done|split; [done|split; [|split; [by rewrite Hhd|by rewrite Hh]]]]]].
  - split; rewrite ?Hp, ?Hh; [done| | | |done|unfold short, MAX_FRAME; cbn; lia].
    + destruct has_pw, has_hw; auto.
    + by unfold salt in *; destruct has_pw.
    + destruct has_hw; [unfold short, MAX_FRAME; cbn; lia|]. by apply Hw0.
  - rewrite enc_envelope_split, Hhd, zlen_app, zlen_enc_bytes. unfold usize_max. cbn [ev_ct e]. lia.
  - unfold unseal_kek. rewrite Hp, Hh. cbn [ev_wrapped ev_flags ev_salt e].
    assert (has_pw && negb (bool_decide (is_Some (so_passphrase opts))) = false) as -> by (fold has_pw; by destruct has_pw).
    assert (has_hw && match so_wrapper opts with None => true | Some _ => false end = false) as -> by (unfold has_hw; by destruct (so_wrapper opts)).
    assert (pw_factor (if has_pw then so_passphrase opts else None) salt = Some pwk) as ->.
    { destruct has_pw eqn:E; [done|]. unfold has_pw in E. apply bool_decide_eq_false in E.
      destruct (so_passphrase opts); [by destruct E|done]. }
    assert (length kek = KEK_LEN) as Hkl by (unfold kek; destruct has_hw; [apply random_bytes_len|done]).
    clearbody kek. unfold has_hw in *. destruct (so_wrapper opts) as [w|] eqn:Eo; [|done]. 
    destruct (kw_wrap w kek) as [b|] eqn:Eb; [|done]. injection Ew as <-. rewrite (proj1 (Hw w eq_refl _ _ Eb)). cbn [map_err rbind].
    rewrite decide_False by (intros Hn; by apply Hn). done.
Qed.

(** Whatever opens was sealed under its own header and the key of the factors. *)
Lemma custody_unseal_inv blob pw w pt :
  zlen blob <= usize_max -> custody_unseal blob pw w = Some (Ok pt) ->
  exists e k, blob = enc_envelope e /\ envelope_ok e /\ unseal_kek e pw w = Some (Ok k) /\
    aead_seal k (ev_nonce e) pt (ev_header e) = Ok (ev_ct e).
Proof.
  intros Hl H. unfold custody_unseal in H. destruct (run_get _ blob) as [e|] eqn:Er; [|done].
  apply envelope_decode_exact in Er as [Hok ->]; [|done]. destruct (unseal_kek e pw w) as [[k|]|] eqn:Ek; [|done..].
  exists e, k. split; [done|]. split; [done|]. split; [done|]. injection H as H.
  destruct (aead_open _ _ _ _) as [x|] eqn:Eo; [|done]. injection H as ->. by apply aead_seal_open.
Qed.

Lemma unseal_kek_needs e pw w k :
  unseal_kek e pw w = Some (Ok k) -> (ev_pw e = true -> is_Some pw) /\ (ev_hw e = true -> is_Some w).
Proof.
  unfold unseal_kek. destruct (ev_pw e), (ev_hw e); cbn [andb]; try case_bool_decide; cbn [negb]; destruct w; cbn; try done; naive_solver eauto.
Qed.

Lemma enc_envelope_inj e e' : envelope_ok e -> envelope_ok e' -> zlen (enc_envelope e) <= usize_max -> enc_envelope e = enc_envelope e' -> e = e'.
Proof.
  intros H H' Hl E. pose proof (proj2 (envelope_decode_exact _ e Hl) (conj H eq_refl)) as D.
  pose proof (proj2 (envelope_decode_exact _ e' Hl) (conj H' E)) as D'. congruence.
Qed.

(** What was sealed opens with the same factors. *)
Lemma custody_opens cs pt opts blob :
  custody_seal cs pt opts = Some (Ok blob) -> (forall w, so_wrapper opts = Some w -> wrapper_ok w) -> zlen pt <= 2 ^ 20 ->
  custody_unseal blob (so_passphrase opts) (so_wrapper opts) = Some (Ok pt).
Proof.
  intros Hs Hw Hpt. destruct (custody_seal_inv _ _ _ _ Hs Hw Hpt) as (e & k & -> & Hok & Hl & Hp & Hh & Hk & Hct & _).
  unfold custody_unseal. rewrite (proj2 (envelope_decode_exact _ e Hl) (conj Hok eq_refl)), Hk. by rewrite (aead_open_seal _ _ _ _ _ Hct).
Qed.

(** What the factors at hand contribute to the key of an envelope: the passphrase its
    Argon2id key under the envelope's salt, the device what it unwraps. *)
Definition factors (e : Envelope) (pw : option bytes) (w : option KeyWrapper) (pwk kek : option bytes) : Prop :=
  (if ev_pw e then exists p x, pw = Some p /\ argon2id p (ev_salt e) = Some x /\ pwk = Some x else pwk = None) /\
  (if ev_hw e then exists d x, w = Some d /\ kw_unwrap d (ev_wrapped e) = Ok x /\ length x = KEK_LEN /\ kek = Some x else kek = None).

(** The bytes the key is derived from: the flags and every factor in use. *)
Definition key_input (flags : Z) (pwk kek : option bytes) : bytes :=
  [byte_of flags] ++ default [] (enc_bytes <$> kek) ++ default [] (enc_bytes <$> pwk).
Definition key_of (flags : Z) (pwk kek : option bytes) : bytes := mac_kdf KEK_CONTEXT (key_input flags pwk kek) KEK_LABEL 32.

Lemma unseal_kek_factors e pw w k : unseal_kek e pw w = Some (Ok k) ->
  exists pwk kek, factors e pw w pwk kek /\ k = key_of (ev_flags e) pwk kek.
Proof.
  unfold unseal_kek, factors. destruct (ev_pw e && _) eqn:Ep; [done|]. destruct (ev_hw e && _) eqn:Eh; [done|].
  set (dev := if ev_hw e then _ else _). destruct dev as [kr|] eqn:Ed; [|done]. intros H. apply fmap_Some in H as (y & Hy & [= ->]).
  assert (if ev_hw e then exists d, w = Some d /\ kw_unwrap d (ev_wrapped e) = Ok kr /\ length kr = KEK_LEN else True) as Hd.
  { unfold dev in Ed. destruct (ev_hw e); [|done]. destruct w as [d|]; [|done]. apply rbind_Ok in Ed as (x & Hx & Hl).
    destruct (kw_unwrap d (ev_wrapped e)) as [x'|] eqn:Eu; [|done]. injection Hx as ->. case_decide as Hn; [done|]. injection Hl as ->.
    exists d. split; [done|]. split; [done|]. exact Hn. }
  assert (if ev_pw e then exists p, pw = Some p /\ argon2id p (ev_salt e) = Some y else True) as Hp.
  { destruct (ev_pw e); [|done]. destruct pw as [p|]; [by exists p|]. rewrite bool_decide_false in Ep by (by intros []). done. }
  exists (if ev_pw e then Some y else None), (if ev_hw e then Some kr else None). split.
  - split; [destruct (ev_pw e); [|done]|destruct (ev_hw e); [|done]].
    + destruct Hp as (p & -> & ?). by exists p, y.
    + destruct Hd as (d & -> & ? & ?). by exists d, kr.
  - unfold derive_kek, key_of, key_input. f_equal. destruct (ev_pw e), (ev_hw e); wire_norm; cbn; rewrite ?app_nil_r; done.
Qed.

Lemma enc_bytes_whole a b : enc_bytes a = enc_bytes b -> a = b.
Proof. with_strategy transparent [enc_bytes] (unfold enc_bytes). intros E. apply app_inj_1 in E as [_ ->]; [done|by rewrite !length_be_bytes]. Qed.

(** Different factors give different inputs. *)
Lemma key_input_inj e pw w pwk kek pw' w' pwk' kek' :
  factors e pw w pwk kek -> factors e pw' w' pwk' kek' ->
  key_input (ev_flags e) pwk kek = key_input (ev_flags e) pwk' kek' -> pwk = pwk' /\ kek = kek'.
Proof.
  intros [Hp Hk] [Hp' Hk']. unfold key_input. intros [= E].
  assert (kek = kek' /\ default [] (enc_bytes <$> pwk) = default [] (enc_bytes <$> pwk')) as [-> E2].
  { destruct (ev_hw e).
    - destruct Hk as (_ & x & _ & _ & Hx & ->), Hk' as (_ & x' & _ & _ & Hx' & ->). cbn in E.
      apply enc_bytes_inj in E as [-> E]; [done|unfold zlen; rewrite ?Hx, ?Hx'; unfold KEK_LEN; lia..].
    - by subst. }
  split; [|done]. destruct (ev_pw e); [|by subst].
  destruct Hp as (_ & y & _ & _ & ->), Hp' as (_ & y' & _ & _ & ->). cbn in E2.
  by rewrite (enc_bytes_whole _ _ E2).
Qed.

(** C14: a sealed secret opens with its factors and with nothing less.  What [seal]
    returned opens, with the same passphrase and on the same device, to the secret.
    Whatever factors someone else tries, opening succeeds only if a passphrase is given
    where one was set and a device where one was used; and then either the passphrase
    gives the same Argon2id key under the blob's salt and the device unwraps the very key
    that was wrapped, and the secret comes out; or the key derivation collides on two
    different inputs, which spell out these factors; or the very same ciphertext is also a
    sealing, under that header, with a different key. *)
Theorem sealed_needs_factors (cs : nat -> coins) (pt : bytes) (opts : SealOptions) (blob : bytes) :
  custody_seal cs pt opts = Some (Ok blob) -> (forall w, so_wrapper opts = Some w -> wrapper_ok w) -> zlen pt <= 2 ^ 20 ->
  custody_unseal blob (so_passphrase opts) (so_wrapper opts) = Some (Ok pt) /\
  forall pw' w' pt', custody_unseal blob pw' w' = Some (Ok pt') ->
    (is_Some (so_passphrase opts) -> is_Some pw') /\ (is_Some (so_wrapper opts) -> is_Some w') /\
    exists e pwk kek pwk' kek', blob = enc_envelope e /\
      factors e (so_passphrase opts) (so_wrapper opts) pwk kek /\ factors e pw' w' pwk' kek' /\
      (is_Some (so_passphrase opts) <-> is_Some pwk) /\ (is_Some (so_wrapper opts) <-> is_Some kek) /\
      ((pwk' = pwk /\ kek' = kek /\ pt' = pt) \/
       (key_input (ev_flags e) pwk' kek' <> key_input (ev_flags e) pwk kek /\
        key_of (ev_flags e) pwk' kek' = key_of (ev_flags e) pwk kek) \/
       (key_of (ev_flags e) pwk' kek' <> key_of (ev_flags e) pwk kek /\
        aead_seal (key_of (ev_flags e) pwk kek) (ev_nonce e) pt (ev_header e) = Ok (ev_ct e) /\
        aead_seal (key_of (ev_flags e) pwk' kek') (ev_nonce e) pt' (ev_header e) = Ok (ev_ct e))).
Proof.
  intros Hs Hw Hpt. split; [exact (custody_opens _ _ _ _ Hs Hw Hpt)|].
  destruct (custody_seal_inv _ _ _ _ Hs Hw Hpt) as (e & k & -> & Hok & Hl & Hp & Hh & Hk & Hct & _).
  intros pw' w' pt' Hu. destruct (custody_unseal_inv _ _ _ _ Hl Hu) as (e' & k' & E & Hok' & Hk' & Hct').
  apply enc_envelope_inj in E as <-; [|done..]. destruct (unseal_kek_needs _ _ _ _ Hk') as [Np Nh]. rewrite Hp in Np. rewrite Hh in Nh.
  split; [intros Hx; apply Np; by apply bool_decide_eq_true|]. split; [intros [x Hx]; apply Nh; by rewrite Hx|].
  destruct (unseal_kek_factors _ _ _ _ Hk) as (pwk & kek & Hf & ->), (unseal_kek_factors _ _ _ _ Hk') as (pwk' & kek' & Hf' & ->).
  exists e, pwk, kek, pwk', kek'. split_and!; [done..| | |].
  - destruct Hf as [Hf _]. rewrite Hp in Hf. case_bool_decide as Hb; [destruct Hf as (? & ? & _ & _ & ->); split; eauto|]. subst. by split; [|intros []].
  - destruct Hf as [_ Hf]. rewrite Hh in Hf. destruct (so_wrapper opts); [destruct Hf as (? & ? & _ & _ & _ & ->); split; eauto|]. subst. by split; intros [].
  - destruct (decide (key_of (ev_flags e) pwk' kek' = key_of (ev_flags e) pwk kek)) as [Ek|]; [|by right; right].
    destruct (decide (key_input (ev_flags e) pwk' kek' = key_input (ev_flags e) pwk kek)) as [Ei|]; [left|by right; left].
    destruct (key_input_inj _ _ _ _ _ _ _ _ _ Hf' Hf Ei) as [-> ->]. split_and!; [done..|].
    apply aead_open_seal in Hct, Hct'. congruence.
Qed.

(** Sealing to hardware alone needs a wrapper that is safe against a quantum adversary,
    or the explicit opt-out; and with no factor at all nothing is sealed. *)
Lemma seal_policy cs pt opts blob :
  custody_seal cs pt opts = Some (Ok blob) ->
  is_Some (so_passphrase opts) \/ exists w, so_wrapper opts = Some w /\ (kw_qrom_safe w = true \/ so_allow_weak opts = true).
Proof.
  unfold custody_seal. case_bool_decide as Hp; [by left|]. cbn [negb andb]. destruct (so_wrapper opts) as [w|]; cbn [andb negb]; [|done].
  intros H. right. exists w. split; [done|]. destruct (kw_qrom_safe w); [by left|]. destruct (so_allow_weak opts); [by right|done].
Qed.

End Sealing.

(** ** Keystore blobs (keystore.rs) *)

Inductive KeystoreError : Type := KsKdf | KsMalformed | KsDecrypt.

Definition KS_HEADER_LEN : nat := SALT_LEN + NONCE_LEN.

Section Keystore.
Context {P : Primitives} (argon2_default : bytes -> bytes -> option bytes).

Definition derive_key (passphrase salt : bytes) : result KeystoreError bytes := ok_or (argon2_default passphrase salt) KsKdf.

(** [Aes256Gcm::new_from_slice] takes 32 bytes. *)
Definition aes_new (key : bytes) : result KeystoreError bytes := if decide (length key <> KEY_LEN) then Err KsKdf else Ok key.

Definition ks_seal (cs : nat -> coins) (passphrase plaintext : bytes) : result KeystoreError bytes :=
  let salt := random_bytes (cs 0%nat) SALT_LEN in
  let nonce := random_bytes (cs 1%nat) NONCE_LEN in
  let* key := derive_key passphrase salt in
  let* cipher := aes_new key in
  let* ct := ok_or (gcm_encrypt cipher nonce plaintext []) KsDecrypt in
  Ok (salt ++ nonce ++ ct).

Definition ks_unseal (passphrase blob : bytes) : result KeystoreError bytes :=
  if decide (zlen blob < Z.of_nat KS_HEADER_LEN + 16) then Err KsMalformed
  else
    let salt := take SALT_LEN blob in
    let nonce := take NONCE_LEN (drop SALT_LEN blob) in
    let ct := drop KS_HEADER_LEN blob in
    let* key := derive_key passphrase salt in
    let* cipher := aes_new key in
    ok_or (gcm_decrypt cipher nonce ct []) KsDecrypt.

Lemma ks_roundtrip {OK : PrimitivesOk P} cs pw pt blob :
  zlen pt <= 2 ^ 32 -> ks_seal cs pw pt = Ok blob -> ks_unseal pw blob = Ok pt /\ zlen blob = zlen pt + 44.
Proof.
  intros Hl H. unfold ks_seal in H. apply rbind_Ok in H as (key & Hk & H). apply rbind_Ok in H as (k & Ha & H).
  apply rbind_Ok in H as (ct & Hc%ok_or_Ok & [= <-]).
  destruct (gcm_encrypt_total k (random_bytes (cs 1%nat) NONCE_LEN) pt []) as (ct' & E & Hlen); [lia|by vm_compute|].
  rewrite Hc in E. injection E as <-. pose proof (random_bytes_len (cs 0%nat) SALT_LEN) as Hs. pose proof (random_bytes_len (cs 1%nat) NONCE_LEN) as Hn.
  unfold ks_unseal. rewrite decide_False by (rewrite !zlen_app; unfold zlen; rewrite Hs, Hn, Hlen; unfold KS_HEADER_LEN, SALT_LEN, NONCE_LEN; lia).
  rewrite take_app_length', drop_app_length' by done. rewrite take_app_length' by done.
  rewrite Hk. cbn [rbind]. rewrite Ha. cbn [rbind]. split.
  - rewrite (assoc (++)), drop_app_length' by (rewrite length_app, Hs, Hn; done). by rewrite (gcm_decrypt_encrypt _ _ _ _ _ Hc).
  - rewrite !zlen_app. unfold zlen. rewrite Hs, Hn, Hlen. unfold SALT_LEN, NONCE_LEN. lia.
Qed.

End Keystore.

(** ** Examples *)

(** A passphrase and a device that flips nothing but appends a mark. *)
Definition cw_wrapper : KeyWrapper :=
  mkKeyWrapper (fun k => if decide (length k = KEK_LEN) then Ok (k ++ [byte_of 7]) else Err [])
    (fun b => Ok (take KEK_LEN b)) false.
Lemma cw_wrapper_ok w : Some cw_wrapper = Some w -> wrapper_ok w.
Proof.
  intros [= <-] kek b Hb. unfold cw_wrapper in *. cbn [kw_wrap kw_unwrap] in *.
  destruct (decide (length kek = KEK_LEN)) as [Hk|]; [|discriminate]. injection Hb as <-. split; [by rewrite take_app_length'|].
  rewrite zlen_app. unfold zlen at 1. rewrite Hk. by vm_compute.
Qed.
Definition cw_opts : SealOptions := mkSealOptions (Some (bstr "hunter2")) (Some cw_wrapper) false.
Definition cw_argon (p s : bytes) : option bytes := if decide (zlen s < 8) then None else Some (toy_fit (p ++ s)).

Lemma sealed_needs_factors_witness :
  exists blob, custody_seal (P := toy) cw_argon (fun n => n) (bstr "seed") cw_opts = Some (Ok blob) /\
    custody_unseal (P := toy) cw_argon blob (Some (bstr "hunter2")) (Some cw_wrapper) = Some (Ok (bstr "seed")).
Proof.
  destruct (custody_seal (P := toy) cw_argon (fun n => n) (bstr "seed") cw_opts) as [[blob|]|] eqn:E; [|exfalso; revert E; by vm_compute..].
  exists blob. split; [reflexivity|].
  apply (sealed_needs_factors (P := toy) cw_argon (fun n => n) (bstr "seed") cw_opts blob E); [exact cw_wrapper_ok|by vm_compute].
Defined.
