(* ===== verification/Helper.v ===== *)
(** * The helper's channel (crates/helper/src/{error,frame,protocol}.rs)

    Length-prefixed frames on the local stream, and the request and response formats
    of the key-custody helper.  Proved: frames read back as written, and both formats
    decode exactly what they encode. *)

From S2P Require Import Prelude Wire Crypto Toy Marking Frames Hybrid Suite Codec Invite Custody.

Inductive HelperError : Type :=
| HIo
| HProtocol (what : string)
| HFrameTooLarge (n : Z)
| HClosed
| HKeystore (e : KeystoreError)
| HCore (e : CoreError)
| HWire (e : WireError)
| HInvalidName
| HNotFound
| HInvalidInvite (what : string)
| HUnsupported (what : string)
| HKeychain.

#[export] Instance from_wire_helper : FromWire HelperError := HWire.

(** ** Frames (frame.rs) *)

Definition HELPER_MAX_FRAME : Z := 4 * 1024 * 1024.

(** On a stream of bytes that then ends. *)
Definition write_frame (body stream : bytes) : result HelperError bytes :=
  if decide (zlen body > HELPER_MAX_FRAME) then Err (HFrameTooLarge (zlen body))
  else Ok (stream ++ be_bytes 4 (u32_wrap (zlen body)) ++ body).

Definition read_frame (stream : bytes) : result HelperError (bytes * bytes) :=
  if decide (length stream < 4)%nat then Err HClosed
  else
    let n := be_val (take 4 stream) in
    if decide (n > HELPER_MAX_FRAME) then Err (HFrameTooLarge n)
    else
      let rest := drop 4 stream in
      if decide (zlen rest < n) then Err HIo else Ok (take (Z.to_nat n) rest, drop (Z.to_nat n) rest).

(** Frames written one after the other are read back in turn. *)
Lemma frame_roundtrip body rest s :
  zlen body <= HELPER_MAX_FRAME -> write_frame body [] = Ok s -> read_frame (s ++ rest) = Ok (body, rest).
Proof.
  intros Hb. unfold write_frame. rewrite decide_False by lia. intros [= <-]. cbn [app]. unfold read_frame.
  rewrite be_bytes_4_wrap, <- app_assoc. rewrite decide_False by (rewrite length_app, length_be_bytes; lia).
  rewrite take_app_length', drop_app_length' by (by rewrite length_be_bytes). pose proof (zlen_nonneg body). unfold HELPER_MAX_FRAME in *.
  rewrite be_val_bytes, Z.mod_small by (change (256 ^ Z.of_nat 4) with (2 ^ 32); lia). rewrite decide_False by lia.
  rewrite decide_False by (rewrite zlen_app; pose proof (zlen_nonneg rest); lia).
  unfold zlen at 1 2. rewrite Nat2Z.id. by rewrite take_app_length, drop_app_length.
Qed.

(** ** Requests and responses (protocol.rs) *)

Definition PROTOCOL_VERSION : Z := 1.

Inductive HRequest : Type :=
| HPing
| HSeal (passphrase secret : bytes)
| HUnseal (passphrase blob : bytes)
| HPut (name : bytes) (tier : Z) (passphrase secret : bytes)
| HGet (name passphrase : bytes)
| HDelete (name : bytes)
| HGenerateIdentity (name passphrase : bytes)
| HIdentityFingerprint (name passphrase : bytes)
| HValidateInvite (uri : bytes)
| HCapabilities.

Inductive HResponse : Type :=
| HPong (version : Z)
| HSealed (b : bytes)
| HUnsealed (b : bytes)
| HOk
| HSecret (b : bytes)
| HFingerprint (b : bytes)
| HInvite (suite_id scheme : bytes)
| HCapabilitiesR (b : bytes)
| HError (msg : bytes).

Definition hreq_encode (r : HRequest) : bytes :=
  match r with
  | HPing => w_new |> put_u8 0 |> into_vec
  | HSeal p s => w_new |> put_u8 1 |> put_bytes p |> put_bytes s |> into_vec
  | HUnseal p b => w_new |> put_u8 2 |> put_bytes p |> put_bytes b |> into_vec
  | HPut n t p s => w_new |> put_u8 3 |> put_bytes n |> put_u8 t |> put_bytes p |> put_bytes s |> into_vec
  | HGet n p => w_new |> put_u8 4 |> put_bytes n |> put_bytes p |> into_vec
  | HDelete n => w_new |> put_u8 5 |> put_bytes n |> into_vec
  | HGenerateIdentity n p => w_new |> put_u8 6 |> put_bytes n |> put_bytes p |> into_vec
  | HIdentityFingerprint n p => w_new |> put_u8 7 |> put_bytes n |> put_bytes p |> into_vec
  | HValidateInvite u => w_new |> put_u8 8 |> put_bytes u |> into_vec
  | HCapabilities => w_new |> put_u8 9 |> into_vec
  end.

(** [str_bytes(r.get_bytes()?)?] *)
Definition str_bytes : Get HelperError bytes := text (HProtocol "invalid utf-8").

Definition hreq_body (t : Z) : Get HelperError HRequest :=
  if decide (t = 0) then gret HPing
  else if decide (t = 1) then get* p := q get_vec in get* s := q get_vec in gret (HSeal p s)
  else if decide (t = 2) then get* p := q get_vec in get* b := q get_vec in gret (HUnseal p b)
  else if decide (t = 3) then
    get* n := str_bytes in get* tier := q get_u8 in get* p := q get_vec in get* s := q get_vec in gret (HPut n tier p s)
  else if decide (t = 4) then get* n := str_bytes in get* p := q get_vec in gret (HGet n p)
  else if decide (t = 5) then get* n := str_bytes in gret (HDelete n)
  else if decide (t = 6) then get* n := str_bytes in get* p := q get_vec in gret (HGenerateIdentity n p)
  else if decide (t = 7) then get* n := str_bytes in get* p := q get_vec in gret (HIdentityFingerprint n p)
  else if decide (t = 8) then get* u := str_bytes in gret (HValidateInvite u)
  else if decide (t = 9) then gret HCapabilities
  else gfail (HProtocol "unknown request tag").
Definition hreq_read : Get HelperError HRequest := get* t := q get_u8 in hreq_body t.
Definition hreq_decode (b : bytes) : result HelperError HRequest := run_get (strict hreq_read) b.

Definition hresp_encode (r : HResponse) : bytes :=
  match r with
  | HPong v => w_new |> put_u8 0 |> put_u32 v |> into_vec
  | HSealed b => w_new |> put_u8 1 |> put_bytes b |> into_vec
  | HUnsealed b => w_new |> put_u8 2 |> put_bytes b |> into_vec
  | HOk => w_new |> put_u8 3 |> into_vec
  | HSecret b => w_new |> put_u8 4 |> put_bytes b |> into_vec
  | HFingerprint b => w_new |> put_u8 5 |> put_bytes b |> into_vec
  | HInvite i s => w_new |> put_u8 6 |> put_bytes i |> put_bytes s |> into_vec
  | HCapabilitiesR b => w_new |> put_u8 7 |> put_bytes b |> into_vec
  | HError m => w_new |> put_u8 8 |> put_bytes m |> into_vec
  end.

Definition hresp_body (t : Z) : Get HelperError HResponse :=
  if decide (t = 0) then get* v := q get_u32 in gret (HPong v)
  else if decide (t = 1) then get* b := q get_vec in gret (HSealed b)
  else if decide (t = 2) then get* b := q get_vec in gret (HUnsealed b)
  else if decide (t = 3) then gret HOk
  else if decide (t = 4) then get* b := q get_vec in gret (HSecret b)
  else if decide (t = 5) then get* b := q get_vec in gret (HFingerprint b)
  else if decide (t = 6) then get* i := str_bytes in get* s := q get_vec in gret (HInvite i s)
  else if decide (t = 7) then get* b := q get_vec in gret (HCapabilitiesR b)
  else if decide (t = 8) then get* m := str_bytes in gret (HError m)
  else gfail (HProtocol "unknown response tag").
Definition hresp_read : Get HelperError HResponse := get* t := q get_u8 in hresp_body t.
Definition hresp_decode (b : bytes) : result HelperError HResponse := run_get (strict hresp_read) b.

Definition hreq_tag (r : HRequest) : Z :=
  match r with HPing => 0 | HSeal _ _ => 1 | HUnseal _ _ => 2 | HPut _ _ _ _ => 3 | HGet _ _ => 4 | HDelete _ => 5
  | HGenerateIdentity _ _ => 6 | HIdentityFingerprint _ _ => 7 | HValidateInvite _ => 8 | HCapabilities => 9 end.
Definition hreq_fields (r : HRequest) : bytes :=
  match r with
  | HPing | HCapabilities => []
  | HPut n t p s => enc_bytes n ++ [byte_of t] ++ enc_bytes p ++ enc_bytes s
  | HDelete n | HValidateInvite n => enc_bytes n
  | HSeal a b | HUnseal a b | HGet a b | HGenerateIdentity a b | HIdentityFingerprint a b => enc_bytes a ++ enc_bytes b
  end.
Definition hreq_ok (r : HRequest) : Prop :=
  match r with
  | HPing | HCapabilities => True
  | HPut n t p s => str_ok n /\ is_u8 t /\ short p /\ short s
  | HDelete n | HValidateInvite n => str_ok n
  | HSeal a b | HUnseal a b => short a /\ short b
  | HGet a b | HGenerateIdentity a b | HIdentityFingerprint a b => str_ok a /\ short b
  end.

Definition hresp_tag (r : HResponse) : Z :=
  match r with HPong _ => 0 | HSealed _ => 1 | HUnsealed _ => 2 | HOk => 3 | HSecret _ => 4 | HFingerprint _ => 5
  | HInvite _ _ => 6 | HCapabilitiesR _ => 7 | HError _ => 8 end.
Definition hresp_fields (r : HResponse) : bytes :=
  match r with
  | HPong v => be_bytes 4 v
  | HOk => []
  | HInvite i s => enc_bytes i ++ enc_bytes s
  | HSealed b | HUnsealed b | HSecret b | HFingerprint b | HCapabilitiesR b | HError b => enc_bytes b
  end.
Definition hresp_ok (r : HResponse) : Prop :=
  match r with
  | HPong v => is_u32 v
  | HOk => True
  | HInvite i s => str_ok i /\ short s
  | HSealed b | HUnsealed b | HSecret b | HFingerprint b | HCapabilitiesR b => short b
  | HError b => str_ok b
  end.

(** Which values the branch of a tag may read. *)
Ltac tag_iff :=
  intros []; cbn [hreq_ok hreq_tag hresp_ok hresp_tag];
  (split; [ intros [? Ht]; first [discriminate Ht | destruct_and?; eauto 10 ]
  | intros Hx; repeat match goal with H : exists _, _ |- _ => destruct H end; destruct_and?; first [discriminate | simplify_eq; auto] ]).
Ltac tag_codec :=
  repeat case_decide; subst;
  lazymatch goal with
  | |- Codec (gret _) _ _ => apply codec_con0; [done|tag_iff]
  | |- Codec (gfail _) _ _ => apply codec_fail; intros []; cbn [hreq_ok hreq_tag hresp_ok hresp_tag]; intros [? ?]; congruence
  | |- Codec (gbind _ (fun _ => gret _)) _ _ => eapply codec_con; [typeclasses eauto|done|tag_iff]
  | |- Codec (gbind _ (fun _ => gbind _ (fun _ => gret _))) _ _ => eapply codec_con2; [typeclasses eauto|typeclasses eauto|done|tag_iff]
  | _ => eapply codec_con4; [typeclasses eauto|typeclasses eauto|typeclasses eauto|typeclasses eauto|done|tag_iff]
  end.

Lemma codec_hreq : Codec hreq_read (fun r => [byte_of (hreq_tag r)] ++ hreq_fields r) hreq_ok.
Proof.
  apply (codec_tagged hreq_tag); [intros [] _; by vm_compute|]. intros t. unfold hreq_body, str_bytes. tag_codec.
Qed.

Lemma codec_hresp : Codec hresp_read (fun r => [byte_of (hresp_tag r)] ++ hresp_fields r) hresp_ok.
Proof.
  apply (codec_tagged hresp_tag); [intros [] _; by vm_compute|]. intros t. unfold hresp_body, str_bytes. tag_codec.
Qed.

Lemma hreq_decode_exact b r : zlen b <= usize_max -> hreq_decode b = Ok r <-> hreq_ok r /\ b = hreq_encode r.
Proof.
  intros Hb. assert (hreq_encode r = [byte_of (hreq_tag r)] ++ hreq_fields r) as -> by (destruct r; unfold hreq_encode, hreq_fields; by wire_norm).
  exact (codec_exact _ _ _ _ _ codec_hreq Hb).
Qed.
Lemma hresp_decode_exact b r : zlen b <= usize_max -> hresp_decode b = Ok r <-> hresp_ok r /\ b = hresp_encode r.
Proof.
  intros Hb. assert (hresp_encode r = [byte_of (hresp_tag r)] ++ hresp_fields r) as -> by (destruct r; unfold hresp_encode, hresp_fields; by wire_norm).
  exact (codec_exact _ _ _ _ _ codec_hresp Hb).
Qed.
