(* ===== verification/KeyHelper.v ===== *)
(** * The key-custody helper (crates/helper/src/{store,custody,server,client}.rs)

    A local service that holds keys for the app: the tiered key store over a
    directory and the OS keychain, the dispatcher, the connection loop and the
    client.  Every file operation may fail, and a failed write may leave a part of
    what was written; the keychain, the secure element and the texts of errors are
    parameters.  Proved: a key that was acknowledged is what a later get returns,
    whatever requests for other keys come in between and however their file
    operations fail; and a client is told what the dispatcher answered. *)

From S2P Require Import Prelude Wire Crypto Toy Marking Frames Hybrid Suite Codec Relay Invite Custody Helper.

(** ** The world: the store's directory and the OS keychain *)

(** What becomes of a file operation.  [tokio::fs::write] that fails has not opened
    the file, or has truncated it and written a part. *)
Inductive fate : Type := Works | NotOpened | Partial (n : nat).

Record World (K : Type) : Type := mkWorld {
  wd_files : gmap bytes bytes; wd_keys : K; wd_fates : list fate }.
Arguments mkWorld {K}. Arguments wd_files {K}. Arguments wd_keys {K}. Arguments wd_fates {K}.

Definition set_files {K : Type} (f : gmap bytes bytes) (w : World K) : World K := mkWorld f (wd_keys w) (wd_fates w).
Definition set_keys {K : Type} (k : K) (w : World K) : World K := mkWorld (wd_files w) k (wd_fates w).
Definition set_fates {K : Type} (l : list fate) (w : World K) : World K := mkWorld (wd_files w) (wd_keys w) l.

Notation Op K := (ST (World K) HelperError).

(** The fate of the next operation; when none is left they work. *)
Definition next_fate {K : Type} : Op K fate :=
  fun w => match wd_fates w with [] => (Ok Works, w) | f :: l => (Ok f, set_fates l w) end.

Definition file_write {K : Type} (path data : bytes) : Op K unit :=
  do* f := next_fate in
  match f with
  | Works => st_modify (fun w => set_files (<[path := data]> (wd_files w)) w)
  | NotOpened => st_err HIo
  | Partial n => do* _ := st_modify (fun w => set_files (<[path := take n data]> (wd_files w)) w) in st_err HIo
  end.

(** [None] is the error kind [NotFound]. *)
Definition file_read {K : Type} (path : bytes) : Op K (option bytes) :=
  do* f := next_fate in
  match f with Works => do* w := st_get in st_ret (wd_files w !! path) | _ => st_err HIo end.

Definition file_remove {K : Type} (path : bytes) : Op K bool :=
  do* f := next_fate in
  match f with
  | Works => do* w := st_get in
             if decide (is_Some (wd_files w !! path)) then
               do* _ := st_modify (fun w => set_files (delete path (wd_files w)) w) in st_ret true
             else st_ret false
  | _ => st_err HIo
  end.

(** [set_permissions] *)
Definition set_owner_only_file {K : Type} (path : bytes) : Op K unit :=
  do* f := next_fate in match f with Works => st_ret tt | _ => st_err HIo end.

(** The platform's keychain. *)
Record Keychain (K : Type) : Type := mkKeychain {
  kc_set : bytes -> bytes -> K -> result HelperError unit * K;
  kc_get : bytes -> K -> result HelperError bytes;
  kc_delete : bytes -> K -> result HelperError unit * K }.
Arguments mkKeychain {K}. Arguments kc_set {K}. Arguments kc_get {K}. Arguments kc_delete {K}.

Definition on_keys {K A : Type} (f : K -> result HelperError A * K) : Op K A :=
  fun w => let (r, k) := f (wd_keys w) in (r, set_keys k w).

Section Store.
Context {P : Primitives} {K : Type}.
Context (argon2id argon2_default : bytes -> bytes -> option bytes).
(** The platform: its keychain, where it has one, and its secure element. *)
Context (keychain : option (Keychain K)) (hw : option KeyWrapper).

Definition keychain_set (name secret : bytes) : Op K unit :=
  match keychain with
  | Some kc => on_keys (kc_set kc name secret)
  | None => st_err (HUnsupported "OS keystore custody on this platform")
  end.
Definition keychain_get (name : bytes) : Op K bytes :=
  match keychain with
  | Some kc => do* w := st_get in st_lift (kc_get kc name (wd_keys w))
  | None => st_err (HUnsupported "OS keystore custody on this platform")
  end.
Definition keychain_delete (name : bytes) : Op K unit :=
  match keychain with Some kc => on_keys (kc_delete kc name) | None => st_ret tt end.

(** ** The store (store.rs) *)

Definition name_char (b : byte) : bool :=
  let c := bval b in
  bool_decide (48 <= c <= 57 \/ 65 <= c <= 90 \/ 97 <= c <= 122) || bool_decide (c = 46 \/ c = 95 \/ c = 45).
Definition valid_name (name : bytes) : bool :=
  negb (bool_decide (name = [])) && negb (bool_decide (name = bstr ".")) && negb (bool_decide (name = bstr ".."))
  && bool_decide (zlen name <= 255) && forallb name_char name.

(** Paths in the store's directory. *)
Definition sealed_path (name : bytes) : result HelperError bytes :=
  if negb (valid_name name) then Err HInvalidName else Ok (name ++ bstr ".sealed").
Definition tier_path (name : bytes) : result HelperError bytes :=
  if negb (valid_name name) then Err HInvalidName else Ok (name ++ bstr ".tier").

(** A blocking task that panics is reported as failed. *)
Definition joined {A} (what : string) (r : option (result CoreError A)) : result HelperError A :=
  match r with Some r => map_err HCore r | None => Err (HUnsupported what) end.

Definition hw_seal (cs : nat -> coins) (secret : bytes) : result HelperError bytes :=
  let* w := ok_or hw (HUnsupported "hardware-backed custody not built — rebuild on Linux with --features tpm") in
  let weak := negb (kw_qrom_safe w) in
  joined "hardware seal task failed" (custody_seal argon2id cs secret (mkSealOptions None (Some w) weak)).

Definition hw_unseal (blob : bytes) : result HelperError bytes :=
  let* w := ok_or hw (HUnsupported "hardware-backed custody not built — rebuild on Linux with --features tpm") in
  joined "hardware unseal task failed" (custody_unseal argon2id blob None (Some w)).

Definition write_owned (path : result HelperError bytes) (data : bytes) : Op K unit :=
  do* path := st_lift path in
  do* _ := file_write path data in
  set_owner_only_file path.

Definition store_put (cs : nat -> coins) (name : bytes) (tier : CustodyTier) (blob : bytes) : Op K unit :=
  do* _ := match tier with
           | SoftwareSealed => write_owned (sealed_path name) blob
           | OsKeystore => keychain_set name blob
           | HardwareBacked => do* sealed := st_lift (hw_seal cs blob) in write_owned (sealed_path name) sealed
           end in
  write_owned (tier_path name) [byte_of (custody_tag tier)].

Definition store_tier_of (name : bytes) : Op K CustodyTier :=
  do* path := st_lift (tier_path name) in
  do* b := file_read path in
  match b with
  | Some [t] => st_lift (map_err HCore (custody_from_tag (bval t)))
  | _ => st_err HNotFound
  end.

Definition read_sealed (name : bytes) : Op K bytes :=
  do* path := st_lift (sealed_path name) in
  do* b := file_read path in
  st_lift (ok_or b HNotFound).

Definition store_get (name : bytes) : Op K (CustodyTier * bytes) :=
  do* tier := store_tier_of name in
  do* bytes := match tier with
               | SoftwareSealed => read_sealed name
               | OsKeystore => keychain_get name
               | HardwareBacked => do* sealed := read_sealed name in st_lift (hw_unseal sealed)
               end in
  st_ret (tier, bytes).

Definition remove_if_present (path : bytes) : Op K unit := do* _ := file_remove path in st_ret tt.

(** [let _ = keychain_delete(name).await;]: its error is dropped. *)
Definition ignored {A} (m : Op K A) : Op K unit := fun w => (Ok tt, (m w).2).

Definition store_delete (name : bytes) : Op K unit :=
  do* path := st_lift (sealed_path name) in
  do* _ := remove_if_present path in
  do* _ := ignored (keychain_delete name) in
  do* tpath := st_lift (tier_path name) in
  remove_if_present tpath.

(** ** Capabilities (custody.rs) *)

(** [tpm]: built for Linux with the [tpm] feature. *)
Definition supported_tiers (tpm : bool) : list CustodyTier :=
  [SoftwareSealed] ++ (if keychain is Some _ then [OsKeystore] else []) ++ (if tpm then [HardwareBacked] else []).
Definition default_tier (tpm : bool) : option CustodyTier := caps_strongest (mkCapabilities true (supported_tiers tpm)).
Definition pq_identity : bool := true.
Definition encode_capabilities (tpm : bool) : bytes := caps_encode (mkCapabilities pq_identity (supported_tiers tpm)).

(** ** The dispatcher (server.rs) *)

(** The digests of the [sha3] crate, and the [Display] text of an error. *)
Context `{Build} (sha3_256 sha3_384 : bytes -> bytes) (to_string : HelperError -> bytes) (tpm : bool).

Definition ks {A} (r : result KeystoreError A) : Op K A := st_lift (map_err HKeystore r).

(** The stored bytes, unsealed where the app's passphrase sealed them. *)
Definition opened (name passphrase : bytes) : Op K bytes :=
  do* (tier, bytes) := store_get name in
  match tier with SoftwareSealed => ks (ks_unseal argon2_default passphrase bytes) | _ => st_ret bytes end.

(** Of the coins, [0] makes an identity and the others seal. *)
Definition handle (cs : nat -> coins) (req : HRequest) : Op K HResponse :=
  let sealing := fun n => cs (S n) in
  match req with
  | HPing => st_ret (HPong PROTOCOL_VERSION)
  | HSeal passphrase secret => do* blob := ks (ks_seal argon2_default sealing passphrase secret) in st_ret (HSealed blob)
  | HUnseal passphrase blob => do* pt := ks (ks_unseal argon2_default passphrase blob) in st_ret (HUnsealed pt)
  | HPut name tier passphrase secret =>
      do* tier := st_lift (map_err HCore (custody_from_tag tier)) in
      do* _ := match tier with
               | SoftwareSealed =>
                   do* sealed := ks (ks_seal argon2_default sealing passphrase secret) in store_put sealing name tier sealed
               | _ => store_put sealing name tier secret
               end in
      st_ret HOk
  | HGet name passphrase => do* secret := opened name passphrase in st_ret (HSecret secret)
  | HDelete name => do* _ := store_delete name in st_ret HOk
  | HGenerateIdentity name passphrase =>
      let id := id_generate (cs 0%nat) in
      do* sealed := ks (ks_seal argon2_default sealing passphrase (id_export_secret id)) in
      do* _ := store_put sealing name SoftwareSealed sealed in
      st_ret (HFingerprint (id_fingerprint sha3_384 (id_public id)))
  | HIdentityFingerprint name passphrase =>
      do* seed := opened name passphrase in
      if decide (length seed = 32)%nat then
        let id := id_from_secret_bytes seed in st_ret (HFingerprint (id_fingerprint sha3_384 (id_public id)))
      else st_err (HProtocol "stored identity seed length")
  | HValidateInvite uri =>
      do* desc := st_lift (map_err (fun _ => HInvalidInvite "malformed talkrypt:// URI") (from_uri uri)) in
      st_ret (HInvite (resolved_suite_id desc) (descriptor_scheme_hash sha3_256 desc))
  | HCapabilities => st_ret (HCapabilitiesR (encode_capabilities tpm))
  end.

Definition helper_dispatch (cs : nat -> coins) (req : HRequest) (w : World K) : HResponse * World K :=
  match handle cs req w with
  | (Ok resp, w') => (resp, w')
  | (Err e, w') => (HError (to_string e), w')
  end.

(** ** A connection (server.rs, client.rs) *)

(** What arrives, what was sent, the coins of each request; [None]: the fuel ran out. *)
Fixpoint handle_conn (fuel : nat) (css : nat -> nat -> coins) (input output : bytes) (w : World K)
    : option (result HelperError unit * bytes * World K) :=
  match fuel with
  | O => None
  | S fuel' =>
      match read_frame input with
      | Err HClosed => Some (Ok tt, output, w)
      | Err e => Some (Err e, output, w)
      | Ok (frame, rest) =>
          let (resp, w') := match hreq_decode frame with
                            | Ok req => helper_dispatch (css 0%nat) req w
                            | Err e => (HError (to_string e), w)
                            end in
          match write_frame (hresp_encode resp) output with
          | Err e => Some (Err e, output, w')
          | Ok output' => handle_conn fuel' (fun n => css (S n)) rest output' w'
          end
      end
  end.

(** [peer]: what comes back for what was sent. *)
Definition client_request (peer : bytes -> bytes) (req : HRequest) : result HelperError HResponse :=
  let* sent := write_frame (hreq_encode req) [] in
  let* (frame, _) := read_frame (peer sent) in
  hresp_decode frame.

Definition client_ping (peer : bytes -> bytes) : result HelperError Z :=
  let* r := client_request peer HPing in
  match r with HPong version => Ok version | _ => Err (HProtocol "unexpected response to ping") end.


(** ** Operations on other keys *)

(** What a keychain promises: it returns what it took, and touches no other entry. *)
Class KeychainOk (kc : Keychain K) : Prop := {
  kc_set_get n s k k' : kc_set kc n s k = (Ok tt, k') -> kc_get kc n k' = Ok s;
  kc_set_other n m s k : n <> m -> kc_get kc m (kc_set kc n s k).2 = kc_get kc m k;
  kc_delete_other n m k : n <> m -> kc_get kc m (kc_delete kc n k).2 = kc_get kc m k }.

Context {KOK : forall kc, keychain = Some kc -> KeychainOk kc}.

(** All that is kept of a key. *)
Definition key_view (name : bytes) (w : World K) : option bytes * option bytes * option (result HelperError bytes) :=
  (wd_files w !! (name ++ bstr ".sealed"), wd_files w !! (name ++ bstr ".tier"), (fun kc => kc_get kc name (wd_keys w)) <$> keychain).

Definition leaves {A} (name : bytes) (m : Op K A) : Prop := forall w, key_view name (m w).2 = key_view name w.

Lemma leaves_bind {A B} name (m : Op K A) (k : A -> Op K B) : leaves name m -> (forall a, leaves name (k a)) -> leaves name (st_bind m k).
Proof. intros Hm Hk w. unfold st_bind. specialize (Hm w). destruct (m w) as [[a|e] w']; cbn in *; [by rewrite Hk|done]. Qed.
Lemma leaves_ret {A} name (a : A) : leaves name (st_ret a). Proof. done. Qed.
Lemma leaves_err {A} name e : leaves (A:=A) name (st_err e). Proof. done. Qed.
Lemma leaves_lift {A} name (r : result HelperError A) : leaves name (st_lift r). Proof. done. Qed.
Lemma leaves_get name : leaves name st_get. Proof. done. Qed.
Lemma leaves_fate name : leaves name next_fate.
Proof. intros w. unfold next_fate. by destruct (wd_fates w). Qed.
Lemma leaves_ignored {A} name (m : Op K A) : leaves name m -> leaves name (ignored m). Proof. intros Hm w. apply Hm. Qed.

Lemma app_sealed_inj (a b : bytes) : a ++ bstr ".sealed" = b ++ bstr ".sealed" -> a = b.
Proof. apply (inj (.++ _)). Qed.
Lemma app_tier_inj (a b : bytes) : a ++ bstr ".tier" = b ++ bstr ".tier" -> a = b.
Proof. apply (inj (.++ _)). Qed.
Lemma app_sealed_tier (a b : bytes) : a ++ bstr ".sealed" <> b ++ bstr ".tier".
Proof. intros E. apply (f_equal last) in E. rewrite !last_app in E. discriminate E. Qed.

(** A file of another key. *)
Definition foreign (name path : bytes) : Prop := path <> name ++ bstr ".sealed" /\ path <> name ++ bstr ".tier".

Lemma leaves_files (name : bytes) (f : World K -> gmap bytes bytes) :
  (forall w p, ~ foreign name p -> f w !! p = wd_files w !! p) -> leaves name (st_modify (fun w => set_files (f w) w)).
Proof. intros Hf w. unfold key_view. cbn. rewrite !Hf by (intros [H1 H2]; by (apply H1 || apply H2)). done. Qed.

Lemma leaves_write name path d : foreign name path -> leaves name (file_write path d).
Proof.
  intros Hp. apply leaves_bind; [apply leaves_fate|]. assert (forall x, leaves name (st_modify (fun w => set_files (<[path := x]> (wd_files w)) w))) as Hx.
  { intros x. apply leaves_files. intros w p Hn. apply lookup_insert_ne. naive_solver. }
  intros []; [apply Hx|apply leaves_err|]. apply leaves_bind; [apply Hx|]. intros. apply leaves_err.
Qed.
Lemma leaves_read name path : leaves name (file_read path).
Proof. apply leaves_bind; [apply leaves_fate|]. intros []; [|apply leaves_err..]. apply leaves_bind; [apply leaves_get|]. intros. apply leaves_ret. Qed.
Lemma leaves_remove name path : foreign name path -> leaves name (file_remove path).
Proof.
  intros Hp. apply leaves_bind; [apply leaves_fate|]. intros []; [|apply leaves_err..]. apply leaves_bind; [apply leaves_get|]. intros w.
  case_decide; [|apply leaves_ret]. apply leaves_bind; [|intros; apply leaves_ret].
  apply leaves_files. intros w' p Hn. apply lookup_delete_ne. naive_solver.
Qed.
Lemma leaves_chmod name path : leaves name (set_owner_only_file path).
Proof. apply leaves_bind; [apply leaves_fate|]. intros []; [apply leaves_ret|apply leaves_err..]. Qed.

Lemma sealed_path_Ok n p : sealed_path n = Ok p -> p = n ++ bstr ".sealed".
Proof. unfold sealed_path. destruct (negb _); [done|]. congruence. Qed.
Lemma tier_path_Ok n p : tier_path n = Ok p -> p = n ++ bstr ".tier".
Proof. unfold tier_path. destruct (negb _); [done|]. congruence. Qed.
Lemma sealed_foreign name n : n <> name -> foreign name (n ++ bstr ".sealed").
Proof. intros Hn. split; [by intros ?%app_sealed_inj|apply app_sealed_tier]. Qed.
Lemma tier_foreign name n : n <> name -> foreign name (n ++ bstr ".tier").
Proof. intros Hn. split; [intros E; symmetry in E; by apply app_sealed_tier in E|by intros ?%app_tier_inj]. Qed.

Lemma leaves_path name (path : result HelperError bytes) {A} (k : bytes -> Op K A) :
  (forall p, path = Ok p -> leaves name (k p)) -> leaves name (do* p := st_lift path in k p).
Proof. intros Hk w. unfold st_bind, st_lift. destruct path; [by apply Hk|done]. Qed.

Lemma leaves_keychain_set name n s : n <> name -> leaves name (keychain_set n s).
Proof.
  intros Hn. unfold keychain_set. destruct keychain as [kc|] eqn:E; [|apply leaves_err]. intros w. pose proof (KOK kc eq_refl) as Hk.
  pose proof (kc_set_other n name s (wd_keys w) Hn) as Ho. unfold on_keys, key_view. rewrite E.
  destruct (kc_set kc n s (wd_keys w)) as [r k]. cbn in *. by rewrite Ho.
Qed.
Lemma leaves_keychain_delete name n : n <> name -> leaves name (keychain_delete n).
Proof.
  intros Hn. unfold keychain_delete. destruct keychain as [kc|] eqn:E; [|apply leaves_ret]. intros w. pose proof (KOK kc eq_refl) as Hk.
  pose proof (kc_delete_other n name (wd_keys w) Hn) as Ho. unfold on_keys, key_view. rewrite E.
  destruct (kc_delete kc n (wd_keys w)) as [r k]. cbn in *. by rewrite Ho.
Qed.
Lemma leaves_keychain_get name n : leaves name (keychain_get n).
Proof. unfold keychain_get. destruct keychain; [|apply leaves_err]. apply leaves_bind; [apply leaves_get|]. intros. apply leaves_lift. Qed.

Lemma leaves_owned name path d : (forall p, path = Ok p -> foreign name p) -> leaves name (write_owned path d).
Proof. intros Hp. apply leaves_path. intros p Hf%Hp. apply leaves_bind; [by apply leaves_write|]. intros. apply leaves_chmod. Qed.

Lemma leaves_put name cs n tier blob : n <> name -> leaves name (store_put cs n tier blob).
Proof.
  intros Hn. assert (forall d, leaves name (write_owned (sealed_path n) d)) as Hs.
  { intros d. apply leaves_owned. intros p ->%sealed_path_Ok. by apply sealed_foreign. }
  apply leaves_bind; [|intros; apply leaves_owned; intros p ->%tier_path_Ok; by apply tier_foreign].
  destruct tier; [apply Hs|by apply leaves_keychain_set|]. apply leaves_bind; [apply leaves_lift|]. intros. apply Hs.
Qed.
Lemma leaves_read_sealed name n : leaves name (read_sealed n).
Proof. apply leaves_bind; [apply leaves_lift|]. intros. apply leaves_bind; [apply leaves_read|]. intros. apply leaves_lift. Qed.
Lemma leaves_store_get name n : leaves name (store_get n).
Proof.
  apply leaves_bind.
  - apply leaves_bind; [apply leaves_lift|]. intros. apply leaves_bind; [apply leaves_read|]. intros [[|t [|]]|]; (apply leaves_err || apply leaves_lift).
  - intros tier. apply leaves_bind; [|intros; apply leaves_ret]. destruct tier; [apply leaves_read_sealed|apply leaves_keychain_get|].
    apply leaves_bind; [apply leaves_read_sealed|]. intros. apply leaves_lift.
Qed.
Lemma leaves_delete name n : n <> name -> leaves name (store_delete n).
Proof.
  intros Hn. apply leaves_path. intros p ->%sealed_path_Ok. apply leaves_bind.
  { apply leaves_bind; [by apply leaves_remove, sealed_foreign|]. intros. apply leaves_ret. }
  intros _. apply leaves_bind; [by apply leaves_ignored, leaves_keychain_delete|]. intros _. apply leaves_path. intros p ->%tier_path_Ok.
  apply leaves_bind; [by apply leaves_remove, tier_foreign|]. intros. apply leaves_ret.
Qed.
Lemma leaves_opened name n pw : leaves name (opened n pw).
Proof. apply leaves_bind; [apply leaves_store_get|]. intros [[] b]; apply leaves_lift || apply leaves_ret. Qed.

(** The key a request changes. *)
Definition req_writes (r : HRequest) : option bytes :=
  match r with HPut n _ _ _ | HDelete n | HGenerateIdentity n _ => Some n | _ => None end.

Lemma leaves_handle name cs r : req_writes r <> Some name -> leaves name (handle cs r).
Proof.
  intros Hr. assert (forall n, req_writes r = Some n -> n <> name) as Hn by congruence.
  destruct r; cbn [handle req_writes] in *; try specialize (Hn _ eq_refl);
    repeat first [ apply leaves_ret | apply leaves_err | apply leaves_lift | apply leaves_opened | by apply leaves_put | by apply leaves_delete
      | case_match | apply leaves_bind; [|intros ?] ].
Qed.

Lemma dispatch_leaves name cs r w : req_writes r <> Some name -> key_view name (helper_dispatch cs r w).2 = key_view name w.
Proof. intros Hr. pose proof (leaves_handle name cs r Hr w) as Hk. unfold helper_dispatch. by destruct (handle cs r w) as [[]]. Qed.

(** ** A run of the service *)

(** A request, with what becomes of its file operations and its coins. *)
Definition Turn : Type := list fate * (nat -> coins) * HRequest.
Definition turn (t : Turn) (w : World K) : HResponse * World K :=
  let '(fates, cs, req) := t in helper_dispatch cs req (set_fates fates w).
Definition run_turns (l : list Turn) (w : World K) : World K := foldl (fun w t => (turn t w).2) w l.

Lemma run_leaves name l w : Forall (fun t : Turn => req_writes t.2 <> Some name) l -> key_view name (run_turns l w) = key_view name w.
Proof.
  revert w. induction l as [|[[f cs] r] l IH]; intros w Hl; [done|]. apply Forall_cons in Hl as [Hr Hl]. cbn [run_turns foldl].
  fold (run_turns l (turn (f, cs, r) w).2). rewrite IH by done. unfold turn. by rewrite dispatch_leaves by done.
Qed.

(** The key [name] holds [secret]: without failures, a get says so. *)
Definition holds (name : bytes) (tier : CustodyTier) (pw secret : bytes) (w : World K) : Prop :=
  valid_name name = true /\ wd_files w !! (name ++ bstr ".tier") = Some [byte_of (custody_tag tier)] /\
  match tier with
  | SoftwareSealed => exists b, wd_files w !! (name ++ bstr ".sealed") = Some b /\ ks_unseal argon2_default pw b = Ok secret
  | OsKeystore => (fun kc => kc_get kc name (wd_keys w)) <$> keychain = Some (Ok secret)
  | HardwareBacked => exists b, wd_files w !! (name ++ bstr ".sealed") = Some b /\ hw_unseal b = Ok secret
  end.

Lemma holds_view name tier pw secret w w' : key_view name w = key_view name w' -> holds name tier pw secret w -> holds name tier pw secret w'.
Proof. unfold key_view, holds. intros [= E1 E2 E3] Hh. by rewrite <- E1, <- E2, <- E3. Qed.

Lemma read_works path (w : World K) : wd_fates w = [] -> file_read path w = (Ok (wd_files w !! path), w).
Proof. intros Hw. unfold file_read, next_fate, st_bind. by rewrite Hw. Qed.

Lemma read_sealed_works name b (w : World K) :
  wd_fates w = [] -> valid_name name = true -> wd_files w !! (name ++ bstr ".sealed") = Some b -> read_sealed name w = (Ok b, w).
Proof.
  intros Hw Hv Hb. unfold read_sealed, sealed_path. rewrite Hv. unfold st_bind at 1, st_lift at 1. cbn [negb].
  unfold st_bind. by rewrite read_works, Hb.
Qed.

Lemma opened_holds name tier pw secret w :
  holds name tier pw secret w -> wd_fates w = [] -> opened name pw w = (Ok secret, w).
Proof.
  intros (Hv & Ht & Hb) Hw. assert (store_tier_of name w = (Ok tier, w)) as Htier.
  { unfold store_tier_of, tier_path. rewrite Hv. unfold st_bind at 1, st_lift at 1. cbn [negb]. unfold st_bind. rewrite read_works, Ht by done.
    unfold st_lift. rewrite bval_byte_of. by destruct tier. }
  apply st_bind_Ok. destruct tier.
  - destruct Hb as (b & Hb & Hu). exists (SoftwareSealed, b), w. split.
    + apply st_bind_Ok. exists SoftwareSealed, w. split; [done|]. apply st_bind_Ok. exists b, w. split; [|done]. by apply read_sealed_works.
    + unfold ks, st_lift. by rewrite Hu.
  - exists (OsKeystore, secret), w. split; [|done]. apply st_bind_Ok. exists OsKeystore, w. split; [done|]. apply st_bind_Ok. exists secret, w. split; [|done].
    unfold keychain_get. destruct keychain as [kc|]; [|done]. cbn in Hb. injection Hb as Hb. unfold st_bind, st_get, st_lift. by rewrite Hb.
  - destruct Hb as (b & Hb & Hu). exists (HardwareBacked, secret), w. split; [|done]. apply st_bind_Ok. exists HardwareBacked, w. split; [done|].
    apply st_bind_Ok. exists secret, w. split; [|done]. apply st_bind_Ok. exists b, w. split; [by apply read_sealed_works|]. unfold st_lift. by rewrite Hu.
Qed.

(** ** Acknowledged puts *)

Lemma next_fate_Ok (w : World K) f w' : next_fate w = (Ok f, w') -> wd_files w' = wd_files w /\ wd_keys w' = wd_keys w.
Proof. unfold next_fate. destruct (wd_fates w); intros [= <- <-]; done. Qed.

Lemma write_owned_Ok path d (w w' : World K) :
  write_owned path d w = (Ok tt, w') ->
  exists p, path = Ok p /\ wd_files w' = <[p := d]> (wd_files w) /\ wd_keys w' = wd_keys w.
Proof.
  intros (p & w1 & [= -> <-] & Hw)%st_bind_Ok. apply st_bind_Ok in Hw as ([] & w2 & H1 & H2).
  apply st_bind_Ok in H1 as (f & w3 & [Ef Ek]%next_fate_Ok & H1). apply st_bind_Ok in H2 as (f' & w4 & [Ef' Ek']%next_fate_Ok & H2).
  destruct f; [|done..]. destruct f'; [|done..]. injection H1 as <-. injection H2 as <-. cbn in *. exists p. split; [done|]. split; congruence.
Qed.

Context {OK : PrimitivesOk P} (HW : forall w, hw = Some w -> wrapper_ok w).

Lemma hw_roundtrip cs secret blob : zlen secret <= 2 ^ 20 -> hw_seal cs secret = Ok blob -> hw_unseal blob = Ok secret.
Proof.
  intros Hl. unfold hw_seal, hw_unseal. destruct hw as [w|]; [|done]. cbn [ok_or rbind]. unfold joined.
  destruct (custody_seal argon2id cs secret _) as [[b|]|] eqn:E; [|done..]. cbn. intros [= <-].
  pose proof (custody_opens argon2id cs secret _ b E) as Ho. cbn [so_passphrase so_wrapper] in Ho. rewrite Ho; [done| |done].
  intros x [= <-]. by apply HW.
Qed.

Lemma put_stored cs name tier pw secret blob w w' :
  (tier = SoftwareSealed -> ks_unseal argon2_default pw blob = Ok secret) -> (tier <> SoftwareSealed -> blob = secret) -> zlen secret <= 2 ^ 20 ->
  store_put cs name tier blob w = (Ok tt, w') -> holds name tier pw secret w'.
Proof.
  intros Hs Ho Hl ([] & w1 & H1 & (pt & Ept & Eft & Ekt)%write_owned_Ok)%st_bind_Ok.
  assert (valid_name name = true) as Hv by (unfold tier_path in Ept; by destruct (valid_name name)).
  assert (forall p b, sealed_path name = Ok p -> wd_files w1 !! p = Some b -> wd_files w' !! (name ++ bstr ".sealed") = Some b) as Hfile.
  { intros p b ->%sealed_path_Ok Hb. rewrite Eft, lookup_insert_ne; [done|]. apply tier_path_Ok in Ept as ->. intros E. symmetry in E. by apply app_sealed_tier in E. }
  split; [done|]. split; [rewrite Eft; apply tier_path_Ok in Ept as ->; apply lookup_insert_eq|]. destruct tier.
  - apply write_owned_Ok in H1 as (p & Ep & Ef & _). exists blob. split; [|auto]. apply (Hfile p); [done|]. rewrite Ef. apply lookup_insert_eq.
  - rewrite <- (Ho ltac:(done)). unfold keychain_set in H1. destruct keychain as [kc|] eqn:E; [|done].
    unfold on_keys in H1. destruct (kc_set kc name blob (wd_keys w)) as [r k] eqn:Ek. injection H1 as -> <-. cbn. rewrite Ekt.
    pose proof (KOK kc eq_refl). cbn. by rewrite (kc_set_get _ _ _ _ Ek).
  - apply st_bind_Ok in H1 as (sealed & w2 & [= H1 <-] & H2). apply write_owned_Ok in H2 as (p & Ep & Ef & _). exists sealed.
    split; [apply (Hfile p); [done|]; rewrite Ef; apply lookup_insert_eq|]. rewrite (Ho ltac:(done)) in H1. by apply (hw_roundtrip cs).
Qed.

Lemma put_holds cs name tag pw secret w w' :
  zlen secret <= 2 ^ 20 -> helper_dispatch cs (HPut name tag pw secret) w = (HOk, w') -> exists tier, tag = custody_tag tier /\ holds name tier pw secret w'.
Proof.
  intros Hl. unfold helper_dispatch. destruct (handle cs _ w) as [[r|e] w1] eqn:E; [|done]. intros [= -> ->]. cbn [handle] in E.
  apply st_bind_Ok in E as (tier & w1 & [= Ht <-] & E). apply st_bind_Ok in E as ([] & w2 & E & [= <-]).
  exists tier. split; [apply custody_from_tag_spec; by destruct (custody_from_tag tag); cbn in Ht; congruence|]. destruct tier.
  - apply st_bind_Ok in E as (sealed & w3 & [= Hs <-] & E). refine (put_stored _ _ _ _ _ _ _ _ _ _ Hl E); [intros _|done].
    destruct (ks_seal _ _ pw secret) as [b|] eqn:Eb; [|done]. injection Hs as ->.
    apply (ks_roundtrip argon2_default (fun n => cs (S n)) pw secret sealed); [lia|done].
  - by refine (put_stored _ _ _ _ _ _ _ _ _ _ Hl E).
  - by refine (put_stored _ _ _ _ _ _ _ _ _ _ Hl E).
Qed.

(** C15: the helper keeps what it acknowledged.  Once a put of a key was answered [Ok], at
    any tier, any number of requests that put, delete or generate only other keys may
    follow, with file operations failing at any point and leaving partial files: a get
    of the key, with the same passphrase and no failures, returns the secret. *)
Theorem helper_keeps_keys (name : bytes) (tag : Z) (pw secret : bytes) (first : list fate) (cs cs' : nat -> coins)
    (later : list Turn) (w w1 : World K) :
  turn (first, cs, HPut name tag pw secret) w = (HOk, w1) -> zlen secret <= 2 ^ 20 ->
  Forall (fun t : Turn => req_writes t.2 <> Some name) later ->
  (turn ([], cs', HGet name pw) (run_turns later w1)).1 = HSecret secret.
Proof.
  intros Hp Hl Hf. apply put_holds in Hp as (tier & _ & Hh); [|done].
  apply (holds_view _ _ _ _ _ (set_fates [] (run_turns later w1))) in Hh; [|by rewrite <- (run_leaves name later) by done].
  pose proof (opened_holds _ _ _ _ _ Hh eq_refl) as Ho. unfold turn, helper_dispatch. cbn [handle]. unfold st_bind. by rewrite Ho.
Qed.

(** ** What reaches the disk *)

Definition sealed_part (c : bytes) : Prop :=
  exists blob, c `prefix_of` blob /\
    ((exists cs pw s, ks_seal argon2_default cs pw s = Ok blob) \/ (exists cs s, hw_seal cs s = Ok blob)).
Definition files_sealed (w : World K) : Prop :=
  forall p c, wd_files w !! p = Some c -> exists name, valid_name name = true /\
    ((p = name ++ bstr ".sealed" /\ sealed_part c) \/ (p = name ++ bstr ".tier" /\ exists tier, c `prefix_of` [byte_of (custody_tag tier)])).

Definition stays {A} (m : Op K A) : Prop := forall w, files_sealed w -> files_sealed (m w).2.

Lemma stays_bind {A B} (m : Op K A) (k : A -> Op K B) : stays m -> (forall a, stays (k a)) -> stays (st_bind m k).
Proof. intros Hm Hk w Hw. unfold st_bind. specialize (Hm w Hw). destruct (m w) as [[a|e] w']; cbn in *; [by apply Hk|done]. Qed.
Lemma stays_same {A} (m : Op K A) : (forall w, wd_files (m w).2 = wd_files w) -> stays m.
Proof. intros Hm w Hw. unfold files_sealed. by rewrite Hm. Qed.
Lemma stays_fate : stays next_fate.
Proof. apply stays_same. intros w. unfold next_fate. by destruct (wd_fates w). Qed.
Lemma stays_pure {A} (r : result HelperError A) : stays (st_lift r). Proof. by apply stays_same. Qed.
Lemma stays_ret {A} (a : A) : stays (st_ret a). Proof. by apply stays_same. Qed.
Lemma stays_err {A} e : stays (A:=A) (st_err e). Proof. by apply stays_same. Qed.
Lemma stays_get : stays st_get. Proof. by apply stays_same. Qed.
Lemma stays_read path : stays (file_read path).
Proof. apply stays_bind; [apply stays_fate|]. intros []; [|apply stays_err..]. apply stays_bind; [apply stays_get|]. intros. apply stays_ret. Qed.
Lemma stays_remove path : stays (file_remove path).
Proof.
  apply stays_bind; [apply stays_fate|]. intros []; [|apply stays_err..]. apply stays_bind; [apply stays_get|]. intros w. case_decide; [|apply stays_ret].
  apply stays_bind; [|intros; apply stays_ret]. intros w' Hw p c. cbn. intros [_ Hc]%lookup_delete_Some. by apply Hw.
Qed.
Lemma stays_chmod path : stays (set_owner_only_file path).
Proof. apply stays_bind; [apply stays_fate|]. intros []; [apply stays_ret|apply stays_err..]. Qed.
Lemma stays_keychain_delete n : stays (keychain_delete n).
Proof. unfold keychain_delete. clear KOK. destruct keychain as [kc|]; [|apply stays_ret]. apply stays_same. intros w. unfold on_keys. by destruct (kc_delete kc n _). Qed.
Lemma stays_keychain_set n s : stays (keychain_set n s).
Proof. unfold keychain_set. clear KOK. destruct keychain as [kc|]; [|apply stays_err]. apply stays_same. intros w. unfold on_keys. by destruct (kc_set kc n s _). Qed.
Lemma stays_keychain_get n : stays (keychain_get n).
Proof. unfold keychain_get. clear KOK. destruct keychain as [kc|]; [|apply stays_err]. by apply stays_same. Qed.

(** Writing may put any part of its data on the disk, and nothing else. *)
Lemma stays_owned (ok : bytes -> Prop) path d :
  (forall c c', ok c -> c' `prefix_of` c -> ok c') -> ok d ->
  (forall p c, path = Ok p -> ok c -> exists name, valid_name name = true /\
    ((p = name ++ bstr ".sealed" /\ sealed_part c) \/ (p = name ++ bstr ".tier" /\ exists tier, c `prefix_of` [byte_of (custody_tag tier)]))) ->
  stays (write_owned path d).
Proof.
  intros Hpre Hd Hp w Hw. unfold write_owned, st_bind at 1, st_lift. destruct path as [p|]; [|done].
  assert (forall c, ok c -> stays (st_modify (fun w => set_files (<[p := c]> (wd_files w)) w))) as Hs.
  { intros c Hc w' Hw' q x. cbn. intros [[<- <-]|[_ Hx]]%lookup_insert_Some; [by apply Hp|by apply Hw']. }
  revert w Hw. change (stays (do* _ := file_write p d in set_owner_only_file p)).
  apply stays_bind; [|intros; apply stays_chmod]. apply stays_bind; [apply stays_fate|]. intros [| |n]; [by apply Hs|apply stays_err|].
  apply stays_bind; [|intros; apply stays_err]. apply Hs. apply (Hpre d); [done|]. apply prefix_take.
Qed.

Lemma stays_put cs name tier blob : (tier = SoftwareSealed -> sealed_part blob) -> stays (store_put cs name tier blob).
Proof.
  intros Hb. assert (forall d, sealed_part d -> stays (write_owned (sealed_path name) d)) as Hs.
  { intros d Hd. apply (stays_owned sealed_part); [|done|].
    - intros c c' (b & Hc & Hx) Hc'. exists b. split; [by trans c|done].
    - intros p c Hp Hc. exists name. split; [|left; split; [by apply sealed_path_Ok|done]]. unfold sealed_path in Hp. by destruct (valid_name name). }
  apply stays_bind.
  - destruct tier; [by apply Hs, Hb|apply stays_keychain_set|]. intros w Hw. unfold st_bind, st_lift. destruct (hw_seal cs blob) as [d|] eqn:E; [|done].
    apply Hs; [|done]. exists d. split; [done|]. right. eauto.
  - intros _. apply (stays_owned (fun c => c `prefix_of` [byte_of (custody_tag tier)])); [intros c c' ? ?; by trans c|done|].
    intros p c Hp Hc. exists name. split; [|right; split; [by apply tier_path_Ok|by exists tier]]. unfold tier_path in Hp. by destruct (valid_name name).
Qed.
Lemma stays_read_sealed n : stays (read_sealed n).
Proof. apply stays_bind; [apply stays_pure|]. intros. apply stays_bind; [apply stays_read|]. intros. apply stays_pure. Qed.
Lemma stays_opened n pw : stays (opened n pw).
Proof.
  apply stays_bind; [|intros [[] b]; apply stays_pure || apply stays_ret]. apply stays_bind.
  - apply stays_bind; [apply stays_pure|]. intros. apply stays_bind; [apply stays_read|]. intros [[|t [|]]|]; (apply stays_err || apply stays_pure).
  - intros tier. apply stays_bind; [|intros; apply stays_ret]. destruct tier; [apply stays_read_sealed|apply stays_keychain_get|].
    apply stays_bind; [apply stays_read_sealed|]. intros. apply stays_pure.
Qed.
Lemma stays_delete n : stays (store_delete n).
Proof.
  apply stays_bind; [apply stays_pure|]. intros p. apply stays_bind; [apply stays_bind; [apply stays_remove|intros; apply stays_ret]|]. intros _.
  apply stays_bind; [intros w Hw; by apply (stays_keychain_delete n)|]. intros _. apply stays_bind; [apply stays_pure|]. intros q.
  apply stays_bind; [apply stays_remove|]. intros. apply stays_ret.
Qed.

(** Sealed with the app's passphrase, then used. *)
Lemma stays_sealing {A} cs pw secret (k : bytes -> Op K A) : (forall b, sealed_part b -> stays (k b)) ->
  stays (do* sealed := ks (ks_seal argon2_default cs pw secret) in k sealed).
Proof.
  intros Hk w Hw. unfold st_bind at 1, ks, st_lift. destruct (ks_seal argon2_default cs pw secret) as [b|] eqn:E; [|done]. cbn [map_err].
  apply Hk; [|done]. exists b. split; [done|]. left. eauto.
Qed.

Lemma stays_handle cs r : stays (handle cs r).
Proof.
  destruct r; cbn [handle];
    repeat first [ apply stays_ret | apply stays_err | apply stays_pure | apply stays_opened | apply stays_delete
      | by apply stays_put | apply stays_sealing; intros ? ? | case_match | apply stays_bind; [|intros ?] ].
Qed.

(** C20: secrets reach the disk only sealed.  From an empty directory, through any requests,
    with file operations failing at any point, every file in it is named after a
    valid key name and holds a part of a sealed blob or of a tier marker. *)
Theorem disk_only_sealed (l : list Turn) (keys : K) : files_sealed (run_turns l (mkWorld ∅ keys [])).
Proof.
  assert (files_sealed (mkWorld ∅ keys [])) as H0 by (intros p c; cbn; by rewrite lookup_empty).
  revert H0. generalize (mkWorld ∅ keys []). unfold run_turns. induction l as [|[[f cs] r] l IH]; intros w Hw; [done|]. cbn [foldl]. apply IH.
  pose proof (stays_handle cs r (set_fates f w) Hw) as Hs. unfold turn, helper_dispatch. by destruct (handle cs r (set_fates f w)) as [[]].
Qed.

(** ** A connection *)

Lemma read_frame_shorter input frame rest : read_frame input = Ok (frame, rest) -> (length rest < length input)%nat.
Proof.
  unfold read_frame. destruct (decide (length input < 4)%nat); [done|]. do 2 (case_decide; [done|]). intros [= _ <-].
  rewrite !length_drop. lia.
Qed.

(** The loop ends: every turn takes at least the length prefix of a frame. *)
Lemma handle_conn_returns fuel css input output w : (length input < fuel)%nat -> is_Some (handle_conn fuel css input output w).
Proof.
  revert css input output w. induction fuel as [|fuel IH]; intros css input output w Hf; [lia|]. cbn [handle_conn].
  destruct (read_frame input) as [[frame rest]|e] eqn:E; [|by destruct e; eexists].
  destruct (match hreq_decode frame with Ok _ => _ | Err _ => _ end) as [resp w']. destruct (write_frame _ output); [|by eexists].
  apply IH. apply read_frame_shorter in E. lia.
Qed.

(** What the service sends back on a connection that carries [input]. *)
Definition answers (css : nat -> nat -> coins) (w : World K) (input : bytes) : bytes :=
  match handle_conn (S (length input)) css input [] w with Some (_, output, _) => output | None => [] end.

Lemma write_frame_fits body out : zlen body <= HELPER_MAX_FRAME -> exists s, write_frame body [] = Ok s /\ write_frame body out = Ok (out ++ s).
Proof. intros Hb. unfold write_frame. rewrite !decide_False by lia. by eexists. Qed.

(** A client is told what the dispatcher answered, and a refused frame closes nothing else. *)
Lemma client_told css req resp w w' :
  hreq_ok req -> zlen (hreq_encode req) <= HELPER_MAX_FRAME -> helper_dispatch (css 0%nat) req w = (resp, w') ->
  hresp_ok resp -> zlen (hresp_encode resp) <= HELPER_MAX_FRAME ->
  client_request (answers css w) req = Ok resp.
Proof.
  intros Hreq Hl Hd Hresp Hl'. assert (HELPER_MAX_FRAME <= usize_max) as Hu by by vm_compute.
  destruct (write_frame_fits (hreq_encode req) [] Hl) as (s & Hs & _). destruct (write_frame_fits (hresp_encode resp) [] Hl') as (s' & Hs' & _).
  pose proof (frame_roundtrip _ [] _ Hl Hs) as Hr. pose proof (frame_roundtrip _ [] _ Hl' Hs') as Hr'. rewrite app_nil_r in Hr, Hr'.
  unfold client_request. rewrite Hs. cbn [rbind]. unfold answers. cbn [handle_conn]. rewrite Hr.
  rewrite (proj2 (hreq_decode_exact _ req (Z.le_trans _ _ _ Hl Hu)) (conj Hreq eq_refl)), Hd, Hs'.
  pose proof (read_frame_shorter _ _ _ Hr) as Hsh. destruct (length s) as [|n]; [cbn in Hsh; lia|]. cbn [handle_conn].
  change (read_frame []) with (Err (A:=bytes * bytes) HClosed). cbn iota. rewrite Hr'. cbn [rbind].
  apply hresp_decode_exact; [lia|done].
Qed.

(** ** What put and delete leave behind *)

(** Storing a key in the keychain leaves an earlier sealed file of the same name. *)
Lemma put_leaves_sealed cs name s w w' : store_put cs name OsKeystore s w = (Ok tt, w') ->
  wd_files w' !! (name ++ bstr ".sealed") = wd_files w !! (name ++ bstr ".sealed").
Proof.
  intros ([] & w1 & H1 & (p & Ep & Ef & _)%write_owned_Ok)%st_bind_Ok. unfold keychain_set in H1. destruct keychain as [kc|]; [|done].
  unfold on_keys in H1. destruct (kc_set kc name s (wd_keys w)) as [r k]. injection H1 as _ <-. rewrite Ef. cbn. apply lookup_insert_ne.
  apply tier_path_Ok in Ep as ->. intros E. symmetry in E. by apply app_sealed_tier in E.
Qed.

(** A name that is not valid is refused only after the keychain has taken the secret. *)
Lemma invalid_name_stored kc cs name s w k' :
  keychain = Some kc -> valid_name name = false -> kc_set kc name s (wd_keys w) = (Ok tt, k') ->
  store_put cs name OsKeystore s w = (Err HInvalidName, set_keys k' w) /\ kc_get kc name k' = Ok s.
Proof.
  intros E Hv Hs. pose proof (KOK kc E). split; [|by apply (kc_set_get _ _ _ _ Hs)].
  unfold store_put, keychain_set, st_bind at 1. rewrite E. unfold on_keys. rewrite Hs. unfold write_owned, tier_path. by rewrite Hv.
Qed.

(** An acknowledged delete leaves the key in a keychain that refused. *)
Lemma delete_hides_refusal kc name (w : World K) :
  keychain = Some kc -> valid_name name = true -> wd_fates w = [] -> kc_delete kc name (wd_keys w) = (Err HKeychain, wd_keys w) ->
  exists w', store_delete name w = (Ok tt, w') /\ kc_get kc name (wd_keys w') = kc_get kc name (wd_keys w).
Proof.
  intros E Hv Hw Hd. destruct w as [files keys fates]. cbn in *. subst fates. unfold store_delete, sealed_path, tier_path. rewrite Hv. cbn [negb].
  unfold remove_if_present, file_remove, next_fate, ignored, keychain_delete. rewrite E.
  unfold on_keys, st_bind, st_lift, st_get, st_modify, st_ret. cbn [wd_fates wd_files].
  destruct (decide (is_Some (files !! _))); cbn; rewrite Hd; cbn; destruct (decide _); cbn; by eexists.
Qed.

End Store.

(** ** Examples *)

Definition kw_keychain : Keychain (gmap bytes bytes) :=
  mkKeychain (fun n s k => (Ok tt, <[n := s]> k)) (fun n k => ok_or (k !! n) HNotFound) (fun n k => (Ok tt, delete n k)).

Lemma kw_keychain_ok kc : Some kw_keychain = Some kc -> KeychainOk kc.
Proof.
  intros [= <-]. split; cbn.
  - intros n s k k' [= <-]. by rewrite (lookup_insert_eq (M:=gmap bytes)).
  - intros n m s k Hn. by rewrite (lookup_insert_ne (M:=gmap bytes)).
  - intros n m k Hn. by rewrite (lookup_delete_ne (M:=gmap bytes)).
Qed.

(** A key sealed to the device; then another key's put runs out of disk, and that key
    is deleted from the keychain. *)
#[local] Existing Instance demo_build.
Definition kw_turn := turn (P := toy) cw_argon cw_argon (Some kw_keychain) (Some cw_wrapper)
  (fun b => b) (fun b => b) (fun _ => bstr "error") true.
Definition kw_later : list Turn :=
  [([Partial 3], fun n => n, HPut (bstr "other") 0 (bstr "pw") (bstr "x")); ([], fun n => n, HDelete (bstr "other"))].

Lemma helper_keeps_keys_witness :
  exists w1, kw_turn ([], fun n => n, HPut (bstr "key") 2 [] (bstr "seed")) (mkWorld ∅ ∅ []) = (HOk, w1) /\
    (kw_turn ([], fun n => n, HGet (bstr "key") []) (foldl (fun w t => (kw_turn t w).2) w1 kw_later)).1 = HSecret (bstr "seed").
Proof.
  destruct (kw_turn ([], fun n => n, HPut (bstr "key") 2 [] (bstr "seed")) (mkWorld ∅ ∅ [])) as [r w1] eqn:E.
  assert (r = HOk) as -> by (apply (f_equal fst) in E; revert E; vm_compute; intros <-; reflexivity). exists w1. split; [reflexivity|].
  apply (helper_keeps_keys (P := toy) cw_argon cw_argon (Some kw_keychain) (Some cw_wrapper) _ _ _ true (KOK := kw_keychain_ok)
    cw_wrapper_ok (bstr "key") 2 [] (bstr "seed") [] (fun n => n) (fun n => n) kw_later (mkWorld ∅ ∅ []) w1 E); [by vm_compute|].
  apply Forall_cons; split; [intros HE; revert HE; by vm_compute|]. apply Forall_cons; split; [intros HE; revert HE; by vm_compute|]. apply Forall_nil_2.
Defined.

