(* ===== verification/Radio.v ===== *)
(** * Mesh radios (crates/transport/src/mesh/{meshtastic,meshcore,mqtt,mod}.rs)

    The protobuf subset of Meshtastic, the companion frames of Meshcore, the MQTT
    envelope, the incremental deframers of both serial ports and the ingest that
    reassembles what arrives.  The base64 codec is a parameter.  Proved: what a node
    sends up its serial port arrives as packets however the port splits the bytes
    and whatever log lines are in between; envelopes and fields round-trip, unknown
    ones are skipped; the deframers' buffers are bounded. *)

From S2P Require Import Prelude Wire Frag.

(** ** Protobuf fields (meshtastic.rs) *)

Definition PRIVATE_APP : Z := 256.
Definition BROADCAST : Z := 4294967295.

Definition u64_wrap (z : Z) : Z := z mod 2 ^ 64.

(** The loop of [put_varint]: a [u64] has at most ten groups of seven bits. *)
Fixpoint varint_from (fuel : nat) (v : Z) : bytes :=
  match fuel with
  | O => []
  | S fuel' =>
      let b := Z.land v 127 in
      let v' := Z.shiftr v 7 in
      if decide (v' <> 0) then byte_of (Z.lor b 128) :: varint_from fuel' v' else [byte_of b]
  end.
Definition put_varint (out : bytes) (v : Z) : bytes := out ++ varint_from 10 v.

Definition put_tag (out : bytes) (field wire : Z) : bytes := put_varint out (Z.lor (u32_wrap (Z.shiftl field 3)) wire).
Definition put_len_delim (out : bytes) (field : Z) (b : bytes) : bytes := put_varint (put_tag out field 2) (zlen b) ++ b.
Definition put_varint_field (out : bytes) (field v : Z) : bytes := put_varint (put_tag out field 0) v.
Definition le_bytes (n : nat) (z : Z) : bytes := reverse (be_bytes n z).
Definition le_val (b : bytes) : Z := be_val (reverse b).
Definition put_fixed32_field (out : bytes) (field v : Z) : bytes := put_tag out field 5 ++ le_bytes 4 v.

(** Readers take and leave what is left of the buffer, [buf[*pos..]]. *)
Fixpoint get_varint_from (n : nat) (shift result : Z) (rest : bytes) : option (Z * bytes) :=
  match n, rest with
  | S n', b :: rest' =>
      let result := Z.lor result (u64_wrap (Z.shiftl (Z.land (bval b) 127) shift)) in
      if decide (Z.land (bval b) 128 = 0) then Some (result, rest') else get_varint_from n' (shift + 7) result rest'
  | _, _ => None
  end.
Definition get_varint (rest : bytes) : option (Z * bytes) := get_varint_from 10 0 0 rest.

Inductive Field : Type :=
| Varint (field v : Z)
| Fixed32 (field v : Z)
| FBytes (field : Z) (b : bytes).

(** [pos.checked_add(n)] and the check against [buf.len()]: the bytes, and what follows. *)
Definition get_slice (n : Z) (rest : bytes) : option (bytes * bytes) :=
  if decide (n > zlen rest) then None else Some (take (Z.to_nat n) rest, drop (Z.to_nat n) rest).

(** What one turn of the loop of [each_field] reads: a field for the callback, if it is
    one, and what is left. *)
Definition one_field (buf : bytes) : option (option Field * bytes) :=
  '(tag, rest) ← get_varint buf;
  let field := u32_wrap (Z.shiftr tag 3) in
  let wire := Z.land tag 7 in
  if decide (wire = 0) then '(v, rest) ← get_varint rest; Some (Some (Varint field v), rest)
  else if decide (wire = 5) then '(b, rest) ← get_slice 4 rest; Some (Some (Fixed32 field (le_val b)), rest)
  else if decide (wire = 1) then '(_, rest) ← get_slice 8 rest; Some (None, rest)
  else if decide (wire = 2) then
    '(len, rest) ← get_varint rest; '(b, rest) ← get_slice len rest; Some (Some (FBytes field b), rest)
  else None.

(** The fields the callback is given, in order. *)
Fixpoint fields_from (fuel : nat) (buf : bytes) : list Field :=
  match fuel with
  | O => []
  | S fuel' =>
      if decide (buf = []) then []
      else match one_field buf with
           | Some (f, rest) => option_list f ++ fields_from fuel' rest
           | None => []
           end
  end.
Definition each_field (buf : bytes) : list Field := fields_from (S (length buf)) buf.

(** ** Meshtastic packets *)

Definition encode_meshpacket (channel : Z) (payload : bytes) : bytes :=
  let data := put_len_delim (put_varint_field [] 1 PRIVATE_APP) 2 payload in
  put_len_delim (put_varint_field (put_fixed32_field [] 2 BROADCAST) 3 channel) 4 data.
Definition encode_toradio (channel : Z) (payload : bytes) : bytes := put_len_delim [] 1 (encode_meshpacket channel payload).
Definition encode_want_config (nonce : Z) : bytes := put_varint_field [] 3 nonce.

(** [MeshtasticRx], and the [MeshPacket] made of it *)
Record MeshPacket : Type := mkMeshPacket { mp_channel : Z; mp_from : option Z; mp_payload : bytes }.

Definition packet_field (s : option Z * Z * option bytes) (f : Field) : option Z * Z * option bytes :=
  let '(from, channel, decoded) := s in
  match f with
  | Fixed32 1 v => (Some v, channel, decoded)
  | Varint 3 v => (from, v mod 256, decoded)
  | FBytes 4 b => (from, channel, Some b)
  | _ => s
  end.
Definition data_field (s : Z * option bytes) (f : Field) : Z * option bytes :=
  match f with
  | Varint 1 v => (v, s.2)
  | FBytes 2 b => (s.1, Some b)
  | _ => s
  end.
Definition parse_meshpacket (packet : bytes) : option MeshPacket :=
  let '(from, channel, decoded) := foldl packet_field (None, 0, None) (each_field packet) in
  decoded ← decoded;
  let '(portnum, payload) := foldl data_field (0, None) (each_field decoded) in
  if decide (portnum <> PRIVATE_APP) then None else mkMeshPacket channel from <$> payload.

Definition radio_field (s : option bytes) (f : Field) : option bytes := match f with FBytes 2 b => Some b | _ => s end.
Definition parse_fromradio (buf : bytes) : option MeshPacket := foldl radio_field None (each_field buf) ≫= parse_meshpacket.

(** ** The MQTT envelope (mqtt.rs, with its own copies of the varint routines) *)

Definition encode_service_envelope (channel_id gateway_id meshpacket : bytes) : bytes :=
  put_len_delim (put_len_delim (put_len_delim [] 1 meshpacket) 2 channel_id) 3 gateway_id.

Fixpoint envelope_from (fuel : nat) (buf : bytes) : option bytes :=
  match fuel with
  | O => None
  | S fuel' =>
      if decide (buf = []) then None
      else
        '(tag, rest) ← get_varint buf;
        let field := Z.shiftr tag 3 in
        let wire := Z.land tag 7 in
        if decide (wire = 0) then '(_, rest) ← get_varint rest; envelope_from fuel' rest
        else if decide (wire = 5) then '(_, rest) ← get_slice 4 rest; envelope_from fuel' rest
        else if decide (wire = 1) then '(_, rest) ← get_slice 8 rest; envelope_from fuel' rest
        else if decide (wire = 2) then
          '(len, rest) ← get_varint rest; '(b, rest) ← get_slice len rest;
          if decide (field = 1) then Some b else envelope_from fuel' rest
        else None
  end.
Definition parse_service_envelope (buf : bytes) : option bytes := envelope_from (S (length buf)) buf.

(** What a published message gives the subscriber. *)
Definition mqtt_ingest (payload : bytes) : option MeshPacket := parse_service_envelope payload ≫= parse_meshpacket.

Definition is_slash (b : byte) : bool := bool_decide (bval b = 47).
(** [trim_end_matches('/')] *)
Fixpoint trim_slashes (s : bytes) : bytes :=
  match s with
  | [] => []
  | b :: s' => let t := trim_slashes s' in if is_slash b && bool_decide (t = []) then [] else b :: t
  end.
Definition mqtt_topic (root channel node : bytes) : bytes :=
  trim_slashes root ++ bstr "/2/e/" ++ channel ++ bstr "/" ++ node.

Record MqttConfig : Type := mkMqttConfig { mq_root : bytes; mq_channel_name : bytes; mq_gateway_id : bytes; mq_mtu : Z }.
Definition mqtt_config_default : MqttConfig := mkMqttConfig (bstr "msh/US") (bstr "talkrypt") (bstr "!talkrypt") 200.

(** The topic and payload [send] publishes. *)
Definition mqtt_send (cfg : MqttConfig) (channel : Z) (payload : bytes) : bytes * bytes :=
  let mp := encode_meshpacket channel payload in
  let env := encode_service_envelope (mq_channel_name cfg) (mq_gateway_id cfg) mp in
  (mqtt_topic (mq_root cfg) (mq_channel_name cfg) (mq_gateway_id cfg), env).

(** ** Fields round-trip *)

(** The low seven bits, with and without the continuation bit, through a byte. *)
Lemma group_bits b : 0 <= b < 128 ->
  Z.land (bval (byte_of b)) 127 = b /\ Z.land (bval (byte_of b)) 128 = 0 /\
  Z.land (bval (byte_of (Z.lor b 128))) 127 = b /\ Z.land (bval (byte_of (Z.lor b 128))) 128 <> 0.
Proof.
  intros Hb. assert (forallb (fun b => bool_decide (Z.land (bval (byte_of b)) 127 = b /\ Z.land (bval (byte_of b)) 128 = 0 /\
    Z.land (bval (byte_of (Z.lor b 128))) 127 = b /\ Z.land (bval (byte_of (Z.lor b 128))) 128 <> 0)) (seqZ 0 128) = true) as Hall by by vm_compute.
  apply (bool_decide_eq_true_1 _). apply (proj1 (List.forallb_forall _ _) Hall). apply list_elem_of_In, elem_of_seqZ. lia.
Qed.

Lemma land127 v : 0 <= v -> 0 <= Z.land v 127 < 128 /\ Z.land v 127 <= v.
Proof.
  intros Hv. change 127 with (Z.ones 7). rewrite Z.land_ones by lia. pose proof (Z.mod_pos_bound v (2 ^ 7)). pose proof (Z.mod_le v (2 ^ 7)). lia.
Qed.

Lemma split7 v : Z.lor (Z.land v 127) (Z.shiftl (Z.shiftr v 7) 7) = v.
Proof.
  apply Z.bits_inj'. intros n Hn. change 127 with (Z.ones 7). rewrite Z.lor_spec, Z.land_spec, Z.shiftl_spec by lia.
  destruct (decide (n < 7)).
  - rewrite Z.ones_spec_low, andb_true_r, (Z.testbit_neg_r _ (n - 7)), orb_false_r by lia. done.
  - rewrite Z.ones_spec_high, andb_false_r, Z.shiftr_spec by lia. cbn. f_equal. lia.
Qed.

Lemma shiftr7_bound v n : 0 <= v < 2 ^ (7 * Z.of_nat (S n)) -> 0 <= Z.shiftr v 7 < 2 ^ (7 * Z.of_nat n).
Proof.
  intros Hv. rewrite Z.shiftr_div_pow2 by lia. split; [apply Z.div_pos; lia|]. apply Z.div_lt_upper_bound; [lia|].
  rewrite <- Z.pow_add_r by lia. replace (7 + 7 * Z.of_nat n) with (7 * Z.of_nat (S n)) by lia. lia.
Qed.

Lemma varint_from_S n v : varint_from (S n) v =
  if decide (Z.shiftr v 7 <> 0) then byte_of (Z.lor (Z.land v 127) 128) :: varint_from n (Z.shiftr v 7) else [byte_of (Z.land v 127)].
Proof. done. Qed.
Lemma get_varint_from_S n shift res b rest : get_varint_from (S n) shift res (b :: rest) =
  let res := Z.lor res (u64_wrap (Z.shiftl (Z.land (bval b) 127) shift)) in
  if decide (Z.land (bval b) 128 = 0) then Some (res, rest) else get_varint_from n (shift + 7) res rest.
Proof. done. Qed.

Lemma varint_from_get n shift res v rest :
  0 <= v < 2 ^ (7 * Z.of_nat (S n)) -> 0 <= shift -> Z.shiftl v shift < 2 ^ 64 ->
  get_varint_from (S n) shift res (varint_from (S n) v ++ rest) = Some (Z.lor res (Z.shiftl v shift), rest).
Proof.
  revert shift res v. induction n as [|n IH]; intros shift res v Hv Hs Hb;
    destruct (land127 v ltac:(lia)) as [Hl Hle]; destruct (group_bits (Z.land v 127) Hl) as (H1 & H2 & H3 & H4);
    pose proof (split7 v) as Hsp;
    assert (0 <= Z.shiftl (Z.land v 127) shift < 2 ^ 64) as Hw by (rewrite !Z.shiftl_mul_pow2 in * by lia; nia).
  - pose proof (shiftr7_bound v 0 Hv) as H0. rewrite varint_from_S, decide_False by (cbn in H0; lia).
    cbn [app]. rewrite get_varint_from_S, H1, H2. rewrite decide_True by done. unfold u64_wrap. rewrite Z.mod_small by done.
    replace (Z.shiftr v 7) with 0 in Hsp by (cbn in H0; lia). cbn in Hsp. rewrite Z.lor_0_r in Hsp. by rewrite Hsp.
  - rewrite varint_from_S. destruct (decide (Z.shiftr v 7 <> 0)) as [Hn|Hn].
    + cbn [app]. rewrite get_varint_from_S, H3, decide_False by done. unfold u64_wrap. rewrite Z.mod_small by done.
      assert (Z.shiftl (Z.shiftr v 7) (shift + 7) = Z.shiftl (Z.shiftl (Z.shiftr v 7) 7) shift) as Es
        by (rewrite Z.shiftl_shiftl by lia; f_equal; lia).
      rewrite IH; [|by apply shiftr7_bound|lia|].
      * rewrite Es, <- Z.lor_assoc, <- Z.shiftl_lor, Hsp. done.
      * rewrite Es. eapply Z.le_lt_trans; [|exact Hb]. rewrite !(Z.shiftl_mul_pow2 _ shift) by lia. apply Z.mul_le_mono_nonneg_r; [lia|].
        rewrite Z.shiftl_mul_pow2, Z.shiftr_div_pow2 by lia. rewrite Z.mul_comm. apply Z.mul_div_le. lia.
    + apply dec_stable in Hn. rewrite Hn, Z.shiftl_0_l, Z.lor_0_r in Hsp. cbn [app]. rewrite get_varint_from_S, H1, H2.
      rewrite decide_True by done. unfold u64_wrap. rewrite Z.mod_small by done. by rewrite Hsp.
Qed.

Lemma varint_roundtrip v rest : is_u64 v -> get_varint (varint_from 10 v ++ rest) = Some (v, rest).
Proof.
  intros [H0 H1]. unfold get_varint. rewrite (varint_from_get 9 0 0 v rest); [by rewrite Z.shiftl_0_r| |lia|by rewrite Z.shiftl_0_r].
  split; [done|]. eapply Z.lt_trans; [exact H1|]. apply Z.pow_lt_mono_r; lia.
Qed.

Lemma varint_nonempty n v : (0 < length (varint_from (S n) v))%nat.
Proof. rewrite varint_from_S. destruct (decide _); cbn; lia. Qed.

Lemma le_roundtrip n z : 0 <= z < 256 ^ Z.of_nat n -> le_val (le_bytes n z) = z.
Proof. intros Hz. unfold le_val, le_bytes. rewrite reverse_involutive, be_val_bytes. by apply Z.mod_small. Qed.
Lemma length_le_bytes n z : length (le_bytes n z) = n.
Proof. unfold le_bytes. by rewrite length_reverse, length_be_bytes. Qed.

Definition enc_field (f : Field) : bytes :=
  match f with
  | Varint n v => put_varint_field [] n v
  | Fixed32 n v => put_fixed32_field [] n v
  | FBytes n b => put_len_delim [] n b
  end.
Definition is_field_number (n : Z) : Prop := 0 <= n < 2 ^ 29.
Definition field_ok (f : Field) : Prop :=
  match f with
  | Varint n v => is_field_number n /\ is_u64 v
  | Fixed32 n v => is_field_number n /\ is_u32 v
  | FBytes n b => is_field_number n /\ zlen b <= usize_max
  end.
Definition enc_fields (fs : list Field) : bytes := mjoin (enc_field <$> fs).

Lemma put_field_app out f :
  match f with
  | Varint n v => put_varint_field out n v
  | Fixed32 n v => put_fixed32_field out n v
  | FBytes n b => put_len_delim out n b
  end = out ++ enc_field f.
Proof. destruct f; unfold enc_field, put_varint_field, put_fixed32_field, put_len_delim, put_tag, put_varint; cbn [app]; by rewrite <- ?app_assoc. Qed.

Lemma tag_parts n w : is_field_number n -> 0 <= w < 8 ->
  let tag := Z.lor (u32_wrap (Z.shiftl n 3)) w in is_u64 tag /\ u32_wrap (Z.shiftr tag 3) = n /\ Z.shiftr tag 3 = n /\ Z.land tag 7 = w.
Proof.
  intros Hn Hw. cbn zeta. unfold is_field_number in Hn. assert (u32_wrap (Z.shiftl n 3) = n * 8) as ->
    by (rewrite Z.shiftl_mul_pow2 by lia; unfold u32_wrap; apply Z.mod_small; lia).
  assert (Z.land (n * 8) w = 0) as H0.
  { replace w with (Z.land (Z.ones 3) w) by (rewrite Z.land_comm, Z.land_ones by lia; apply Z.mod_small; lia).
    rewrite Z.land_assoc, Z.land_ones by lia. change (2 ^ 3) with 8. by rewrite Z.mod_mul, Z.land_0_l by lia. }
  assert (Z.lor (n * 8) w = n * 8 + w) as -> by (rewrite <- Z.add_lor_land, H0; lia).
  assert (Z.shiftr (n * 8 + w) 3 = n) as ->.
  { rewrite Z.shiftr_div_pow2 by lia. change (2 ^ 3) with 8. symmetry. apply (Z.div_unique _ _ _ w); lia. }
  split; [unfold is_u64; lia|]. split; [apply Z.mod_small; lia|]. split; [done|].
  change 7 with (Z.ones 3). rewrite Z.land_ones by lia. change (2 ^ 3) with 8. symmetry. apply (Z.mod_unique _ _ n); lia.
Qed.

Lemma get_slice_app b rest : get_slice (zlen b) (b ++ rest) = Some (b, rest).
Proof.
  unfold get_slice. rewrite decide_False by (rewrite zlen_app; pose proof (zlen_nonneg rest); lia).
  unfold zlen. by rewrite Nat2Z.id, take_app_length, drop_app_length.
Qed.

Lemma one_field_enc f rest : field_ok f -> one_field (enc_field f ++ rest) = Some (Some f, rest).
Proof.
  intros Hf. destruct f as [n v|n v|n b]; destruct Hf as [Hn Hv];
    unfold enc_field, put_varint_field, put_fixed32_field, put_len_delim, put_tag, put_varint; cbn [app]; rewrite <- !app_assoc; unfold one_field.
  - destruct (tag_parts n 0 Hn ltac:(lia)) as (Ht & H1 & _ & H2). rewrite varint_roundtrip by done. cbn [mbind option_bind].
    rewrite H1, H2. rewrite decide_True by done. by rewrite varint_roundtrip.
  - destruct (tag_parts n 5 Hn ltac:(lia)) as (Ht & H1 & _ & H2). rewrite varint_roundtrip by done. cbn [mbind option_bind].
    rewrite H1, H2. rewrite decide_False, decide_True by done.
    assert (zlen (le_bytes 4 v) = 4) as E by (unfold zlen; by rewrite length_le_bytes). rewrite <- E at 1. rewrite get_slice_app.
    cbn [mbind option_bind]. by rewrite le_roundtrip.
  - destruct (tag_parts n 2 Hn ltac:(lia)) as (Ht & H1 & _ & H2). rewrite varint_roundtrip by done. cbn [mbind option_bind].
    rewrite H1, H2. rewrite !decide_False, decide_True by done.
    rewrite varint_roundtrip by (pose proof (zlen_nonneg b); unfold usize_max in Hv; split; lia). cbn [mbind option_bind]. by rewrite get_slice_app.
Qed.

Lemma enc_field_nonempty f : (0 < length (enc_field f))%nat.
Proof.
  destruct f; unfold enc_field, put_varint_field, put_fixed32_field, put_len_delim, put_tag, put_varint; cbn [app];
    rewrite !length_app; pose proof (varint_nonempty 9 (Z.lor (u32_wrap (Z.shiftl field 3)) 0));
    pose proof (varint_nonempty 9 (Z.lor (u32_wrap (Z.shiftl field 3)) 5)); pose proof (varint_nonempty 9 (Z.lor (u32_wrap (Z.shiftl field 3)) 2)); lia.
Qed.

Lemma enc_fields_cons f fs : enc_fields (f :: fs) = enc_field f ++ enc_fields fs.
Proof. done. Qed.

Lemma length_enc_fields fs : (length fs <= length (enc_fields fs))%nat.
Proof. induction fs as [|f fs IH]; [done|]. rewrite enc_fields_cons, length_app. pose proof (enc_field_nonempty f). cbn. lia. Qed.

(** A message is read as the fields it was written with. *)
Lemma each_field_enc fs : Forall field_ok fs -> each_field (enc_fields fs) = fs.
Proof.
  intros Hfs. unfold each_field. assert (length fs < S (length (enc_fields fs)))%nat as Hl by (pose proof (length_enc_fields fs); lia).
  revert Hl. generalize (S (length (enc_fields fs))). induction Hfs as [|f fs Hf Hfs IH]; intros fuel Hl; destruct fuel as [|fuel]; [lia|done|lia|].
  cbn [fields_from]. rewrite enc_fields_cons. rewrite decide_False by (intros E; pose proof (enc_field_nonempty f); apply (f_equal length) in E; rewrite length_app in E; cbn in E; lia).
  rewrite one_field_enc by done. cbn [option_list app]. rewrite IH by (cbn in Hl; lia). done.
Qed.

(** The envelope's packet, whatever follows it. *)
Lemma envelope_packet mp rest : zlen mp <= usize_max -> parse_service_envelope (enc_field (FBytes 1 mp) ++ rest) = Some mp.
Proof.
  intros Hl. unfold parse_service_envelope. cbn [envelope_from].
  rewrite decide_False by (intros E; pose proof (enc_field_nonempty (FBytes 1 mp)); apply (f_equal length) in E; rewrite length_app in E; cbn [length] in E; lia).
  unfold enc_field, put_len_delim, put_tag, put_varint. cbn [app]. rewrite <- !app_assoc.
  destruct (tag_parts 1 2 ltac:(split; lia) ltac:(lia)) as (Ht & _ & H1 & H2). rewrite varint_roundtrip by done. cbn [mbind option_bind].
  rewrite H1, H2. rewrite !decide_False, decide_True by done.
  rewrite varint_roundtrip by (pose proof (zlen_nonneg mp); unfold usize_max in Hl; split; lia). cbn [mbind option_bind]. rewrite get_slice_app. cbn [mbind option_bind].
  by rewrite decide_True.
Qed.

(** ** Packets round-trip *)

Definition data_fields (payload : bytes) : list Field := [Varint 1 PRIVATE_APP; FBytes 2 payload].

Lemma encode_meshpacket_fields channel payload : encode_meshpacket channel payload =
  enc_fields [Fixed32 2 BROADCAST; Varint 3 channel; FBytes 4 (enc_fields (data_fields payload))].
Proof.
  unfold encode_meshpacket, data_fields. rewrite (put_field_app _ (FBytes 4 _)), (put_field_app _ (Varint 3 _)), (put_field_app [] (Fixed32 2 _)).
  rewrite (put_field_app _ (FBytes 2 _)), (put_field_app [] (Varint 1 _)). unfold enc_fields. cbn [fmap list_fmap mjoin list_join app].
  by rewrite !app_nil_r, <- !app_assoc.
Qed.

Definition field_number (f : Field) : Z := match f with Varint n _ | Fixed32 n _ | FBytes n _ => n end.

(** Fields of other numbers change nothing. *)
Lemma packet_field_skip s l : Forall (fun f => 4 < field_number f) l -> foldl packet_field s l = s.
Proof.
  intros Hl. revert s. induction Hl as [|f l Hf Hl IH]; intros [[a b] c]; [done|]. cbn [foldl]. rewrite IH.
  destruct f as [n v|n v|n v]; cbn in *; repeat (case_match; try lia); done.
Qed.

Lemma data_read payload : zlen payload <= usize_max ->
  foldl data_field (0, None) (each_field (enc_fields (data_fields payload))) = (PRIVATE_APP, Some payload).
Proof. intros Hp. by rewrite each_field_enc by (unfold data_fields; repeat (apply Forall_cons; split); try done; cbn; unfold is_field_number, is_u64, PRIVATE_APP; lia). Qed.

Definition from_field (from : option Z) : list Field := match from with Some v => [Fixed32 1 v] | None => [] end.

Lemma parse_meshpacket_read from to channel payload extra :
  is_u32 to -> 0 <= channel < 256 -> zlen (enc_fields (data_fields payload)) <= usize_max -> zlen payload <= usize_max ->
  (forall v, from = Some v -> is_u32 v) -> Forall (fun f => field_ok f /\ 4 < field_number f) extra ->
  parse_meshpacket (enc_fields (from_field from ++ [Fixed32 2 to; Varint 3 channel; FBytes 4 (enc_fields (data_fields payload))] ++ extra)) =
    Some (mkMeshPacket channel from payload).
Proof.
  intros Hto Hc Hd Hp Hf He. rewrite Forall_and in He. destruct He as [He1 He2]. unfold parse_meshpacket. rewrite each_field_enc.
  - rewrite foldl_app, foldl_app, (packet_field_skip _ extra) by done. unfold from_field. destruct from as [v|]; cbn [foldl packet_field];
      rewrite Z.mod_small by lia; cbn [mbind option_bind]; rewrite data_read by done; by rewrite decide_False by (intros Hn; by apply Hn).
  - apply Forall_app. split; [unfold from_field; destruct from as [v|]; cbn; [apply Forall_cons; split; [split; [split; lia|by apply Hf]|done]|done]|].
    apply Forall_app. split; [|done]. repeat (apply Forall_cons; split); try done; cbn; unfold is_field_number, is_u64; lia.
Qed.

(** ** What a node hands up *)

(** A message of the node: its own number, a packet with addresses, and fields this
    code does not read. *)
Record Heard : Type := mkHeard {
  hd_id : Z; hd_from : Z; hd_to : Z; hd_channel : Z; hd_payload : bytes; hd_packet_extra : list Field; hd_radio_extra : list Field }.

Definition heard_packet (h : Heard) : bytes :=
  enc_fields (from_field (Some (hd_from h)) ++ [Fixed32 2 (hd_to h); Varint 3 (hd_channel h); FBytes 4 (enc_fields (data_fields (hd_payload h)))] ++ hd_packet_extra h).
Definition fromradio (h : Heard) : bytes := enc_fields ([Varint 1 (hd_id h); FBytes 2 (heard_packet h)] ++ hd_radio_extra h).
Definition received (h : Heard) : MeshPacket := mkMeshPacket (hd_channel h) (Some (hd_from h)) (hd_payload h).

Record heard_ok (h : Heard) : Prop := {
  ho_id : is_u32 (hd_id h); ho_from : is_u32 (hd_from h); ho_to : is_u32 (hd_to h); ho_channel : 0 <= hd_channel h < 256;
  ho_packet_extra : Forall (fun f => field_ok f /\ 4 < field_number f) (hd_packet_extra h);
  ho_radio_extra : Forall (fun f => field_ok f /\ 2 < field_number f) (hd_radio_extra h);
  ho_len : zlen (fromradio h) <= 512 }.

Lemma zlen_enc_fields_app a b : zlen (enc_fields (a ++ b)) = zlen (enc_fields a) + zlen (enc_fields b).
Proof. unfold enc_fields. by rewrite fmap_app, join_app, zlen_app. Qed.
Lemma zlen_bytes_field n b : zlen b <= zlen (enc_field (FBytes n b)).
Proof. unfold enc_field, put_len_delim. rewrite zlen_app. pose proof (zlen_nonneg (put_varint (put_tag [] n 2) (zlen b))). lia. Qed.
Lemma zlen_field_in n b fs : FBytes n b ∈ fs -> zlen b <= zlen (enc_fields fs).
Proof.
  intros (l1 & l2 & ->)%list_elem_of_split. rewrite zlen_enc_fields_app, enc_fields_cons, zlen_app. pose proof (zlen_bytes_field n b).
  pose proof (zlen_nonneg (enc_fields l1)). pose proof (zlen_nonneg (enc_fields l2)). lia.
Qed.

Lemma radio_field_skip s l : Forall (fun f => 2 < field_number f) l -> foldl radio_field s l = s.
Proof.
  intros Hl. revert s. induction Hl as [|f l Hf Hl IH]; intros s; [done|]. cbn [foldl]. rewrite IH.
  destruct f as [n v|n v|n v]; cbn in *; repeat (case_match; try lia); done.
Qed.

Lemma fromradio_read h : heard_ok h -> parse_fromradio (fromradio h) = Some (received h).
Proof.
  intros Hh. assert (zlen (heard_packet h) <= 512) as Hl.
  { etrans; [apply (zlen_field_in 2)|exact (ho_len _ Hh)]. apply elem_of_app. left. apply list_elem_of_further, list_elem_of_here. }
  assert (zlen (enc_fields (data_fields (hd_payload h))) <= 512) as Hl2.
  { etrans; [|exact Hl]. apply (zlen_field_in 4). set_solver. }
  assert (zlen (hd_payload h) <= 512) as Hl3.
  { etrans; [|exact Hl2]. apply (zlen_field_in 2). set_solver. }
  pose proof (ho_radio_extra _ Hh) as Hr. rewrite Forall_and in Hr. destruct Hr as [Hr1 Hr2].
  unfold parse_fromradio, fromradio. rewrite each_field_enc.
  - rewrite foldl_app, (radio_field_skip _ (hd_radio_extra h)) by done. cbn [foldl radio_field mbind option_bind].
    unfold heard_packet. apply parse_meshpacket_read; try apply Hh; try (unfold usize_max; lia). intros v [= <-]. apply Hh.
  - apply Forall_app. split; [|done]. pose proof (ho_id _ Hh) as [? ?].
    apply Forall_cons; split; [split; [split; lia|split; lia]|]. apply Forall_cons; split; [split; [split; lia|unfold usize_max; lia]|done].
Qed.

(** ** Incremental deframing

    One turn of a deframer's loop on its buffer: wait for more with what is kept, go on
    with less, or hand out a frame and go on. *)

Inductive Turned : Type :=
| Wait (buf : bytes)
| Again (buf : bytes)
| Emit (frame buf : bytes).

(** The loop of [push]: the frames handed out, and the buffer it leaves. *)
Fixpoint deframe_from (turn : bytes -> Turned) (fuel : nat) (buf : bytes) : list bytes * bytes :=
  match fuel with
  | O => ([], buf)
  | S fuel' =>
      match turn buf with
      | Wait buf => ([], buf)
      | Again buf => deframe_from turn fuel' buf
      | Emit frame buf => let (frames, buf) := deframe_from turn fuel' buf in (frame :: frames, buf)
      end
  end.
Definition deframer_push (turn : bytes -> Turned) (buf b : bytes) : list bytes * bytes :=
  deframe_from turn (S (length (buf ++ b))) (buf ++ b).

(** Position of the first element that passes a test. *)
Fixpoint position {A} (p : A -> bool) (l : list A) : option nat :=
  match l with [] => None | a :: l' => if p a then Some 0%nat else S <$> position p l' end.

(** Meshtastic's Stream API (meshtastic.rs) *)
Definition START1 : Z := 148.
Definition START2 : Z := 195.
Definition MAX_STREAM_PAYLOAD : Z := 512.

Definition mt_frame (pb : bytes) : bytes := [byte_of START1; byte_of START2] ++ be_bytes 2 (zlen pb mod 2 ^ 16) ++ pb.

(** [buf.windows(2)] *)
Definition windows2 (buf : bytes) : list (byte * byte) := zip buf (tail buf).
Definition is_start (w : byte * byte) : bool := bool_decide (bval w.1 = START1 /\ bval w.2 = START2).

Definition mt_turn (buf : bytes) : Turned :=
  match position is_start (windows2 buf) with
  | None => Wait (if decide (1 < length buf)%nat then drop (length buf - 1) buf else buf)
  | Some s =>
      let buf := drop s buf in
      if decide (length buf < 4)%nat then Wait buf
      else
        let len := be_val (take 2 (drop 2 buf)) in
        if decide (len > MAX_STREAM_PAYLOAD) then Again (drop 2 buf)
        else if decide (zlen buf < 4 + len) then Wait buf
        else Emit (take (Z.to_nat len) (drop 4 buf)) (drop (4 + Z.to_nat len) buf)
  end.
Definition mt_push := deframer_push mt_turn.

(** Meshcore's companion serial frames (meshcore.rs) *)
Definition TYPE_TO_RADIO : Z := 60.
Definition TYPE_FROM_RADIO : Z := 62.

Definition mc_frame (payload : bytes) : bytes := [byte_of TYPE_TO_RADIO] ++ le_bytes 2 (zlen payload mod 2 ^ 16) ++ payload.

Definition is_from_radio (b : byte) : bool := bool_decide (bval b = TYPE_FROM_RADIO).
Definition mc_turn (buf : bytes) : Turned :=
  match position is_from_radio buf with
  | None => Wait []
  | Some s =>
      let buf := drop s buf in
      if decide (length buf < 3)%nat then Wait buf
      else
        let len := le_val (take 2 (drop 1 buf)) in
        if decide (zlen buf < 3 + len) then Wait buf
        else Emit (take (Z.to_nat len) (drop 3 buf)) (drop (3 + Z.to_nat len) buf)
  end.
Definition mc_push := deframer_push mc_turn.

(** What a serial reader's task makes of the chunks it reads. *)
Fixpoint serial_read (turn : bytes -> Turned) (parse : bytes -> option MeshPacket) (buf : bytes) (chunks : list bytes) : list MeshPacket :=
  match chunks with
  | [] => []
  | b :: chunks' => let (frames, buf) := deframer_push turn buf b in omap parse frames ++ serial_read turn parse buf chunks'
  end.

(** ** Meshcore companion payloads (meshcore.rs) *)

Definition CMD_APP_START : Z := 1.
Definition CMD_SEND_CHANNEL_TXT_MSG : Z := 3.
Definition PACKET_CHANNEL_MSG_RECV : Z := 8.
Definition PACKET_CHANNEL_MSG_RECV_V3 : Z := 17.

Definition encode_app_start (app_name : bytes) : bytes := [byte_of CMD_APP_START] ++ replicate 7 (byte_of 0) ++ app_name.
Definition encode_send_channel (channel timestamp : Z) (text : bytes) : bytes :=
  [byte_of CMD_SEND_CHANNEL_TXT_MSG; byte_of 0; byte_of channel] ++ le_bytes 4 timestamp ++ text.

Definition parse_channel_recv (p : bytes) : option (Z * bytes) :=
  match p with
  | [] => None
  | code :: _ =>
      if decide (bval code = PACKET_CHANNEL_MSG_RECV) then
        if decide (length p < 8)%nat then None else (fun c => (bval c, drop 8 p)) <$> p !! 1%nat
      else if decide (bval code = PACKET_CHANNEL_MSG_RECV_V3) then
        if decide (length p < 11)%nat then None else (fun c => (bval c, drop 11 p)) <$> p !! 4%nat
      else None
  end.

Section Meshcore.
(** The [base64] crate's STANDARD engine. *)
Context (b64_encode : bytes -> bytes) (b64_decode : bytes -> option bytes).

Definition encode_channel_text_b64 (channel : Z) (payload : bytes) : bytes := encode_send_channel channel 0 (b64_encode payload).
Definition parse_channel_recv_b64 (payload : bytes) : option (Z * bytes) :=
  '(channel, text) ← parse_channel_recv payload;
  frag ← b64_decode text;
  Some (channel, frag).
Definition mc_parse (payload : bytes) : option MeshPacket :=
  '(channel, frag) ← parse_channel_recv_b64 payload;
  Some (mkMeshPacket channel None frag).
End Meshcore.

(** ** Any chunking gives the same frames *)

(** What makes a loop body incremental: its verdicts stand when more bytes follow, and
    waiting keeps all that matters. *)
Class Incremental (turn : bytes -> Turned) : Prop := {
  inc_again b r y : turn b = Again r -> turn (b ++ y) = Again (r ++ y) /\ (length r < length b)%nat;
  inc_emit b f r y : turn b = Emit f r -> turn (b ++ y) = Emit f (r ++ y) /\ (length r < length b)%nat;
  inc_wait b r y : turn b = Wait r -> turn (b ++ y) = turn (r ++ y) }.

Section Chunking.
Context (turn : bytes -> Turned) {INC : Incremental turn}.

Definition deframe (b : bytes) : list bytes * bytes := deframe_from turn (S (length b)) b.

Lemma deframe_fuel fuel b : (length b < fuel)%nat -> deframe_from turn fuel b = deframe b.
Proof.
  unfold deframe. assert (length b < S (length b))%nat as Hb by lia. revert Hb. generalize (S (length b)). intros fuel' Hb' Hb.
  revert fuel' b Hb Hb'. induction fuel as [|fuel IH]; intros fuel' b Hb Hb'; [lia|]. destruct fuel' as [|fuel']; [lia|]. cbn [deframe_from].
  destruct (turn b) as [r|r|f r] eqn:E; [done| |].
  - destruct (inc_again _ _ [] E) as [_ Hl]. apply IH; lia.
  - destruct (inc_emit _ _ _ [] E) as [_ Hl]. rewrite (IH fuel' r) by lia. done.
Qed.

Lemma deframe_turn b : deframe b =
  match turn b with
  | Wait r => ([], r)
  | Again r => deframe r
  | Emit f r => let (fs, r') := deframe r in (f :: fs, r')
  end.
Proof.
  unfold deframe at 1. cbn [deframe_from]. destruct (turn b) as [r|r|f r] eqn:E; [done| |].
  - destruct (inc_again _ _ [] E) as [_ Hl]. by apply deframe_fuel.
  - destruct (inc_emit _ _ _ [] E) as [_ Hl]. by rewrite deframe_fuel.
Qed.

Lemma deframe_app b y : deframe (b ++ y) = let (fs, r) := deframe b in let (fs', r') := deframe (r ++ y) in (fs ++ fs', r').
Proof.
  remember (length b) as n eqn:Hn. revert b Hn. induction n as [n IH] using lt_wf_ind. intros b ->. rewrite (deframe_turn b).
  destruct (turn b) as [r|r|f r] eqn:E.
  - rewrite (deframe_turn (b ++ y)), (inc_wait _ _ y E), <- deframe_turn. by destruct (deframe (r ++ y)).
  - destruct (inc_again _ _ y E) as [E' Hl]. rewrite deframe_turn, E'. by apply (IH (length r)).
  - destruct (inc_emit _ _ _ y E) as [E' Hl]. rewrite deframe_turn, E', (IH (length r)) by done.
    destruct (deframe r) as [fs r'], (deframe (r' ++ y)) as [fs' r'']. done.
Qed.

(** What is kept waits for more. *)
Lemma deframe_rest b fs r : deframe b = (fs, r) -> turn r = Wait r.
Proof.
  remember (length b) as n eqn:Hn. revert b fs Hn. induction n as [n IH] using lt_wf_ind. intros b fs ->. rewrite deframe_turn.
  destruct (turn b) as [x|x|f x] eqn:E.
  - intros [= <- <-]. pose proof (inc_wait _ _ [] E) as Hw. rewrite !app_nil_r in Hw. congruence.
  - destruct (inc_again _ _ [] E) as [_ Hl]. by apply (IH (length x)).
  - destruct (inc_emit _ _ _ [] E) as [_ Hl]. destruct (deframe x) as [fs' r'] eqn:E'. intros [= <- <-]. by apply (IH (length x) Hl x fs').
Qed.

(** Reading in chunks is reading at once. *)
Lemma serial_read_chunks parse buf chunks : turn buf = Wait buf ->
  serial_read turn parse buf chunks = omap parse (deframe (buf ++ mjoin chunks)).1.
Proof.
  revert buf. induction chunks as [|b chunks IH]; intros buf Hb; cbn [serial_read mjoin list_join].
  - by rewrite app_nil_r, deframe_turn, Hb.
  - unfold deframer_push. rewrite deframe_fuel by lia. rewrite app_assoc, (deframe_app (buf ++ b)).
    destruct (deframe (buf ++ b)) as [fs r] eqn:E. rewrite IH by by eapply deframe_rest.
    destruct (deframe (r ++ mjoin chunks)). cbn. by rewrite omap_app.
Qed.

(** Frames, each after some noise, come out in order. *)
Lemma deframe_frames (wrap : bytes -> bytes) (ok quiet : bytes -> Prop) l tail :
  (forall noise pb y, quiet noise -> ok pb -> turn (noise ++ wrap pb ++ y) = Emit pb y) ->
  Forall (fun x : bytes * bytes => quiet x.1 /\ ok x.2) l ->
  (deframe (mjoin ((fun x => x.1 ++ wrap x.2) <$> l) ++ tail)).1 = (snd <$> l) ++ (deframe tail).1.
Proof.
  intros Hw Hl. induction Hl as [|[noise pb] l [Hq Hp] Hl IH]; [done|]. cbn [fmap list_fmap mjoin list_join fst snd].
  rewrite <- !app_assoc, deframe_turn, Hw by done. cbn [fst snd] in IH. destruct (deframe _) as [fs r]. cbn in *. by rewrite IH.
Qed.

End Chunking.

(** ** Both deframers are incremental *)

Lemma position_app {A} (p : A -> bool) l1 l2 :
  position p (l1 ++ l2) = match position p l1 with Some s => Some s | None => (fun s => (length l1 + s)%nat) <$> position p l2 end.
Proof.
  induction l1 as [|a l1 IH]; cbn; [by destruct (position p l2)|]. destruct (p a); [done|]. rewrite IH. destruct (position p l1); [done|].
  by destruct (position p l2).
Qed.
Lemma position_drop {A} (p : A -> bool) l s : position p l = Some s -> position p (drop s l) = Some 0%nat /\ (s < length l)%nat.
Proof.
  revert s. induction l as [|a l IH]; intros s; cbn; [done|]. destruct (p a) eqn:E; [intros [= <-]; cbn; rewrite E; split; [done|lia]|].
  destruct (position p l) as [s'|]; [|done]. intros [= <-]. destruct (IH s' eq_refl). split; [done|]. lia.
Qed.
Lemma position_skip {A} (p : A -> bool) l1 a l2 : forallb (fun x => negb (p x)) l1 = true -> p a = true -> position p (l1 ++ a :: l2) = Some (length l1).
Proof. intros H1 H2. induction l1 as [|b l1 IH]; cbn in *; [by rewrite H2|]. apply andb_true_iff in H1 as [Hb H1]. destruct (p b); [done|]. by rewrite IH. Qed.

(** The part of a turn after the search. *)
Definition mt_at (buf : bytes) : Turned :=
  if decide (length buf < 4)%nat then Wait buf
  else
    let len := be_val (take 2 (drop 2 buf)) in
    if decide (len > MAX_STREAM_PAYLOAD) then Again (drop 2 buf)
    else if decide (zlen buf < 4 + len) then Wait buf
    else Emit (take (Z.to_nat len) (drop 4 buf)) (drop (4 + Z.to_nat len) buf).
Lemma mt_turn_at b : mt_turn b = match position is_start (windows2 b) with None => Wait (drop (length b - 1) b) | Some s => mt_at (drop s b) end.
Proof.
  unfold mt_turn, mt_at. destruct (position _ _); [done|]. destruct (decide _) as [|Hl]; [done|].
  by replace (length b - 1)%nat with 0%nat by lia.
Qed.

Lemma windows2_app b y : b <> [] -> windows2 (b ++ y) = windows2 b ++ windows2 (drop (length b - 1) b ++ y).
Proof.
  unfold windows2. induction b as [|x b IH]; [done|]. intros _. destruct b as [|z b]; [done|]. cbn [app tail length]. cbn [app tail length] in IH.
  rewrite Nat.sub_succ, Nat.sub_0_r in *.
  exact (f_equal (cons (x, z)) (IH ltac:(done))).
Qed.
Lemma length_windows2 b : length (windows2 b) = (length b - 1)%nat.
Proof. unfold windows2. rewrite length_zip_with. destruct b as [|x b]; [done|]. cbn [tail length]. lia. Qed.
Lemma windows2_drop s b : windows2 (drop s b) = drop s (windows2 b).
Proof.
  unfold windows2. revert b. induction s as [|s IH]; intros b; [done|]. destruct b as [|x b]; [done|]. destruct b as [|z b]; [by destruct s|]. cbn [drop tail zip_with].
  by apply IH.
Qed.

Lemma mt_found s b y : position is_start (windows2 b) = Some s -> mt_turn (b ++ y) = mt_at (drop s b ++ y) /\ mt_turn b = mt_at (drop s b) /\ (S s < length b)%nat.
Proof.
  intros H. destruct (position_drop _ _ _ H) as [_ Hl]. rewrite length_windows2 in Hl. split; [|split; [by rewrite mt_turn_at, H|lia]].
  rewrite mt_turn_at, windows2_app, position_app, H by (intros ->; cbn in Hl; lia). by rewrite drop_app_le by lia.
Qed.

Lemma mt_at_ext (x y : bytes) : (4 <= length x)%nat ->
  take 2 (drop 2 (x ++ y)) = take 2 (drop 2 x) /\ zlen (x ++ y) = zlen x + zlen y /\ drop 2 (x ++ y) = drop 2 x ++ y.
Proof. intros Hx. split; [|split; [apply zlen_app|]]; rewrite drop_app_le by lia; [|done]. by rewrite take_app_le by (rewrite length_drop; lia). Qed.

#[export] Instance mt_incremental : Incremental mt_turn.
Proof.
  split.
  - intros b r y H. destruct (position is_start (windows2 b)) as [s|] eqn:Es; [|rewrite mt_turn_at, Es in H; done].
    destruct (mt_found s b y Es) as (E1 & E2 & Hs). rewrite E1. rewrite E2 in H. unfold mt_at in H |- *. assert (length (drop s b) = length b - s)%nat as Hld by apply length_drop.
    destruct (decide (length (drop s b) < 4)%nat) as [|Hn]; [done|]. rewrite decide_False by (rewrite length_app; lia).
    destruct (mt_at_ext (drop s b) y ltac:(lia)) as (-> & -> & ->). cbv zeta in *.
    destruct (decide (_ > _)); [|by destruct (decide (_ < _))]. injection H as <-. split; [done|]. rewrite length_drop. lia.
  - intros b f r y H. destruct (position is_start (windows2 b)) as [s|] eqn:Es; [|rewrite mt_turn_at, Es in H; done].
    destruct (mt_found s b y Es) as (E1 & E2 & Hs). rewrite E1. rewrite E2 in H. unfold mt_at in H |- *. assert (length (drop s b) = length b - s)%nat as Hld by apply length_drop.
    destruct (decide (length (drop s b) < 4)%nat) as [|Hn]; [done|]. rewrite decide_False by (rewrite length_app; lia).
    destruct (mt_at_ext (drop s b) y ltac:(lia)) as (-> & -> & _). cbv zeta in *.
    set (len := be_val _) in *. pose proof (be_val_range (take 2 (drop 2 (drop s b)))) as [Hge _]. fold len in Hge.
    destruct (decide (len > _)); [done|]. destruct (decide (zlen (drop s b) < _)) as [|Hz]; [done|]. injection H as <- <-.
    pose proof (zlen_nonneg y). rewrite decide_False by lia. unfold zlen in Hz.
    split; [|rewrite length_drop; lia]. f_equal.
    + rewrite drop_app_le by lia. rewrite take_app_le by (rewrite length_drop; lia). done.
    + by rewrite drop_app_le by lia.
  - intros b r y H. destruct (position is_start (windows2 b)) as [s|] eqn:Es.
    + destruct (mt_found s b y Es) as (E1 & E2 & Hs). rewrite E2 in H.
      assert (r = drop s b) as ->. { unfold mt_at in H. repeat (case_decide || cbv zeta in H); congruence. }
      rewrite E1. destruct (position_drop _ _ _ Es) as [H0 _]. rewrite <- windows2_drop in H0.
      destruct (mt_found 0 (drop s b) y H0) as (-> & _ & _). done.
    + destruct (decide (b = [])) as [->|Hb]; [by injection H as <-|]. rewrite mt_turn_at, Es in H. injection H as <-.
      rewrite (mt_turn_at (b ++ y)), windows2_app, position_app, Es by done. rewrite (mt_turn_at (drop (length b - 1) b ++ y)).
      assert (drop (length b - 1) b ++ y = drop (length b - 1) (b ++ y)) as Ed by (rewrite drop_app_le by lia; done).
      destruct (position is_start (windows2 (drop (length b - 1) b ++ y))) as [s|]; cbn.
      * rewrite Ed, length_windows2, drop_drop. done.
      * f_equal. rewrite Ed, length_drop, drop_drop. f_equal. rewrite length_app. destruct b; [done|]. cbn [length]. lia.
Qed.

Lemma mt_buffer b r : mt_turn b = Wait r -> (length r < 516)%nat.
Proof.
  rewrite mt_turn_at. destruct (position _ _) as [s|]; [|intros [= <-]; rewrite length_drop; lia]. unfold mt_at.
  case_decide; [intros [= <-]; lia|]. cbv zeta. pose proof (be_val_range (take 2 (drop 2 (drop s b)))) as [Hge _]. unfold MAX_STREAM_PAYLOAD.
  case_decide; [done|]. case_decide as Hz; [|done]. intros [= <-]. unfold zlen in Hz. lia.
Qed.

Definition mc_at (buf : bytes) : Turned :=
  if decide (length buf < 3)%nat then Wait buf
  else
    let len := le_val (take 2 (drop 1 buf)) in
    if decide (zlen buf < 3 + len) then Wait buf
    else Emit (take (Z.to_nat len) (drop 3 buf)) (drop (3 + Z.to_nat len) buf).
Lemma mc_turn_at b : mc_turn b = match position is_from_radio b with None => Wait [] | Some s => mc_at (drop s b) end.
Proof. done. Qed.
Lemma mc_found s b y : position is_from_radio b = Some s -> mc_turn (b ++ y) = mc_at (drop s b ++ y) /\ mc_turn b = mc_at (drop s b) /\ (s < length b)%nat.
Proof.
  intros H. destruct (position_drop _ _ _ H) as [_ Hl]. split; [|split; [by rewrite mc_turn_at, H|done]].
  rewrite mc_turn_at, position_app, H. by rewrite drop_app_le by lia.
Qed.

#[export] Instance mc_incremental : Incremental mc_turn.
Proof.
  split.
  - intros b r y H. rewrite mc_turn_at in H. destruct (position _ _); [|done]. unfold mc_at in H. by repeat (case_decide || cbv zeta in H).
  - intros b f r y H. destruct (position is_from_radio b) as [s|] eqn:Es; [|rewrite mc_turn_at, Es in H; done].
    destruct (mc_found s b y Es) as (E1 & E2 & Hs). rewrite E1. rewrite E2 in H. unfold mc_at in H |- *. assert (length (drop s b) = length b - s)%nat as Hld by apply length_drop.
    destruct (decide (length (drop s b) < 3)%nat) as [|Hn]; [done|]. rewrite decide_False by (rewrite length_app; lia).
    assert (take 2 (drop 1 (drop s b ++ y)) = take 2 (drop 1 (drop s b))) as ->
      by (rewrite drop_app_le by lia; by rewrite take_app_le by (rewrite length_drop; lia)).
    rewrite zlen_app. cbv zeta in *. set (len := le_val _) in *.
    pose proof (be_val_range (reverse (take 2 (drop 1 (drop s b))))) as [Hge _]. fold (le_val (take 2 (drop 1 (drop s b)))) in Hge. fold len in Hge.
    destruct (decide (zlen (drop s b) < _)) as [|Hz]; [done|]. injection H as <- <-. pose proof (zlen_nonneg y). rewrite decide_False by lia. unfold zlen in Hz.
    split; [|rewrite length_drop; lia]. f_equal.
    + rewrite drop_app_le by lia. rewrite take_app_le by (rewrite length_drop; lia). done.
    + by rewrite drop_app_le by lia.
  - intros b r y H. destruct (position is_from_radio b) as [s|] eqn:Es.
    + destruct (mc_found s b y Es) as (E1 & E2 & Hs). rewrite E2 in H.
      assert (r = drop s b) as ->. { unfold mc_at in H. repeat (case_decide || cbv zeta in H); congruence. }
      rewrite E1. destruct (position_drop _ _ _ Es) as [H0 _]. destruct (mc_found 0 (drop s b) y H0) as (-> & _ & _). done.
    + rewrite mc_turn_at, Es in H. injection H as <-. cbn [app]. rewrite (mc_turn_at (b ++ y)), position_app, Es, (mc_turn_at y).
      destruct (position is_from_radio y) as [s|]; [|done]. cbn. f_equal. by rewrite drop_app_add.
Qed.

(** ** What comes out of a port *)

(** Noise: the log lines a node prints between frames, without the byte frames begin with. *)
Definition quiet (start : Z) (noise : bytes) : Prop := Forall (fun b => bval b <> start) noise.

Lemma mt_start noise rest : quiet START1 noise ->
  position is_start (windows2 (noise ++ byte_of START1 :: byte_of START2 :: rest)) = Some (length noise).
Proof.
  intros Hq. unfold windows2. induction Hq as [|b noise Hb Hq IH]; [done|].
  assert (forall x, is_start (b, x) = false) as Hs by (intros x; apply bool_decide_eq_false_2; by intros [? _]).
  assert (exists x l, noise ++ byte_of START1 :: byte_of START2 :: rest = x :: l) as (x & l & El) by (destruct noise; by eexists _, _).
  cbn [app tail length]. rewrite El in *. cbn [tail] in IH. change (zip (b :: x :: l) (x :: l)) with ((b, x) :: zip (x :: l) l).
  cbn [position]. by rewrite Hs, IH.
Qed.

Lemma mt_emits noise pb y : quiet START1 noise -> zlen pb <= MAX_STREAM_PAYLOAD -> mt_turn (noise ++ mt_frame pb ++ y) = Emit pb y.
Proof.
  intros Hq Hp. unfold mt_frame. rewrite <- !app_assoc. cbn [app]. rewrite mt_turn_at, mt_start by done. rewrite drop_app_length.
  pose proof (zlen_nonneg pb) as H0. unfold MAX_STREAM_PAYLOAD in Hp. rewrite (Z.mod_small (zlen pb)) by lia.
  set (buf := byte_of START1 :: byte_of START2 :: be_bytes 2 (zlen pb) ++ pb ++ y).
  assert (length (be_bytes 2 (zlen pb)) = 2%nat) as Hl2 by apply length_be_bytes.
  assert (take 2 (drop 2 buf) = be_bytes 2 (zlen pb)) as E1 by (exact (take_app_length' _ _ 2 (eq_sym Hl2))).
  assert (drop 4 buf = pb ++ y) as E2 by (exact (drop_app_length' _ _ 2 (eq_sym Hl2))).
  assert (length buf = 4 + length pb + length y)%nat as E3 by (unfold buf; cbn [length]; rewrite !length_app; lia).
  unfold mt_at. rewrite E1, E2, decide_False by lia. rewrite be_val_bytes, Z.mod_small by (change (256 ^ Z.of_nat 2) with 65536; lia).
  unfold MAX_STREAM_PAYLOAD. rewrite decide_False by lia. rewrite decide_False by (unfold zlen; rewrite E3; lia).
  unfold zlen. rewrite Nat2Z.id, take_app_length. f_equal. rewrite <- drop_drop, E2. apply drop_app_length.
Qed.

(** A frame as a Meshcore node sends it. *)
Definition mc_up (payload : bytes) : bytes := [byte_of TYPE_FROM_RADIO] ++ le_bytes 2 (zlen payload) ++ payload.

Lemma mc_emits noise p y : quiet TYPE_FROM_RADIO noise -> zlen p < 65536 -> mc_turn (noise ++ mc_up p ++ y) = Emit p y.
Proof.
  intros Hq Hp. unfold mc_up. rewrite <- !app_assoc. cbn [app]. rewrite mc_turn_at, position_skip; [|clear -Hq|done].
  2:{ apply List.forallb_forall. intros x Hx. apply negb_true_iff, bool_decide_eq_false_2. rewrite <- list_elem_of_In in Hx. by apply (proj1 (Forall_forall _ _) Hq). }
  rewrite drop_app_length. pose proof (zlen_nonneg p) as H0. set (buf := byte_of TYPE_FROM_RADIO :: le_bytes 2 (zlen p) ++ p ++ y).
  assert (length (le_bytes 2 (zlen p)) = 2%nat) as Hl2 by apply length_le_bytes.
  assert (take 2 (drop 1 buf) = le_bytes 2 (zlen p)) as E1 by (exact (take_app_length' _ _ 2 (eq_sym Hl2))).
  assert (drop 3 buf = p ++ y) as E2 by (exact (drop_app_length' _ _ 2 (eq_sym Hl2))).
  assert (length buf = 3 + length p + length y)%nat as E3 by (unfold buf; cbn [length]; rewrite !length_app; lia).
  unfold mc_at. rewrite E1, E2, decide_False by lia. rewrite le_roundtrip by (change (256 ^ Z.of_nat 2) with 65536; lia).
  rewrite decide_False by (unfold zlen; rewrite E3; lia). unfold zlen. rewrite Nat2Z.id, take_app_length. f_equal. rewrite <- drop_drop, E2. apply drop_app_length.
Qed.

Lemma mt_quiet noise : quiet START1 noise -> (deframe mt_turn noise).1 = [].
Proof.
  intros Hq. rewrite (deframe_turn mt_turn), mt_turn_at. destruct (position is_start (windows2 noise)) as [s|] eqn:E; [exfalso|done].
  revert s E. unfold windows2. induction Hq as [|b noise Hb Hq IH]; intros s; [done|]. destruct noise as [|c noise]; [done|]. cbn [tail] in *.
  change (zip (b :: c :: noise) (c :: noise)) with ((b, c) :: zip (c :: noise) noise). cbn [position].
  assert (is_start (b, c) = false) as -> by (apply bool_decide_eq_false_2; by intros [? _]).
  destruct (position is_start (zip (c :: noise) noise)) as [s'|] eqn:E'; [|done]. intros _. by apply (IH s').
Qed.

(** The buffer kept after some reads. *)
Definition port_buffer (turn : bytes -> Turned) (chunks : list bytes) : bytes :=
  foldl (fun buf b => (deframer_push turn buf b).2) [] chunks.

Lemma port_buffer_bound chunks : (length (port_buffer mt_turn chunks) < 516)%nat.
Proof.
  unfold port_buffer. destruct chunks as [|b chunks _] using rev_ind; [cbn; lia|]. rewrite foldl_snoc. unfold deframer_push.
  destruct (deframe_from mt_turn _ _) as [fs r] eqn:E. rewrite deframe_fuel in E by (apply _ || lia). apply deframe_rest in E; [|apply _].
  by apply mt_buffer in E.
Qed.

(** C34: a serial port delivers whatever way it splits its bytes.  A Meshtastic node sends
    packets up the port, each perhaps after log lines, with fields this code does not
    read; however the bytes are cut into reads, even inside a length prefix or a
    varint, exactly these packets come out, in order.  Whatever arrives, less than 516 bytes
    are kept for the next read. *)
Theorem port_delivers (l : list (bytes * Heard)) (tail : bytes) (chunks : list bytes) :
  Forall (fun x => quiet START1 x.1 /\ heard_ok x.2) l -> quiet START1 tail ->
  mjoin chunks = mjoin ((fun x => x.1 ++ mt_frame (fromradio x.2)) <$> l) ++ tail ->
  serial_read mt_turn parse_fromradio [] chunks = (fun x => received x.2) <$> l /\
  forall reads, (length (port_buffer mt_turn reads) < 516)%nat.
Proof.
  intros Hl Ht Hc. split.
  - rewrite serial_read_chunks by (done || apply _). cbn [app]. rewrite Hc.
    pose proof (deframe_frames mt_turn mt_frame (fun pb => zlen pb <= MAX_STREAM_PAYLOAD) (quiet START1)
      ((fun x => (x.1, fromradio x.2)) <$> l) tail ltac:(intros; by apply mt_emits)) as Hd.
    rewrite <- !list_fmap_compose in Hd. unfold compose in Hd. cbn [fst snd] in Hd. rewrite Hd; [rewrite mt_quiet, app_nil_r by done|].
    2:{ apply Forall_fmap. eapply Forall_impl; [exact Hl|]. intros x [Hq Hh]. split; [done|]. exact (ho_len _ Hh). }
    clear -Hl.  induction Hl as [|[noise h] l [_ Hh] Hl IH]; [done|]. cbn [fmap list_fmap omap list_omap fst snd] in *. by rewrite fromradio_read, IH.
  - apply port_buffer_bound.
Qed.

(** The same for a Meshcore port: text messages of either form, base64 inside. *)
Record McHeard : Type := mkMcHeard { mh_v3 : option bytes; mh_channel : Z; mh_meta : bytes; mh_frag : bytes }.

Section McPort.
Context (b64_encode : bytes -> bytes) (b64_decode : bytes -> option bytes) (B64 : forall b, b64_decode (b64_encode b) = Some b).

Definition mc_payload (h : McHeard) : bytes :=
  match mh_v3 h with
  | None => [byte_of PACKET_CHANNEL_MSG_RECV; byte_of (mh_channel h)] ++ mh_meta h ++ b64_encode (mh_frag h)
  | Some snr => byte_of PACKET_CHANNEL_MSG_RECV_V3 :: snr ++ [byte_of (mh_channel h)] ++ mh_meta h ++ b64_encode (mh_frag h)
  end.
Definition mc_heard_ok (h : McHeard) : Prop :=
  0 <= mh_channel h < 256 /\ length (mh_meta h) = 6%nat /\ (forall snr, mh_v3 h = Some snr -> length snr = 3%nat) /\ zlen (mc_payload h) < 65536.

Lemma mc_payload_read h : mc_heard_ok h -> mc_parse b64_decode (mc_payload h) = Some (mkMeshPacket (mh_channel h) None (mh_frag h)).
Proof.
  intros (Hc & Hm & Hs & _). unfold mc_parse, parse_channel_recv_b64, mc_payload. destruct (mh_v3 h) as [snr|]; [specialize (Hs _ eq_refl)|];
    unfold parse_channel_recv; cbn [app]; [rewrite decide_False, decide_True by by vm_compute|rewrite decide_True by by vm_compute];
    rewrite decide_False by (cbn [length]; rewrite ?length_app; cbn [length]; rewrite ?length_app; lia).
  - assert ((byte_of PACKET_CHANNEL_MSG_RECV_V3 :: snr ++ byte_of (mh_channel h) :: mh_meta h ++ b64_encode (mh_frag h)) !! 4%nat = Some (byte_of (mh_channel h))) as ->.
    { change ((snr ++ byte_of (mh_channel h) :: mh_meta h ++ b64_encode (mh_frag h)) !! 3%nat = Some (byte_of (mh_channel h))).
      rewrite lookup_app_r by lia. by rewrite Hs. }
    replace (drop 11 _) with (b64_encode (mh_frag h)).
    2:{ symmetry. change (drop 10 (snr ++ byte_of (mh_channel h) :: mh_meta h ++ b64_encode (mh_frag h)) = b64_encode (mh_frag h)).
        rewrite app_comm_cons, app_assoc. apply drop_app_length'. rewrite length_app. cbn [length]. lia. }
    cbn. by rewrite B64, bval_byte_of, Z.mod_small.
  - replace (drop 8 _) with (b64_encode (mh_frag h)) by (symmetry; exact (drop_app_length' (mh_meta h) _ 6 (eq_sym Hm))).
    cbn. by rewrite B64, bval_byte_of, Z.mod_small.
Qed.

Lemma mc_port_delivers (l : list (bytes * McHeard)) (chunks : list bytes) :
  Forall (fun x => quiet TYPE_FROM_RADIO x.1 /\ mc_heard_ok x.2) l -> mjoin chunks = mjoin ((fun x => x.1 ++ mc_up (mc_payload x.2)) <$> l) ->
  serial_read mc_turn (mc_parse b64_decode) [] chunks = (fun x => mkMeshPacket (mh_channel x.2) None (mh_frag x.2)) <$> l.
Proof.
  intros Hl Hc. rewrite serial_read_chunks by (done || apply _). cbn [app]. rewrite Hc, <- (app_nil_r (mjoin _)).
  pose proof (deframe_frames mc_turn mc_up (fun p => zlen p < 65536) (quiet TYPE_FROM_RADIO)
    ((fun x => (x.1, mc_payload x.2)) <$> l) [] ltac:(intros; by apply mc_emits)) as Hd.
  rewrite <- !list_fmap_compose in Hd. unfold compose in Hd. cbn [fst snd] in Hd. rewrite Hd.
  2:{ apply Forall_fmap. eapply Forall_impl; [exact Hl|]. intros x [Hq (_ & _ & _ & Hh)]. by split. }
  change (deframe mc_turn []).1 with (@nil bytes). rewrite app_nil_r. clear -Hl B64.
  induction Hl as [|[noise h] l [_ Hh] Hl IH]; [done|]. cbn [fmap list_fmap omap list_omap fst snd] in *. by rewrite mc_payload_read, IH.
Qed.
End McPort.

(** What one gateway publishes, the others ingest. *)
Lemma mqtt_roundtrip cfg channel payload :
  0 <= channel < 256 -> zlen (encode_meshpacket channel payload) <= usize_max ->
  mqtt_ingest (mqtt_send cfg channel payload).2 = Some (mkMeshPacket channel None payload).
Proof.
  intros Hc Hl. unfold mqtt_ingest, mqtt_send. cbn [snd]. unfold encode_service_envelope.
  rewrite (put_field_app _ (FBytes 3 _)), (put_field_app _ (FBytes 2 _)), (put_field_app [] (FBytes 1 _)). cbn [app]. rewrite <- app_assoc.
  rewrite envelope_packet by done. cbn [mbind option_bind]. rewrite encode_meshpacket_fields in *.
  assert (zlen (enc_fields (data_fields payload)) <= usize_max) as Hl2 by (etrans; [|exact Hl]; apply (zlen_field_in 4); set_solver).
  apply (parse_meshpacket_read None BROADCAST channel payload []); try done.
  etrans; [|exact Hl2]. apply (zlen_field_in 2). set_solver.
Qed.

(** ** Ingest and beacons (mod.rs, beacon.rs) *)

Inductive NativeSend : Type := NOff | NAskEachTime | NAllowed.
Record MeshPolicy : Type := mkMeshPolicy { pol_channel : Z; pol_read_foreign : bool; pol_native_send : NativeSend }.
Definition mesh_policy_default : MeshPolicy := mkMeshPolicy 0 false NOff.
Definition native_send_allowed (p : MeshPolicy) : bool := match pol_native_send p with NAllowed => true | _ => false end.

Inductive MeshHeard : Type :=
| HTalkrypt (blob : bytes) (source : option string)
| HForeign (channel : Z) (payload : bytes) (source : option string).

(** [format!("{id:08x}")] *)
Definition hex_char (d : Z) : Ascii.ascii := Ascii.ascii_of_N (Z.to_N (if decide (d < 10) then 48 + d else 87 + d)).
Fixpoint hex_pad (n : nat) (v : Z) : string :=
  match n with O => EmptyString | S n' => String (hex_char (Z.land (Z.shiftr v (4 * Z.of_nat n')) 15)) (hex_pad n' v) end.
Definition source_key (p : MeshPacket) : string := match mp_from p with Some id => hex_pad 8 id | None => "unknown" end.

Record MeshIngest : Type := mkMeshIngest { mi_reasm : Reassembler; mi_read_foreign : bool }.
Definition ingest_new (policy : MeshPolicy) : MeshIngest := mkMeshIngest reassembler_default (pol_read_foreign policy).

Definition ingest_accept (packet : MeshPacket) (m : MeshIngest) : option MeshHeard * MeshIngest :=
  let source := source_key packet in
  if parse_fragment (mp_payload packet) then
    let (blob, r) := accept source (mp_payload packet) (mi_reasm m) in
    ((fun blob => HTalkrypt blob (Some source)) <$> blob, mkMeshIngest r (mi_read_foreign m))
  else if mi_read_foreign m then (Some (HForeign (mp_channel packet) (mp_payload packet) (Some source)), m)
  else (None, m).

(** [MeshBeacon]: its rolling message id ([AtomicU16]) and the last blob. *)
Record MeshBeacon : Type := mkMeshBeacon { mb_channel : Z; mb_msg_id : Z; mb_last : option bytes }.
Definition beacon_new (policy : MeshPolicy) : MeshBeacon := mkMeshBeacon (pol_channel policy) 0 None.
(** What is sent, on the beacon's channel. *)
Definition beacon_advertise (mtu : Z) (blob : bytes) (b : MeshBeacon) : list bytes * MeshBeacon :=
  (default [] (fragment KIND_ADVERT (mb_msg_id b) blob mtu), mkMeshBeacon (mb_channel b) ((mb_msg_id b + 1) mod 2 ^ 16) (Some blob)).
Definition beacon_stop (b : MeshBeacon) : MeshBeacon := mkMeshBeacon (mb_channel b) (mb_msg_id b) None.
(** One packet of the scan's task: a beacon seen, and by whom. *)
Definition beacon_scan (want_channel : Z) (pkt : MeshPacket) (r : Reassembler) : option (bytes * option string) * Reassembler :=
  if decide (mp_channel pkt <> want_channel) then (None, r)
  else
    let source := hex_pad 8 <$> mp_from pkt in
    let (blob, r) := accept (default "unknown"%string source) (mp_payload pkt) r in
    ((fun blob => (blob, source)) <$> blob, r).

(** Foreign traffic surfaces only on request and never feeds the reassembler; what is
    surfaced as talkrypt's came out of the reassembler. *)
Lemma ingest_labels p m h m' : ingest_accept p m = (Some h, m') ->
  match h with
  | HTalkrypt blob source => source = Some (source_key p) /\ accept (source_key p) (mp_payload p) (mi_reasm m) = (Some blob, mi_reasm m')
  | HForeign channel payload _ => mi_read_foreign m = true /\ parse_fragment payload = None /\ m' = m /\ payload = mp_payload p /\ channel = mp_channel p
  end.
Proof.
  unfold ingest_accept. destruct (parse_fragment (mp_payload p)) eqn:E.
  - destruct (accept _ _ _) as [[blob|] r]; [|done]. by intros [= <- <-].
  - destruct (mi_read_foreign m) eqn:Ef; [|done]. by intros [= <- <-].
Qed.

(** ** Examples *)

Definition pw_heard (n : Z) (s : string) : Heard :=
  mkHeard n 305419896 BROADCAST 3 (bstr s) [Fixed32 7 n; Varint 9 3] [Varint 10 n].
Definition pw_list : list (bytes * Heard) := [(bstr "boot", pw_heard 1 "hello"); ([], pw_heard 300 "mesh")].
Definition pw_stream : bytes := mjoin ((fun x => x.1 ++ mt_frame (fromradio x.2)) <$> pw_list) ++ bstr "log".

Lemma pw_heard_ok n s : (zlen (fromradio (pw_heard n s)) <=? 512) = true -> 0 <= n < 2 ^ 32 -> heard_ok (pw_heard n s).
Proof.
  intros Hl Hn. split; try (cbn; unfold is_u32, BROADCAST; lia).
  - repeat (apply Forall_cons; split); try done; (split; [split; [split; cbn; lia|cbn; unfold is_u32, is_u64; lia]|cbn; lia]).
  - repeat (apply Forall_cons; split); try done; (split; [split; [split; cbn; lia|cbn; unfold is_u32, is_u64; lia]|cbn; lia]).
  - by apply Z.leb_le.
Qed.

Lemma port_delivers_witness :
  serial_read mt_turn parse_fromradio [] [take 6 pw_stream; take 30 (drop 6 pw_stream); drop 36 pw_stream] =
    [mkMeshPacket 3 (Some 305419896) (bstr "hello"); mkMeshPacket 3 (Some 305419896) (bstr "mesh")].
Proof.
  apply (port_delivers pw_list (bstr "log") [take 6 pw_stream; take 30 (drop 6 pw_stream); drop 36 pw_stream]).
  - unfold pw_list. apply Forall_cons; split; [split; [|apply pw_heard_ok; [by vm_compute|lia]]|apply Forall_cons; split; [split; [|apply pw_heard_ok; [by vm_compute|lia]]|done]].
    + repeat (apply Forall_cons; split); try done; by vm_compute.
    + apply Forall_nil_2.
  - repeat (apply Forall_cons; split); try done; by vm_compute.
  - by vm_compute.
Defined.
