(* ===== verification/MeshLink.v ===== *)
(** * A reliable transport over the mesh (crates/transport/src/mesh/transport.rs)

    Pseudo-connections over a broadcast radio: the packet codec, the shared demux that
    acknowledges and routes, connection set-up, and stop-and-wait sending with
    reassembly.  The writer's [send_one] is a machine whose transitions are its await
    points (an acknowledgement, a timeout); the radio loses what it likes and keeps the
    order.  Proved: whatever is lost, frames arrive whole and in order, and a frame
    whose sending succeeded has arrived; also that a frame of one segment may arrive
    more than once. *)

From Stdlib Require Import Sorted.
From S2P Require Import Prelude Wire Marking Frag Radio.

(** ** Packets *)

Definition ML_MAGIC0 : Z := 167.
Definition ML_MAGIC1 : Z := 116.
Definition ML_VERSION : Z := 1.
Definition ML_HEADER_LEN : nat := 18.
Definition T_SYN : Z := 0.
Definition T_SYN_ACK : Z := 1.
Definition T_DATA : Z := 2.
Definition T_DATA_ACK : Z := 3.
Definition MAX_SEGMENTS : Z := 4096.

(** [Packet] and [InPkt] *)
Record Packet : Type := mkPacket {
  pk_typ : Z; pk_conn_id : Z; pk_msg_seq : Z; pk_frag_idx : Z; pk_frag_cnt : Z; pk_payload : bytes }.

Definition parse_packet (b : bytes) : option Packet :=
  if decide (length b < ML_HEADER_LEN)%nat then None
  else match b with
  | m0 :: m1 :: v :: typ :: rest =>
      if decide (bval m0 <> ML_MAGIC0 \/ bval m1 <> ML_MAGIC1 \/ bval v <> ML_VERSION) then None
      else
        let conn_id := be_val (take 8 rest) in
        let msg_seq := be_val (take 2 (drop 8 rest)) in
        let frag_idx := be_val (take 2 (drop 10 rest)) in
        let frag_cnt := be_val (take 2 (drop 12 rest)) in
        Some (mkPacket (bval typ) conn_id msg_seq frag_idx frag_cnt (drop 14 rest))
  | _ => None
  end.

Definition put_header (typ conn_id msg_seq frag_idx frag_cnt : Z) : bytes :=
  [byte_of ML_MAGIC0; byte_of ML_MAGIC1; byte_of ML_VERSION; byte_of typ] ++ be_bytes 8 conn_id ++ be_bytes 2 msg_seq ++
  be_bytes 2 frag_idx ++ be_bytes 2 frag_cnt.

(** An endpoint label in a [SYN]: at most 255 bytes of it. *)
Definition put_ep (ep : bytes) : bytes := byte_of (Z.min (zlen ep) 255) :: take 255 ep.
Definition encode_syn (conn_id : Z) (src_ep dst_ep : bytes) : bytes := put_header T_SYN conn_id 0 0 0 ++ put_ep src_ep ++ put_ep dst_ep.
Definition encode_ctrl (typ conn_id msg_seq frag_idx : Z) : bytes := put_header typ conn_id msg_seq frag_idx 0.
Definition encode_data (conn_id msg_seq frag_idx frag_cnt : Z) (seg : bytes) : bytes :=
  put_header T_DATA conn_id msg_seq frag_idx frag_cnt ++ seg.

(** [String::from_utf8_lossy]: each maximal invalid part becomes U+FFFD. *)
Definition REPLACEMENT : bytes := [byte_of 239; byte_of 191; byte_of 189].
Definition second_ok (a b : byte) : bool :=
  if bool_decide (bval a = 224) then in_range 160 191 b
  else if bool_decide (bval a = 237) then in_range 128 159 b
  else if bool_decide (bval a = 240) then in_range 144 191 b
  else if bool_decide (bval a = 244) then in_range 128 143 b
  else cont b.
Definition lossy_char (a : byte) (l : bytes) : bytes * bytes :=
  if in_range 0 127 a then ([a], l)
  else if in_range 194 223 a then
    match l with b :: l' => if cont b then ([a; b], l') else (REPLACEMENT, l) | [] => (REPLACEMENT, []) end
  else if in_range 224 239 a then
    match l with
    | b :: l' => if second_ok a b then match l' with c :: l'' => if cont c then ([a; b; c], l'') else (REPLACEMENT, l') | [] => (REPLACEMENT, []) end
                 else (REPLACEMENT, l)
    | [] => (REPLACEMENT, [])
    end
  else if in_range 240 244 a then
    match l with
    | b :: l' =>
        if second_ok a b then
          match l' with
          | c :: l'' => if cont c then match l'' with d :: l3 => if cont d then ([a; b; c; d], l3) else (REPLACEMENT, l'') | [] => (REPLACEMENT, []) end
                        else (REPLACEMENT, l')
          | [] => (REPLACEMENT, [])
          end
        else (REPLACEMENT, l)
    | [] => (REPLACEMENT, [])
    end
  else (REPLACEMENT, l).
Fixpoint lossy_from (fuel : nat) (l : bytes) : bytes :=
  match fuel, l with
  | S fuel', a :: l' => let (c, rest) := lossy_char a l' in c ++ lossy_from fuel' rest
  | _, _ => []
  end.
Definition utf8_lossy (l : bytes) : bytes := lossy_from (length l) l.

Definition get_ep (p : bytes) : option (bytes * bytes) :=
  match p with
  | [] => None
  | n :: rest => let n := Z.to_nat (bval n) in if decide (n <= length rest)%nat then Some (take n rest, drop n rest) else None
  end.
Definition parse_syn_eps (p : bytes) : option (bytes * bytes) :=
  '(src, rest) ← get_ep p;
  '(dst, _) ← get_ep rest;
  Some (utf8_lossy src, utf8_lossy dst).

Definition fnv1a (s : bytes) : Z :=
  foldl (fun h b => u64_wrap (Z.lxor h (bval b) * 1099511628211)) 14695981039346656037 s.

(** ** The writer (send_one) *)

(** The segment that awaits its acknowledgement, those after it, and how many more
    times it may be sent. *)
Record Sending : Type := mkSending {
  sd_seq : Z; sd_cnt : Z; sd_idx : nat; sd_seg : bytes; sd_rest : list bytes; sd_tries : nat }.
Record MeshWriter : Type := mkMeshWriter { mw_conn_id : Z; mw_next_msg_seq : Z; mw_sending : option Sending }.

Section Writer.
(** The node's MTU, and [with_timeout]'s retries, at least one. *)
Context (mtu : Z) (retries : nat).

Definition segments (frame : bytes) : list bytes :=
  let chunk := Z.to_nat (Z.max (saturating_sub mtu (Z.of_nat ML_HEADER_LEN)) 1) in
  if decide (frame = []) then [[]] else chunks chunk frame.

Definition sending_packet (w : MeshWriter) (s : Sending) : bytes :=
  encode_data (mw_conn_id w) (sd_seq s) (Z.of_nat (sd_idx s) mod 2 ^ 16) (sd_cnt s) (sd_seg s).

(** Send a segment and await: the packet that goes out. *)
Definition transmit (s : Sending) (w : MeshWriter) : list bytes * MeshWriter :=
  ([sending_packet w s], mkMeshWriter (mw_conn_id w) (mw_next_msg_seq w) (Some s)).

Definition writer_start (frame : bytes) (w : MeshWriter) : list bytes * MeshWriter :=
  let msg_seq := mw_next_msg_seq w in
  let w := mkMeshWriter (mw_conn_id w) ((mw_next_msg_seq w + 1) mod 2 ^ 16) None in
  match segments frame with
  | [] => ([], w)
  | seg :: rest => transmit (mkSending msg_seq (zlen (seg :: rest) mod 2 ^ 16) 0 seg rest (retries - 1)) w
  end.

(** A packet on [ack_rx] while awaiting: what goes out, and whether [send_one] returns
    [Ok]. *)
Definition writer_ack (p : Packet) (w : MeshWriter) : list bytes * bool * MeshWriter :=
  match mw_sending w with
  | None => ([], false, w)
  | Some s =>
      if decide (pk_typ p = T_DATA_ACK /\ pk_msg_seq p = sd_seq s /\ pk_frag_idx p = Z.of_nat (sd_idx s) mod 2 ^ 16) then
        match sd_rest s with
        | [] => ([], true, mkMeshWriter (mw_conn_id w) (mw_next_msg_seq w) None)
        | seg :: rest =>
            let (out, w) := transmit (mkSending (sd_seq s) (sd_cnt s) (S (sd_idx s)) seg rest (retries - 1)) w in
            (out, false, w)
        end
      else ([], false, w)
  end.

(** The timeout: what goes out, and whether [send_one] fails with [Closed]. *)
Definition writer_timeout (w : MeshWriter) : list bytes * bool * MeshWriter :=
  match mw_sending w with
  | None => ([], false, w)
  | Some s =>
      match sd_tries s with
      | O => ([], true, mkMeshWriter (mw_conn_id w) (mw_next_msg_seq w) None)
      | S n =>
          let (out, w) := transmit (mkSending (sd_seq s) (sd_cnt s) (sd_idx s) (sd_seg s) (sd_rest s) n) w in
          (out, false, w)
      end
  end.
End Writer.

(** ** The reader (recv_one) *)

(** Per message: its segments so far and how many they are. *)
Abbreviation Reasm := (gmap Z (list (option bytes) * nat)).

Definition reader_packet (p : Packet) (m : Reasm) : option bytes * Reasm :=
  if decide (pk_typ p <> T_DATA \/ pk_frag_cnt p = 0 \/ pk_frag_cnt p > MAX_SEGMENTS) then (None, m)
  else
    let cnt := Z.to_nat (pk_frag_cnt p) in
    let idx := Z.to_nat (pk_frag_idx p) in
    if decide (cnt <= idx)%nat then (None, m)
    else
      let entry := default (replicate cnt None, 0%nat) (m !! pk_msg_seq p) in
      let m := <[pk_msg_seq p := entry]> m in
      if decide (length entry.1 <> cnt) then (None, m)
      else
        let entry :=
          match entry.1 !! idx with
          | Some None => (<[idx := Some (pk_payload p)]> entry.1, S entry.2)
          | _ => entry
          end in
        let m := <[pk_msg_seq p := entry]> m in
        if decide (entry.2 = cnt) then (Some (mjoin (default [] <$> entry.1)), delete (pk_msg_seq p) m) else (None, m).

(** [recv_one] on what is queued; [None]: it still waits. *)
Fixpoint recv_one (queue : list Packet) (m : Reasm) : option bytes * list Packet * Reasm :=
  match queue with
  | [] => (None, [], m)
  | p :: queue' =>
      match reader_packet p m with
      | (Some frame, m) => (Some frame, queue', m)
      | (None, m) => recv_one queue' m
      end
  end.

(** ** The demux and connections (TxInner) *)

(** The queues of a connection: control packets for its writer, data for its reader. *)
Record ConnQueues : Type := mkConnQueues { cq_acks : list Packet; cq_data : list Packet }.
Record MeshTx : Type := mkMeshTx {
  tx_channel : Z; tx_local_ep : bytes; tx_conns : gmap Z ConnQueues; tx_incoming : option (list Z); tx_conn_ctr : Z }.

Definition set_conns (c : gmap Z ConnQueues) (t : MeshTx) : MeshTx :=
  mkMeshTx (tx_channel t) (tx_local_ep t) c (tx_incoming t) (tx_conn_ctr t).
Definition register_conn (conn_id : Z) (t : MeshTx) : MeshTx := set_conns (<[conn_id := mkConnQueues [] []]> (tx_conns t)) t.

(** What is sent in reply, and the state after. *)
Definition handle_syn (p : Packet) (t : MeshTx) : list bytes * MeshTx :=
  match parse_syn_eps (pk_payload p) with
  | None => ([], t)
  | Some (_, dst) =>
      if decide (dst <> tx_local_ep t) then ([], t)
      else
        let reply := [encode_ctrl T_SYN_ACK (pk_conn_id p) 0 0] in
        if decide (is_Some (tx_conns t !! pk_conn_id p)) then (reply, t)
        else
          let t := register_conn (pk_conn_id p) t in
          (reply, mkMeshTx (tx_channel t) (tx_local_ep t) (tx_conns t) ((fun l => l ++ [pk_conn_id p]) <$> tx_incoming t) (tx_conn_ctr t))
  end.

(** One packet from the inbox. *)
Definition demux (pkt : MeshPacket) (t : MeshTx) : list bytes * MeshTx :=
  if decide (mp_channel pkt <> tx_channel t) then ([], t)
  else match parse_packet (mp_payload pkt) with
  | None => ([], t)
  | Some p =>
      if decide (pk_typ p = T_SYN) then handle_syn p t
      else match tx_conns t !! pk_conn_id p with
      | None => ([], t)
      | Some q =>
          if decide (pk_typ p = T_DATA) then
            ([encode_ctrl T_DATA_ACK (pk_conn_id p) (pk_msg_seq p) (pk_frag_idx p)],
             set_conns (<[pk_conn_id p := mkConnQueues (cq_acks q) (cq_data q ++ [p])]> (tx_conns t)) t)
          else ([], set_conns (<[pk_conn_id p := mkConnQueues (cq_acks q ++ [p]) (cq_data q)]> (tx_conns t)) t)
      end
  end.

Definition tx_listen (t : MeshTx) : MeshTx := mkMeshTx (tx_channel t) (tx_local_ep t) (tx_conns t) (Some []) (tx_conn_ctr t).

(** [dial] up to its first send: the connection's id, and the [SYN]. *)
Definition dial_conn_id (local_ep : bytes) (ctr : Z) : Z :=
  Z.lxor (fnv1a local_ep) (u64_wrap (u64_wrap (ctr * 11400714819323198485) + 1)).
Definition dial_start (endpoint : bytes) (t : MeshTx) : Z * bytes * MeshTx :=
  let conn_id := dial_conn_id (tx_local_ep t) (tx_conn_ctr t) in
  let t := register_conn conn_id (mkMeshTx (tx_channel t) (tx_local_ep t) (tx_conns t) (tx_incoming t) (u64_wrap (tx_conn_ctr t + 1))) in
  (conn_id, encode_syn conn_id (tx_local_ep t) endpoint, t).

(** What the dialer awaits in each of its tries: a packet, a timeout or a closed channel. *)
Inductive DialEvent : Type := DGot (p : Packet) | DTimeout | DClosed.
(** The [SYN]s sent, and whether a [SYN_ACK] came. *)
Fixpoint dial_loop (retries : nat) (events : list DialEvent) : nat * bool :=
  match retries, events with
  | S n, DGot p :: es => if decide (pk_typ p = T_SYN_ACK) then (1%nat, true) else let (k, ok) := dial_loop n es in (S k, ok)
  | S n, DTimeout :: es => let (k, ok) := dial_loop n es in (S k, ok)
  | S n, DClosed :: es => (1%nat, false)
  | S n, [] => (1%nat, false)
  | O, _ => (0%nat, false)
  end.
(** Afterwards: a failed dial forgets the connection. *)
Definition dial_end (conn_id : Z) (ok : bool) (t : MeshTx) : MeshTx := if ok then t else set_conns (delete conn_id (tx_conns t)) t.

(** ** Packets round-trip *)

Definition packet_ok (p : Packet) : Prop :=
  0 <= pk_typ p < 256 /\ is_u64 (pk_conn_id p) /\ 0 <= pk_msg_seq p < 65536 /\ 0 <= pk_frag_idx p < 65536 /\ 0 <= pk_frag_cnt p < 65536.
Definition enc_packet (p : Packet) : bytes :=
  put_header (pk_typ p) (pk_conn_id p) (pk_msg_seq p) (pk_frag_idx p) (pk_frag_cnt p) ++ pk_payload p.

Lemma take_drop_be n k z (a b : bytes) : length a = n -> take k (drop n (a ++ be_bytes k z ++ b)) = be_bytes k z.
Proof. intros Ha. rewrite drop_app_length' by done. apply take_app_length'. by rewrite length_be_bytes. Qed.

Lemma packet_roundtrip p : packet_ok p -> parse_packet (enc_packet p) = Some p.
Proof.
  intros (Ht & Hc & Hs & Hi & Hn). destruct p as [typ c s i n pl]. cbn [pk_typ pk_conn_id pk_msg_seq pk_frag_idx pk_frag_cnt] in *.
  unfold enc_packet, parse_packet, put_header. cbn [pk_typ pk_conn_id pk_msg_seq pk_frag_idx pk_frag_cnt pk_payload].
  rewrite decide_False by (rewrite !length_app, !length_be_bytes; unfold ML_HEADER_LEN; cbn; lia). rewrite <- !app_assoc. cbn [app].
  rewrite decide_False by (rewrite !bval_byte_of; by vm_compute; intros [|[]]). rewrite (bval_byte_of typ), Z.mod_small by done.
  rewrite (take_drop_be 8 2 s (be_bytes 8 c)) by apply length_be_bytes.
  rewrite take_app_length' by (by rewrite length_be_bytes).
  rewrite (app_assoc (be_bytes 8 c)), (take_drop_be 10 2 i (be_bytes 8 c ++ be_bytes 2 s)) by (rewrite length_app, !length_be_bytes; done).
  rewrite (app_assoc (be_bytes 8 c ++ be_bytes 2 s)), (take_drop_be 12 2 n) by (rewrite !length_app, !length_be_bytes; done).
  rewrite (app_assoc _ (be_bytes 2 n)), drop_app_length' by (rewrite !length_app, !length_be_bytes; done).
  rewrite !be_val_bytes, !Z.mod_small by (unfold is_u64 in Hc; change (256 ^ Z.of_nat 2) with 65536; change (256 ^ Z.of_nat 8) with (2 ^ 64); lia). done.
Qed.

(** A label survives the [SYN]. *)
Lemma in_range_spec lo hi b : in_range lo hi b = true <-> lo <= bval b <= hi.
Proof. unfold in_range. by rewrite bool_decide_eq_true. Qed.

Lemma second_ok_3 a b : in_range 224 239 a = true ->
  second_ok a b = if bool_decide (bval a = 224) then in_range 160 191 b else if bool_decide (bval a = 237) then in_range 128 159 b else cont b.
Proof. intros Ha%in_range_spec. unfold second_ok. repeat case_bool_decide; try lia; done. Qed.
Lemma second_ok_4 a b : in_range 240 244 a = true ->
  second_ok a b = if bool_decide (bval a = 240) then in_range 144 191 b else if bool_decide (bval a = 244) then in_range 128 143 b else cont b.
Proof. intros Ha%in_range_spec. unfold second_ok. repeat case_bool_decide; try lia; done. Qed.

Lemma lossy_char_valid a l : utf8_valid (a :: l) = true ->
  exists c rest, lossy_char a l = (c, rest) /\ a :: l = c ++ rest /\ utf8_valid rest = true /\ (length rest <= length l)%nat.
Proof.
  intros Hv. cbn [utf8_valid] in Hv. unfold lossy_char. destruct (in_range 0 127 a); [by exists [a], l|].
  destruct l as [|b l2]; [done|]. destruct (in_range 194 223 a).
  { apply andb_true_iff in Hv as [-> Hv]. exists [a; b], l2. split_and!; [done..|cbn; lia]. }
  destruct l2 as [|c l3]; [done|]. destruct (in_range 224 239 a) eqn:E3.
  { rewrite <- (second_ok_3 a b E3) in Hv. apply andb_true_iff in Hv as [[-> ->]%andb_true_iff Hv]. exists [a; b; c], l3. split_and!; [done..|cbn; lia]. }
  destruct l3 as [|d l4]; [done|]. destruct (in_range 240 244 a) eqn:E4; [|done]. rewrite <- (second_ok_4 a b E4) in Hv.
  apply andb_true_iff in Hv as [[[-> ->]%andb_true_iff ->]%andb_true_iff Hv]. exists [a; b; c; d], l4. split_and!; [done..|cbn; lia].
Qed.

Lemma utf8_lossy_valid l : utf8_valid l = true -> utf8_lossy l = l.
Proof.
  unfold utf8_lossy. assert (length l <= length l)%nat as Hl by lia. revert Hl. generalize (length l) at 2 3 as fuel. intros fuel.
  revert l. induction fuel as [|fuel IH]; intros [|a l] Hl Hv; cbn [lossy_from]; try done; [cbn in Hl; lia|].
  destruct (lossy_char_valid a l Hv) as (c & rest & -> & -> & Hr & Hlr). by rewrite IH by (cbn in Hl; lia || done).
Qed.

Lemma get_ep_put ep rest : zlen ep <= 255 -> get_ep (put_ep ep ++ rest) = Some (ep, rest).
Proof.
  intros Hl. unfold get_ep, put_ep. cbn [app]. pose proof (zlen_nonneg ep). unfold zlen in *. rewrite Z.min_l by lia. rewrite bval_byte_of, Z.mod_small by lia.
  rewrite Nat2Z.id, take_ge by lia. rewrite decide_True by (rewrite length_app; lia). by rewrite take_app_length, drop_app_length.
Qed.

Definition label_ok (ep : bytes) : Prop := utf8_valid ep = true /\ zlen ep <= 255.

Lemma syn_roundtrip src dst : label_ok src -> label_ok dst -> parse_syn_eps (put_ep src ++ put_ep dst) = Some (src, dst).
Proof.
  intros [Hs1 Hs2] [Hd1 Hd2]. unfold parse_syn_eps. rewrite get_ep_put by done. cbn [mbind option_bind]. rewrite <- (app_nil_r (put_ep dst)), get_ep_put by done.
  cbn [mbind option_bind]. by rewrite !utf8_lossy_valid.
Qed.

Lemma lxor_u64 a b : is_u64 a -> is_u64 b -> is_u64 (Z.lxor a b).
Proof.
  unfold is_u64. intros Ha Hb. split; [apply Z.lxor_nonneg; lia|].
  assert (Z.lxor a b = Z.land (Z.lxor a b) (Z.ones 64)) as ->; [|rewrite Z.land_ones by lia; apply Z.mod_pos_bound; lia].
  rewrite <- (Z.mod_small a (2 ^ 64)), <- (Z.mod_small b (2 ^ 64)), <- !Z.land_ones by lia. apply Z.bits_inj'. intros n Hn.
  rewrite !Z.land_spec, !Z.lxor_spec, !Z.land_spec. by destruct (Z.testbit a n), (Z.testbit b n), (Z.testbit (Z.ones 64) n).
Qed.

Lemma wrap_u64 z : is_u64 (u64_wrap z).
Proof. apply Z.mod_pos_bound. lia. Qed.

Lemma conn_id_range ep ctr : is_u64 (dial_conn_id ep ctr).
Proof.
  apply lxor_u64; [|apply wrap_u64]. unfold fnv1a. destruct ep as [|b ep _] using rev_ind; [by vm_compute|]. rewrite foldl_snoc. apply wrap_u64.
Qed.

(** ** Setting a connection up *)

(** What a node hears on its channel. *)
Definition on_air (t : MeshTx) (b : bytes) : MeshPacket := mkMeshPacket (tx_channel t) None b.

(** A dial that reaches its listener is told [SYN_ACK]; the listener gets a new
    connection, unless it knows the id. *)
Lemma syn_accepted t c src :
  is_u64 c -> label_ok src -> label_ok (tx_local_ep t) ->
  demux (on_air t (encode_syn c src (tx_local_ep t))) t =
    ([encode_ctrl T_SYN_ACK c 0 0],
     if decide (is_Some (tx_conns t !! c)) then t
     else mkMeshTx (tx_channel t) (tx_local_ep t) (<[c := mkConnQueues [] []]> (tx_conns t)) ((fun l => l ++ [c]) <$> tx_incoming t) (tx_conn_ctr t)).
Proof.
  intros Hc Hs Hd. unfold demux, on_air. cbn [mp_channel mp_payload]. rewrite decide_False by (intros Hn; by apply Hn).
  change (encode_syn c src (tx_local_ep t)) with (enc_packet (mkPacket T_SYN c 0 0 0 (put_ep src ++ put_ep (tx_local_ep t)))).
  rewrite packet_roundtrip by (unfold packet_ok, T_SYN; cbn; unfold is_u64 in *; lia). rewrite decide_True by done.
  unfold handle_syn. cbn [pk_payload pk_conn_id]. rewrite syn_roundtrip by done. rewrite decide_False by (intros Hn; by apply Hn). by case_decide.
Qed.

(** The first connection a node dials has one id for all its restarts: a listener that
    has met it acknowledges the [SYN] and accepts nothing. *)
Lemma redial_unheard t ep dialer :
  tx_local_ep dialer = ep -> tx_conn_ctr dialer = 0 -> label_ok ep -> label_ok (tx_local_ep t) ->
  is_Some (tx_conns t !! dial_conn_id ep 0) ->
  let '(c, syn, _) := dial_start (tx_local_ep t) dialer in demux (on_air t syn) t = ([encode_ctrl T_SYN_ACK c 0 0], t).
Proof.
  intros <- Hc He Ht Hk. unfold dial_start. rewrite Hc. cbn [register_conn set_conns tx_local_ep]. rewrite syn_accepted by (done || apply conn_id_range).
  by rewrite decide_True.
Qed.

(** ** A link: one writer, one reader, and the radio between them *)

Section Link.
Context (mtu : Z) (retries : nat).

(** What the reader will return of what is queued. *)
Fixpoint flush (queue : list Packet) (m : Reasm) : list bytes * Reasm :=
  match queue with
  | [] => ([], m)
  | p :: queue' => let (o, m) := reader_packet p m in let (os, m) := flush queue' m in (option_list o ++ os, m)
  end.

Record Link : Type := mkLink {
  lk_writer : MeshWriter;
  lk_tx : MeshTx;        (** the writer's node *)
  lk_rx : MeshTx;        (** the reader's node *)
  lk_reasm : Reasm;
  lk_air : list bytes;   (** in flight to the reader *)
  lk_back : list bytes;  (** in flight to the writer *)
  lk_sent : list bytes;  (** frames given to [send_frame] *)
  lk_oks : nat;          (** how many of them it returned [Ok] for *)
  lk_failed : bool;      (** it returned an error *)
  lk_got : list bytes }. (** frames [recv_frame] returned *)

Inductive Action : Type :=
| ASend (frame : bytes)
| AData                 (** the first packet in flight arrives at the reader's node *)
| ABack                 (** the first packet on the way back arrives at the writer's node *)
| AAck                  (** the writer takes a packet from its queue *)
| ATimeout
| ARecv
| ALoseData (i : nat)
| ALoseBack (i : nat)
| AForeign (to_reader : bool) (b : bytes). (** a packet that is not of this connection *)

Definition set_rx (t : MeshTx) (s : Link) : Link :=
  mkLink (lk_writer s) (lk_tx s) t (lk_reasm s) (lk_air s) (lk_back s) (lk_sent s) (lk_oks s) (lk_failed s) (lk_got s).
Definition set_tx (t : MeshTx) (s : Link) : Link :=
  mkLink (lk_writer s) t (lk_rx s) (lk_reasm s) (lk_air s) (lk_back s) (lk_sent s) (lk_oks s) (lk_failed s) (lk_got s).
Definition set_air (air back : list bytes) (s : Link) : Link :=
  mkLink (lk_writer s) (lk_tx s) (lk_rx s) (lk_reasm s) air back (lk_sent s) (lk_oks s) (lk_failed s) (lk_got s).
(** The writer moved on, and sent something. *)
Definition set_writer (w : MeshWriter) (out : list bytes) (oks : nat) (failed : bool) (s : Link) : Link :=
  mkLink w (lk_tx s) (lk_rx s) (lk_reasm s) (lk_air s ++ out) (lk_back s) (lk_sent s) oks failed (lk_got s).

Definition air_act (a : Action) (s : Link) : option Link :=
  let c := mw_conn_id (lk_writer s) in
  match a with
  | ASend frame =>
      if lk_failed s then None
      else match mw_sending (lk_writer s) with
      | Some _ => None
      | None =>
          let (out, w) := writer_start mtu retries frame (lk_writer s) in
          Some (mkLink w (lk_tx s) (lk_rx s) (lk_reasm s) (lk_air s ++ out) (lk_back s) (lk_sent s ++ [frame]) (lk_oks s) false (lk_got s))
      end
  | AData =>
      match lk_air s with
      | [] => None
      | b :: air => let (out, t) := demux (on_air (lk_rx s) b) (lk_rx s) in Some (set_rx t (set_air air (lk_back s ++ out) s))
      end
  | ABack =>
      match lk_back s with
      | [] => None
      | b :: back => let (out, t) := demux (on_air (lk_tx s) b) (lk_tx s) in Some (set_tx t (set_air (lk_air s ++ out) back s))
      end
  | AAck =>
      match tx_conns (lk_tx s) !! c with
      | Some (mkConnQueues (p :: acks) data) =>
          let s := set_tx (set_conns (<[c := mkConnQueues acks data]> (tx_conns (lk_tx s))) (lk_tx s)) s in
          let '(out, ok, w) := writer_ack retries p (lk_writer s) in
          Some (set_writer w out (if ok then S (lk_oks s) else lk_oks s) (lk_failed s) s)
      | _ => None
      end
  | ATimeout => let '(out, failed, w) := writer_timeout (lk_writer s) in Some (set_writer w out (lk_oks s) (lk_failed s || failed) s)
  | ARecv =>
      match tx_conns (lk_rx s) !! c with
      | Some (mkConnQueues acks data) =>
          match recv_one data (lk_reasm s) with
          | (frame, data, m) =>
              let t := set_conns (<[c := mkConnQueues acks data]> (tx_conns (lk_rx s))) (lk_rx s) in
              Some (mkLink (lk_writer s) (lk_tx s) t m (lk_air s) (lk_back s) (lk_sent s) (lk_oks s) (lk_failed s) (lk_got s ++ option_list frame))
          end
      | _ => None
      end
  | ALoseData i => Some (set_air (delete i (lk_air s)) (lk_back s) s)
  | ALoseBack i => Some (set_air (lk_air s) (delete i (lk_back s)) s)
  | AForeign to_reader b =>
      let other := match parse_packet b with Some p => bool_decide (pk_conn_id p <> c) | None => true end in
      if other then
        Some (if to_reader then set_rx (demux (on_air (lk_rx s) b) (lk_rx s)).2 s else set_tx (demux (on_air (lk_tx s) b) (lk_tx s)).2 s)
      else None
  end.

Fixpoint air_run (acts : list Action) (s : Link) : option Link :=
  match acts with [] => Some s | a :: acts' => air_act a s ≫= air_run acts' end.

(** Both nodes know the connection and nothing is under way. *)
Record link_fresh (s : Link) : Prop := {
  lf_writer : lk_writer s = mkMeshWriter (mw_conn_id (lk_writer s)) 0 None;
  lf_conn : is_u64 (mw_conn_id (lk_writer s));
  lf_tx : tx_conns (lk_tx s) !! mw_conn_id (lk_writer s) = Some (mkConnQueues [] []);
  lf_rx : tx_conns (lk_rx s) !! mw_conn_id (lk_writer s) = Some (mkConnQueues [] []);
  lf_rest : lk_reasm s = ∅ /\ lk_air s = [] /\ lk_back s = [] /\ lk_sent s = [] /\ lk_oks s = 0%nat /\ lk_failed s = false /\ lk_got s = [] }.

(** All that has come through so far: returned, or waiting to be. *)
Definition arrived (s : Link) : list bytes :=
  lk_got s ++ match tx_conns (lk_rx s) !! mw_conn_id (lk_writer s) with Some q => (flush (cq_data q) (lk_reasm s)).1 | None => [] end.

(** Each frame in order; one of a single segment perhaps repeated. *)
Inductive delivered : list bytes -> list bytes -> Prop :=
| dl_nil : delivered [] []
| dl_frame sent out f : delivered sent out -> delivered (sent ++ [f]) (out ++ [f])
| dl_repeat sent out f : length (segments mtu f) = 1%nat -> delivered (sent ++ [f]) out -> delivered (sent ++ [f]) (out ++ [f]).

(** ** Counting segments *)

Definition nsegs (f : bytes) : nat := length (segments mtu f).
Definition total (fs : list bytes) : nat := sum_list_with nsegs fs.
Definition fits (f : bytes) : Prop := Z.of_nat (nsegs f) <= MAX_SEGMENTS.

Lemma segments_join f : mjoin (segments mtu f) = f /\ (1 <= nsegs f)%nat.
Proof.
  unfold nsegs, segments. case_decide as Hf; [by subst|]. set (n := Z.to_nat _). assert (0 < n)%nat as Hn by (unfold n; lia).
  destruct (chunks_spec (length f) n f Hn ltac:(lia)) as (Hj & _ & _). fold (chunks n f) in Hj. split; [done|].
  destruct (chunks n f); [|cbn; lia]. cbn in Hj. by subst.
Qed.
Lemma nsegs_pos f : (1 <= nsegs f)%nat. Proof. apply segments_join. Qed.

Lemma total_app a b : total (a ++ b) = (total a + total b)%nat.
Proof. unfold total. apply sum_list_with_app. Qed.
Lemma total_cons f a : total (f :: a) = (nsegs f + total a)%nat.
Proof. done. Qed.
Lemma total_snoc a f : total (a ++ [f]) = (total a + nsegs f)%nat.
Proof. rewrite total_app. unfold total at 2. cbn. lia. Qed.

(** Which frame, and which segment of it, the [a]-th segment is. *)
Fixpoint locate (fs : list bytes) (a : nat) : option (nat * nat * bytes) :=
  match fs with
  | [] => None
  | f :: fs' => if decide (a < nsegs f)%nat then Some (0%nat, a, f) else (fun '(j, i, g) => (S j, i, g)) <$> locate fs' (a - nsegs f)
  end.

Lemma locate_at pre f post i : (i < nsegs f)%nat -> locate (pre ++ f :: post) (total pre + i) = Some (length pre, i, f).
Proof.
  intros Hi. induction pre as [|g pre IH]; cbn [app locate length]; [by rewrite decide_True|].
  unfold total. cbn [sum_list_with]. fold (total pre). rewrite decide_False by lia.
  replace (nsegs g + total pre + i - nsegs g)%nat with (total pre + i)%nat by lia. by rewrite IH.
Qed.

Lemma locate_Some fs a j i f : locate fs a = Some (j, i, f) ->
  exists pre post, fs = pre ++ f :: post /\ length pre = j /\ (i < nsegs f)%nat /\ a = (total pre + i)%nat.
Proof.
  revert a j. induction fs as [|g fs IH]; intros a j; [done|]. cbn [locate]. case_decide as Ha.
  - intros [= <- <- <-]. by exists [], fs.
  - destruct (locate fs (a - nsegs g)) as [[[j' i'] f']|] eqn:E; [|done]. intros [= <- <- <-].
    destruct (IH _ _ E) as (pre & post & -> & <- & Hi & Ea). exists (g :: pre), post. split_and!; [done..|]. unfold total in *. cbn [sum_list_with]. lia.
Qed.
Lemma locate_lt fs a : (a < total fs)%nat -> exists j i f, locate fs a = Some (j, i, f).
Proof.
  revert a. induction fs as [|g fs IH]; intros a Ha; [cbn in Ha; lia|]. cbn [locate]. case_decide; [by eexists _, _, _|].
  destruct (IH (a - nsegs g)%nat) as (j & i & f & ->); [unfold total in *; cbn [sum_list_with] in Ha; lia|]. by eexists _, _, _.
Qed.
Lemma locate_ext fs fs' a : (a < total fs)%nat -> locate (fs ++ fs') a = locate fs a.
Proof.
  intros Ha. destruct (locate_lt fs a Ha) as (j & i & f & E). rewrite E. apply locate_Some in E as (pre & post & -> & <- & Hi & ->).
  rewrite <- app_assoc. cbn [app]. by apply locate_at.
Qed.
Lemma locate_inj fs a b j i f g : locate fs a = Some (j, i, f) -> locate fs b = Some (j, i, g) -> a = b.
Proof.
  intros (pre & post & E1 & Hj & _ & ->)%locate_Some (pre' & post' & E2 & Hj' & _ & ->)%locate_Some. rewrite E1 in E2.
  apply app_inj_1 in E2 as [-> _]; [done|]. by rewrite Hj, Hj'.
Qed.

(** ** The reader *)

Definition data_packet (c : Z) (x : nat * nat * bytes) : Packet :=
  let '(j, i, f) := x in mkPacket T_DATA c (Z.of_nat j) (Z.of_nat i) (Z.of_nat (nsegs f)) (default [] (segments mtu f !! i)).

(** A frame's segments when the first [i] of them have come. *)
Definition slots (f : bytes) (i : nat) : list (option bytes) := (Some <$> take i (segments mtu f)) ++ replicate (nsegs f - i) None.
Definition only_last (f : bytes) : list (option bytes) := replicate (nsegs f - 1) None ++ [Some (default [] (segments mtu f !! (nsegs f - 1)%nat))].

Lemma length_slots f i : (i <= nsegs f)%nat -> length (slots f i) = nsegs f.
Proof. intros Hi. unfold slots. rewrite length_app, length_fmap, length_take, length_replicate. unfold nsegs in *. lia. Qed.

Lemma slots_next f i : (i < nsegs f)%nat ->
  slots f i !! i = Some None /\ <[i := Some (default [] (segments mtu f !! i))]> (slots f i) = slots f (S i).
Proof.
  intros Hi. unfold slots. assert (length (Some <$> take i (segments mtu f)) = i) as Hl by (rewrite length_fmap, length_take; unfold nsegs in Hi; lia).
  destruct (nsegs f - i)%nat as [|n] eqn:En; [lia|]. cbn [replicate]. split.
  - rewrite lookup_app_r by lia. by rewrite Hl, Nat.sub_diag.
  - rewrite <- Hl at 1. rewrite insert_app_r_alt, Nat.sub_diag by lia. cbn. replace (nsegs f - S i)%nat with n by lia.
    destruct (segments mtu f !! i) as [x|] eqn:Ex; [|apply lookup_ge_None in Ex; unfold nsegs in Hi; lia]. cbn.
    rewrite (take_S_r _ _ _ Ex), fmap_app, <- app_assoc. done.
Qed.
Lemma slots_have f i : (0 < i <= nsegs f)%nat -> exists x, slots f i !! (i - 1)%nat = Some (Some x).
Proof.
  intros Hi. unfold slots. rewrite lookup_app_l by (rewrite length_fmap, length_take; unfold nsegs in Hi; lia).
  rewrite list_lookup_fmap, lookup_take_lt by lia. destruct (segments mtu f !! (i - 1)%nat) as [x|] eqn:Ex; [by exists x|].
  apply lookup_ge_None in Ex. unfold nsegs in Hi. lia.
Qed.
Lemma slots_full f : mjoin (default [] <$> slots f (nsegs f)) = f.
Proof.
  unfold slots. rewrite Nat.sub_diag. cbn [replicate]. rewrite app_nil_r, take_ge by (unfold nsegs; lia). rewrite <- list_fmap_compose.
  rewrite (list_fmap_ext _ id) by done. rewrite list_fmap_id. apply segments_join.
Qed.

(** The reader after the segments [0 .. m) of [fs] have come, each at least once and in
    order, and [out] was returned. *)
Definition reader_inv (fs : list bytes) (m : nat) (R : Reasm) (out : list bytes) : Prop :=
  exists done rest i, fs = done ++ rest /\ m = (total done + i)%nat /\ delivered done out /\
    (i = 0%nat \/ exists f rest', rest = f :: rest' /\ (i < nsegs f)%nat) /\
    (forall f rest', rest = f :: rest' -> default (slots f 0, 0%nat) (R !! Z.of_nat (length done)) = (slots f i, i)) /\
    (forall k, Z.of_nat (length done) < k -> R !! k = None) /\ (i = 0%nat -> R !! Z.of_nat (length done) = None) /\
    (forall pre f, done = pre ++ [f] -> R !! Z.of_nat (length pre) = None \/
       ((1 < nsegs f)%nat /\ R !! Z.of_nat (length pre) = Some (only_last f, 1%nat))).

Lemma slots_0 f : slots f 0 = replicate (nsegs f) None.
Proof. unfold slots. by rewrite Nat.sub_0_r. Qed.

(** What a segment does to the entry of its message. *)
Definition entry_after (x : nat * nat * bytes) (e : list (option bytes) * nat) : list (option bytes) * nat :=
  match e.1 !! x.1.2 with
  | Some None => (<[x.1.2 := Some (default [] (segments mtu x.2 !! x.1.2))]> e.1, S e.2)
  | _ => e
  end.

Lemma reader_data c j i f R e :
  fits f -> (i < nsegs f)%nat -> default (slots f 0, 0%nat) (R !! Z.of_nat j) = e -> length e.1 = nsegs f ->
  let e' := entry_after (j, i, f) e in
  reader_packet (data_packet c (j, i, f)) R =
    if decide (e'.2 = nsegs f) then (Some (mjoin (default [] <$> e'.1)), delete (Z.of_nat j) (<[Z.of_nat j := e']> (<[Z.of_nat j := e]> R)))
    else (None, <[Z.of_nat j := e']> (<[Z.of_nat j := e]> R)).
Proof.
  intros Hf Hi He Hl. unfold fits in Hf. pose proof (nsegs_pos f). cbv zeta. unfold reader_packet, data_packet.
  cbn [pk_typ pk_conn_id pk_msg_seq pk_frag_idx pk_frag_cnt pk_payload].
  rewrite decide_False by (intros [?|[?|?]]; [done|lia|lia]). rewrite !Nat2Z.id. rewrite (decide_False (P := (nsegs f <= i)%nat)) by lia.
  rewrite <- slots_0, He. rewrite decide_False by (intros Hn; by apply Hn). done.
Qed.

(** A new segment. *)
Lemma reader_new c fs m R out j i f :
  Forall fits fs -> reader_inv fs m R out -> locate fs m = Some (j, i, f) ->
  forall o R', reader_packet (data_packet c (j, i, f)) R = (o, R') -> reader_inv fs (S m) R' (out ++ option_list o).
Proof.
  intros Hfit (done & rest & i0 & -> & -> & Hdel & Hi0 & Hcur & Hnext & Hz & Hprev) Hloc o R' Hr.
  assert (exists rest', rest = f :: rest' /\ j = length done /\ i = i0 /\ (i0 < nsegs f)%nat) as (rest' & -> & -> & -> & Hi).
  { destruct rest as [|f0 rest'].
    - exfalso. apply locate_Some in Hloc as (pre & post & E & _ & Hi & Et). rewrite app_nil_r in E. destruct Hi0 as [->|(? & ? & ? & _)]; [|done].
      rewrite E, total_app, total_cons in Et. lia.
    - assert (i0 < nsegs f0)%nat as Hlt by (destruct Hi0 as [->|(g & r & [= <- <-] & ?)]; [apply nsegs_pos|done]).
      rewrite locate_at in Hloc by done. injection Hloc as <- <- <-. by exists rest'. }
  assert (fits f) as Hf by (apply Forall_app in Hfit as [_ [? _]%Forall_cons]; done).
  specialize (Hcur f rest' eq_refl). pose proof (nsegs_pos f) as Hpos.
  rewrite (reader_data c (length done) i0 f R (slots f i0, i0)) in Hr; [|done..|by apply length_slots; lia].
  destruct (slots_next f i0 Hi) as [Hn Hs].
  assert (entry_after (length done, i0, f) (slots f i0, i0) = (slots f (S i0), S i0)) as E by (unfold entry_after; cbn [fst snd]; by rewrite Hn, Hs).
  rewrite E in Hr. cbn [fst snd] in Hr. destruct (decide (S i0 = nsegs f)) as [Hlast|Hmore]; injection Hr as <- <-.
  - exists (done ++ [f]), rest', 0%nat. cbn [option_list]. rewrite Hlast, slots_full.
    split; [by rewrite <- app_assoc|]. split; [rewrite total_snoc; lia|]. split; [by apply dl_frame|]. split; [by left|].
    rewrite length_app. cbn [length]. assert (forall k, Z.of_nat (length done) < k -> delete (Z.of_nat (length done)) (<[Z.of_nat (length done):=(slots f (nsegs f), nsegs f)]> (<[Z.of_nat (length done):=(slots f i0, i0)]> R)) !! k = None) as Hk.
    { intros k Hk. rewrite lookup_delete_ne, !lookup_insert_ne by lia. by apply Hnext. }
    split; [intros g r _; rewrite Hk by lia; done|]. split; [intros k Hlt; apply Hk; lia|]. split; [intros _; apply Hk; lia|].
    intros pre g [-> [= <-]]%app_inj_tail. left. apply lookup_delete_eq.
  - exists done, (f :: rest'), (S i0). rewrite app_nil_r. split; [done|]. split; [lia|]. split; [done|].
    split; [right; exists f, rest'; split; [done|lia]|]. split; [intros g r [= <- <-]; by rewrite lookup_insert_eq|].
    split; [intros k Hk; rewrite !lookup_insert_ne by lia; by apply Hnext|]. split; [done|].
    intros pre g ->. rewrite length_app in *. cbn [length] in *. rewrite !lookup_insert_ne by lia. by apply Hprev.
Qed.

(** A segment that had come last comes again. *)
Lemma reader_again c fs m R out j i f :
  Forall fits fs -> reader_inv fs (S m) R out -> locate fs m = Some (j, i, f) ->
  forall o R', reader_packet (data_packet c (j, i, f)) R = (o, R') -> reader_inv fs (S m) R' (out ++ option_list o).
Proof.
  intros Hfit (done & rest & i0 & -> & Em & Hdel & Hi0 & Hcur & Hnext & Hz & Hprev) Hloc o R' Hr. destruct i0 as [|i0].
  - destruct done as [|g done _] using rev_ind; [cbn in Em; lia|]. rewrite total_snoc in Em. pose proof (nsegs_pos g) as Hpos.
    rewrite <- app_assoc in Hloc. cbn [app] in Hloc. replace m with (total done + (nsegs g - 1))%nat in Hloc by lia. rewrite locate_at in Hloc by lia.
    injection Hloc as <- <- <-. assert (fits g) as Hf by (apply Forall_app in Hfit as [[_ [? _]%Forall_cons]%Forall_app _]; done).
    rewrite length_app in *. cbn [length] in *.
    assert (forall o0 (X : Reasm), (forall k, k <> Z.of_nat (length done) -> X !! k = R !! k) -> delivered (done ++ [g]) o0 ->
      (X !! Z.of_nat (length done) = None \/ ((1 < nsegs g)%nat /\ X !! Z.of_nat (length done) = Some (only_last g, 1%nat))) ->
      reader_inv ((done ++ [g]) ++ rest) (S m) X o0) as Hkeep.
    { intros o0 X HX Hd Hl. exists (done ++ [g]), rest, 0%nat. rewrite length_app. cbn [length]. split; [done|]. split; [rewrite total_snoc; lia|]. split; [done|].
      split; [by left|]. split; [intros f r Er; rewrite HX by lia; by eapply Hcur|]. split; [intros k Hk; rewrite HX by lia; by apply Hnext|].
      split; [intros _; rewrite HX by lia; by apply Hz|]. intros pre f [<- [= <-]]%app_inj_tail. done. }
    destruct (Hprev done g eq_refl) as [HN|[H1 HS]].
    + rewrite (reader_data c (length done) (nsegs g - 1) g R (slots g 0, 0%nat)) in Hr; [|done|lia|by rewrite HN|by apply length_slots; lia].
      assert (entry_after (length done, (nsegs g - 1)%nat, g) (slots g 0, 0%nat) = (only_last g, 1%nat)) as E.
      { unfold entry_after. cbn [fst snd]. rewrite slots_0, lookup_replicate_2 by lia. f_equal. unfold only_last.
        assert (replicate (nsegs g) None = replicate (nsegs g - 1) None ++ [@None bytes]) as ->
          by (change [@None bytes] with (replicate 1 (@None bytes)); rewrite <- replicate_add; f_equal; lia).
        rewrite insert_app_r_alt by (rewrite length_replicate; lia). by rewrite length_replicate, Nat.sub_diag. }
      rewrite E in Hr. cbn [fst snd] in Hr. destruct (decide (1%nat = nsegs g)) as [H1|H1]; injection Hr as <- <-.
      * apply Hkeep; [intros k Hk; by rewrite lookup_delete_ne, !lookup_insert_ne| |left; apply lookup_delete_eq]. cbn [option_list].
        assert (mjoin (default [] <$> only_last g) = g) as ->; [|by apply dl_repeat].
        unfold only_last. rewrite <- H1. cbn. rewrite app_nil_r. destruct (segments_join g) as [Hj _]. unfold nsegs in H1.
        destruct (segments mtu g) as [|x [|]]; [done| |done]. cbn in *. by rewrite app_nil_r in Hj.
      * rewrite app_nil_r. apply Hkeep; [intros k Hk; by rewrite !lookup_insert_ne|done|]. right. split; [lia|apply lookup_insert_eq].
    + rewrite (reader_data c (length done) (nsegs g - 1) g R (only_last g, 1%nat)) in Hr;
        [|done|lia|by rewrite HS|unfold only_last; cbn [fst]; rewrite length_app, length_replicate; cbn; lia].
      assert (entry_after (length done, (nsegs g - 1)%nat, g) (only_last g, 1%nat) = (only_last g, 1%nat)) as E.
      { unfold entry_after. cbn [fst snd]. unfold only_last at 1. rewrite lookup_app_r by (rewrite length_replicate; lia). by rewrite length_replicate, Nat.sub_diag. }
      rewrite E in Hr. cbn [fst snd] in Hr. rewrite decide_False in Hr by lia. injection Hr as <- <-. rewrite app_nil_r.
      apply Hkeep; [intros k Hk; by rewrite !lookup_insert_ne|done|]. right. split; [done|apply lookup_insert_eq].
  - destruct Hi0 as [?|(g & r & -> & Hi)]; [done|]. replace m with (total done + i0)%nat in Hloc by lia. rewrite locate_at in Hloc by lia. injection Hloc as <- <- <-.
    assert (fits g) as Hf by (apply Forall_app in Hfit as [_ [? _]%Forall_cons]; done). pose proof (Hcur g r eq_refl) as Hc.
    assert (R !! Z.of_nat (length done) = Some (slots g (S i0), S i0)) as HR by (destruct (R !! Z.of_nat (length done)) as [e|]; cbn in Hc; congruence).
    rewrite (reader_data c (length done) i0 g R (slots g (S i0), S i0)) in Hr; [|done|lia|done|by apply length_slots; lia].
    destruct (slots_have g (S i0) ltac:(lia)) as [x Hx]. replace (S i0 - 1)%nat with i0 in Hx by lia.
    assert (entry_after (length done, i0, g) (slots g (S i0), S i0) = (slots g (S i0), S i0)) as E by (unfold entry_after; cbn [fst snd]; by rewrite Hx).
    rewrite E in Hr. cbn [fst snd] in Hr. rewrite decide_False in Hr by lia. injection Hr as <- <-. rewrite !(insert_id R) by done. rewrite app_nil_r.
    exists done, (g :: r), (S i0). split_and!; try done. right. by exists g, r.
Qed.

(** ** The link's invariant *)

Definition ack_packet (c : Z) (x : nat * nat * bytes) : Packet := mkPacket T_DATA_ACK c (Z.of_nat x.1.1) (Z.of_nat x.1.2) 0 [].

Definition is_data (c : Z) (fs : list bytes) (b : bytes) (a : nat) : Prop := exists x, locate fs a = Some x /\ b = enc_packet (data_packet c x).
Definition is_ack (c : Z) (fs : list bytes) (p : Packet) (a : nat) : Prop := exists x, locate fs a = Some x /\ p = ack_packet c x.
Definition is_ack_bytes (c : Z) (fs : list bytes) (b : bytes) (a : nat) : Prop := exists p, is_ack c fs p a /\ b = enc_packet p.

(** The writer is at segment [T]: it awaits its acknowledgement, is done with all
    segments before it, or gave up on it. *)
Definition writer_inv (fs : list bytes) (T oks : nat) (failed : bool) (w : MeshWriter) : Prop :=
  mw_next_msg_seq w = Z.of_nat (length fs) mod 2 ^ 16 /\
  match mw_sending w with
  | None => if failed then exists fs0 f, fs = fs0 ++ [f] /\ oks = length fs0 /\ (total fs0 <= T)%nat else oks = length fs /\ T = total fs
  | Some sd => failed = false /\ exists fs0 f, fs = fs0 ++ [f] /\ oks = length fs0 /\ sd_seq sd = Z.of_nat (length fs0) /\ sd_cnt sd = Z.of_nat (nsegs f) /\
      T = (total fs0 + sd_idx sd)%nat /\ drop (sd_idx sd) (segments mtu f) = sd_seg sd :: sd_rest sd
  end.

Record link_inv (s : Link) (T m : nat) (air back queue : list nat) : Prop := {
  li_conn : is_u64 (mw_conn_id (lk_writer s));
  li_bounds : (T <= m <= S T /\ m <= total (lk_sent s))%nat;
  li_writer : writer_inv (lk_sent s) T (lk_oks s) (lk_failed s) (lk_writer s);
  li_air : Forall2 (is_data (mw_conn_id (lk_writer s)) (lk_sent s)) (lk_air s) air;
  li_sorted : StronglySorted Nat.le air;
  li_window : Forall (fun a => m <= S a /\ a <= T)%nat air;
  li_back : Forall2 (is_ack_bytes (mw_conn_id (lk_writer s)) (lk_sent s)) (lk_back s) back;
  li_queue : exists q d, tx_conns (lk_tx s) !! mw_conn_id (lk_writer s) = Some (mkConnQueues q d) /\ Forall2 (is_ack (mw_conn_id (lk_writer s)) (lk_sent s)) q queue;
  li_acked : Forall (fun a => a < m)%nat (back ++ queue);
  li_reader : exists q, tx_conns (lk_rx s) !! mw_conn_id (lk_writer s) = Some q /\
    reader_inv (lk_sent s) m (flush (cq_data q) (lk_reasm s)).2 (lk_got s ++ (flush (cq_data q) (lk_reasm s)).1) }.

(** So far the sequence numbers are distinct, and every frame can be reassembled. *)
Definition within (fs : list bytes) : Prop := Forall fits fs /\ Z.of_nat (length fs) <= 65536.

Lemma locate_small fs a j i f : within fs -> locate fs a = Some (j, i, f) -> Z.of_nat j < 65536 /\ Z.of_nat i < 4096 /\ Z.of_nat (nsegs f) <= 4096 /\ (a < total fs)%nat.
Proof.
  intros [Hf Hl] (pre & post & -> & <- & Hi & ->)%locate_Some. rewrite length_app in Hl. cbn [length] in Hl.
  apply Forall_app in Hf as [_ [Hf _]%Forall_cons]. unfold fits, MAX_SEGMENTS in Hf. rewrite total_app, total_cons. lia.
Qed.

Lemma data_packet_ok c fs a x : is_u64 c -> within fs -> locate fs a = Some x -> packet_ok (data_packet c x).
Proof. intros Hc Hw Hx. destruct x as [[j i] f]. destruct (locate_small _ _ _ _ _ Hw Hx) as (? & ? & ? & _). unfold packet_ok. cbn. unfold T_DATA. split_and!; try done; lia. Qed.
Lemma ack_packet_ok c fs a x : is_u64 c -> within fs -> locate fs a = Some x -> packet_ok (ack_packet c x).
Proof. intros Hc Hw Hx. destruct x as [[j i] f]. destruct (locate_small _ _ _ _ _ Hw Hx) as (? & ? & ? & _). unfold packet_ok. cbn. unfold T_DATA_ACK. split_and!; try done; lia. Qed.

Lemma locate_more fs fs' a x : locate fs a = Some x -> locate (fs ++ fs') a = Some x.
Proof.
  intros Hx. rewrite locate_ext; [done|]. destruct x as [[j i] f]. apply locate_Some in Hx as (pre & post & -> & _ & Hi & ->). rewrite total_app, total_cons. lia.
Qed.

Lemma flush_app q p (R : Reasm) : flush (q ++ [p]) R =
  let (o, R') := reader_packet p (flush q R).2 in ((flush q R).1 ++ option_list o, R').
Proof.
  revert R. induction q as [|p0 q IH]; intros R; cbn [flush app fst snd].
  - destruct (reader_packet p R) as [o R']. cbn. by rewrite app_nil_r.
  - destruct (reader_packet p0 R) as [o0 R0]. rewrite IH. destruct (flush q R0) as [os R1]. cbn. destruct (reader_packet p R1) as [o R']. by rewrite app_assoc.
Qed.

Lemma flush_recv q (R : Reasm) : let '(o, q', R') := recv_one q R in flush q R = (option_list o ++ (flush q' R').1, (flush q' R').2).
Proof.
  revert R. induction q as [|p q IH]; intros R; cbn [recv_one flush]; [done|]. destruct (reader_packet p R) as [[f|] R'].
  - destruct (flush q R'). done.
  - specialize (IH R'). destruct (recv_one q R') as [[o q'] R'']. rewrite IH. by cbn.
Qed.

Lemma reader_inv_more fs f m R out : reader_inv fs m R out -> reader_inv (fs ++ [f]) m R out.
Proof.
  intros (done & rest & i & -> & -> & Hd & Hi & Hcur & Hnext & Hz & Hprev). exists done, (rest ++ [f]), i.
  split; [by rewrite <- app_assoc|]. split; [done|]. split; [done|]. split; [destruct Hi as [->|(g & r & -> & ?)]; [by left|right; by exists g, (r ++ [f])]|].
  split; [|done]. intros g r E. destruct rest as [|g0 rest]; [|injection E as -> _; by apply (Hcur g rest)].
  destruct Hi as [->|(? & ? & ? & _)]; [|done]. by rewrite Hz.
Qed.

(** Other traffic leaves a connection's queues alone. *)
Lemma demux_foreign t b c : (forall p, parse_packet b = Some p -> pk_conn_id p <> c) -> tx_conns (demux (on_air t b) t).2 !! c = tx_conns t !! c.
Proof.
  intros Hp. unfold demux. case_decide; [done|]. cbn [mp_payload on_air]. destruct (parse_packet b) as [p|]; [|done]. specialize (Hp p eq_refl).
  case_decide.
  - unfold handle_syn. destruct (parse_syn_eps _) as [[? dst]|]; [|done]. repeat case_decide; try done. cbn. by rewrite lookup_insert_ne.
  - destruct (tx_conns t !! pk_conn_id p); [|done]. case_decide; cbn; by rewrite lookup_insert_ne.
Qed.

(** A data packet of a known connection is acknowledged and queued. *)
Lemma demux_data t c q fs a x : is_u64 c -> within fs -> locate fs a = Some x -> tx_conns t !! c = Some q ->
  demux (on_air t (enc_packet (data_packet c x))) t =
    ([enc_packet (ack_packet c x)], set_conns (<[c := mkConnQueues (cq_acks q) (cq_data q ++ [data_packet c x])]> (tx_conns t)) t).
Proof.
  intros Hc Hw Hx Hq. unfold demux. rewrite decide_False by (intros Hn; by apply Hn). cbn [mp_payload on_air].
  rewrite packet_roundtrip by by eapply data_packet_ok. destruct x as [[j i] f]. cbn [data_packet pk_typ pk_conn_id pk_msg_seq pk_frag_idx].
  rewrite decide_False by done. rewrite Hq, decide_True by done. unfold enc_packet, ack_packet. cbn [pk_typ pk_conn_id pk_msg_seq pk_frag_idx pk_frag_cnt pk_payload fst snd].
  by rewrite app_nil_r.
Qed.

Lemma demux_ack t c q d fs a p : is_u64 c -> within fs -> is_ack c fs p a -> tx_conns t !! c = Some (mkConnQueues q d) ->
  demux (on_air t (enc_packet p)) t = ([], set_conns (<[c := mkConnQueues (q ++ [p]) d]> (tx_conns t)) t).
Proof.
  intros Hc Hw (x & Hx & ->) Hq. unfold demux. rewrite decide_False by (intros Hn; by apply Hn). cbn [mp_payload on_air].
  rewrite packet_roundtrip by by eapply ack_packet_ok. cbn [ack_packet pk_typ pk_conn_id]. rewrite decide_False by done. by rewrite Hq, decide_False by done.
Qed.

(** What a writer that awaits segment [T] has on the air. *)
Lemma sending_data fs fs0 f w sd :
  within fs -> fs = fs0 ++ [f] -> sd_seq sd = Z.of_nat (length fs0) -> sd_cnt sd = Z.of_nat (nsegs f) ->
  drop (sd_idx sd) (segments mtu f) = sd_seg sd :: sd_rest sd ->
  (sd_idx sd < nsegs f)%nat /\ locate fs (total fs0 + sd_idx sd) = Some (length fs0, sd_idx sd, f) /\
  is_data (mw_conn_id w) fs (sending_packet w sd) (total fs0 + sd_idx sd).
Proof.
  intros [Hf _] -> Hseq Hcnt Hd. assert (sd_idx sd < nsegs f)%nat as Hi.
  { unfold nsegs. destruct (decide (sd_idx sd < length (segments mtu f))%nat) as [|Hn]; [done|]. rewrite drop_ge in Hd by lia. done. }
  pose proof (locate_at fs0 f [] (sd_idx sd) Hi) as Hloc. split; [done|]. split; [done|]. eexists. split; [exact Hloc|].
  apply Forall_app in Hf as [_ [Hf _]%Forall_cons]. unfold fits, MAX_SEGMENTS in Hf.
  assert (segments mtu f !! sd_idx sd = Some (sd_seg sd)) as Hs by (rewrite <- (Nat.add_0_r (sd_idx sd)), <- lookup_drop, Hd; done).
  unfold sending_packet, data_packet, enc_packet, encode_data. cbn [pk_typ pk_conn_id pk_msg_seq pk_frag_idx pk_frag_cnt pk_payload].
  by rewrite Hseq, Hcnt, Hs, Z.mod_small by lia.
Qed.

Lemma sorted_snoc l x : StronglySorted Nat.le l -> Forall (fun a => a <= x)%nat l -> StronglySorted Nat.le (l ++ [x]).
Proof.
  induction l as [|a l IH]; cbn; intros Hs Hf; [by repeat constructor|]. apply StronglySorted_inv in Hs as [Hs Ha]. apply Forall_cons in Hf as [Hx Hf].
  constructor; [by apply IH|]. apply Forall_app. split; [done|]. by constructor.
Qed.
Lemma sorted_delete l i : StronglySorted Nat.le l -> StronglySorted Nat.le (delete i l).
Proof.
  revert i. induction l as [|a l IH]; intros i Hs; [done|]. apply StronglySorted_inv in Hs as [Hs Ha]. destruct i as [|i]; [done|]. cbn.
  constructor; [by apply IH|]. by apply Forall_delete.
Qed.

(** The writer sends the segment it is at. *)
Lemma inv_emit w oks s T m air back queue out b :
  link_inv s T m air back queue ->
  forall T', (T <= T')%nat -> (T' <= m)%nat -> (m <= S T')%nat -> out = [b] -> mw_conn_id w = mw_conn_id (lk_writer s) ->
  is_data (mw_conn_id (lk_writer s)) (lk_sent s) b T' -> writer_inv (lk_sent s) T' oks (lk_failed s) w ->
  link_inv (set_writer w out oks (lk_failed s) s) T' m (air ++ [T']) back queue.
Proof.
  intros [] T' HT HT2 HT3 -> Hc Hb Hw. unfold set_writer. split; cbn [lk_writer lk_tx lk_rx lk_reasm lk_air lk_back lk_sent lk_oks lk_failed lk_got]; rewrite ?Hc; try done.
  - lia.
  - apply Forall2_app; [done|]. by constructor.
  - apply sorted_snoc; [done|]. eapply Forall_impl; [exact li_window0|]. cbn. intros. lia.
  - apply Forall_app. split; [eapply Forall_impl; [exact li_window0|]; cbn; intros; lia|]. constructor; [lia|done].
Qed.

Lemma inv_send frame s T m air back queue s' :
  within (lk_sent s ++ [frame]) -> link_inv s T m air back queue -> air_act (ASend frame) s = Some s' ->
  exists T' m' air' back' queue', link_inv s' T' m' air' back' queue' /\ lk_sent s' = lk_sent s ++ [frame].
Proof.
  intros Hwi Hinv Ha. cbn [air_act] in Ha. destruct (lk_failed s) eqn:Ef; [done|]. destruct (mw_sending (lk_writer s)) eqn:Es; [done|].
  destruct (writer_start mtu retries frame (lk_writer s)) as [out w] eqn:Ew. injection Ha as <-. destruct Hinv.
  destruct li_writer0 as [Hn Hwr]. rewrite Es, Ef in Hwr. destruct Hwr as [Hok HT]. unfold writer_start in Ew. pose proof (nsegs_pos frame) as Hpos.
  destruct (segments mtu frame) as [|seg rest] eqn:Eseg; [unfold nsegs in Hpos; rewrite Eseg in Hpos; cbn in Hpos; lia|]. unfold transmit in Ew. injection Ew as <- <-.
  set (sd := mkSending _ _ _ _ _ _). assert (Z.of_nat (length (lk_sent s)) < 65536) as Hlen by (destruct Hwi as [_ Hl]; rewrite length_app in Hl; cbn [length] in Hl; lia).
  assert (fits frame) as Hfit by (destruct Hwi as [Hf _]; by apply Forall_app in Hf as [_ [? _]%Forall_cons]). unfold fits, MAX_SEGMENTS in Hfit.
  assert (sd_seq sd = Z.of_nat (length (lk_sent s))) as Hseq by (cbn; rewrite Hn; apply Z.mod_small; lia).
  assert (sd_cnt sd = Z.of_nat (nsegs frame)) as Hcnt by (cbn [sd sd_cnt]; unfold nsegs in *; rewrite Eseg in *; unfold zlen; apply Z.mod_small; lia).
  destruct (sending_data (lk_sent s ++ [frame]) (lk_sent s) frame (mkMeshWriter (mw_conn_id (lk_writer s)) ((mw_next_msg_seq (lk_writer s) + 1) mod 2 ^ 16) (Some sd)) sd
    Hwi eq_refl Hseq Hcnt ltac:(exact Eseg)) as (_ & _ & Hdata). cbn [sd sd_idx] in Hdata. rewrite Nat.add_0_r in Hdata. fold sd in Hdata. cbn [mw_conn_id] in Hdata.
  exists T, m, (air ++ [T]), back, queue. split; [|done].
  split; cbn [lk_writer lk_tx lk_rx lk_reasm lk_air lk_back lk_sent lk_oks lk_failed lk_got mw_conn_id].
  - done.
  - rewrite total_snoc. lia.
  - split; cbn [mw_next_msg_seq mw_sending].
    + rewrite length_app, Hn. cbn [length]. rewrite Zplus_mod_idemp_l. f_equal. lia.
    + split; [done|]. exists (lk_sent s), frame. split_and!; try done. cbn [sd sd_idx]. lia.
  - apply Forall2_app; [|constructor; [by rewrite HT|done]]. eapply Forall2_impl; [exact li_air0|]. intros b a (x & Hx & ->). exists x. split; [by apply locate_more|done].
  - apply sorted_snoc; [done|]. eapply Forall_impl; [exact li_window0|]. cbn. intros. lia.
  - apply Forall_app. split; [done|]. constructor; [lia|done].
  - eapply Forall2_impl; [exact li_back0|]. intros b a (p & (x & Hx & ->) & ->). exists (ack_packet (mw_conn_id (lk_writer s)) x). split; [exists x; split; [by apply locate_more|done]|done].
  - destruct li_queue0 as (q & d & Hq & HF). exists q, d. split; [done|]. eapply Forall2_impl; [exact HF|]. intros p a (x & Hx & ->). exists x. split; [by apply locate_more|done].
  - done.
  - destruct li_reader0 as (q & Hq & HR). exists q. split; [done|]. by apply reader_inv_more.
Qed.

Lemma inv_data s T m air back queue s' :
  within (lk_sent s) -> link_inv s T m air back queue -> air_act AData s = Some s' ->
  exists m' air' back', link_inv s' T m' air' back' queue /\ lk_sent s' = lk_sent s.
Proof.
  intros Hwi [] Ha. cbn [air_act] in Ha. destruct (lk_air s) as [|b airb] eqn:Eair; [done|]. apply Forall2_cons_inv_l in li_air0 as (a & air' & (x & Hx & ->) & Hair & ->).
  destruct li_reader0 as (q & Hq & HR). rewrite (demux_data _ _ q (lk_sent s) a x) in Ha by done. injection Ha as <-.
  apply StronglySorted_inv in li_sorted0 as [Hsort Hle]. apply Forall_cons in li_window0 as [[Hw1 Hw2] Hwin].
  destruct x as [[j i] f]. destruct (locate_small _ _ _ _ _ Hwi Hx) as (_ & _ & _ & Hlt).
  exists (Nat.max m (S a)), air', (back ++ [a]). split; [|done].
  split; cbn [set_rx set_air lk_writer lk_tx lk_rx lk_reasm lk_air lk_back lk_sent lk_oks lk_failed lk_got set_conns tx_conns]; try done.
  - lia.
  - apply Forall_forall. intros y Hy. rewrite Forall_forall in Hle, Hwin. specialize (Hle y Hy). specialize (Hwin y Hy). unfold Nat.le in Hle. lia.
  - apply Forall2_app; [done|]. constructor; [|done]. exists (ack_packet (mw_conn_id (lk_writer s)) (j, i, f)). split; [by exists (j, i, f)|done].
  - rewrite <- app_assoc, !Forall_app in *. destruct li_acked0 as [H1 H2]. split_and!; [eapply Forall_impl; [exact H1|]; cbn; intros; lia|constructor; [lia|done]|eapply Forall_impl; [exact H2|]; cbn; intros; lia].
  - exists (mkConnQueues (cq_acks q) (cq_data q ++ [data_packet (mw_conn_id (lk_writer s)) (j, i, f)])). split; [apply lookup_insert_eq|]. cbn [cq_data].
    rewrite flush_app. destruct (reader_packet _ _) as [o R'] eqn:Er. cbn [fst snd]. rewrite app_assoc. destruct Hwi as [Hfit _].
    destruct (decide (a = m)) as [->|Hne].
    + replace (Nat.max m (S m)) with (S m) by lia. by eapply reader_new.
    + replace (Nat.max m (S a)) with (S a) by lia. replace m with (S a) in HR by lia. by eapply reader_again.
Qed.

Lemma inv_back s T m air back queue s' :
  within (lk_sent s) -> link_inv s T m air back queue -> air_act ABack s = Some s' ->
  exists back' queue', link_inv s' T m air back' queue' /\ lk_sent s' = lk_sent s.
Proof.
  intros Hwi [] Ha. cbn [air_act] in Ha. destruct (lk_back s) as [|b backb] eqn:Eb; [done|]. apply Forall2_cons_inv_l in li_back0 as (k & back' & (p & Hp & ->) & Hback & ->).
  destruct li_queue0 as (q & d & Hq & HF). rewrite (demux_ack _ _ q d (lk_sent s) k p) in Ha by done. injection Ha as <-.
  exists back', (queue ++ [k]). split; [|done].
  split; cbn [set_tx set_air lk_writer lk_tx lk_rx lk_reasm lk_air lk_back lk_sent lk_oks lk_failed lk_got set_conns tx_conns]; try done.
  - by rewrite app_nil_r.
  - exists (q ++ [p]), d. split; [apply lookup_insert_eq|]. apply Forall2_app; [done|]. by constructor.
  - cbn [app] in li_acked0. apply Forall_cons in li_acked0 as [Hk Hrest]. rewrite app_assoc. apply Forall_app. split; [done|]. by constructor.
Qed.

Lemma inv_ack s T m air back queue s' :
  within (lk_sent s) -> link_inv s T m air back queue -> air_act AAck s = Some s' ->
  exists T' air' queue', link_inv s' T' m air' back queue' /\ lk_sent s' = lk_sent s.
Proof.
  intros Hwi Hinv Ha. cbn [air_act] in Ha. pose proof (li_queue _ _ _ _ _ _ Hinv) as (q & d & Hq & HF). rewrite Hq in Ha.
  destruct q as [|p q]; [done|]. apply Forall2_cons_inv_l in HF as (k & queue' & (x & Hx & ->) & HF & ->).
  set (s1 := set_tx _ s) in Ha. assert (link_inv s1 T m air back queue') as Hinv1.
  { destruct Hinv. split; cbn [s1 set_tx lk_writer lk_tx lk_rx lk_reasm lk_air lk_back lk_sent lk_oks lk_failed lk_got set_conns tx_conns]; try done.
    - exists q, d. split; [apply lookup_insert_eq|done].
    - rewrite Forall_app in *. destruct li_acked0 as [? [? ?]%Forall_cons]. done. }
  assert (k < m)%nat as Hk by (pose proof (li_acked _ _ _ _ _ _ Hinv) as H; by apply Forall_app in H as [_ [? _]%Forall_cons]).
  assert (lk_writer s1 = lk_writer s /\ lk_sent s1 = lk_sent s) as [Ew1 Es1] by done. clearbody s1. clear Hinv Hq HF.
  rewrite <- Es1 in *. rewrite <- Ew1 in *. clear Es1 Ew1 s.
  destruct (writer_ack retries _ (lk_writer s1)) as [[out ok] w] eqn:Ew. injection Ha as <-. unfold writer_ack in Ew.
  pose proof (li_writer _ _ _ _ _ _ Hinv1) as [Hn Hwr]. destruct (mw_sending (lk_writer s1)) as [sd|] eqn:Es.
  2:{ injection Ew as <- <- <-. exists T, air, queue'. split; [|done]. destruct Hinv1. unfold set_writer. rewrite app_nil_r. by split. }
  destruct Hwr as [Hfail (fs0 & f & Efs & Hok & Hseq & Hcnt & HT & Hd)].
  destruct (sending_data _ fs0 f (lk_writer s1) sd Hwi Efs Hseq Hcnt Hd) as (Hi & Hloc & _).
  destruct (decide _) as [(_ & E1 & E2)|_].
  2:{ injection Ew as <- <- <-. exists T, air, queue'. split; [|done]. destruct Hinv1. unfold set_writer. rewrite app_nil_r. by split. }
  destruct x as [[j i] g]. cbn [ack_packet pk_msg_seq pk_frag_idx fst snd] in E1, E2. rewrite Hseq in E1. apply Nat2Z.inj in E1 as ->.
  destruct (locate_small _ _ _ _ _ Hwi Hloc) as (_ & Hi2 & _ & _). rewrite Z.mod_small in E2 by lia. apply Nat2Z.inj in E2 as ->.
  assert (k = T) as -> by (rewrite HT; by eapply locate_inj). pose proof (li_bounds _ _ _ _ _ _ Hinv1) as [Hb1 Hb2].
  destruct (sd_rest sd) as [|seg rest] eqn:Er.
  - injection Ew as <- <- <-. exists (S T), air, queue'. split; [|done]. assert (nsegs f = S (sd_idx sd)) as Hlast.
    { apply (f_equal length) in Hd. rewrite length_drop in Hd. cbn [length] in Hd. unfold nsegs in *. lia. }
    destruct Hinv1. unfold set_writer. rewrite app_nil_r. split; cbn [lk_writer lk_tx lk_rx lk_reasm lk_air lk_back lk_sent lk_oks lk_failed lk_got mw_conn_id]; try done.
    + lia.
    + split; [done|]. cbn [mw_sending]. rewrite Hfail, Efs, length_app, total_snoc, Hok. cbn [length]. lia.
    + eapply Forall_impl; [exact li_window0|]. cbn. intros. lia.
  - unfold transmit in Ew. injection Ew as <- <- <-. set (sd' := mkSending _ _ _ _ _ _). assert (drop (sd_idx sd') (segments mtu f) = sd_seg sd' :: sd_rest sd') as Hd'.
    { cbn [sd' sd_idx sd_seg sd_rest]. replace (S (sd_idx sd)) with (sd_idx sd + 1)%nat by lia. by rewrite <- drop_drop, Hd. }
    set (w' := mkMeshWriter _ _ _).
    destruct (sending_data _ fs0 f w' sd' Hwi Efs Hseq Hcnt Hd') as (_ & _ & Hdata).
    exists (S T), (air ++ [S T]), queue'. split; [|done]. eapply (inv_emit w' _ s1 T m air back queue' _ _ Hinv1); try done; [lia..| |].
    + replace (S T) with (total fs0 + sd_idx sd')%nat by (cbn [sd' sd_idx]; lia). exact Hdata.
    + split; [done|]. cbn [w' mw_sending]. split; [done|]. exists fs0, f. split_and!; try done. cbn [sd' sd_idx]. lia.
Qed.

Lemma inv_timeout s T m air back queue s' :
  within (lk_sent s) -> link_inv s T m air back queue -> air_act ATimeout s = Some s' ->
  exists air', link_inv s' T m air' back queue /\ lk_sent s' = lk_sent s.
Proof.
  intros Hwi Hinv Ha. cbn [air_act] in Ha. destruct (writer_timeout (lk_writer s)) as [[out failed] w] eqn:Ew. injection Ha as <-. unfold writer_timeout in Ew.
  pose proof (li_writer _ _ _ _ _ _ Hinv) as [Hn Hwr]. destruct (mw_sending (lk_writer s)) as [sd|] eqn:Es.
  2:{ injection Ew as <- <- <-. exists air. split; [|done]. destruct Hinv. unfold set_writer. rewrite app_nil_r, orb_false_r. by split. }
  destruct Hwr as [Hfail (fs0 & f & Efs & Hok & Hseq & Hcnt & HT & Hd)]. destruct (sd_tries sd) as [|n].
  - injection Ew as <- <- <-. exists air. split; [|done]. destruct Hinv. unfold set_writer. rewrite app_nil_r, orb_true_r.
    split; cbn [lk_writer lk_tx lk_rx lk_reasm lk_air lk_back lk_sent lk_oks lk_failed lk_got mw_conn_id]; try done.
    split; [done|]. cbn [mw_sending]. exists fs0, f. split_and!; try done. lia.
  - unfold transmit in Ew. injection Ew as <- <- <-. rewrite orb_false_r. set (sd' := mkSending _ _ _ _ _ _). set (w' := mkMeshWriter _ _ _).
    destruct (sending_data _ fs0 f w' sd' Hwi Efs Hseq Hcnt Hd) as (_ & _ & Hdata). exists (air ++ [T]). split; [|done].
    pose proof (li_bounds _ _ _ _ _ _ Hinv) as [Hb1 Hb2]. eapply (inv_emit w' _ s T m air back queue _ _ Hinv); try done; [lia..| |].
    + rewrite HT. exact Hdata.
    + split; [done|]. cbn [w' mw_sending]. split; [done|]. exists fs0, f. by split_and!.
Qed.

Lemma inv_recv s T m air back queue s' :
  link_inv s T m air back queue -> air_act ARecv s = Some s' -> link_inv s' T m air back queue /\ lk_sent s' = lk_sent s.
Proof.
  intros [] Ha. cbn [air_act] in Ha. destruct li_reader0 as ([acks data] & Hq & HR). rewrite Hq in Ha. pose proof (flush_recv data (lk_reasm s)) as Hf.
  destruct (recv_one data (lk_reasm s)) as [[o q'] R']. injection Ha as <-. split; [|done].
  split; cbn [lk_writer lk_tx lk_rx lk_reasm lk_air lk_back lk_sent lk_oks lk_failed lk_got set_conns tx_conns]; try done.
  exists (mkConnQueues acks q'). split; [apply lookup_insert_eq|]. cbn [cq_data] in *. rewrite Hf in HR. cbn [fst snd] in HR. by rewrite <- app_assoc.
Qed.

Lemma inv_lose s T m air back queue i :
  link_inv s T m air back queue ->
  link_inv (set_air (delete i (lk_air s)) (lk_back s) s) T m (delete i air) back queue /\
  link_inv (set_air (lk_air s) (delete i (lk_back s)) s) T m air (delete i back) queue.
Proof.
  intros []. split; split; cbn [set_air lk_writer lk_tx lk_rx lk_reasm lk_air lk_back lk_sent lk_oks lk_failed lk_got]; try done.
  - by apply Forall2_delete.
  - by apply sorted_delete.
  - by apply Forall_delete.
  - by apply Forall2_delete.
  - rewrite Forall_app in *. destruct li_acked0. split; [by apply Forall_delete|done].
Qed.

Lemma inv_foreign s T m air back queue to_reader b s' :
  link_inv s T m air back queue -> air_act (AForeign to_reader b) s = Some s' -> link_inv s' T m air back queue /\ lk_sent s' = lk_sent s.
Proof.
  intros [] Ha. cbn [air_act] in Ha. destruct (match parse_packet b with Some p => _ | None => _ end) eqn:Eo; [|done].
  assert (forall p, parse_packet b = Some p -> pk_conn_id p <> mw_conn_id (lk_writer s)) as Hp.
  { intros p E. rewrite E in Eo. by apply bool_decide_eq_true in Eo. }
  injection Ha as <-. destruct to_reader; (split; [|done]);
    split; cbn [set_rx set_tx lk_writer lk_tx lk_rx lk_reasm lk_air lk_back lk_sent lk_oks lk_failed lk_got]; try done; by rewrite demux_foreign.
Qed.

Lemma inv_act a s s' T m air back queue :
  within (lk_sent s') -> link_inv s T m air back queue -> air_act a s = Some s' ->
  exists T' m' air' back' queue', link_inv s' T' m' air' back' queue'.
Proof.
  intros Hw Hi Ha.
  assert (lk_sent s' = lk_sent s \/ exists f, a = ASend f /\ lk_sent s' = lk_sent s ++ [f]) as Hs.
  { clear Hi Hw. destruct a; cbn [air_act] in Ha; repeat (case_match; try done); simplify_eq; cbn; eauto. }
  destruct a as [f| | | | | |i|i|d b]; try (destruct Hs as [Es|(? & ? & _)]; [rewrite Es in Hw|done]).
  - destruct Hs as [Es|(? & [= <-] & Es)]; rewrite Es in Hw.
    + destruct (inv_send f s T m air back queue s') as (? & ? & ? & ? & ? & ? & E); [|done..|by eauto 10]. exfalso.
      cbn [air_act] in Ha. repeat (case_match; try done). simplify_eq. cbn in Es. apply (f_equal length) in Es. rewrite length_app in Es. cbn in Es. lia.
    + destruct (inv_send f s T m air back queue s') as (? & ? & ? & ? & ? & ? & E); [done..|by eauto 10].
  - destruct (inv_data s T m air back queue s') as (? & ? & ? & ? & _); [done..|eauto 10].
  - destruct (inv_back s T m air back queue s') as (? & ? & ? & _); [done..|eauto 10].
  - destruct (inv_ack s T m air back queue s') as (? & ? & ? & ? & _); [done..|eauto 10].
  - destruct (inv_timeout s T m air back queue s') as (? & ? & _); [done..|eauto 10].
  - destruct (inv_recv s T m air back queue s') as (? & _); [done..|eauto 10].
  - injection Ha as <-. destruct (inv_lose s T m air back queue i) as [? _]; [done|eauto 10].
  - injection Ha as <-. destruct (inv_lose s T m air back queue i) as [_ ?]; [done|eauto 10].
  - destruct (inv_foreign s T m air back queue d b s') as (? & _); [done..|eauto 10].
Qed.

Lemma sent_grows a s s' : air_act a s = Some s' -> exists l, lk_sent s' = lk_sent s ++ l.
Proof.
  intros Ha. destruct a; cbn [air_act] in Ha; repeat (case_match; try done); simplify_eq; cbn; eauto; exists []; by rewrite app_nil_r.
Qed.

Lemma run_grows acts s s' : air_run acts s = Some s' -> exists l, lk_sent s' = lk_sent s ++ l.
Proof.
  revert s. induction acts as [|a acts IH]; cbn; intros s Hr; [injection Hr as <-; exists []; by rewrite app_nil_r|].
  apply bind_Some in Hr as (s1 & Ha & Hr). destruct (sent_grows _ _ _ Ha) as [l E]. destruct (IH _ Hr) as [l' ->]. exists (l ++ l'). by rewrite E, app_assoc.
Qed.

Lemma within_prefix fs l : within (fs ++ l) -> within fs.
Proof. intros [[Hf _]%Forall_app Hl]. rewrite length_app in Hl. split; [done|lia]. Qed.

Lemma inv_run acts s s' T m air back queue :
  within (lk_sent s') -> link_inv s T m air back queue -> air_run acts s = Some s' ->
  exists T' m' air' back' queue', link_inv s' T' m' air' back' queue'.
Proof.
  revert s T m air back queue. induction acts as [|a acts IH]; cbn; intros s T m air back queue Hw Hi Hr; [injection Hr as <-; eauto 10|].
  apply bind_Some in Hr as (s1 & Ha & Hr). destruct (run_grows _ _ _ Hr) as [l E].
  destruct (inv_act a s s1 T m air back queue) as (? & ? & ? & ? & ? & H1); [rewrite E in Hw; by eapply within_prefix|done..|]. by eapply IH.
Qed.

Lemma inv_fresh s : link_fresh s -> link_inv s 0 0 [] [] [].
Proof.
  intros [Hw Hc Htx Hrx (Hm & Ha & Hb & Hs & Ho & Hf & Hg)].
  split; rewrite ?Hm, ?Ha, ?Hb, ?Hs, ?Ho, ?Hf, ?Hg; try done; try (by constructor).
  - cbn. lia.
  - rewrite Hw. done.
  - by exists [], [].
  - exists (mkConnQueues [] []). split; [done|]. cbn. exists [], [], 0%nat. split_and!; try done; [constructor|by left|by intros []].
Qed.

(** The reader is past every frame the writer has been told is through. *)
Lemma inv_through s T m air back queue : link_inv s T m air back queue ->
  exists n, (lk_oks s <= n <= length (lk_sent s))%nat /\ delivered (take n (lk_sent s)) (arrived s).
Proof.
  intros []. destruct li_reader0 as (q & Hq & dn & rest & i & Efs & Em & Hd & Hi & _). unfold arrived. rewrite Hq.
  exists (length dn). rewrite Efs, take_app_length, length_app. split; [|done]. split; [|lia].
  assert (exists fs0 fs1, lk_sent s = fs0 ++ fs1 /\ lk_oks s = length fs0 /\ (total fs0 <= T)%nat) as (fs0 & fs1 & E0 & -> & HT).
  { destruct li_writer0 as [_ Hw]. case_match; [destruct Hw as (_ & fs0 & f & ? & ? & _ & _ & ? & _); exists fs0, [f]; split_and!; [done..|lia]|].
    destruct (lk_failed s); [destruct Hw as (fs0 & f & ? & ? & ?); by exists fs0, [f]|]. destruct Hw as [-> ->]. exists (lk_sent s), []. by rewrite app_nil_r. }
  destruct (decide (length fs0 <= length dn)%nat) as [|Hlt]; [done|exfalso]. rewrite Efs in E0.
  assert (fs0 = dn ++ drop (length dn) fs0) as E1.
  { rewrite <- (take_drop (length dn) fs0) at 1. f_equal. apply (f_equal (take (length dn))) in E0. rewrite take_app_length in E0. rewrite take_app_le in E0 by lia. done. }
  destruct (drop (length dn) fs0) as [|f l]; [rewrite app_nil_r in E1; subst; lia|]. rewrite E1, <- app_assoc in E0. apply app_inv_head in E0.
  rewrite E1, total_app, total_cons in HT. pose proof (nsegs_pos f). destruct Hi as [->|(f' & rest' & -> & Hi)]; [lia|]. injection E0 as -> _. lia.
Qed.

(** C33: The reliable link over the radio keeps its promise under any interleaving of the
    two nodes in which packets are lost, time-outs fire early or late, and packets of
    other connections and garbage arrive: as long as frames are at most [MAX_SEGMENTS]
    segments and at most 65536 are sent, every frame [send_frame] returned [Ok] for has
    come through, whole, unaltered and in the order sent, and nothing that was not sent
    has; a frame of one segment may come more than once, one of several never does. *)
Theorem link_delivers acts s s' :
  link_fresh s -> air_run acts s = Some s' -> within (lk_sent s') ->
  exists n, (lk_oks s' <= n <= length (lk_sent s'))%nat /\ delivered (take n (lk_sent s')) (arrived s').
Proof.
  intros Hf Hr Hw. destruct (inv_run acts s s' 0 0 [] [] []) as (? & ? & ? & ? & ? & Hi); [done|by apply inv_fresh|done|]. by eapply inv_through.
Qed.

(** Frames of several segments come exactly once. *)
Lemma delivered_once sent out : Forall (fun f => 1 < length (segments mtu f))%nat sent -> delivered sent out -> out = sent.
Proof.
  intros Hf Hd. induction Hd as [| |sent out f H1 Hd IH]; [done| |].
  - apply Forall_app in Hf as [Hf _]. by rewrite IHHd.
  - apply Forall_app in Hf as [_ [Hn _]%Forall_cons]. lia.
Qed.
End Link.

(** ** A frame acknowledged and never delivered *)

(** A segment of a frame of more than [MAX_SEGMENTS] segments is acknowledged at the
    demux and dropped by the reader, so that [send_frame] of the frame returns [Ok]. *)
Lemma oversize_dropped t (p : Packet) q (m : Reasm) :
  packet_ok p -> pk_typ p = T_DATA -> pk_frag_cnt p > MAX_SEGMENTS -> tx_conns t !! pk_conn_id p = Some q ->
  (demux (on_air t (enc_packet p)) t).1 = [encode_ctrl T_DATA_ACK (pk_conn_id p) (pk_msg_seq p) (pk_frag_idx p)] /\
  reader_packet p m = (None, m).
Proof.
  intros Hp Ht Hc Hq. split.
  - unfold demux, on_air. cbn [mp_channel mp_payload]. rewrite decide_False by (intros Hn; by apply Hn). rewrite packet_roundtrip by done.
    rewrite Ht. rewrite decide_False by done. rewrite Hq. by rewrite decide_True.
  - unfold reader_packet. rewrite decide_True; [done|by auto].
Qed.

(** ** A run *)

Definition demo_tx : MeshTx := mkMeshTx 0 [] {[7 := mkConnQueues [] []]} None 0.
Definition demo_link : Link := mkLink (mkMeshWriter 7 0 None) demo_tx demo_tx ∅ [] [] [] 0 false [].
Definition demo_frame : bytes := [byte_of 5].
(** Two segments at an MTU of 20. *)
Definition demo_long : bytes := [byte_of 1; byte_of 2; byte_of 3].
(** The acknowledgement of the first frame is lost once; then the long frame loses its
    first segment and goes through. *)
Definition demo_acts : list Action :=
  [ASend demo_frame; AData; ALoseBack 0; ATimeout; AData; ABack; AAck; ARecv; ARecv;
   ASend demo_long; AForeign true [byte_of 1]; ALoseData 0; ATimeout; AData; ABack; AAck; AData; ABack; AAck; ARecv].
Definition demo_end : Link := default demo_link (air_run 20 3 demo_acts demo_link).

Lemma demo_fresh : link_fresh demo_link.
Proof. split; vm_compute; done. Qed.
Lemma demo_runs : air_run 20 3 demo_acts demo_link = Some demo_end.
Proof. vm_compute. reflexivity. Qed.

Lemma demo_sent : lk_sent demo_end = [demo_frame; demo_long].
Proof. vm_compute. reflexivity. Qed.
Lemma demo_within : within 20 [demo_frame; demo_long].
Proof. split; [|by vm_compute]. constructor; [by vm_compute|]. constructor; [by vm_compute|constructor]. Qed.

Lemma link_delivers_witness :
  lk_sent demo_end = [demo_frame; demo_long] /\ lk_oks demo_end = 2%nat /\
  (exists n, (lk_oks demo_end <= n <= length (lk_sent demo_end))%nat /\ delivered 20 (take n (lk_sent demo_end)) (arrived demo_end)).
Proof.
  split; [exact demo_sent|]. split; [vm_compute; reflexivity|].
  apply (link_delivers 20 3 demo_acts demo_link demo_end demo_fresh demo_runs).
  rewrite demo_sent. exact demo_within.
Defined.

(** The frame whose acknowledgement was lost is returned twice. *)
Lemma single_segment_repeats : lk_got demo_end = [demo_frame; demo_frame; demo_long].
Proof. vm_compute. reflexivity. Qed.
