(* ===== verification/Entropy.v ===== *)
(** * The entropy health gate (crates/crypto/src/rng.rs, selftest.rs)

    The two start-up health tests over a block of the operating system's generator, and
    the gate that runs them once, with the known-answer tests, before any randomness is
    handed out.  The outcome of the known-answer tests, fixed inputs through third-party
    primitives, is a parameter.  Proved: the tests reject exactly the samples with a long
    run or a window dominated by its first byte; nothing is drawn before they passed. *)

From S2P Require Import Prelude Wire Crypto Frag Radio.

Definition RCT_CUTOFF : nat := 6.
Definition APT_WINDOW : nat := 512.
Definition APT_CUTOFF : nat := 66.
Definition HEALTH_SAMPLE_LEN : nat := 4096.

(** ** The tests *)

(** The loop over [sample.windows(2)]. *)
Fixpoint rct_from (run : nat) (pairs : list (byte * byte)) : result CryptoError unit :=
  match pairs with
  | [] => Ok tt
  | (a, b) :: pairs' =>
      if decide (a = b) then
        if decide (RCT_CUTOFF <= S run)%nat then Err (SelfTest "entropy RCT: stuck source") else rct_from (S run) pairs'
      else rct_from 1 pairs'
  end.
Definition repetition_count_test (sample : bytes) : result CryptoError unit := rct_from 1 (windows2 sample).

Definition count_byte (b : byte) (window : bytes) : nat := length (filter (fun x => x = b) window).
(** The loop over [sample.chunks(APT_WINDOW)]. *)
Fixpoint apt_from (windows : list bytes) : result CryptoError unit :=
  match windows with
  | [] => Ok tt
  | window :: windows' =>
      match window with
      | [] => apt_from windows'
      | first :: _ =>
          if decide (APT_CUTOFF <= count_byte first window)%nat then Err (SelfTest "entropy APT: low-entropy source")
          else apt_from windows'
      end
  end.
Definition adaptive_proportion_test (sample : bytes) : result CryptoError unit := apt_from (chunks APT_WINDOW sample).

Definition run_health_tests (sample : bytes) : result CryptoError unit :=
  let* _ := repetition_count_test sample in
  adaptive_proportion_test sample.

(** ** What they reject *)

Definition has_run (n : nat) (l : bytes) : Prop := exists pre b post, l = pre ++ replicate n b ++ post.
(** The [k]-th window, and whether its first byte dominates it. *)
Definition window_at (k : nat) (sample : bytes) : bytes := take APT_WINDOW (drop (APT_WINDOW * k) sample).
Definition dominated (window : bytes) : Prop := exists first rest, window = first :: rest /\ (APT_CUTOFF <= count_byte first window)%nat.

Lemma run_short n m (x : byte) : (m < n)%nat -> ~ has_run n (replicate m x).
Proof. intros Hm (pre & b & post & E). apply (f_equal length) in E. rewrite !length_app, !length_replicate in E. lia. Qed.

(** A run does not reach over a change of byte. *)
Lemma run_restarts n r (x y : byte) l : (r < n)%nat -> x <> y -> has_run n (replicate r x ++ y :: l) <-> has_run n (y :: l).
Proof.
  intros Hr Hxy. split.
  - intros (pre & b & post & E). destruct (decide (r <= length pre)%nat) as [Hp|Hp].
    + exists (drop r pre), b, post. apply (f_equal (drop r)) in E. rewrite drop_app_length' in E by (by rewrite length_replicate).
      by rewrite drop_app_le in E.
    + exfalso. apply Hxy.
      assert (forall i, (length pre <= i < length pre + n)%nat -> (replicate r x ++ y :: l) !! i = Some b) as Hb.
      { intros i Hi. rewrite E. rewrite lookup_app_r by lia. rewrite lookup_app_l by (rewrite length_replicate; lia). apply lookup_replicate_2. lia. }
      assert (Some x = Some b) as Hx. { rewrite <- (Hb (length pre)) by lia. rewrite lookup_app_l by (rewrite length_replicate; lia). symmetry. apply lookup_replicate_2. lia. }
      assert (Some y = Some b) as Hy. { rewrite <- (Hb r) by lia. rewrite lookup_app_r by (rewrite length_replicate; lia). by rewrite length_replicate, Nat.sub_diag. }
      congruence.
  - intros (pre & b & post & ->). exists (replicate r x ++ pre), b, post. by rewrite app_assoc.
Qed.

Lemma replicate_shift n (x : byte) l : replicate n x ++ x :: l = replicate (S n) x ++ l.
Proof. rewrite replicate_S_end, <- app_assoc. done. Qed.

Lemma rct_run l : forall r (x : byte), (1 <= r < RCT_CUTOFF)%nat ->
  rct_from r (windows2 (x :: l)) = Ok tt <-> ~ has_run RCT_CUTOFF (replicate r x ++ l).
Proof.
  induction l as [|y l IH]; intros r x Hr.
  - cbn. split; [|done]. intros _. rewrite app_nil_r. apply run_short; lia.
  - change (windows2 (x :: y :: l)) with ((x, y) :: windows2 (y :: l)). cbn [rct_from]. destruct (decide (x = y)) as [<-|Hxy].
    + rewrite replicate_shift. destruct (decide (RCT_CUTOFF <= S r)%nat) as [Hc|Hc].
      * split; [done|]. intros H. exfalso. apply H. exists [], x, l. by replace (S r) with RCT_CUTOFF by lia.
      * apply IH. lia.
    + rewrite (run_restarts _ r) by (done || lia). apply (IH 1%nat y). unfold RCT_CUTOFF. lia.
Qed.

Lemma rct_exact sample : repetition_count_test sample = Ok tt <-> ~ has_run RCT_CUTOFF sample.
Proof.
  destruct sample as [|x l].
  - split; [intros _|done]. apply (run_short _ 0 (byte_of 0)). unfold RCT_CUTOFF. lia.
  - unfold repetition_count_test. rewrite (rct_run l 1 x) by (unfold RCT_CUTOFF; lia). done.
Qed.

Lemma chunks_lookup fuel n l k w : (0 < n)%nat -> (length l <= fuel)%nat ->
  chunks_fuel fuel n l !! k = Some w <-> w = take n (drop (n * k) l) /\ w <> [].
Proof.
  intros Hn. revert l k. induction fuel as [|fuel IH]; intros [|x l] k Hl; cbn [length] in Hl; try lia.
  1,2: cbn [chunks_fuel]; rewrite lookup_nil, drop_nil, take_nil; naive_solver.
  cbn [chunks_fuel]. destruct k as [|k].
  - rewrite Nat.mul_0_r, drop_0. cbn [lookup list_lookup]. split; [intros [= <-]|by intros [-> _]]. split; [done|]. destruct n; [lia|done].
  - change (_ !! S k) with (chunks_fuel fuel n (drop n (x :: l)) !! k). rewrite IH by (rewrite length_drop; cbn [length]; lia).
    rewrite drop_drop. by replace (n + n * k)%nat with (n * S k)%nat by lia.
Qed.

Lemma apt_windows ws : apt_from ws = Ok tt <-> Forall (fun w => ~ dominated w) ws.
Proof.
  induction ws as [|[|first w] ws IH]; cbn [apt_from]; [by split| |].
  - rewrite IH, Forall_cons. split; [|naive_solver]. intros H. split; [|done]. by intros (? & ? & ? & _).
  - case_decide as Hc; rewrite Forall_cons.
    + split; [done|]. intros [H _]. exfalso. apply H. by exists first, w.
    + rewrite IH. split; [|naive_solver]. intros H. split; [|done]. intros (f & r & [= <- <-] & H'). lia.
Qed.

Lemma apt_exact sample : adaptive_proportion_test sample = Ok tt <-> forall k, ~ dominated (window_at k sample).
Proof.
  unfold adaptive_proportion_test. rewrite apt_windows, Forall_lookup. unfold chunks. split; intros H k.
  - intros Hd. apply (H k (window_at k sample)); [|done]. apply chunks_lookup; [unfold APT_WINDOW; lia|done|]. split; [done|].
    destruct Hd as (f & r & -> & _). done.
  - intros w (-> & _)%chunks_lookup; [|unfold APT_WINDOW; lia|done]. apply H.
Qed.

(** C35: The start-up health tests, which scan a sample once, accept exactly what their
    definition in SP 800-90B accepts: no byte occurs six times in a row, and in no
    window of 512 bytes does the window's first byte occur 66 times or more. *)
Theorem health_tests_exact (sample : bytes) :
  run_health_tests sample = Ok tt <->
  ~ has_run RCT_CUTOFF sample /\ forall k, ~ dominated (window_at k sample).
Proof.
  rewrite <- rct_exact, <- apt_exact. unfold run_health_tests. split.
  - intros ([] & H & H')%rbind_Ok. done.
  - intros [H H']. apply rbind_Ok. by exists tt.
Qed.

(** ** The gate *)

(** [self_test]: the known-answer tests, then the health tests on a fresh block. *)
Definition self_test (kats : result CryptoError unit) (sample : bytes) : result CryptoError unit :=
  let* _ := kats in
  run_health_tests sample.

(** [ONCE] has run, and how many [SecureRng] values exist. *)
Record Gate : Type := mkGate { gt_once : bool; gt_rngs : nat }.

(** [None]: the process aborts. *)
Definition ensure_self_tested (kats : result CryptoError unit) (sample : bytes) (g : Gate) : option Gate :=
  if gt_once g then Some g
  else if is_ok (self_test kats sample) then Some (mkGate true (gt_rngs g)) else None.

Inductive RngOp : Type :=
| FillSecure (sample dest : bytes)  (** what the generator gives for the test, if run, and for [dest] *)
| NewRng (sample : bytes)
| FillBytes (dest : bytes).         (** a draw from a [SecureRng] *)

Definition rng_op (kats : result CryptoError unit) (op : RngOp) (g : Gate) : option (list bytes * Gate) :=
  match op with
  | FillSecure sample dest => g ← ensure_self_tested kats sample g; Some ([dest], g)
  | NewRng sample => g ← ensure_self_tested kats sample g; Some ([], mkGate (gt_once g) (S (gt_rngs g)))
  | FillBytes dest => Some (if decide (gt_rngs g = 0%nat) then [] else [dest], g)
  end.

Fixpoint rng_run (kats : result CryptoError unit) (ops : list RngOp) (g : Gate) : option (list bytes) :=
  match ops with
  | [] => Some []
  | op :: ops' => '(out, g) ← rng_op kats op g; (app out) <$> rng_run kats ops' g
  end.

Definition op_sample (op : RngOp) : option bytes :=
  match op with FillSecure sample _ | NewRng sample => Some sample | FillBytes _ => None end.

(** Randomness is handed out only in a process whose tests passed, on the block of the
    first request that ran them. *)
Lemma randomness_gated kats ops out : rng_run kats ops (mkGate false 0) = Some out -> out <> [] ->
  kats = Ok tt /\ exists sample, head (omap op_sample ops) = Some sample /\ run_health_tests sample = Ok tt.
Proof.
  revert out. induction ops as [|op ops IH]; cbn [rng_run]; intros out Hr Hn; [by injection Hr as <-|].
  destruct op as [sample dest|sample|dest]; cbn [rng_op] in Hr.
  3:{ cbn [gt_rngs] in Hr. rewrite decide_True in Hr by done. cbn [mbind option_bind] in Hr. apply fmap_Some in Hr as (o & Ho & ->).
      destruct (IH o Ho Hn) as (? & s & ? & ?). split; [done|]. by exists s. }
  all: unfold ensure_self_tested in Hr; cbn [gt_once] in Hr; destruct (self_test kats sample) as [[]|] eqn:Es; [|done];
    apply rbind_Ok in Es as ([] & -> & Hs); (split; [done|]); by exists sample.
Qed.

(** A stuck source is rejected whatever its byte; the proportion test alone lets a short
    sample of one byte pass. *)
Lemma stuck_rejected (b : byte) n : (RCT_CUTOFF <= n)%nat -> run_health_tests (replicate n b) <> Ok tt.
Proof.
  intros Hn H. unfold run_health_tests in H. apply rbind_Ok in H as ([] & Hr & _). apply rct_exact in Hr. apply Hr. exists [], b, (replicate (n - RCT_CUTOFF) b). cbn [app]. rewrite <- replicate_add. f_equal. lia.
Qed.
Lemma apt_short_window : adaptive_proportion_test (replicate 65 (byte_of 0)) = Ok tt.
Proof. vm_compute. reflexivity. Qed.
