(* ===== verification/Multi.v ===== *)
(** * Several networks at once (crates/transport/src/{multi,framing}.rs)

    A transport made of legs, one per network: dialling by the form of the address,
    hosting on every leg that comes up, one accept queue fed by a task per leg; and the
    length-prefixed frames the socket transports share.  The legs are a parameter, the
    record [Transport] of the trait's operations.  Proved: what a host advertises is, read
    back, the address of every leg that came up, and dialling it goes to the leg of its
    network; the fan-in neither loses, repeats nor reorders the connections of a leg;
    frames come back as written. *)

From S2P Require Import Prelude Wire Marking Invite.

(** ** Addresses *)

Inductive Scheme : Type := Nym | Onion | Tcp.
#[export] Instance scheme_eq_dec : EqDecision Scheme.
Proof. solve_decision. Defined.

Definition starts_with (p s : bytes) : bool := bool_decide (take (length p) s = p).
Fixpoint contains (p s : bytes) : bool :=
  starts_with p s || match s with [] => false | _ :: s' => contains p s' end.

Definition endpoint_scheme (ep : bytes) : Scheme :=
  if starts_with (bstr "nym:") ep then Nym else if contains (bstr ".onion") ep then Onion else Tcp.

Definition ENDPOINT_DELIM : byte := byte_of 32.

(** [str::split] at a one-byte character: the piece before the first delimiter and the rest. *)
Fixpoint split_at_delim (delim : byte) (s : bytes) : bytes * list bytes :=
  match s with
  | [] => ([], [])
  | b :: s' =>
      let (piece, pieces) := split_at_delim delim s' in
      if decide (b = delim) then ([], piece :: pieces) else (b :: piece, pieces)
  end.
Definition split_delim (delim : byte) (s : bytes) : list bytes := let (piece, pieces) := split_at_delim delim s in piece :: pieces.
Definition split_endpoints (advertised : bytes) : list bytes := filter (fun s => s <> []) (split_delim ENDPOINT_DELIM advertised).

(** [[String]::join] *)
Fixpoint join (sep : bytes) (l : list bytes) : bytes :=
  match l with
  | [] => []
  | [x] => x
  | x :: l' => x ++ sep ++ join sep l'
  end.

Definition first_of (scheme : Scheme) (endpoints : list bytes) : option bytes :=
  List.find (fun e => bool_decide (endpoint_scheme e = scheme)) endpoints.
Fixpoint select_endpoint (endpoints : list bytes) (prefs : list Scheme) : option bytes :=
  match prefs with
  | [] => head endpoints
  | pref :: prefs' => match first_of pref endpoints with Some ep => Some ep | None => select_endpoint endpoints prefs' end
  end.

Lemma split_app delim a s : delim ∉ a -> split_delim delim (a ++ delim :: s) = a :: split_delim delim s.
Proof.
  unfold split_delim. induction a as [|b a IH]; cbn [app split_at_delim]; intros Ha.
  - destruct (split_at_delim delim s). by rewrite decide_True.
  - apply not_elem_of_cons in Ha as [Hb Ha]. specialize (IH Ha). destruct (split_at_delim delim (a ++ delim :: s)) as [p ps].
    injection IH as -> ->. by rewrite decide_False by done.
Qed.

Lemma split_whole delim a : delim ∉ a -> split_delim delim a = [a].
Proof.
  unfold split_delim. induction a as [|b a IH]; cbn [split_at_delim]; intros Ha; [done|].
  apply not_elem_of_cons in Ha as [Hb Ha]. specialize (IH Ha). destruct (split_at_delim delim a). injection IH as -> ->. by rewrite decide_False by done.
Qed.

Lemma split_join delim l : l <> [] -> Forall (fun e => delim ∉ e) l -> split_delim delim (join [delim] l) = l.
Proof.
  intros Hn Hl. induction Hl as [|a [|b l] Ha Hl IH]; [done| |].
  - by apply split_whole.
  - change (join [delim] (a :: b :: l)) with (a ++ delim :: join [delim] (b :: l)). by rewrite split_app, IH.
Qed.

(** An address no leg could mistake: not empty, without the delimiter. *)
Definition endpoint_ok (e : bytes) : Prop := e <> [] /\ ENDPOINT_DELIM ∉ e.

Lemma endpoints_roundtrip l : l <> [] -> Forall endpoint_ok l -> split_endpoints (join [ENDPOINT_DELIM] l) = l.
Proof.
  intros Hn Hl. unfold split_endpoints. rewrite split_join; [|done|eapply Forall_impl; [exact Hl|]; by intros ? [_ ?]].
  clear Hn. induction Hl as [|a l [Ha _] _ IH]; [done|]. rewrite filter_cons, decide_True by done. by rewrite IH.
Qed.

Lemma find_first {A} (f : A -> bool) l x : List.find f l = Some x -> x ∈ l /\ f x = true.
Proof. intros H. apply List.find_some in H as [H ?]. split; [by apply list_elem_of_In|done]. Qed.

(** The choice is one of the addresses, and none of a better-ranked network is on offer:
    every earlier preference is of a network no address has. *)
Lemma select_best endpoints prefs ep : select_endpoint endpoints prefs = Some ep ->
  ep ∈ endpoints /\ exists better rest, prefs = better ++ rest /\ (rest = [] \/ head rest = Some (endpoint_scheme ep)) /\
    Forall (fun s => Forall (fun e => endpoint_scheme e <> s) endpoints) better.
Proof.
  induction prefs as [|s prefs IH]; cbn [select_endpoint]; intros H.
  - split; [by apply head_Some_elem_of|]. exists [], []. split_and!; [done|by left|constructor].
  - destruct (first_of s endpoints) as [e|] eqn:Ef.
    + injection H as ->. apply find_first in Ef as [Hin <-%bool_decide_eq_true]. split; [done|].
      exists [], (endpoint_scheme ep :: prefs). split_and!; [done|by right|constructor].
    + destruct (IH H) as [Hin (better & rest & -> & Hr & Hb)]. split; [done|]. exists (s :: better), rest. split_and!; [done|done|].
      constructor; [|done]. apply Forall_forall. intros e He Es. unfold first_of in Ef.
      pose proof (List.find_none _ _ Ef e (proj1 (list_elem_of_In _ _) He)) as Hf. by apply bool_decide_eq_false in Hf.
Qed.

(** ** The legs *)

Inductive TransportStatus : Type :=
| Ready
| Bootstrapping (percent : Z) (phase : bytes)
| Online (endpoint : bytes)
| Offline (reason : bytes).

Section Legs.
(** The operations of a transport; [S]: its streams. *)
Context {S : Type}.
Record Transport : Type := mkTransport {
  tr_listen : result TransportError bytes;  (** the endpoint of the listener *)
  tr_dial : bytes -> result TransportError S;
  tr_status : TransportStatus;
  tr_local : bytes }.

Definition MultiTransport : Type := list (Scheme * Transport).
Definition mt_with (scheme : Scheme) (transport : Transport) (m : MultiTransport) : MultiTransport := m ++ [(scheme, transport)].
Definition mt_is_empty (m : MultiTransport) : bool := bool_decide (m = []) .
Definition mt_len (m : MultiTransport) : nat := length m.
Definition leg_for (scheme : Scheme) (m : MultiTransport) : option Transport :=
  snd <$> List.find (fun l => bool_decide (l.1 = scheme)) m.

(** The endpoints of the legs that came up, and the last error. *)
Fixpoint listen_legs (m : MultiTransport) (endpoints : list bytes) (last_err : option TransportError) : list bytes * option TransportError :=
  match m with
  | [] => (endpoints, last_err)
  | leg :: m' =>
      match tr_listen leg.2 with
      | Ok ep => listen_legs m' (endpoints ++ [ep]) last_err
      | Err e => listen_legs m' endpoints (Some e)
      end
  end.
Definition mt_listen (m : MultiTransport) : result TransportError bytes :=
  if decide (length m = 0%nat) then Err (Io (bstr "multi-transport has no legs"))
  else
    let (endpoints, last_err) := listen_legs m [] None in
    if decide (endpoints = []) then Err (default (Io (bstr "no transport leg could host")) last_err)
    else Ok (join [ENDPOINT_DELIM] endpoints).

(** [{scheme:?}] *)
Definition scheme_debug (s : Scheme) : bytes := bstr match s with Nym => "Nym" | Onion => "Onion" | Tcp => "Tcp" end.
Definition mt_dial (endpoint : bytes) (m : MultiTransport) : result TransportError S :=
  let scheme := endpoint_scheme endpoint in
  match leg_for scheme m with
  | None => Err (Io (bstr "no " ++ scheme_debug scheme ++ bstr " transport leg available to dial " ++ endpoint))
  | Some leg => tr_dial leg endpoint
  end.

Fixpoint first_online (m : MultiTransport) : option TransportStatus :=
  match m with
  | [] => None
  | leg :: m' => match tr_status leg.2 with Online ep => Some (Online ep) | _ => first_online m' end
  end.
Definition mt_status (m : MultiTransport) : TransportStatus :=
  match first_online m with
  | Some s => s
  | None => default (Offline (bstr "no transport legs")) ((fun leg => tr_status leg.2) <$> head m)
  end.
Definition mt_local_endpoint (m : MultiTransport) : bytes := default [] ((fun leg => tr_local leg.2) <$> head m).

Definition up (m : MultiTransport) : list bytes := omap (fun leg => to_option (tr_listen leg.2)) m.

Lemma listen_legs_up m eps e : (listen_legs m eps e).1 = eps ++ up m.
Proof.
  revert eps e. induction m as [|leg m IH]; intros eps e; cbn [listen_legs]; [by rewrite app_nil_r|]. unfold up. cbn [omap list_omap].
  destruct (tr_listen leg.2); cbn [to_option]; rewrite IH; [|done]. by rewrite <- app_assoc.
Qed.

(** A host that can be reached on some network is advertised on all of these and only
    these, in the order of its legs. *)
Lemma listen_advertises m ep : Forall endpoint_ok (up m) -> mt_listen m = Ok ep -> split_endpoints ep = up m /\ up m <> [].
Proof.
  intros Hok. unfold mt_listen. case_decide; [done|]. pose proof (listen_legs_up m [] None) as Hl. destruct (listen_legs m [] None) as [eps e].
  cbn [fst app] in Hl. subst. case_decide as Hn; [done|]. intros [= <-]. split; [by apply endpoints_roundtrip|done].
Qed.
Lemma listen_survives m : up m <> [] -> exists ep, mt_listen m = Ok ep.
Proof.
  intros Hu. unfold mt_listen. case_decide as Hm; [destruct m; done|]. pose proof (listen_legs_up m [] None) as Hl. destruct (listen_legs m [] None) as [eps e].
  cbn [fst app] in Hl. subst. rewrite decide_False by done. eauto.
Qed.

(** Dialling goes to the first leg of the address's network, with the address as it is. *)
Lemma dial_routes m pre leg post endpoint :
  m = pre ++ (endpoint_scheme endpoint, leg) :: post -> Forall (fun l => l.1 <> endpoint_scheme endpoint) pre ->
  mt_dial endpoint m = tr_dial leg endpoint.
Proof.
  intros -> Hp. unfold mt_dial, leg_for. assert (List.find (fun l => bool_decide (l.1 = endpoint_scheme endpoint)) (pre ++ (endpoint_scheme endpoint, leg) :: post) = Some (endpoint_scheme endpoint, leg)) as ->; [|done].
  induction Hp as [|l pre Hl _ IH]; cbn; [by rewrite bool_decide_true|]. by rewrite bool_decide_false.
Qed.
End Legs.
Arguments Transport : clear implicits.

(** ** The fan-in *)

Section FanIn.
Context {S : Type}.

(** A task per leg holds the stream it accepted until there is room in the channel.
    Ghost: what each leg accepted, and what the listener returned, with their legs. *)
Record Fan : Type := mkFan { fn_held : gmap nat S; fn_queue : list (nat * S); fn_in : list (nat * S); fn_out : list (nat * S) }.

Inductive FanStep : Type :=
| FAccept (leg : nat) (s : S)  (** the leg's listener accepts *)
| FSend (leg : nat)            (** its task gets a slot in the channel *)
| FRecv.                       (** [MultiListener::accept] *)

Definition fan_step (a : FanStep) (f : Fan) : option Fan :=
  match a with
  | FAccept leg s =>
      match fn_held f !! leg with
      | Some _ => None
      | None => Some (mkFan (<[leg := s]> (fn_held f)) (fn_queue f) (fn_in f ++ [(leg, s)]) (fn_out f))
      end
  | FSend leg =>
      if decide (256 <= length (fn_queue f))%nat then None
      else match fn_held f !! leg with
      | None => None
      | Some s => Some (mkFan (delete leg (fn_held f)) (fn_queue f ++ [(leg, s)]) (fn_in f) (fn_out f))
      end
  | FRecv =>
      match fn_queue f with
      | [] => None
      | x :: queue => Some (mkFan (fn_held f) queue (fn_in f) (fn_out f ++ [x]))
      end
  end.
Fixpoint fan_run (acts : list FanStep) (f : Fan) : option Fan :=
  match acts with [] => Some f | a :: acts' => fan_step a f ≫= fan_run acts' end.
Definition fan_new : Fan := mkFan ∅ [] [] [].

(** The streams of one leg. *)
Definition of_leg (leg : nat) (l : list (nat * S)) : list S := omap (fun x => if decide (x.1 = leg) then Some x.2 else None) l.

Definition fan_inv (f : Fan) : Prop :=
  (length (fn_queue f) <= 256)%nat /\
  forall leg, of_leg leg (fn_in f) = of_leg leg (fn_out f) ++ of_leg leg (fn_queue f) ++ option_list (fn_held f !! leg).

Lemma of_leg_app leg a b : of_leg leg (a ++ b) = of_leg leg a ++ of_leg leg b.
Proof. apply omap_app. Qed.
Lemma of_leg_one leg x s : of_leg leg [(x, s)] = if decide (x = leg) then [s] else [].
Proof. unfold of_leg. cbn. by case_decide. Qed.

Lemma fan_step_inv a f f' : fan_inv f -> fan_step a f = Some f' -> fan_inv f'.
Proof.
  intros [Hl Hi] Hs. destruct a as [leg s|leg|]; cbn [fan_step] in Hs.
  - destruct (fn_held f !! leg) eqn:Eh; [done|]. injection Hs as <-. split; [done|]. intros k. cbn [fn_in fn_out fn_queue fn_held].
    rewrite of_leg_app, of_leg_one, Hi. case_decide as Hk; [subst k; by rewrite lookup_insert_eq, Eh, !app_nil_r, app_assoc|].
    by rewrite lookup_insert_ne, app_nil_r.
  - case_decide as Hf; [done|]. destruct (fn_held f !! leg) as [s|] eqn:Eh; [|done]. injection Hs as <-.
    split; [cbn; rewrite length_app; cbn; lia|]. intros k. cbn [fn_in fn_out fn_queue fn_held].
    rewrite of_leg_app, of_leg_one, Hi. case_decide as Hk; [subst k; by rewrite lookup_delete_eq, Eh, app_nil_r|].
    by rewrite lookup_delete_ne, app_nil_r.
  - destruct (fn_queue f) as [|[x s] q] eqn:Eq; [done|]. injection Hs as <-. split; [cbn in *; lia|]. intros k. cbn [fn_in fn_out fn_queue fn_held].
    rewrite Hi, of_leg_app. rewrite <- !app_assoc. f_equal. change ((x, s) :: q) with ([(x, s)] ++ q). by rewrite of_leg_app, <- app_assoc.
Qed.

(** However the tasks interleave, the connections of a leg come out as that leg accepted
    them: in order, none twice, none lost beyond those still queued (at most 256) or in
    the task's hands. *)
Lemma fan_in_keeps acts f : fan_run acts fan_new = Some f ->
  forall leg, of_leg leg (fn_out f) `prefix_of` of_leg leg (fn_in f) /\
    (fn_queue f = [] -> fn_held f !! leg = None -> of_leg leg (fn_out f) = of_leg leg (fn_in f)).
Proof.
  intros Hr. assert (fan_inv f) as [_ Hi].
  { assert (fan_inv fan_new) as H0 by (split; [cbn; lia|done]). revert H0 Hr. generalize fan_new as g.
    induction acts as [|a acts IH]; cbn [fan_run]; intros g Hg Hr; [by injection Hr as <-|].
    apply bind_Some in Hr as (g' & Hs & Hr). by eapply IH; [eapply fan_step_inv|]. }
  intros leg. rewrite Hi. split; [by eexists|]. intros -> ->. cbn. by rewrite app_nil_r.
Qed.
End FanIn.

(** ** Frames on a byte stream (framing.rs) *)

Definition net_write_frame (frame stream : bytes) : result TransportError bytes :=
  if decide (zlen frame > MAX_FRAME) then Err (Io (bstr "frame exceeds MAX_FRAME"))
  else Ok (stream ++ be_bytes 4 (u32_wrap (zlen frame)) ++ frame).

(** On what arrives before the peer closes. *)
Definition net_read_frame (stream : bytes) : result TransportError (bytes * bytes) :=
  if decide (length stream < 4)%nat then Err Closed
  else
    let len := be_val (take 4 stream) in
    if decide (len > MAX_FRAME) then Err (Io (bstr "frame exceeds MAX_FRAME"))
    else
      let rest := drop 4 stream in
      if decide (zlen rest < len) then Err Closed else Ok (take (Z.to_nat len) rest, drop (Z.to_nat len) rest).

Lemma net_frame_roundtrip frame rest s : net_write_frame frame [] = Ok s -> net_read_frame (s ++ rest) = Ok (frame, rest).
Proof.
  unfold net_write_frame. case_decide as Hb; [done|]. intros [= <-]. cbn [app]. unfold net_read_frame.
  rewrite be_bytes_4_wrap, <- app_assoc. rewrite decide_False by (rewrite length_app, length_be_bytes; lia).
  rewrite take_app_length', drop_app_length' by (by rewrite length_be_bytes). pose proof (zlen_nonneg frame). unfold MAX_FRAME in *.
  rewrite be_val_bytes, Z.mod_small by (change (256 ^ Z.of_nat 4) with (2 ^ 32); lia). rewrite decide_False by lia.
  rewrite decide_False by (rewrite zlen_app; pose proof (zlen_nonneg rest); lia).
  unfold zlen at 1 2. rewrite Nat2Z.id. by rewrite take_app_length, drop_app_length.
Qed.
