(* ===== verification/Console.v ===== *)
(** * Console commands (crates/replcmd/src/lib.rs, contacts file of crates/cli/src/main.rs)

    The slash commands the front ends share that change contacts, access and vouches,
    with the lines they print, and the files they keep: the account seed and the contact
    list.  A command's effect is a function on the node's state [People]; what it writes
    to the contact file is part of its result.  [str::to_lowercase] is a parameter.
    Proved: commands that name an account by a fingerprint prefix act on the one seen
    account it fits or on none; contact list and seed survive their files. *)

From stdpp Require Import pretty.
From S2P Require Import Prelude Wire Crypto Codec Account Marking Engine Contacts Vouch Store Invite Multi People.

(** ** Hexadecimal text *)

Definition hex48 (fp : bytes) : bytes := hex fp.
Definition short_fp (fp : bytes) : bytes := hex (take 6 fp).

(** [u8::from_str_radix(s, 16)] on two bytes: a leading plus sign is accepted. *)
Definition u8_from_hex (a b : byte) : option Z :=
  if decide (bval a = 43) then to_digit16 b else h ← to_digit16 a; l ← to_digit16 b; Some (h * 16 + l).
(** The loops over [s[i * 2..i * 2 + 2]] on text of even length. *)
Fixpoint hex_pairs (s : bytes) : option bytes :=
  match s with
  | a :: b :: s' => v ← u8_from_hex a b; r ← hex_pairs s'; Some (byte_of v :: r)
  | _ => Some []
  end.
Definition is_ascii_hexdigit (b : byte) : bool := bool_decide (is_Some (to_digit16 b)).

(** Hex digits are ASCII, so the slices are on character boundaries. *)
Definition parse_fp96 (s : bytes) : option bytes :=
  let s := trim s in
  if decide (length s <> 96%nat \/ forallb is_ascii_hexdigit s = false) then None else hex_pairs s.
Definition parse_seed_hex (s : bytes) : result bytes bytes :=
  let s := trim s in
  if decide (length s <> 64%nat \/ forallb is_ascii_hexdigit s = false)
  then Err (bstr "account key must be 64 hex characters (32-byte seed)")
  else ok_or (hex_pairs s) (bstr "invalid digit found in string").
(** What [save_account] writes. *)
Definition account_text {P : Primitives} (kp : IdentityKeyPair) : bytes := hex (id_export_secret kp).
(** [load_account] on the contents of the file. *)
Definition load_account {P : Primitives} (contents : bytes) : result bytes IdentityKeyPair :=
  let* seed := parse_seed_hex contents in Ok (id_from_secret_bytes seed).

Definition parse_hex_bytes (s : bytes) : option bytes :=
  let s := trim s in
  if decide (s = [] \/ (length s mod 2 <> 0)%nat \/ forallb is_ascii_hexdigit s = false) then None else hex_pairs s.

(** ** The contact file *)

Definition TAB : byte := byte_of 9.
Definition NL : byte := byte_of 10.
Definition CR : byte := byte_of 13.

(** [splitn(2, delim)]: up to the first delimiter, and what follows it. *)
Fixpoint split_once (delim : byte) (s : bytes) : bytes * option bytes :=
  match s with
  | [] => ([], None)
  | b :: s' => if decide (b = delim) then ([], Some s') else let (piece, rest) := split_once delim s' in (b :: piece, rest)
  end.

Definition contact_line (c : Contact) : bytes :=
  hex (sig_vk (co_account c)) ++ [TAB] ++ bstr (if co_friend c then "1" else "0") ++ [TAB] ++ default [] (co_name c).
(** What [save_contacts] writes. *)
Definition contacts_text (s : ContactStore) : bytes := mjoin ((fun c => contact_line c ++ [NL]) <$> s).

Definition strip_cr (l : bytes) : bytes := if decide (last l = Some CR) then take (length l - 1) l else l.
(** [str::lines]: a line feed ends a line, with the carriage return before it. *)
Fixpoint lines_of (pieces : list bytes) : list bytes :=
  match pieces with
  | [] => []
  | [last] => if decide (last = []) then [] else [last]
  | p :: pieces' => strip_cr p :: lines_of pieces'
  end.
Definition text_lines (s : bytes) : list bytes := lines_of (split_delim NL s).

Section Load.
Context (sha3_384 : bytes -> bytes).

Definition load_line (s : ContactStore) (line : bytes) : ContactStore :=
  match split_once TAB line with
  | (_, None) => s
  | (key, Some rest) =>
      let (flag, name) := split_once TAB rest in
      match parse_hex_bytes key with
      | None => s
      | Some pk =>
          let name := match name with Some n => if decide (n = []) then None else Some n | None => None end in
          store_add sha3_384 (mkIdentityPublic pk) name (bool_decide (flag = bstr "1")) s
      end
  end.
(** [load_contacts] on the contents of the file. *)
Definition load_contacts (text : bytes) (s : ContactStore) : ContactStore := foldl load_line s (text_lines text).
End Load.

(** ** Lemmas on hexadecimal text *)

(** No white space starts or ends with a hex digit. *)
Lemma hex_kept ws c text : (ws = WHITE_SPACE \/ ws = reverse <$> WHITE_SPACE) -> is_ascii_hexdigit c = true ->
  Forall (fun w => strip_prefix w (c :: text) = None) ws.
Proof.
  intros Hws Hc. assert (Forall (fun w => exists h w', w = h :: w' /\ is_ascii_hexdigit h = false) ws) as Hf.
  { assert (forall ws, forallb (fun w : bytes => match w with h :: _ => negb (is_ascii_hexdigit h) | [] => false end) ws = true ->
      Forall (fun w => exists h w', w = h :: w' /\ is_ascii_hexdigit h = false) ws) as H.
    { intros l Hl. apply Forall_forall. intros w Hw. rewrite forallb_forall in Hl. apply list_elem_of_In in Hw.
      specialize (Hl w Hw). destruct w as [|h w]; [done|]. apply negb_true_iff in Hl. eauto. }
    destruct Hws as [->| ->]; apply H; by vm_compute. }
  eapply Forall_impl; [exact Hf|]. intros w (h & w' & -> & Hh). destruct (strip_prefix _ _) eqn:E; [|done].
  apply strip_prefix_Some in E. injection E as -> _. congruence.
Qed.

Lemma trim_hex s : forallb is_ascii_hexdigit s = true -> trim s = s.
Proof.
  intros Hs. rewrite forallb_forall in Hs. destruct white_space_free as [Hf Hf'].
  assert (forall ws t, (ws = WHITE_SPACE \/ ws = reverse <$> WHITE_SPACE) -> prefix_free ws -> (forall c, c ∈ t -> c ∈ s) -> trim_with (length t) ws t = t) as H.
  { intros ws t Hws Hp Ht. destruct t as [|c t]; [done|]. apply (trim_with_spec ws [] (c :: t)); [done|constructor|cbn; lia|].
    apply hex_kept; [done|]. apply Hs, list_elem_of_In, Ht. left. }
  unfold trim. rewrite (H WHITE_SPACE s) by auto. replace (length s) with (length (reverse s)) by apply length_reverse.
  rewrite (H _ (reverse s)); [apply reverse_involutive|by right|done|]. intros c Hc. by apply elem_of_reverse.
Qed.

Lemma hex_digit_hex n : 0 <= n < 16 -> is_ascii_hexdigit (hex_digit n) = true /\ bval (hex_digit n) <> 43 /\ hex_digit n <> TAB /\ hex_digit n <> NL.
Proof.
  intros Hn. destruct (hex_digit_inv n Hn) as [Hd _]. unfold is_ascii_hexdigit. rewrite Hd. split; [done|]. clear Hd.
  assert (48 <= bval (hex_digit n)) as Hb.
  { unfold hex_digit. rewrite bval_byte_of. case_decide; rewrite Z.mod_small by lia; lia. }
  split_and!; [|intros E; rewrite E in Hb; by vm_compute in Hb..].
  unfold hex_digit. rewrite bval_byte_of. case_decide; rewrite Z.mod_small by lia; lia.
Qed.

Lemma hex_cons x b : hex (x :: b) = hex_digit (bval x / 16) :: hex_digit (bval x mod 16) :: hex b.
Proof. done. Qed.
Lemma nibbles x : 0 <= bval x / 16 < 16 /\ 0 <= bval x mod 16 < 16.
Proof. pose proof (bval_range x). split; [split; [apply Z.div_pos|apply Z.div_lt_upper_bound]; lia|apply Z.mod_pos_bound; lia]. Qed.

Lemma hex_text b : forallb is_ascii_hexdigit (hex b) = true /\ hex_pairs (hex b) = Some b /\ TAB ∉ hex b /\ NL ∉ hex b.
Proof.
  induction b as [|x b (H1 & H2 & H3 & H4)]; [split_and!; try done; apply not_elem_of_nil|]. rewrite hex_cons. destruct (nibbles x) as [Hh Hl].
  destruct (hex_digit_hex _ Hh) as (A1 & A2 & A3 & A4). destruct (hex_digit_hex _ Hl) as (B1 & B2 & B3 & B4). split_and!.
  - cbn. by rewrite A1, B1, H1.
  - cbn [hex_pairs]. unfold u8_from_hex. rewrite decide_False by done.
    rewrite (proj1 (hex_digit_inv _ Hh)), (proj1 (hex_digit_inv _ Hl)). cbn [mbind option_bind]. rewrite H2. cbn [mbind option_bind].
    rewrite (Z.mul_comm _ 16), <- Z.div_mod by lia. by rewrite byte_of_bval.
  - rewrite !not_elem_of_cons. by split_and!.
  - rewrite !not_elem_of_cons. by split_and!.
Qed.

(** A fingerprint as printed is read back, and an account's seed file gives the account. *)
Lemma fp96_roundtrip fp : length fp = 48%nat -> parse_fp96 (hex48 fp) = Some fp.
Proof.
  intros Hl. destruct (hex_text fp) as (H1 & H2 & _). unfold parse_fp96, hex48. rewrite trim_hex by done.
  rewrite decide_False; [done|]. rewrite length_hex, H1. intros [?|?]; [lia|done].
Qed.
Lemma account_roundtrip {P : Primitives} seed : length seed = 32%nat ->
  load_account (account_text (id_from_secret_bytes seed)) = Ok (id_from_secret_bytes seed).
Proof.
  intros Hl. destruct (hex_text seed) as (H1 & H2 & _). unfold load_account, account_text, parse_seed_hex. cbn [id_export_secret id_from_secret_bytes sig_seed].
  rewrite trim_hex by done. rewrite decide_False; [by rewrite H2|]. rewrite length_hex, H1. intros [?|?]; [lia|done].
Qed.

Lemma parse_hex_text b : b <> [] -> parse_hex_bytes (hex b) = Some b.
Proof.
  intros Hb. destruct (hex_text b) as (H1 & H2 & _). unfold parse_hex_bytes. rewrite trim_hex by done. rewrite decide_False; [done|].
  rewrite length_hex, H1. intros [Hn|[Hm|?]]; [|rewrite Nat.mul_comm, Nat.Div0.mod_mul in Hm; done|done]. destruct b; [done|]. by rewrite hex_cons in Hn.
Qed.

(** ** The contact list survives its file *)

Ltac evaluates := refine (bool_decide_unpack _ _); vm_compute; exact I.

Lemma split_once_app delim a s : delim ∉ a -> split_once delim (a ++ delim :: s) = (a, Some s).
Proof.
  induction a as [|b a IH]; cbn [app split_once]; intros Ha; [by rewrite decide_True|]. apply not_elem_of_cons in Ha as [Hb Ha].
  rewrite decide_False by done. by rewrite IH.
Qed.

(** What a name in the list may not have: a line break, or a carriage return at its end;
    the empty name is read back as none. *)
Definition name_ok (n : option bytes) : Prop := match n with Some n => n <> [] /\ NL ∉ n /\ last n <> Some CR | None => True end.
Definition contact_ok (c : Contact) : Prop := sig_vk (co_account c) <> [] /\ name_ok (co_name c).

Lemma contact_line_clean c : contact_ok c -> NL ∉ contact_line c /\ strip_cr (contact_line c) = contact_line c.
Proof.
  intros [_ Hn]. destruct (hex_text (sig_vk (co_account c))) as (_ & _ & _ & Hh). unfold contact_line. split.
  - rewrite !not_elem_of_app. split_and!; [done|evaluates|destruct (co_friend c); evaluates|evaluates|].
    destruct (co_name c); [by destruct Hn as (_ & ? & _)|apply not_elem_of_nil].
  - unfold strip_cr. rewrite decide_False; [done|]. rewrite !app_assoc. destruct (co_name c) as [n|]; cbn [default].
    + change (id n) with n. destruct Hn as (Hn & _ & Hl). rewrite last_app. destruct (last n) as [x|] eqn:E; [done|]. apply last_None in E. by destruct Hn.
    + rewrite app_nil_r, last_snoc. by vm_compute.
Qed.

Lemma text_lines_contacts s : Forall contact_ok s -> text_lines (contacts_text s) = contact_line <$> s.
Proof.
  unfold text_lines, contacts_text. induction 1 as [|c s Hc Hs IH]; [done|]. destruct (contact_line_clean c Hc) as [Hn Hcr].
  cbn [fmap list_fmap]. change (mjoin ((contact_line c ++ [NL]) :: ?l)) with ((contact_line c ++ [NL]) ++ mjoin l).
  rewrite <- app_assoc. cbn [app]. rewrite split_app by done.
  destruct (split_delim NL (mjoin ((fun c => contact_line c ++ [NL]) <$> s))) as [|p ps] eqn:E.
  { unfold split_delim in E. by destruct (split_at_delim _ _). }
  rewrite <- IH. cbn [lines_of]. by rewrite Hcr.
Qed.

Lemma load_line_contact sha3_384 (s : ContactStore) c : contact_ok c ->
  load_line sha3_384 s (contact_line c) = store_add sha3_384 (co_account c) (co_name c) (co_friend c) s.
Proof.
  intros [Hk Hn]. destruct (hex_text (sig_vk (co_account c))) as (_ & _ & Ht & _). unfold load_line, contact_line. cbn [app].
  rewrite split_once_app by done. rewrite (split_once_app TAB (bstr _)) by (destruct (co_friend c); evaluates).
  rewrite parse_hex_text by done. destruct (co_account c) as [vk]. cbn [sig_vk]. f_equal.
  - destruct (co_name c) as [n|]; cbn [default]; [|done]. destruct Hn as (Hn & _). by rewrite decide_False by done.
  - by destruct (co_friend c); vm_compute.
Qed.

Lemma update_first_None f a s : a ∉ (co_account <$> s) -> update_first f a s = None.
Proof.
  induction s as [|c s IH]; [done|]. cbn. rewrite not_elem_of_cons. intros [Ha Hs]. rewrite decide_False by done. by rewrite IH.
Qed.

(** The contact list survives a restart: what [save_contacts] writes, [load_contacts]
    reads back as the same list, with every account, name and friend label in place,
    for names without line breaks. *)
Lemma contacts_survive (sha3_384 : bytes -> bytes) (s : ContactStore) :
  store_wf sha3_384 s -> Forall contact_ok s -> load_contacts sha3_384 (contacts_text s) [] = s.
Proof.
  intros [Hd Hw] Hok. unfold load_contacts. rewrite text_lines_contacts by done.
  enough (forall t, NoDup (co_account <$> t ++ s) -> foldl (load_line sha3_384) t (contact_line <$> s) = t ++ s) as H by (by apply (H [])).
  clear Hd. revert Hw Hok. induction s as [|c s IH]; intros Hw Hok t Hd; [by rewrite app_nil_r|].
  apply Forall_cons in Hw as [Hfp Hw]. apply Forall_cons in Hok as [Hc Hok]. cbn [fmap list_fmap foldl]. rewrite load_line_contact by done.
  unfold store_add. rewrite update_first_None.
  - destruct c as [a f n fr]. cbn [co_account co_fingerprint co_name co_friend] in *. subst f. rewrite IH; [by rewrite <- app_assoc|done|done|].
    by rewrite <- app_assoc.
  - rewrite fmap_app in Hd. apply NoDup_app in Hd as (_ & Hd & _). intros Hin. apply (Hd _ Hin). left.
Qed.

Definition contacts_demo : ContactStore :=
  (fun x => mkContact (mkIdentityPublic (bstr x.1)) (bstr x.1) (bstr <$> x.2.1) x.2.2) <$>
  [("alice", (Some "Alice A.", true)); ("bob", (None, false))]%string.

Lemma contacts_demo_survive :
  load_contacts (fun b => b) (contacts_text contacts_demo) [] = contacts_demo /\ length contacts_demo = 2%nat.
Proof.
  split; [|reflexivity]. apply (contacts_survive (fun b => b) contacts_demo).
  - split; [evaluates|]. repeat (apply Forall_cons; split); [by vm_compute..|apply Forall_nil_2].
  - repeat (apply Forall_cons; split); [split; [done|split_and!; [done|evaluates|evaluates]]|by split|apply Forall_nil_2].
Qed.

(** A line break in a name smuggles in another contact, here as a friend. *)
Lemma name_line_break :
  let mallory := mkContact (mkIdentityPublic (bstr "m")) (bstr "m") (Some (bstr "x" ++ [NL] ++ bstr "65" ++ [TAB] ++ bstr "1" ++ [TAB] ++ bstr "eve")) false in
  is_friend (load_contacts (fun b => b) (contacts_text [mallory]) []) (mkIdentityPublic (bstr "e")) = true.
Proof. vm_compute. reflexivity. Qed.

(** ** Commands *)

Section Commands.
Context {P : Primitives} (sha256 sha3_384 : bytes -> bytes) (to_lowercase : bytes -> bytes).

Definition num (n : nat) : bytes := bstr (pretty n).
Definition SPACE : byte := byte_of 32.
Definition seen_account_fingerprints (s : People) : list bytes := (map_to_list (pe_seen_accounts s)).*1.

Definition resolve_seen (prefix : bytes) (s : People) : option bytes * list bytes :=
  let prefix := to_lowercase prefix in
  if decide (prefix = []) then (None, [bstr "give an account fingerprint prefix"])
  else match filter (fun fp => starts_with prefix (hex48 fp) = true) (seen_account_fingerprints s) with
  | [] => (None, [bstr "no account seen this session matches '" ++ prefix ++ bstr "' (wait for them to present, then retry)"])
  | [fp] => (Some fp, [])
  | matches => (None, [bstr "'" ++ prefix ++ bstr "' is ambiguous (" ++ num (length matches) ++ bstr " matches) — use more characters"])
  end.

(** [/allow] and [/deny] *)
Definition cmd_access (arg : bytes) (allow : bool) (s : People) : list bytes * People :=
  match resolve_seen (split_once SPACE arg).1 s with
  | (None, out) => (out, s)
  | (Some fp, out) =>
      if allow then
        (out ++ [bstr "granted access to " ++ short_fp fp ++ bstr " (this channel is now restricted to allowed accounts)"], allow_account fp s)
      else (out ++ [bstr "revoked access for " ++ short_fp fp], deny_account fp s)
  end.

(** [/access] *)
Definition cmd_access_mode (arg : bytes) (s : People) : list bytes * People :=
  let a := trim arg in
  if decide (a = bstr "open") then ([bstr "access: open (anyone with the invite)"], set_access AOpen s)
  else if decide (a = bstr "contacts") then ([bstr "access: contacts only (recognized contacts admitted)"], set_access AContacts s)
  else if decide (a = bstr "friends") then ([bstr "access: friends only (contacts labeled friend admitted)"], set_access AFriends s)
  else ([bstr "usage: /access open | contacts | friends   (also: /allow <fp>, host --require-registry)"], s).

Definition list_line (c : Contact) : bytes :=
  bstr "  " ++ short_fp (co_fingerprint c) ++ bstr "  " ++ default (bstr "<no name>") (co_name c) ++ (if co_friend c then bstr " [friend]" else []).

(** [/contact], with [/contacts], [/friend] and [/unfriend]: the lines, the contents given to
    the contact file, and the state. *)
Definition cmd_contact (arg : bytes) (s : People) : list bytes * option bytes * People :=
  let (sub, rest) := split_once SPACE arg in
  let rest := trim (default [] rest) in
  if decide (sub = bstr "list" \/ sub = []) then
    let contacts := pe_contacts s in
    if decide (contacts = []) then ([bstr "no contacts yet"], None, s)
    else ((bstr "contacts (" ++ num (length contacts) ++ bstr "):") :: (list_line <$> contacts), None, s)
  else if decide (sub = bstr "add" \/ sub = bstr "trust") then
    let (prefix, name) := split_once SPACE rest in
    let name := match name with Some n => let n := trim n in if decide (n = []) then None else Some n | None => None end in
    match resolve_seen prefix s with
    | (None, out) => (out, None, s)
    | (Some fp, out) =>
        let (added, s) := add_seen_contact sha3_384 fp name false s in
        if added then (out ++ [bstr "added contact " ++ short_fp fp ++ bstr " " ++ default [] name], Some (contacts_text (pe_contacts s)), s)
        else (out ++ [bstr "! could not add (account no longer known)"], None, s)
    end
  else if decide (sub = bstr "friend" \/ sub = bstr "unfriend") then
    let make_friend := bool_decide (sub = bstr "friend") in
    match resolve_seen (split_once SPACE rest).1 s with
    | (None, out) => (out, None, s)
    | (Some fp, out) =>
        match pe_seen_accounts s !! fp with
        | None => (out ++ [bstr "! account no longer known"], None, s)
        | Some acct =>
            let s := if is_contact (pe_contacts s) acct then (set_friend acct make_friend s).2
                     else (add_seen_contact sha3_384 fp None make_friend s).2 in
            (out ++ [bstr (if make_friend then "labeled friend" else "unlabeled friend") ++ bstr " " ++ short_fp fp],
             Some (contacts_text (pe_contacts s)), s)
        end
    end
  else ([bstr "usage: /contact add <fp> [name] | list | friend <fp> | unfriend <fp>"], None, s).

(** [/vouch] and [/unvouch].  The scan slices the text, which panics where a slice does
    not end between characters: [None]. *)
Definition boundary (rest : bytes) (k : nat) : bool := match rest !! k with Some b => negb (cont b) | None => true end.
Fixpoint vouch_scan (n : nat) (rest : bytes) : option (option bytes) :=
  match n with
  | O => Some (Some [])
  | S n' =>
      if negb (boundary rest 0 && boundary rest 2) then None
      else match rest with
      | a :: b :: rest' =>
          match u8_from_hex a b with
          | None => Some None
          | Some v => r ← vouch_scan n' rest'; Some (option_map (cons (byte_of v)) r)
          end
      | _ => Some None
      end
  end.
Definition cmd_vouch (now : Z) (arg : bytes) (on : bool) (s : People) : option (list bytes * People) :=
  let fp_hex := trim arg in
  fp ← (if decide (length fp_hex <> 96%nat) then Some None else vouch_scan 48 fp_hex);
  match fp with
  | None => Some ([bstr "usage: /" ++ bstr (if on then "vouch" else "unvouch") ++ bstr " <96-char-hex-account-fp>"], s)
  | Some fp =>
      let target := TAccount fp in
      Some (if on then ([bstr "vouched for " ++ take 8 fp_hex], vouch_for sha256 now target s)
            else ([bstr "withdrew vouch for " ++ take 8 fp_hex], revoke_vouch sha256 now target s))
  end.

(** ** What the commands act on *)

(** The account a prefix stands for: seen, and no other seen account fits. *)
Definition names_one (prefix fp : bytes) (s : People) : Prop :=
  is_Some (pe_seen_accounts s !! fp) /\ starts_with (to_lowercase prefix) (hex48 fp) = true /\
  forall fp', is_Some (pe_seen_accounts s !! fp') -> starts_with (to_lowercase prefix) (hex48 fp') = true -> fp' = fp.

Lemma seen_fingerprints fp s : fp ∈ seen_account_fingerprints s <-> is_Some (pe_seen_accounts s !! fp).
Proof.
  unfold seen_account_fingerprints. rewrite list_elem_of_fmap. split.
  - intros ([k a] & -> & H%elem_of_map_to_list). eauto.
  - intros [a Ha]. exists (fp, a). split; [done|]. by apply elem_of_map_to_list.
Qed.

Lemma resolve_exact prefix s fp out : resolve_seen prefix s = (Some fp, out) -> out = [] /\ names_one prefix fp s.
Proof.
  unfold resolve_seen. case_decide as Hne; [done|]. destruct (filter _ _) as [|x [|y l]] eqn:E; [done| |done]. intros [= -> <-]. split; [done|].
  assert (forall x, x ∈ filter (fun fp => starts_with (to_lowercase prefix) (hex48 fp) = true) (seen_account_fingerprints s) <-> x = fp) as H.
  { intros x. rewrite E. apply list_elem_of_singleton. }
  assert (Hin := proj2 (H fp) eq_refl). apply list_elem_of_filter in Hin as [Hp Hin%seen_fingerprints]. split_and!; [done|done|].
  intros fp' Hs Hp'. apply H, list_elem_of_filter. split; [done|]. by apply seen_fingerprints.
Qed.

Lemma resolve_failed prefix s out : resolve_seen prefix s = (None, out) -> length out = 1%nat.
Proof. unfold resolve_seen. repeat case_match; intros; simplify_eq; done. Qed.

(** [/allow] and [/deny] change the access of the one account the prefix stands for and
    of nobody else on an allow list; a prefix that fits no or several seen accounts
    changes nothing and is reported. *)
Lemma access_targeted (arg : bytes) (allow : bool) (s : People) (fps : gset bytes) :
  pe_access s = AAccounts fps ->
  let '(out, s') := cmd_access arg allow s in
  length out = 1%nat /\
  (s' = s \/ exists fp, names_one (split_once SPACE arg).1 fp s /\
    forall account contact friend, admits (pe_access s') account contact friend =
      if decide (account = fp) then allow else admits (pe_access s) account contact friend).
Proof.
  intros Ha. unfold cmd_access. destruct (resolve_seen _ s) as [[fp|] out] eqn:Er.
  - apply resolve_exact in Er as [-> Hn]. destruct allow; (split; [done|]); right; exists fp; (split; [done|]); intros account contact friend.
    + unfold allow_account. rewrite Ha. cbn. case_decide as He; [subst; apply bool_decide_eq_true; set_solver|].
      apply bool_decide_ext. set_solver.
    + unfold deny_account. rewrite Ha. cbn. case_decide as He; [subst; apply bool_decide_eq_false; set_solver|].
      apply bool_decide_ext. set_solver.
  - split; [by eapply resolve_failed|by left].
Qed.

(** On a channel without an allow list [/deny] reports success and denies nothing. *)
Lemma deny_without_list arg s fp : (forall fps, pe_access s <> AAccounts fps) -> resolve_seen (split_once SPACE arg).1 s = (Some fp, []) ->
  cmd_access arg false s = ([bstr "revoked access for " ++ short_fp fp], s).
Proof. intros Ha Hr. unfold cmd_access. rewrite Hr. cbn [app]. f_equal. unfold deny_account. destruct (pe_access s); try done. by destruct (Ha fps). Qed.

(** 96 bytes with a character across two pairs: [/vouch] panics, which ends the process. *)
Lemma vouch_panics now on s : cmd_vouch now (bstr "aé" ++ replicate 93 (byte_of 97)) on s = None.
Proof. unfold cmd_vouch. replace (if decide _ then _ else _) with (@None (option bytes)); [done|]. vm_compute. reflexivity. Qed.
End Commands.
